(* ===== verification/_CoqProject ===== *)
-Q . S2P
Prelude.v
Bits.v
DList.v
RBTree.v
Memblock.v
Pmm.v
PmmInit.v
Pid.v
Pmap.v
PageSources.v
UserPages.v
VmaTree.v
Vma.v
VmaPages.v
VmaOps.v
VmaProtect.v
VmaFault.v
SysMm.v
UserMemory.v
Spinlock.v
Sched.v
SchedInv.v
SchedOps.v
SchedSteps.v
Task.v
SchedSystem.v
SchedInit.v
Scheduler.v
Process.v
Slab.v
SlabInv.v
SlabSteps.v
SlabFree.v
SlabHeap.v
Lz4.v
