(* ===== verification/Prelude.v ===== *)
(** * Lume: a verification of the core of the LumeOS kernel

    LumeOS is a RISC-V kernel in C++.  The live code is the tree [src/na]; the
    tree [src/src] with [src/include] is the previous kernel it replaces.  This
    development models the memory management and the task management of
    [src/na] as executable Rocq functions and proves what makes them correct.

    ** The program and its model

    - Boot finds RAM and records reservations in memblock
      ([mm/memblock.cc], file [Memblock]); [pmm_init] feeds what is left to the
      buddy allocator with per-CPU caches ([mm/pmm.cc], files [Pmm], [PmmInit]).
      Bit operations and address conversions ([bitops.h], [addr.h]) are [Bits].
    - The kernel heap ([mm/slab.cc], file [Slab]) cuts pages of the buddy
      allocator into objects of nine sizes and serves [kmalloc], [kfree],
      [new] and [delete].  [SlabInv] has its invariant, [SlabSteps] and
      [SlabFree] what each routine does to it, [SlabHeap] the properties.
    - Page tables ([arch/riscv/mm/pmap.cc], file [Pmap]) are words of a store of
      physical memory; their pages come from a source of pages, the class
      [PageSource], and [PageSources] discharges it with the buddy allocator.
    - Address spaces ([mm/vma.cc]) keep areas in a red-black tree
      ([lib/rbtree.cc], [rbtree.h], [rbtree_augmented.h], file [RBTree]) and pages
      in page tables: [VmaTree] (the areas), [Vma] (every routine of [vma.cc]),
      [VmaPages], [VmaOps], [VmaProtect], [VmaFault] (their lemmas).  They are
      proved against interfaces: [OrderedTree] for the tree, [UserPages]
      (file [UserPages]) for pages with reference counts, [ObjectHeap] for
      [new] and [delete].  [SysMm] has the system calls brk, mmap, munmap and
      mprotect ([kernel/sys_mm.cc]); [UserMemory] states the properties for the
      red-black tree and the buddy allocator.
    - Locks ([kernel/sync/spinlock.cc], file [Spinlock]) are modelled access by
      access, on interleaved CPUs.  They justify treating the critical sections
      of the other components as single steps.
    - The scheduler: [Sched] has run queues, the O(1) and idle classes, the core
      and the wait queues ([sched_internal.h], [sched_class_o1.cc],
      [sched_core.cc], [waitqueue.cc]); tasks are linked through nodes of a
      shared store ([list.h], file [DList]).  [SchedInv], [SchedOps] and
      [SchedSteps] prove each operation, [SchedSystem] makes the critical
      sections of all CPUs the events of one transition system, [SchedInit]
      shows that [sched_init] starts it, [Scheduler] states the properties.
    - Tasks ([kernel/task.cc], [kernel/sys_process.cc], file [Task]): creation,
      fork, exit, wait and the process system calls, over process identifiers
      ([kernel/pid.cc], file [Pid]); memory and address spaces are called
      through the class [TaskEnv].  [Process] states the properties of waiting.
    - The kernel image is unpacked by an LZ4 decompressor
      ([lib/decompress_lz4.cc], file [Lz4]).

    ** How code becomes definitions

    A routine is a function that takes the state it reads and returns the state
    it writes; one that can call [kernel_panic] returns an [outcome].  Structs
    are records, enums inductive types, with the names of the source.  Machine
    integers are [Z] with the wrap-around written out ([wrap]); pointers are
    addresses in [Z] and null is [None]; a pointer the code follows without a
    check is followed by [deref], which faults on null.  Arrays and stores are
    finite maps.  A loop is a step function run by [loop k], which performs up to
    [2 ^ k] iterations: 64-bit loops run with [k = 64], which no loop of a 64-bit
    machine exhausts, and every property proves that the loop leaves by itself,
    never that it might.  Loops with a constant bound (priorities, bitmap words,
    page-table entries) are recursions on that bound.

    ** What the theorems show

    - Physical memory: for all client behaviour within the contract, blocks never
      overlap and none is lost; no panic; boot feeds exactly the free pages; the
      last dropped reference returns the block.
    - Kernel heap, on one CPU: objects never overlap, operations never panic and
      keep the contents of other objects, freeing everything returns every page;
      null is returned only when memory is short.  On two CPUs objects can overlap.
    - Page tables: each routine changes exactly the translation of its page.
    - Address spaces: map, unmap, protect and the page-fault handler change
      exactly their range, keep reference counts equal to the mappings, and keep
      the invariant on every branch; the search for free address space
      terminates with the lowest place.
    - Red-black trees: insertion and removal keep balance and order; iteration
      terminates in order.  Intrusive lists refine sequences.
    - Locks: mutual exclusion, exact misuse checks, hand-over, interrupt restore.
    - Scheduler: under all interleavings every task is on exactly the list its
      state names; [schedule] runs the most urgent task; turns are round robin;
      slices expire on time; wake-ups terminate and lose no waiter; suspended
      registers are kept.
    - Processes: the outcomes of wait, the encoding of exit status, fresh
      identifiers.
    - Decompression: no access out of bounds on any input; it inverts the block
      format.

    ** Not modelled, and why

    - The weak memory model: accesses are sequentially consistent; the code orders
      them with acquire and release.  TLB flushes have no counterpart.
    - The dummy augmentation of the red-black tree is the only one, and the
      leftmost-cached trees are left out, as nothing in the kernel uses others.
    - Kernel mappings, traps and interrupts, the exception
      table, the kernel log, relocation and the device tree are planned and
      reached through interfaces so far; drivers and boot assembly are hardware
      access; [lib/printf.c] is third-party code; [na/test] holds tests. *)

From stdpp Require Export prelude gmap list strings sorting.
From Stdlib Require Export ZArith Lia.
#[export] Set Default Proof Using "Type".
#[export] Set Default Goal Selector "!".
Open Scope Z_scope.

(** ** Outcomes: a kernel routine returns, or calls [kernel_panic] *)

Inductive outcome (A : Type) : Type :=
| Ret (a : A)
| Panic (msg : string)
| OutOfFuel. (* a loop of the model hit its iteration bound *)
Arguments Ret {A} a.
Arguments Panic {A} msg.
Arguments OutOfFuel {A}.

#[export] Instance outcome_ret : MRet outcome := @Ret.
#[export] Instance outcome_bind : MBind outcome := λ A B f m,
  match m with Ret a => f a | Panic msg => Panic msg | OutOfFuel => OutOfFuel end.

(** ** Machine integers *)

Declare Scope kernel_scope.
Delimit Scope kernel_scope with kernel.

Definition wrap (w z : Z) : Z := z mod 2 ^ w.
Abbreviation u8 z := (wrap 8 z).
Abbreviation u32 z := (wrap 32 z).
Abbreviation u64 z := (wrap 64 z).

(** Two's complement reading of a [w]-bit value, as in a cast to [int32]. *)
Definition signed (w z : Z) : Z :=
  let r := z mod 2 ^ w in if r <? 2 ^ (w - 1) then r else r - 2 ^ w.

Definition is_u64 (z : Z) : Prop := 0 ≤ z < 2 ^ 64.
Definition is_u32 (z : Z) : Prop := 0 ≤ z < 2 ^ 32.

Lemma wrap_range w z : 0 ≤ w → 0 ≤ wrap w z < 2 ^ w.
Proof. intros. apply Z.mod_pos_bound. lia. Qed.

Lemma wrap_small w z : 0 ≤ z < 2 ^ w → wrap w z = z.
Proof. intros. by apply Z.mod_small. Qed.

Lemma wrap_is_u64 z : is_u64 (u64 z).
Proof. by apply wrap_range. Qed.

Lemma wrap_is_u32 z : is_u32 (u32 z).
Proof. by apply wrap_range. Qed.

(** ** Loops

    A C loop is a step function on the loop's state that either asks for
    another iteration ([inl]) or leaves the loop ([inr]).  [loop k] performs
    up to [2 ^ k] iterations, so a loop whose measure fits a [k]-bit register
    never runs out, and the function still evaluates: iterations that are not
    needed are not performed. *)

Fixpoint loop {S R : Type} (k : nat) (step : S → S + R) (s : S) : S + R :=
  match k with
  | O => step s
  | Datatypes.S k' =>
      match loop k' step s with
      | inl s' => loop k' step s'
      | inr r => inr r
      end
  end.

Section loop.
Context {S R : Type} (step : S → S + R).
Context (I : S → Prop) (m : S → Z) (Q : R → Prop).

(** One iteration keeps the invariant and decreases the measure, or leaves
    the loop with the postcondition. *)
Hypothesis step_ok : ∀ s, I s →
  match step s with
  | inl s' => I s' ∧ 0 ≤ m s' < m s
  | inr r => Q r
  end.

Lemma loop_progress k s :
  I s →
  match loop k step s with
  | inl s' => I s' ∧ 0 ≤ m s' ∧ m s' + 2 ^ Z.of_nat k ≤ m s
  | inr r => Q r
  end.
Proof using step_ok.
  revert s. induction k as [|k IH]; intros s HI; cbn [loop].
  - specialize (step_ok s HI). destruct (step s); [|done].
    change (2 ^ Z.of_nat 0) with 1. intuition lia.
  - pose proof (IH s HI) as H1. destruct (loop k step s) as [s1|r1]; [|done].
    destruct H1 as (HI1 & H1 & H1').
    pose proof (IH s1 HI1) as H2. destruct (loop k step s1) as [s2|r2]; [|done].
    destruct H2 as (HI2 & H2 & H2').
    rewrite Nat2Z.inj_succ, Z.pow_succ_r by lia. intuition lia.
Qed.

(** Total correctness of a loop whose measure fits in [k] bits. *)
Lemma loop_total k s :
  I s → m s < 2 ^ Z.of_nat k → ∃ r, loop k step s = inr r ∧ Q r.
Proof using step_ok.
  intros HI Hm. pose proof (loop_progress k s HI) as H.
  destruct (loop k step s) as [s'|r]; [lia|]. eauto.
Qed.
End loop.

(** A loop whose [i]-th iteration deals with the [i]-th item of a list: [P l s]
    holds when [l] is left to do. *)
Section loop_list.
Context {X S R : Type} (step : S → S + R) (P : list X → S → Prop) (Q : R → Prop).
Hypothesis step_nil : ∀ s, P [] s → ∃ r, step s = inr r ∧ Q r.
Hypothesis step_cons : ∀ x l s, P (x :: l) s → match step s with inl s' => P l s' | inr r => Q r end.

Lemma loop_list_progress k l s :
  P l s →
  match loop k step s with
  | inl s' => ∃ l', P l' s' ∧ Z.of_nat (length l') + 2 ^ Z.of_nat k ≤ Z.of_nat (length l)
  | inr r => Q r
  end.
Proof using step_nil step_cons.
  revert l s. induction k as [|k IH]; intros l s Hl; cbn [loop].
  - destruct l as [|x l]; [by destruct (step_nil s Hl) as (r & -> & ?)|].
    pose proof (step_cons x l s Hl) as H. destruct (step s) as [s'|r]; [|done]. exists l. split; [done|]. cbn. lia.
  - pose proof (IH l s Hl) as H1. destruct (loop k step s) as [s1|r1]; [|done].
    destruct H1 as (l1 & Hl1 & H1). pose proof (IH l1 s1 Hl1) as H2.
    destruct (loop k step s1) as [s2|r2]; [|done].
    destruct H2 as (l2 & Hl2 & H2). exists l2. split; [done|].
    rewrite Nat2Z.inj_succ, Z.pow_succ_r by lia. lia.
Qed.

Lemma loop_list k l s :
  P l s → Z.of_nat (length l) < 2 ^ Z.of_nat k → ∃ r, loop k step s = inr r ∧ Q r.
Proof using step_nil step_cons.
  intros Hl Hk. pose proof (loop_list_progress k l s Hl) as H.
  destruct (loop k step s) as [s'|r]; [|eauto]. destruct H as (l' & _ & H). lia.
Qed.
End loop_list.

(** A loop over a sequence of items with an early exit: [inl] goes on with the
    next item, [inr] leaves the loop. *)
Fixpoint scan {X S R : Type} (f : X → S → outcome (S + R)) (l : list X) (s : S) : outcome (S + R) :=
  match l with
  | [] => Ret (inl s)
  | x :: l' => r ← f x s; match r with inl s' => scan f l' s' | inr r => Ret (inr r) end
  end.

Lemma scan_app {X S R} (f : X → S → outcome (S + R)) l k s :
  scan f (l ++ k) s = (r ← scan f l s; match r with inl s' => scan f k s' | inr r => Ret (inr r) end).
Proof.
  revert s. induction l as [|x l IH]; intros s; cbn; [by destruct (scan f k s)|].
  destruct (f x s) as [[s'|r]| |]; cbn; [apply IH|done..].
Qed.

(** A loop whose [i]-th iteration works on the [i]-th item of [l]: the cursor
    [c] stands for what is left of the sequence. *)
Section scan_loop.
Context {C X S R : Type} (f : X → S → outcome (S + R)).
Context (at_ : C → list X → Prop) (step : C * S → C * S + outcome (S + R)).
Hypothesis step_nil : ∀ c s, at_ c [] → step (c, s) = inr (Ret (inl s)).
Hypothesis step_cons : ∀ c x l s, at_ c (x :: l) →
  match f x s with
  | Ret (inl s') => ∃ c', at_ c' l ∧ step (c, s) = inl (c', s')
  | Ret (inr r) => step (c, s) = inr (Ret (inr r))
  | Panic msg => step (c, s) = inr (Panic msg)
  | OutOfFuel => step (c, s) = inr OutOfFuel
  end.

Lemma scan_loop k l c s :
  at_ c l → Z.of_nat (length l) < 2 ^ Z.of_nat k → loop k step (c, s) = inr (scan f l s).
Proof using step_nil step_cons.
  intros Hc Hk.
  destruct (loop_list step (λ l' cs, at_ cs.1 l' ∧ scan f l s = scan f l' cs.2) (λ r, r = scan f l s))
    with (k := k) (l := l) (s := (c, s)) as (r & -> & ->); try done.
  - intros [c' s'] [Hc' E]. cbn in *. eexists. split; [by apply step_nil|]. by rewrite E.
  - intros x l' [c' s'] [Hc' E]. cbn in *. pose proof (step_cons c' x l' s' Hc') as K.
    destruct (f x s') as [[s''|r]|msg|]; cbn in E; [|by rewrite K..].
    destruct K as (c'' & Hc'' & ->). done.
Qed.
End scan_loop.
