(* ===== verification/Bits.v ===== *)
(** * Bits: bit operations and address arithmetic

    Models [na/include/lume/bitops.h] (the hand-written [ctz], [clz], [ffs],
    [fls], [ilog2] and power-of-two test) and [na/include/lume/addr.h] (page
    alignment, direct-map conversions), on 32- and 64-bit values kept at their
    width. *)

From S2P Require Import Prelude.

(** ** Configuration constants ([na/include/lume/config.h], [arch/config.h]) *)

Definition kPageSize : Z := 4096.
Definition kMaxCpus : Z := 8.
Definition kDirectMapBaseDefault : Z := 0xFFFFFFC000000000.

(** ** [namespace lume]: count trailing and leading zeros *)

Definition ctz32 (val : Z) : Z :=
  let '(n, val) := if Z.land val 0x0000FFFF =? 0 then (0 + 16, Z.shiftr val 16) else (0, val) in
  let '(n, val) := if Z.land val 0x000000FF =? 0 then (n + 8, Z.shiftr val 8) else (n, val) in
  let '(n, val) := if Z.land val 0x0000000F =? 0 then (n + 4, Z.shiftr val 4) else (n, val) in
  let '(n, val) := if Z.land val 0x00000003 =? 0 then (n + 2, Z.shiftr val 2) else (n, val) in
  if Z.land val 0x00000001 =? 0 then n + 1 else n.

Definition ctz64 (val : Z) : Z :=
  if negb (u32 val =? 0) then ctz32 (u32 val)
  else 32 + ctz32 (u32 (Z.shiftr val 32)).

Definition clz32 (val : Z) : Z :=
  let '(n, val) := if Z.land val 0xFFFF0000 =? 0 then (0 + 16, u32 (Z.shiftl val 16)) else (0, val) in
  let '(n, val) := if Z.land val 0xFF000000 =? 0 then (n + 8, u32 (Z.shiftl val 8)) else (n, val) in
  let '(n, val) := if Z.land val 0xF0000000 =? 0 then (n + 4, u32 (Z.shiftl val 4)) else (n, val) in
  let '(n, val) := if Z.land val 0xC0000000 =? 0 then (n + 2, u32 (Z.shiftl val 2)) else (n, val) in
  if Z.land val 0x80000000 =? 0 then n + 1 else n.

Definition clz64 (val : Z) : Z :=
  if negb (u32 (Z.shiftr val 32) =? 0) then clz32 (u32 (Z.shiftr val 32))
  else 32 + clz32 (u32 val).

Definition ffs32 (val : Z) : Z := if val =? 0 then 0 else ctz32 val + 1.
Definition ffs64 (val : Z) : Z := if val =? 0 then 0 else ctz64 val + 1.
Definition fls32 (val : Z) : Z := if val =? 0 then 0 else 32 - clz32 val.
Definition fls64 (val : Z) : Z := if val =? 0 then 0 else 64 - clz64 val.
Definition ilog2_32 (val : Z) : Z := fls32 val - 1.
Definition ilog2_64 (val : Z) : Z := fls64 val - 1.

Definition is_power_of_2 (val : Z) : bool :=
  negb (val =? 0) && (Z.land val (u64 (val - 1)) =? 0).

(** ** Address helpers *)

Definition page_align_down (addr : Z) : Z := Z.land addr (u64 (Z.lnot (kPageSize - 1))).
Definition page_align_up (addr : Z) : Z :=
  Z.land (u64 (addr + kPageSize - 1)) (u64 (Z.lnot (kPageSize - 1))).

Definition pa_to_va (direct_map_base pa : Z) : Z := u64 (pa + direct_map_base).
Definition va_to_pa (direct_map_base va : Z) : Z := u64 (va - direct_map_base).
Definition boot_pa_to_va (pa : Z) : Z := u64 (pa + kDirectMapBaseDefault).
Definition boot_va_to_pa (va : Z) : Z := u64 (va - kDirectMapBaseDefault).
Definition pa_to_pfn (pa : Z) : Z := pa / kPageSize.
Definition pfn_to_pa (pfn : Z) : Z := u64 (pfn * kPageSize).

(** ** Generic facts about masks and shifts *)

Lemma land_ones_mod a k : 0 ≤ k → Z.land a (2 ^ k - 1) = a mod 2 ^ k.
Proof.
  intros. replace (2 ^ k - 1) with (Z.ones k) by (rewrite Z.ones_equiv; lia).
  by apply Z.land_ones.
Qed.

(** A value with no bit among the [k] top bits of an [n + k]-bit field. *)
Lemma land_high_zero a n k :
  0 ≤ n → 0 ≤ k → 0 ≤ a < 2 ^ (n + k) →
  Z.land a (Z.shiftl (Z.ones k) n) = 0 ↔ a < 2 ^ n.
Proof.
  intros Hn Hk Ha. split.
  - intros H. apply Z.nle_gt. intros Hge.
    assert (Hl : n ≤ Z.log2 a < n + k).
    { split; [by apply Z.log2_le_pow2; lia|]. apply Z.log2_lt_pow2; lia. }
    assert (Hb : Z.testbit (Z.land a (Z.shiftl (Z.ones k) n)) (Z.log2 a) = true).
    { rewrite Z.land_spec, Z.bit_log2, Z.shiftl_spec, Z.testbit_ones_nonneg by lia.
      apply Z.ltb_lt. lia. }
    by rewrite H, Z.bits_0 in Hb.
  - intros H. apply Z.bits_inj'. intros i Hi. rewrite Z.land_spec, Z.bits_0.
    destruct (decide (i < n)).
    + rewrite Z.shiftl_spec_low by lia. apply andb_false_r.
    + rewrite (Z.mod_pow2_bits_high a n i) || idtac.
      replace a with (a mod 2 ^ n) by (apply Z.mod_small; lia).
      rewrite Z.mod_pow2_bits_high by lia. done.
Qed.

(** A value below [2^n] is one with no bit at or above [n]. *)
Lemma bits_bound n v :
  0 ≤ n → 0 ≤ v < 2 ^ n ↔ 0 ≤ v ∧ ∀ i, n ≤ i → Z.testbit v i = false.
Proof.
  intros Hn. split.
  - intros Hv. split; [lia|]. intros i Hi. rewrite <- (Z.mod_small v (2 ^ n)) by lia.
    by rewrite Z.mod_pow2_bits_high by lia.
  - intros [H0 Hb]. split; [done|]. destruct (decide (v = 0)) as [->|]; [lia|].
    apply Z.log2_lt_pow2; [lia|]. apply Z.nle_gt. intros Hl.
    specialize (Hb (Z.log2 v) Hl). by rewrite Z.bit_log2 in Hb by lia.
Qed.

(** A field above [k] bits and one below do not meet. *)
Lemma land_low_high k q f : 0 ≤ k → 0 ≤ f < 2 ^ k → Z.land (q * 2 ^ k) f = 0.
Proof.
  intros Hk Hf. apply Z.bits_inj'. intros i Hi. rewrite Z.land_spec, Z.bits_0.
  destruct (decide (i < k)).
  - by rewrite Z.mul_pow2_bits_low by lia.
  - rewrite <- (Z.mod_small f (2 ^ k)) by lia. rewrite Z.mod_pow2_bits_high by lia. apply andb_false_r.
Qed.

Lemma lor_low_high k q f : 0 ≤ k → 0 ≤ f < 2 ^ k → Z.lor (q * 2 ^ k) f = q * 2 ^ k + f.
Proof.
  intros Hk Hf. pose proof (Z.add_lor_land (q * 2 ^ k) f) as H.
  rewrite land_low_high in H by done. lia.
Qed.

Lemma lor_bound n a b : 0 ≤ n → 0 ≤ a < 2 ^ n → 0 ≤ b < 2 ^ n → 0 ≤ Z.lor a b < 2 ^ n.
Proof.
  intros Hn. rewrite !bits_bound by done. intros [? Ha] [? Hb]. split; [by apply Z.lor_nonneg|].
  intros i Hi. by rewrite Z.lor_spec, Ha, Hb.
Qed.

Lemma land_bound n a b : 0 ≤ n → 0 ≤ a < 2 ^ n → 0 ≤ Z.land a b < 2 ^ n.
Proof.
  intros Hn. rewrite !bits_bound by done. intros [? Ha]. split; [apply Z.land_nonneg; auto|].
  intros i Hi. by rewrite Z.land_spec, Ha.
Qed.

(** *** Trailing zeros *)

Section ctz.
Context (val : Z).

(** [val] is [v] shifted left by [n], and [v] has a bit among its low [k]. *)
Definition ctz_inv (k n v : Z) : Prop := 0 ≤ n ∧ val = v * 2 ^ n ∧ v mod 2 ^ k ≠ 0.

Lemma ctz_stage k n v :
  0 ≤ k → ctz_inv (k + k) n v →
  let '(n', v') := if Z.land v (2 ^ k - 1) =? 0 then (n + k, Z.shiftr v k) else (n, v) in
  ctz_inv k n' v'.
Proof.
  intros Hk (Hn & Hv & Hm). rewrite land_ones_mod by done.
  destruct (Z.eqb_spec (v mod 2 ^ k) 0) as [E|E]; [|unfold ctz_inv; intuition lia].
  pose proof (Z.div_mod v (2 ^ k)) as Hd. rewrite E in Hd.
  rewrite Z.shiftr_div_pow2 by done.
  repeat split; [lia| |].
  - rewrite Hv, Z.pow_add_r by lia. nia.
  - intros E2. apply Hm. rewrite Z.pow_add_r, Z.rem_mul_r by lia. lia.
Qed.

(** The ladder leaves the exact power of two that divides [val]. *)
Lemma ctz32_factor :
  0 < val < 2 ^ 32 → ∃ v, 0 ≤ ctz32 val ∧ val = v * 2 ^ ctz32 val ∧ Z.odd v = true.
Proof.
  intros Hval. unfold ctz32.
  assert (H : ctz_inv (16 + 16) 0 val).
  { split_and!; [done|lia|]. rewrite Z.mod_small; lia. }
  apply (ctz_stage 16) in H; [|done]. change (2 ^ 16 - 1) with 65535 in H.
  case_match. apply (ctz_stage 8) in H; [|done]. change (2 ^ 8 - 1) with 255 in H.
  case_match. apply (ctz_stage 4) in H; [|done]. change (2 ^ 4 - 1) with 15 in H.
  case_match. apply (ctz_stage 2) in H; [|done]. change (2 ^ 2 - 1) with 3 in H.
  case_match. apply (ctz_stage 1) in H; [|done]. change (2 ^ 1 - 1) with 1 in H.
  match goal with |- context [if ?b then _ else _] => destruct b end;
    destruct H as (Hn & Hv & Hm); eexists; (split_and!; [exact Hn|exact Hv|]);
    change (2 ^ 1) with 2 in Hm; rewrite Zmod_odd in Hm; by case_match.
Qed.
End ctz.

Lemma factor_testbit v n i :
  0 ≤ n → Z.odd v = true → 0 ≤ i →
  Z.testbit (v * 2 ^ n) i = if decide (i < n) then false else Z.testbit v (i - n).
Proof.
  intros Hn Ho Hi. rewrite <- Z.shiftl_mul_pow2 by done. case_decide.
  - by apply Z.shiftl_spec_low.
  - apply Z.shiftl_spec. lia.
Qed.

(** *** Leading zeros *)

Section clz.
Context (val : Z).

(** [v] is [val] shifted left by [n] inside the 32-bit register, and its top
    bit is among the upper [k]. *)
Definition clz_inv (k n v : Z) : Prop := 0 ≤ n ∧ v = val * 2 ^ n ∧ 2 ^ (32 - k) ≤ v < 2 ^ 32.

Lemma clz_stage k n v :
  0 ≤ k → k + k ≤ 32 → clz_inv (k + k) n v →
  let '(n', v') := if Z.land v (Z.shiftl (Z.ones k) (32 - k)) =? 0
                   then (n + k, u32 (Z.shiftl v k)) else (n, v) in
  clz_inv k n' v'.
Proof.
  intros Hk Hk2 (Hn & Hv & Hr).
  pose proof (land_high_zero v (32 - k) k) as HL.
  replace (32 - k + k) with 32 in HL by lia.
  assert (0 < 2 ^ (32 - (k + k))) by lia.
  assert (Hp : 2 ^ 32 = 2 ^ (32 - k) * 2 ^ k) by (rewrite <- Z.pow_add_r by lia; f_equal; lia).
  assert (Hp2 : 2 ^ (32 - k) = 2 ^ (32 - (k + k)) * 2 ^ k)
    by (rewrite <- Z.pow_add_r by lia; f_equal; lia).
  destruct (Z.eqb_spec (Z.land v (Z.shiftl (Z.ones k) (32 - k))) 0) as [E|E].
  - apply HL in E; [|lia..]. rewrite Z.shiftl_mul_pow2 by done.
    rewrite wrap_small by nia. repeat split; [lia| |nia|nia].
    rewrite Hv, Z.pow_add_r by lia. lia.
  - repeat split; [lia|done| |lia]. apply Z.nlt_ge. intros Hlt. apply E, HL; lia.
Qed.

Lemma clz32_log2 : 0 < val < 2 ^ 32 → clz32 val = 31 - Z.log2 val.
Proof.
  intros Hval. unfold clz32.
  assert (H : clz_inv (16 + 16) 0 val).
  { split_and!; [done|lia|cbn; lia|lia]. }
  apply (clz_stage 16) in H; [|done..].
  change (Z.shiftl (Z.ones 16) (32 - 16)) with 4294901760 in H.
  case_match. apply (clz_stage 8) in H; [|done..].
  change (Z.shiftl (Z.ones 8) (32 - 8)) with 4278190080 in H.
  case_match. apply (clz_stage 4) in H; [|done..].
  change (Z.shiftl (Z.ones 4) (32 - 4)) with 4026531840 in H.
  case_match. apply (clz_stage 2) in H; [|done..].
  change (Z.shiftl (Z.ones 2) (32 - 2)) with 3221225472 in H.
  case_match. apply (clz_stage 1) in H; [|done..].
  change (Z.shiftl (Z.ones 1) (32 - 1)) with 2147483648 in H.
  match goal with |- context [if ?b then _ else _] => destruct b end;
    destruct H as (Hn & Hv & Hr); rewrite Hv in Hr;
    assert (Hl : Z.log2 (val * 2 ^ _) = 31) by (apply Z.log2_unique; [lia|exact Hr]);
    rewrite Z.log2_mul_pow2 in Hl by lia; lia.
Qed.
End clz.

Lemma ilog2_32_log2 val : 0 < val < 2 ^ 32 → ilog2_32 val = Z.log2 val.
Proof.
  intros. unfold ilog2_32, fls32. rewrite clz32_log2 by done.
  case_match eqn:E; [apply Z.eqb_eq in E; lia|lia].
Qed.

Lemma ctz64_factor val :
  0 < val < 2 ^ 64 → ∃ v, 0 ≤ ctz64 val ∧ val = v * 2 ^ ctz64 val ∧ Z.odd v = true.
Proof.
  intros Hval. unfold ctz64. pose proof (wrap_range 32 val ltac:(done)) as Hw.
  pose proof (Z.div_mod val (2 ^ 32) ltac:(done)) as Hd. fold (u32 val) in Hd.
  destruct (Z.eqb_spec (u32 val) 0) as [E|E]; cbn [negb].
  - rewrite Z.shiftr_div_pow2 by done. rewrite (wrap_small 32 (val / 2 ^ 32)).
    2: { split; [apply Z.div_pos; lia|]. apply Z.div_lt_upper_bound; lia. }
    destruct (ctz32_factor (val / 2 ^ 32)) as (v & H0 & Hv & Ho).
    { split; [|apply Z.div_lt_upper_bound; lia]. lia. }
    exists v. split_and!; [lia| |done]. rewrite Z.pow_add_r by lia. lia.
  - destruct (ctz32_factor (u32 val)) as (v & H0 & Hv & Ho); [lia|].
    set (c := ctz32 (u32 val)) in *.
    assert (Hc : c < 32).
    { apply Z.nle_gt. intros Hc.
      assert (2 ^ 32 ≤ 2 ^ c) by (by apply Z.pow_le_mono_r).
      assert (0 < v) by (destruct (decide (0 < v)); [done|nia]). nia. }
    exists (val / 2 ^ 32 * 2 ^ (32 - c) + v). split_and!; [done| |].
    + rewrite Z.mul_add_distr_r, <- Z.mul_assoc, <- Z.pow_add_r by lia.
      replace (32 - c + c) with 32 by lia. lia.
    + rewrite Z.odd_add, Z.odd_mul, Z.odd_pow by lia. rewrite Ho, andb_false_r. done.
Qed.

Lemma ilog2_64_log2 val : 0 < val < 2 ^ 64 → ilog2_64 val = Z.log2 val.
Proof.
  intros Hval. unfold ilog2_64, fls64, clz64. rewrite Z.shiftr_div_pow2 by done.
  assert (Hh : 0 ≤ val / 2 ^ 32 < 2 ^ 32).
  { split; [apply Z.div_pos; lia|apply Z.div_lt_upper_bound; lia]. }
  rewrite (wrap_small 32 (val / 2 ^ 32)) by done.
  rewrite (proj2 (Z.eqb_neq val 0)) by lia.
  destruct (Z.eqb_spec (val / 2 ^ 32) 0) as [E|E]; cbn [negb].
  - assert (val < 2 ^ 32) by (apply Z.div_small_iff in E; lia).
    rewrite wrap_small by lia. rewrite clz32_log2 by lia. lia.
  - rewrite clz32_log2 by lia. rewrite <- Z.shiftr_div_pow2, Z.log2_shiftr by lia.
    assert (32 ≤ Z.log2 val); [|lia].
    apply Z.log2_le_pow2; [lia|]. apply Z.nlt_ge. intros ?. apply E, Z.div_small. lia.
Qed.

(** ** Page alignment *)

Lemma page_mask : u64 (Z.lnot (kPageSize - 1)) = 2 ^ 64 - 2 ^ 12.
Proof. reflexivity. Qed.

(** Masking with [~(2^k - 1)] rounds down to a multiple of [2^k]. *)
Lemma land_align_mask a k :
  0 ≤ k ≤ 64 → is_u64 a → Z.land a (2 ^ 64 - 2 ^ k) = a - a mod 2 ^ k.
Proof.
  intros Hk Ha. replace (2 ^ 64 - 2 ^ k) with (Z.ldiff (Z.ones 64) (Z.ones k)).
  - rewrite Z.ldiff_land, Z.land_assoc, (Z.land_ones a 64), Z.mod_small by (done || exact Ha).
    rewrite <- Z.ldiff_land, Z.ldiff_ones_r by lia.
    rewrite Z.shiftl_mul_pow2, Z.shiftr_div_pow2 by lia. rewrite (Z.mod_eq a (2 ^ k)) by lia. lia.
  - rewrite Z.ldiff_ones_r, Z.shiftl_mul_pow2, Z.shiftr_div_pow2 by lia.
    rewrite Z.ones_equiv.
    assert (Hp : 2 ^ 64 = 2 ^ (64 - k) * 2 ^ k) by (rewrite <- Z.pow_add_r by lia; f_equal; lia).
    assert (Hd : Z.pred (2 ^ 64) / 2 ^ k = 2 ^ (64 - k) - 1); [|rewrite Hd; lia].
    symmetry. apply (Z.div_unique _ _ _ (2 ^ k - 1)); lia.
Qed.

Lemma land_page_mask a : is_u64 a → Z.land a (2 ^ 64 - 2 ^ 12) = a - a mod kPageSize.
Proof. by apply land_align_mask. Qed.

Lemma page_align_down_eq a : is_u64 a → page_align_down a = a - a mod kPageSize.
Proof. intros. unfold page_align_down. rewrite page_mask. by apply land_page_mask. Qed.

Lemma page_align_up_eq a :
  page_align_up a = u64 (a + 4095) - u64 (a + 4095) mod kPageSize.
Proof.
  unfold page_align_up. rewrite page_mask, land_page_mask by apply wrap_is_u64.
  by replace (a + kPageSize - 1) with (a + 4095) by (unfold kPageSize; lia).
Qed.

Definition page_aligned (a : Z) : Prop := a mod kPageSize = 0.
#[export] Instance page_aligned_dec a : Decision (page_aligned a) := decide (a mod kPageSize = 0).

(** [page_align_down] is the greatest page boundary at or below its argument. *)
Lemma page_align_down_spec a :
  is_u64 a → page_aligned (page_align_down a) ∧ a - kPageSize < page_align_down a ≤ a ∧
             0 ≤ page_align_down a.
Proof.
  intros Ha. rewrite page_align_down_eq by done. unfold page_aligned, kPageSize, is_u64 in *.
  pose proof (Z.mod_pos_bound a 4096). pose proof (Z.mod_le a 4096).
  rewrite Zminus_mod, Zmod_mod, Z.sub_diag. split_and!; (done || lia).
Qed.

(** [page_align_up] is the least page boundary at or above its argument, unless
    the addition wraps around, when it is zero. *)
Lemma page_align_up_spec a :
  0 ≤ a ≤ 2 ^ 64 - kPageSize →
  page_aligned (page_align_up a) ∧ a ≤ page_align_up a < a + kPageSize.
Proof.
  intros Ha. rewrite page_align_up_eq. unfold page_aligned, kPageSize in *.
  rewrite wrap_small by lia. pose proof (Z.mod_pos_bound (a + 4095) 4096).
  rewrite Zminus_mod, Zmod_mod, Z.sub_diag. split; [done|lia].
Qed.

Lemma page_align_up_wraps a :
  2 ^ 64 - kPageSize < a < 2 ^ 64 → page_align_up a = 0.
Proof.
  intros Ha. rewrite page_align_up_eq. unfold kPageSize in *. unfold wrap.
  replace ((a + 4095) mod 2 ^ 64) with (a + 4095 - 2 ^ 64).
  - rewrite Z.mod_small; lia.
  - apply (Z.mod_unique _ _ 1); lia.
Qed.

Lemma page_align_up_id a : is_u64 a → page_aligned a → page_align_up a = a.
Proof.
  intros [H0 H1] Hal. assert (a ≤ 2 ^ 64 - kPageSize).
  { unfold page_aligned, kPageSize in *. pose proof (Z.div_mod a 4096). lia. }
  destruct (page_align_up_spec a) as [Hu Hr]; [lia|].
  unfold page_aligned, kPageSize in *.
  pose proof (Z.div_mod a 4096). pose proof (Z.div_mod (page_align_up a) 4096). lia.
Qed.

Lemma page_align_down_id a : is_u64 a → page_aligned a → page_align_down a = a.
Proof. intros Ha Hal. rewrite page_align_down_eq by done. unfold page_aligned in Hal. lia. Qed.

(** ** Powers of two as block sizes *)

Definition pow2 (o : nat) : Z := 2 ^ Z.of_nat o.

Lemma pow2_pos o : 0 < pow2 o.
Proof. unfold pow2. lia. Qed.

Lemma pow2_S o : pow2 (S o) = 2 * pow2 o.
Proof. unfold pow2. rewrite Nat2Z.inj_succ, Z.pow_succ_r; lia. Qed.

Lemma pow2_le o o' : (o ≤ o')%nat → pow2 o ≤ pow2 o'.
Proof. intros. apply Z.pow_le_mono_r; lia. Qed.

Lemma pow2_divide o o' : (o ≤ o')%nat → (pow2 o | pow2 o').
Proof.
  intros H. exists (pow2 (o' - o)). unfold pow2. rewrite <- Z.pow_add_r by lia. f_equal. lia.
Qed.

Lemma pow2_testbit o i : 0 ≤ i → Z.testbit (pow2 o) i = bool_decide (i = Z.of_nat o).
Proof.
  intros. unfold pow2. rewrite Z.pow2_bits_eqb by lia.
  case_bool_decide; [subst; by rewrite Z.eqb_refl|]. apply Z.eqb_neq. lia.
Qed.

(** A bound that two aligned multiples of a power of two cannot straddle. *)
Lemma aligned_lt_le o p q : (pow2 o | p) → (pow2 o | q) → p < q → p + pow2 o ≤ q.
Proof.
  intros [a ->] [b ->] H. pose proof (pow2_pos o).
  assert (a < b) by nia. nia.
Qed.

Lemma lxor_pow2_even o p :
  (pow2 (S o) | p) → Z.lxor p (pow2 o) = p + pow2 o.
Proof.
  intros [k ->]. symmetry. apply Z.add_nocarry_lxor. apply Z.bits_inj'. intros i Hi.
  rewrite Z.land_spec, Z.bits_0, pow2_testbit by done. case_bool_decide; [|apply andb_false_r].
  subst i. rewrite andb_true_r. unfold pow2. by rewrite Z.mul_pow2_bits_low by lia.
Qed.

Lemma lxor_pow2_odd o p :
  (pow2 (S o) | p) → Z.lxor (p + pow2 o) (pow2 o) = p.
Proof.
  intros H. by rewrite <- (lxor_pow2_even o p H), Z.lxor_assoc, Z.lxor_nilpotent, Z.lxor_0_r.
Qed.

Lemma lxor_pow2_invol o p : Z.lxor (Z.lxor p (pow2 o)) (pow2 o) = p.
Proof. by rewrite Z.lxor_assoc, Z.lxor_nilpotent, Z.lxor_0_r. Qed.

Lemma lxor_pow2_ne o p : Z.lxor p (pow2 o) ≠ p.
Proof.
  intros E%(f_equal (Z.lxor p)). rewrite <- Z.lxor_assoc, Z.lxor_nilpotent, Z.lxor_0_l in E.
  pose proof (pow2_pos o). lia.
Qed.

(** An aligned address is the lower or the upper half of a pair of buddies. *)
Lemma buddy_cases o p :
  (pow2 o | p) → (pow2 (S o) | p) ∨ ∃ q, p = q + pow2 o ∧ (pow2 (S o) | q).
Proof.
  intros [k ->]. rewrite pow2_S. destruct (Z.Even_or_Odd k) as [[j ->]|[j ->]].
  - left. exists j. lia.
  - right. exists (2 * j * pow2 o). split; [lia|]. exists j. lia.
Qed.

(** ** Properties *)

(** the trailing-zero scan of a nonzero 64-bit word ([ctz64], and [ctz32]
    on its halves) returns the position of its lowest set bit: that bit is set
    and every bit below it is clear. *)
Theorem ctz64_lowest_set_bit (val : Z) (Hval : 0 < val < 2 ^ 64) :
  Z.testbit val (ctz64 val) = true ∧
  (∀ i, 0 ≤ i < ctz64 val → Z.testbit val i = false) ∧ 0 ≤ ctz64 val < 64.
Proof.
  destruct (ctz64_factor val Hval) as (v & Hn & Hv & Ho).
  set (n := ctz64 val) in *. clearbody n.
  assert (Hbit : Z.testbit val n = true).
  { rewrite Hv, factor_testbit by done. rewrite decide_False, Z.sub_diag by lia.
    by rewrite Z.bit0_odd. }
  split_and!; [done| |done|].
  - intros i Hi. rewrite Hv, factor_testbit by (done || lia). by rewrite decide_True by lia.
  - apply Z.nle_gt. intros Hge. rewrite Z.bits_above_log2 in Hbit; [done|lia|].
    apply Z.log2_lt_pow2; [lia|]. assert (2 ^ 64 ≤ 2 ^ n) by (apply Z.pow_le_mono_r; lia). lia.
Qed.

Lemma ctz64_lowest_set_bit_witness :
  Z.testbit 0x5000000000 (ctz64 0x5000000000) = true ∧ ctz64 0x5000000000 = 36.
Proof. split; [apply (ctz64_lowest_set_bit 0x5000000000); lia|reflexivity]. Defined.

(** the integer logarithms [ilog2_64] and [ilog2_32], computed from the
    leading-zero ladder, equal the mathematical floor of the base-2 logarithm
    for every nonzero argument of their width. *)
Theorem ilog2_is_log2 (val : Z) (Hval : 0 < val < 2 ^ 64) :
  ilog2_64 val = Z.log2 val ∧ (val < 2 ^ 32 → ilog2_32 val = Z.log2 val).
Proof. split; [by apply ilog2_64_log2|intros; apply ilog2_32_log2; lia]. Qed.

Lemma ilog2_is_log2_witness : ilog2_64 0xFFFF00000000 = Z.log2 0xFFFF00000000.
Proof. apply (ilog2_is_log2 0xFFFF00000000). lia. Defined.
