(* ===== verification/DList.v ===== *)
(** * DList: the intrusive doubly-linked list

    Models [na/include/lume/list.h]: [list_node] with its two pointers, and the
    operations of the [List] template, on an explicit store of nodes.  The
    store maps the address of a node to its [prev] and [next] fields, and every
    operation is the sequence of pointer assignments of the source, so that
    aliasing (an empty list whose head is its own neighbour) is the source's.
    The refinement says that each operation acts on the sequence of elements
    the pointers represent, and touches no node outside the lists it is given.
    The allocators, run queues and wait queues of the other files are modelled
    with such sequences. *)

From S2P Require Import Prelude.

Record list_node := mkNode { n_prev : Z; n_next : Z }.

#[export] Instance list_node_inhabited : Inhabited list_node := populate (mkNode 0 0).

Abbreviation heap := (gmap Z list_node).

Definition prev_of (h : heap) (x : Z) : Z := n_prev (h !!! x).
Definition next_of (h : heap) (x : Z) : Z := n_next (h !!! x).
Definition set_prev (x v : Z) (h : heap) : heap := <[x := mkNode v (next_of h x)]> h.
Definition set_next (x v : Z) (h : heap) : heap := <[x := mkNode (prev_of h x) v]> h.

Definition node_init (x : Z) (h : heap) : heap := set_next x x (set_prev x x h).

Definition is_empty (head : Z) (h : heap) : bool := next_of h head =? head.

Definition push_front (head node : Z) (h : heap) : heap :=
  let h := set_next node (next_of h head) h in
  let h := set_prev node head h in
  let h := set_prev (next_of h head) node h in
  set_next head node h.

Definition push_back (head node : Z) (h : heap) : heap :=
  let h := set_prev node (prev_of h head) h in
  let h := set_next node head h in
  let h := set_next (prev_of h head) node h in
  set_prev head node h.

Definition splice_front (head other : Z) (h : heap) : heap :=
  if is_empty other h then h
  else
    let this_first := next_of h head in
    let other_first := next_of h other in
    let other_last := prev_of h other in
    let h := set_next other_last this_first h in
    let h := set_prev this_first other_last h in
    let h := set_next head other_first h in
    let h := set_prev other_first head h in
    node_init other h.

Definition splice_tail (head other : Z) (h : heap) : heap :=
  if is_empty other h then h
  else
    let this_last := prev_of h head in
    let other_first := next_of h other in
    let other_last := prev_of h other in
    let h := set_next this_last other_first h in
    let h := set_prev other_first this_last h in
    let h := set_next other_last head h in
    let h := set_prev head other_last h in
    node_init other h.

(** [node->prev->next = node->next; node->next->prev = node->prev; node->init()] *)
Definition remove (node : Z) (h : heap) : heap :=
  let h := set_next (prev_of h node) (next_of h node) h in
  let h := set_prev (next_of h node) (prev_of h node) h in
  node_init node h.

Definition pop_front (head : Z) (h : heap) : option Z * heap :=
  if is_empty head h then (None, h)
  else let node := next_of h head in (Some node, remove node h).

Definition pop_back (head : Z) (h : heap) : option Z * heap :=
  if is_empty head h then (None, h)
  else let node := prev_of h head in (Some node, remove node h).

Definition front (head : Z) (h : heap) : option Z := if is_empty head h then None else Some (next_of h head).
Definition back (head : Z) (h : heap) : option Z := if is_empty head h then None else Some (prev_of h head).

(** A [for (auto& x : list)] loop: from [begin()] until [end()], [n] nodes at most. *)
Fixpoint iterate (n : nat) (head node : Z) (h : heap) : option (list Z) :=
  if node =? head then Some []
  else match n with
       | O => None
       | S n' => cons node <$> iterate n' head (next_of h node) h
       end.

(** ** The sequence a head represents *)

Lemma prev_set_prev h x v y : prev_of (set_prev x v h) y = if decide (x = y) then v else prev_of h y.
Proof. unfold prev_of, set_prev. rewrite !lookup_total_alt, lookup_insert. by case_decide. Qed.
Lemma next_set_prev h x v y : next_of (set_prev x v h) y = next_of h y.
Proof.
  unfold set_prev. unfold next_of at 1. rewrite lookup_total_alt, lookup_insert.
  case_decide; [by subst|]. by unfold next_of; rewrite lookup_total_alt.
Qed.
Lemma next_set_next h x v y : next_of (set_next x v h) y = if decide (x = y) then v else next_of h y.
Proof. unfold next_of, set_next. rewrite !lookup_total_alt, lookup_insert. by case_decide. Qed.
Lemma prev_set_next h x v y : prev_of (set_next x v h) y = prev_of h y.
Proof.
  unfold set_next. unfold prev_of at 1. rewrite lookup_total_alt, lookup_insert.
  case_decide; [by subst|]. by unfold prev_of; rewrite lookup_total_alt.
Qed.

Create Rewrite HintDb dlist.
#[export] Hint Rewrite prev_set_prev next_set_prev next_set_next prev_set_next : dlist.

(** Consecutive nodes of a path point at each other. *)
Fixpoint linked (h : heap) (path : list Z) : Prop :=
  match path with
  | a :: ((b :: _) as path') => next_of h a = b ∧ prev_of h b = a ∧ linked h path'
  | _ => True
  end.

(** [l] is the list of nodes on the ring of [head], in order. *)
Definition dlist (h : heap) (head : Z) (l : list Z) : Prop :=
  NoDup (head :: l) ∧ linked h (head :: l ++ [head]).

Lemma linked_app h p x q : linked h (p ++ x :: q) ↔ linked h (p ++ [x]) ∧ linked h (x :: q).
Proof.
  induction p as [|a p IH]; [cbn; tauto|]. destruct p as [|b p]; cbn in *; [tauto|].
  rewrite IH. tauto.
Qed.

Lemma linked_init h p z : linked h (p ++ [z]) → linked h p.
Proof.
  induction p as [|a [|b p] IH]; [done..|]. intros (? & ? & ?). split_and!; [done..|]. by apply IH.
Qed.

(** A path depends on the [next] of its nodes but the last and on the [prev]
    of its nodes but the first. *)
Lemma linked_frame h h' path :
  (∀ x, x ∈ removelast path → next_of h' x = next_of h x) →
  (∀ x, x ∈ tail path → prev_of h' x = prev_of h x) → linked h path → linked h' path.
Proof.
  induction path as [|a [|b p] IH]; intros Hn Hp; [done..|].
  intros (H1 & H2 & H3). split_and!; [rewrite Hn by left; done|rewrite Hp by left; done|].
  apply IH; [| |done]; intros x Hx; [apply Hn; by right|apply Hp]. by right.
Qed.

(** *** Cutting a ring

    Between two consecutive nodes [a] and [b] of the ring of [head]. *)

Definition last_of (head : Z) (l : list Z) : Z := default head (last l).
Definition first_of (head : Z) (l : list Z) : Z := default head (list.head l).

Lemma dlist_cut h head l1 l2 :
  dlist h head (l1 ++ l2) ↔
  NoDup (head :: l1 ++ l2) ∧ linked h (head :: l1) ∧ next_of h (last_of head l1) = first_of head l2 ∧
  prev_of h (first_of head l2) = last_of head l1 ∧ linked h (l2 ++ [head]).
Proof.
  unfold dlist, last_of, first_of.
  replace (head :: (l1 ++ l2) ++ [head]) with ((head :: l1) ++ (l2 ++ [head]))
    by (cbn; by rewrite app_assoc).
  assert (∃ b q, l2 ++ [head] = b :: q ∧ default head (list.head l2) = b) as (b & q & -> & ->).
  { destruct l2; cbn; eauto. }
  destruct l1 as [|a l1 _] using rev_ind; cbn [app].
  - cbn. tauto.
  - rewrite last_snoc. cbn [default].
    replace (head :: (l1 ++ [a]) ++ b :: q) with ((head :: l1) ++ a :: (b :: q))
      by (cbn; by rewrite <- app_assoc).
    rewrite linked_app. cbn. tauto.
Qed.

Lemma linked_left h h' head l1 :
  NoDup (head :: l1) → (∀ x, x ∈ head :: l1 → x ≠ last_of head l1 → next_of h' x = next_of h x) →
  (∀ x, x ∈ l1 → prev_of h' x = prev_of h x) → linked h (head :: l1) → linked h' (head :: l1).
Proof.
  intros Hnd Hn Hp. apply linked_frame; [|exact Hp]. intros x Hx. unfold last_of in Hn.
  destruct l1 as [|a l1 _] using rev_ind; [by apply elem_of_nil in Hx|].
  rewrite last_snoc in Hn. cbn [default] in Hn. rewrite app_comm_cons in *.
  rewrite removelast_last in Hx. apply Hn; [apply elem_of_app; auto|]. intros ->.
  apply NoDup_app in Hnd as (_ & Hd & _). apply (Hd a Hx). left.
Qed.

Lemma linked_right h h' head l2 :
  NoDup (head :: l2) → (∀ x, x ∈ l2 → next_of h' x = next_of h x) →
  (∀ x, x ∈ head :: l2 → x ≠ first_of head l2 → prev_of h' x = prev_of h x) →
  linked h (l2 ++ [head]) → linked h' (l2 ++ [head]).
Proof.
  intros Hnd Hn Hp. apply linked_frame.
  - intros x. rewrite removelast_last. apply Hn.
  - intros x Hx. destruct l2 as [|b l2]; [by apply elem_of_nil in Hx|]. cbn in *.
    apply NoDup_cons in Hnd as [Hh [Hb _]%NoDup_cons]. apply Hp.
    + rewrite elem_of_app, list_elem_of_singleton in Hx. rewrite !elem_of_cons. tauto.
    + intros ->. apply elem_of_app in Hx as [?|Hx]; [done|]. apply list_elem_of_singleton in Hx as ->.
      apply Hh. left.
Qed.

Lemma last_of_in head l : last_of head l ∈ head :: l.
Proof.
  unfold last_of. destruct l as [|a l _] using rev_ind; [left|]. rewrite last_snoc. cbn.
  right. apply elem_of_app. right. left.
Qed.

Lemma first_of_in head l : first_of head l ∈ head :: l.
Proof. unfold first_of. destruct l; cbn; [left|right; left]. Qed.

Lemma dlist_frame h h' head l :
  (∀ x, x ∈ head :: l → next_of h' x = next_of h x ∧ prev_of h' x = prev_of h x) →
  dlist h head l → dlist h' head l.
Proof.
  intros Hf [Hnd Hl]. split; [done|]. revert Hl. apply linked_frame.
  - intros x Hx. rewrite app_comm_cons, removelast_last in Hx. by apply Hf.
  - intros x Hx. cbn in Hx. apply Hf. rewrite elem_of_app, list_elem_of_singleton in Hx.
    rewrite elem_of_cons. tauto.
Qed.

Ltac in_list := rewrite ?elem_of_cons, ?elem_of_app, ?elem_of_cons, ?elem_of_app in *; tauto.

Lemma ring_facts head l1 l2 :
  NoDup (head :: l1 ++ l2) →
  NoDup (head :: l1) ∧ NoDup (head :: l2) ∧ (∀ x, x ∈ l1 → x ≠ first_of head l2) ∧
  (∀ x, x ∈ l2 → x ≠ last_of head l1).
Proof.
  intros Hnd. pose proof Hnd as (Hh & (Hd1 & Hd12 & Hd2)%NoDup_app)%NoDup_cons.
  split_and!; [apply NoDup_cons; split; [in_list|done]..| |].
  - intros x Hx ->. pose proof (first_of_in head l2) as [E|Hin]%elem_of_cons; [|by eapply Hd12].
    rewrite E in Hx. in_list.
  - intros x Hx ->. pose proof (last_of_in head l1) as [E|Hin]%elem_of_cons; [|by eapply Hd12].
    rewrite E in Hx. in_list.
Qed.

(** Linking a node between its neighbours, and unlinking it. *)
Lemma dlist_insert h h' head l1 n l2 :
  let a := last_of head l1 in let b := first_of head l2 in
  dlist h head (l1 ++ l2) → n ∉ head :: l1 ++ l2 →
  (∀ x, next_of h' x = if decide (x = a) then n else if decide (x = n) then b else next_of h x) →
  (∀ x, prev_of h' x = if decide (x = b) then n else if decide (x = n) then a else prev_of h x) →
  dlist h' head (l1 ++ n :: l2).
Proof.
  intros a b (Hnd & H1 & H2 & H3 & H4)%dlist_cut Hn Hnext Hprev.
  assert (Hnd' : NoDup (head :: l1 ++ n :: l2)).
  { rewrite <- Permutation_middle. rewrite Permutation_swap. by apply NoDup_cons. }
  destruct (ring_facts head l1 l2 Hnd) as (Hd1 & Hd2 & Hl1 & Hl2). fold a in Hl2. fold b in Hl1.
  pose proof (last_of_in head l1) as Ha. pose proof (first_of_in head l2) as Hb. fold a in Ha. fold b in Hb.
  assert (Hna : n ≠ a) by (intros ->; apply Hn; in_list).
  assert (Hnb : n ≠ b) by (intros ->; apply Hn; in_list).
  assert (Hx1 : ∀ x, x ∈ head :: l1 → x ≠ n) by (intros x Hx ->; apply Hn; in_list).
  assert (Hx2 : ∀ x, x ∈ head :: l2 → x ≠ n) by (intros x Hx ->; apply Hn; in_list).
  assert (Hy1 : ∀ x, x ∈ l1 → x ≠ n) by (intros x Hx; apply Hx1; by right).
  assert (Hy2 : ∀ x, x ∈ l2 → x ≠ n) by (intros x Hx; apply Hx2; by right).
  assert (HL : linked h' (head :: l1)).
  { revert H1. apply linked_left; [done| |]; intros x Hx; [intros Hxa; rewrite Hnext|rewrite Hprev];
      by rewrite !decide_False by auto. }
  assert (HR : linked h' (l2 ++ [head])).
  { revert H4. apply linked_right; [done| |]; intros x Hx; [rewrite Hnext|intros Hxb; rewrite Hprev];
      by rewrite !decide_False by auto. }
  apply (dlist_cut h' head l1 (n :: l2)). fold a. cbn [first_of list.head default].
  split_and!; [done|done|by rewrite Hnext, decide_True|by rewrite Hprev, decide_False, decide_True|].
  pose proof (Hnext n) as En. rewrite decide_False, decide_True in En by done.
  pose proof (Hprev b) as Eb. rewrite decide_True in Eb by done.
  unfold b, first_of in En, Eb. destruct l2; cbn in *; auto.
Qed.

Lemma dlist_delete h h' head l1 n l2 :
  let a := last_of head l1 in let b := first_of head l2 in
  dlist h head (l1 ++ n :: l2) →
  (∀ x, x ≠ n → next_of h' x = if decide (x = a) then b else next_of h x) →
  (∀ x, x ≠ n → prev_of h' x = if decide (x = b) then a else prev_of h x) →
  dlist h' head (l1 ++ l2).
Proof.
  intros a b (Hnd & H1 & H2 & H3 & H4)%dlist_cut Hnext Hprev.
  assert (Hnd' : NoDup (n :: head :: l1 ++ l2)).
  { rewrite Permutation_swap. by rewrite Permutation_middle. }
  apply NoDup_cons in Hnd' as [Hn Hnd'].
  destruct (ring_facts head l1 l2 Hnd') as (Hd1 & Hd2 & Hl1 & Hl2). fold a in Hl2. fold b in Hl1.
  pose proof (last_of_in head l1) as Ha. pose proof (first_of_in head l2) as Hb. fold a in Ha. fold b in Hb.
  assert (Hx1 : ∀ x, x ∈ head :: l1 → x ≠ n) by (intros x Hx ->; apply Hn; in_list).
  assert (Hx2 : ∀ x, x ∈ head :: l2 → x ≠ n) by (intros x Hx ->; apply Hn; in_list).
  assert (Hy1 : ∀ x, x ∈ l1 → x ≠ n) by (intros x Hx; apply Hx1; by right).
  assert (Hy2 : ∀ x, x ∈ l2 → x ≠ n) by (intros x Hx; apply Hx2; by right).
  assert (linked h (l2 ++ [head])) as H4'.
  { cbn in H4. destruct l2; cbn in H4 |- *; [done|by destruct H4 as (_ & _ & ?)]. }
  apply dlist_cut. fold a b.
  split_and!; [done| |rewrite Hnext, decide_True; auto|rewrite Hprev, decide_True; auto|].
  - revert H1. apply linked_left; [done| |]; intros x Hx; [intros Hxa; rewrite Hnext|rewrite Hprev];
      auto; by rewrite decide_False by auto.
  - revert H4'. apply linked_right; [done| |]; intros x Hx; [rewrite Hnext|intros Hxb; rewrite Hprev];
      auto; by rewrite decide_False by auto.
Qed.

Lemma dlist_first h head l : dlist h head l → next_of h head = first_of head l.
Proof. intros Hd. change l with ([] ++ l) in Hd. by apply dlist_cut in Hd as (_ & _ & ? & _). Qed.

Lemma dlist_last h head l : dlist h head l → prev_of h head = last_of head l.
Proof.
  intros Hd. rewrite <- (app_nil_r l) in Hd. by apply dlist_cut in Hd as (_ & _ & _ & ? & _).
Qed.

Lemma is_empty_spec h head l : dlist h head l → is_empty head h = true ↔ l = [].
Proof.
  intros Hd. unfold is_empty. rewrite (dlist_first h head l Hd), Z.eqb_eq.
  destruct l as [|x l]; [done|]. cbn. split; [|done]. intros ->.
  destruct Hd as [[Hn _]%NoDup_cons _]. destruct Hn. left.
Qed.

(** ** Refinement of the operations *)

(** The store changed only at nodes of [l]. *)
Definition untouched (l : list Z) (h h' : heap) : Prop :=
  ∀ x, x ∉ l → next_of h' x = next_of h x ∧ prev_of h' x = prev_of h x.

Lemma dlist_untouched h h' l head m :
  untouched l h h' → (∀ x, x ∈ head :: m → x ∉ l) → dlist h head m → dlist h' head m.
Proof. intros Hu Hd. apply dlist_frame. intros x Hx. apply Hu. auto. Qed.

(** Case analysis on the innermost address comparisons first. *)
Ltac decide_inner :=
  match goal with
  | |- context [decide ?P] =>
      lazymatch P with context [decide _] => fail | _ => destruct (decide P); cbn iota end
  end.

Ltac dlist_eqs :=
  intros x; unfold node_init; autorewrite with dlist; repeat decide_inner; congruence.

Lemma node_init_eqs n h :
  (∀ x, next_of (node_init n h) x = if decide (x = n) then n else next_of h x) ∧
  (∀ x, prev_of (node_init n h) x = if decide (x = n) then n else prev_of h x).
Proof. split; dlist_eqs. Qed.

Lemma node_init_ok n h : dlist (node_init n h) n [] ∧ untouched [n] h (node_init n h).
Proof.
  destruct (node_init_eqs n h) as [Hn Hp]. split.
  - split; [apply NoDup_singleton|]. cbn. by rewrite Hn, Hp, !decide_True.
  - intros x Hx. rewrite Hn, Hp, !decide_False by (intros ->; apply Hx; left). done.
Qed.

Section push.
Context (h : heap) (head n : Z) (l : list Z) (Hd : dlist h head l) (Hn : n ∉ head :: l).

Lemma push_front_ok :
  dlist (push_front head n h) head (n :: l) ∧ untouched (n :: head :: l) h (push_front head n h).
Proof using Hd Hn.
  assert (Hne : n ≠ head) by (intros ->; apply Hn; left).
  assert (Hx : ∀ x, next_of (push_front head n h) x =
    if decide (x = head) then n else if decide (x = n) then first_of head l else next_of h x).
  { rewrite <- (dlist_first h head l Hd). unfold push_front. dlist_eqs. }
  assert (Hp : ∀ x, prev_of (push_front head n h) x =
    if decide (x = first_of head l) then n else if decide (x = n) then head else prev_of h x).
  { rewrite <- (dlist_first h head l Hd). unfold push_front. dlist_eqs. }
  split.
  - by apply (dlist_insert h _ head [] n l).
  - pose proof (first_of_in head l) as Hf. intros x Hx'.
    assert (x ∉ head :: l) by (intros ?; apply Hx'; by right).
    rewrite Hx, Hp, !decide_False; try done; intros ->; apply Hx'; [left|by right|left|right; left].
Qed.

Lemma push_back_ok :
  dlist (push_back head n h) head (l ++ [n]) ∧ untouched (n :: head :: l) h (push_back head n h).
Proof using Hd Hn.
  assert (Hne : n ≠ head) by (intros ->; apply Hn; left).
  assert (Hx : ∀ x, next_of (push_back head n h) x =
    if decide (x = last_of head l) then n else if decide (x = n) then head else next_of h x).
  { rewrite <- (dlist_last h head l Hd). unfold push_back. dlist_eqs. }
  assert (Hp : ∀ x, prev_of (push_back head n h) x =
    if decide (x = head) then n else if decide (x = n) then last_of head l else prev_of h x).
  { rewrite <- (dlist_last h head l Hd). unfold push_back. dlist_eqs. }
  split.
  - apply (dlist_insert h _ head l n []); [by rewrite app_nil_r|by rewrite app_nil_r|done|done].
  - pose proof (last_of_in head l) as Hf. intros x Hx'.
    assert (x ∉ head :: l) by (intros ?; apply Hx'; by right).
    rewrite Hx, Hp, !decide_False; try done; intros ->; apply Hx'; [left|right; left|left|by right].
Qed.
End push.

Lemma remove_ok h head l1 n l2 :
  dlist h head (l1 ++ n :: l2) →
  dlist (remove n h) head (l1 ++ l2) ∧ dlist (remove n h) n [] ∧
  untouched (head :: l1 ++ n :: l2) h (remove n h).
Proof.
  intros Hd. pose proof Hd as (Hnd & _ & Hna & Hpa & HR)%dlist_cut.
  cbn [first_of list.head default id] in Hna, Hpa. unfold id in Hna, Hpa.
  assert (En : next_of h n = first_of head l2).
  { cbn in HR. destruct l2; cbn in *; by destruct HR. }
  assert (Hnd' : NoDup (n :: head :: l1 ++ l2)).
  { rewrite Permutation_swap. by rewrite Permutation_middle. }
  apply NoDup_cons in Hnd' as [Hn _].
  pose proof (last_of_in head l1) as Ha. pose proof (first_of_in head l2) as Hb.
  assert (last_of head l1 ≠ n) by (intros E; rewrite E in Ha; apply Hn; in_list).
  assert (first_of head l2 ≠ n) by (intros E; rewrite E in Hb; apply Hn; in_list).
  assert (Hx : ∀ x, next_of (remove n h) x =
    if decide (x = n) then n else if decide (x = last_of head l1) then first_of head l2 else next_of h x).
  { unfold remove. dlist_eqs. }
  assert (Hp : ∀ x, prev_of (remove n h) x =
    if decide (x = n) then n else if decide (x = first_of head l2) then last_of head l1 else prev_of h x).
  { unfold remove. dlist_eqs. }
  split_and!.
  - apply (dlist_delete h _ head l1 n l2); [done|intros x ?; by rewrite Hx, decide_False..|].
    intros x ?. by rewrite Hp, decide_False.
  - split; [apply NoDup_singleton|]. cbn. by rewrite Hx, Hp, !decide_True.
  - intros x Hx'. rewrite Hx, Hp, !decide_False; [done|intros ->; apply Hx'; in_list..].
Qed.

(** *** Splicing *)

Lemma last_of_cons (a b : Z) (m : list Z) : last_of a (b :: m) = last_of b m.
Proof. unfold last_of. rewrite last_cons. by destruct (last m). Qed.

Section splice.
Context (h : heap) (head other b : Z) (l m' : list Z).
Let m := b :: m'.
Let a := last_of b m'.
Context (Hl : dlist h head l) (Hm : dlist h other m) (Hdisj : NoDup ((head :: l) ++ other :: m)).

Lemma splice_this x : x ∈ head :: l → x ≠ other ∧ x ≠ a ∧ x ≠ b ∧ x ∉ m.
Proof using Hdisj.
  intros Hx. apply NoDup_app in Hdisj as (_ & Hd & _). specialize (Hd x Hx).
  assert (Hxm : x ∉ m) by (intros ?; apply Hd; by right).
  split_and!; [intros ->; apply Hd; left|intros ->; apply Hxm, last_of_in|intros ->; apply Hxm; left|done].
Qed.

Lemma splice_moved x : x ∈ m → x ≠ other ∧ x ∉ head :: l.
Proof using Hdisj.
  intros Hx. split; [|by intros (_ & _ & _ & ?)%splice_this].
  apply NoDup_app in Hdisj as (_ & _ & [? _]%NoDup_cons). by intros ->.
Qed.

Lemma splice_moved_ne x : x ∈ m → x ≠ other ∧ x ≠ head ∧ x ≠ first_of head l ∧ x ≠ last_of head l.
Proof using Hdisj.
  intros [? Hn]%splice_moved. split_and!; [done|..]; intros ->; apply Hn;
    [left|apply first_of_in|apply last_of_in].
Qed.

Lemma splice_nodup : NoDup (head :: l ++ m).
Proof using Hdisj.
  change (NoDup ((head :: l) ++ m)). pose proof Hdisj as (H1 & H2 & [_ H3]%NoDup_cons)%NoDup_app.
  apply NoDup_app. split_and!; [done| |done]. intros x Hx Hx'. apply (H2 x Hx). by right.
Qed.

Lemma splice_nonempty : is_empty other h = false.
Proof using Hm. pose proof (is_empty_spec h other m Hm). by destruct (is_empty other h); [naive_solver|]. Qed.

(** The inner part of the moved list keeps its links. *)
Lemma splice_inner h' :
  (∀ x, x ∈ m → x ≠ a → next_of h' x = next_of h x) →
  (∀ x, x ∈ m' → prev_of h' x = prev_of h x) → linked h' m.
Proof using Hm.
  intros Hn Hp. destruct Hm as [[_ Hnd]%NoDup_cons Hlk]. apply (linked_left h); [done..|].
  cbn in Hlk. destruct Hlk as (_ & _ & Hlk). by apply (linked_init h (b :: m') other).
Qed.

Lemma moved_tail x : x ∈ m' → x ∈ m ∧ x ≠ b.
Proof using Hm.
  intros Hx. split; [by right|]. intros ->. by destruct Hm as [[_ [? _]%NoDup_cons]%NoDup_cons _].
Qed.

Lemma splice_front_ok :
  dlist (splice_front head other h) head (m ++ l) ∧ dlist (splice_front head other h) other [] ∧
  untouched ((head :: l) ++ other :: m) h (splice_front head other h).
Proof using Hl Hm Hdisj.
  unfold splice_front. rewrite splice_nonempty.
  rewrite (dlist_first h head l), (dlist_first h other m), (dlist_last h other m) by done.
  change (first_of other m) with b. change (last_of other m) with (last_of other (b :: m')).
  rewrite last_of_cons. fold a. set (f := first_of head l). set (h' := node_init other _).
  assert (Ha : a ∈ m) by apply last_of_in. assert (Hf : f ∈ head :: l) by apply first_of_in.
  destruct (splice_this f Hf) as (Hfo & Hfa & Hfb & _).
  destruct (splice_this head) as (Hho & Hha & Hhb & _); [left|].
  destruct (splice_moved_ne a Ha) as (Hao & _). destruct (splice_moved_ne b) as (Hbo & _); [left|].
  assert (Hx : ∀ x, next_of h' x = if decide (x = other) then other else if decide (x = head) then b
                                   else if decide (x = a) then f else next_of h x).
  { unfold h'. dlist_eqs. }
  assert (Hp : ∀ x, prev_of h' x = if decide (x = other) then other else if decide (x = b) then head
                                   else if decide (x = f) then a else prev_of h x).
  { unfold h'. dlist_eqs. }
  clearbody h'. split_and!; [|split; [apply NoDup_singleton|]; cbn; by rewrite Hx, Hp, !decide_True|].
  2: { assert (∀ x, x ∉ (head :: l) ++ other :: m → (x ∉ head :: l) ∧ x ≠ other ∧ (x ∉ m)) as Hout.
       { intros x Hn. split_and!; [intros ?|intros ->|intros ?]; apply Hn, elem_of_app;
           [by left|right; left|right; by right]. }
       intros x (H1 & H2 & H3)%Hout. rewrite Hx, Hp, !decide_False; [done|..]; try done;
         intros ->; (by apply H1; left) || (by apply H3; left) || done. }
  apply dlist_cut. change (last_of head m) with (last_of head (b :: m')).
  rewrite last_of_cons. fold a f. split_and!.
  - rewrite (Permutation_app_comm m l). apply splice_nodup.
  - cbn. split_and!; [by rewrite Hx, decide_False, decide_True|by rewrite Hp, decide_False, decide_True|].
    apply splice_inner.
    + intros x (? & ? & ? & ?)%splice_moved_ne ?. by rewrite Hx, !decide_False.
    + intros x [(? & ? & ? & ?)%splice_moved_ne ?]%moved_tail. by rewrite Hp, !decide_False.
  - rewrite Hx, 2!decide_False, decide_True by (done || congruence). done.
  - rewrite Hp, 2!decide_False, decide_True by done. done.
  - pose proof Hl as (Hnd & _ & _ & _ & HR)%(dlist_cut h head []). revert HR.
    apply linked_right; [done| |].
    + intros x Hxl. destruct (splice_this x) as (? & ? & _); [by right|]. rewrite Hx, !decide_False; try done.
      intros ->. by apply NoDup_cons in Hnd as [? _].
    + intros x Hxl Hxf. destruct (splice_this x Hxl) as (? & ? & ? & _). by rewrite Hp, !decide_False.
Qed.

Lemma splice_tail_ok :
  dlist (splice_tail head other h) head (l ++ m) ∧ dlist (splice_tail head other h) other [] ∧
  untouched ((head :: l) ++ other :: m) h (splice_tail head other h).
Proof using Hl Hm Hdisj.
  unfold splice_tail. rewrite splice_nonempty.
  rewrite (dlist_last h head l), (dlist_first h other m), (dlist_last h other m) by done.
  change (first_of other m) with b. change (last_of other m) with (last_of other (b :: m')).
  rewrite last_of_cons. fold a. set (e := last_of head l). set (h' := node_init other _).
  assert (Ha : a ∈ m) by apply last_of_in. assert (He : e ∈ head :: l) by apply last_of_in.
  destruct (splice_this e He) as (Heo & Hea & Heb & _).
  destruct (splice_this head) as (Hho & Hha & Hhb & _); [left|].
  destruct (splice_moved_ne a Ha) as (Hao & _). destruct (splice_moved_ne b) as (Hbo & _); [left|].
  assert (Hx : ∀ x, next_of h' x = if decide (x = other) then other else if decide (x = a) then head
                                   else if decide (x = e) then b else next_of h x).
  { unfold h'. dlist_eqs. }
  assert (Hp : ∀ x, prev_of h' x = if decide (x = other) then other else if decide (x = head) then a
                                   else if decide (x = b) then e else prev_of h x).
  { unfold h'. dlist_eqs. }
  clearbody h'. split_and!; [|split; [apply NoDup_singleton|]; cbn; by rewrite Hx, Hp, !decide_True|].
  2: { assert (∀ x, x ∉ (head :: l) ++ other :: m → (x ∉ head :: l) ∧ x ≠ other ∧ (x ∉ m)) as Hout.
       { intros x Hn. split_and!; [intros ?|intros ->|intros ?]; apply Hn, elem_of_app;
           [by left|right; left|right; by right]. }
       intros x (H1 & H2 & H3)%Hout. rewrite Hx, Hp, !decide_False; [done|..]; try done;
         intros ->; (by apply H1; left) || (by apply H3; left) || done. }
  apply dlist_cut. change (first_of head m) with b. fold e. split_and!.
  - apply splice_nodup.
  - pose proof Hl as HL. rewrite <- (app_nil_r l) in HL. apply dlist_cut in HL as (Hnd & HL & _).
    rewrite app_nil_r in Hnd. revert HL. apply linked_left; [done| |].
    + intros x Hxl Hxe. destruct (splice_this x Hxl) as (? & ? & _). by rewrite Hx, !decide_False.
    + intros x Hxl. destruct (splice_this x) as (? & ? & ? & _); [by right|].
      rewrite Hp, !decide_False; try done. intros ->. by apply NoDup_cons in Hnd as [? _].
  - rewrite Hx, 2!decide_False, decide_True by done. done.
  - rewrite Hp, 2!decide_False, decide_True by (done || congruence). done.
  - assert (HI : linked h' m).
    { apply splice_inner.
      - intros x (? & ? & ? & ?)%splice_moved_ne ?. by rewrite Hx, !decide_False.
      - intros x [(? & ? & ? & ?)%splice_moved_ne ?]%moved_tail. by rewrite Hp, !decide_False. }
    assert (∃ p, m = p ++ [a]) as [p Ep].
    { unfold m, a, last_of. destruct m' as [|y k _] using rev_ind; [by exists []|].
      rewrite last_snoc. cbn. by exists (b :: k). }
    rewrite Ep in HI |- *. rewrite <- app_assoc. apply linked_app. split; [done|]. cbn.
    rewrite Hx, decide_False, decide_True by done. rewrite Hp, decide_False, decide_True by done. done.
Qed.
End splice.

(** ** A store of lists

    The abstract state maps the head of each list to its elements; a step of
    the specification is an operation on those sequences. *)

Inductive list_op :=
| PushFront (head n : Z) | PushBack (head n : Z)
| PopFront (head : Z) | PopBack (head : Z)
| Remove (n : Z)
| SpliceFront (head other : Z) | SpliceTail (head other : Z).

Definition list_exec (op : list_op) (h : heap) : option Z * heap :=
  match op with
  | PushFront head n => (None, push_front head n h)
  | PushBack head n => (None, push_back head n h)
  | PopFront head => pop_front head h
  | PopBack head => pop_back head h
  | Remove n => (None, remove n h)
  | SpliceFront head other => (None, splice_front head other h)
  | SpliceTail head other => (None, splice_tail head other h)
  end.

Abbreviation lists := (gmap Z (list Z)).

Definition unlinked (n : Z) (σ : lists) : Prop := ∀ head l, σ !! head = Some l → n ∉ head :: l.

Inductive list_spec : list_op → lists → option Z → lists → Prop :=
| spec_push_front head n l σ :
    σ !! head = Some l → unlinked n σ → list_spec (PushFront head n) σ None (<[head := n :: l]> σ)
| spec_push_back head n l σ :
    σ !! head = Some l → unlinked n σ → list_spec (PushBack head n) σ None (<[head := l ++ [n]]> σ)
| spec_pop_front head n l σ :
    σ !! head = Some (n :: l) → list_spec (PopFront head) σ (Some n) (<[head := l]> σ)
| spec_pop_front_empty head σ : σ !! head = Some [] → list_spec (PopFront head) σ None σ
| spec_pop_back head n l σ :
    σ !! head = Some (l ++ [n]) → list_spec (PopBack head) σ (Some n) (<[head := l]> σ)
| spec_pop_back_empty head σ : σ !! head = Some [] → list_spec (PopBack head) σ None σ
| spec_remove head n l1 l2 σ :
    σ !! head = Some (l1 ++ n :: l2) → list_spec (Remove n) σ None (<[head := l1 ++ l2]> σ)
| spec_splice_front head other l m σ :
    head ≠ other → σ !! head = Some l → σ !! other = Some m →
    list_spec (SpliceFront head other) σ None (<[other := []]> (<[head := m ++ l]> σ))
| spec_splice_tail head other l m σ :
    head ≠ other → σ !! head = Some l → σ !! other = Some m →
    list_spec (SpliceTail head other) σ None (<[other := []]> (<[head := l ++ m]> σ)).

(** The store represents the lists, and the lists are disjoint. *)
Record represents (h : heap) (σ : lists) : Prop := {
  rep_list head l : σ !! head = Some l → dlist h head l;
  rep_disj h1 l1 h2 l2 x :
    σ !! h1 = Some l1 → σ !! h2 = Some l2 → x ∈ h1 :: l1 → x ∈ h2 :: l2 → h1 = h2;
}.

(** Replacing the contents of one list by nodes it had or that were in no list. *)
Lemma represents_update h h' σ head l l' :
  represents h σ → σ !! head = Some l → dlist h' head l' →
  untouched (head :: l ++ l') h h' → (∀ x, x ∈ l' → x ∈ head :: l ∨ unlinked x σ) →
  represents h' (<[head := l']> σ).
Proof.
  intros [H1 H2] Hl Hd Hu Hin.
  assert (Hother : ∀ o m x, σ !! o = Some m → o ≠ head → x ∈ o :: m → x ∉ head :: l ++ l').
  { intros o m x Ho Hne Hx. rewrite elem_of_cons, elem_of_app. intros [->|[Hx'|Hx']].
    - apply Hne. eapply H2; [done..|left].
    - apply Hne. eapply (H2 o m head l x); [done..|by right].
    - destruct (Hin x Hx') as [Hx2|Hx2].
      + apply Hne. by eapply (H2 o m head l x).
      + by apply (Hx2 o m). }
  split.
  - intros o m [[<- <-]|[Hne Ho]]%lookup_insert_Some; [done|].
    apply (dlist_untouched h h' (head :: l ++ l')); [done| |by apply H1].
    intros x Hx. by apply (Hother o m).
  - intros h1 l1 h2 l2 x E1 E2 Hx1 Hx2.
    apply lookup_insert_Some in E1 as [[<- <-]|[N1 E1]];
      apply lookup_insert_Some in E2 as [[<- <-]|[N2 E2]]; [done| | |by eapply H2].
    + destruct (Hother h2 l2 x E2); [done..|]. in_list.
    + destruct (Hother h1 l1 x E1); [done..|]. in_list.
Qed.

(** Moving the contents of one list to another. *)
Lemma represents_move h h' σ head other l m l' :
  represents h σ → head ≠ other → σ !! head = Some l → σ !! other = Some m →
  dlist h' head l' → dlist h' other [] → untouched ((head :: l) ++ other :: m) h h' →
  (∀ x, x ∈ l' → x ∈ l ∨ x ∈ m) → represents h' (<[other := []]> (<[head := l']> σ)).
Proof.
  intros [H1 H2] Hne Hl Hm Hd Hd' Hu Hin.
  assert (Hcase : ∀ o k, <[other := []]> (<[head := l']> σ) !! o = Some k →
    (o = other ∧ k = []) ∨ (o = head ∧ k = l') ∨ (o ≠ other ∧ o ≠ head ∧ σ !! o = Some k)).
  { intros o k. rewrite !lookup_insert. repeat case_decide; naive_solver. }
  assert (Hout : ∀ o k x, σ !! o = Some k → o ≠ head → o ≠ other → x ∈ o :: k →
                          (x ∉ head :: l) ∧ (x ∉ other :: m)).
  { intros o k x Ho Hn1 Hn2 Hx. split; intros Hx'; [apply Hn1|apply Hn2]; by eapply H2. }
  assert (Hl' : ∀ x, x ∈ head :: l' → x ∈ head :: l ∨ x ∈ other :: m) by
    (intros x [->|[?|?]%Hin]%elem_of_cons; [left; left|left; by right|right; by right]).
  assert (Hho : other ∉ head :: l').
  { intros [?|[Ho|Ho]%Hin]%elem_of_cons; [done|..].
    - apply Hne. eapply (H2 head l other m other); [done..|by right|left].
    - destruct (H1 other m Hm) as [[? _]%NoDup_cons _]. done. }
  split.
  - intros o k [[-> ->]|[[-> ->]|(Hn1 & Hn2 & Ho)]]%Hcase; [done|done|].
    eapply dlist_untouched; [exact Hu| |by apply H1]. intros x Hx.
    destruct (Hout o k x Ho Hn2 Hn1 Hx). rewrite not_elem_of_app. auto.
  - intros o1 k1 o2 k2 x E1 E2 Hx1 Hx2.
    apply Hcase in E1 as [[-> ->]|[[-> ->]|(? & ? & E1)]];
      apply Hcase in E2 as [[-> ->]|[[-> ->]|(? & ? & E2)]]; try done; try (by eapply H2);
      exfalso.
    + apply list_elem_of_singleton in Hx1 as ->. done.
    + apply list_elem_of_singleton in Hx1 as ->. destruct (Hout o2 k2 other) as [_ Hn]; [done..|]. apply Hn; left.
    + apply list_elem_of_singleton in Hx2 as ->. done.
    + destruct (Hout o2 k2 x) as [Hn1 Hn2]; [done..|]. by destruct (Hl' x Hx1).
    + apply list_elem_of_singleton in Hx2 as ->. destruct (Hout o1 k1 other) as [_ Hn]; [done..|]. apply Hn; left.
    + destruct (Hout o1 k1 x) as [Hn1 Hn2]; [done..|]. by destruct (Hl' x Hx2).
Qed.

Lemma untouched_mono l l' h h' : (∀ x, x ∈ l → x ∈ l') → untouched l h h' → untouched l' h h'.
Proof. intros Hs Hu x Hx. apply Hu. auto. Qed.

Lemma represents_remove h σ head n l1 l2 :
  represents h σ → σ !! head = Some (l1 ++ n :: l2) → represents (remove n h) (<[head := l1 ++ l2]> σ).
Proof.
  intros Hrep Hl. destruct (remove_ok h head l1 n l2) as (H1 & _ & H3); [by apply Hrep|].
  apply (represents_update h _ σ head (l1 ++ n :: l2)); [done..| |].
  - eapply untouched_mono; [|exact H3]. intros x ?. in_list.
  - intros x ?. left. in_list.
Qed.

Lemma represents_push_back h σ head n l :
  represents h σ → σ !! head = Some l → unlinked n σ → represents (push_back head n h) (<[head := l ++ [n]]> σ).
Proof.
  intros Hrep Hl Hn. destruct (push_back_ok h head n l) as [H1 H2]; [by apply Hrep|by apply (Hn head)|].
  apply (represents_update h _ σ head l); [done..| |].
  - eapply untouched_mono; [|exact H2]. intros x ?. in_list.
  - intros x [?|Hx]%elem_of_app; [left; by right|]. apply list_elem_of_singleton in Hx as ->. by right.
Qed.

Lemma splice_disj h σ head other l m :
  represents h σ → head ≠ other → σ !! head = Some l → σ !! other = Some m →
  NoDup ((head :: l) ++ other :: m).
Proof.
  intros Hrep Hne Hl Hm. apply NoDup_app. split_and!; [by apply (rep_list h σ Hrep)| |by apply (rep_list h σ Hrep)].
  intros x Hx Hx'. apply Hne. by eapply (rep_disj h σ Hrep).
Qed.

(** A splice of an empty list changes nothing. *)
Lemma splice_nil h other : dlist h other [] → is_empty other h = true.
Proof. intros Hd. by apply (is_empty_spec h other []). Qed.

(** ** Properties *)

(** C37: refinement of the intrusive list: whenever the store of [list_node]s
    represents a family of disjoint lists and an operation is applied within its
    contract (a node is pushed only when it is on no list, popped or removed
    only from the list it is on, a list is not spliced into itself), the
    sequence of pointer writes produces a store that represents the lists after
    the corresponding operation on sequences, with the same returned node; the
    other lists are untouched. *)
Theorem list_ops_refine h σ op res σ' (Hrep : represents h σ) (Hspec : list_spec op σ res σ') :
  ∃ h', list_exec op h = (res, h') ∧ represents h' σ'.
Proof.
  destruct Hspec as [head n l σ Hl Hn|head n l σ Hl Hn|head n l σ Hl|head σ Hl|head n l σ Hl|head σ Hl
    |head n l1 l2 σ Hl|head other l m σ Hne Hl Hm|head other l m σ Hne Hl Hm];
    pose proof (rep_list h σ Hrep head) as Hd.
  - eexists; split; [done|]. destruct (push_front_ok h head n l) as [H1 H2]; [auto|by apply (Hn head)|].
    apply (represents_update h _ σ head l); [done..| |].
    + eapply untouched_mono; [|exact H2]. intros x ?. in_list.
    + intros x [->|?]%elem_of_cons; [by right|left; by right].
  - eexists; split; [done|]. by apply represents_push_back.
  - specialize (Hd _ Hl). cbn. unfold pop_front.
    pose proof (is_empty_spec _ _ _ Hd) as He. destruct (is_empty head h); [by specialize (proj1 He eq_refl)|].
    rewrite (dlist_first h head (n :: l)) by done. eexists; split; [done|].
    by apply (represents_remove h σ head n [] l).
  - specialize (Hd _ Hl). cbn. unfold pop_front. rewrite (splice_nil h head Hd). eauto.
  - specialize (Hd _ Hl). cbn. unfold pop_back.
    pose proof (is_empty_spec _ _ _ Hd) as He.
    destruct (is_empty head h); [by destruct (app_cons_not_nil l [] n); rewrite (proj1 He eq_refl)|].
    rewrite (dlist_last h head (l ++ [n])) by done. unfold last_of. rewrite last_snoc. cbn.
    eexists; split; [done|]. rewrite <- (app_nil_r l). by apply (represents_remove h σ head n l []).
  - specialize (Hd _ Hl). cbn. unfold pop_back. rewrite (splice_nil h head Hd). eauto.
  - eexists; split; [done|]. by apply represents_remove.
  - eexists; split; [done|]. pose proof (splice_disj _ _ _ _ _ _ Hrep Hne Hl Hm) as Hdis.
    pose proof (rep_list h σ Hrep other m Hm) as Hd2. destruct m as [|b m].
    + unfold splice_front. rewrite (splice_nil h other Hd2). cbn.
      by rewrite (insert_id σ head), (insert_id σ other).
    + destruct (splice_front_ok h head other b l m) as (H1 & H2 & H3); [auto..|].
      apply (represents_move h _ σ head other l (b :: m)); [done..|]. intros x ?. in_list.
  - eexists; split; [done|]. pose proof (splice_disj _ _ _ _ _ _ Hrep Hne Hl Hm) as Hdis.
    pose proof (rep_list h σ Hrep other m Hm) as Hd2. destruct m as [|b m].
    + unfold splice_tail. rewrite (splice_nil h other Hd2), app_nil_r.
      by rewrite (insert_id σ head), (insert_id σ other).
    + destruct (splice_tail_ok h head other b l m) as (H1 & H2 & H3); [auto..|].
      apply (represents_move h _ σ head other l (b :: m)); [done..|]. intros x ?. in_list.
Qed.

(** iterating a list from [begin()] by [next] reaches [end()] after exactly
    its length and visits its elements in order; [front] and [back] are the
    first and the last of them, or null for an empty list. *)
Theorem list_iteration_complete h head l (Hd : dlist h head l) :
  iterate (length l) head (next_of h head) h = Some l ∧
  front head h = list.head l ∧ back head h = last l.
Proof.
  split.
  - destruct Hd as [Hnd Hl].
    assert (Hgen : ∀ k x, head ∉ k → linked h (x :: k ++ [head]) → iterate (length k) head (next_of h x) h = Some k).
    { clear. induction k as [|y k IH]; intros x Hn; cbn.
      - intros (-> & _). by rewrite Z.eqb_refl.
      - intros (-> & _ & Hk). apply not_elem_of_cons in Hn as [Hne Hn].
        rewrite (proj2 (Z.eqb_neq y head)) by congruence. by rewrite IH. }
    apply Hgen; [by apply NoDup_cons in Hnd as [? _]|done].
  - unfold front, back. pose proof (is_empty_spec _ _ _ Hd) as He.
    rewrite (dlist_first h head l), (dlist_last h head l) by done.
    unfold first_of, last_of. destruct (is_empty head h).
    + rewrite (proj1 He eq_refl). done.
    + destruct l as [|x l]; [by specialize (proj2 He eq_refl)|]. cbn. split; [done|].
      change (last (x :: l)) with (last ([x] ++ l)). by destruct (last_is_Some ([x] ++ l)) as [_ [y ->]].
Qed.

(** *** Witnesses: two heads, the first with two elements *)

Definition two_lists : heap :=
  push_back 100 2 (push_back 100 1 (node_init 200 (node_init 100 ∅))).

Lemma two_lists_first : dlist two_lists 100 [1; 2].
Proof.
  split; [apply (bool_decide_unpack _); by vm_compute|]. vm_compute. repeat split.
Qed.

Lemma two_lists_represents : represents two_lists (<[100 := [1; 2]]> {[200 := []]}).
Proof.
  split.
  - intros head l [[<- <-]|[_ Hl]]%lookup_insert_Some; [apply two_lists_first|].
    apply lookup_singleton_Some in Hl as [<- <-].
    split; [apply NoDup_singleton|]. vm_compute. repeat split.
  - intros h1 l1 h2 l2 x E1 E2 Hx1 Hx2.
    apply lookup_insert_Some in E1 as [[<- <-]|[_ [<- <-]%lookup_singleton_Some]];
      apply lookup_insert_Some in E2 as [[<- <-]|[_ [<- <-]%lookup_singleton_Some]]; try done;
      rewrite !elem_of_cons, elem_of_nil in *; lia.
Qed.

Lemma list_ops_refine_witness :
  ∃ h', list_exec (SpliceTail 200 100) two_lists = (None, h') ∧
        represents h' (<[100 := []]> (<[200 := [] ++ [1; 2]]> (<[100 := [1; 2]]> {[200 := []]}))).
Proof.
  apply (list_ops_refine two_lists (<[100 := [1; 2]]> {[200 := []]}) (SpliceTail 200 100) None _
           two_lists_represents).
  by apply spec_splice_tail.
Defined.

Lemma list_iteration_complete_witness :
  iterate 2 100 (next_of two_lists 100) two_lists = Some [1; 2] ∧ front 100 two_lists = Some 1.
Proof.
  destruct (list_iteration_complete two_lists 100 [1; 2] two_lists_first) as (H1 & H2 & _).
  split; [exact H1|exact H2].
Defined.
