(* ===== verification/RBTree.v ===== *)
(** * RBTree: red-black trees

    Models [na/lib/rbtree.cc], [rbtree.h] and [rbtree_augmented.h] with the
    dummy augmentation callbacks.  A node with its parent pointers is a
    position in a tree: the subtree at the node and the path of ancestors up to
    the root, each with the side taken and the sibling subtree.  Walking to
    [rb_parent(node)] pops the path, a rotation rewrites the subtree under the
    ancestor it turns about, and [__rb_change_child] plugs a subtree into the
    rest of the path.  The loops of [__rb_insert] and [____rb_erase_color] are
    recursions on the path, with the cases of the source in its order. *)

From S2P Require Import Prelude.

Inductive color := RB_RED | RB_BLACK.

#[export] Instance color_eq_dec : EqDecision color.
Proof. solve_decision. Defined.

Inductive tree (A : Type) : Type :=
| Leaf
| Node (c : color) (rb_left : tree A) (x : A) (rb_right : tree A).
Arguments Leaf {A}.
Arguments Node {A} c rb_left x rb_right.

(** An ancestor: [GoLeft c x r] is a node of colour [c] whose left child we are. *)
Inductive ancestor (A : Type) : Type :=
| GoLeft (c : color) (x : A) (rb_right : tree A)
| GoRight (c : color) (rb_left : tree A) (x : A).
Arguments GoLeft {A} c x rb_right.
Arguments GoRight {A} c rb_left x.

Section rbtree.
Context {A : Type}.

Abbreviation path := (list (ancestor A)).

(** The whole tree around a subtree. *)
Fixpoint plug (t : tree A) (p : path) : tree A :=
  match p with
  | [] => t
  | GoLeft c x r :: p' => plug (Node c t x r) p'
  | GoRight c l x :: p' => plug (Node c l x t) p'
  end.

Definition rb_is_red (t : tree A) : bool := match t with Node RB_RED _ _ _ => true | _ => false end.
(** [rb_set_parent_color(t, ..., RB_BLACK)] on a child that may be null. *)
Definition set_black (t : tree A) : tree A := match t with Node _ l x r => Node RB_BLACK l x r | Leaf => Leaf end.
Definition set_color (c : color) (t : tree A) : tree A := match t with Node _ l x r => Node c l x r | Leaf => Leaf end.

(** [__rb_insert]: the red node [Node RB_RED nl nx nr] at the end of path [p]. *)
Fixpoint rb_insert (nl : tree A) (nx : A) (nr : tree A) (p : path) : tree A :=
  match p with
  | [] => Node RB_BLACK nl nx nr
  | GoLeft RB_BLACK _ _ :: _ | GoRight RB_BLACK _ _ :: _ => plug (Node RB_RED nl nx nr) p
  | [_] => plug (Node RB_RED nl nx nr) p (* a red root: excluded by property 2 *)
  | parent :: GoLeft gc gx uncle :: p' =>
      (* parent == gparent->rb_left *)
      if rb_is_red uncle then
        (* case 1: colour flips, continue at gparent *)
        match parent with
        | GoLeft _ px pr => rb_insert (Node RB_BLACK (Node RB_RED nl nx nr) px pr) gx (set_black uncle) p'
        | GoRight _ pl px => rb_insert (Node RB_BLACK pl px (Node RB_RED nl nx nr)) gx (set_black uncle) p'
        end
      else
        match parent with
        | GoRight _ pl px =>
            (* case 2: left rotate at parent, then case 3 with node on top *)
            plug (Node gc (Node RB_RED pl px (set_black nl)) nx (Node RB_RED (set_black nr) gx uncle)) p'
        | GoLeft _ px pr =>
            (* case 3: right rotate at gparent *)
            plug (Node gc (Node RB_RED nl nx nr) px (Node RB_RED (set_black pr) gx uncle)) p'
        end
  | parent :: GoRight gc uncle gx :: p' =>
      if rb_is_red uncle then
        match parent with
        | GoLeft _ px pr => rb_insert (set_black uncle) gx (Node RB_BLACK (Node RB_RED nl nx nr) px pr) p'
        | GoRight _ pl px => rb_insert (set_black uncle) gx (Node RB_BLACK pl px (Node RB_RED nl nx nr)) p'
        end
      else
        match parent with
        | GoLeft _ px pr =>
            plug (Node gc (Node RB_RED uncle gx (set_black nl)) nx (Node RB_RED (set_black nr) px pr)) p'
        | GoRight _ pl px =>
            plug (Node gc (Node RB_RED uncle gx (set_black pl)) px (Node RB_RED nl nx nr)) p'
        end
  end.

(** One side of the body of [____rb_erase_color] after case 1: the sibling
    [Node _ sl sx sr] is black.  [Some] leaves the loop with the subtree under
    the parent; [None] is case 2 with a black parent, which continues at the
    parent with the sibling red. *)
Definition erase_left (n : tree A) (pc : color) (px : A) (sl : tree A) (sx : A) (sr : tree A) : option (tree A) :=
  if rb_is_red sr then
    (* case 4: left rotate at parent *)
    Some (Node pc (Node RB_BLACK n px sl) sx (set_black sr))
  else
    match sl with
    | Node RB_RED a y b =>
        (* case 3: right rotate at sibling, then case 4 *)
        Some (Node pc (Node RB_BLACK n px a) y (Node RB_BLACK (set_black b) sx sr))
    | _ =>
        (* case 2: sibling colour flip *)
        match pc with
        | RB_RED => Some (Node RB_BLACK n px (Node RB_RED sl sx sr))
        | RB_BLACK => None
        end
    end.

Definition erase_right (sl : tree A) (sx : A) (sr : tree A) (pc : color) (px : A) (n : tree A) : option (tree A) :=
  if rb_is_red sl then
    Some (Node pc (set_black sl) sx (Node RB_BLACK sr px n))
  else
    match sr with
    | Node RB_RED a y b =>
        Some (Node pc (Node RB_BLACK sl sx (set_black a)) y (Node RB_BLACK b px n))
    | _ =>
        match pc with
        | RB_RED => Some (Node RB_BLACK (Node RB_RED sl sx sr) px n)
        | RB_BLACK => None
        end
    end.

(** [____rb_erase_color]: every path through [n] has one black node too few. *)
Fixpoint erase_color (n : tree A) (p : path) : tree A :=
  match p with
  | [] => n
  | GoLeft pc px sibling :: p' =>
      match sibling with
      | Node RB_RED (Node _ a y b) sx sr =>
          (* case 1: left rotate at parent; the new sibling is the old one's left child *)
          match erase_left n RB_RED px a y b with
          | Some t => plug t (GoLeft pc sx sr :: p')
          | None => plug (Node RB_RED n px (Node RB_RED a y b)) (GoLeft pc sx sr :: p')
          end
      | Node _ sl sx sr =>
          match erase_left n pc px sl sx sr with
          | Some t => plug t p'
          | None => erase_color (Node RB_BLACK n px (Node RB_RED sl sx sr)) p'
          end
      | Leaf => plug (Node pc n px Leaf) p' (* no sibling: excluded by property 5 *)
      end
  | GoRight pc sibling px :: p' =>
      match sibling with
      | Node RB_RED sl sx (Node _ a y b) =>
          match erase_right a y b RB_RED px n with
          | Some t => plug t (GoRight pc sl sx :: p')
          | None => plug (Node RB_RED (Node RB_RED a y b) px n) (GoRight pc sl sx :: p')
          end
      | Node _ sl sx sr =>
          match erase_right sl sx sr pc px n with
          | Some t => plug t p'
          | None => erase_color (Node RB_BLACK (Node RB_RED sl sx sr) px n) p'
          end
      | Leaf => plug (Node pc Leaf px n) p'
      end
  end.

(** The [do ... while] of case 3 of [__rb_erase_augmented]: the leftmost node
    under a right child, with its colour, its right child and the path to it. *)
Fixpoint leftmost (c : color) (l : tree A) (x : A) (r : tree A) (p : path) : color * A * tree A * path :=
  match l with
  | Leaf => (c, x, r, p)
  | Node lc ll lx lr => leftmost lc ll lx lr (GoLeft c x r :: p)
  end.

(** [rb_erase] of the node of colour [c] at the end of path [p]. *)
Definition rb_erase (c : color) (l : tree A) (r : tree A) (p : path) : tree A :=
  match l, r with
  | Leaf, Leaf =>
      match c with RB_BLACK => erase_color Leaf p | RB_RED => plug Leaf p end
  | Leaf, Node _ _ _ _ => plug (set_color c r) p
  | Node _ _ _ _, Leaf => plug (set_color c l) p
  | Node _ _ _ _, Node rc rl rx rr =>
      (* the successor moves to the node's place, with its colour *)
      match rl with
      | Leaf =>
          (* case 2: the successor is the right child *)
          match rr with
          | Node _ _ _ _ => plug (Node c l rx (set_black rr)) p
          | Leaf =>
              match rc with
              | RB_BLACK => erase_color Leaf (GoRight c l rx :: p)
              | RB_RED => plug Leaf (GoRight c l rx :: p)
              end
          end
      | Node lc ll lx lr =>
          (* case 3: it is leftmost under the right child *)
          let '(sc, sx, child2, sp) := leftmost lc ll lx lr [GoLeft rc rx rr] in
          let sp := sp ++ GoRight c l sx :: p in
          match child2 with
          | Node _ _ _ _ => plug (set_black child2) sp
          | Leaf => match sc with RB_BLACK => erase_color Leaf sp | RB_RED => plug Leaf sp end
          end
      end
  end.

(** ** Searching *)

(** The descent of [rb_add]: [less node parent] goes left. *)
Fixpoint add_path (less : A → A → bool) (x : A) (t : tree A) (p : path) : path :=
  match t with
  | Leaf => p
  | Node c l y r => if less x y then add_path less x l (GoLeft c y r :: p) else add_path less x r (GoRight c l y :: p)
  end.

Definition rb_add (less : A → A → bool) (x : A) (t : tree A) : tree A :=
  rb_insert Leaf x Leaf (add_path less x t []).

(** [rb_find]: [cmp node] is negative, positive or zero. *)
Fixpoint rb_find (cmp : A → Z) (t : tree A) : option A :=
  match t with
  | Leaf => None
  | Node _ l y r =>
      let c := cmp y in
      if c <? 0 then rb_find cmp l else if 0 <? c then rb_find cmp r else Some y
  end.

(** ** Positions and traversal: a node is given by its subtree and path *)

Definition position : Type := tree A * path.

Fixpoint down_left (t : tree A) (p : path) : position :=
  match t with
  | Node c ((Node _ _ _ _) as l) x r => down_left l (GoLeft c x r :: p)
  | _ => (t, p)
  end.

Fixpoint down_right (t : tree A) (p : path) : position :=
  match t with
  | Node c l x ((Node _ _ _ _) as r) => down_right r (GoRight c l x :: p)
  | _ => (t, p)
  end.

Definition rb_first (t : tree A) : option position :=
  match t with Leaf => None | Node _ _ _ _ => Some (down_left t []) end.
Definition rb_last (t : tree A) : option position :=
  match t with Leaf => None | Node _ _ _ _ => Some (down_right t []) end.

(** Climb while we are a right child; the first parent we are the left child of. *)
Fixpoint up_right (t : tree A) (p : path) : option position :=
  match p with
  | [] => None
  | GoRight c l x :: p' => up_right (Node c l x t) p'
  | GoLeft c x r :: p' => Some (Node c t x r, p')
  end.

Fixpoint up_left (t : tree A) (p : path) : option position :=
  match p with
  | [] => None
  | GoLeft c x r :: p' => up_left (Node c t x r) p'
  | GoRight c l x :: p' => Some (Node c l x t, p')
  end.

Definition rb_next (pos : position) : option position :=
  match pos with
  | (Node c l x ((Node _ _ _ _) as r), p) => Some (down_left r (GoRight c l x :: p))
  | (t, p) => up_right t p
  end.

Definition rb_prev (pos : position) : option position :=
  match pos with
  | (Node c ((Node _ _ _ _) as l) x r, p) => Some (down_right l (GoLeft c x r :: p))
  | (t, p) => up_left t p
  end.

(** [rb_find_add]: insert unless a node compares equal, which is returned. *)
Fixpoint find_add_path (cmp : A → A → Z) (x : A) (t : tree A) (p : path) : path + A :=
  match t with
  | Leaf => inl p
  | Node c l y r =>
      let k := cmp x y in
      if k <? 0 then find_add_path cmp x l (GoLeft c y r :: p)
      else if 0 <? k then find_add_path cmp x r (GoRight c l y :: p)
      else inr y
  end.

Definition rb_find_add (cmp : A → A → Z) (x : A) (t : tree A) : option A * tree A :=
  match find_add_path cmp x t [] with
  | inl p => (None, rb_insert Leaf x Leaf p)
  | inr y => (Some y, t)
  end.

(** [rb_replace_node]: another node takes the place, children and colour of the
    victim at this position. *)
Definition rb_replace_node (pos : position) (new : A) : tree A :=
  match pos with
  | (Node c l _ r, p) => plug (Node c l new r) p
  | (Leaf, p) => plug Leaf p
  end.

(** Traversal with children before their parent. *)
Fixpoint rb_left_deepest_node (t : tree A) (p : path) : position :=
  match t with
  | Node c ((Node _ _ _ _) as l) x r => rb_left_deepest_node l (GoLeft c x r :: p)
  | Node c Leaf x ((Node _ _ _ _) as r) => rb_left_deepest_node r (GoRight c Leaf x :: p)
  | _ => (t, p)
  end.

Definition rb_next_postorder (pos : position) : option position :=
  match pos with
  | (_, []) => None
  | (t, GoLeft c x ((Node _ _ _ _) as r) :: p) => Some (rb_left_deepest_node r (GoRight c t x :: p))
  | (t, GoLeft c x Leaf :: p) => Some (Node c t x Leaf, p)
  | (t, GoRight c l x :: p) => Some (Node c l x t, p)
  end.

Definition rb_first_postorder (t : tree A) : option position :=
  match t with Leaf => None | Node _ _ _ _ => Some (rb_left_deepest_node t []) end.
End rbtree.

(** ** The contents: in-order sequences *)

Section contents.
Context {A : Type}.
Implicit Types (t l r n : tree A) (p : list (ancestor A)).

Fixpoint inorder (t : tree A) : list A :=
  match t with Leaf => [] | Node _ l x r => inorder l ++ x :: inorder r end.

(** What lies left and right of the hole at the end of a path. *)
Fixpoint lefts (p : list (ancestor A)) : list A :=
  match p with
  | [] => []
  | GoLeft _ _ _ :: p' => lefts p'
  | GoRight _ l x :: p' => lefts p' ++ inorder l ++ [x]
  end.

Fixpoint rights (p : list (ancestor A)) : list A :=
  match p with
  | [] => []
  | GoLeft _ x r :: p' => x :: inorder r ++ rights p'
  | GoRight _ _ _ :: p' => rights p'
  end.

Lemma inorder_plug t p : inorder (plug t p) = lefts p ++ inorder t ++ rights p.
Proof.
  revert t. induction p as [|[c x r|c l x] p IH]; intros t; cbn; rewrite ?IH; cbn.
  - by rewrite app_nil_r.
  - by rewrite <-!app_assoc.
  - by rewrite <-!app_assoc.
Qed.

Lemma plug_app t p q : plug t (p ++ q) = plug (plug t p) q.
Proof. revert t. induction p as [|[] p IH]; intros t; cbn; [done|apply IH..]. Qed.

Lemma inorder_set_black t : inorder (set_black t) = inorder t.
Proof. by destruct t. Qed.

Lemma inorder_set_color c t : inorder (set_color c t) = inorder t.
Proof. by destruct t. Qed.

Lemma lefts_app p q : lefts (p ++ q) = lefts q ++ lefts p.
Proof. induction p as [|[c x r|c l x] p IH]; cbn; rewrite ?IH, ?app_nil_r, <-?app_assoc; done. Qed.

Lemma rights_app p q : rights (p ++ q) = rights p ++ rights q.
Proof. induction p as [|[c x r|c l x] p IH]; cbn; rewrite ?IH, <-?app_assoc; done. Qed.
End contents.

Create Rewrite HintDb rb.
#[export] Hint Rewrite @inorder_plug @inorder_set_black @inorder_set_color @lefts_app @rights_app : rb.

Ltac rb_simpl := repeat (progress (cbn; autorewrite with rb; rewrite <-?app_assoc, ?app_nil_r)); try done.

(** Induction on paths two ancestors at a time, as [__rb_insert] climbs. *)
Lemma path_ind2 {A} (P : list A → Prop) :
  P [] → (∀ a, P [a]) → (∀ a b p, P p → P (a :: b :: p)) → ∀ p, P p.
Proof.
  intros H0 H1 H2. fix IH 1. intros [|a [|b p]]; [done|apply H1|apply H2, IH].
Qed.

Section contents_ops.
Context {A : Type}.
Implicit Types (t l r n : tree A) (p : list (ancestor A)).

(** Rebalancing after an insertion keeps the sequence. *)
Lemma inorder_rb_insert nl (nx : A) nr p :
  inorder (rb_insert nl nx nr p) = lefts p ++ (inorder nl ++ nx :: inorder nr) ++ rights p.
Proof.
  revert nl nx nr. induction p as [|a|a b p IH] using path_ind2; intros.
  - cbn. by rewrite app_nil_r.
  - destruct a as [[] ? ?|[] ? ?]; rb_simpl.
  - destruct a as [[] ? ?|[] ? ?], b as [gc gx u|gc u gx]; try by rb_simpl.
    all: cbn [rb_insert]; destruct (rb_is_red u); rewrite ?IH; rb_simpl.
Qed.

Lemma inorder_erase_color n p : inorder (erase_color n p) = lefts p ++ inorder n ++ rights p.
Proof.
  revert n. induction p as [|a p IH]; intros n; [cbn; by rewrite app_nil_r|].
  destruct a as [pc px [|[] [|c a y b] sx sr]|pc [|[] sl sx [|c a y b]] px]; cbn [erase_color].
  all: unfold erase_left, erase_right; repeat case_match; simplify_eq; rewrite ?IH; rb_simpl.
Qed.

Lemma inorder_leftmost c l x r p sc sx child sp :
  leftmost c l x r p = (sc, sx, child, sp) →
  lefts sp = lefts p ∧ sx :: inorder child ++ rights sp = inorder (Node c l x r) ++ rights p.
Proof.
  revert c x r p. induction l as [|lc ll IHl lx lr _]; cbn; intros c x r p H.
  - simplify_eq. done.
  - apply IHl in H as [Hl Hr]. cbn in *. split; [done|]. rewrite Hr. by rewrite <-!app_assoc.
Qed.

(** [rb_erase] removes exactly the node at the hole. *)
Lemma inorder_rb_erase c l r p :
  inorder (rb_erase c l r p) = lefts p ++ (inorder l ++ inorder r) ++ rights p.
Proof.
  destruct l as [|lc ll lx lr], r as [|rc rl rx rr]; cbn [rb_erase].
  - destruct c; rewrite ?inorder_erase_color; rb_simpl.
  - rb_simpl.
  - rb_simpl.
  - destruct rl as [|lc' ll' lx' lr'].
    + destruct rr; [destruct rc; rewrite ?inorder_erase_color|]; rb_simpl.
    + destruct (leftmost lc' ll' lx' lr' [GoLeft rc rx rr]) as [[[sc sx] child2] sp] eqn:E.
      apply inorder_leftmost in E as [Hl Hr]. cbn in Hl, Hr.
      assert (∀ t, inorder t = inorder child2 →
        lefts (sp ++ GoRight c (Node lc ll lx lr) sx :: p) ++ inorder t ++
        rights (sp ++ GoRight c (Node lc ll lx lr) sx :: p) =
        lefts p ++ (inorder (Node lc ll lx lr) ++ inorder (Node rc (Node lc' ll' lx' lr') rx rr)) ++ rights p) as K.
      { intros t ->. rewrite lefts_app, rights_app, Hl. rb_simpl.
        apply (f_equal (λ z, z ++ rights p)) in Hr. revert Hr. rb_simpl. by intros ->. }
      destruct child2; [destruct sc; rewrite ?inorder_erase_color, ?inorder_plug|rewrite inorder_plug]; by apply K.
Qed.

Lemma inorder_add_path less x t p :
  ∃ a b, inorder t = a ++ b ∧ lefts (add_path less x t p) = lefts p ++ a ∧
         rights (add_path less x t p) = b ++ rights p.
Proof.
  revert p. induction t as [|c l IHl y r IHr]; intros p; cbn.
  - exists [], []. by rewrite !app_nil_r.
  - destruct (less x y).
    + destruct (IHl (GoLeft c y r :: p)) as (a & b & -> & -> & ->). cbn.
      exists a, (b ++ y :: inorder r). rewrite <-!app_assoc. done.
    + destruct (IHr (GoRight c l y :: p)) as (a & b & -> & -> & ->). cbn.
      exists (inorder l ++ y :: a), b. rewrite <-!app_assoc. done.
Qed.

Lemma rb_add_permutation less x t : inorder (rb_add less x t) ≡ₚ x :: inorder t.
Proof.
  unfold rb_add. rewrite inorder_rb_insert. cbn.
  destruct (inorder_add_path less x t []) as (a & b & -> & -> & ->).
  rewrite app_nil_r. cbn. by rewrite Permutation_middle.
Qed.
End contents_ops.

(** ** Balance: the red-black properties

    [is_rb t c n]: [t] has a root of colour [c], no red node has a red child,
    and every path down to a leaf meets [n] black nodes.  [rb_path p n]: the
    same for the surroundings of a hole for a tree of black height [n]. *)

Section balance.
Context {A : Type}.
Implicit Types (t l r n : tree A) (p : list (ancestor A)).

Inductive is_rb : tree A → color → nat → Prop :=
| is_rb_leaf : is_rb Leaf RB_BLACK 0
| is_rb_red l x r h : is_rb l RB_BLACK h → is_rb r RB_BLACK h → is_rb (Node RB_RED l x r) RB_RED h
| is_rb_black l x r cl cr h : is_rb l cl h → is_rb r cr h → is_rb (Node RB_BLACK l x r) RB_BLACK (S h).

(** A red subtree may hang under a black parent only. *)
Definition accepts (c : color) p : Prop :=
  match c with
  | RB_BLACK => True
  | RB_RED => match p with GoLeft RB_BLACK _ _ :: _ | GoRight RB_BLACK _ _ :: _ => True | _ => False end
  end.

Inductive rb_path : list (ancestor A) → nat → Prop :=
| rb_path_nil h : rb_path [] h
| rb_path_left_red x r p h :
    is_rb r RB_BLACK h → rb_path p h → accepts RB_RED p → rb_path (GoLeft RB_RED x r :: p) h
| rb_path_right_red l x p h :
    is_rb l RB_BLACK h → rb_path p h → accepts RB_RED p → rb_path (GoRight RB_RED l x :: p) h
| rb_path_left_black x r c p h :
    is_rb r c h → rb_path p (S h) → rb_path (GoLeft RB_BLACK x r :: p) h
| rb_path_right_black l x c p h :
    is_rb l c h → rb_path p (S h) → rb_path (GoRight RB_BLACK l x :: p) h.

(** A red-black tree: black root, properties 4 and 5. *)
Definition rb_valid t : Prop := ∃ h, is_rb t RB_BLACK h.

#[local] Hint Constructors is_rb rb_path : core.

Lemma plug_valid t c h p : is_rb t c h → rb_path p h → accepts c p → rb_valid (plug t p).
Proof.
  intros Ht Hp. revert t c Ht. induction Hp; intros t c0 Ht Ha; cbn.
  - destruct c0; [done|]. by eexists.
  - destruct c0; [done|]. by eapply IHHp; eauto.
  - destruct c0; [done|]. by eapply IHHp; eauto.
  - eapply IHHp; [by eauto|done].
  - eapply IHHp; [by eauto|done].
Qed.

Lemma is_rb_set_black t c h : is_rb t c h → t = Leaf ∧ h = 0%nat ∨ c = RB_BLACK ∧ set_black t = t ∨ c = RB_RED ∧ is_rb (set_black t) RB_BLACK (S h).
Proof. destruct 1; cbn; [by left|by right; right; eauto|by right; left]. Qed.

Lemma set_black_black t h : is_rb t RB_BLACK h → set_black t = t.
Proof. by inversion 1. Qed.

Lemma red_set_black t h : is_rb t RB_RED h → is_rb (set_black t) RB_BLACK (S h).
Proof. inversion 1; cbn; eauto. Qed.

Lemma is_rb_color t c h : is_rb t c h → c = (if rb_is_red t then RB_RED else RB_BLACK).
Proof. by destruct 1. Qed.

Lemma rb_path_accepts a p h : rb_path (a :: p) h →
  match a with GoLeft RB_RED _ _ | GoRight RB_RED _ _ => accepts RB_RED p ∧ rb_path p h
             | _ => rb_path p (S h) end.
Proof. by inversion 1. Qed.

(** [__rb_insert] restores the properties around a fresh red node. *)
Lemma rb_insert_valid nl (x : A) nr p h :
  is_rb nl RB_BLACK h → is_rb nr RB_BLACK h → rb_path p h → rb_valid (rb_insert nl x nr p).
Proof.
  revert nl x nr h. induction p as [|a|a b p IH] using path_ind2; intros nl nx nr h Hl Hr Hp.
  - eexists. cbn. by eauto.
  - destruct a as [[] ? ?|[] ? ?]; inversion Hp; simplify_eq; try done; cbn; eexists; by eauto.
  - destruct a as [[] px pr|[] pl px]; cbn [rb_insert].
    2,4: by (eapply plug_valid; [by eauto|by eauto|]).
    all: apply rb_path_accepts in Hp as Hp'; destruct Hp' as [Ha Hp'].
    all: destruct b as [[] gx u|[] u gx]; cbn in Ha; try done.
    all: inversion Hp; inversion Hp'; simplify_eq.
    all: match goal with |- context [rb_is_red ?u] =>
           match goal with H : is_rb u _ _ |- _ => pose proof (is_rb_color _ _ _ H); subst; destruct (rb_is_red u) end end.
    all: try (eapply IH; [| |eassumption]; eauto using red_set_black).
    all: repeat match goal with H : is_rb ?t RB_BLACK _ |- context [set_black ?t] => rewrite (set_black_black t _ H) end.
    all: eapply plug_valid; [|eassumption|]; eauto.
Qed.

Lemma erase_left_ok n pc px sl sx sr h cl cr :
  is_rb n RB_BLACK h → is_rb sl cl h → is_rb sr cr h →
  match erase_left n pc px sl sx sr with
  | Some t => ∃ c h', is_rb t c h' ∧ (pc = RB_BLACK → c = RB_BLACK ∧ h' = S (S h)) ∧ (pc = RB_RED → h' = S h)
  | None => pc = RB_BLACK ∧ is_rb (Node RB_BLACK n px (Node RB_RED sl sx sr)) RB_BLACK (S h)
  end.
Proof.
  intros Hn Hl Hr. unfold erase_left.
  destruct sr as [|[] ra ry rb]; cbn [rb_is_red set_black].
  2: { inversion Hr; subst. destruct pc; do 2 eexists; (split; [by eauto|split; done]). }
  all: destruct sl as [|[] la ly lb]; cbn; inversion Hl; inversion Hr; simplify_eq.
  all: try (destruct pc; [do 2 eexists; (split; [by eauto|split; done])|split; [done|by eauto]]).
  all: rewrite ?(set_black_black lb _ ltac:(eassumption)).
  all: destruct pc; do 2 eexists; (split; [by eauto|split; done]).
Qed.

Lemma erase_right_ok n pc px sl sx sr h cl cr :
  is_rb n RB_BLACK h → is_rb sl cl h → is_rb sr cr h →
  match erase_right sl sx sr pc px n with
  | Some t => ∃ c h', is_rb t c h' ∧ (pc = RB_BLACK → c = RB_BLACK ∧ h' = S (S h)) ∧ (pc = RB_RED → h' = S h)
  | None => pc = RB_BLACK ∧ is_rb (Node RB_BLACK (Node RB_RED sl sx sr) px n) RB_BLACK (S h)
  end.
Proof.
  intros Hn Hl Hr. unfold erase_right.
  destruct sl as [|[] ra ry rb]; cbn [rb_is_red set_black].
  2: { inversion Hl; subst. destruct pc; do 2 eexists; (split; [by eauto|split; done]). }
  all: destruct sr as [|[] la ly lb]; cbn; inversion Hl; inversion Hr; simplify_eq.
  all: try (destruct pc; [do 2 eexists; (split; [by eauto|split; done])|split; [done|by eauto]]).
  all: rewrite ?(set_black_black la _ ltac:(eassumption)).
  all: destruct pc; do 2 eexists; (split; [by eauto|split; done]).
Qed.
(** What a parent of colour [pc] above a black-height deficit knows. *)
Definition above_deficit (pc : color) s p h : Prop :=
  ∃ c, is_rb s c (S h) ∧ (pc = RB_RED → c = RB_BLACK ∧ accepts RB_RED p ∧ rb_path p (S h)) ∧
       (pc = RB_BLACK → rb_path p (S (S h))).

Lemma rb_path_above pc (px : A) s p h :
  rb_path (GoLeft pc px s :: p) (S h) ∨ rb_path (GoRight pc s px :: p) (S h) → above_deficit pc s p h.
Proof. intros [Hp|Hp]; inversion Hp; subst; eexists; (split; [done|]); by split. Qed.

(** A repaired subtree fits where the parent was. *)
Lemma plug_repaired t c h' pc s p h :
  above_deficit pc s p h → is_rb t c h' →
  (pc = RB_BLACK → c = RB_BLACK ∧ h' = S (S h)) → (pc = RB_RED → h' = S h) → rb_valid (plug t p).
Proof.
  intros (c' & _ & Hred & Hblack) Ht H1 H2. destruct pc.
  - destruct (Hred eq_refl) as (_ & Hacc & Hp). rewrite (H2 eq_refl) in Ht.
    by eapply plug_valid; [done|done|destruct c].
  - destruct (H1 eq_refl) as [-> ->]. by eapply plug_valid; [done|auto|].
Qed.

(** [____rb_erase_color] repays the missing black node. *)
Lemma erase_color_valid n p h : is_rb n RB_BLACK h → rb_path p (S h) → rb_valid (erase_color n p).
Proof.
  revert n h. induction p as [|a p IH]; intros n h Hn Hp; [by eexists|].
  destruct a as [pc px s|pc s px].
  all: assert (above_deficit pc s p h) as Habove by (eapply rb_path_above; eauto).
  all: pose proof Habove as (c & Hs & Hred & Hblack); clear Hp.
  all: inversion Hs as [|sl sx sr ? Hsl Hsr|sl sx sr cl cr ? Hsl Hsr]; subst; cbn [erase_color].
  - destruct pc; [by destruct (Hred eq_refl)|]. inversion Hsl as [|?|a y b ca cb ? Ha Hb]; subst.
    pose proof (erase_left_ok n RB_RED px a y b _ _ _ Hn Ha Hb) as K.
    destruct (erase_left n RB_RED px a y b) as [t|]; [|by destruct K].
    destruct K as (c & h' & Ht & _ & Hh). rewrite (Hh eq_refl) in Ht.
    eapply plug_valid; [exact Ht|by eauto|by destruct c].
  - pose proof (erase_left_ok n pc px sl sx sr _ _ _ Hn Hsl Hsr) as K.
    destruct (erase_left n pc px sl sx sr) as [t|].
    + destruct K as (c & h' & Ht & Hh1 & Hh2). by eapply plug_repaired.
    + destruct K as [-> K]. eapply IH; [done|auto].
  - destruct pc; [by destruct (Hred eq_refl)|]. inversion Hsr as [|?|a y b ca cb ? Ha Hb]; subst.
    pose proof (erase_right_ok n RB_RED px a y b _ _ _ Hn Ha Hb) as K.
    destruct (erase_right a y b RB_RED px n) as [t|]; [|by destruct K].
    destruct K as (c & h' & Ht & _ & Hh). rewrite (Hh eq_refl) in Ht.
    eapply plug_valid; [exact Ht|by eauto|by destruct c].
  - pose proof (erase_right_ok n pc px sl sx sr _ _ _ Hn Hsl Hsr) as K.
    destruct (erase_right sl sx sr pc px n) as [t|].
    + destruct K as (c & h' & Ht & Hh1 & Hh2). by eapply plug_repaired.
    + destruct K as [-> K]. eapply IH; [done|auto].
Qed.

(** Removing a node that has at most one child. *)
Definition splice (c : color) (child : tree A) p : tree A :=
  match child with
  | Node _ _ _ _ => plug (set_black child) p
  | Leaf => match c with RB_BLACK => erase_color Leaf p | RB_RED => plug Leaf p end
  end.

Lemma splice_valid c (x : A) child p h :
  is_rb (Node c Leaf x child) c h → rb_path p h → accepts c p → rb_valid (splice c child p).
Proof.
  intros H Hp Ha. inversion H as [|? ? ? ? Hl Hr|? ? ? cl cr ? Hl Hr]; subst; inversion Hl; subst.
  - inversion Hr; subst. cbn. by eapply plug_valid; [done|done|].
  - inversion Hr; subst; cbn.
    + by eapply erase_color_valid.
    + by eapply plug_valid; [|done|]; eauto.
Qed.

Lemma leftmost_valid c l x r p h sc sx child sp :
  is_rb (Node c l x r) c h → rb_path p h → accepts c p →
  leftmost c l x r p = (sc, sx, child, sp) →
  ∃ hs, is_rb (Node sc Leaf sx child) sc hs ∧ rb_path sp hs ∧ accepts sc sp.
Proof.
  revert c x r p h. induction l as [|lc ll IHl lx lr _]; cbn; intros c x r p h Ht Hp Ha E.
  - simplify_eq. eauto.
  - inversion Ht as [|? ? ? ? Hl Hr|? ? ? cl cr ? Hl Hr]; subst.
    + eapply IHl; [| | |exact E]; [inversion Hl; subst; eauto| |by inversion Hl]. eauto.
    + assert (cl = lc) as -> by by inversion Hl.
      eapply IHl; [eassumption| | |exact E]; [eauto|by destruct lc].
Qed.

Lemma leftmost_app c l x r q p :
  leftmost c l x r (q ++ p) =
  (let '(sc, sx, child, sp) := leftmost c l x r q in (sc, sx, child, sp ++ p)).
Proof. revert c x r q. induction l as [|lc ll IHl lx lr _]; cbn; intros; [done|]. by rewrite <-IHl. Qed.

(** The payload of an ancestor does not matter for the balance. *)
Lemma rb_path_payload q c l (x y : A) p h :
  rb_path (q ++ GoRight c l x :: p) h → rb_path (q ++ GoRight c l y :: p) h.
Proof.
  revert h. induction q as [|b q IH]; intros h H; cbn in *; [inversion H; subst; eauto|].
  assert (accepts RB_RED (q ++ GoRight c l x :: p) → accepts RB_RED (q ++ GoRight c l y :: p)) as Hacc
    by by destruct q.
  inversion H; subst; eauto.
Qed.

(** [rb_erase] keeps the red-black properties. *)
Lemma rb_erase_valid c l (x : A) r p h :
  is_rb (Node c l x r) c h → rb_path p h → accepts c p → rb_valid (rb_erase c l r p).
Proof.
  intros Ht Hp Ha.
  assert (∃ cl cr h', is_rb l cl h' ∧ is_rb r cr h' ∧ (c = RB_RED → cl = RB_BLACK ∧ cr = RB_BLACK) ∧
    rb_path (GoRight c l x :: p) h') as (cl & cr & h' & Hl & Hr & Hc & Hpr)
    by (inversion Ht; subst; do 3 eexists; split_and!; by eauto).
  destruct l as [|lc ll lx lr], r as [|rc rl rx rr].
  - exact (splice_valid c x Leaf p h Ht Hp Ha).
  - (* one child: it is red and takes the colour of the node *)
    inversion Ht as [|? ? ? ? H1 H2|? ? ? ? ? ? H1 H2]; subst; inversion H1; subst; inversion H2; subst.
    eapply plug_valid; [|eassumption|done]. cbn. eauto.
  - inversion Ht as [|? ? ? ? H1 H2|? ? ? ? ? ? H1 H2]; subst; inversion H2; subst; inversion H1; subst.
    eapply plug_valid; [|eassumption|done]. cbn. eauto.
  - assert (cr = rc) as -> by by inversion Hr.
    assert (accepts rc (GoRight c (Node lc ll lx lr) x :: p)) as Hacc
      by (destruct c, rc; [by destruct (Hc eq_refl)|done..]).
    destruct rl as [|lc' ll' lx' lr'].
    + eapply (splice_valid rc rx rr (GoRight c (Node lc ll lx lr) rx :: p)); [done| |done].
      by apply (rb_path_payload [] c _ x).
    + cbn [rb_erase]. destruct (leftmost lc' ll' lx' lr' [GoLeft rc rx rr]) as [[[sc sx] child2] sp] eqn:E.
      pose proof (leftmost_app lc' ll' lx' lr' [GoLeft rc rx rr] (GoRight c (Node lc ll lx lr) x :: p)) as E'.
      rewrite E in E'. change ([GoLeft rc rx rr] ++ ?q) with (GoLeft rc rx rr :: q) in E'.
      change (leftmost rc (Node lc' ll' lx' lr') rx rr (GoRight c (Node lc ll lx lr) x :: p) =
        (sc, sx, child2, sp ++ GoRight c (Node lc ll lx lr) x :: p)) in E'.
      eapply leftmost_valid in E' as (hs & H1 & H2 & H3); [|done..].
      eapply (splice_valid sc sx child2); [done|by eapply rb_path_payload|].
      by destruct sp.
Qed.

(** Descending from the root of a valid tree. *)
Lemma add_path_valid less (x : A) t p c h :
  is_rb t c h → rb_path p h → accepts c p →
  rb_path (add_path less x t p) 0.
Proof.
  intros Ht. revert p. induction Ht as [|l y r h Hl IHl Hr IHr|l y r cl cr h Hl IHl Hr IHr]; intros p Hp Ha; cbn.
  - eauto.
  - case_match; [apply IHl|apply IHr]; by eauto.
  - case_match; [apply IHl; [eauto|by destruct cl]|apply IHr; [eauto|by destruct cr]].
Qed.

Lemma rb_add_valid less (x : A) t : rb_valid t → rb_valid (rb_add less x t).
Proof.
  intros [h Ht]. eapply rb_insert_valid; [by eauto..|]. eapply add_path_valid; by eauto.
Qed.

Lemma unplug_valid t p c h : is_rb (plug t p) c h → accepts c [] →
  ∃ c' h', is_rb t c' h' ∧ rb_path p h' ∧ accepts c' p.
Proof.
  revert t. induction p as [|[[] x r|[] l x] p IH]; intros t H Hc; cbn in *; [by eauto|..].
  all: destruct (IH _ H Hc) as (c' & h' & Ht & Hp & Ha).
  all: inversion Ht as [|? ? ? ? H1 H2|? ? ? cl cr ? H1 H2]; subst.
  - exists RB_BLACK, h'. split_and!; [done|by eauto|done].
  - exists cl. eexists. split_and!; [done|by eauto|by destruct cl].
  - exists RB_BLACK, h'. split_and!; [done|by eauto|done].
  - exists cr. eexists. split_and!; [done|by eauto|by destruct cr].
Qed.

Lemma rb_erase_valid_at c l (x : A) r p : rb_valid (plug (Node c l x r) p) → rb_valid (rb_erase c l r p).
Proof.
  intros [h (c' & h' & Ht & Hp & Ha)%unplug_valid]; [|done].
  assert (c' = c) as -> by by inversion Ht. by eapply rb_erase_valid.
Qed.

(** Overwriting a payload does not touch the colours. *)
Lemma rb_valid_payload c l (x y : A) r p : rb_valid (plug (Node c l x r) p) → rb_valid (plug (Node c l y r) p).
Proof.
  intros [h (c' & h' & Ht & Hp & Ha)%unplug_valid]; [|done].
  eapply (plug_valid _ c' h'); [|done..]. inversion Ht; subst; eauto.
Qed.

(** A red-black tree of [n] nodes has height at most [2 * log2 (n + 1)]. *)
Fixpoint height (t : tree A) : nat := match t with Leaf => 0 | Node _ l _ r => S (height l `max` height r) end.

Lemma is_rb_height t c h :
  is_rb t c h → (height t ≤ 2 * h + (if c is RB_RED then 1 else 0))%nat ∧ (2 ^ h ≤ S (length (inorder t)))%nat.
Proof.
  induction 1 as [|l y r h Hl [IHl IHl'] Hr [IHr IHr']|l y r cl cr h Hl [IHl IHl'] Hr [IHr IHr']];
    cbn [height inorder length]; rewrite ?length_app; cbn [length].
  - cbn. lia.
  - lia.
  - rewrite Nat.pow_succ_r'. destruct cl, cr; lia.
Qed.

Lemma rb_valid_height t : rb_valid t → (2 ^ (height t / 2) ≤ S (length (inorder t)))%nat.
Proof.
  intros [h [Hh Hn]%is_rb_height]. etrans; [|exact Hn]. apply Nat.pow_le_mono_r; [done|].
  apply Nat.Div0.div_le_upper_bound. lia.
Qed.
End balance.

(** ** Search on ordered trees *)

Section search.
Context {A : Type}.
Implicit Types (t l r n : tree A) (p : list (ancestor A)).

(** Where [rb_add] puts a node: after everything it is not less than. *)
Lemma inorder_rb_add (less : A → A → bool) x t :
  StronglySorted (λ y z, less x y → less x z) (inorder t) →
  ∃ a b, inorder t = a ++ b ∧ inorder (rb_add less x t) = a ++ x :: b ∧
         Forall (λ y, less x y = false) a ∧ Forall (λ y, less x y = true) b.
Proof.
  intros Hs.
  assert (∀ p, ∃ a b, inorder t = a ++ b ∧ lefts (add_path less x t p) = lefts p ++ a ∧
     rights (add_path less x t p) = b ++ rights p ∧
     Forall (λ y, less x y = false) a ∧ Forall (λ y, less x y = true) b) as K.
  { induction t as [|c l IHl y r IHr]; intros p; cbn.
    - exists [], []. rewrite !app_nil_r. by split_and!.
    - cbn in Hs. apply StronglySorted_app in Hs as (Hlr & Hl & Hyr).
      apply StronglySorted_cons in Hyr as [Hy Hr].
      destruct (less x y) eqn:Ey.
      + destruct (IHl Hl (GoLeft c y r :: p)) as (a & b & Ea & E1 & E2 & Fa & Fb).
        exists a, (b ++ y :: inorder r). rewrite Ea, E1, E2. cbn. rewrite <-!app_assoc.
        split_and!; [done..|]. apply Forall_app. split; [done|]. constructor; [done|].
        eapply Forall_impl; [exact Hy|]. intros z Hz. cbv beta in Hz.
        destruct (less x z); [done|by destruct Hz].
      + destruct (IHr Hr (GoRight c l y :: p)) as (a & b & Ea & E1 & E2 & Fa & Fb).
        exists (inorder l ++ y :: a), b. rewrite Ea, E1, E2. cbn. rewrite <-!app_assoc.
        split_and!; [done..| |done]. apply Forall_app. split; [|by constructor].
        apply Forall_forall. intros z Hz. specialize (Hlr z y Hz ltac:(left)). cbv beta in Hlr.
        rewrite ?Ey in Hlr. destruct (less x z); [by destruct Hlr|done]. }
  destruct (K []) as (a & b & E & E1 & E2 & Fa & Fb). exists a, b.
  unfold rb_add. rewrite inorder_rb_insert, E1, E2. cbn. by rewrite app_nil_r.
Qed.

Lemma app_cons_split {B} (a b a' b' : list B) (x y : B) :
  a ++ x :: b = a' ++ y :: b' →
  (∃ d, a' = a ++ x :: d ∧ b = d ++ y :: b') ∨ (a = a' ∧ x = y ∧ b = b') ∨ (∃ d, a = a' ++ y :: d ∧ b' = d ++ x :: b).
Proof.
  revert a'. induction a as [|z a IH]; intros [|z' a']; cbn; intros H.
  - right. left. by simplify_eq.
  - left. simplify_eq. by exists a'.
  - right. right. simplify_eq. by exists a.
  - injection H as -> H. apply IH in H as [(d & -> & ->)|[(-> & -> & ->)|(d & -> & ->)]]; eauto.
Qed.

(** [rb_find] on a tree whose order [cmp] respects. *)
Lemma rb_find_present cmp t a x b :
  inorder t = a ++ x :: b → cmp x = 0 → Forall (λ y, 0 < cmp y) a → Forall (λ y, cmp y < 0) b →
  rb_find cmp t = Some x.
Proof.
  intros E Hx Ha Hb. revert a b E Ha Hb. induction t as [|c l IHl y r IHr]; cbn; intros a b E Ha Hb.
  - by destruct a.
  - apply app_cons_split in E as [(d & -> & E)|[(<- & -> & <-)|(d & E & ->)]].
    + apply Forall_app in Ha as [Ha1 Ha2]. apply Forall_cons in Ha2 as [Hy Ha2].
      rewrite (proj2 (Z.ltb_ge _ _)), (proj2 (Z.ltb_lt _ _)) by lia. by apply (IHr d b).
    + by rewrite Hx.
    + apply Forall_app in Hb as [Hb1 Hb2]. apply Forall_cons in Hb2 as [Hy Hb2].
      rewrite (proj2 (Z.ltb_lt _ _)) by lia. by apply (IHl a d).
Qed.

Lemma rb_find_absent cmp t a b :
  inorder t = a ++ b → Forall (λ y, 0 < cmp y) a → Forall (λ y, cmp y < 0) b → rb_find cmp t = None.
Proof.
  intros E Ha Hb. assert (∀ y, y ∈ inorder t → cmp y ≠ 0) as Hne.
  { intros y. rewrite E, elem_of_app. rewrite Forall_forall in Ha, Hb.
    intros [Hy|Hy]; [apply Ha in Hy|apply Hb in Hy]; lia. }
  clear E. induction t as [|c l IHl y r IHr]; [done|]. cbn in Hne |- *.
  assert (cmp y ≠ 0) by (apply Hne; set_solver).
  destruct (Z.ltb_spec (cmp y) 0); [apply IHl; set_solver|].
  rewrite (proj2 (Z.ltb_lt _ _)) by lia. apply IHr. set_solver.
Qed.

(** ** Nodes in place

    A pointer to a node of the tree is a predicate that only that node's
    payload satisfies; following it is finding its position. *)

Fixpoint locate (P : A → bool) (t : tree A) (p : list (ancestor A)) : option (tree A * list (ancestor A)) :=
  match t with
  | Leaf => None
  | Node c l x r =>
      if P x then Some (t, p) else
      match locate P l (GoLeft c x r :: p) with
      | Some q => Some q
      | None => locate P r (GoRight c l x :: p)
      end
  end.

Definition rb_entry (pos : @position A) : option A := match pos.1 with Node _ _ x _ => Some x | Leaf => None end.

(** [rb_erase(&node->rb, root)], [rb_next(&node->rb)], [rb_prev(&node->rb)] and
    a store to a field of the node that [node] points to. *)
Definition erase_node (P : A → bool) (t : tree A) : tree A :=
  match locate P t [] with Some (Node c l _ r, p) => rb_erase c l r p | _ => t end.
Definition next_node (P : A → bool) (t : tree A) : option A :=
  match locate P t [] with Some pos => match rb_next pos with Some pos' => rb_entry pos' | None => None end | None => None end.
Definition prev_node (P : A → bool) (t : tree A) : option A :=
  match locate P t [] with Some pos => match rb_prev pos with Some pos' => rb_entry pos' | None => None end | None => None end.
Definition store_node (P : A → bool) (f : A → A) (t : tree A) : tree A :=
  match locate P t [] with Some (Node c l x r, p) => plug (Node c l (f x) r) p | _ => t end.
Definition first_node (t : tree A) : option A :=
  match rb_first t with Some pos => rb_entry pos | None => None end.

Lemma locate_none P t p : (∀ x, x ∈ inorder t → P x = false) → locate P t p = None.
Proof.
  revert p. induction t as [|c l IHl y r IHr]; intros p H; cbn; [done|]. cbn in H.
  rewrite (H y), IHl, IHr by set_solver. done.
Qed.

Lemma locate_spec P t p a x b :
  inorder t = a ++ x :: b → P x = true → (∀ y, y ∈ a ++ b → P y = false) →
  ∃ c l r q, locate P t p = Some (Node c l x r, q ++ p) ∧ plug (Node c l x r) q = t ∧
             lefts q ++ inorder l = a ∧ inorder r ++ rights q = b.
Proof.
  intros E Hx. revert p a b E. induction t as [|c l IHl y r IHr]; cbn; intros p a b E Hn; [by destruct a|].
  apply app_cons_split in E as [(d & -> & E)|[(<- & -> & <-)|(d & E & ->)]].
  - rewrite (Hn y), locate_none by set_solver.
    destruct (IHr (GoRight c l y :: p) d b E) as (c' & l' & r' & q & -> & Hp & Hl & Hr); [set_solver|].
    exists c', l', r', (q ++ [GoRight c l y]). rewrite <-app_assoc, lefts_app, rights_app. cbn.
    split_and!; [done| | |by rewrite app_nil_r].
    + by rewrite plug_app, Hp.
    + rewrite <-Hl, <-!app_assoc. done.
  - rewrite Hx. exists c, l, r, []. cbn. by rewrite app_nil_r.
  - rewrite (Hn y) by set_solver.
    destruct (IHl (GoLeft c y r :: p) a d E) as (c' & l' & r' & q & -> & Hp & Hl & Hr); [set_solver|].
    exists c', l', r', (q ++ [GoLeft c y r]). rewrite <-app_assoc, lefts_app, rights_app. cbn.
    split_and!; [done| |done|].
    + by rewrite plug_app, Hp.
    + rewrite <-Hr, <-!app_assoc, app_nil_r. done.
Qed.

(** *** Traversal *)

Lemma down_left_spec t p c l x r :
  t = Node c l x r →
  ∃ c' x' r' p', down_left t p = (Node c' Leaf x' r', p') ∧ plug (Node c' Leaf x' r') p' = plug t p ∧
    lefts p' = lefts p ∧ x' :: inorder r' ++ rights p' = inorder t ++ rights p.
Proof.
  revert p c l x r. induction t as [|c l IHl x r _]; intros p c0 l0 x0 r0 E; [done|]. clear E.
  destruct l as [|lc ll lx lr].
  - exists c, x, r, p. done.
  - destruct (IHl (GoLeft c x r :: p) _ _ _ _ eq_refl) as (c' & x' & r' & p' & E & Hp & Hl & Hr).
    exists c', x', r', p'. cbn [down_left] in E |- *. rewrite E. split_and!; [done..|].
    rewrite Hr. rb_simpl.
Qed.

Lemma down_right_spec t p c l x r :
  t = Node c l x r →
  ∃ c' x' l' p', down_right t p = (Node c' l' x' Leaf, p') ∧ plug (Node c' l' x' Leaf) p' = plug t p ∧
    rights p' = rights p ∧ lefts p' ++ inorder l' ++ [x'] = lefts p ++ inorder t.
Proof.
  revert p c l x r. induction t as [|c l _ x r IHr]; intros p c0 l0 x0 r0 E; [done|]. clear E.
  destruct r as [|rc rl rx rr].
  - exists c, x, l, p. done.
  - destruct (IHr (GoRight c l x :: p) _ _ _ _ eq_refl) as (c' & x' & l' & p' & E & Hp & Hl & Hr).
    exists c', x', l', p'. cbn [down_right] in E |- *. rewrite E. split_and!; [done..|].
    rewrite Hr. rb_simpl.
Qed.

Lemma up_right_spec t p :
  match rights p with
  | [] => up_right t p = None
  | x :: rest => ∃ c l r q, up_right t p = Some (Node c l x r, q) ∧ plug (Node c l x r) q = plug t p ∧
      inorder r ++ rights q = rest
  end.
Proof.
  revert t. induction p as [|[c x r|c l x] p IH]; intros t; cbn; [done| |].
  - exists c, t, r, p. done.
  - apply IH.
Qed.

Lemma up_left_spec t p :
  match rev (lefts p) with
  | [] => up_left t p = None
  | x :: _ => ∃ c l r q, up_left t p = Some (Node c l x r, q) ∧ plug (Node c l x r) q = plug t p
  end.
Proof.
  revert t. induction p as [|[c x r|c l x] p IH]; intros t; cbn; [done|apply IH|].
  rewrite !rev_app_distr. cbn. exists c, l, t, p. done.
Qed.

(** [rb_next] moves to the next element of the sequence in the same tree. *)
Lemma rb_next_spec c l (x : A) r p :
  match inorder r ++ rights p with
  | [] => rb_next (Node c l x r, p) = None
  | y :: rest => ∃ c' l' r' p', rb_next (Node c l x r, p) = Some (Node c' l' y r', p') ∧
      plug (Node c' l' y r') p' = plug (Node c l x r) p ∧ inorder r' ++ rights p' = rest
  end.
Proof.
  destruct r as [|rc rl rx rr].
  - pose proof (up_right_spec (Node c l x Leaf) p) as H. cbn. by destruct (rights p).
  - destruct (down_left_spec (Node rc rl rx rr) (GoRight c l x :: p) rc rl rx rr eq_refl)
      as (c' & x' & r' & p' & E & Hp & Hl & Hr).
    cbn [rights] in Hr. rewrite <-Hr. cbn [rb_next]. rewrite E. exists c', Leaf, r', p'. done.
Qed.

Lemma rb_prev_spec c l (x : A) r p :
  match rev (lefts p ++ inorder l) with
  | [] => rb_prev (Node c l x r, p) = None
  | y :: _ => ∃ c' l' r' p', rb_prev (Node c l x r, p) = Some (Node c' l' y r', p') ∧
      plug (Node c' l' y r') p' = plug (Node c l x r) p
  end.
Proof.
  destruct l as [|lc ll lx lr].
  - pose proof (up_left_spec (Node c Leaf x r) p) as H. cbn. rewrite app_nil_r.
    by destruct (rev (lefts p)).
  - destruct (down_right_spec (Node lc ll lx lr) (GoLeft c x r :: p) lc ll lx lr eq_refl)
      as (c' & x' & l' & p' & E & Hp & Hl & Hr).
    cbn [lefts] in Hr. rewrite <-Hr, !rev_app_distr. cbn [rev app rb_prev]. rewrite E.
    exists c', l', Leaf, p'. done.
Qed.

Lemma rb_first_spec t :
  match inorder t with
  | [] => rb_first t = None
  | y :: rest => ∃ c l r p, rb_first t = Some (Node c l y r, p) ∧ plug (Node c l y r) p = t ∧
      inorder r ++ rights p = rest
  end.
Proof.
  destruct t as [|c l x r]; [done|].
  destruct (down_left_spec (Node c l x r) [] c l x r eq_refl) as (c' & x' & r' & p' & E & Hp & Hl & Hr).
  rewrite app_nil_r in Hr. rewrite <-Hr. cbn [rb_first]. rewrite E. exists c', Leaf, r', p'. done.
Qed.

(** The loop [for (node = rb_first(root); node; node = rb_next(node))]. *)
Fixpoint visit (fuel : nat) (pos : option (@position A)) : list A :=
  match fuel, pos with
  | S fuel, Some q => match rb_entry q with Some x => x :: visit fuel (rb_next q) | None => [] end
  | _, _ => []
  end.

Lemma visit_spec c l (x : A) r p fuel :
  (length (inorder r ++ rights p) < fuel)%nat →
  visit fuel (Some (Node c l x r, p)) = x :: inorder r ++ rights p.
Proof.
  revert c l x r p. induction fuel as [|fuel IH]; intros c l x r p Hf; [lia|]. cbn [visit rb_entry fst].
  f_equal. pose proof (rb_next_spec c l x r p) as H.
  destruct (inorder r ++ rights p) as [|y rest].
  - rewrite H. by destruct fuel.
  - destruct H as (c' & l' & r' & p' & -> & _ & E). rewrite IH, E; [done|]. rewrite E. cbn in Hf. lia.
Qed.
End search.

(** ** Post-order traversal *)

Section postorder.
Context {A : Type}.

Fixpoint postorder (t : tree A) : list A :=
  match t with Leaf => [] | Node _ l x r => postorder l ++ postorder r ++ [x] end.

(** What is left to visit once the subtree at the end of the path is done. *)
Fixpoint post_rest (p : list (ancestor A)) : list A :=
  match p with
  | [] => []
  | GoLeft _ x r :: p' => postorder r ++ x :: post_rest p'
  | GoRight _ _ x :: p' => x :: post_rest p'
  end.

Lemma left_deepest_spec (t : tree A) p c l x r :
  t = Node c l x r →
  ∃ c' x' q, rb_left_deepest_node t p = (Node c' Leaf x' Leaf, q) ∧
             x' :: post_rest q = postorder t ++ post_rest p.
Proof.
  revert p c l x r. induction t as [|c l IHl x r IHr]; intros p c0 l0 x0 r0 E; [done|]. clear E.
  destruct l as [|lc ll lx lr]; [destruct r as [|rc rl rx rr]|].
  - exists c, x, p. done.
  - destruct (IHr (GoRight c Leaf x :: p) _ _ _ _ eq_refl) as (c' & x' & q & E & H).
    exists c', x', q. cbn [rb_left_deepest_node] in E |- *. rewrite E. split; [done|].
    rewrite H. cbn. by rewrite <-!app_assoc.
  - destruct (IHl (GoLeft c x r :: p) _ _ _ _ eq_refl) as (c' & x' & q & E & H).
    exists c', x', q. cbn [rb_left_deepest_node] in E |- *. rewrite E. split; [done|].
    rewrite H. cbn. by rewrite <-!app_assoc.
Qed.

Fixpoint visit_postorder (fuel : nat) (pos : option (@position A)) : list A :=
  match fuel, pos with
  | S fuel, Some q => match rb_entry q with Some x => x :: visit_postorder fuel (rb_next_postorder q) | None => [] end
  | _, _ => []
  end.

Lemma visit_postorder_spec fuel c l x r p :
  (length (post_rest p) < fuel)%nat → visit_postorder fuel (Some (Node c l x r, p)) = x :: post_rest p.
Proof.
  revert c l x r p. induction fuel as [|fuel IH]; intros c l x r p Hf; [lia|]. cbn [visit_postorder rb_entry fst].
  f_equal. destruct p as [|[c1 x1 [|rc rl rx rr]|c1 l1 x1] p]; cbn [rb_next_postorder].
  - by destruct fuel.
  - cbn in *. rewrite IH by lia. done.
  - destruct (left_deepest_spec (Node rc rl rx rr) (GoRight c1 (Node c l x r) x1 :: p) _ _ _ _ eq_refl)
      as (c' & x' & q & -> & E).
    change (post_rest (GoLeft c1 x1 (Node rc rl rx rr) :: p)) with (postorder (Node rc rl rx rr) ++ x1 :: post_rest p) in *.
    cbn [post_rest] in E. rewrite <-E in Hf |- *. apply IH. cbn in Hf. lia.
  - cbn in *. rewrite IH by lia. done.
Qed.

(** The post-order loop visits every node once, children first. *)
Lemma rb_postorder_complete (t : tree A) fuel :
  (length (postorder t) < fuel)%nat → visit_postorder fuel (rb_first_postorder t) = postorder t.
Proof.
  destruct t as [|c l x r]; [by destruct fuel|]. intros Hf.
  destruct (left_deepest_spec (Node c l x r) [] _ _ _ _ eq_refl) as (c' & x' & q & E & H).
  unfold rb_first_postorder. rewrite E. rewrite app_nil_r in H. rewrite <-H in Hf |- *.
  apply visit_postorder_spec. cbn in Hf. lia.
Qed.
End postorder.

(** ** What the tree promises its users

    Users hold ordered collections of nodes: they add with an order, search
    with a comparison, and follow, erase and update the nodes they point to. *)

Class OrderedTree (A T : Type) := {
  ot_elems : T → list A;
  ot_ok : T → Prop;
  ot_empty : T;
  ot_add : (A → A → bool) → A → T → T;
  ot_find : (A → Z) → T → option A;
  ot_first : T → option A;
  ot_next : (A → bool) → T → option A;
  ot_prev : (A → bool) → T → option A;
  ot_erase : (A → bool) → T → T;
  ot_store : (A → bool) → (A → A) → T → T;
}.

(** [P] points to the node [x] that has [a] before and [b] after it. *)
Definition points_to {A T} `{OrderedTree A T} (P : A → bool) (t : T) (a : list A) (x : A) (b : list A) : Prop :=
  ot_elems t = a ++ x :: b ∧ P x = true ∧ ∀ y, y ∈ a ++ b → P y = false.

Class OrderedTreeSpec (A T : Type) `{OrderedTree A T} : Prop := {
  ot_empty_spec : ot_ok (ot_empty : T) ∧ ot_elems (ot_empty : T) = [];
  ot_add_spec (less : A → A → bool) (x : A) (t : T) : ot_ok t →
    StronglySorted (λ y z, less x y → less x z) (ot_elems t) →
    ot_ok (ot_add less x t) ∧
    ∃ a b, ot_elems t = a ++ b ∧ ot_elems (ot_add less x t) = a ++ x :: b ∧
           Forall (λ y, less x y = false) a ∧ Forall (λ y, less x y = true) b;
  ot_find_present cmp (t : T) a x b : ot_ok t → ot_elems t = a ++ x :: b → cmp x = 0 →
    Forall (λ y, 0 < cmp y) a → Forall (λ y, cmp y < 0) b → ot_find cmp t = Some x;
  ot_find_absent cmp (t : T) a b : ot_ok t → ot_elems t = a ++ b →
    Forall (λ y, 0 < cmp y) a → Forall (λ y, cmp y < 0) b → ot_find cmp t = None;
  ot_first_spec (t : T) : ot_ok t → ot_first t = head (ot_elems t);
  ot_next_spec P (t : T) a x b : ot_ok t → points_to P t a x b → ot_next P t = head b;
  ot_prev_spec P (t : T) a x b : ot_ok t → points_to P t a x b → ot_prev P t = last a;
  ot_erase_spec P (t : T) a x b : ot_ok t → points_to P t a x b →
    ot_ok (ot_erase P t) ∧ ot_elems (ot_erase P t) = a ++ b;
  ot_store_spec P f (t : T) a x b : ot_ok t → points_to P t a x b →
    ot_ok (ot_store P f t) ∧ ot_elems (ot_store P f t) = a ++ f x :: b;
}.

#[export] Instance rb_ordered_tree A : OrderedTree A (tree A) := {|
  ot_elems := inorder; ot_ok := rb_valid; ot_empty := Leaf; ot_add := rb_add; ot_find := rb_find;
  ot_first := first_node; ot_next := next_node; ot_prev := prev_node;
  ot_erase := erase_node; ot_store := store_node |}.

Lemma last_rev {B} (l : list B) : last l = head (rev l).
Proof. induction l as [|x l _] using rev_ind; [done|]. by rewrite last_snoc, rev_app_distr. Qed.

#[export] Instance rb_ordered_tree_spec A : OrderedTreeSpec A (tree A).
Proof.
  split; cbn [ot_elems ot_ok ot_empty ot_add ot_find ot_first ot_next ot_prev ot_erase ot_store rb_ordered_tree].
  - split; [|done]. by exists 0%nat; constructor.
  - intros less x t Ht Hs. split; [by apply rb_add_valid|by apply inorder_rb_add].
  - intros cmp t a x b _. apply rb_find_present.
  - intros cmp t a b _. apply rb_find_absent.
  - intros t _. unfold first_node. pose proof (rb_first_spec t) as H.
    destruct (inorder t); [by rewrite H|]. by destruct H as (c & l0 & r & p & -> & _).
  - intros P t a x b _ (E & Hx & Hn). unfold next_node.
    destruct (locate_spec P t [] a x b E Hx Hn) as (c & l & r & q & -> & _ & _ & Hr). rewrite app_nil_r.
    pose proof (rb_next_spec c l x r q) as H. rewrite Hr in H.
    destruct b; [by rewrite H|]. by destruct H as (? & ? & ? & ? & -> & _).
  - intros P t a x b _ (E & Hx & Hn). unfold prev_node. rewrite last_rev.
    destruct (locate_spec P t [] a x b E Hx Hn) as (c & l & r & q & -> & _ & Hl & _). rewrite app_nil_r.
    pose proof (rb_prev_spec c l x r q) as H. rewrite Hl in H.
    destruct (rev a); [by rewrite H|]. by destruct H as (? & ? & ? & ? & -> & _).
  - intros P t a x b Ht (E & Hx & Hn). unfold erase_node.
    destruct (locate_spec P t [] a x b E Hx Hn) as (c & l & r & q & -> & Hp & Hl & Hr). rewrite app_nil_r.
    rewrite <-Hp in Ht. split; [by eapply rb_erase_valid_at|].
    rewrite inorder_rb_erase, <-Hl, <-Hr. rb_simpl.
  - intros P f t a x b Ht (E & Hx & Hn). unfold store_node.
    destruct (locate_spec P t [] a x b E Hx Hn) as (c & l & r & q & -> & Hp & Hl & Hr). rewrite app_nil_r.
    rewrite <-Hp in Ht. split; [by eapply rb_valid_payload|].
    rewrite inorder_plug, <-Hl, <-Hr. rb_simpl.
Qed.

(** ** Claims *)

(** C32: inserting with [rb_add] into a red-black tree whose nodes are in order
    gives a red-black tree again (no red node with a red child, equal black
    heights, so height at most twice the logarithm of the number of nodes), in
    which the new node stands after the nodes it is not less than and before
    the others, and nothing else moved. *)
Theorem rb_add_balanced_and_ordered {A} (less : A → A → bool) (x : A) (t : tree A) :
  rb_valid t → StronglySorted (λ y z, less x y → less x z) (inorder t) →
  let t' := rb_add less x t in
  rb_valid t' ∧ (2 ^ (height t' / 2) ≤ S (length (inorder t')))%nat ∧
  ∃ a b, inorder t = a ++ b ∧ inorder t' = a ++ x :: b ∧
         Forall (λ y, less x y = false) a ∧ Forall (λ y, less x y = true) b.
Proof.
  intros Ht Hs t'. assert (rb_valid t') by by apply rb_add_valid.
  split_and!; [done|by apply rb_valid_height|by apply inorder_rb_add].
Qed.

Definition sample_tree : tree Z := foldl (λ t x, rb_add Z.ltb x t) Leaf [50; 20; 70; 10; 30; 60; 80; 25].

Lemma rb_add_balanced_and_ordered_witness :
  rb_valid (rb_add Z.ltb 65 sample_tree) ∧
  ∃ a b, inorder sample_tree = a ++ b ∧ inorder (rb_add Z.ltb 65 sample_tree) = a ++ 65 :: b.
Proof.
  destruct (rb_add_balanced_and_ordered Z.ltb 65 sample_tree) as (H & _ & a & b & H1 & H2 & _).
  - exists 2%nat. vm_compute. repeat econstructor.
  - vm_compute. repeat constructor; intros []; done.
  - split; [exact H|]. exists a, b. exact (conj H1 H2).
Defined.

(** C31: erasing any node of a red-black tree, wherever it is and whatever its
    children, gives a red-black tree that holds the other nodes in their order. *)
Theorem rb_erase_balanced_and_exact {A} c (l : tree A) (x : A) (r : tree A) p :
  rb_valid (plug (Node c l x r) p) →
  rb_valid (rb_erase c l r p) ∧
  (2 ^ (height (rb_erase c l r p) / 2) ≤ S (length (inorder (rb_erase c l r p))))%nat ∧
  ∃ before after, inorder (plug (Node c l x r) p) = before ++ x :: after ∧
                  inorder (rb_erase c l r p) = before ++ after.
Proof.
  intros H. assert (rb_valid (rb_erase c l r p)) by by eapply rb_erase_valid_at.
  split_and!; [done|by apply rb_valid_height|].
  exists (lefts p ++ inorder l), (inorder r ++ rights p).
  rewrite inorder_plug, inorder_rb_erase. split; rb_simpl.
Qed.

(** The root of the sample tree has two children and a deep successor. *)
Lemma rb_erase_balanced_and_exact_witness :
  ∃ c l r, sample_tree = Node c l 50 r ∧ rb_valid (rb_erase c l r []) ∧
           inorder (rb_erase c l r []) = [10; 20; 25; 30; 60; 70; 80].
Proof.
  eexists _, _, _. split; [vm_compute; reflexivity|]. split; [|vm_compute; reflexivity].
  eapply (rb_erase_balanced_and_exact _ _ 50 _ []). exists 2%nat. repeat econstructor.
Defined.

(** on a tree whose nodes are in the order of the comparison (positive on
    the nodes before the key, negative after it), [rb_find] returns the node
    that compares equal when there is one and null when there is none. *)
Theorem rb_find_correct {A} (cmp : A → Z) (t : tree A) a m b :
  inorder t = a ++ m ++ b → Forall (λ y, 0 < cmp y) a → Forall (λ y, cmp y < 0) b →
  Forall (λ y, cmp y = 0) m → (length m ≤ 1)%nat →
  rb_find cmp t = head m.
Proof.
  intros E Ha Hb Hm Hl. destruct m as [|x [|? ?]]; cbn in *; [..|lia].
  - by eapply rb_find_absent.
  - apply Forall_cons in Hm as [Hx _]. by eapply rb_find_present.
Qed.

Lemma rb_find_correct_witness :
  rb_find (λ y, 30 - y) sample_tree = Some 30 ∧ rb_find (λ y, 40 - y) sample_tree = None.
Proof.
  split.
  - apply (rb_find_correct _ sample_tree [10; 20; 25] [30] [50; 60; 70; 80]); [vm_compute; reflexivity|..];
      repeat constructor; lia.
  - apply (rb_find_correct _ sample_tree [10; 20; 25; 30] [] [50; 60; 70; 80]); [vm_compute; reflexivity|..];
      repeat constructor; lia.
Defined.

(** C33: the loop from [rb_first] by [rb_next] visits every node exactly once, in
    order, and then stops; and [rb_prev] undoes it: from every node but the
    first it leads to the one before. *)
Theorem rb_walk_in_order {A} (t : tree A) :
  (∀ fuel, (length (inorder t) < fuel)%nat → visit fuel (rb_first t) = inorder t) ∧
  (∀ c l x r p, plug (Node c l x r) p = t →
     rb_prev (Node c l x r, p) = None ∧ lefts p ++ inorder l = [] ∨
     ∃ before y pos, lefts p ++ inorder l = before ++ [y] ∧
       rb_prev (Node c l x r, p) = Some pos ∧ rb_entry pos = Some y ∧ plug pos.1 pos.2 = t).
Proof.
  split.
  - intros fuel Hf. pose proof (rb_first_spec t) as H. destruct (inorder t) as [|y rest] eqn:E.
    + rewrite H. by destruct fuel.
    + destruct H as (c & l & r & p & -> & _ & <-). apply visit_spec. cbn in Hf. lia.
  - intros c l x r p <-. pose proof (rb_prev_spec c l x r p) as H.
    destruct (lefts p ++ inorder l) as [|y before _] using rev_ind; [left; done|].
    right. rewrite rev_app_distr in H. cbn [rev app] in H. destruct H as (c' & l' & r' & p' & -> & Hp).
    exists before, y. eexists. by split_and!.
Qed.

Lemma rb_walk_in_order_witness : visit 9 (rb_first sample_tree) = [10; 20; 25; 30; 50; 60; 70; 80].
Proof. apply (proj1 (rb_walk_in_order sample_tree) 9%nat). vm_compute. lia. Defined.
