(* ===== verification/Memblock.v ===== *)
(** * Memblock: the boot-time physical memory allocator

    Models [na/mm/memblock.cc]: one RAM region and a sorted array of reserved
    regions, allocation from the bottom and from the top of RAM, and the
    enumeration of the free gaps that [pmm_init] feeds to the buddy system. *)

From S2P Require Import Prelude Bits.

Definition kMemblockMaxRegions : Z := 128.

Record region := mkRegion { rbase : Z; rsize : Z }.

(** [g_mb]; [reserved] holds the first [reserved_count] entries of the array. *)
Record memblock := mkMb {
  mem_base : Z;
  mem_size : Z;
  reserved : list region;
  active : bool;
}.

Definition with_reserved (l : list region) (mb : memblock) : memblock :=
  mkMb (mem_base mb) (mem_size mb) l (active mb).

(** The insertion loop shifts from the right end of the array while the entry
    on the left has a larger base; [rl] is the array read from its right end. *)
Fixpoint shift_insert (r : region) (rl : list region) : list region :=
  match rl with
  | [] => [r]
  | x :: rl' => if rbase r <? rbase x then x :: shift_insert r rl' else r :: rl
  end.

Definition insert_reserved (base size : Z) (mb : memblock) : outcome memblock :=
  if kMemblockMaxRegions <=? Z.of_nat (length (reserved mb))
  then Panic "memblock: too many reserved regions"
  else Ret (with_reserved (reverse (shift_insert (mkRegion base size) (reverse (reserved mb)))) mb).

Definition overlaps_reserved (base size : Z) (mb : memblock) : bool :=
  let end_ := u64 (base + size) in
  existsb (λ r, let rb := rbase r in let re := u64 (rb + rsize r) in
                (base <? re) && (rb <? end_)) (reserved mb).

Fixpoint reserved_end_in (addr : Z) (l : list region) : Z :=
  match l with
  | [] => addr
  | r :: l' =>
      let rb := rbase r in
      let re := u64 (rb + rsize r) in
      if (rb <=? addr) && (addr <? re) then re else reserved_end_in addr l'
  end.

Definition reserved_end_covering (addr : Z) (mb : memblock) : Z := reserved_end_in addr (reserved mb).

Definition memblock_reserve (base size : Z) (mb : memblock) : outcome memblock :=
  let aligned_base := page_align_down base in
  let aligned_end := page_align_up (u64 (base + size)) in
  insert_reserved aligned_base (u64 (aligned_end - aligned_base)) mb.

Definition align_mask (align : Z) : Z := u64 (Z.lnot (u64 (align - 1))).

(** One iteration of the search of [memblock_alloc_top]: [Some] leaves the loop
    with a free start, [None] falls through to the panic. *)
Definition alloc_top_step (size align : Z) (mb : memblock) (start : Z) : Z + option Z :=
  let mem_end := u64 (mem_base mb + mem_size mb) in
  if (mem_base mb <=? start) && (u64 (start + size) <=? mem_end) then
    if negb (overlaps_reserved start size mb) then inr (Some start)
    else if start <? align then inr None
    else inl (u64 (start - align))
  else inr None.

Definition memblock_alloc_top (size align : Z) (mb : memblock) : outcome (Z * memblock) :=
  let mem_end := u64 (mem_base mb + mem_size mb) in
  let end_ := page_align_down mem_end in
  let start := Z.land (u64 (end_ - size)) (align_mask align) in
  match loop 64 (alloc_top_step size align mb) start with
  | inr (Some start) => mb' ← memblock_reserve start size mb; Ret (start, mb')
  | inr None => Panic "memblock_alloc_top: out of memory"
  | inl _ => OutOfFuel
  end.

Definition alloc_step (size align : Z) (mb : memblock) (start : Z) : Z + option Z :=
  let mem_end := u64 (mem_base mb + mem_size mb) in
  if u64 (start + size) <=? mem_end then
    let start := Z.land (u64 (start + align - 1)) (align_mask align) in
    if mem_end <? u64 (start + size) then inr None
    else if negb (overlaps_reserved start size mb) then inr (Some start)
    else
      let skip := reserved_end_covering start mb in
      if skip <=? start then inl (u64 (start + align)) else inl skip
  else inr None.

Definition memblock_alloc (size align : Z) (mb : memblock) : outcome (Z * memblock) :=
  match loop 64 (alloc_step size align mb) (page_align_up (mem_base mb)) with
  | inr (Some start) => mb' ← memblock_reserve start size mb; Ret (start, mb')
  | inr None => Panic "memblock_alloc: out of memory"
  | inl _ => OutOfFuel
  end.

Definition memblock_is_active (mb : memblock) : bool := active mb.
Definition memblock_retire (mb : memblock) : memblock :=
  mkMb (mem_base mb) (mem_size mb) (reserved mb) false.

(** The calls [memblock_for_each_free] makes to its callback, in order. *)
Fixpoint free_gaps (pos mem_end : Z) (l : list region) : list region :=
  match l with
  | [] => if pos <? mem_end then [mkRegion pos (u64 (mem_end - pos))] else []
  | r :: l' =>
      if pos <? mem_end then
        let rb := rbase r in
        let re := u64 (rb + rsize r) in
        if rb <? pos then free_gaps (if pos <? re then re else pos) mem_end l'
        else if pos <? rb then mkRegion pos (u64 (rb - pos)) :: free_gaps re mem_end l'
        else free_gaps re mem_end l'
      else []
  end.

Definition memblock_for_each_free (mb : memblock) : list region :=
  free_gaps (mem_base mb) (u64 (mem_base mb + mem_size mb)) (reserved mb).

(** [memblock_init], given what the device tree reports as RAM and the
    physical addresses of [_stext] and [_kernel_end]. *)
Definition memblock_init (fdt_base fdt_size ks_pa ke_pa : Z) : outcome memblock :=
  if fdt_size =? 0 then Panic "memblock_init: FDT reports zero memory"
  else
    let mb := mkMb fdt_base fdt_size [] true in
    mb ← (if fdt_base <? ks_pa then memblock_reserve fdt_base (u64 (ks_pa - fdt_base)) mb else Ret mb);
    memblock_reserve ks_pa (u64 (ke_pa - ks_pa)) mb.

(** ** Well-formed layouts

    Physical addresses of RISC-V fit in 56 bits; a layout is well formed when
    RAM and every reserved region lie below that limit, every reserved region is
    a positive number of whole pages and the array is sorted by base, so that none of the 64-bit additions below wraps. *)

Definition kPhysLimit : Z := 2 ^ 56.

Definition region_le (a b : region) : Prop := rbase a ≤ rbase b.
#[export] Instance region_le_dec a b : Decision (region_le a b).
Proof. unfold region_le. apply _. Defined.

Definition region_ok (r : region) : Prop :=
  0 ≤ rbase r ∧ 0 < rsize r ∧ rbase r + rsize r ≤ kPhysLimit ∧
  page_aligned (rbase r) ∧ page_aligned (rsize r).
#[export] Instance region_ok_dec r : Decision (region_ok r).
Proof. unfold region_ok. apply _. Defined.

Record mb_ok (mb : memblock) : Prop := {
  mb_base : 0 ≤ mem_base mb;
  mb_size : 0 ≤ mem_size mb;
  mb_limit : mem_base mb + mem_size mb ≤ kPhysLimit;
  mb_regions : Forall region_ok (reserved mb);
  mb_sorted : StronglySorted region_le (reserved mb);
}.

Definition mem_end (mb : memblock) : Z := mem_base mb + mem_size mb.
Definition in_region (r : region) (x : Z) : Prop := rbase r ≤ x < rbase r + rsize r.
Definition reserved_at (mb : memblock) (x : Z) : Prop := ∃ r, r ∈ reserved mb ∧ in_region r x.

(** No reserved region meets [base, base + size). *)
Definition range_free (mb : memblock) (base size : Z) : Prop :=
  ∀ r, r ∈ reserved mb → base + size ≤ rbase r ∨ rbase r + rsize r ≤ base.

Section memblock.
Context (mb : memblock) (Hok : mb_ok mb).

Lemma region_in r : r ∈ reserved mb → region_ok r.
Proof using Hok. apply (proj1 (Forall_forall _ _) (mb_regions _ Hok)). Qed.

Lemma region_end r : r ∈ reserved mb → u64 (rbase r + rsize r) = rbase r + rsize r.
Proof using Hok. intros (? & ? & ? & _)%region_in. apply wrap_small. unfold kPhysLimit in *. lia. Qed.

Lemma mem_end_eq : u64 (mem_base mb + mem_size mb) = mem_end mb.
Proof using Hok. destruct Hok. apply wrap_small. unfold mem_end, kPhysLimit in *. lia. Qed.

Lemma mem_end_bounds : 0 ≤ mem_end mb ≤ kPhysLimit.
Proof using Hok. destruct Hok. unfold mem_end. lia. Qed.

Lemma overlaps_reserved_spec base size :
  0 ≤ base → 0 ≤ size → base + size < 2 ^ 64 →
  overlaps_reserved base size mb = false ↔ range_free mb base size.
Proof using Hok.
  intros Hb Hs Hw. unfold overlaps_reserved, range_free. rewrite (wrap_small _ (base + size)) by lia.
  rewrite <- not_true_iff_false, existsb_exists. setoid_rewrite <- list_elem_of_In.
  split.
  - intros H r Hr. destruct (decide (base + size ≤ rbase r)); [auto|].
    destruct (decide (rbase r + rsize r ≤ base)); [auto|]. exfalso. apply H. exists r.
    split; [done|]. rewrite region_end by done. apply andb_true_iff. rewrite !Z.ltb_lt. lia.
  - intros H (r & Hr & E). rewrite region_end in E by done. apply andb_true_iff in E.
    rewrite !Z.ltb_lt in E. specialize (H r Hr). lia.
Qed.

Lemma reserved_end_spec addr :
  0 ≤ addr →
  let e := reserved_end_covering addr mb in
  e = addr ∨ ∃ r, r ∈ reserved mb ∧ in_region r addr ∧ e = rbase r + rsize r ∧ addr < e ≤ kPhysLimit.
Proof using Hok.
  intros Ha. unfold reserved_end_covering.
  pose proof (mb_regions _ Hok) as HF. induction (reserved mb) as [|r l IH]; cbn; [auto|].
  apply Forall_cons in HF as [(? & ? & ? & _) HF].
  rewrite wrap_small by (unfold kPhysLimit in *; lia).
  destruct (Z.leb_spec (rbase r) addr), (Z.ltb_spec addr (rbase r + rsize r)); cbn [andb];
    try (right; exists r; unfold in_region; split_and!; [left|lia..]);
    destruct (IH HF) as [?|(r' & ? & ?)]; auto; right; exists r'; (split; [by right|done]).
Qed.
End memblock.

(** *** Insertion *)

Lemma shift_insert_split r rl :
  ∃ l1 l2, rl = l1 ++ l2 ∧ shift_insert r rl = l1 ++ r :: l2 ∧
           Forall (λ x, rbase r < rbase x) l1 ∧ (∀ y, head l2 = Some y → rbase y ≤ rbase r).
Proof.
  induction rl as [|x rl IH]; cbn.
  - by exists [], [].
  - destruct (Z.ltb_spec (rbase r) (rbase x)).
    + destruct IH as (l1 & l2 & -> & -> & ? & ?). exists (x :: l1), l2. auto.
    + exists [], (x :: rl). split_and!; [done..|constructor|]. by intros y [= <-].
Qed.

(** The new region goes after every region with a base at or below its own. *)
Lemma insert_reserved_spec base size mb mb' :
  StronglySorted region_le (reserved mb) → insert_reserved base size mb = Ret mb' →
  ∃ a b, reserved mb = a ++ b ∧ mb' = with_reserved (a ++ mkRegion base size :: b) mb ∧
         Forall (λ x, rbase x ≤ base) a ∧ Forall (λ x, base < rbase x) b.
Proof.
  intros Hs. unfold insert_reserved. case_match; [done|]. intros [= <-].
  destruct (shift_insert_split (mkRegion base size) (reverse (reserved mb)))
    as (l1 & l2 & Hl & -> & H1 & H2).
  assert (Er : reserved mb = reverse l2 ++ reverse l1).
  { by rewrite <- reverse_app, <- Hl, reverse_involutive. }
  exists (reverse l2), (reverse l1). split_and!; [done| |  |].
  - f_equal. rewrite reverse_app, reverse_cons. by rewrite <- app_assoc.
  - destruct l2 as [|y l2]; [constructor|]. specialize (H2 y eq_refl). cbn in H2.
    rewrite Er, reverse_cons, <- app_assoc in Hs.
    rewrite reverse_cons, Forall_app. split; [|by constructor].
    apply Forall_forall. intros x Hx. etrans; [|exact H2].
    by apply (StronglySorted_app_1_elem_of _ _ _ x y Hs Hx), elem_of_app; left; left.
  - by apply Forall_reverse.
Qed.

Lemma insert_reserved_ok base size mb mb' :
  mb_ok mb → region_ok (mkRegion base size) → insert_reserved base size mb = Ret mb' →
  mb_ok mb' ∧ reserved mb' ≡ₚ mkRegion base size :: reserved mb ∧
  mem_base mb' = mem_base mb ∧ mem_size mb' = mem_size mb ∧ active mb' = active mb.
Proof.
  intros [H1 H2 H3 H4 H5] Hr Hi.
  destruct (insert_reserved_spec _ _ _ _ H5 Hi) as (a & b & Hab & -> & Ha & Hb).
  rewrite Hab in *. apply Forall_app in H4 as [H4a H4b].
  apply StronglySorted_app in H5 as (Hc & Hsa & Hsb).
  split_and!; [split; cbn; try done|cbn|done..].
  - apply Forall_app. auto.
  - apply StronglySorted_app. split_and!; [|done|].
    + intros x1 x2 Hx1 [->|Hx2]%elem_of_cons; [|by apply Hc].
      by apply (proj1 (Forall_forall _ _) Ha).
    + apply StronglySorted_cons. split; [|done]. eapply Forall_impl; [exact Hb|].
      intros x Hx. unfold region_le. cbn [rbase]. cbv beta in Hx. lia.
  - by rewrite Permutation_middle.
Qed.

(** *** Bottom-up allocation *)

Lemma align_mask_eq k : 0 ≤ k ≤ 56 → align_mask (2 ^ k) = 2 ^ 64 - 2 ^ k.
Proof.
  intros Hk. unfold align_mask.
  assert (2 ^ k ≤ 2 ^ 56) by (apply Z.pow_le_mono_r; lia).
  rewrite (wrap_small 64 (2 ^ k - 1)) by lia. unfold wrap.
  symmetry. apply (Z.mod_unique _ _ (-1)); unfold Z.lnot; lia.
Qed.

Lemma round_down a k : 0 ≤ k → (2 ^ k | a - a mod 2 ^ k) ∧ a - 2 ^ k < a - a mod 2 ^ k ≤ a.
Proof.
  intros Hk. pose proof (Z.mod_pos_bound a (2 ^ k)). split; [|lia].
  exists (a / 2 ^ k). rewrite (Z.mod_eq a (2 ^ k)) by lia. lia.
Qed.

Lemma divide_lt_le d a b : 0 < d → (d | a) → (d | b) → a < b → a + d ≤ b.
Proof. intros Hd [x ->] [y ->] H. assert (x < y) by nia. nia. Qed.

Section alloc.
Context (mb : memblock) (Hok : mb_ok mb) (size k : Z).
Context (Hk : 0 ≤ k ≤ 56) (Hsize : 0 < size ≤ kPhysLimit).
Let align : Z := 2 ^ k.

(** A place for the allocation: aligned, inside RAM, clear of every reservation. *)
Definition fits (lo c : Z) : Prop :=
  lo ≤ c ∧ (align | c) ∧ c + size ≤ mem_end mb ∧ range_free mb c size.

Lemma align_bounds : 0 < align ≤ kPhysLimit.
Proof using Hk. unfold align, kPhysLimit. split; [lia|]. apply Z.pow_le_mono_r; lia. Qed.

(** Nothing fits below [start]. *)
Definition alloc_inv (lo start : Z) : Prop :=
  0 ≤ lo ≤ start ∧ start ≤ 2 ^ 58 ∧ ∀ c, fits lo c → start ≤ c.

Lemma alloc_step_ok lo start :
  alloc_inv lo start →
  match alloc_step size align mb start with
  | inl start' => alloc_inv lo start' ∧ 0 ≤ 2 ^ 59 - start' < 2 ^ 59 - start
  | inr (Some c) => fits lo c ∧ ∀ c', fits lo c' → c ≤ c'
  | inr None => ∀ c, ¬ fits lo c
  end.
Proof using Hok Hk Hsize.
  intros (Hlo & Hst & Hnone). pose proof align_bounds. pose proof (mem_end_bounds mb Hok).
  unfold alloc_step. rewrite mem_end_eq by done. unfold kPhysLimit in *.
  rewrite (wrap_small _ (start + size)) by lia.
  destruct (Z.leb_spec (start + size) (mem_end mb)) as [Hfit|Hfit].
  2: { intros c Hc. pose proof (Hnone c Hc). destruct Hc as (? & ? & ? & ?). lia. }
  unfold align in *. rewrite align_mask_eq by lia.
  rewrite (wrap_small _ (start + 2 ^ k - 1)) by lia.
  rewrite land_align_mask by (unfold is_u64; lia).
  set (st := start + 2 ^ k - 1 - (start + 2 ^ k - 1) mod 2 ^ k).
  destruct (round_down (start + 2 ^ k - 1) k) as [Hdiv Hr]; [lia|]. fold st in Hdiv, Hr.
  rewrite (wrap_small _ (st + size)) by lia.
  assert (Hup : ∀ c, fits lo c → st ≤ c).
  { intros c Hc. pose proof (Hnone c Hc). destruct Hc as (_ & Hdc & _).
    destruct (decide (c < st)) as [Hlt|]; [|lia].
    pose proof (divide_lt_le (2 ^ k) c st ltac:(lia) Hdc Hdiv Hlt). lia. }
  destruct (Z.ltb_spec (mem_end mb) (st + size)) as [Hout|Hin].
  { intros c Hc. pose proof (Hup c Hc). destruct Hc as (_ & _ & ? & _). lia. }
  pose proof (overlaps_reserved_spec mb Hok st size) as Hov.
  destruct (overlaps_reserved st size mb); cbn [negb].
  - assert (Hnf : ¬ range_free mb st size) by (intros E; apply Hov in E; (done || lia)).
    assert (Hup' : ∀ c, fits lo c → st < c).
    { intros c Hc. pose proof (Hup c Hc). destruct (decide (c = st)) as [->|]; [|lia].
      by destruct Hc as (_ & _ & _ & ?). }
    destruct (reserved_end_spec mb Hok st) as [E|(r & Hr' & Hin' & E & Hb)]; [lia|..].
    + rewrite E, (proj2 (Z.leb_le st st)), wrap_small by lia. split; [|lia].
      split_and!; [lia..|]. intros c Hc. pose proof (Hup' c Hc). destruct Hc as (_ & Hdc & _).
      apply (divide_lt_le (2 ^ k) st c); (done || lia).
    + rewrite (proj2 (Z.leb_gt _ st)) by lia. unfold kPhysLimit in *.
      split; [split_and!; [lia..|]|lia].
      intros c Hc. pose proof (Hup' c Hc). destruct Hc as (_ & _ & _ & Hfree).
      destruct (Hfree r Hr'); unfold in_region in *; lia.
  - split; [|done]. split_and!; [lia|done|done|]. apply Hov; (done || lia).
Qed.
End alloc.

(** *** Reservation *)

(** The reservations after [start, start + size) was added to those of [mb]. *)
Record mb_reserved (mb : memblock) (start size : Z) (mb' : memblock) : Prop := {
  mr_ok : mb_ok mb';
  mr_reserved : reserved mb' ≡ₚ mkRegion start size :: reserved mb;
  mr_base : mem_base mb' = mem_base mb;
  mr_size : mem_size mb' = mem_size mb;
}.

Lemma page_align_up_add a b :
  page_aligned a → 0 ≤ a → 0 ≤ b → a + b ≤ 2 ^ 57 → page_align_up (a + b) = a + page_align_up b.
Proof.
  intros Ha H0 Hb Hs. rewrite !page_align_up_eq, !wrap_small by lia.
  unfold page_aligned, kPageSize in *. replace (a + b + 4095) with (b + 4095 + (a / 4096) * 4096)
    by (pose proof (Z.div_mod a 4096); lia).
  rewrite Z.mod_add by lia. pose proof (Z.div_mod a 4096). lia.
Qed.

Lemma page_aligned_sub a b : page_aligned a → page_aligned b → page_aligned (a - b).
Proof. unfold page_aligned. intros Ha Hb. by rewrite Zminus_mod, Ha, Hb. Qed.

Lemma page_align_up_limit a : 0 ≤ a ≤ kPhysLimit → page_align_up a ≤ kPhysLimit.
Proof.
  intros Ha. unfold kPhysLimit in *. destruct (page_align_up_spec a) as [Hal Hr]; [unfold kPageSize; lia|].
  unfold page_aligned, kPageSize in *. pose proof (Z.div_mod (page_align_up a) 4096). lia.
Qed.

Lemma memblock_reserve_ok mb base size mb' :
  mb_ok mb → 0 ≤ base → 0 < size → base + size ≤ kPhysLimit →
  memblock_reserve base size mb = Ret mb' →
  let lo := page_align_down base in
  let hi := page_align_up (base + size) in
  mb_reserved mb lo (hi - lo) mb' ∧ lo ≤ base ∧ base + size ≤ hi ≤ kPhysLimit.
Proof.
  intros Hok Hb Hs Hlim. unfold memblock_reserve.
  pose proof (page_align_up_limit (base + size) ltac:(lia)) as Hup. unfold kPhysLimit in Hlim.
  destruct (page_align_down_spec base) as (Hda & Hd & Hd0); [unfold is_u64; lia|].
  destruct (page_align_up_spec (base + size)) as (Hua & Hu); [unfold kPageSize; lia|].
  rewrite (wrap_small _ (base + size)) by lia.
  rewrite (wrap_small _ (page_align_up (base + size) - page_align_down base))
    by (unfold kPhysLimit, kPageSize in *; lia).
  intros Hi. set (lo := page_align_down base) in *. set (hi := page_align_up (base + size)) in *.
  cbv zeta. split; [|unfold lo, hi in *; lia].
  destruct (insert_reserved_ok lo (hi - lo) mb mb') as (H1 & H2 & H3 & H4 & _); [done| |done|by split].
  unfold region_ok; cbn. split_and!; [done|lia|lia|done|by apply page_aligned_sub].
Qed.

(** The reservation made for an allocation at a page boundary. *)
Lemma reserve_alloc mb start size mb' :
  mb_ok mb → 0 ≤ start → page_aligned start → 0 < size → start + size ≤ kPhysLimit →
  memblock_reserve start size mb = Ret mb' → mb_reserved mb start (page_align_up size) mb'.
Proof.
  intros Hok H0 Hal Hs Hlim Hr.
  destruct (memblock_reserve_ok mb start size mb') as [Hm _]; [done..|].
  unfold kPhysLimit in Hlim.
  rewrite page_align_down_id, page_align_up_add in Hm by (done || unfold is_u64; lia).
  by replace (start + page_align_up size - start) with (page_align_up size) in Hm by lia.
Qed.

Lemma memblock_reserve_outcome mb base size :
  (∃ mb', memblock_reserve base size mb = Ret mb') ∨
  (memblock_reserve base size mb = Panic "memblock: too many reserved regions" ∧
   kMemblockMaxRegions ≤ Z.of_nat (length (reserved mb))).
Proof.
  unfold memblock_reserve, insert_reserved. destruct (Z.leb_spec kMemblockMaxRegions (Z.of_nat (length (reserved mb)))); eauto.
Qed.

Lemma memblock_reserve_active base size mb mb' :
  memblock_reserve base size mb = Ret mb' → active mb' = active mb.
Proof. unfold memblock_reserve, insert_reserved. case_match; [done|]. by intros [= <-]. Qed.

Lemma memblock_alloc_active size align mb c mb' :
  memblock_alloc size align mb = Ret (c, mb') → active mb' = active mb.
Proof.
  unfold memblock_alloc. generalize (loop 64 (alloc_step size align mb) (page_align_up (mem_base mb))).
  intros [?|[c'|]]; [done| |done].
  destruct (memblock_reserve c' size mb) as [mb1| |] eqn:Er; [|done..]. cbn.
  intros [= <- <-]. by eapply memblock_reserve_active.
Qed.

Lemma pow2_page_aligned k a : 12 ≤ k → (2 ^ k | a) → page_aligned a.
Proof.
  intros Hk [q ->]. unfold page_aligned, kPageSize.
  replace (q * 2 ^ k) with (q * 2 ^ (k - 12) * 4096).
  - apply Z.mod_mul. lia.
  - change 4096 with (2 ^ 12). rewrite <- Z.mul_assoc, <- Z.pow_add_r by lia. do 2 f_equal. lia.
Qed.

(** What the outcome of an allocation says: a place [c] chosen by [best], or
    the exhaustion of RAM or of the reservation array. *)
Definition mb_alloc_outcome (mb : memblock) (size : Z) (oom : string) (fit : Z → Prop)
    (better : Z → Z → Prop) (res : outcome (Z * memblock)) : Prop :=
  match res with
  | Ret (c, mb') => fit c ∧ (∀ c', fit c' → better c c') ∧ mb_reserved mb c (page_align_up size) mb'
  | Panic msg =>
      (msg = oom ∧ ∀ c, ¬ fit c) ∨
      (msg = "memblock: too many reserved regions"%string ∧
       kMemblockMaxRegions ≤ Z.of_nat (length (reserved mb)))
  | OutOfFuel => False
  end.

Lemma mb_alloc_finish mb size oom fit better c :
  mb_ok mb → 0 ≤ c → page_aligned c → 0 < size → c + size ≤ kPhysLimit →
  fit c → (∀ c', fit c' → better c c') →
  mb_alloc_outcome mb size oom fit better
    (mb' ← memblock_reserve c size mb; Ret (c, mb')).
Proof.
  intros Hok H0 Hal Hs Hlim Hf Hb.
  destruct (memblock_reserve_outcome mb c size) as [[mb' E]|[E Hfull]]; rewrite E; cbn; [|by right].
  split_and!; [done|done|]. by apply reserve_alloc.
Qed.

Lemma memblock_alloc_ok mb size k :
  mb_ok mb → 12 ≤ k ≤ 56 → 0 < size ≤ kPhysLimit →
  mb_alloc_outcome mb size "memblock_alloc: out of memory"
    (fits mb size k (page_align_up (mem_base mb))) Z.le (memblock_alloc size (2 ^ k) mb).
Proof.
  intros Hok Hk Hs. pose proof (mem_end_bounds mb Hok) as He.
  set (lo := page_align_up (mem_base mb)).
  assert (Hlo : 0 ≤ lo ≤ kPhysLimit).
  { pose proof (mb_base _ Hok). pose proof (mb_size _ Hok). unfold mem_end in He.
    pose proof (page_align_up_limit (mem_base mb) ltac:(lia)).
    destruct (page_align_up_spec (mem_base mb)); unfold kPhysLimit, kPageSize in *; unfold lo; lia. }
  unfold memblock_alloc. fold lo.
  destruct (loop_total (alloc_step size (2 ^ k) mb) (alloc_inv mb size k lo) (λ st, 2 ^ 59 - st)
    (λ r, match r with
          | Some c => fits mb size k lo c ∧ ∀ c', fits mb size k lo c' → c ≤ c'
          | None => ∀ c, ¬ fits mb size k lo c end)) with (k := 64%nat) (s := lo) as (r & -> & Hr).
  - intros st Hst. pose proof (alloc_step_ok mb Hok size k ltac:(lia) Hs lo st Hst) as H.
    by destruct (alloc_step _ _ _ _) as [|[|]].
  - split_and!; [lia|lia|unfold kPhysLimit in *; lia|]. by intros c (? & _).
  - change (2 ^ Z.of_nat 64) with (2 ^ 64). lia.
  - destruct r as [c|]; [|by left]. destruct Hr as [Hf Hmin].
    destruct Hf as (? & Hal & ? & ?) eqn:E. clear E. apply mb_alloc_finish; [done|lia| |lia|lia|done|done].
    by apply (pow2_page_aligned k); [lia|].
Qed.

(** *** Top-down allocation *)

Section alloc_top.
Context (mb : memblock) (Hok : mb_ok mb) (size k : Z).
Context (Hk : 12 ≤ k ≤ 56) (Hsize : 0 < size ≤ page_align_down (mem_end mb)).

Definition fits_top (c : Z) : Prop :=
  mem_base mb ≤ c ∧ (2 ^ k | c) ∧ c + size ≤ page_align_down (mem_end mb) ∧ range_free mb c size.

Lemma top_bounds : page_align_down (mem_end mb) ≤ mem_end mb ≤ kPhysLimit ∧ 0 < 2 ^ k ≤ kPhysLimit.
Proof using Hok Hk.
  pose proof (mem_end_bounds mb Hok) as He. unfold kPhysLimit in *.
  destruct (page_align_down_spec (mem_end mb)) as (_ & ? & ?); [unfold is_u64; lia|].
  split; [lia|]. split; [lia|]. apply Z.pow_le_mono_r; lia.
Qed.

(** Nothing fits above [start]. *)
Definition top_inv (start : Z) : Prop :=
  0 ≤ start ∧ (2 ^ k | start) ∧ start + size ≤ page_align_down (mem_end mb) ∧
  ∀ c, fits_top c → c ≤ start.

Lemma alloc_top_step_ok start :
  top_inv start →
  match alloc_top_step size (2 ^ k) mb start with
  | inl start' => top_inv start' ∧ 0 ≤ start' < start
  | inr (Some c) => fits_top c ∧ ∀ c', fits_top c' → c' ≤ c
  | inr None => ∀ c, ¬ fits_top c
  end.
Proof using Hok Hk Hsize.
  intros (H0 & Hdiv & Hend & Hup). pose proof top_bounds as [[Hd He] Hal].
  unfold alloc_top_step. rewrite mem_end_eq by done. unfold kPhysLimit in *.
  rewrite (wrap_small _ (start + size)) by lia.
  destruct (Z.leb_spec (mem_base mb) start) as [Hb|Hb]; cbn [andb].
  2: { intros c Hc. pose proof (Hup c Hc). destruct Hc as (? & _). lia. }
  rewrite (proj2 (Z.leb_le _ _)) by lia.
  pose proof (overlaps_reserved_spec mb Hok start size) as Hov.
  destruct (overlaps_reserved start size mb); cbn [negb].
  - assert (Hup' : ∀ c, fits_top c → c + 2 ^ k ≤ start).
    { intros c Hc. pose proof (Hup c Hc). destruct Hc as (? & Hdc & ? & Hf).
      apply divide_lt_le; [lia|done|done|]. destruct (decide (c = start)) as [->|]; [|lia].
      exfalso. by apply Hov in Hf; [|lia..]. }
    destruct (Z.ltb_spec start (2 ^ k)).
    + intros c Hc. pose proof (Hup' c Hc). destruct Hc as (? & _). pose proof (mb_base _ Hok). lia.
    + rewrite wrap_small by lia. split; [|lia]. split_and!; [lia| |lia|].
      * apply Z.divide_sub_r; [done|reflexivity].
      * intros c Hc. pose proof (Hup' c Hc). lia.
  - split; [|done]. split_and!; [done|done|done|]. apply Hov; (done || lia).
Qed.

Lemma memblock_alloc_top_ok :
  mb_alloc_outcome mb size "memblock_alloc_top: out of memory" fits_top Z.ge
    (memblock_alloc_top size (2 ^ k) mb).
Proof using Hok Hk Hsize.
  pose proof top_bounds as [[Hd He] Hal]. unfold kPhysLimit in *.
  unfold memblock_alloc_top. rewrite mem_end_eq by done.
  rewrite (wrap_small _ (page_align_down (mem_end mb) - size)) by lia.
  rewrite align_mask_eq, land_align_mask by (unfold is_u64; lia).
  set (top := page_align_down (mem_end mb) - size) in *.
  destruct (round_down top k) as [Hdiv Hr]; [lia|].
  assert (0 ≤ top - top mod 2 ^ k) by (pose proof (Z.mod_le top (2 ^ k)); lia).
  set (start := top - top mod 2 ^ k) in *.
  destruct (loop_total (alloc_top_step size (2 ^ k) mb) top_inv (λ st, st)
    (λ r, match r with
          | Some c => fits_top c ∧ ∀ c', fits_top c' → c' ≤ c
          | None => ∀ c, ¬ fits_top c end)) with (k := 64%nat) (s := start) as (r & -> & Hres).
  - intros st Hst. pose proof (alloc_top_step_ok st Hst) as H'.
    by destruct (alloc_top_step _ _ _ _) as [|[|]].
  - split_and!; [done|done|lia|]. intros c (_ & Hdc & Hc & _).
    destruct (decide (start < c)) as [Hlt|]; [|lia].
    pose proof (divide_lt_le (2 ^ k) start c ltac:(lia) Hdiv Hdc Hlt). lia.
  - change (2 ^ Z.of_nat 64) with (2 ^ 64). lia.
  - destruct r as [c|]; [|by left]. destruct Hres as [Hf Hmax]. pose proof Hf as (? & Hdc & ? & _).
    pose proof (mb_base _ Hok). unfold kPhysLimit in *.
    apply mb_alloc_finish; [done|lia| |lia|unfold kPhysLimit; lia|done|].
    + by apply (pow2_page_aligned k); [lia|].
    + intros c' Hc'. specialize (Hmax c' Hc'). lia.
Qed.
End alloc_top.

(** *** The free gaps *)

(** Consecutive gaps are separated by at least one byte, and each is nonempty. *)
Fixpoint separated (lo : Z) (g : list region) : Prop :=
  match g with
  | [] => True
  | r :: g' => lo ≤ rbase r ∧ 0 < rsize r ∧ separated (rbase r + rsize r + 1) g'
  end.

Lemma separated_weaken lo lo' g : lo' ≤ lo → separated lo g → separated lo' g.
Proof. destruct g; cbn; [done|]. intros ? (? & ? & ?). split_and!; [lia|done|done]. Qed.

Definition in_regions (g : list region) (x : Z) : Prop := ∃ r, r ∈ g ∧ in_region r x.

Lemma in_regions_cons r g x : in_regions (r :: g) x ↔ in_region r x ∨ in_regions g x.
Proof.
  unfold in_regions. split.
  - intros (r' & [->|Hr]%elem_of_cons & Hx); eauto.
  - intros [Hx|(r' & ? & ?)]; [exists r|exists r']; rewrite elem_of_cons; auto.
Qed.

Lemma in_regions_nil x : ¬ in_regions [] x.
Proof. by intros (r & []%elem_of_nil & _). Qed.

Lemma free_gaps_ok pos e l :
  0 ≤ pos → 0 ≤ e ≤ kPhysLimit → Forall region_ok l → StronglySorted region_le l →
  Forall (λ r, rbase r ≤ e) l →
  separated pos (free_gaps pos e l) ∧
  (∀ x, in_regions (free_gaps pos e l) x ↔ pos ≤ x < e ∧ ¬ in_regions l x).
Proof.
  intros H0 He Hok Hs Hle. unfold kPhysLimit in He.
  revert pos H0. induction l as [|r l IH]; intros pos H0; cbn [free_gaps].
  - pose proof in_regions_nil. destruct (Z.ltb_spec pos e).
    + rewrite wrap_small by lia. split; [cbn; lia|]. intros x. rewrite in_regions_cons.
      unfold in_region. cbn. specialize (H x). intuition lia.
    + split; [done|]. intros x. specialize (H x). intuition lia.
  - apply Forall_cons in Hok as [(Hr0 & Hr1 & Hr2 & _) Hok].
    apply StronglySorted_cons in Hs as [Hrl Hs]. apply Forall_cons in Hle as [Hre Hle].
    cbv beta in Hre. specialize (IH Hok Hs Hle).
    assert (Hnot : ∀ x, x < rbase r → ¬ in_regions l x).
    { intros x Hx (r' & Hr' & Hin). rewrite Forall_forall in Hrl. specialize (Hrl r' Hr').
      unfold region_le, in_region in *. lia. }
    destruct (Z.ltb_spec pos e).
    2: { split; [done|]. intros x. pose proof (in_regions_nil x). intuition lia. }
    unfold kPhysLimit in Hr2. rewrite (wrap_small _ (rbase r + rsize r)) by lia.
    setoid_rewrite (in_regions_cons r l). unfold in_region.
    destruct (Z.ltb_spec (rbase r) pos); [|destruct (Z.ltb_spec pos (rbase r))].
    + set (pos' := if pos <? rbase r + rsize r then rbase r + rsize r else pos).
      assert (Hp' : pos ≤ pos' ∧ (pos' = pos ∧ rbase r + rsize r ≤ pos ∨ pos' = rbase r + rsize r)).
      { unfold pos'. destruct (Z.ltb_spec pos (rbase r + rsize r)); lia. }
      clearbody pos'. destruct (IH pos') as [IH1 IH2]; [lia|].
      split; [by eapply separated_weaken; [|exact IH1]; lia|]. intros x. rewrite IH2. intuition lia.
    + rewrite wrap_small by lia. destruct (IH (rbase r + rsize r)) as [IH1 IH2]; [lia|].
      split.
      * cbn. split_and!; [lia|lia|]. eapply separated_weaken; [|exact IH1]. lia.
      * intros x. rewrite in_regions_cons, IH2. unfold in_region. cbn.
        destruct (decide (x < rbase r)); [specialize (Hnot x)|]; intuition lia.
    + destruct (IH (rbase r + rsize r)) as [IH1 IH2]; [lia|].
      split; [by eapply separated_weaken; [|exact IH1]; lia|]. intros x. rewrite IH2.
      intuition lia.
Qed.

(** Every gap starts at a page boundary and ends at one or at the end of RAM. *)
Lemma free_gaps_aligned pos e l :
  0 ≤ pos → 0 ≤ e ≤ kPhysLimit → Forall region_ok l → page_aligned pos →
  Forall (λ r, page_aligned (rbase r) ∧ (page_aligned (rbase r + rsize r) ∨ rbase r + rsize r = e))
    (free_gaps pos e l).
Proof.
  intros H0 He. revert pos H0. induction l as [|r l IH]; intros pos H0 Hok Hal; cbn [free_gaps];
    (destruct (Z.ltb_spec pos e); [|done]); unfold kPhysLimit in *.
  - rewrite wrap_small by lia. constructor; [|done]. cbn. split; [done|]. right. lia.
  - apply Forall_cons in Hok as [(Hr0 & Hr1 & Hr2 & Ha1 & Ha2) Hok]. unfold kPhysLimit in *.
    rewrite (wrap_small _ (rbase r + rsize r)) by lia.
    assert (page_aligned (rbase r + rsize r)).
    { unfold page_aligned in *. by rewrite Z.add_mod, Ha1, Ha2. }
    destruct (Z.ltb_spec (rbase r) pos); [case_match; apply IH; (done || lia)|].
    destruct (Z.ltb_spec pos (rbase r)); [|apply IH; (done || lia)].
    constructor; [|apply IH; (done || lia)]. rewrite wrap_small by lia. cbn.
    replace (pos + (rbase r - pos)) with (rbase r) by lia. auto.
Qed.

(** ** Properties *)

(** C39: [memblock_alloc] always terminates; it returns the lowest aligned
    place in RAM that no reservation meets and records it (rounded up to whole
    pages) as reserved, keeping the array sorted and everything else as it was;
    it panics with "out of memory" only when no such place exists, and otherwise
    only when the reservation array is full. *)
Theorem memblock_alloc_first_fit mb size k
    (Hok : mb_ok mb) (Hk : 12 ≤ k ≤ 56) (Hsize : 0 < size ≤ kPhysLimit) :
  mb_alloc_outcome mb size "memblock_alloc: out of memory"
    (fits mb size k (page_align_up (mem_base mb))) Z.le (memblock_alloc size (2 ^ k) mb).
Proof. by apply memblock_alloc_ok. Qed.

(** [memblock_alloc_top] always terminates; for a size that fits below the
    end of RAM it returns the highest aligned place that ends at or below the
    last page boundary and that no reservation meets, and reserves it; it panics
    with "out of memory" only when there is none. *)
Theorem memblock_alloc_top_last_fit mb size k
    (Hok : mb_ok mb) (Hk : 12 ≤ k ≤ 56) (Hsize : 0 < size ≤ page_align_down (mem_end mb)) :
  mb_alloc_outcome mb size "memblock_alloc_top: out of memory"
    (fits_top mb size k) Z.ge (memblock_alloc_top size (2 ^ k) mb).
Proof. by apply memblock_alloc_top_ok. Qed.

(** C40: the regions [memblock_for_each_free] reports are exactly the bytes of
    RAM outside every reservation, in ascending order, nonempty and with at
    least one reserved byte between two of them, provided no reservation starts
    beyond the end of RAM. *)
Theorem memblock_free_is_complement mb
    (Hok : mb_ok mb) (Hin : Forall (λ r, rbase r ≤ mem_end mb) (reserved mb)) :
  separated (mem_base mb) (memblock_for_each_free mb) ∧
  ∀ x, in_regions (memblock_for_each_free mb) x ↔
       mem_base mb ≤ x < mem_end mb ∧ ¬ in_regions (reserved mb) x.
Proof.
  unfold memblock_for_each_free. rewrite mem_end_eq by done. destruct (mem_end_bounds mb Hok).
  apply free_gaps_ok; [apply Hok|done|apply Hok|apply Hok|done].
Qed.

(** *** Witnesses: the layout [memblock_init] sets up on a 128 MB machine *)

Definition mb_example : memblock :=
  mkMb 0x80000000 0x8000000 [mkRegion 0x80000000 0x200000; mkRegion 0x80200000 0x3000] true.

Lemma mb_example_init :
  memblock_init 0x80000000 0x8000000 0x80200000 0x80202800 = Ret mb_example.
Proof. reflexivity. Qed.

Lemma mb_example_ok : mb_ok mb_example.
Proof.
  split; [by vm_compute..| |].
  - apply (bool_decide_unpack _). by vm_compute.
  - repeat constructor; by vm_compute.
Qed.

Lemma memblock_alloc_first_fit_witness :
  memblock_alloc 0x1000 (2 ^ 12) mb_example =
    Ret (0x80203000, mkMb 0x80000000 0x8000000
      [mkRegion 0x80000000 0x200000; mkRegion 0x80200000 0x3000; mkRegion 0x80203000 0x1000] true) ∧
  mb_alloc_outcome mb_example 0x1000 "memblock_alloc: out of memory"
    (fits mb_example 0x1000 12 (page_align_up (mem_base mb_example))) Z.le
    (memblock_alloc 0x1000 (2 ^ 12) mb_example).
Proof.
  split; [reflexivity|].
  apply (memblock_alloc_first_fit mb_example 0x1000 12 mb_example_ok); unfold kPhysLimit; lia.
Defined.

Lemma memblock_alloc_top_last_fit_witness :
  memblock_alloc_top 0x41000 (2 ^ 12) mb_example =
    Ret (0x87FBF000, mkMb 0x80000000 0x8000000
      [mkRegion 0x80000000 0x200000; mkRegion 0x80200000 0x3000; mkRegion 0x87FBF000 0x41000] true) ∧
  mb_alloc_outcome mb_example 0x41000 "memblock_alloc_top: out of memory"
    (fits_top mb_example 0x41000 12) Z.ge (memblock_alloc_top 0x41000 (2 ^ 12) mb_example).
Proof.
  split; [reflexivity|].
  apply (memblock_alloc_top_last_fit mb_example 0x41000 12 mb_example_ok); [lia|by vm_compute].
Defined.

Lemma memblock_free_is_complement_witness :
  memblock_for_each_free mb_example = [mkRegion 0x80203000 0x7DFD000] ∧
  separated (mem_base mb_example) (memblock_for_each_free mb_example).
Proof.
  split; [reflexivity|].
  apply (memblock_free_is_complement mb_example mb_example_ok).
  apply (bool_decide_unpack _). by vm_compute.
Defined.
