(* ===== verification/Pmm.v ===== *)
(** * Pmm: the physical memory manager

    Models [na/mm/pmm.cc] (with [na/include/lume/page.h] and [pmm.h]): the buddy
    allocator over the flat [page_map], the per-CPU single-page caches in front
    of it, reference counts, address conversion and the feeding of free regions
    at boot.  A [Page*] is the page frame number that indexes [g_page_map]; an
    intrusive free list is the list of the frames linked on it, head first
    (file [DList] relates such lists to the pointer operations).  Every routine
    runs under [g_pmm_lock] or with interrupts off, so each is one atomic
    step. *)

From S2P Require Import Prelude Bits.

Definition kMaxOrder : nat := 11.

Inductive PageState := Free | PcpCached | Allocated | Slab.

#[export] Instance PageState_eq_dec : EqDecision PageState.
Proof. solve_decision. Defined.

(** [struct Page], without the union of list links and slab metadata. *)
Record Page := mkPage { refcount : Z; state : PageState; order : nat }.

#[export] Instance Page_inhabited : Inhabited Page := populate (mkPage 0 Free 0).

Record PerCpuCache := mkPcp { free_list : list Z; count : Z }.

#[export] Instance PerCpuCache_inhabited : Inhabited PerCpuCache := populate (mkPcp [] 0).

(** The module-private state of [pmm.cc]. *)
Record pmm := mkPmm {
  g_free_areas : gmap nat (list Z);
  g_pcp : gmap Z PerCpuCache;
  g_page_map : gmap Z Page;
  g_mem_base : Z;
  g_mem_size : Z;
  g_num_pages : Z;
  g_pcp_high_watermark : Z;
  g_pcp_batch_size : Z;
}.

Definition area (s : pmm) (o : nat) : list Z := default [] (g_free_areas s !! o).
Definition page_at (s : pmm) (p : Z) : Page := g_page_map s !!! p.
Definition pcp_at (s : pmm) (c : Z) : PerCpuCache := g_pcp s !!! c.

Definition with_areas (f : gmap nat (list Z) → gmap nat (list Z)) (s : pmm) : pmm :=
  mkPmm (f (g_free_areas s)) (g_pcp s) (g_page_map s) (g_mem_base s) (g_mem_size s)
        (g_num_pages s) (g_pcp_high_watermark s) (g_pcp_batch_size s).
Definition with_pcp (f : gmap Z PerCpuCache → gmap Z PerCpuCache) (s : pmm) : pmm :=
  mkPmm (g_free_areas s) (f (g_pcp s)) (g_page_map s) (g_mem_base s) (g_mem_size s)
        (g_num_pages s) (g_pcp_high_watermark s) (g_pcp_batch_size s).
Definition set_page (p : Z) (d : Page) (s : pmm) : pmm :=
  mkPmm (g_free_areas s) (g_pcp s) (<[p := d]> (g_page_map s)) (g_mem_base s) (g_mem_size s)
        (g_num_pages s) (g_pcp_high_watermark s) (g_pcp_batch_size s).
Definition set_pcp (c : Z) (pc : PerCpuCache) : pmm → pmm := with_pcp <[c := pc]>.

(** ** Address conversion *)

Definition pa_to_page_index (s : pmm) (pa : Z) : outcome Z :=
  if (pa <? g_mem_base s) || (u64 (g_mem_base s + u64 (g_num_pages s * kPageSize)) <=? pa)
  then Panic "pa_to_page: physical address outside managed range"
  else Ret (u64 (pa - g_mem_base s) / kPageSize).

Definition page_index_to_pa (s : pmm) (idx : Z) : outcome Z :=
  if g_num_pages s <=? idx
  then Panic "page_to_pa: page index outside managed range"
  else Ret (u64 (g_mem_base s + u64 (idx * kPageSize))).

(** ** Buddy system internals *)

Definition buddy_of (s : pmm) (page : Z) (o : nat) : option Z :=
  let buddy_pfn := Z.lxor page (pow2 o) in
  if g_num_pages s <=? buddy_pfn then None else Some buddy_pfn.

Definition buddy_list_add (page : Z) (o : nat) (s : pmm) : pmm :=
  let s := set_page page (mkPage (refcount (page_at s page)) Free o) s in
  with_areas (λ m, <[o := page :: default [] (m !! o)]> m) s.

(** Unlink a block from whatever free list it is on. *)
Definition buddy_list_del (page : Z) : pmm → pmm :=
  with_areas (fmap (filter (λ q, q ≠ page))).

(** [while (cur > order) { cur--; buddy_list_add(page + (1 << cur), cur); }] *)
Fixpoint buddy_split (page : Z) (cur o : nat) (s : pmm) : pmm :=
  match cur with
  | S cur' =>
      if (o <? cur)%nat
      then buddy_split page cur' o (buddy_list_add (page + pow2 cur') cur' s)
      else s
  | O => s
  end.

(** The [for (cur = order; cur < kMaxOrder; cur++)] loop; [n] counts the orders left. *)
Fixpoint buddy_alloc_from (n cur o : nat) (s : pmm) : option Z * pmm :=
  match n with
  | O => (None, s)
  | S n' =>
      match area s cur with
      | [] => buddy_alloc_from n' (S cur) o s
      | page :: _ =>
          let s := buddy_list_del page s in
          let s := buddy_split page cur o s in
          (Some page, set_page page (mkPage 1 Allocated o) s)
      end
  end.

Definition buddy_alloc (o : nat) (s : pmm) : option Z * pmm :=
  buddy_alloc_from (kMaxOrder - o) o o s.

(** The coalescing loop of [buddy_free]; [n] is [kMaxOrder - 1 - order], the
    number of iterations the loop condition allows. *)
Fixpoint buddy_coalesce (n : nat) (page : Z) (o : nat) (s : pmm) : Z * nat * pmm :=
  match n with
  | O => (page, o, s)
  | S n' =>
      match buddy_of s page o with
      | None => (page, o, s)
      | Some buddy =>
          if bool_decide (state (page_at s buddy) ≠ Free) || bool_decide (order (page_at s buddy) ≠ o)
          then (page, o, s)
          else
            let s := buddy_list_del buddy s in
            let page := if buddy <? page then buddy else page in
            buddy_coalesce n' page (S o) s
      end
  end.

Definition buddy_free (page : Z) (o : nat) (s : pmm) : pmm :=
  let '(page, o, s) := buddy_coalesce (kMaxOrder - 1 - o) page o s in
  buddy_list_add page o s.

(** ** Per-CPU cache *)

Definition set_state (p : Z) (st : PageState) (s : pmm) : pmm :=
  set_page p (mkPage (refcount (page_at s p)) st (order (page_at s p))) s.

Definition pcp_push (cpu page : Z) (s : pmm) : pmm :=
  let pc := pcp_at s cpu in
  set_pcp cpu (mkPcp (page :: free_list pc) (u32 (count pc + 1))) s.

(** The body of [refill_pcp]'s loop, [n] iterations at most. *)
Fixpoint refill_loop (n : nat) (cpu : Z) (s : pmm) : pmm :=
  match n with
  | O => s
  | S n' =>
      match buddy_alloc 0 s with
      | (None, s) => s
      | (Some page, s) => refill_loop n' cpu (pcp_push cpu page (set_state page PcpCached s))
      end
  end.

Definition refill_pcp (cpu : Z) (s : pmm) : pmm :=
  refill_loop (Z.to_nat (g_pcp_batch_size s)) cpu s.

Fixpoint drain_loop (n : nat) (cpu : Z) (s : pmm) : pmm :=
  match n with
  | O => s
  | S n' =>
      match free_list (pcp_at s cpu) with
      | [] => s
      | page :: rest =>
          let s := set_pcp cpu (mkPcp rest (u32 (count (pcp_at s cpu) - 1))) s in
          drain_loop n' cpu (buddy_free page 0 s)
      end
  end.

Definition drain_pcp (cpu : Z) (s : pmm) : pmm :=
  drain_loop (Z.to_nat (count (pcp_at s cpu) / 2)) cpu s.

(** ** Public API *)

Definition pmm_alloc_page (cpu : Z) (s : pmm) : outcome (option Z * pmm) :=
  let s := if count (pcp_at s cpu) =? 0 then refill_pcp cpu s else s in
  if 0 <? count (pcp_at s cpu) then
    match free_list (pcp_at s cpu) with
    | page :: rest =>
        let s := set_pcp cpu (mkPcp rest (u32 (count (pcp_at s cpu) - 1))) s in
        if (page <? 0) || (g_num_pages s <=? page)
        then Panic "pmm_alloc_page: PCP returned out-of-bounds page"
        else Ret (Some page, set_page page (mkPage 1 Allocated 0) s)
    | [] => (* the list head itself read as a page *)
        Panic "pmm_alloc_page: PCP returned out-of-bounds page"
    end
  else Ret (None, s).

Definition pmm_free_page (cpu : Z) (page : option Z) (s : pmm) : outcome pmm :=
  match page with
  | None => Panic "pmm_free_page: null page"
  | Some page =>
      let s := set_page page (mkPage (refcount (page_at s page)) PcpCached 0) s in
      let s := pcp_push cpu page s in
      Ret (if g_pcp_high_watermark s <=? count (pcp_at s cpu) then drain_pcp cpu s else s)
  end.

Definition pmm_alloc_pages (o : nat) (s : pmm) : option Z * pmm :=
  if (kMaxOrder <=? o)%nat then (None, s) else buddy_alloc o s.

Definition pmm_free_pages (page : option Z) (o : nat) (s : pmm) : outcome pmm :=
  match page with
  | None => Panic "pmm_free_pages: null page"
  | Some page =>
      if (kMaxOrder <=? o)%nat then Panic "pmm_free_pages: order out of range"
      else Ret (buddy_free page o s)
  end.

Definition page_incref (page : Z) (s : pmm) : pmm :=
  let d := page_at s page in set_page page (mkPage (u32 (refcount d + 1)) (state d) (order d)) s.

Definition page_decref (cpu page : Z) (s : pmm) : outcome pmm :=
  let d := page_at s page in
  let s := set_page page (mkPage (u32 (refcount d - 1)) (state d) (order d)) s in
  if refcount d =? 1 then
    if (order d =? 0)%nat then pmm_free_page cpu (Some page) s
    else pmm_free_pages (Some page) (order d) s
  else Ret s.

(** ** Blocks: the abstract state of the buddy system

    The managed frames [0, N) are partitioned into aligned blocks; [B] maps the
    first frame of each block to its order. *)

Definition in_block (p : Z) (o : nat) (x : Z) : Prop := p ≤ x < p + pow2 o.
#[export] Instance in_block_dec p o x : Decision (in_block p o x).
Proof. unfold in_block. apply _. Defined.

Record blocks_ok (N : Z) (B : gmap Z nat) : Prop := {
  blk_nonneg p o : B !! p = Some o → 0 ≤ p;
  blk_order p o : B !! p = Some o → (o < kMaxOrder)%nat;
  blk_align p o : B !! p = Some o → (pow2 o | p);
  blk_end p o : B !! p = Some o → p + pow2 o ≤ N;
  blk_cover x : 0 ≤ x < N → ∃ p o, B !! p = Some o ∧ in_block p o x;
  blk_disj p o q o' x :
    B !! p = Some o → B !! q = Some o' → in_block p o x → in_block q o' x → p = q;
}.

(** Aligned regions nest: a region that meets a larger block lies inside it. *)
Lemma in_block_nested k o q r x y :
  (k ≤ o)%nat → (pow2 k | q) → (pow2 o | r) →
  in_block q k x → in_block r o x → in_block q k y → in_block r o y.
Proof.
  unfold in_block. intros Hko Hq Hr Hx Hx' Hy.
  assert (Hr' : (pow2 k | r)) by (etrans; [|exact Hr]; by apply pow2_divide).
  assert (Hre : (pow2 k | r + pow2 o)) by (apply Z.divide_add_r; [done|by apply pow2_divide]).
  assert (r ≤ q).
  { destruct (decide (q < r)) as [Hlt|]; [|lia].
    pose proof (aligned_lt_le k q r Hq Hr' Hlt). lia. }
  assert (q < r + pow2 o) as Hlt by lia.
  pose proof (aligned_lt_le k q _ Hq Hre Hlt). lia.
Qed.

(** A frame and its buddy are the two halves of an aligned region. *)
Lemma buddy_pair o p :
  (pow2 o | p) → 0 ≤ p →
  let b := Z.lxor p (pow2 o) in
  ∃ q, (pow2 (S o) | q) ∧ 0 ≤ q ∧ ((p = q ∧ b = q + pow2 o) ∨ (b = q ∧ p = q + pow2 o)).
Proof.
  intros Hal Hnn b. destruct (buddy_cases o p Hal) as [Hev|(q & Hq & Hev)].
  - exists p. split_and!; [done|done|]. left. split; [done|]. by apply lxor_pow2_even.
  - exists q. split_and!; [done| |].
    + destruct Hev as [k Hk]. rewrite pow2_S in Hk. pose proof (pow2_pos o).
      assert (0 ≤ k) by nia. nia.
    + right. split; [|done]. unfold b. rewrite Hq. by apply lxor_pow2_odd.
Qed.

Section blocks.
Context (N : Z) (B : gmap Z nat) (HB : blocks_ok N B).

Lemma blk_head p o : in_block p o p.
Proof. unfold in_block. pose proof (pow2_pos o). lia. Qed.

(** Two distinct blocks lie on either side of each other. *)
Lemma blk_apart p o q o' :
  B !! p = Some o → B !! q = Some o' → p < q → p + pow2 o ≤ q.
Proof using HB.
  intros Hp Hq Hlt. destruct (decide (p + pow2 o ≤ q)); [done|].
  assert (p = q); [|lia].
  eapply (blk_disj N B HB p o q o' q); [done..| |by apply blk_head]. unfold in_block. lia.
Qed.

(** The key fact behind coalescing: the buddy of a block starts a block of at
    most the same order. *)
Lemma buddy_block p o :
  B !! p = Some o → Z.lxor p (pow2 o) < N →
  ∃ o', B !! Z.lxor p (pow2 o) = Some o' ∧ (o' ≤ o)%nat.
Proof using HB.
  intros Hp Hlt. pose proof (pow2_pos o) as Hpos.
  destruct (buddy_pair o p) as (q & Hqal & Hq0 & Hq); [by eapply blk_align|by eapply blk_nonneg|].
  set (b := Z.lxor p (pow2 o)) in *.
  assert (Hpb : in_block q (S o) p ∧ in_block q (S o) b).
  { unfold in_block. rewrite pow2_S. lia. }
  destruct (blk_cover N B HB b) as (r & o' & Hr & Hin); [lia|].
  pose proof (blk_align N B HB _ _ Hr) as Hral.
  assert (Ho : (o' ≤ o)%nat).
  { destruct (decide (o' ≤ o)%nat); [done|]. exfalso.
    assert (in_block r o' p).
    { eapply (in_block_nested (S o) o' q r b); [lia|done|done|by destruct Hpb|done|by destruct Hpb]. }
    assert (Hpr : p = r) by (eapply blk_disj; eauto using blk_head).
    rewrite <- Hpr, Hp in Hr. simplify_eq. lia. }
  exists o'. split; [|done].
  assert (Hbal : (pow2 o' | b)).
  { etrans; [by apply pow2_divide, Ho|]. destruct Hq as [[? ->]|[-> ?]].
    - apply Z.divide_add_r; [|reflexivity]. etrans; [|exact Hqal]. apply pow2_divide. lia.
    - etrans; [|exact Hqal]. apply pow2_divide. lia. }
  replace b with r; [done|]. unfold in_block in Hin.
  destruct (decide (r < b)) as [Hrb|]; [|lia].
  pose proof (aligned_lt_le o' r b Hral Hbal Hrb). lia.
Qed.
End blocks.

(** Splitting a block into its two halves keeps the partition. *)
Lemma blocks_split N B p o :
  blocks_ok N B → B !! p = Some (S o) → blocks_ok N (<[p + pow2 o := o]> (<[p := o]> B)).
Proof.
  intros HB Hp. pose proof (pow2_pos o) as Hpos.
  pose proof (blk_align _ _ HB _ _ Hp) as Hal. pose proof (blk_end _ _ HB _ _ Hp) as Hend.
  pose proof (blk_nonneg _ _ HB _ _ Hp) as Hnn. pose proof (blk_order _ _ HB _ _ Hp) as Hord.
  assert (Hal' : (pow2 o | p)) by (etrans; [|exact Hal]; apply pow2_divide; lia).
  rewrite pow2_S in *.
  (* every block of the new map lies inside a block of the old one *)
  assert (Hinv : ∀ q o', <[p + pow2 o := o]> (<[p := o]> B) !! q = Some o' →
    (q = p + pow2 o ∧ o' = o) ∨ (q = p ∧ o' = o) ∨ (q ≠ p ∧ q ≠ p + pow2 o ∧ B !! q = Some o')).
  { intros q o'. rewrite !lookup_insert. repeat case_decide; naive_solver. }
  assert (Hold : ∀ q o' x, q ≠ p → B !! q = Some o' → in_block q o' x →
                           ¬ (p ≤ x < p + 2 * pow2 o)).
  { intros q o' x Hne Hq Hx Hx'. apply Hne. eapply (blk_disj N B HB q o' p (S o) x); eauto.
    unfold in_block. rewrite pow2_S. lia. }
  split.
  - intros q o' [[-> ->]|[[-> ->]|(_ & _ & H)]]%Hinv; [lia|lia|]. by eapply blk_nonneg.
  - intros q o' [[-> ->]|[[-> ->]|(_ & _ & H)]]%Hinv; [lia|lia|]. by eapply blk_order.
  - intros q o' [[-> ->]|[[-> ->]|(_ & _ & H)]]%Hinv; [|done|by eapply blk_align].
    apply Z.divide_add_r; [done|reflexivity].
  - intros q o' [[-> ->]|[[-> ->]|(_ & _ & H)]]%Hinv; [lia|lia|]. by eapply blk_end.
  - intros x Hx. destruct (blk_cover _ _ HB x Hx) as (q & o' & Hq & Hin).
    destruct (decide (q = p)) as [->|Hne].
    + rewrite Hp in Hq. simplify_eq. unfold in_block in *. rewrite pow2_S in Hin.
      destruct (decide (x < p + pow2 o)).
      * exists p, o. rewrite lookup_insert_ne, lookup_insert_eq by lia. split; [done|lia].
      * exists (p + pow2 o), o. rewrite lookup_insert_eq. split; [done|lia].
    + exists q, o'. split; [|done]. rewrite !lookup_insert_ne; [done|done|].
      intros <-. eapply (Hold _ _ (p + pow2 o)); [|exact Hq|apply blk_head|]; lia.
  - intros q1 o1 q2 o2 x H1 H2 Hx1 Hx2.
    apply Hinv in H1 as [[-> ->]|[[-> ->]|(N1 & _ & H1)]];
      apply Hinv in H2 as [[-> ->]|[[-> ->]|(N2 & _ & H2)]]; try done;
      try (unfold in_block in *; lia);
      try (exfalso; unfold in_block in Hx1, Hx2;
           first [eapply (Hold _ _ x N1 H1); [done|lia] | eapply (Hold _ _ x N2 H2); [done|lia]]).
    by eapply blk_disj.
Qed.

(** Merging two buddies of the same order keeps the partition. *)
Lemma blocks_merge N B p o :
  blocks_ok N B → B !! p = Some o → B !! (p + pow2 o) = Some o → (pow2 (S o) | p) →
  (S o < kMaxOrder)%nat → blocks_ok N (<[p := S o]> (delete (p + pow2 o) B)).
Proof.
  intros HB Hp Hb Hal Ho. pose proof (pow2_pos o) as Hpos.
  pose proof (blk_end _ _ HB _ _ Hb) as Hend. pose proof (blk_nonneg _ _ HB _ _ Hp) as Hnn.
  assert (Hinv : ∀ q o', <[p := S o]> (delete (p + pow2 o) B) !! q = Some o' →
    (q = p ∧ o' = S o) ∨ (q ≠ p ∧ q ≠ p + pow2 o ∧ B !! q = Some o')).
  { intros q o'. rewrite lookup_insert, lookup_delete. repeat case_decide; naive_solver. }
  assert (Hold : ∀ q o' x, q ≠ p → q ≠ p + pow2 o → B !! q = Some o' → in_block q o' x →
                           ¬ in_block p (S o) x).
  { intros q o' x Hn1 Hn2 Hq Hx Hx'. unfold in_block in Hx'. rewrite pow2_S in Hx'.
    destruct (decide (x < p + pow2 o)).
    - apply Hn1. eapply (blk_disj N B HB q o' p o x); eauto. unfold in_block. lia.
    - apply Hn2. eapply (blk_disj N B HB q o' (p + pow2 o) o x); eauto. unfold in_block. lia. }
  split.
  - intros q o' [[-> ->]|(_ & _ & H)]%Hinv; [lia|]. by eapply blk_nonneg.
  - intros q o' [[-> ->]|(_ & _ & H)]%Hinv; [lia|]. by eapply blk_order.
  - intros q o' [[-> ->]|(_ & _ & H)]%Hinv; [done|by eapply blk_align].
  - intros q o' [[-> ->]|(_ & _ & H)]%Hinv; [rewrite pow2_S; lia|]. by eapply blk_end.
  - intros x Hx. destruct (blk_cover _ _ HB x Hx) as (q & o' & Hq & Hin).
    destruct (decide (in_block p (S o) x)) as [Hin'|Hn]; [|].
    + exists p, (S o). by rewrite lookup_insert_eq.
    + exists q, o'. split; [|done].
      unfold in_block in *. rewrite pow2_S in Hn.
      assert (p ≠ q) by (intros <-; rewrite Hp in Hq; simplify_eq; lia).
      assert (p + pow2 o ≠ q) by (intros <-; rewrite Hb in Hq; simplify_eq; lia).
      by rewrite lookup_insert_ne, lookup_delete_ne.
  - intros q1 o1 q2 o2 x H1 H2 Hx1 Hx2.
    apply Hinv in H1 as [[-> ->]|(N1 & N1' & H1)];
      apply Hinv in H2 as [[-> ->]|(N2 & N2' & H2)]; [done| | |by eapply blk_disj].
    + by destruct (Hold _ _ _ N2 N2' H2 Hx2).
    + by destruct (Hold _ _ _ N1 N1' H1 Hx1).
Qed.

(** ** The buddy invariant

    [h] is the block in hand: unlinked from the free lists, or about to be
    linked, in the middle of an operation. *)

Lemma area_set_page p d s o : area (set_page p d s) o = area s o.
Proof. done. Qed.
Lemma area_set_pcp c pc s o : area (set_pcp c pc s) o = area s o.
Proof. done. Qed.
Lemma area_del p s o : area (buddy_list_del p s) o = filter (λ q, q ≠ p) (area s o).
Proof. unfold area. cbn. rewrite lookup_fmap. by destruct (g_free_areas s !! o). Qed.
Lemma area_add p o s o' :
  area (buddy_list_add p o s) o' = if decide (o = o') then p :: area s o else area s o'.
Proof. unfold area. cbn. rewrite lookup_insert. by case_decide. Qed.
Lemma page_at_set_page p d s q : page_at (set_page p d s) q = if decide (p = q) then d else page_at s q.
Proof. unfold page_at. cbn. rewrite !lookup_total_alt, lookup_insert. by case_decide. Qed.
Lemma page_at_set_pcp c pc s q : page_at (set_pcp c pc s) q = page_at s q.
Proof. done. Qed.
Lemma page_at_del p s q : page_at (buddy_list_del p s) q = page_at s q.
Proof. done. Qed.
Lemma page_at_add p o s q :
  page_at (buddy_list_add p o s) q =
  if decide (p = q) then mkPage (refcount (page_at s p)) Free o else page_at s q.
Proof. apply page_at_set_page. Qed.

Create Rewrite HintDb pmm.
#[export] Hint Rewrite area_set_page area_set_pcp area_del area_add page_at_set_page
  page_at_set_pcp page_at_del page_at_add : pmm.

Ltac pmm_simpl := autorewrite with pmm in *.

Record buddy_inv (h : option Z) (B : gmap Z nat) (s : pmm) : Prop := {
  inv_blocks : blocks_ok (g_num_pages s) B;
  inv_free p o : p ∈ area s o ↔ B !! p = Some o ∧ state (page_at s p) = Free ∧ h ≠ Some p;
  inv_order p o :
    B !! p = Some o → state (page_at s p) = Free → h ≠ Some p → order (page_at s p) = o;
  inv_nodup o : NoDup (area s o);
  inv_coal p o :
    (S o < kMaxOrder)%nat → p ∈ area s o → Z.lxor p (pow2 o) ∉ area s o;
}.

Lemma buddy_inv_set_pcp h B s c pc : buddy_inv h B s → buddy_inv h B (set_pcp c pc s).
Proof. by intros []; split. Qed.

(** The frames a buddy operation may hand out: those of free blocks and of the
    block in hand. *)
Definition avail (h : option Z) (B : gmap Z nat) (s : pmm) (x : Z) : Prop :=
  ∃ p o, B !! p = Some o ∧ (state (page_at s p) = Free ∨ h = Some p) ∧ in_block p o x.

Definition env (s : pmm) :=
  (g_pcp s, g_mem_base s, g_mem_size s, g_num_pages s, g_pcp_high_watermark s, g_pcp_batch_size s).

(** What every step of the allocator leaves alone: the blocks that are neither
    free nor in hand, the set of available frames, and the rest of the state. *)
Record buddy_step h B s h' B' s' : Prop := {
  bs_frame q o :
    B !! q = Some o → state (page_at s q) ≠ Free → h ≠ Some q →
    B' !! q = Some o ∧ page_at s' q = page_at s q ∧ h' ≠ Some q;
  bs_avail x : avail h' B' s' x ↔ avail h B s x;
  bs_env : env s' = env s;
}.

Lemma buddy_step_refl h B s : buddy_step h B s h B s.
Proof. by split. Qed.

Lemma buddy_step_trans h1 B1 s1 h2 B2 s2 h3 B3 s3 :
  buddy_step h1 B1 s1 h2 B2 s2 → buddy_step h2 B2 s2 h3 B3 s3 → buddy_step h1 B1 s1 h3 B3 s3.
Proof.
  intros [F1 A1 E1] [F2 A2 E2]. split; [|intros x; by rewrite A2|by rewrite E2].
  intros q o Hq Hs Hh. destruct (F1 q o Hq Hs Hh) as (Hq2 & Hp2 & Hh2).
  destruct (F2 q o Hq2) as (Hq3 & Hp3 & Hh3); [by rewrite Hp2|done|].
  by rewrite Hp3.
Qed.

Lemma env_num_pages s s' : env s' = env s → g_num_pages s' = g_num_pages s.
Proof. unfold env. congruence. Qed.
Lemma env_pcp s s' : env s' = env s → g_pcp s' = g_pcp s.
Proof. unfold env. congruence. Qed.

Section buddy.
Context (B : gmap Z nat).

Lemma buddy_take s p o :
  buddy_inv None B s → p ∈ area s o →
  B !! p = Some o ∧ buddy_inv (Some p) B (buddy_list_del p s) ∧
  buddy_step None B s (Some p) B (buddy_list_del p s).
Proof.
  intros Hinv Hin. pose proof (proj1 (inv_free _ _ _ Hinv p o) Hin) as (Hp & Hs & _).
  split_and!; [done| |].
  - split.
    + apply Hinv.
    + intros q o'. rewrite area_del, list_elem_of_filter, page_at_del, (inv_free _ _ _ Hinv).
      split; [|intros (? & ? & Hne); split; [by intros ->|done]].
      intros (Hne & ? & ? & _). split_and!; [done..|]. by intros [= ->].
    + intros q o' Hq Hq' _. rewrite page_at_del in *. by apply (inv_order _ _ _ Hinv).
    + intros o'. rewrite area_del. apply NoDup_filter, Hinv.
    + intros q o' Ho. rewrite !area_del, !list_elem_of_filter. intros [_ Hq] [_ Hq'].
      exact (inv_coal _ _ _ Hinv q o' Ho Hq Hq').
  - split; [| |done].
    + intros q o' Hq Hq' _. rewrite page_at_del. split_and!; [done..|]. by intros [= ->].
    + intros x. unfold avail. setoid_rewrite page_at_del. split.
      * intros (q & o' & Hq & [?|[= ->]] & Hx); eauto 10.
      * intros (q & o' & Hq & [?|?] & Hx); [eauto 10|done].
Qed.

Lemma buddy_split_step s p o :
  buddy_inv (Some p) B s → B !! p = Some (S o) →
  let B' := <[p + pow2 o := o]> (<[p := o]> B) in
  let s' := buddy_list_add (p + pow2 o) o s in
  buddy_inv (Some p) B' s' ∧ buddy_step (Some p) B s (Some p) B' s'.
Proof.
  intros Hinv Hp B' s'. pose proof (pow2_pos o) as Hpos.
  pose proof (inv_blocks _ _ _ Hinv) as HB.
  pose proof (blk_align _ _ HB _ _ Hp) as Hal.
  assert (Hup : B !! (p + pow2 o) = None).
  { destruct (B !! (p + pow2 o)) as [o'|] eqn:E; [|done].
    pose proof (blk_apart _ _ HB _ _ _ _ Hp E). rewrite pow2_S in *. lia. }
  assert (Hlk : ∀ q, q ≠ p → q ≠ p + pow2 o → B' !! q = B !! q).
  { intros q ??. unfold B'. by rewrite !lookup_insert_ne. }
  assert (HBp : B' !! p = Some o) by (unfold B'; rewrite lookup_insert_ne, lookup_insert_eq by lia; done).
  assert (HBu : B' !! (p + pow2 o) = Some o) by apply lookup_insert_eq.
  assert (Hnotin : (p ∉ area s o) ∧ (p + pow2 o ∉ area s o)).
  { rewrite !(inv_free _ _ _ Hinv). split; [tauto|]. rewrite Hup. by intros [? _]. }
  split; [split|split; [| |done]].
  - by apply blocks_split.
  - intros q o'. unfold s'. rewrite area_add, page_at_add. pose proof (inv_free _ _ _ Hinv q o') as Hf.
    destruct (decide (q = p + pow2 o)) as [->|Hne]; [|destruct (decide (q = p)) as [->|]].
    + rewrite HBu, (decide_True (P := p + pow2 o = _)) by done.
      case_decide as Ho; [subst o'|rewrite Hf, Hup].
      * rewrite elem_of_cons. split; [|auto]. intros _. split_and!; [done..|].
        intros [=]. lia.
      * split; [by intros [? _]|]. by intros [[= ?] _].
    + rewrite HBp. case_decide as Ho; [subst o'; rewrite elem_of_cons|]; rewrite Hf.
      * split; [intros [?|?]; [lia|tauto]|tauto].
      * tauto.
    + rewrite Hlk by done. rewrite (decide_False (P := _ = q)) by done.
      case_decide as Ho; [subst o'; rewrite elem_of_cons|]; rewrite Hf; tauto.
  - intros q o'. unfold s'. rewrite page_at_add. case_decide; subst; [by rewrite HBu; naive_solver|].
    destruct (decide (q = p)) as [->|]; [naive_solver|]. rewrite Hlk by done. apply Hinv.
  - intros o'. unfold s'. rewrite area_add. case_decide; subst; [|apply Hinv].
    apply NoDup_cons. split; [by destruct Hnotin|apply Hinv].
  - intros q o' Ho. unfold s'. rewrite area_add. case_decide; subst; [|by apply Hinv].
    assert (Hx : Z.lxor (p + pow2 o') (pow2 o') = p) by (by apply lxor_pow2_odd).
    intros [->|Hq]%elem_of_cons.
    + rewrite Hx, not_elem_of_cons. destruct Hnotin. split; [lia|done].
    + rewrite not_elem_of_cons. split; [|by apply Hinv].
      intros E. destruct Hnotin as [Hn _]. apply Hn.
      by rewrite <- Hx, <- E, lxor_pow2_invol.
  - intros q o' Hq Hs Hh. unfold s'. rewrite page_at_add.
    destruct (decide (p + pow2 o = q)) as [<-|]; [congruence|].
    rewrite Hlk by naive_solver. done.
  - intros x. unfold avail, s'. setoid_rewrite page_at_add. split.
    + intros (q & o' & Hq & Hs & Hx).
      destruct (decide (p + pow2 o = q)) as [<-|]; [|destruct (decide (q = p)) as [->|]].
      * exists p, (S o). split_and!; [done|auto|]. rewrite HBu in Hq. simplify_eq.
        unfold in_block in *. rewrite pow2_S. lia.
      * exists p, (S o). split_and!; [done|auto|]. rewrite HBp in Hq. simplify_eq.
        unfold in_block in *. rewrite pow2_S. lia.
      * rewrite Hlk in Hq by done. eauto 10.
    + intros (q & o' & Hq & Hs & Hx). destruct (decide (q = p)) as [->|].
      * rewrite Hp in Hq. simplify_eq. unfold in_block in *. rewrite pow2_S in Hx.
        destruct (decide (x < p + pow2 o)); [exists p, o|exists (p + pow2 o), o].
        -- split_and!; [done|auto|lia|lia].
        -- rewrite decide_True by done. split_and!; [done|auto|lia|lia].
      * exists q, o'. assert (q ≠ p + pow2 o) by congruence.
        rewrite Hlk, decide_False by done. auto.
Qed.
End buddy.

(** Merging the block in hand [p] with its buddy [b]: [q] is the lower of the two. *)
Section merge.
Context (B : gmap Z nat) (s : pmm) (p b q : Z) (o : nat).
Context (Hinv : buddy_inv (Some p) B s) (Ho : (S o < kMaxOrder)%nat) (Hal : (pow2 (S o) | q)).
Context (Hq : B !! q = Some o) (Hq' : B !! (q + pow2 o) = Some o).
Context (Hpair : ∀ r, r = q ∨ r = q + pow2 o ↔ r = p ∨ r = b).
Context (Hfree : state (page_at s b) = Free).

Let B' := <[q := S o]> (delete (q + pow2 o) B).

Lemma merge_lookup r :
  (r = q ∧ B' !! r = Some (S o)) ∨ (r = q + pow2 o ∧ B' !! r = None) ∨
  (r ≠ p ∧ r ≠ b ∧ r ≠ q ∧ B' !! r = B !! r).
Proof using Hpair.
  pose proof (pow2_pos o). pose proof (Hpair r). unfold B'.
  destruct (decide (r = q)) as [->|]; [left; split; [done|apply lookup_insert_eq]|].
  rewrite lookup_insert_ne by done.
  destruct (decide (r = q + pow2 o)) as [->|]; [right; left; split; [done|apply lookup_delete_eq]|].
  rewrite lookup_delete_ne by done. right. right. tauto.
Qed.

Lemma merge_avail r : r = q ∨ r = q + pow2 o → state (page_at s r) = Free ∨ Some p = Some r.
Proof using Hpair Hfree. intros [->| ->]%Hpair; auto. Qed.

Lemma merge_inv : buddy_inv (Some q) B' (buddy_list_del b s).
Proof using Hinv Ho Hal Hq Hq' Hpair Hfree.
  split.
  - apply blocks_merge; [apply Hinv|done..].
  - intros r o'. rewrite area_del, list_elem_of_filter, page_at_del, (inv_free _ _ _ Hinv).
    destruct (merge_lookup r) as [[-> Hr]|[[-> Hr]|(? & ? & ? & Hr)]].
    + pose proof (Hpair q). split; [intros (? & _ & _ & ?)|by intros (_ & _ & ?)].
      assert (q = p) by tauto. congruence.
    + pose proof (Hpair (q + pow2 o)). rewrite Hr.
      split; [intros (? & _ & _ & ?)|by intros (? & _)].
      assert (q + pow2 o = p) by tauto. congruence.
    + rewrite Hr. split; [intros (_ & ? & ? & _)|intros (? & ? & _)];
        split_and!; (done || congruence).
  - intros r o' Hr Hs Hh. rewrite page_at_del in *.
    destruct (merge_lookup r) as [[-> _]|[[-> E]|(? & ? & ? & E)]]; [done|congruence|].
    apply Hinv; congruence.
  - intros o'. rewrite area_del. apply NoDup_filter, Hinv.
  - intros r o' Ho'. rewrite !area_del, !list_elem_of_filter. intros [_ Hr] [_ Hr'].
    exact (inv_coal _ _ _ Hinv r o' Ho' Hr Hr').
Qed.

Lemma merge_step : buddy_step (Some p) B s (Some q) B' (buddy_list_del b s).
Proof using Hinv Ho Hq Hq' Hpair Hfree.
  pose proof (pow2_pos o) as Hpos. split; [| |done].
  - intros r o' Hr Hs Hh. rewrite page_at_del.
    assert (r ≠ p) by congruence. assert (r ≠ b) by congruence. pose proof (Hpair r).
    destruct (merge_lookup r) as [[-> _]|[[-> _]|(_ & _ & ? & ->)]]; [tauto|tauto|].
    split_and!; congruence.
  - intros x. unfold avail. setoid_rewrite page_at_del. split.
    + intros (r & o' & Hr & Hs & Hx).
      destruct (merge_lookup r) as [[-> E]|[[-> E]|(? & ? & ? & E)]]; rewrite E in Hr; simplify_eq.
      * unfold in_block in *. rewrite pow2_S in Hx. destruct (decide (x < q + pow2 o)).
        -- exists q, o. split_and!; [done|apply merge_avail; auto|lia|lia].
        -- exists (q + pow2 o), o. split_and!; [done|apply merge_avail; auto|lia|lia].
      * destruct Hs as [?|[= ?]]; [|congruence]. eauto 10.
    + intros (r & o' & Hr & Hs & Hx).
      destruct (merge_lookup r) as [[-> E]|[[-> E]|(? & ? & ? & E)]].
      * exists q, (S o). split_and!; [done|auto|]. simplify_eq.
        unfold in_block in *. rewrite pow2_S. lia.
      * exists q, (S o). split_and!; [apply lookup_insert_eq|auto|]. simplify_eq.
        unfold in_block in *. rewrite pow2_S. lia.
      * exists r, o'. rewrite E. destruct Hs as [?|[= ?]]; [|congruence]. auto.
Qed.
End merge.

Lemma buddy_of_Some s p o b :
  buddy_of s p o = Some b → b = Z.lxor p (pow2 o) ∧ b < g_num_pages s.
Proof. unfold buddy_of. case_match eqn:E; [done|]. apply Z.leb_gt in E. by intros [= <-]. Qed.

(** The buddy of the block in hand, found free at the same order, is a block
    of that order and the two merge. *)
Lemma buddy_merge_step B s p o b :
  buddy_inv (Some p) B s → B !! p = Some o → (S o < kMaxOrder)%nat →
  buddy_of s p o = Some b → state (page_at s b) = Free → order (page_at s b) = o →
  ∃ B', let p' := if b <? p then b else p in
    B' !! p' = Some (S o) ∧ buddy_inv (Some p') B' (buddy_list_del b s) ∧
    buddy_step (Some p) B s (Some p') B' (buddy_list_del b s).
Proof.
  intros Hinv Hp Ho [Eb Hlt]%buddy_of_Some Hst Hord. pose proof (pow2_pos o) as Hpos.
  pose proof (inv_blocks _ _ _ Hinv) as HB.
  destruct (buddy_pair o p) as (q & Hqal & Hq0 & Hq); [by eapply blk_align|by eapply blk_nonneg|].
  rewrite <- Eb in Hq.
  destruct (buddy_block _ _ HB p o Hp) as (o' & HBb & _); [by rewrite <- Eb|].
  rewrite <- Eb in HBb.
  assert (order (page_at s b) = o') by (apply Hinv; [done..|]; intros [= ->]; lia).
  assert (o' = o) as -> by congruence.
  assert (Hp' : (if b <? p then b else p) = q ∧ B !! q = Some o ∧ B !! (q + pow2 o) = Some o ∧
                (∀ r, r = q ∨ r = q + pow2 o ↔ r = p ∨ r = b)).
  { destruct (Z.ltb_spec b p); destruct Hq as [[-> ->]|[-> ->]];
      (split_and!; [lia|done|done|tauto]) || lia. }
  destruct Hp' as (-> & HBq & HBq' & Hpair).
  exists (<[q := S o]> (delete (q + pow2 o) B)).
  split_and!; [apply lookup_insert_eq|by apply (merge_inv B s p)|by apply merge_step].
Qed.

(** Putting the block in hand on the free list of its order. *)
Lemma buddy_release B s p o :
  buddy_inv (Some p) B s → B !! p = Some o →
  ((S o < kMaxOrder)%nat → Z.lxor p (pow2 o) ∉ area s o) →
  buddy_inv None B (buddy_list_add p o s) ∧
  buddy_step (Some p) B s None B (buddy_list_add p o s).
Proof.
  intros Hinv Hp Hco. split; [split|split; [| |done]].
  - apply Hinv.
  - intros q o'. rewrite area_add, page_at_add. pose proof (inv_free _ _ _ Hinv q o') as Hf.
    destruct (decide (p = q)) as [<-|Hne].
    + case_decide as E; [subst o'; rewrite elem_of_cons; naive_solver|].
      rewrite Hf. split; [tauto|]. naive_solver.
    + case_decide; subst; [rewrite elem_of_cons|]; rewrite Hf; naive_solver.
  - intros q o' Hq. rewrite page_at_add. case_decide; subst; [intros; simpl; congruence|].
    intros ? _. apply Hinv; congruence.
  - intros o'. rewrite area_add. case_decide; [|apply Hinv]. apply NoDup_cons.
    split; [|apply Hinv]. rewrite (inv_free _ _ _ Hinv). tauto.
  - intros q o' Ho. rewrite area_add. case_decide; [subst o'|by apply Hinv].
    rewrite not_elem_of_cons. intros [->|Hq]%elem_of_cons.
    + split; [apply lxor_pow2_ne|by apply Hco].
    + split; [|by apply Hinv]. intros <-. apply Hco in Ho. by rewrite lxor_pow2_invol in Ho.
  - intros q o' Hq Hs Hh. rewrite page_at_add, decide_False by congruence. done.
  - intros x. unfold avail. setoid_rewrite page_at_add. split.
    + intros (q & o' & Hq & [Hs|?] & Hx); [|done].
      exists q, o'. split_and!; [done| |done]. case_decide; subst; auto.
    + intros (q & o' & Hq & Hs & Hx). exists q, o'. split_and!; [done| |done].
      left. case_decide; [done|]. destruct Hs; [done|congruence].
Qed.

(** ** The allocator's operations on blocks *)

Lemma buddy_hold B s p o :
  buddy_inv None B s → B !! p = Some o → state (page_at s p) ≠ Free →
  buddy_inv (Some p) B s ∧ (∀ x, avail (Some p) B s x ↔ avail None B s x ∨ in_block p o x).
Proof.
  intros [H1 H2 H3 H4 H5] Hp Hs. split.
  - split; [done| |by eauto|done|done].
    intros q o'. rewrite H2. split; [|naive_solver]. intros (? & ? & _).
    split_and!; [done..|]. by intros [= ->].
  - intros x. unfold avail. split.
    + intros (q & o' & Hq & [?|[= ->]] & Hx); [eauto 10|]. rewrite Hp in Hq. simplify_eq. auto.
    + intros [(q & o' & Hq & [?|?] & Hx)|Hx]; [eauto 10|done|]. eauto 10.
Qed.

Lemma buddy_finish B s p o d :
  buddy_inv (Some p) B s → B !! p = Some o → state d ≠ Free →
  buddy_inv None B (set_page p d s) ∧
  (∀ x, avail None B (set_page p d s) x ↔ avail (Some p) B s x ∧ ¬ in_block p o x).
Proof.
  intros [H1 H2 H3 H4 H5] Hp Hs. split.
  - split; [done| | |done|done].
    + intros q o'. rewrite area_set_page, page_at_set_page, H2. case_decide as E; [subst q|naive_solver].
      split; [tauto|]. by intros (_ & ? & _).
    + intros q o' Hq. rewrite page_at_set_page. case_decide; [by subst|]. intros. apply H3; congruence.
  - intros x. unfold avail. setoid_rewrite page_at_set_page. split.
    + intros (q & o' & Hq & Hst & Hx). case_decide as E; [subst q; naive_solver|].
      destruct Hst as [Hst|?]; [|done]. split; [eauto 10|]. intros Hx'.
      apply E. by eapply (blk_disj _ _ H1 p o q o' x).
    + intros [(q & o' & Hq & Hst & Hx) Hn]. exists q, o'.
      case_decide; [subst; simplify_eq; tauto|]. destruct Hst as [?|[= ?]]; [auto|done].
Qed.

Lemma buddy_split_ok B s p cur o :
  buddy_inv (Some p) B s → B !! p = Some cur → (o ≤ cur)%nat →
  ∃ B', buddy_inv (Some p) B' (buddy_split p cur o s) ∧ B' !! p = Some o ∧
        buddy_step (Some p) B s (Some p) B' (buddy_split p cur o s).
Proof.
  revert B s. induction cur as [|cur IH]; intros B s Hinv Hp Ho; cbn [buddy_split].
  - assert (o = 0%nat) as -> by lia. eauto using buddy_step_refl.
  - destruct (Nat.ltb_spec o (S cur)) as [Hlt|Hge].
    + destruct (buddy_split_step B s p cur Hinv Hp) as [Hinv' Hst].
      destruct (IH _ _ Hinv') as (B' & HB' & Hp' & Hst').
      { pose proof (pow2_pos cur). rewrite lookup_insert_ne by lia. apply lookup_insert_eq. }
      { lia. }
      eauto using buddy_step_trans.
    + assert (o = S cur) as -> by lia. eauto using buddy_step_refl.
Qed.

(** What a successful allocation of the block [p] of order [o] guarantees. *)
Record alloc_post (B : gmap Z nat) (s : pmm) (p : Z) (o : nat) (B' : gmap Z nat) (s' : pmm) : Prop := {
  ap_inv : buddy_inv None B' s';
  ap_block : B' !! p = Some o;
  ap_desc : page_at s' p = mkPage 1 Allocated o;
  ap_frame q oq :
    B !! q = Some oq → state (page_at s q) ≠ Free →
    B' !! q = Some oq ∧ page_at s' q = page_at s q ∧ q ≠ p;
  ap_avail x : avail None B' s' x ↔ avail None B s x ∧ ¬ in_block p o x;
  ap_taken x : in_block p o x → avail None B s x;
  ap_env : env s' = env s;
}.

(** What freeing the block [p] of order [o] guarantees. *)
Record free_post (B : gmap Z nat) (s : pmm) (p : Z) (o : nat) (B' : gmap Z nat) (s' : pmm) : Prop := {
  fp_inv : buddy_inv None B' s';
  fp_frame q oq :
    B !! q = Some oq → state (page_at s q) ≠ Free → q ≠ p →
    B' !! q = Some oq ∧ page_at s' q = page_at s q;
  fp_avail x : avail None B' s' x ↔ avail None B s x ∨ in_block p o x;
  fp_env : env s' = env s;
}.

Lemma buddy_alloc_from_Some B s n cur o p s' :
  buddy_inv None B s → (o ≤ cur)%nat → buddy_alloc_from n cur o s = (Some p, s') →
  ∃ B', alloc_post B s p o B' s'.
Proof.
  revert cur. induction n as [|n IH]; intros cur Hinv Ho; cbn [buddy_alloc_from]; [done|].
  destruct (area s cur) as [|page l] eqn:Ea.
  { apply IH; [done|lia]. }
  intros [= <- <-].
  destruct (buddy_take B s page cur Hinv) as (Hp & Hinv1 & Hst1); [rewrite Ea; left|].
  destruct (buddy_split_ok B _ page cur o Hinv1 Hp Ho) as (B' & Hinv2 & Hp2 & Hst2).
  pose proof (buddy_step_trans _ _ _ _ _ _ _ _ _ Hst1 Hst2) as [HF HA HE].
  destruct (buddy_finish B' _ page o (mkPage 1 Allocated o) Hinv2 Hp2) as [Hinv3 HA3]; [done|].
  exists B'. split; [done|done| | | | |done].
  - by rewrite page_at_set_page, decide_True.
  - intros q oq Hq Hs. destruct (HF q oq Hq Hs) as (? & ? & ?); [done|].
    rewrite page_at_set_page, decide_False by congruence. split_and!; [done..|congruence].
  - intros x. by rewrite HA3, HA.
  - intros x Hx. rewrite <- HA. exists page, o. auto.
Qed.

Lemma buddy_alloc_from_None s n cur o s' :
  buddy_alloc_from n cur o s = (None, s') →
  s' = s ∧ ∀ o', (cur ≤ o' < cur + n)%nat → area s o' = [].
Proof.
  revert cur. induction n as [|n IH]; intros cur; cbn [buddy_alloc_from].
  - intros [= <-]. split; [done|]. intros. lia.
  - destruct (area s cur) eqn:Ea; [|done]. intros (-> & H)%IH. split; [done|].
    intros o' Ho. destruct (decide (o' = cur)) as [->|]; [done|]. apply H. lia.
Qed.

Lemma buddy_alloc_Some B s o p s' :
  buddy_inv None B s → buddy_alloc o s = (Some p, s') → ∃ B', alloc_post B s p o B' s'.
Proof. intros Hi. by apply buddy_alloc_from_Some. Qed.

(** Enough iterations of the coalescing loop end with a block whose buddy
    cannot be merged. *)
Lemma buddy_coalesce_ok n B s p o :
  buddy_inv (Some p) B s → B !! p = Some o → n = (kMaxOrder - 1 - o)%nat →
  let '(p', o', s') := buddy_coalesce n p o s in
  ∃ B', buddy_inv (Some p') B' s' ∧ B' !! p' = Some o' ∧ buddy_step (Some p) B s (Some p') B' s' ∧
        ((S o' < kMaxOrder)%nat → Z.lxor p' (pow2 o') ∉ area s' o').
Proof.
  revert B s p o. induction n as [|n IH]; intros B s p o Hinv Hp Hn; cbn [buddy_coalesce].
  - exists B. split_and!; [done..|apply buddy_step_refl|]. lia.
  - pose proof (inv_blocks _ _ _ Hinv) as HB.
    destruct (buddy_of s p o) as [b|] eqn:Eb.
    + destruct (bool_decide _ || bool_decide _) eqn:Ed.
      * exists B. split_and!; [done..|apply buddy_step_refl|]. intros _ Hin.
        apply buddy_of_Some in Eb as [-> _].
        pose proof (proj1 (inv_free _ _ _ Hinv _ _) Hin) as (Hb & Hs & Hne).
        apply orb_true_iff in Ed as [Hd%bool_decide_eq_true|Hd%bool_decide_eq_true]; [done|].
        apply Hd. by apply Hinv.
      * apply orb_false_iff in Ed as [H1%bool_decide_eq_false H2%bool_decide_eq_false].
        destruct (buddy_merge_step B s p o b) as (B' & Hp' & Hinv' & Hst);
          [done|done|lia|done|by destruct (decide (state (page_at s b) = Free))
          |by destruct (decide (order (page_at s b) = o))|].
        specialize (IH B' _ _ (S o) Hinv' Hp' ltac:(lia)).
        destruct (buddy_coalesce _ _ _ _) as [[p2 o2] s2].
        destruct IH as (B2 & ? & ? & ? & ?). eauto 10 using buddy_step_trans.
    + exists B. split_and!; [done..|apply buddy_step_refl|]. intros _ Hin.
      pose proof (proj1 (inv_free _ _ _ Hinv _ _) Hin) as (Hb & _).
      pose proof (blk_end _ _ HB _ _ Hb). pose proof (pow2_pos o).
      unfold buddy_of in Eb. case_match eqn:E; [|done]. apply Z.leb_le in E. lia.
Qed.

Lemma buddy_free_ok B s p o :
  buddy_inv None B s → B !! p = Some o → state (page_at s p) ≠ Free →
  ∃ B', free_post B s p o B' (buddy_free p o s).
Proof.
  intros Hinv Hp Hs. destruct (buddy_hold B s p o Hinv Hp Hs) as [Hinv1 HA1].
  pose proof (buddy_coalesce_ok _ B s p o Hinv1 Hp eq_refl) as Hc. unfold buddy_free.
  destruct (buddy_coalesce _ p o s) as [[p' o'] s1]. destruct Hc as (B' & Hi & Hp' & Hst & Hco).
  destruct (buddy_release B' s1 p' o' Hi Hp' Hco) as [Hi2 Hst2].
  pose proof (buddy_step_trans _ _ _ _ _ _ _ _ _ Hst Hst2) as [HF HA HE].
  exists B'. split; [done| | |done].
  - intros q oq Hq Hqs Hne. destruct (HF q oq Hq Hqs) as (? & ? & _); [congruence|]. auto.
  - intros x. by rewrite HA, HA1.
Qed.

(** The available frames, read off the free lists. *)
Definition free_page (s : pmm) (x : Z) : Prop := ∃ o p, p ∈ area s o ∧ in_block p o x.

Lemma avail_free_page B s x : buddy_inv None B s → avail None B s x ↔ free_page s x.
Proof.
  intros Hinv. unfold avail, free_page. split.
  - intros (p & o & Hp & [Hs|?] & Hx); [|done]. exists o, p. split; [|done].
    by apply (inv_free _ _ _ Hinv).
  - intros (o & p & (? & ? & _)%(inv_free _ _ _ Hinv) & Hx). eauto 10.
Qed.

Lemma area_order B h s o p : buddy_inv h B s → p ∈ area s o → (o < kMaxOrder)%nat.
Proof. intros Hinv (? & _)%(inv_free _ _ _ Hinv). by eapply blk_order; [apply Hinv|]. Qed.

(** ** Per-CPU caches *)

Record pcp_ok (B : gmap Z nat) (s : pmm) : Prop := {
  pcp_count c : count (pcp_at s c) = Z.of_nat (length (free_list (pcp_at s c)));
  pcp_cached c p :
    p ∈ free_list (pcp_at s c) → B !! p = Some 0%nat ∧ state (page_at s p) = PcpCached;
  pcp_nodup c : NoDup (free_list (pcp_at s c));
  pcp_disj c c' p : p ∈ free_list (pcp_at s c) → p ∈ free_list (pcp_at s c') → c = c';
}.

(** The invariant of the whole manager. *)
Record pmm_wf (B : gmap Z nat) (s : pmm) : Prop := {
  wf_buddy : buddy_inv None B s;
  wf_pcp : pcp_ok B s;
  wf_num : 0 ≤ g_num_pages s < 2 ^ 32 - 1;
}.

Lemma pcp_at_set c pc s c' : pcp_at (set_pcp c pc s) c' = if decide (c = c') then pc else pcp_at s c'.
Proof. unfold pcp_at. cbn. rewrite !lookup_total_alt, lookup_insert. by case_decide. Qed.
Lemma pcp_at_set_page p d s c : pcp_at (set_page p d s) c = pcp_at s c.
Proof. done. Qed.
Lemma pcp_at_eq s s' c : g_pcp s' = g_pcp s → pcp_at s' c = pcp_at s c.
Proof. unfold pcp_at. by intros ->. Qed.

(** A cache holds at most as many pages as there are frames. *)
Lemma pcp_length B s c :
  pmm_wf B s → Z.of_nat (length (free_list (pcp_at s c))) ≤ g_num_pages s.
Proof.
  intros [Hb Hp Hn].
  assert (Hs : free_list (pcp_at s c) ⊆+ seqZ 0 (g_num_pages s)).
  { apply NoDup_submseteq; [apply Hp|]. intros p [Hin _]%(pcp_cached _ _ Hp).
    pose proof (inv_blocks _ _ _ Hb) as HB. apply elem_of_seqZ.
    pose proof (blk_end _ _ HB _ _ Hin). pose proof (blk_nonneg _ _ HB _ _ Hin).
    change (pow2 0) with 1 in *. lia. }
  apply submseteq_length in Hs. rewrite length_seqZ in Hs. lia.
Qed.

Lemma pcp_ok_frame B s B' s' :
  pcp_ok B s → g_pcp s' = g_pcp s →
  (∀ c p, p ∈ free_list (pcp_at s c) → B !! p = Some 0%nat → state (page_at s p) = PcpCached →
          B' !! p = Some 0%nat ∧ page_at s' p = page_at s p) →
  pcp_ok B' s'.
Proof.
  intros [H1 H2 H3 H4] He Hf.
  split; intros *; rewrite ?(pcp_at_eq s s') by done; eauto.
  intros Hin. destruct (H2 c p Hin) as [Hb Hs]. destruct (Hf c p Hin Hb Hs) as [? ->]. auto.
Qed.

Lemma pcp_ok_push B s cpu p :
  pcp_ok B s → B !! p = Some 0%nat → state (page_at s p) = PcpCached →
  (∀ c, p ∉ free_list (pcp_at s c)) →
  Z.of_nat (length (free_list (pcp_at s cpu))) < 2 ^ 32 - 1 →
  pcp_ok B (pcp_push cpu p s).
Proof.
  intros [H1 H2 H3 H4] Hb Hs Hn Hl. unfold pcp_push.
  split; intros *; rewrite ?pcp_at_set, ?page_at_set_pcp.
  - case_decide; [subst c|apply H1]. cbn [count free_list]. rewrite H1, wrap_small; cbn [length]; lia.
  - case_decide; [|apply H2]. cbn [free_list]. intros [->|?]%elem_of_cons; eauto.
  - case_decide; [subst c|apply H3]. cbn [free_list]. apply NoDup_cons. auto.
  - case_decide; case_decide; cbn [free_list]; subst; try done; try (by apply H4);
      intros Hi Hi'; rewrite ?elem_of_cons in *;
      destruct_or?; subst; try (by eapply H4); exfalso; by eapply Hn.
Qed.

Lemma pcp_ok_pop B s cpu p rest :
  pcp_ok B s → free_list (pcp_at s cpu) = p :: rest →
  Z.of_nat (length (free_list (pcp_at s cpu))) < 2 ^ 32 →
  let s' := set_pcp cpu (mkPcp rest (u32 (count (pcp_at s cpu) - 1))) s in
  pcp_ok B s' ∧ (∀ c, p ∉ free_list (pcp_at s' c)) ∧
  (∀ c x, x ∈ free_list (pcp_at s c) ↔ x ∈ free_list (pcp_at s' c) ∨ (c = cpu ∧ x = p)).
Proof.
  intros [H1 H2 H3 H4] Hl Hlen s'.
  pose proof (H3 cpu) as Hnd. rewrite Hl in Hnd. apply NoDup_cons in Hnd as [Hnp Hnd].
  assert (Hsub : ∀ c x, x ∈ free_list (pcp_at s' c) → x ∈ free_list (pcp_at s c)).
  { intros c x. unfold s'. rewrite pcp_at_set. case_decide; [subst c|done]. cbn. rewrite Hl.
    by right. }
  split_and!; [split|..].
  - intros c. unfold s'. rewrite pcp_at_set. case_decide; [subst c|apply H1]. cbn [count free_list].
    rewrite H1, Hl in *. cbn [length] in *. rewrite wrap_small; lia.
  - intros c x Hx%Hsub. by apply (H2 c).
  - intros c. unfold s'. rewrite pcp_at_set. by case_decide.
  - intros c c' x Hx%Hsub Hx'%Hsub. by eapply H4.
  - intros c. unfold s'. rewrite pcp_at_set. case_decide as E; [done|]. intros Hin. apply E.
    eapply H4; [|exact Hin]. rewrite Hl. left.
  - intros c x. unfold s'. rewrite pcp_at_set. case_decide as E; [subst c|].
    + rewrite Hl, elem_of_cons. cbn. naive_solver.
    + split; [auto|]. intros [?|[-> ->]]; done.
Qed.

(** The frames that can still be handed out, free or cached, and the blocks a
    client holds. *)
Definition pool (s : pmm) (x : Z) : Prop := free_page s x ∨ ∃ c, x ∈ free_list (pcp_at s c).

Definition owned (B : gmap Z nat) (s : pmm) (q : Z) (o : nat) : Prop :=
  B !! q = Some o ∧ (state (page_at s q) = Allocated ∨ state (page_at s q) = Slab).

Definition params (s : pmm) :=
  (g_mem_base s, g_mem_size s, g_num_pages s, g_pcp_high_watermark s, g_pcp_batch_size s).

Record pool_step (B : gmap Z nat) (s : pmm) (B' : gmap Z nat) (s' : pmm) : Prop := {
  ps_owned q o : owned B s q o → B' !! q = Some o ∧ page_at s' q = page_at s q;
  ps_pool x : pool s' x ↔ pool s x;
  ps_params : params s' = params s;
}.

Lemma pool_step_refl B s : pool_step B s B s.
Proof. split; [|done|done]. by intros q o [? _]. Qed.

Lemma pool_step_trans B1 s1 B2 s2 B3 s3 :
  pool_step B1 s1 B2 s2 → pool_step B2 s2 B3 s3 → pool_step B1 s1 B3 s3.
Proof.
  intros [O1 P1 E1] [O2 P2 E2]. split; [|intros x; by rewrite P2|by rewrite E2].
  intros q o Hq. destruct (O1 q o Hq) as [? Hd].
  destruct (O2 q o) as [? Hd2]; [split; [done|]; rewrite Hd; apply Hq|]. by rewrite Hd2.
Qed.

Lemma owned_not_free B s q o : owned B s q o → state (page_at s q) ≠ Free.
Proof. intros [_ [-> | ->]]; done. Qed.

Lemma owned_not_cached B s q o c : pcp_ok B s → owned B s q o → q ∉ free_list (pcp_at s c).
Proof. intros Hp [_ Hs] [_ Hc]%(pcp_cached _ _ Hp). rewrite Hc in Hs. by destruct Hs. Qed.

(** Changing the descriptor of a block that is not free to another that is not
    free does not concern the buddy lists. *)
Lemma buddy_inv_set_page B s p o d :
  buddy_inv None B s → B !! p = Some o → state (page_at s p) ≠ Free → state d ≠ Free →
  buddy_inv None B (set_page p d s) ∧ (∀ x, free_page (set_page p d s) x ↔ free_page s x).
Proof.
  intros Hi Hp Hs Hd. destruct (buddy_hold B s p o Hi Hp Hs) as [Hi' _].
  destruct (buddy_finish B s p o d Hi' Hp Hd) as [Hi2 _]. done.
Qed.

Lemma params_env s s' : env s' = env s → params s' = params s.
Proof. unfold env, params. congruence. Qed.

Lemma params_num s s' : params s' = params s → g_num_pages s' = g_num_pages s.
Proof. unfold params. congruence. Qed.

(** A frame of the page map that starts an order-0 block is just that frame. *)
Lemma in_block_0 p x : in_block p 0 x ↔ x = p.
Proof. unfold in_block. change (pow2 0) with 1. lia. Qed.

Lemma alloc_post_free_page B s p o B' s' :
  buddy_inv None B s → alloc_post B s p o B' s' →
  (∀ x, free_page s' x ↔ free_page s x ∧ ¬ in_block p o x) ∧ (∀ x, in_block p o x → free_page s x).
Proof.
  intros Hi Ha. split; intros x.
  - rewrite <- (avail_free_page B' s'), <- (avail_free_page B s); [apply Ha|done|apply Ha].
  - rewrite <- (avail_free_page B s) by done. apply Ha.
Qed.

Lemma free_post_free_page B s p o B' s' :
  buddy_inv None B s → free_post B s p o B' s' →
  ∀ x, free_page s' x ↔ free_page s x ∨ in_block p o x.
Proof.
  intros Hi Hf x. rewrite <- (avail_free_page B' s'), <- (avail_free_page B s); [apply Hf|done|apply Hf].
Qed.

(** A page that is free is on no cache and in no client's hands. *)
Lemma free_page_head B s x o :
  buddy_inv None B s → free_page s x → B !! x = Some o → state (page_at s x) = Free.
Proof.
  intros Hi (o' & p & (Hp & Hs & _)%(inv_free _ _ _ Hi) & Hx) Hbx.
  assert (p = x) as <-; [|done].
  eapply (blk_disj _ _ (inv_blocks _ _ _ Hi)); [done..|apply blk_head].
Qed.

(** One iteration of [refill_pcp]. *)
Lemma refill_step B s cpu p s1 :
  pmm_wf B s → buddy_alloc 0 s = (Some p, s1) →
  let s2 := pcp_push cpu p (set_state p PcpCached s1) in
  ∃ B', pmm_wf B' s2 ∧ pool_step B s B' s2 ∧ p ∈ free_list (pcp_at s2 cpu).
Proof.
  intros Hwf Ha s2. pose proof (wf_pcp _ _ Hwf) as Hp. pose proof (wf_buddy _ _ Hwf) as Hb.
  destruct (buddy_alloc_Some B s _ _ _ Hb Ha) as (B' & Hpost).
  destruct (alloc_post_free_page _ _ _ _ _ _ Hb Hpost) as [Hfp Hpf].
  destruct Hpost as [Hi Hbp Hd Hf _ _ He].
  destruct (buddy_inv_set_page B' s1 p 0 (mkPage (refcount (page_at s1 p)) PcpCached (order (page_at s1 p))))
    as [Hi2 Hfp2]; [done|done|by rewrite Hd|done|].
  fold (set_state p PcpCached s1) in Hi2, Hfp2.
  assert (Hpcp1 : ∀ c, pcp_at (set_state p PcpCached s1) c = pcp_at s c).
  { intros c. apply (pcp_at_eq s). by apply (env_pcp s s1). }
  assert (Hpn : ∀ c, p ∉ free_list (pcp_at s c)).
  { intros c [Hpb Hc]%(pcp_cached _ _ Hp).
    rewrite (free_page_head B s p 0 Hb) in Hc; [done|by apply Hpf, in_block_0|done]. }
  assert (Hok : pcp_ok B' (set_state p PcpCached s1)).
  { apply (pcp_ok_frame B s); [done|by apply (env_pcp s s1)|]. intros c q Hq Hbq Hsq.
    destruct (Hf q 0%nat Hbq) as (? & Hdq & Hne); [by rewrite Hsq|].
    unfold set_state. by rewrite page_at_set_page, decide_False. }
  assert (Hin2 : ∀ c x, x ∈ free_list (pcp_at s2 c) ↔ x ∈ free_list (pcp_at s c) ∨ (c = cpu ∧ x = p)).
  { intros c x. unfold s2, pcp_push. rewrite pcp_at_set, !Hpcp1. case_decide as E; [subst c|].
    - cbn [free_list]. rewrite elem_of_cons. naive_solver.
    - naive_solver. }
  exists B'. split_and!; [split|split|apply Hin2; auto].
  - by apply buddy_inv_set_pcp.
  - apply pcp_ok_push; [done|done| | |].
    + unfold set_state. by rewrite page_at_set_page, decide_True.
    + intros c. by rewrite Hpcp1.
    + rewrite Hpcp1. pose proof (pcp_length B s cpu Hwf). pose proof (wf_num _ _ Hwf). lia.
  - change (g_num_pages s2) with (g_num_pages s1). rewrite (env_num_pages s s1) by done. apply Hwf.
  - intros q o Hq. destruct (Hf q o) as (? & Hdq & Hne); [apply Hq|by eapply owned_not_free|].
    split; [done|]. change (page_at (set_state p PcpCached s1) q = page_at s q).
    unfold set_state. by rewrite page_at_set_page, decide_False.
  - intros x. unfold pool. setoid_rewrite Hin2. change (free_page s2 x) with (free_page s1 x).
    rewrite Hfp, in_block_0. destruct (decide (x = p)) as [->|]; [|naive_solver].
    split; [|naive_solver]. intros _. left. by apply Hpf, in_block_0.
  - exact (params_env s s1 He).
Qed.

(** One iteration of [drain_pcp]. *)
Lemma drain_step B s cpu p rest :
  pmm_wf B s → free_list (pcp_at s cpu) = p :: rest →
  let s1 := set_pcp cpu (mkPcp rest (u32 (count (pcp_at s cpu) - 1))) s in
  ∃ B', pmm_wf B' (buddy_free p 0 s1) ∧ pool_step B s B' (buddy_free p 0 s1).
Proof.
  intros Hwf Hl s1. pose proof (wf_pcp _ _ Hwf) as Hp. pose proof (wf_buddy _ _ Hwf) as Hb.
  destruct (pcp_ok_pop B s cpu p rest Hp Hl) as (Hok1 & Hpn & Hin).
  { pose proof (pcp_length B s cpu Hwf). pose proof (wf_num _ _ Hwf). lia. }
  fold s1 in Hok1, Hpn, Hin.
  destruct (pcp_cached _ _ Hp cpu p) as [Hbp Hsp]; [rewrite Hl; left|].
  assert (Hb1 : buddy_inv None B s1) by (by apply buddy_inv_set_pcp).
  destruct (buddy_free_ok B s1 p 0) as (B' & Hpost); [done..|by unfold s1; rewrite page_at_set_pcp, Hsp|].
  pose proof (free_post_free_page _ _ _ _ _ _ Hb1 Hpost) as Hfp.
  destruct Hpost as [Hi Hf _ He]. set (s2 := buddy_free p 0 s1) in *.
  assert (Hpe : ∀ c, pcp_at s2 c = pcp_at s1 c) by (intros; by apply pcp_at_eq, env_pcp).
  exists B'. split; split.
  - done.
  - apply (pcp_ok_frame B s1); [done|by apply env_pcp|]. intros c q Hq Hbq Hsq.
    apply Hf; [done|by rewrite Hsq|]. intros ->. by eapply Hpn.
  - rewrite (env_num_pages s1) by done. apply Hwf.
  - intros q o Hq. destruct (Hf q o) as [? Hd]; [apply Hq|by eapply owned_not_free| |auto].
    intros ->. destruct Hq as [_ Hq]. rewrite Hsp in Hq. by destruct Hq.
  - intros x. unfold pool. rewrite Hfp, in_block_0. setoid_rewrite Hpe. setoid_rewrite Hin.
    change (free_page s1 x) with (free_page s x). naive_solver.
  - exact (params_env s1 s2 He).
Qed.

Lemma refill_loop_ok n B s cpu :
  pmm_wf B s →
  ∃ B', pmm_wf B' (refill_loop n cpu s) ∧ pool_step B s B' (refill_loop n cpu s).
Proof.
  revert B s. induction n as [|n IH]; intros B s Hwf; cbn [refill_loop].
  { eauto using pool_step_refl. }
  destruct (buddy_alloc 0 s) as [[p|] s1] eqn:E.
  - destruct (refill_step B s cpu p s1 Hwf E) as (B1 & Hwf1 & Hst & _).
    destruct (IH _ _ Hwf1) as (B2 & ? & ?). eauto using pool_step_trans.
  - apply buddy_alloc_from_None in E as [-> _]. eauto using pool_step_refl.
Qed.

Lemma drain_loop_ok n B s cpu :
  pmm_wf B s →
  ∃ B', pmm_wf B' (drain_loop n cpu s) ∧ pool_step B s B' (drain_loop n cpu s).
Proof.
  revert B s. induction n as [|n IH]; intros B s Hwf; cbn [drain_loop].
  { eauto using pool_step_refl. }
  destruct (free_list (pcp_at s cpu)) as [|p rest] eqn:E; [eauto using pool_step_refl|].
  destruct (drain_step B s cpu p rest Hwf E) as (B1 & Hwf1 & Hst).
  destruct (IH _ _ Hwf1) as (B2 & ? & ?). eauto using pool_step_trans.
Qed.

(** A refill of a nonempty batch leaves the cache empty only when the buddy
    system has no frame left. *)
Lemma refill_loop_nonempty n B s cpu :
  pmm_wf B s → (0 < n)%nat → free_list (pcp_at (refill_loop n cpu s) cpu) = [] →
  ∀ x, ¬ free_page s x.
Proof.
  intros Hwf Hn. destruct n as [|n]; [lia|]. cbn [refill_loop].
  destruct (buddy_alloc 0 s) as [[p|] s1] eqn:E.
  - destruct (refill_step B s cpu p s1 Hwf E) as (B1 & Hwf1 & _ & Hin).
    assert (Hmono : ∀ m B s, pmm_wf B s → p ∈ free_list (pcp_at s cpu) →
                             p ∈ free_list (pcp_at (refill_loop m cpu s) cpu)).
    { clear. induction m as [|m IH]; intros B s Hwf Hin; cbn [refill_loop]; [done|].
      destruct (buddy_alloc 0 s) as [[q|] s1] eqn:E.
      - destruct (refill_step B s cpu q s1 Hwf E) as (B1 & Hwf1 & _ & _).
        eapply IH; [exact Hwf1|]. unfold pcp_push. rewrite pcp_at_set, decide_True by done.
        right. unfold set_state. rewrite pcp_at_set_page.
        destruct (buddy_alloc_Some B s _ _ _ (wf_buddy _ _ Hwf) E) as (B' & Hpost).
        by rewrite (pcp_at_eq s s1) by apply env_pcp, Hpost.
      - by apply buddy_alloc_from_None in E as [-> _]. }
    intros He. pose proof (Hmono n _ _ Hwf1 Hin) as Hp. rewrite He in Hp. by apply elem_of_nil in Hp.
  - intros _ x (o & p & Hin & _). apply buddy_alloc_from_None in E as [_ He].
    pose proof (area_order _ _ _ _ _ (wf_buddy _ _ Hwf) Hin).
    rewrite He in Hin by (unfold kMaxOrder in *; lia). by apply elem_of_nil in Hin.
Qed.

(** ** The public operations *)

Lemma pmm_alloc_pages_Some B s o p s' :
  pmm_wf B s → pmm_alloc_pages o s = (Some p, s') →
  ∃ B', pmm_wf B' s' ∧ alloc_post B s p o B' s' ∧
        (∀ x, pool s' x ↔ pool s x ∧ ¬ in_block p o x).
Proof.
  intros Hwf. unfold pmm_alloc_pages. case_match; [done|]. intros Ha.
  pose proof (wf_pcp _ _ Hwf) as Hp. pose proof (wf_buddy _ _ Hwf) as Hb.
  destruct (buddy_alloc_Some B s _ _ _ Hb Ha) as (B' & Hpost).
  destruct (alloc_post_free_page _ _ _ _ _ _ Hb Hpost) as [Hfp Hpf].
  exists B'. split_and!; [split| |].
  - apply Hpost.
  - apply (pcp_ok_frame B s); [done|apply env_pcp, Hpost|]. intros c q _ Hbq Hsq.
    destruct (ap_frame _ _ _ _ _ _ Hpost q _ Hbq) as (? & ? & _); [by rewrite Hsq|auto].
  - rewrite (env_num_pages s) by apply Hpost. apply Hwf.
  - done.
  - intros x. unfold pool. rewrite Hfp.
    assert (Hpe : ∀ c, pcp_at s' c = pcp_at s c) by (intros; by apply pcp_at_eq, env_pcp, Hpost).
    setoid_rewrite Hpe.
    assert ((∃ c, x ∈ free_list (pcp_at s c)) → ¬ in_block p o x); [|naive_solver].
    intros [c [Hbx Hsx]%(pcp_cached _ _ Hp)] Hx%Hpf.
    by rewrite (free_page_head B s x _ Hb Hx Hbx) in Hsx.
Qed.

Lemma pmm_free_pages_ok B s p o :
  pmm_wf B s → owned B s p o →
  ∃ s' B', pmm_free_pages (Some p) o s = Ret s' ∧ pmm_wf B' s' ∧
    (∀ q oq, owned B s q oq → q ≠ p → B' !! q = Some oq ∧ page_at s' q = page_at s q) ∧
    (∀ x, pool s' x ↔ pool s x ∨ in_block p o x) ∧ params s' = params s.
Proof.
  intros Hwf Ho. pose proof (wf_pcp _ _ Hwf) as Hp. pose proof (wf_buddy _ _ Hwf) as Hb.
  assert (Hlt : (o < kMaxOrder)%nat) by (eapply blk_order; [apply Hb|apply Ho]).
  unfold pmm_free_pages. rewrite (proj2 (Nat.leb_gt _ _)) by done.
  destruct (buddy_free_ok B s p o Hb) as (B' & Hpost); [apply Ho|by eapply owned_not_free|].
  pose proof (free_post_free_page _ _ _ _ _ _ Hb Hpost) as Hfp.
  eexists _, B'. split_and!; [done|split| | |].
  - apply Hpost.
  - apply (pcp_ok_frame B s); [done|apply env_pcp, Hpost|]. intros c q Hin Hbq Hsq.
    apply Hpost; [done|by rewrite Hsq|]. intros ->. by eapply owned_not_cached.
  - rewrite (env_num_pages s) by apply Hpost. apply Hwf.
  - intros q oq Hq Hne. apply Hpost; [apply Hq|by eapply owned_not_free|done].
  - intros x. unfold pool. rewrite Hfp.
    assert (Hpe : ∀ c, pcp_at (buddy_free p o s) c = pcp_at s c)
      by (intros; by apply pcp_at_eq, env_pcp, Hpost).
    setoid_rewrite Hpe. naive_solver.
  - apply params_env, Hpost.
Qed.

(** The page [pmm_alloc_page] hands out. *)
Record page_post (B : gmap Z nat) (s : pmm) (p : Z) (B' : gmap Z nat) (s' : pmm) : Prop := {
  pp_wf : pmm_wf B' s';
  pp_owned : owned B' s' p 0;
  pp_desc : page_at s' p = mkPage 1 Allocated 0;
  pp_frame q o : owned B s q o → B' !! q = Some o ∧ page_at s' q = page_at s q ∧ q ≠ p;
  pp_pool x : pool s' x ↔ pool s x ∧ x ≠ p;
  pp_was : pool s p;
  pp_params : params s' = params s;
}.

(** Taking the head of a nonempty cache. *)
Lemma pcp_take B s cpu p rest :
  pmm_wf B s → free_list (pcp_at s cpu) = p :: rest →
  let s1 := set_pcp cpu (mkPcp rest (u32 (count (pcp_at s cpu) - 1))) s in
  page_post B s p B (set_page p (mkPage 1 Allocated 0) s1) ∧ 0 ≤ p < g_num_pages s.
Proof.
  intros Hwf Hl s1. pose proof (wf_pcp _ _ Hwf) as Hp. pose proof (wf_buddy _ _ Hwf) as Hb.
  destruct (pcp_ok_pop B s cpu p rest Hp Hl) as (Hok1 & Hpn & Hin).
  { pose proof (pcp_length B s cpu Hwf). pose proof (wf_num _ _ Hwf). lia. }
  fold s1 in Hok1, Hpn, Hin.
  destruct (pcp_cached _ _ Hp cpu p) as [Hbp Hsp]; [rewrite Hl; left|].
  assert (Hb1 : buddy_inv None B s1) by (by apply buddy_inv_set_pcp).
  destruct (buddy_inv_set_page B s1 p 0 (mkPage 1 Allocated 0)) as [Hi2 Hfp2]; [done|done| |done|].
  { unfold s1. by rewrite page_at_set_pcp, Hsp. }
  assert (Hnfree : ¬ free_page s p).
  { intros Hf. by rewrite (free_page_head B s p _ Hb Hf Hbp) in Hsp. }
  split; [split|].
  - split; [done| |apply Hwf]. apply (pcp_ok_frame B s1); [done|done|]. intros c q Hq Hbq _.
    split; [done|]. rewrite page_at_set_page, decide_False; [done|]. intros <-. by eapply Hpn.
  - split; [done|]. rewrite page_at_set_page, decide_True by done. by left.
  - by rewrite page_at_set_page, decide_True.
  - intros q o Hq. assert (q ≠ p).
    { intros ->. destruct Hq as [_ Hq]. rewrite Hsp in Hq. by destruct Hq. }
    rewrite page_at_set_page, decide_False by done. split_and!; [apply Hq|done|done].
  - intros x. unfold pool. rewrite Hfp2. change (free_page s1 x) with (free_page s x).
    setoid_rewrite Hin. setoid_rewrite pcp_at_set_page. split.
    + intros [Hf|[c Hc]]; split; eauto; intros ->; [done|by eapply Hpn].
    + intros [[Hf|(c & [Hc|[-> ->]])] Hne]; eauto. done.
  - right. exists cpu. rewrite Hl. left.
  - done.
  - pose proof (inv_blocks _ _ _ Hb) as HB. pose proof (blk_end _ _ HB _ _ Hbp).
    pose proof (blk_nonneg _ _ HB _ _ Hbp). change (pow2 0) with 1 in *. lia.
Qed.

Lemma pmm_alloc_page_ok B s cpu :
  pmm_wf B s → 0 < g_pcp_batch_size s →
  match pmm_alloc_page cpu s with
  | Ret (Some p, s') => ∃ B', page_post B s p B' s'
  | Ret (None, s') =>
      (∀ x, ¬ free_page s x) ∧ free_list (pcp_at s cpu) = [] ∧
      ∃ B', pmm_wf B' s' ∧ pool_step B s B' s'
  | _ => False
  end.
Proof.
  intros Hwf Hbatch. unfold pmm_alloc_page.
  set (s1 := if count (pcp_at s cpu) =? 0 then refill_pcp cpu s else s).
  assert (H1 : ∃ B1, pmm_wf B1 s1 ∧ pool_step B s B1 s1).
  { unfold s1. case_match; [by apply refill_loop_ok|]. eauto using pool_step_refl. }
  destruct H1 as (B1 & Hwf1 & Hst). rewrite (pcp_count _ _ (wf_pcp _ _ Hwf1)).
  destruct (free_list (pcp_at s1 cpu)) as [|p rest] eqn:El; cbn [length].
  - change (0 <? Z.of_nat 0) with false. cbn iota. split_and!; [| |eauto].
    + subst s1. destruct (Z.eqb_spec (count (pcp_at s cpu)) 0) as [E|E].
      * eapply refill_loop_nonempty; [done| |exact El]. lia.
      * rewrite (pcp_count _ _ (wf_pcp _ _ Hwf)), El in E. done.
    + subst s1. destruct (Z.eqb_spec (count (pcp_at s cpu)) 0) as [E|E]; [|done].
      rewrite (pcp_count _ _ (wf_pcp _ _ Hwf)) in E.
      by destruct (free_list (pcp_at s cpu)).
  - rewrite (proj2 (Z.ltb_lt 0 _)) by lia.
    destruct (pcp_take B1 s1 cpu p rest Hwf1 El) as [Hpost Hr].
    change (g_num_pages (set_pcp _ _ s1)) with (g_num_pages s1).
    rewrite (proj2 (Z.ltb_ge p 0)), (proj2 (Z.leb_gt _ p)) by lia. cbn [orb].
    rewrite (pcp_count _ _ (wf_pcp _ _ Hwf1)), El in Hpost. cbn [length] in Hpost.
    exists B1. destruct Hpost as [P1 P2 P3 P4 P5 P6 P7]. destruct Hst as [T1 T2 T3].
    split; [done|done|done| | | |exact (eq_trans P7 T3)].
    + intros q o Hq. destruct (T1 q o Hq) as [Hq1 Hd].
      destruct (P4 q o) as (? & Hd' & ?); [split; [done|rewrite Hd; apply Hq]|].
      by rewrite Hd'.
    + intros x. by rewrite P5, T2.
    + by apply T2.
Qed.

Lemma pmm_free_page_ok B s cpu p :
  pmm_wf B s → owned B s p 0 →
  ∃ s' B', pmm_free_page cpu (Some p) s = Ret s' ∧ pmm_wf B' s' ∧
    (∀ q oq, owned B s q oq → q ≠ p → B' !! q = Some oq ∧ page_at s' q = page_at s q) ∧
    (∀ x, pool s' x ↔ pool s x ∨ x = p) ∧ params s' = params s.
Proof.
  intros Hwf Ho. pose proof (wf_pcp _ _ Hwf) as Hp. pose proof (wf_buddy _ _ Hwf) as Hb.
  unfold pmm_free_page.
  set (s1 := set_page p (mkPage (refcount (page_at s p)) PcpCached 0) s).
  destruct (buddy_inv_set_page B s p 0 (mkPage (refcount (page_at s p)) PcpCached 0))
    as [Hi1 Hfp1]; [done|apply Ho|by eapply owned_not_free|done|]. fold s1 in Hi1, Hfp1.
  assert (Hpn : ∀ c, p ∉ free_list (pcp_at s1 c)) by (intros c; exact (owned_not_cached B s p 0 c Hp Ho)).
  assert (Hok1 : pcp_ok B s1).
  { apply (pcp_ok_frame B s); [done|done|]. intros c q Hq Hbq _. split; [done|]. unfold s1.
    rewrite page_at_set_page, decide_False; [done|]. intros <-. by eapply Hpn. }
  set (s2 := pcp_push cpu p s1).
  assert (Hin2 : ∀ c x, x ∈ free_list (pcp_at s2 c) ↔ x ∈ free_list (pcp_at s c) ∨ (c = cpu ∧ x = p)).
  { intros c x. unfold s2, pcp_push. rewrite pcp_at_set. case_decide as E; [subst c|].
    - cbn [free_list]. rewrite elem_of_cons. naive_solver.
    - naive_solver. }
  assert (Hwf2 : pmm_wf B s2).
  { split; [by apply buddy_inv_set_pcp| |apply Hwf]. apply pcp_ok_push; [done|apply Ho| |done|].
    - unfold s1. by rewrite page_at_set_page, decide_True.
    - change (pcp_at s1 cpu) with (pcp_at s cpu).
      pose proof (pcp_length B s cpu Hwf). pose proof (wf_num _ _ Hwf). lia. }
  set (s3 := if g_pcp_high_watermark s2 <=? count (pcp_at s2 cpu) then drain_pcp cpu s2 else s2).
  assert (H3 : ∃ B3, pmm_wf B3 s3 ∧ pool_step B s2 B3 s3).
  { unfold s3. case_match; [by apply drain_loop_ok|]. eauto using pool_step_refl. }
  destruct H3 as (B3 & Hwf3 & [T1 T2 T3]). exists s3, B3. split_and!; [done|done| | |done].
  - intros q oq Hq Hne.
    assert (Hd : page_at s2 q = page_at s q).
    { unfold s2, pcp_push, s1. by rewrite page_at_set_pcp, page_at_set_page, decide_False. }
    destruct (T1 q oq) as [? Hd3]; [split; [apply Hq|rewrite Hd; apply Hq]|]. by rewrite Hd3.
  - intros x. rewrite T2. unfold pool. setoid_rewrite Hin2.
    change (free_page s2 x) with (free_page s1 x). rewrite Hfp1. naive_solver.
Qed.
