(* ===== verification/PmmInit.v ===== *)
(** * PmmInit: booting the physical memory manager, and its clients

    Models [pmm_init] of [na/mm/pmm.cc]: the free gaps that memblock reports
    are cut into the largest aligned blocks that fit and linked on the buddy
    lists.  The second half is the contract the manager offers to the rest of
    the kernel: any sequence of allocations, frees and reference counts by
    clients that only release what they hold keeps the frames known at boot
    partitioned between the pool and the blocks held. *)

From S2P Require Import Prelude Bits Memblock Pmm.

(** ** Feeding a region *)

(** [for (o = kMaxOrder - 1; o >= 0; o--)]: the largest order whose block is
    aligned at [pfn] and ends at or before [end_pfn]; [order] keeps its initial
    value 0 when none is. *)
Fixpoint feed_order (n : nat) (pfn end_pfn : Z) : nat :=
  match n with
  | O => 0
  | S o =>
      let block_size := Z.shiftl 1 (Z.of_nat o) in
      if (Z.land pfn (block_size - 1) =? 0) && (u64 (pfn + block_size) <=? end_pfn)
      then o else feed_order o pfn end_pfn
  end.

Definition feed_block (pfn : Z) (o : nat) (s : pmm) : pmm :=
  let s := set_page pfn (mkPage 0 Free o) s in
  with_areas (λ m, <[o := pfn :: default [] (m !! o)]> m) s.

Definition feed_step (end_pfn : Z) (st : Z * Z * pmm) : Z * Z * pmm + Z * pmm :=
  let '(pfn, total, s) := st in
  if pfn <? end_pfn then
    let o := feed_order kMaxOrder pfn end_pfn in
    inl (u64 (pfn + Z.shiftl 1 (Z.of_nat o)), u64 (total + Z.shiftl 1 (Z.of_nat o)), feed_block pfn o s)
  else inr (total, s).

(** The callback [pmm_init] passes to [memblock_for_each_free]. *)
Definition feed_region (base0 : Z) (r : region) (st : Z * pmm) : outcome (Z * pmm) :=
  let start_pfn := u64 (rbase r - base0) / kPageSize in
  let end_pfn := u64 (start_pfn + rsize r / kPageSize) in
  match loop 64 (feed_step end_pfn) (start_pfn, st.1, st.2) with
  | inr st' => Ret st'
  | inl _ => OutOfFuel
  end.

Fixpoint feed_regions (base0 : Z) (l : list region) (st : Z * pmm) : outcome (Z * pmm) :=
  match l with
  | [] => Ret st
  | r :: l' => st ← feed_region base0 r st; feed_regions base0 l' st
  end.

Definition empty_pcps : gmap Z PerCpuCache :=
  list_to_map ((λ c, (c, mkPcp [] 0)) <$> seqZ 0 kMaxCpus).

Definition empty_areas : gmap nat (list Z) :=
  list_to_map ((λ o, (o, [])) <$> seq 0 kMaxOrder).

(** The state before the free regions are fed: every descriptor reserved. *)
Definition pmm_blank (mb : memblock) (num_pages : Z) : pmm :=
  let calc_batch := u32 (num_pages / (kMaxCpus * 1024)) in
  let batch := if 16 <? calc_batch then calc_batch else 16 in
  mkPmm empty_areas empty_pcps
        (list_to_map ((λ i, (i, mkPage 0 Allocated 0)) <$> seqZ 0 num_pages))
        (mem_base mb) (mem_size mb) num_pages (u32 (batch * 2)) batch.

(** [pmm_init]; [num_pages] is what [vmm_get_num_pages] returns.  The result
    carries the number of pages fed, which the code only prints. *)
Definition pmm_init (num_pages : Z) (mb : memblock) : outcome (Z * pmm * memblock) :=
  if mem_size mb =? 0 then Panic "pmm_init: memblock reports zero memory"
  else
    st ← feed_regions (mem_base mb) (memblock_for_each_free mb) (0, pmm_blank mb num_pages);
    Ret (st, memblock_retire mb).

(** ** Cutting a region into blocks *)

(** A run of single frames becomes one block. *)
Definition install (p : Z) (o : nat) (B : gmap Z nat) : gmap Z nat :=
  <[p := o]> (filter (λ kv, ¬ in_block p o kv.1) B).

Lemma install_lookup p o B q o' :
  install p o B !! q = Some o' ↔ (q = p ∧ o' = o) ∨ (¬ in_block p o q ∧ B !! q = Some o').
Proof.
  unfold install. rewrite lookup_insert_Some, map_lookup_filter_Some. cbn.
  pose proof (pow2_pos o). unfold in_block. split; [naive_solver|].
  intros [[-> ->]|[Hn Hq]]; [auto|]. right. split; [|auto]. intros <-. lia.
Qed.

Lemma blocks_install N B p o :
  blocks_ok N B → 0 ≤ p → (o < kMaxOrder)%nat → (pow2 o | p) → p + pow2 o ≤ N →
  (∀ x, in_block p o x → B !! x = Some 0%nat) → blocks_ok N (install p o B).
Proof.
  intros HB H0 Ho Hal Hend Hsingle. pose proof (pow2_pos o) as Hpos.
  assert (Hold : ∀ q o' x, ¬ in_block p o q → B !! q = Some o' → in_block q o' x → ¬ in_block p o x).
  { intros q o' x Hn Hq Hx Hx'. apply Hn. pose proof (Hsingle x Hx') as H1.
    by rewrite (blk_disj _ _ HB q o' x 0 x) by (done || by apply in_block_0). }
  split.
  - intros q o' [[-> ->]|[_ H]]%install_lookup; [done|by eapply blk_nonneg].
  - intros q o' [[-> ->]|[_ H]]%install_lookup; [done|by eapply blk_order].
  - intros q o' [[-> ->]|[_ H]]%install_lookup; [done|by eapply blk_align].
  - intros q o' [[-> ->]|[_ H]]%install_lookup; [done|by eapply blk_end].
  - intros x Hx. destruct (decide (in_block p o x)) as [Hin|Hn].
    + exists p, o. split; [|done]. apply install_lookup. auto.
    + destruct (blk_cover _ _ HB x Hx) as (q & o' & Hq & Hin). exists q, o'. split; [|done].
      apply install_lookup. right. split; [|done]. intros Hin'.
      assert (o' = 0%nat) as -> by (apply Hsingle in Hin'; congruence).
      apply in_block_0 in Hin as ->. done.
  - intros q1 o1 q2 o2 x H1 H2 Hx1 Hx2.
    apply install_lookup in H1 as [[-> ->]|[N1 H1]]; apply install_lookup in H2 as [[-> ->]|[N2 H2]];
      [done| | |by eapply blk_disj].
    + by destruct (Hold _ _ _ N2 H2 Hx2).
    + by destruct (Hold _ _ _ N1 H1 Hx1).
Qed.

(** The order chosen fits, and the next larger order does not. *)
Lemma feed_order_spec n pfn end_pfn :
  0 ≤ pfn < end_pfn → end_pfn < 2 ^ 62 → (0 < n ≤ kMaxOrder)%nat →
  let o := feed_order n pfn end_pfn in
  (o < n)%nat ∧ (pow2 o | pfn) ∧ pfn + pow2 o ≤ end_pfn ∧
  ((S o < n)%nat → (pow2 (S o) | pfn) → end_pfn < pfn + pow2 (S o)).
Proof.
  intros Hp He. induction n as [|n IH]; [lia|]. intros Hn. cbn [feed_order].
  rewrite Z.shiftl_1_l. fold (pow2 n).
  assert (Hb : 0 < pow2 n ≤ 2 ^ 10) by (split; [apply pow2_pos|apply Z.pow_le_mono_r; unfold kMaxOrder in *; lia]).
  rewrite (wrap_small _ (pfn + pow2 n)) by lia.
  replace (Z.land pfn (pow2 n - 1)) with (pfn mod pow2 n) by (symmetry; apply land_ones_mod; lia).
  destruct (Z.eqb_spec (pfn mod pow2 n) 0) as [Hz|Hz], (Z.leb_spec (pfn + pow2 n) end_pfn) as [Hl|Hl]; cbn [andb].
  { split_and!; [lia|by apply Z.mod_divide; [lia|]|done|lia]. }
  all: destruct n as [|n]; [change (pow2 0) with 1 in *; rewrite ?Z.mod_1_r in *; lia|].
  all: destruct IH as (H1 & H2 & H3 & H4); [unfold kMaxOrder in *; lia|];
    (split_and!; [lia|done|done|]); intros Ho Hd;
    (destruct (decide (feed_order (S n) pfn end_pfn = n)) as [E|]; [|apply H4; [lia|done]]);
    rewrite E in *; try lia; by apply Z.mod_divide in Hd; [|pose proof (pow2_pos (S n)); lia].
Qed.

(** While a region that starts at frame [lo] and ends at [hi] is fed and the
    next frame is [pfn]: everything from [pfn] on is still single reserved
    frames, the frames free are those of [F] (fed from earlier regions, which
    end before [lo]) and of [lo, pfn), and every block cut from this region is
    as large as its position allows. *)
Record feed_inv (s0 : pmm) (F : Z → Prop) (lo hi pfn : Z) (B : gmap Z nat) (s : pmm) : Prop := {
  fi_buddy : buddy_inv None B s;
  fi_blank x : pfn ≤ x < g_num_pages s → B !! x = Some 0%nat ∧ page_at s x = mkPage 0 Allocated 0;
  fi_free x : free_page s x ↔ F x ∨ lo ≤ x < pfn;
  fi_blocks q o :
    q ∈ area s o →
    q + pow2 o < lo ∨
    (q + pow2 o ≤ pfn ∧ ((S o < kMaxOrder)%nat → (pow2 (S o) | q) → hi < q + pow2 (S o)));
  fi_env : env s = env s0;
}.

Lemma feed_block_eq p o s :
  page_at s p = mkPage 0 Allocated 0 → feed_block p o s = buddy_list_add p o s.
Proof. intros E. unfold feed_block, buddy_list_add. by rewrite E. Qed.

Lemma feed_block_ok s0 F lo hi pfn B s o :
  feed_inv s0 F lo hi pfn B s → 0 ≤ lo ≤ pfn → hi ≤ g_num_pages s →
  (o < kMaxOrder)%nat → (pow2 o | pfn) → pfn + pow2 o ≤ hi →
  ((S o < kMaxOrder)%nat → (pow2 (S o) | pfn) → hi < pfn + pow2 (S o)) →
  feed_inv s0 F lo hi (pfn + pow2 o) (install pfn o B) (feed_block pfn o s).
Proof.
  intros [Hi Hblank Hfree Hblk Henv] Hlo Hhi Ho Hal Hend Hmax. pose proof (pow2_pos o) as Hpos.
  assert (Hsingle : ∀ x, in_block pfn o x → B !! x = Some 0%nat ∧ page_at s x = mkPage 0 Allocated 0).
  { intros x Hx. apply Hblank. unfold in_block in Hx. lia. }
  assert (Hi' : buddy_inv None (install pfn o B) s).
  { destruct Hi as [H1 H2 H3 H4 H5]. split; [| | |done|done].
    - apply blocks_install; [done|lia|done|done|lia|]. intros x Hx. by apply Hsingle.
    - intros q oq. rewrite H2, install_lookup.
      destruct (decide (in_block pfn o q)) as [Hin|Hn]; [|naive_solver (eauto using blk_head)].
      destruct (Hsingle q Hin) as [_ E]. rewrite E. cbn. intuition congruence.
    - intros q oq [[-> ->]|[Hn Hq]]%install_lookup Hs; [|by apply H3].
      destruct (Hsingle pfn) as [_ E]; [apply blk_head|]. by rewrite E in Hs. }
  destruct (Hsingle pfn) as [_ Epfn]; [apply blk_head|]. rewrite feed_block_eq by done.
  destruct (buddy_hold (install pfn o B) s pfn o) as [Hh HA]; [done|apply install_lookup; auto|by rewrite Epfn|].
  destruct (buddy_release (install pfn o B) s pfn o) as [Hr [_ HA' He]]; [done|apply install_lookup; auto| |].
  { intros HSo Hin. set (b := Z.lxor pfn (pow2 o)) in *.
    destruct (buddy_pair o pfn Hal) as (q & Hq & Hq0 & Hc); [lia|]. fold b in Hc.
    pose proof (proj1 (inv_free _ _ _ Hi' b o) Hin) as (_ & Hs & _).
    destruct Hc as [[-> Hb]|[Hb Hp]].
    - assert (hi < q + pow2 (S o)) by auto. destruct (Hblk _ _ Hin) as [?|[? _]]; lia.
    - destruct (Hblk _ _ Hin) as [?|[_ Hm]]; [lia|]. rewrite pow2_S in Hm. rewrite Hb in Hm.
      specialize (Hm HSo). rewrite pow2_S in Hq. specialize (Hm Hq). lia. }
  split.
  - done.
  - intros x Hx. change (g_num_pages _) with (g_num_pages s) in Hx.
    destruct (Hblank x) as [Hb Hd]; [lia|]. split.
    + apply install_lookup. right. split; [|done]. unfold in_block. lia.
    + rewrite page_at_add, decide_False by lia. done.
  - intros x. rewrite <- (avail_free_page (install pfn o B)), HA', HA by done.
    rewrite (avail_free_page (install pfn o B) s), Hfree by done. unfold in_block. intuition lia.
  - intros q oq. rewrite area_add. case_decide as E; [subst oq; intros [->|Hin]%elem_of_cons|intros Hin].
    + right. split; [lia|done].
    + destruct (Hblk _ _ Hin) as [?|[? ?]]; [auto|right; split; [lia|done]].
    + destruct (Hblk _ _ Hin) as [?|[? ?]]; [auto|right; split; [lia|done]].
  - by rewrite <- Henv.
Qed.

(** The loop feeds the whole region, whatever its length. *)
Lemma feed_loop_ok s0 F lo hi B s total :
  feed_inv s0 F lo hi lo B s → 0 ≤ lo ≤ hi → hi ≤ g_num_pages s0 → hi < 2 ^ 62 →
  ∃ total' s' B', loop 64 (feed_step hi) (lo, total, s) = inr (total', s') ∧
    feed_inv s0 F lo hi hi B' s'.
Proof.
  intros Hinv Hlo Hhi Hb.
  destruct (loop_total (feed_step hi)
    (λ st, lo ≤ st.1.1 ≤ hi ∧ ∃ B, feed_inv s0 F lo hi st.1.1 B st.2)
    (λ st, hi - st.1.1) (λ r, ∃ B, feed_inv s0 F lo hi hi B r.2)) with
    (k := 64%nat) (s := (lo, total, s)) as ([t s'] & E & B' & H).
  - intros [[pfn t] s1] [Hr (B1 & H1)]. cbn [fst snd] in *. cbn [feed_step].
    destruct (Z.ltb_spec pfn hi) as [Hlt|].
    2: { assert (pfn = hi) as -> by lia. eauto. }
    set (o := feed_order kMaxOrder pfn hi).
    destruct (feed_order_spec kMaxOrder pfn hi) as (Ho & Hal & Hend & Hmax);
      [lia|done|unfold kMaxOrder; lia|]. fold o in Ho, Hal, Hend, Hmax.
    rewrite Z.shiftl_1_l. fold (pow2 o). pose proof (pow2_pos o).
    rewrite (wrap_small _ (pfn + pow2 o)) by lia. cbn [fst snd]. split; [|lia]. split; [lia|].
    eexists. apply feed_block_ok; [done|lia| |done..].
    rewrite (env_num_pages s0) by apply H1. done.
  - split; [cbn; lia|]. by exists B.
  - cbn. change (2 ^ Z.of_nat 64) with (2 ^ 64). lia.
  - eauto.
Qed.

(** Moving on to the next region, which starts after the end of this one. *)
Lemma feed_inv_next s0 F lo hi lo' hi' B s :
  feed_inv s0 F lo hi hi B s → lo ≤ hi → hi < lo' →
  feed_inv s0 (λ x, F x ∨ lo ≤ x < hi) lo' hi' lo' B s.
Proof.
  intros [Hi Hblank Hfree Hblk Henv] Hlo Hlt. split; [done| | | |done].
  - intros x Hx. apply Hblank. lia.
  - intros x. rewrite Hfree. intuition lia.
  - intros q o Hin. left. destruct (Hblk _ _ Hin) as [?|[? _]]; lia.
Qed.

(** ** Feeding every region *)

Definition first_pfn (base0 : Z) (r : region) : Z := (rbase r - base0) / kPageSize.
Definition last_pfn (base0 : Z) (r : region) : Z := first_pfn base0 r + rsize r / kPageSize.

(** Ready for any region that starts at frame [e] or later. *)
Definition feed_ready (s0 : pmm) (F : Z → Prop) (e : Z) (B : gmap Z nat) (s : pmm) : Prop :=
  ∀ lo hi, e ≤ lo → feed_inv s0 F lo hi lo B s.

Lemma feed_inv_iff s0 F F' lo hi pfn B s :
  (∀ x, F x ↔ F' x) → feed_inv s0 F lo hi pfn B s → feed_inv s0 F' lo hi pfn B s.
Proof. intros HF []. split; try done. intros x. by rewrite <- HF. Qed.

Section regions.
Context (s0 : pmm) (base0 size0 : Z).
Context (Hbase : 0 ≤ base0) (Hsize : 0 ≤ size0) (Hlimit : base0 + size0 ≤ kPhysLimit).
Context (Hal : page_aligned base0) (HN : g_num_pages s0 = size0 / kPageSize).

Definition gap_ok (r : region) : Prop :=
  page_aligned (rbase r) ∧ base0 ≤ rbase r ∧ 0 ≤ rsize r ∧ rbase r + rsize r ≤ base0 + size0.

Lemma gap_pfns r :
  gap_ok r →
  base0 + kPageSize * first_pfn base0 r = rbase r ∧ 0 ≤ first_pfn base0 r ≤ last_pfn base0 r ∧
  last_pfn base0 r ≤ g_num_pages s0 ∧ g_num_pages s0 < 2 ^ 45 ∧
  base0 + kPageSize * last_pfn base0 r ≤ rbase r + rsize r.
Proof using Hbase Hlimit Hal HN.
  intros (Ha & Hb & Hs & He). unfold last_pfn, first_pfn, kPhysLimit, page_aligned, kPageSize in *.
  assert (Hm : (rbase r - base0) mod 4096 = 0) by (by rewrite Zminus_mod, Ha, Hal).
  pose proof (Z.div_mod (rbase r - base0) 4096). pose proof (Z.div_mod (rsize r) 4096).
  pose proof (Z.mod_pos_bound (rsize r) 4096). pose proof (Z.div_mod size0 4096).
  pose proof (Z.mod_pos_bound size0 4096). lia.
Qed.

Lemma feed_region_ok r F e B s total :
  gap_ok r → feed_ready s0 F e B s → e ≤ first_pfn base0 r →
  ∃ total' s' B', feed_region base0 r (total, s) = Ret (total', s') ∧
    feed_ready s0 (λ x, F x ∨ first_pfn base0 r ≤ x < last_pfn base0 r) (last_pfn base0 r + 1) B' s'.
Proof using Hbase Hsize Hlimit Hal HN.
  intros Hr Hready He. destruct (gap_pfns r Hr) as (H1 & H2 & H3 & H4 & H5).
  destruct Hr as (_ & Hb & Hs & Hend). unfold feed_region. unfold kPhysLimit in Hlimit.
  rewrite (wrap_small _ (rbase r - base0)) by lia. fold (first_pfn base0 r).
  rewrite (wrap_small _ (first_pfn base0 r + rsize r / kPageSize)) by (fold (last_pfn base0 r); lia).
  fold (last_pfn base0 r). cbn [fst snd].
  destruct (feed_loop_ok s0 F (first_pfn base0 r) (last_pfn base0 r) B s total)
    as (t' & s' & B' & -> & Hinv); [by apply Hready|lia|lia|lia|].
  exists t', s', B'. split; [done|]. intros lo hi Hlo. by eapply feed_inv_next; [|lia|lia].
Qed.

Lemma feed_regions_ok g lo F e B s total :
  separated lo g → Forall gap_ok g → feed_ready s0 F e B s → base0 + kPageSize * (e - 1) < lo →
  ∃ total' s' B' e', feed_regions base0 g (total, s) = Ret (total', s') ∧
    feed_ready s0 (λ x, F x ∨ ∃ r, r ∈ g ∧ first_pfn base0 r ≤ x < last_pfn base0 r) e' B' s'.
Proof using Hbase Hsize Hlimit Hal HN.
  revert lo F e B s total. induction g as [|r g IH]; intros lo F e B s total Hsep Hg Hready He.
  - exists total, s, B, e. split; [done|]. intros l h Hl. apply (feed_inv_iff _ F); [|by apply Hready].
    intros x. split; [auto|]. intros [?|(r & []%elem_of_nil & _)]. done.
  - cbn in Hsep. destruct Hsep as (Hlo & Hpos & Hsep). apply Forall_cons in Hg as [Hr Hg].
    destruct (gap_pfns r Hr) as (H1 & H2 & H3 & H4 & H5). unfold kPageSize in *.
    destruct (feed_region_ok r F e B s total Hr Hready ltac:(lia)) as (t1 & s1 & B1 & E1 & Hr1).
    destruct (IH _ _ _ _ s1 t1 Hsep Hg Hr1 ltac:(lia)) as (t2 & s2 & B2 & e2 & E2 & Hr2).
    exists t2, s2, B2, e2. split; [cbn [feed_regions]; by rewrite E1|].
    intros l h Hl. eapply feed_inv_iff; [|by apply Hr2]. intros x. cbv beta.
    setoid_rewrite elem_of_cons. naive_solver.
Qed.
End regions.

(** ** The blank state *)

Lemma list_to_map_const `{Countable K} {A} (d : A) (l : list K) (x : K) :
  (list_to_map ((λ i, (i, d)) <$> l) : gmap K A) !! x = if decide (x ∈ l) then Some d else None.
Proof.
  induction l as [|i l IH]; cbn.
  - rewrite decide_False; [apply lookup_empty|apply not_elem_of_nil].
  - rewrite lookup_insert, IH. destruct (decide (i = x)) as [->|Hne].
    + rewrite decide_True; [done|left].
    + destruct (decide (x ∈ l)); [rewrite decide_True by (by right)|rewrite decide_False]; [done..|].
      by intros [?|?]%elem_of_cons.
Qed.

Lemma empty_area o : default [] (empty_areas !! o) = [].
Proof. unfold empty_areas. rewrite list_to_map_const. by case_decide. Qed.

Lemma blank_pcp mb n c : pcp_at (pmm_blank mb n) c = mkPcp [] 0.
Proof.
  unfold pcp_at, pmm_blank, empty_pcps. cbn [g_pcp]. rewrite lookup_total_alt, list_to_map_const.
  by case_decide.
Qed.

Lemma blank_page mb n x : 0 ≤ x < n → page_at (pmm_blank mb n) x = mkPage 0 Allocated 0.
Proof.
  intros Hx. unfold page_at, pmm_blank. cbn [g_page_map]. rewrite lookup_total_alt, list_to_map_const.
  by rewrite decide_True by (apply elem_of_seqZ; lia).
Qed.

Definition blank_blocks (n : Z) : gmap Z nat := list_to_map ((λ i, (i, 0%nat)) <$> seqZ 0 n).

Lemma blank_blocks_lookup n x o : blank_blocks n !! x = Some o ↔ o = 0%nat ∧ 0 ≤ x < n.
Proof.
  unfold blank_blocks. rewrite list_to_map_const. case_decide as E; rewrite elem_of_seqZ in E.
  - split; [intros [= <-]; lia|by intros [-> _]].
  - split; [done|lia].
Qed.

Lemma blank_ready mb n : feed_ready (pmm_blank mb n) (λ _, False) 0 (blank_blocks n) (pmm_blank mb n).
Proof.
  intros lo hi Hlo. assert (Harea : ∀ o, area (pmm_blank mb n) o = []) by apply empty_area.
  split.
  - split.
    + split; intros *; rewrite ?blank_blocks_lookup.
      * lia.
      * unfold kMaxOrder. lia.
      * intros [-> _]. apply Z.divide_1_l.
      * intros [-> ?]. change (pow2 0) with 1. cbn [g_num_pages pmm_blank]. lia.
      * intros Hx. exists x, 0%nat. rewrite blank_blocks_lookup, in_block_0. done.
      * intros [-> _] [-> _]. rewrite !in_block_0. congruence.
    + intros p o. rewrite Harea, elem_of_nil, blank_blocks_lookup. split; [done|].
      intros ([-> Hp] & Hs & _). by rewrite blank_page in Hs.
    + intros p o [-> Hp]%blank_blocks_lookup. by rewrite blank_page.
    + intros o. rewrite Harea. constructor.
    + intros p o _. by rewrite Harea, elem_of_nil.
  - intros x Hx. cbn [g_num_pages pmm_blank] in Hx. rewrite blank_blocks_lookup, blank_page by lia.
    split; [split; [done|lia]|done].
  - intros x. unfold free_page. setoid_rewrite Harea. setoid_rewrite elem_of_nil.
    split; [naive_solver|]. intros [?|?]; [done|lia].
  - intros q o. by rewrite Harea, elem_of_nil.
  - done.
Qed.

(** ** The state after boot *)

(** What [pmm_init] relies on: a page-aligned RAM base and reservations inside
    RAM, with a page map of one descriptor per whole page of RAM. *)
Record boot_layout (mb : memblock) (num_pages : Z) : Prop := {
  bl_ok : mb_ok mb;
  bl_nonempty : 0 < mem_size mb;
  bl_base : page_aligned (mem_base mb);
  bl_inside : Forall (λ r, rbase r ≤ mem_end mb) (reserved mb);
  bl_pages : num_pages = mem_size mb / kPageSize;
  bl_few : num_pages < 2 ^ 32 - 1;
}.

(** Frame [x] is a whole page of RAM that no reservation touches. *)
Definition boot_free (mb : memblock) (num_pages x : Z) : Prop :=
  0 ≤ x < num_pages ∧ ¬ in_regions (reserved mb) (mem_base mb + kPageSize * x).

Section boot.
Context (mb : memblock) (N : Z) (Hbl : boot_layout mb N).

Lemma boot_gaps :
  separated (mem_base mb) (memblock_for_each_free mb) ∧
  (∀ x, in_regions (memblock_for_each_free mb) x ↔
        mem_base mb ≤ x < mem_end mb ∧ ¬ in_regions (reserved mb) x) ∧
  Forall (λ r, page_aligned (rbase r) ∧
               (page_aligned (rbase r + rsize r) ∨ rbase r + rsize r = mem_end mb))
    (memblock_for_each_free mb).
Proof using Hbl.
  destruct Hbl as [Hok ? Hal Hin _ _]. pose proof (mem_end_bounds mb Hok) as He.
  unfold memblock_for_each_free. rewrite mem_end_eq by done.
  destruct (free_gaps_ok (mem_base mb) (mem_end mb) (reserved mb)) as [H1 H2];
    [apply Hok|done|apply Hok|apply Hok|done|].
  split_and!; [done|done|]. apply free_gaps_aligned; [apply Hok|done|apply Hok|done].
Qed.

Lemma separated_pos lo g r : separated lo g → r ∈ g → 0 < rsize r.
Proof.
  revert lo. induction g as [|r' g IH]; intros lo; [by intros _ ?%elem_of_nil|].
  cbn. intros (_ & ? & ?) [->|?]%elem_of_cons; eauto.
Qed.

Lemma boot_gap_ok r : r ∈ memblock_for_each_free mb → gap_ok (mem_base mb) (mem_size mb) r.
Proof using Hbl.
  intros Hr. destruct boot_gaps as (Hsep & Hiff & Hal). rewrite Forall_forall in Hal.
  destruct (Hal r Hr) as [Ha _]. pose proof (separated_pos _ _ _ Hsep Hr) as Hpos.
  pose proof (proj1 (Hiff (rbase r))) as Hlo. pose proof (proj1 (Hiff (rbase r + rsize r - 1))) as Hhi.
  destruct Hlo as [Hlo _]; [exists r; split; [done|unfold in_region; lia]|].
  destruct Hhi as [Hhi _]; [exists r; split; [done|unfold in_region; lia]|].
  unfold gap_ok, mem_end in *. split_and!; [done|lia|lia|lia].
Qed.

(** The frames of the gaps are the frames that boot leaves free. *)
Lemma gap_frames x :
  (∃ r, r ∈ memblock_for_each_free mb ∧ first_pfn (mem_base mb) r ≤ x < last_pfn (mem_base mb) r) ↔
  boot_free mb N x.
Proof using Hbl.
  destruct boot_gaps as (_ & Hiff & Hal). rewrite Forall_forall in Hal.
  pose proof (bl_pages _ _ Hbl) as HN. pose proof (bl_ok _ _ Hbl) as Hok. pose proof (bl_base _ _ Hbl) as Hba.
  set (s0 := pmm_blank mb N).
  assert (Hpf := λ r Hr, gap_pfns s0 (mem_base mb) (mem_size mb) (mb_base _ Hok) (mb_limit _ Hok)
                           Hba HN r (boot_gap_ok r Hr)).
  unfold boot_free. split.
  - intros (r & Hr & Hx). destruct (Hpf r Hr) as (H1 & H2 & H3 & _ & H5).
    cbn [g_num_pages s0 pmm_blank] in H3. split; [lia|].
    apply Hiff. exists r. split; [done|]. unfold in_region, kPageSize in *. lia.
  - intros [Hx Hn]. destruct (proj2 (Hiff (mem_base mb + kPageSize * x))) as (r & Hr & Hin).
    { split; [|done]. unfold mem_end, kPageSize in *. pose proof (Z.div_mod (mem_size mb) 4096).
      pose proof (Z.mod_pos_bound (mem_size mb) 4096). lia. }
    exists r. split; [done|]. destruct (Hpf r Hr) as (H1 & _). destruct (Hal r Hr) as [Ha Hend].
    unfold in_region, last_pfn, page_aligned, mem_end, kPageSize in *.
    set (f := first_pfn (mem_base mb) r) in *. split; [lia|].
    pose proof (Z.div_mod (rsize r) 4096). pose proof (Z.mod_pos_bound (rsize r) 4096).
    destruct Hend as [Hend|Hend].
    + assert (rsize r mod 4096 = 0).
      { replace (rsize r) with (rbase r + rsize r - rbase r) by lia. by rewrite Zminus_mod, Hend, Ha. }
      lia.
    + pose proof (Z.div_mod (mem_size mb) 4096). pose proof (Z.mod_pos_bound (mem_size mb) 4096).
      lia.
Qed.

Lemma pmm_init_ok :
  ∃ total s B, pmm_init N mb = Ret (total, s, memblock_retire mb) ∧ pmm_wf B s ∧
    (∀ x, pool s x ↔ boot_free mb N x) ∧ params s = params (pmm_blank mb N).
Proof using Hbl.
  destruct boot_gaps as (Hsep & _ & _). pose proof (bl_ok _ _ Hbl) as Hok.
  pose proof (bl_nonempty _ _ Hbl). set (s0 := pmm_blank mb N).
  destruct (feed_regions_ok s0 (mem_base mb) (mem_size mb)) with
    (g := memblock_for_each_free mb) (lo := mem_base mb) (F := λ _ : Z, False) (e := 0)
    (B := blank_blocks N) (s := s0) (total := 0) as (t & s & B & e & E & Hr);
    [apply Hok|lia|apply Hok|apply Hbl|apply Hbl|done| |apply blank_ready|unfold kPageSize; lia|].
  { apply Forall_forall. intros r. apply boot_gap_ok. }
  specialize (Hr e e ltac:(lia)). destruct Hr as [Hi _ Hfree _ Henv].
  assert (Hpcp : ∀ c, pcp_at s c = mkPcp [] 0).
  { intros c. rewrite (pcp_at_eq s0) by by apply env_pcp. apply blank_pcp. }
  exists t, s, B. unfold pmm_init. rewrite (proj2 (Z.eqb_neq _ 0)) by lia.
  fold s0. rewrite E. split_and!; [done|split; [done| |]| |].
  - split; intros *; rewrite !Hpcp; cbn; rewrite ?elem_of_nil; try done. constructor.
  - rewrite (env_num_pages s0) by done. cbn [g_num_pages s0 pmm_blank].
    pose proof (bl_pages _ _ Hbl). pose proof (bl_few _ _ Hbl).
    assert (0 ≤ mem_size mb / kPageSize) by (apply Z.div_pos; unfold kPageSize; lia). lia.
  - intros x. unfold pool. setoid_rewrite Hpcp. cbn. setoid_rewrite elem_of_nil.
    rewrite Hfree, <- gap_frames. split; [|auto]. intros [[[[]|?]|?]|[? []]]; [done|lia].
  - by apply params_env.
Qed.
End boot.

(** ** Clients of the manager

    The kernel's other components allocate, share and release blocks in any
    order.  [held] records the blocks in their hands, with the number of
    references taken; an operation is allowed when the caller holds the block
    it names. *)

Record client := mkClient { cl_pmm : pmm; cl_held : gmap Z (nat * Z) }.

Inductive pmm_op :=
| AllocPage (cpu : Z)
| FreePage (cpu p : Z)
| AllocPages (o : nat)
| FreePages (p : Z) (o : nat)
| Incref (p : Z)
| Decref (cpu p : Z).

Definition allowed (op : pmm_op) (c : client) : bool :=
  match op with
  | AllocPage _ | AllocPages _ => true
  | FreePage _ p => bool_decide (cl_held c !! p = Some (0%nat, 1))
  | FreePages p o => bool_decide (cl_held c !! p = Some (o, 1))
  | Incref p => match cl_held c !! p with Some (_, n) => n <? 2 ^ 32 - 1 | None => false end
  | Decref _ p => bool_decide (is_Some (cl_held c !! p))
  end.

Definition client_exec (op : pmm_op) (c : client) : outcome client :=
  let '(mkClient s held) := c in
  match op with
  | AllocPage cpu =>
      '(r, s') ← pmm_alloc_page cpu s;
      Ret (mkClient s' (match r with Some p => <[p := (0%nat, 1)]> held | None => held end))
  | FreePage cpu p => s' ← pmm_free_page cpu (Some p) s; Ret (mkClient s' (delete p held))
  | AllocPages o =>
      let '(r, s') := pmm_alloc_pages o s in
      Ret (mkClient s' (match r with Some p => <[p := (o, 1)]> held | None => held end))
  | FreePages p o => s' ← pmm_free_pages (Some p) o s; Ret (mkClient s' (delete p held))
  | Incref p =>
      Ret (mkClient (page_incref p s)
             (match held !! p with Some (o, n) => <[p := (o, n + 1)]> held | None => held end))
  | Decref cpu p =>
      s' ← page_decref cpu p s;
      Ret (mkClient s' (match held !! p with
                        | Some (o, n) => if n =? 1 then delete p held else <[p := (o, n - 1)]> held
                        | None => held end))
  end.

Inductive reachable (c0 : client) : client → Prop :=
| reach_refl : reachable c0 c0
| reach_step op c c' :
    reachable c0 c → allowed op c = true → client_exec op c = Ret c' → reachable c0 c'.

(** Frame [x] belongs to a block some client holds. *)
Definition in_held (held : gmap Z (nat * Z)) (x : Z) : Prop :=
  ∃ p o n, held !! p = Some (o, n) ∧ in_block p o x.

Record client_inv (F : Z → Prop) (B : gmap Z nat) (s : pmm) (held : gmap Z (nat * Z)) : Prop := {
  ci_wf : pmm_wf B s;
  ci_batch : 0 < g_pcp_batch_size s;
  ci_held p o n : held !! p = Some (o, n) → B !! p = Some o ∧ page_at s p = mkPage n Allocated o ∧ 0 < n < 2 ^ 32;
  ci_frames x : F x ↔ pool s x ∨ in_held held x;
  ci_apart x : pool s x → ¬ in_held held x;
}.

Lemma held_owned F B s held p o n :
  client_inv F B s held → held !! p = Some (o, n) → owned B s p o.
Proof. intros Hc Hp. destruct (ci_held _ _ _ _ Hc _ _ _ Hp) as (? & E & _). split; [done|]. rewrite E. by left. Qed.

Lemma in_held_insert held p o n x :
  held !! p = None → in_held (<[p := (o, n)]> held) x ↔ in_held held x ∨ in_block p o x.
Proof.
  intros Hp. unfold in_held. split.
  - intros (q & oq & nq & [[<- [= <- <-]]|[_ Hq]]%lookup_insert_Some & Hx); eauto 10.
  - intros [(q & oq & nq & Hq & Hx)|Hx].
    + exists q, oq, nq. rewrite lookup_insert_ne by congruence. auto.
    + exists p, o, n. by rewrite lookup_insert_eq.
Qed.

Lemma in_held_same held p o n n' x :
  held !! p = Some (o, n) → in_held (<[p := (o, n')]> held) x ↔ in_held held x.
Proof.
  intros Hp. unfold in_held. split.
  - intros (q & oq & nq & [[<- [= <- <-]]|[_ Hq]]%lookup_insert_Some & Hx); eauto 10.
  - intros (q & oq & nq & Hq & Hx). destruct (decide (p = q)) as [<-|Hne].
    + exists p, o, n'. rewrite lookup_insert_eq. simplify_eq. auto.
    + exists q, oq, nq. by rewrite lookup_insert_ne.
Qed.

Lemma in_held_delete F B s held p o n x :
  client_inv F B s held → held !! p = Some (o, n) →
  in_held (delete p held) x ↔ in_held held x ∧ ¬ in_block p o x.
Proof.
  intros Hc Hp. unfold in_held. pose proof (inv_blocks _ _ _ (wf_buddy _ _ (ci_wf _ _ _ _ Hc))) as HB.
  split.
  - intros (q & oq & nq & [Hne Hq]%lookup_delete_Some & Hx). split; [eauto 10|]. intros Hx'.
    apply Hne. eapply (blk_disj _ _ HB p o q oq x); [|by eapply ci_held|done|done].
    by eapply ci_held.
  - intros [(q & oq & nq & Hq & Hx) Hn]. exists q, oq, nq. split; [|done].
    apply lookup_delete_Some. split; [|done]. intros <-. simplify_eq. done.
Qed.

(** Handing out a block that was in the pool. *)
Lemma client_alloc F B s held p o B' s' :
  client_inv F B s held → pmm_wf B' s' → params s' = params s →
  B' !! p = Some o → page_at s' p = mkPage 1 Allocated o →
  (∀ q oq, owned B s q oq → B' !! q = Some oq ∧ page_at s' q = page_at s q ∧ q ≠ p) →
  (∀ x, pool s' x ↔ pool s x ∧ ¬ in_block p o x) → (∀ x, in_block p o x → pool s x) →
  client_inv F B' s' (<[p := (o, 1)]> held).
Proof.
  intros Hc Hwf' Hpar HBp Hd Hframe Hpool Hwas.
  assert (Hnone : held !! p = None).
  { destruct (held !! p) as [[o' n]|] eqn:E; [|done]. exfalso.
    by destruct (Hframe p o' (held_owned _ _ _ _ _ _ _ Hc E)) as (_ & _ & ?). }
  split; [done| | | |].
  - replace (g_pcp_batch_size s') with (g_pcp_batch_size s) by (unfold params in Hpar; congruence). apply Hc.
  - intros q oq nq [[<- [= <- <-]]|[Hne Hq]]%lookup_insert_Some; [done|].
    destruct (Hframe q oq (held_owned _ _ _ _ _ _ _ Hc Hq)) as (? & -> & _).
    split; [done|by eapply ci_held].
  - intros x. rewrite in_held_insert, Hpool, (ci_frames _ _ _ _ Hc) by done.
    destruct (decide (in_block p o x)); naive_solver.
  - intros x [Hx Hn]%Hpool. rewrite in_held_insert by done. intros [?|?]; [|done].
    by eapply (ci_apart _ _ _ _ Hc).
Qed.

(** Taking back a block a client held. *)
Lemma client_release F B s held p o n B' s' :
  client_inv F B s held → held !! p = Some (o, n) → pmm_wf B' s' → params s' = params s →
  (∀ q oq, owned B s q oq → q ≠ p → B' !! q = Some oq ∧ page_at s' q = page_at s q) →
  (∀ x, pool s' x ↔ pool s x ∨ in_block p o x) →
  client_inv F B' s' (delete p held).
Proof.
  intros Hc Hp Hwf' Hpar Hframe Hpool.
  assert (Hin : ∀ x, in_block p o x → in_held held x) by (intros x Hx; exists p, o, n; auto).
  split; [done| | | |].
  - replace (g_pcp_batch_size s') with (g_pcp_batch_size s) by (unfold params in Hpar; congruence). apply Hc.
  - intros q oq nq [Hne Hq]%lookup_delete_Some.
    destruct (Hframe q oq (held_owned _ _ _ _ _ _ _ Hc Hq)) as [? ->]; [done|].
    split; [done|by eapply ci_held].
  - intros x. rewrite (in_held_delete F B s) by done. rewrite Hpool, (ci_frames _ _ _ _ Hc).
    specialize (Hin x). destruct (decide (in_block p o x)); naive_solver.
  - intros x. rewrite (in_held_delete F B s) by done. intros [Hx|?]%Hpool; [|tauto].
    intros [? _]. by eapply (ci_apart _ _ _ _ Hc).
Qed.

Lemma pool_set_page_same B s p o d :
  buddy_inv None B s → B !! p = Some o → state (page_at s p) ≠ Free → state d ≠ Free →
  ∀ x, pool (set_page p d s) x ↔ pool s x.
Proof.
  intros Hi Hp Hs Hd x. unfold pool. destruct (buddy_inv_set_page B s p o d) as [_ ->]; [done..|].
  done.
Qed.

(** Changing the descriptor of a block in use concerns nobody else. *)
Lemma set_desc_ok B s p o d :
  pmm_wf B s → owned B s p o → state d = Allocated ∨ state d = Slab →
  let s' := set_page p d s in
  pmm_wf B s' ∧ owned B s' p o ∧ (∀ x, pool s' x ↔ pool s x) ∧
  (∀ q, q ≠ p → page_at s' q = page_at s q).
Proof.
  intros Hwf Ho Hst s'. pose proof (wf_buddy _ _ Hwf) as Hb.
  pose proof (owned_not_free _ _ _ _ Ho) as Hnf.
  assert (Hdf : state d ≠ Free) by (by destruct Hst as [-> | ->]).
  destruct (buddy_inv_set_page B s p o d) as [Hi _]; [done|apply Ho|done|done|].
  assert (Hd : ∀ q, q ≠ p → page_at s' q = page_at s q).
  { intros q Hq. unfold s'. by rewrite page_at_set_page, decide_False. }
  split_and!; [| |by apply (pool_set_page_same B s p o); [..|apply Ho| |]|done].
  - split; [done| |apply Hwf]. apply (pcp_ok_frame B s); [apply Hwf|done|].
    intros c q Hq Hbq _. split; [done|]. apply Hd. intros ->.
    by apply (owned_not_cached B s p o c (wf_pcp _ _ Hwf) Ho).
  - split; [apply Ho|]. unfold s'. by rewrite page_at_set_page, decide_True.
Qed.

Lemma set_refcount_ok B s p o n :
  pmm_wf B s → owned B s p o →
  let s' := set_page p (mkPage n Allocated o) s in
  pmm_wf B s' ∧ owned B s' p o ∧ (∀ x, pool s' x ↔ pool s x) ∧
  (∀ q, q ≠ p → page_at s' q = page_at s q).
Proof. intros Hwf Ho. apply set_desc_ok; [done|done|by left]. Qed.

Lemma client_refcount F B s held p o n n' :
  client_inv F B s held → held !! p = Some (o, n) → 0 < n' < 2 ^ 32 →
  client_inv F B (set_page p (mkPage n' Allocated o) s) (<[p := (o, n')]> held).
Proof.
  intros Hc Hp Hn'. pose proof (held_owned _ _ _ _ _ _ _ Hc Hp) as Ho.
  destruct (set_refcount_ok B s p o n' (ci_wf _ _ _ _ Hc) Ho) as (Hwf & _ & Hpool & Hd).
  split; [done|apply Hc| | |].
  - intros q oq nq [[<- [= <- <-]]|[Hne Hq]]%lookup_insert_Some.
    + rewrite page_at_set_page, decide_True by done. split_and!; [apply Ho|done|lia|lia].
    + rewrite Hd by done. by eapply ci_held.
  - intros x. rewrite Hpool, (in_held_same held p o n n') by done. apply Hc.
  - intros x. rewrite Hpool, (in_held_same held p o n n') by done. apply Hc.
Qed.

Section exec.
Context (F : Z → Prop) (B : gmap Z nat) (s : pmm) (held : gmap Z (nat * Z)).
Context (Hc : client_inv F B s held).

Definition client_good (c : client) : Prop := ∃ B', client_inv F B' (cl_pmm c) (cl_held c).

Lemma exec_alloc_page cpu :
  ∃ c', client_exec (AllocPage cpu) (mkClient s held) = Ret c' ∧ client_good c'.
Proof using Hc.
  cbn. pose proof (pmm_alloc_page_ok B s cpu (ci_wf _ _ _ _ Hc) (ci_batch _ _ _ _ Hc)) as H.
  destruct (pmm_alloc_page cpu s) as [[[p|] s']| |]; [| |done..].
  - destruct H as (B' & []). eexists; split; [done|]. exists B'. cbn.
    apply (client_alloc F B s); try done; [apply pp_owned|..].
    + intros x. rewrite in_block_0. apply pp_pool.
    + intros x ->%in_block_0. done.
  - destruct H as (_ & _ & B' & Hwf & [T1 T2 T3]). eexists; split; [done|]. exists B'. cbn.
    split; [done| | |intros x; rewrite T2; apply Hc..].
    + replace (g_pcp_batch_size s') with (g_pcp_batch_size s) by (unfold params in T3; congruence). apply Hc.
    + intros q o n Hq. destruct (T1 q o) as [? ->]; [by eapply held_owned|]. split; [done|by eapply ci_held].
Qed.

Lemma exec_alloc_pages o :
  ∃ c', client_exec (AllocPages o) (mkClient s held) = Ret c' ∧ client_good c'.
Proof using Hc.
  cbn. destruct (pmm_alloc_pages o s) as [[p|] s'] eqn:E; eexists; (split; [done|]).
  - destruct (pmm_alloc_pages_Some B s o p s' (ci_wf _ _ _ _ Hc) E) as (B' & Hwf & [] & Hpool).
    exists B'. cbn. apply (client_alloc F B s); try done.
    + by apply params_env.
    + intros q oq Hq. apply ap_frame; [apply Hq|by eapply owned_not_free].
    + intros x Hx. left. rewrite <- (avail_free_page B) by apply (ci_wf _ _ _ _ Hc). auto.
  - exists B. cbn. unfold pmm_alloc_pages in E. case_match; simplify_eq; [done|].
    by apply buddy_alloc_from_None in E as [-> _].
Qed.

Lemma release_page cpu p n s1 :
  held !! p = Some (0%nat, n) → pmm_wf B s1 → owned B s1 p 0 → (∀ x, pool s1 x ↔ pool s x) →
  (∀ q, q ≠ p → page_at s1 q = page_at s q) → params s1 = params s →
  ∃ s', pmm_free_page cpu (Some p) s1 = Ret s' ∧ client_good (mkClient s' (delete p held)).
Proof using Hc.
  intros Hp Hwf1 Ho1 Hpool1 Hd1 Hpar.
  destruct (pmm_free_page_ok B s1 cpu p Hwf1 Ho1) as (s' & B' & E & Hwf & Hf & Hpool & Hpar').
  exists s'. split; [done|]. exists B'. cbn. apply (client_release F B s held p 0 n); try done.
  - congruence.
  - intros q oq Hq Hne. rewrite <- (Hd1 q Hne). apply Hf; [|done]. split; [apply Hq|].
    rewrite (Hd1 q Hne). apply Hq.
  - intros x. by rewrite Hpool, Hpool1, in_block_0.
Qed.

Lemma release_pages p o n s1 :
  held !! p = Some (o, n) → pmm_wf B s1 → owned B s1 p o → (∀ x, pool s1 x ↔ pool s x) →
  (∀ q, q ≠ p → page_at s1 q = page_at s q) → params s1 = params s →
  ∃ s', pmm_free_pages (Some p) o s1 = Ret s' ∧ client_good (mkClient s' (delete p held)).
Proof using Hc.
  intros Hp Hwf1 Ho1 Hpool1 Hd1 Hpar.
  destruct (pmm_free_pages_ok B s1 p o Hwf1 Ho1) as (s' & B' & E & Hwf & Hf & Hpool & Hpar').
  exists s'. split; [done|]. exists B'. cbn. apply (client_release F B s held p o n); try done.
  - congruence.
  - intros q oq Hq Hne. rewrite <- (Hd1 q Hne). apply Hf; [|done]. split; [apply Hq|].
    rewrite (Hd1 q Hne). apply Hq.
  - intros x. by rewrite Hpool, Hpool1.
Qed.

Lemma exec_decref cpu p :
  is_Some (held !! p) → ∃ c', client_exec (Decref cpu p) (mkClient s held) = Ret c' ∧ client_good c'.
Proof using Hc.
  intros [[o n] Hp]. cbn [client_exec]. destruct (ci_held _ _ _ _ Hc _ _ _ Hp) as (HB & Hd & Hn).
  unfold page_decref. rewrite Hp, Hd. cbn [refcount state order].
  rewrite (wrap_small _ (n - 1)) by lia. destruct (Z.eqb_spec n 1) as [->|Hne].
  - change (1 - 1) with 0.
    destruct (set_refcount_ok B s p o 0 (ci_wf _ _ _ _ Hc)) as (Hwf & Ho & Hpool & Hd1);
      [by eapply held_owned|].
    destruct (Nat.eqb_spec o 0) as [->|].
    + destruct (release_page cpu p 1 _ Hp Hwf Ho Hpool Hd1 eq_refl) as (s' & -> & ?). by eexists.
    + destruct (release_pages p o 1 _ Hp Hwf Ho Hpool Hd1 eq_refl) as (s' & -> & ?). by eexists.
  - eexists; split; [done|]. exists B. cbn. apply (client_refcount _ _ _ _ _ _ n); (done || lia).
Qed.

Lemma client_exec_ok op :
  allowed op (mkClient s held) = true →
  ∃ c', client_exec op (mkClient s held) = Ret c' ∧ client_good c'.
Proof using Hc.
  pose proof (ci_wf _ _ _ _ Hc) as Hwf.
  destruct op as [cpu|cpu p|o|p o|p|cpu p]; cbn [allowed cl_held].
  - intros _. apply exec_alloc_page.
  - intros Hp%bool_decide_eq_true. cbn [client_exec].
    destruct (release_page cpu p 1 s Hp Hwf) as (s' & -> & ?);
      [by eapply held_owned|done|done|done|by eexists].
  - intros _. apply exec_alloc_pages.
  - intros Hp%bool_decide_eq_true. cbn [client_exec].
    destruct (release_pages p o 1 s Hp Hwf) as (s' & -> & ?);
      [by eapply held_owned|done|done|done|by eexists].
  - destruct (held !! p) as [[o n]|] eqn:Hp; [|done]. intros Hn%Z.ltb_lt. cbn. rewrite Hp.
    eexists; split; [done|]. exists B. cbn. unfold page_incref.
    destruct (ci_held _ _ _ _ Hc _ _ _ Hp) as (_ & -> & ?). cbn [refcount state order].
    rewrite wrap_small by lia. apply (client_refcount _ _ _ _ _ _ n); (done || lia).
  - intros Hp%bool_decide_eq_true. by apply exec_decref.
Qed.
End exec.

Lemma boot_client_inv mb N total s mb' :
  boot_layout mb N → pmm_init N mb = Ret (total, s, mb') →
  client_good (boot_free mb N) (mkClient s ∅).
Proof.
  intros Hbl E. destruct (pmm_init_ok mb N Hbl) as (t & s1 & B & E' & Hwf & Hpool & Hpar).
  rewrite E in E'. injection E' as -> -> ->. exists B. cbn [cl_pmm cl_held].
  assert (Hno : ∀ x, ¬ in_held ∅ x) by (intros x (? & ? & ? & []%lookup_empty_Some & _)).
  split; [done| |by intros ??? []%lookup_empty_Some| |].
  - replace (g_pcp_batch_size s1) with (g_pcp_batch_size (pmm_blank mb N)) by (unfold params in Hpar; congruence).
    cbn. case_match eqn:Eb; [apply Z.ltb_lt in Eb|]; lia.
  - intros x. rewrite Hpool. specialize (Hno x). naive_solver.
  - done.
Qed.

Lemma reachable_good F s c : client_good F (mkClient s ∅) → reachable (mkClient s ∅) c → client_good F c.
Proof.
  intros H0 Hr. induction Hr as [|op [s1 held] c' Hr [B1 Hc1] Ha He]; [done|].
  destruct (client_exec_ok F B1 s1 held Hc1 op Ha) as (c2 & E & ?). congruence.
Qed.

(** ** Properties *)

(** C3: after [pmm_init] the manager satisfies its invariant (the managed
    frames are partitioned into aligned blocks, the free lists hold exactly the
    free ones with their orders, no two free buddies are left unmerged, the
    per-CPU caches are empty) and the frames it can hand out are exactly the
    whole pages of RAM that no memblock reservation touches; memblock is
    retired. *)
Theorem pmm_init_feeds_free_memory mb num_pages (Hbl : boot_layout mb num_pages) :
  ∃ total s B, pmm_init num_pages mb = Ret (total, s, memblock_retire mb) ∧ pmm_wf B s ∧
    (∀ x, pool s x ↔ boot_free mb num_pages x) ∧ 16 ≤ g_pcp_batch_size s.
Proof.
  destruct (pmm_init_ok mb num_pages Hbl) as (t & s & B & E & Hwf & Hpool & Hpar).
  exists t, s, B. split_and!; [done..|].
  replace (g_pcp_batch_size s) with (g_pcp_batch_size (pmm_blank mb num_pages))
    by (unfold params in Hpar; congruence).
  cbn. case_match eqn:Eb; [apply Z.ltb_lt in Eb|]; lia.
Qed.

(** C1: the safety of the physical allocator for every sequence of allowed
    operations after boot: two blocks held by clients never overlap, no frame
    of a held block is in the free lists or caches, and no frame is ever lost
    or made up: the frames free at boot are exactly those in the pool plus those
    of the held blocks. *)
Theorem pmm_clients_never_share mb num_pages total s0 mb' c
    (Hbl : boot_layout mb num_pages) (Hinit : pmm_init num_pages mb = Ret (total, s0, mb'))
    (Hr : reachable (mkClient s0 ∅) c) :
  (∀ p o n q o' n' x,
     cl_held c !! p = Some (o, n) → cl_held c !! q = Some (o', n') →
     in_block p o x → in_block q o' x → p = q) ∧
  (∀ x, pool (cl_pmm c) x → ¬ in_held (cl_held c) x) ∧
  (∀ x, boot_free mb num_pages x ↔ pool (cl_pmm c) x ∨ in_held (cl_held c) x).
Proof.
  destruct (reachable_good _ s0 c (boot_client_inv mb num_pages total s0 mb' Hbl Hinit) Hr) as [B Hc].
  split_and!; [|apply Hc|apply Hc].
  intros p o n q o' n' x Hp Hq. eapply blk_disj; [apply Hc|by eapply ci_held..].
Qed.

(** C2: no allowed operation of a client panics or runs out of iterations, in
    any state reachable from boot. *)
Theorem pmm_clients_never_panic mb num_pages total s0 mb' c op
    (Hbl : boot_layout mb num_pages) (Hinit : pmm_init num_pages mb = Ret (total, s0, mb'))
    (Hr : reachable (mkClient s0 ∅) c) (Hop : allowed op c = true) :
  ∃ c', client_exec op c = Ret c'.
Proof.
  destruct (reachable_good _ s0 c (boot_client_inv mb num_pages total s0 mb' Hbl Hinit) Hr) as [B Hc].
  destruct c as [s held]. destruct (client_exec_ok _ B s held Hc op Hop) as (c' & ? & _). eauto.
Qed.

(** C4: reference counting: in every reachable state the descriptor of a held
    block carries the number of references taken; dropping a reference keeps the
    block when others remain and puts exactly its frames back into the pool when
    it was the last. *)
Theorem page_decref_returns_last mb num_pages total s0 mb' c cpu p o n
    (Hbl : boot_layout mb num_pages) (Hinit : pmm_init num_pages mb = Ret (total, s0, mb'))
    (Hr : reachable (mkClient s0 ∅) c) (Hp : cl_held c !! p = Some (o, n)) :
  refcount (page_at (cl_pmm c) p) = n ∧
  ∃ s', page_decref cpu p (cl_pmm c) = Ret s' ∧
    ∀ x, pool s' x ↔ pool (cl_pmm c) x ∨ (n = 1 ∧ in_block p o x).
Proof.
  destruct (reachable_good _ s0 c (boot_client_inv mb num_pages total s0 mb' Hbl Hinit) Hr) as [B Hc].
  destruct c as [s held]. cbn [cl_pmm cl_held] in *.
  destruct (ci_held _ _ _ _ Hc _ _ _ Hp) as (HB & Hd & Hn). split; [by rewrite Hd|].
  destruct (exec_decref _ B s held Hc cpu p) as (c' & E & B' & Hc'); [by eexists|].
  cbn [client_exec] in E. destruct (page_decref cpu p s) as [s'| |]; [|done..].
  cbn in E. rewrite Hp in E. injection E as <-. cbn [cl_pmm cl_held] in Hc'.
  exists s'. split; [done|]. intros x.
  pose proof (ci_frames _ _ _ _ Hc' x) as H1. pose proof (ci_apart _ _ _ _ Hc' x) as H2.
  pose proof (ci_frames _ _ _ _ Hc x) as H3. pose proof (ci_apart _ _ _ _ Hc x) as H4.
  destruct (Z.eqb_spec n 1) as [->|Hne].
  - rewrite (in_held_delete _ B s held p o 1) in H1, H2 by done.
    assert (in_block p o x → in_held held x) by (intros; exists p, o, 1; auto).
    destruct (decide (in_block p o x)); naive_solver.
  - rewrite (in_held_same held p o n) in H1, H2 by done. naive_solver.
Qed.

(** *** Witnesses: a machine with 40 pages, 9 of them reserved *)

Fixpoint run_ops (ops : list pmm_op) (c : client) : outcome client :=
  match ops with
  | [] => Ret c
  | op :: ops' =>
      if allowed op c then c' ← client_exec op c; run_ops ops' c'
      else Panic "operation not allowed"
  end.

Lemma run_ops_reachable c0 ops c c' : reachable c0 c → run_ops ops c = Ret c' → reachable c0 c'.
Proof.
  revert c. induction ops as [|op ops IH]; intros c Hr; cbn [run_ops].
  - by intros [= <-].
  - destruct (allowed op c) eqn:Ea; [|done].
    destruct (client_exec op c) as [c1| |] eqn:Ee; [|done..]. cbn. apply IH. by eapply reach_step.
Qed.

Definition small_mb : memblock :=
  mkMb 0x80000000 (40 * 4096 + 100) [mkRegion 0x80000000 0x5000; mkRegion 0x80011000 0x4000] true.

Lemma small_layout : boot_layout small_mb 40.
Proof.
  split; [|by vm_compute|by vm_compute| |by vm_compute|by vm_compute].
  - split; [by vm_compute..| |].
    + apply (bool_decide_unpack _). by vm_compute.
    + repeat constructor; by vm_compute.
  - apply (bool_decide_unpack _). by vm_compute.
Qed.

Definition small_boot : pmm := Eval vm_compute in
  match pmm_init 40 small_mb with Ret (_, s, _) => s | _ => pmm_blank small_mb 40 end.

Lemma small_boot_eq : pmm_init 40 small_mb = Ret (31, small_boot, memblock_retire small_mb).
Proof. vm_compute. reflexivity. Qed.

Definition small_ops : list pmm_op :=
  [AllocPages 2; AllocPage 0; AllocPage 1; Incref 32; Decref 1 32; FreePages 32 2; AllocPages 1].

Definition small_client : client := Eval vm_compute in
  match run_ops small_ops (mkClient small_boot ∅) with Ret c => c | _ => mkClient small_boot ∅ end.

Lemma small_client_reachable : reachable (mkClient small_boot ∅) small_client.
Proof.
  apply (run_ops_reachable _ small_ops (mkClient small_boot ∅)); [constructor|].
  vm_compute. reflexivity.
Qed.

Lemma pmm_init_feeds_free_memory_witness :
  ∃ total s B, pmm_init 40 small_mb = Ret (total, s, memblock_retire small_mb) ∧ pmm_wf B s ∧
    (∀ x, pool s x ↔ boot_free small_mb 40 x) ∧ 16 ≤ g_pcp_batch_size s.
Proof. apply (pmm_init_feeds_free_memory small_mb 40 small_layout). Defined.

Lemma pmm_clients_never_share_witness :
  size (cl_held small_client) = 3%nat ∧
  (∀ x, pool (cl_pmm small_client) x → ¬ in_held (cl_held small_client) x).
Proof.
  split; [vm_compute; reflexivity|].
  apply (pmm_clients_never_share small_mb 40 31 small_boot (memblock_retire small_mb) small_client
           small_layout small_boot_eq small_client_reachable).
Defined.

Lemma pmm_clients_never_panic_witness : ∃ c', client_exec (AllocPages 3) small_client = Ret c'.
Proof.
  by apply (pmm_clients_never_panic small_mb 40 31 small_boot (memblock_retire small_mb) small_client
              (AllocPages 3) small_layout small_boot_eq small_client_reachable).
Defined.

Lemma page_decref_returns_last_witness :
  refcount (page_at (cl_pmm small_client) 32) = 1 ∧
  ∃ s', page_decref 0 32 (cl_pmm small_client) = Ret s' ∧
    ∀ x, pool s' x ↔ pool (cl_pmm small_client) x ∨ (1 = 1 ∧ in_block 32 1 x).
Proof.
  apply (page_decref_returns_last small_mb 40 31 small_boot (memblock_retire small_mb) small_client
           0 32 1 1 small_layout small_boot_eq small_client_reachable).
  vm_compute. reflexivity.
Defined.
