(* ===== verification/Pid.v ===== *)
(** * Pid: the process-identifier allocator

    Models [na/kernel/pid.cc] and [pid.h]: a bitmap of [kMaxPid] bits in 64-bit
    words, scanned from the word of the last allocation.  Both operations run
    under the allocator's lock, so each is one atomic step. *)

From S2P Require Import Prelude Bits.

Definition kMaxPid : Z := 32768.
Definition kBitmapWords : Z := kMaxPid / 64.

Record PidAllocator := mkPids { bitmap_ : gmap Z Z; next_hint_ : Z }.

Definition word (a : PidAllocator) (w : Z) : Z := default 0 (bitmap_ a !! w).

Definition pid_init : PidAllocator :=
  let bm := list_to_map ((λ w, (w, 0)) <$> seqZ 0 kBitmapWords) : gmap Z Z in
  mkPids (<[0 := Z.lor (default 0 (bm !! 0)) 0x3]> bm) 2.

(** [while ((v & 1) == 0) { v >>= 1; bit++; }]; 64 iterations exhaust a word. *)
Fixpoint first_bit (n : nat) (v bit : Z) : Z :=
  match n with
  | O => bit
  | S n' => if Z.land v 1 =? 0 then first_bit n' (Z.shiftr v 1) (bit + 1) else bit
  end.

(** The [for (passes = 0; passes < kBitmapWords; passes++)] loop, [n] passes left. *)
Fixpoint pid_scan (n : nat) (word_start passes : Z) (a : PidAllocator) : Z * PidAllocator :=
  match n with
  | O => (-1, a)
  | S n' =>
      let w := (word_start + passes) mod kBitmapWords in
      let free_bits := u64 (Z.lnot (word a w)) in
      if free_bits =? 0 then pid_scan n' word_start (passes + 1) a
      else
        let bit := first_bit 64 free_bits 0 in
        let pid := w * 64 + bit in
        if kMaxPid <=? pid then pid_scan n' word_start (passes + 1) a
        else
          let next := if kMaxPid <=? pid + 1 then 2 else pid + 1 in
          (pid, mkPids (<[w := Z.lor (word a w) (Z.shiftl 1 bit)]> (bitmap_ a)) next)
  end.

Definition pid_alloc (a : PidAllocator) : Z * PidAllocator :=
  pid_scan (Z.to_nat kBitmapWords) (next_hint_ a / 64) 0 a.

Definition pid_free (pid : Z) (a : PidAllocator) : PidAllocator :=
  if (pid <? 0) || (kMaxPid <=? pid) then a
  else
    let w := pid / 64 in
    let bit := pid mod 64 in
    mkPids (<[w := Z.land (word a w) (u64 (Z.lnot (Z.shiftl 1 bit)))]> (bitmap_ a)) (next_hint_ a).

(** ** The set of identifiers in use *)

Definition used (a : PidAllocator) (pid : Z) : Prop := Z.testbit (word a (pid / 64)) (pid mod 64) = true.

#[export] Instance used_dec a pid : Decision (used a pid).
Proof. unfold used. apply _. Defined.

Record pid_ok (a : PidAllocator) : Prop := {
  pid_word w : is_u64 (word a w);
  pid_hint : 1 ≤ next_hint_ a < kMaxPid;
}.

Definition is_pid (pid : Z) : Prop := 0 ≤ pid < kMaxPid.

Lemma word_set w v bm h w' :
  word (mkPids (<[w := v]> bm) h) w' = if decide (w = w') then v else default 0 (bm !! w').
Proof. unfold word. cbn. rewrite lookup_insert. by case_decide. Qed.

Lemma first_bit_spec n v bit :
  0 ≤ v < 2 ^ Z.of_nat n → v ≠ 0 →
  let b := first_bit n v bit in bit ≤ b < bit + Z.of_nat n ∧ Z.testbit v (b - bit) = true.
Proof.
  revert v bit. induction n as [|n IH]; intros v bit Hv Hz; cbn [first_bit].
  { change (2 ^ Z.of_nat 0) with 1 in Hv. lia. }
  rewrite Nat2Z.inj_succ, Z.pow_succ_r in Hv by lia.
  replace (Z.land v 1) with (v mod 2) by (symmetry; by apply (land_ones_mod v 1)).
  rewrite Zmod_odd. destruct (Z.odd v) eqn:Ho; cbn.
  - rewrite Z.sub_diag, Z.bit0_odd. split; [lia|done].
  - assert (Hh : Z.shiftr v 1 = v / 2) by (by rewrite Z.shiftr_div_pow2). rewrite Hh.
    pose proof (Zmod_odd v) as Hm. rewrite Ho in Hm.
    pose proof (Z.div_mod v 2 ltac:(lia)) as Hd.
    destruct (IH (v / 2) (bit + 1)) as [Hr Hb]; [lia|lia|].
    set (b := first_bit n (v / 2) (bit + 1)) in *. clearbody b.
    split; [lia|]. rewrite <- Hh, Z.shiftr_spec in Hb by lia. rewrite <- Hb. f_equal. lia.
Qed.

Lemma lnot64_testbit v i : 0 ≤ i < 64 → Z.testbit (u64 (Z.lnot v)) i = negb (Z.testbit v i).
Proof. intros. unfold wrap. rewrite Z.mod_pow2_bits_low, Z.lnot_spec by lia. done. Qed.

(** A zero complement means every bit of the word is set. *)
Lemma word_full v : u64 (Z.lnot v) = 0 → ∀ i, 0 ≤ i < 64 → Z.testbit v i = true.
Proof.
  intros E i Hi. pose proof (lnot64_testbit v i Hi) as H. rewrite E, Z.bits_0 in H.
  by destruct (Z.testbit v i).
Qed.

Lemma bit_testbit b i : 0 ≤ b → 0 ≤ i → Z.testbit (Z.shiftl 1 b) i = bool_decide (i = b).
Proof.
  intros. rewrite Z.shiftl_1_l, Z.pow2_bits_eqb by lia.
  case_bool_decide; [subst; by rewrite Z.eqb_refl|]. apply Z.eqb_neq. lia.
Qed.

Lemma set_bit_u64 v b : is_u64 v → 0 ≤ b < 64 → is_u64 (Z.lor v (Z.shiftl 1 b)).
Proof.
  intros Hv Hb. apply lor_bound; [done|done|]. rewrite Z.shiftl_1_l. split; [lia|].
  apply Z.pow_lt_mono_r; lia.
Qed.

Section alloc.
Context (a : PidAllocator) (Hok : pid_ok a).

(** The outcomes of an allocation. *)
Definition alloc_post (res : Z * PidAllocator) : Prop :=
  let '(pid, a') := res in
  pid_ok a' ∧ is_pid pid ∧ ¬ used a pid ∧ ∀ q, is_pid q → used a' q ↔ used a q ∨ q = pid.

(** Every word already visited is full. *)
Lemma pid_scan_ok n word_start passes :
  Z.of_nat n + passes = kBitmapWords → 0 ≤ passes → 0 ≤ word_start →
  (∀ i, 0 ≤ i < passes → u64 (Z.lnot (word a ((word_start + i) mod kBitmapWords))) = 0) →
  let res := pid_scan n word_start passes a in
  alloc_post res ∨ (res = (-1, a) ∧ ∀ q, is_pid q → used a q).
Proof using Hok.
  revert passes. induction n as [|n IH]; intros passes Hn H0 Hws Hfull; cbn [pid_scan].
  - right. split; [done|]. intros q Hq. unfold used.
    set (w := q / 64).
    assert (Hw : 0 ≤ w < kBitmapWords).
    { unfold w, is_pid, kBitmapWords, kMaxPid in *. change (32768 / 64) with 512.
      split; [apply Z.div_pos; lia|apply Z.div_lt_upper_bound; lia]. }
    pose proof (Z.mod_pos_bound (w - word_start) kBitmapWords) as Hb.
    specialize (Hfull ((w - word_start) mod kBitmapWords) ltac:(lia)).
    rewrite Zplus_mod_idemp_r in Hfull. replace (word_start + (w - word_start)) with w in Hfull by lia.
    rewrite Z.mod_small in Hfull by lia. apply word_full; [done|]. apply Z.mod_pos_bound. lia.
  - set (w := (word_start + passes) mod kBitmapWords).
    assert (Hw : 0 ≤ w < 512) by (apply (Z.mod_pos_bound _ kBitmapWords); by vm_compute).
    set (free := u64 (Z.lnot (word a w))).
    destruct (Z.eqb_spec free 0) as [E|E].
    { apply IH; [lia|lia|done|]. intros i Hi. destruct (decide (i = passes)) as [->|]; [done|].
      apply Hfull. lia. }
    destruct (first_bit_spec 64 free 0) as [Hb Ht]; [apply wrap_is_u64|done|].
    set (bit := first_bit 64 free 0) in *. rewrite Z.sub_0_r in Ht.
    assert (Hp : is_pid (w * 64 + bit)) by (unfold is_pid, kMaxPid; lia).
    destruct Hp as [Hp0 Hp1]. rewrite (proj2 (Z.leb_gt _ _)) by done. left.
    assert (Hdiv : (w * 64 + bit) / 64 = w) by (symmetry; apply (Z.div_unique _ _ _ bit); lia).
    assert (Hmod : (w * 64 + bit) mod 64 = bit) by (symmetry; apply (Z.mod_unique _ _ w); lia).
    split_and!; [split|by split| |].
    + intros w'. rewrite word_set. case_decide; [|apply (pid_word _ Hok w')].
      apply set_bit_u64; [apply Hok|lia].
    + cbn [next_hint_]. clearbody bit. destruct (Z.leb_spec kMaxPid (w * 64 + bit + 1)); unfold kMaxPid in *; lia.
    + unfold used. rewrite Hdiv, Hmod. unfold free in Ht. rewrite lnot64_testbit in Ht by lia.
      by destruct (Z.testbit (word a w) bit).
    + intros q Hq. unfold used. rewrite word_set. pose proof (Z.mod_pos_bound q 64).
      pose proof (Z.div_mod q 64).
      case_decide as Eq; [|split; [auto|intros [?|Hq']; [done|congruence]]].
      rewrite Z.lor_spec, bit_testbit, orb_true_iff, bool_decide_eq_true by lia. rewrite <- Eq.
      split; (intros [?|?]; [by left|right]); lia.
Qed.
End alloc.

Lemma pid_alloc_ok a :
  pid_ok a → alloc_post a (pid_alloc a) ∨ (pid_alloc a = (-1, a) ∧ ∀ q, is_pid q → used a q).
Proof.
  intros Hok. unfold pid_alloc. apply pid_scan_ok; [done|done|done| |].
  - apply Z.div_pos; [|lia]. destruct (pid_hint _ Hok). lia.
  - lia.
Qed.

Lemma pid_free_ok a pid :
  pid_ok a → pid_ok (pid_free pid a) ∧ ∀ q, is_pid q → used (pid_free pid a) q ↔ used a q ∧ q ≠ pid.
Proof.
  intros Hok. unfold pid_free. destruct (Z.ltb_spec pid 0); cbn [orb].
  { split; [done|]. intros q Hq. unfold is_pid in Hq. intuition lia. }
  destruct (Z.leb_spec kMaxPid pid).
  { split; [done|]. intros q Hq. unfold is_pid in Hq. intuition lia. }
  pose proof (Z.mod_pos_bound pid 64). pose proof (Z.div_mod pid 64). split; [split|].
  - intros w. rewrite word_set. case_decide; [|apply (pid_word _ Hok w)]. apply land_bound; [done|apply Hok].
  - apply Hok.
  - intros q Hq. unfold used. rewrite word_set. pose proof (Z.mod_pos_bound q 64).
    pose proof (Z.div_mod q 64).
    case_decide as E; [|intuition congruence].
    rewrite Z.land_spec, lnot64_testbit, bit_testbit, andb_true_iff, negb_true_iff by lia.
    rewrite bool_decide_eq_false, <- E. intuition lia.
Qed.

Lemma pid_init_ok : pid_ok pid_init ∧ ∀ q, is_pid q → used pid_init q ↔ q = 0 ∨ q = 1.
Proof.
  assert (Hw : ∀ w, word pid_init w = if decide (w = 0) then 3 else 0).
  { intros w. unfold pid_init. rewrite word_set. case_decide as E; [subst w|].
    - by rewrite decide_True.
    - rewrite decide_False by done.
      destruct (_ !! w) as [v|] eqn:Ev; [|done]. apply elem_of_list_to_map_2 in Ev.
      apply list_elem_of_fmap in Ev as (w' & [= -> ->] & _). done. }
  split; [split|].
  - intros w. rewrite Hw. unfold is_u64. case_decide; lia.
  - by vm_compute.
  - intros q Hq. unfold used. rewrite Hw. pose proof (Z.div_mod q 64). pose proof (Z.mod_pos_bound q 64).
    unfold is_pid in Hq. case_decide as E.
    + rewrite E in *. assert (q mod 64 = q) as -> by lia.
      destruct (decide (q = 0)) as [->|]; [split; auto|]. destruct (decide (q = 1)) as [->|]; [split; auto|].
      rewrite Z.bits_above_log2; [split; [done|lia]|lia|]. change (Z.log2 3) with 1. lia.
    + rewrite Z.bits_0. split; [done|]. intros [-> | ->]; by destruct E.
Qed.

(** ** The allocator and its callers

    [live] is the set of identifiers handed out and not yet freed; the kernel
    frees only identifiers it was given. *)

Inductive pid_op := PidAlloc | PidFree (pid : Z).

Inductive pid_step : PidAllocator * gset Z → pid_op → PidAllocator * gset Z → Prop :=
| pid_step_alloc a live pid a' :
    pid_alloc a = (pid, a') → pid ≠ -1 → pid_step (a, live) PidAlloc (a', {[pid]} ∪ live)
| pid_step_full a live a' : pid_alloc a = (-1, a') → pid_step (a, live) PidAlloc (a', live)
| pid_step_free a live pid :
    pid ∈ live → pid_step (a, live) (PidFree pid) (pid_free pid a, live ∖ {[pid]}).

Inductive pid_reach : PidAllocator * gset Z → Prop :=
| pid_reach_init : pid_reach (pid_init, ∅)
| pid_reach_step st op st' : pid_reach st → pid_step st op st' → pid_reach st'.

Definition pid_inv (st : PidAllocator * gset Z) : Prop :=
  let '(a, live) := st in
  pid_ok a ∧ (∀ q, is_pid q → used a q ↔ q = 0 ∨ q = 1 ∨ q ∈ live) ∧
  (∀ q, q ∈ live → 2 ≤ q < kMaxPid).

Lemma pid_reach_inv st : pid_reach st → pid_inv st.
Proof.
  induction 1 as [|st op st' _ IH Hs].
  - destruct pid_init_ok as [H1 H2]. split_and!; [done| |set_solver].
    intros q Hq. rewrite H2 by done. set_solver.
  - destruct Hs as [a live pid a' E Hne|a live a' E|a live pid Hin]; destruct IH as (Hok & Hu & Hl).
    + destruct (pid_alloc_ok a Hok) as [Hp|[E' _]]; [|congruence]. rewrite E in Hp.
      destruct Hp as (Hok' & Hp & Hfresh & Hu').
      assert (2 ≤ pid).
      { apply Z.nlt_ge. intros Hlt. apply Hfresh, Hu; [done|]. unfold is_pid in Hp. lia. }
      split_and!; [done| |].
      * intros q Hq. rewrite Hu', Hu by done. set_solver.
      * intros q. rewrite elem_of_union, elem_of_singleton. unfold is_pid in Hp. intros [->|?]; auto with lia.
    + destruct (pid_alloc_ok a Hok) as [Hp|[E' _]].
      * rewrite E in Hp. destruct Hp as (_ & Hp & _). unfold is_pid in Hp. lia.
      * rewrite E in E'. by simplify_eq.
    + destruct (pid_free_ok a pid Hok) as [Hok' Hu']. specialize (Hl pid Hin) as Hr.
      split_and!; [done| |set_solver]. intros q Hq. rewrite Hu', Hu by done.
      rewrite elem_of_difference, elem_of_singleton. intuition lia.
Qed.

(** ** Properties *)

(** C38: the PID allocator refines the specification "hand out an identifier
    not in use": whatever mix of allocations and frees came before, [pid_alloc]
    returns an identifier that no live process has, inside [2, kMaxPid) and
    never one of the two reserved ones, and it returns -1 only when every
    identifier is in use, leaving the bitmap as it was. *)
Theorem pid_alloc_fresh a live (Hr : pid_reach (a, live)) :
  let '(pid, a') := pid_alloc a in
  (pid ≠ -1 ∧ 2 ≤ pid < kMaxPid ∧ (pid ∉ live) ∧ pid_reach (a', {[pid]} ∪ live)) ∨
  (pid = -1 ∧ a' = a ∧ ∀ q, 2 ≤ q < kMaxPid → q ∈ live).
Proof.
  destruct (pid_reach_inv _ Hr) as (Hok & Hu & Hl).
  destruct (pid_alloc a) as [pid a'] eqn:E. destruct (pid_alloc_ok a Hok) as [Hp|[E' Hall]]; rewrite E in *.
  - destruct Hp as (Hok' & Hp & Hfresh & Hu'). rewrite Hu in Hfresh by done. unfold is_pid in Hp. left.
    split_and!; [lia|lia|lia|tauto|]. eapply pid_reach_step; [exact Hr|]. constructor; [done|lia].
  - injection E' as -> ->. right. split_and!; [done..|]. intros q Hq.
    destruct (proj1 (Hu q ltac:(unfold is_pid; lia)) (Hall q ltac:(unfold is_pid; lia))) as [?|[?|?]]; (lia || done).
Qed.

Lemma pid_alloc_fresh_witness :
  (pid_alloc pid_init).1 = 2 ∧
  (let '(pid, a') := pid_alloc pid_init in
   (pid ≠ -1 ∧ 2 ≤ pid < kMaxPid ∧ (pid ∉ (∅ : gset Z)) ∧ pid_reach (a', {[pid]} ∪ ∅)) ∨
   (pid = -1 ∧ a' = pid_init ∧ ∀ q, 2 ≤ q < kMaxPid → q ∈ (∅ : gset Z))).
Proof.
  split; [vm_compute; reflexivity|]. apply (pid_alloc_fresh pid_init ∅). constructor.
Defined.
