(* ===== verification/Pmap.v ===== *)
(** * Pmap: SV39 page tables

    Models [na/arch/riscv/mm/pmap.cc]: three-level page tables in physical
    memory, the walk, and the operations the address-space code uses.  Memory
    is a map from the physical address of a 64-bit word to its value: the code
    reaches every table through the direct map, which [pa_to_ptr] only adds the
    base of.  Pages for tables come from an interface, [PageSource], that both
    the boot allocator and the buddy system implement (file [PageSources]). *)

From S2P Require Import Prelude Bits.

(** ** Page table entries *)

Definition PTE_V : Z := Z.shiftl 1 0.
Definition PTE_R : Z := Z.shiftl 1 1.
Definition PTE_W : Z := Z.shiftl 1 2.
Definition PTE_X : Z := Z.shiftl 1 3.
Definition PTE_U : Z := Z.shiftl 1 4.
Definition PTE_G : Z := Z.shiftl 1 5.
Definition PTE_A : Z := Z.shiftl 1 6.
Definition PTE_D : Z := Z.shiftl 1 7.
Definition PTE_COW : Z := Z.shiftl 1 8.
Definition PTE_RWX : Z := Z.lor (Z.lor PTE_R PTE_W) PTE_X.

Definition kPtePerPage : Z := 512.

Definition vpn (va : Z) (level : nat) : Z := Z.land (Z.shiftr va (12 + 9 * Z.of_nat level)) 0x1FF.

Definition pte_to_pa (pte : Z) : Z := u64 (Z.shiftl (Z.land (Z.shiftr pte 10) 0xFFFFFFFFFFF) 12).
Definition pa_to_pte (pa flags : Z) : Z := Z.lor (u64 (Z.shiftl (Z.shiftr pa 12) 10)) flags.

(** The virtual address through which the kernel reaches physical [pa]. *)
Definition pa_to_ptr (runtime_ready : bool) (direct_map_base pa : Z) : Z :=
  if runtime_ready then pa_to_va direct_map_base pa else boot_pa_to_va pa.

Definition vm_perm_to_pte (vm_perm : Z) : Z :=
  let pte := Z.lor (Z.lor PTE_V PTE_A) PTE_D in
  let pte := if negb (Z.land vm_perm (Z.shiftl 1 0) =? 0) then Z.lor pte PTE_R else pte in
  let pte := if negb (Z.land vm_perm (Z.shiftl 1 1) =? 0) then Z.lor pte PTE_W else pte in
  let pte := if negb (Z.land vm_perm (Z.shiftl 1 2) =? 0) then Z.lor pte PTE_X else pte in
  if negb (Z.land vm_perm (Z.shiftl 1 3) =? 0) then Z.lor pte PTE_U else pte.

(** ** Memory *)

Abbreviation ram := (gmap Z Z).

(** [table[idx]] for the table whose page is at physical address [table]. *)
Definition pte_get (m : ram) (table idx : Z) : Z := default 0 (m !! (table + 8 * idx)).
Definition pte_set (table idx v : Z) (m : ram) : ram := <[table + 8 * idx := v]> m.

Definition pte_valid (pte : Z) : bool := negb (Z.land pte PTE_V =? 0).
Definition pte_leaf (pte : Z) : bool := negb (Z.land pte PTE_RWX =? 0).

Definition zero_page (pa : Z) (m : ram) : ram :=
  foldl (λ m i, pte_set pa i 0 m) m (seqZ 0 kPtePerPage).

(** ** Where table pages come from *)

Class PageSource (A : Type) := {
  ps_alloc : A → outcome (option Z * A);   (* a page for a table, or none left *)
  ps_free : Z → A → outcome A;             (* give the page at this address back *)
}.

(** What the page-table code relies on: a page handed out is a page of memory
    that nobody was using, and is in use afterwards. *)
Definition page_ok (pa : Z) : Prop := page_aligned pa ∧ 0 < pa < 2 ^ 56.
#[export] Instance page_ok_dec pa : Decision (page_ok pa).
Proof. unfold page_ok. apply _. Defined.

Class PageSourceSpec (A : Type) `{PageSource A} := {
  ps_ok : A → Prop;
  ps_live : A → Z → Prop;
  ps_returns : A → Prop;  (* allocations neither panic nor diverge from here on *)
  ps_alloc_some a pa a' :
    ps_ok a → ps_alloc a = Ret (Some pa, a') →
    ps_ok a' ∧ page_ok pa ∧ ¬ ps_live a pa ∧ (∀ x, page_ok x → ps_live a' x ↔ ps_live a x ∨ x = pa);
  ps_alloc_none a a' :
    ps_ok a → ps_alloc a = Ret (None, a') → ps_ok a' ∧ (∀ x, page_ok x → ps_live a' x ↔ ps_live a x);
  ps_alloc_returns a :
    ps_ok a → ps_returns a → ∃ r a', ps_alloc a = Ret (r, a') ∧ ps_returns a';
}.

Record pm (A : Type) := mkPm { pm_ram : ram; pm_src : A }.
Arguments mkPm {A} pm_ram pm_src.
Arguments pm_ram {A} p.
Arguments pm_src {A} p.

Definition with_ram {A} (f : ram → ram) (s : pm A) : pm A := mkPm (f (pm_ram s)) (pm_src s).

Section pmap.
Context `{PageSource A}.

Definition alloc_pt_page (s : pm A) : outcome (Z * pm A) :=
  '(r, a) ← ps_alloc (pm_src s);
  match r with
  | None => Ret (0, mkPm (pm_ram s) a)
  | Some pa =>
      if pa =? 0 then Ret (0, mkPm (pm_ram s) a)
      else Ret (pa, mkPm (zero_page pa (pm_ram s)) a)
  end.

Definition create (s : pm A) : outcome (Z * pm A) := alloc_pt_page s.

(** The loop [for (level = 2; level > 0; level--)] of [map]: the table of
    level 0, or [None] when no page could be allocated for a missing table. *)
Fixpoint map_walk (level : nat) (va table : Z) (s : pm A) : outcome (option Z * pm A) :=
  match level with
  | O => Ret (Some table, s)
  | S level' =>
      let idx := vpn va level in
      if negb (pte_valid (pte_get (pm_ram s) table idx)) then
        '(child_pa, s) ← alloc_pt_page s;
        if child_pa =? 0 then Ret (None, s)
        else
          let s := with_ram (pte_set table idx (pa_to_pte child_pa PTE_V)) s in
          map_walk level' va (pte_to_pa (pte_get (pm_ram s) table idx)) s
      else map_walk level' va (pte_to_pa (pte_get (pm_ram s) table idx)) s
  end.

Definition leaf_flags (perm : Z) : Z := Z.lor (Z.lor (Z.lor perm PTE_V) PTE_A) PTE_D.

Definition map (root_pa va pa perm : Z) (s : pm A) : outcome (Z * pm A) :=
  '(r, s) ← map_walk 2 va root_pa s;
  match r with
  | None => Ret (-12, s)
  | Some table => Ret (0, with_ram (pte_set table (vpn va 0) (pa_to_pte pa (leaf_flags perm))) s)
  end.

Definition map_2mb (root_pa va pa perm : Z) (s : pm A) : outcome (Z * pm A) :=
  let k2MB := 2 * 1024 * 1024 in
  if negb (Z.land va (k2MB - 1) =? 0) || negb (Z.land pa (k2MB - 1) =? 0) then Ret (-22, s)
  else
    let idx2 := vpn va 2 in
    '(r, s) ← (if negb (pte_valid (pte_get (pm_ram s) root_pa idx2)) then
                 '(child_pa, s) ← alloc_pt_page s;
                 if child_pa =? 0 then Ret (None, s)
                 else Ret (Some tt, with_ram (pte_set root_pa idx2 (pa_to_pte child_pa PTE_V)) s)
               else Ret (Some tt, s));
    match r with
    | None => Ret (-12, s)
    | Some _ =>
        let table := pte_to_pa (pte_get (pm_ram s) root_pa idx2) in
        Ret (0, with_ram (pte_set table (vpn va 1) (pa_to_pte pa (leaf_flags perm))) s)
    end.

(** [destroy]: free the level-0 tables of each level-1 table, the level-1
    tables, and the root. *)
Fixpoint destroy_l1 (n : nat) (j l1 : Z) (m : ram) (a : A) : outcome A :=
  match n with
  | O => Ret a
  | S n' =>
      let e := pte_get m l1 j in
      a ← (if pte_valid e && negb (pte_leaf e) then ps_free (pte_to_pa e) a else Ret a);
      destroy_l1 n' (j + 1) l1 m a
  end.

Fixpoint destroy_l2 (n : nat) (i l2 : Z) (m : ram) (a : A) : outcome A :=
  match n with
  | O => Ret a
  | S n' =>
      let e := pte_get m l2 i in
      a ← (if pte_valid e && negb (pte_leaf e)
           then a ← destroy_l1 (Z.to_nat kPtePerPage) 0 (pte_to_pa e) m a; ps_free (pte_to_pa e) a
           else Ret a);
      destroy_l2 n' (i + 1) l2 m a
  end.

Definition destroy (root_pa : Z) (s : pm A) : outcome (pm A) :=
  a ← destroy_l2 (Z.to_nat kPtePerPage) 0 root_pa (pm_ram s) (pm_src s);
  a ← ps_free root_pa a;
  Ret (mkPm (pm_ram s) a).
End pmap.

(** [unmap]'s walk: the level-0 table, if every table on the way is present. *)
Fixpoint unmap_walk (level : nat) (va table : Z) (m : ram) : option Z :=
  match level with
  | O => Some table
  | S level' =>
      let e := pte_get m table (vpn va level) in
      if pte_valid e then unmap_walk level' va (pte_to_pa e) m else None
  end.

Definition unmap (root_pa va : Z) (m : ram) : ram :=
  match unmap_walk 2 va root_pa m with
  | None => m
  | Some table => pte_set table (vpn va 0) 0 m
  end.

(** The loop that [protect], [lookup], [is_cow] and [make_cow] share,
    [for (level = 2; level >= 0; level--)]: the first entry on the way with a
    permission bit, with its table and index. *)
Fixpoint find_leaf (level : nat) (va table : Z) (m : ram) : option (Z * Z * Z) :=
  let idx := vpn va level in
  let pte := pte_get m table idx in
  if negb (pte_valid pte) then None
  else if pte_leaf pte then Some (table, idx, pte)
  else match level with
       | O => None
       | S level' => find_leaf level' va (pte_to_pa pte) m
       end.

Definition protect (root_pa va perm : Z) (m : ram) : Z * ram :=
  match find_leaf 2 va root_pa m with
  | None => (-14, m)
  | Some (table, idx, pte) =>
      (0, pte_set table idx (pa_to_pte (pte_to_pa pte) (Z.lor perm PTE_V)) m)
  end.

Definition lookup (root_pa va : Z) (m : ram) : option Z :=
  match find_leaf 2 va root_pa m with
  | None => None
  | Some (_, _, pte) => Some (pte_to_pa pte)
  end.

Definition is_cow (root_pa va : Z) (m : ram) : bool :=
  match find_leaf 2 va root_pa m with
  | None => false
  | Some (_, _, pte) => negb (Z.land pte PTE_COW =? 0)
  end.

Definition make_cow (root_pa va : Z) (m : ram) : Z * ram :=
  match find_leaf 2 va root_pa m with
  | None => (-14, m)
  | Some (table, idx, pte) =>
      let pte := Z.land pte (u64 (Z.lnot PTE_W)) in
      let pte := Z.lor pte PTE_COW in
      (0, pte_set table idx pte m)
  end.

(** The loop of [protect_range] over the pages of the range: a page that is not
    mapped is skipped. *)
Definition protect_step (root_pa va_end perm : Z) (st : Z * ram) : Z * ram + Z * ram :=
  let '(va, m) := st in
  if va <? va_end then
    let '(ret, m) := protect root_pa va perm m in
    if ret =? -14 then inl (u64 (va + kPageSize), m)
    else if ret <? 0 then inr (ret, m)
    else inl (u64 (va + kPageSize), m)
  else inr (0, m).

Definition protect_range (root_pa start end_ perm : Z) (m : ram) : outcome (Z * ram) :=
  if end_ <=? start then Ret (0, m)
  else match loop 64 (protect_step root_pa (page_align_up end_) perm) (page_align_down start, m) with
       | inr r => Ret r
       | inl _ => OutOfFuel
       end.

(** ** Arithmetic of entries *)

Definition flags_ok (fl : Z) : Prop := 0 ≤ fl < 2 ^ 10.

Lemma pa_to_pte_eq pa fl :
  page_aligned pa → 0 ≤ pa < 2 ^ 56 → flags_ok fl → pa_to_pte pa fl = pa / 4096 * 2 ^ 10 + fl.
Proof.
  intros Hal Hpa Hfl. unfold pa_to_pte. rewrite Z.shiftr_div_pow2, Z.shiftl_mul_pow2 by lia.
  change (2 ^ 12) with 4096. assert (0 ≤ pa / 4096 < 2 ^ 44).
  { split; [apply Z.div_pos; lia|]. apply Z.div_lt_upper_bound; lia. }
  rewrite wrap_small by lia. by apply lor_low_high.
Qed.

Lemma pte_roundtrip pa fl :
  page_aligned pa → 0 ≤ pa < 2 ^ 56 → flags_ok fl → pte_to_pa (pa_to_pte pa fl) = pa.
Proof.
  intros Hal Hpa Hfl. rewrite pa_to_pte_eq by done. unfold pte_to_pa, flags_ok in *.
  assert (Hq : 0 ≤ pa / 4096 < 2 ^ 44).
  { split; [apply Z.div_pos; lia|]. apply Z.div_lt_upper_bound; lia. }
  rewrite Z.shiftr_div_pow2 by lia.
  replace ((pa / 4096 * 2 ^ 10 + fl) / 2 ^ 10) with (pa / 4096)
    by (apply (Z.div_unique _ _ _ fl); lia).
  change 0xFFFFFFFFFFF with (2 ^ 44 - 1). rewrite land_ones_mod, Z.mod_small by lia.
  rewrite Z.shiftl_mul_pow2 by lia. rewrite wrap_small by lia.
  unfold page_aligned, kPageSize in Hal. pose proof (Z.div_mod pa 4096). lia.
Qed.

Lemma pte_flags pa fl mask :
  page_aligned pa → 0 ≤ pa < 2 ^ 56 → flags_ok fl → flags_ok mask →
  Z.land (pa_to_pte pa fl) mask = Z.land fl mask.
Proof.
  intros Hal Hpa Hfl Hmask. unfold pa_to_pte. rewrite Z.land_lor_distr_l.
  rewrite Z.shiftr_div_pow2, Z.shiftl_mul_pow2 by lia.
  assert (0 ≤ pa / 2 ^ 12 < 2 ^ 44).
  { split; [apply Z.div_pos; lia|]. apply Z.div_lt_upper_bound; lia. }
  rewrite wrap_small by lia. rewrite land_low_high by (done || lia). by rewrite Z.lor_0_l.
Qed.

Lemma table_pte pa : page_ok pa → 
  let e := pa_to_pte pa PTE_V in pte_valid e = true ∧ pte_leaf e = false ∧ pte_to_pa e = pa.
Proof.
  intros (Hal & Hpa). assert (flags_ok PTE_V) by (by vm_compute). assert (flags_ok PTE_RWX) by (by vm_compute).
  unfold pte_valid, pte_leaf. rewrite !pte_flags by (done || lia). split_and!; [done..|].
  apply pte_roundtrip; (done || lia).
Qed.

Lemma vpn_range va level : 0 ≤ vpn va level < kPtePerPage.
Proof. unfold vpn. change 0x1FF with (2 ^ 9 - 1). rewrite land_ones_mod by lia. apply Z.mod_pos_bound. by vm_compute. Qed.

(** Words of distinct table pages, or of distinct entries, do not overlap. *)
Lemma entry_inj t1 i1 t2 i2 :
  page_aligned t1 → page_aligned t2 → 0 ≤ i1 < kPtePerPage → 0 ≤ i2 < kPtePerPage →
  t1 + 8 * i1 = t2 + 8 * i2 → t1 = t2 ∧ i1 = i2.
Proof.
  unfold page_aligned, kPageSize, kPtePerPage. intros H1 H2 Hi1 Hi2 E.
  pose proof (Z.div_mod t1 4096). pose proof (Z.div_mod t2 4096). lia.
Qed.

Lemma pte_get_set t i v m t' i' :
  page_aligned t → page_aligned t' → 0 ≤ i < kPtePerPage → 0 ≤ i' < kPtePerPage →
  pte_get (pte_set t i v m) t' i' = if decide (t = t' ∧ i = i') then v else pte_get m t' i'.
Proof.
  intros Ht Ht' Hi Hi'. unfold pte_get, pte_set. rewrite lookup_insert.
  case_decide as E; case_decide as E'; try done.
  - destruct E'. by apply entry_inj in E.
  - destruct E' as [-> ->]. done.
Qed.

Lemma zero_page_get pa m t i :
  page_aligned pa → page_aligned t → 0 ≤ i < kPtePerPage →
  pte_get (zero_page pa m) t i = if decide (pa = t) then 0 else pte_get m t i.
Proof.
  intros Hpa Ht Hi. unfold zero_page.
  assert (Hgen : ∀ l m, Forall (λ j, 0 ≤ j < kPtePerPage) l →
    pte_get (foldl (λ m j, pte_set pa j 0 m) m l) t i =
    if decide (pa = t ∧ i ∈ l) then 0 else pte_get m t i).
  { clear m. induction l as [|j l IH]; intros m Hl; cbn.
    - rewrite decide_False; [done|]. rewrite elem_of_nil. tauto.
    - apply Forall_cons in Hl as [Hj Hl]. rewrite IH by done. rewrite pte_get_set by done.
      destruct (decide (pa = t ∧ i ∈ l)) as [[? ?]|Hn].
      + rewrite decide_True; [done|]. split; [done|by right].
      + case_decide as E; [destruct E as [-> ->]; rewrite decide_True; [done|split; [done|left]]|].
        rewrite decide_False; [done|]. rewrite elem_of_cons. intros [? [?|?]]; [|tauto]. by apply E. }
  rewrite Hgen.
  - case_decide as E; case_decide as E'; try done; exfalso; [|by destruct E'].
    apply E'. split; [done|]. apply elem_of_seqZ. lia.
  - apply Forall_forall. intros j Hj%elem_of_seqZ. lia.
Qed.

(** ** Well-formed tables

    [T] maps the path of indices that leads to a table (the empty path for the
    root) to the table's page.  Tables have pairwise distinct pages; an entry
    for which [T] has a child is the pointer to it, and every other entry of
    the two upper levels is invalid or a leaf. *)

Abbreviation tables := (gmap (list Z) Z).

Record pt_wf (m : ram) (root : Z) (T : tables) : Prop := {
  pt_root : T !! [] = Some root;
  pt_page p t : T !! p = Some t → page_ok t;
  pt_inj p q t : T !! p = Some t → T !! q = Some t → p = q;
  pt_depth p t : T !! p = Some t → (length p ≤ 2)%nat;
  pt_parent p i c : T !! (p ++ [i]) = Some c → 0 ≤ i < kPtePerPage ∧ is_Some (T !! p);
  pt_child p t i c : T !! p = Some t → T !! (p ++ [i]) = Some c → pte_get m t i = pa_to_pte c PTE_V;
  pt_other p t i :
    T !! p = Some t → (length p < 2)%nat → 0 ≤ i < kPtePerPage → T !! (p ++ [i]) = None →
    pte_valid (pte_get m t i) = false ∨ pte_leaf (pte_get m t i) = true;
}.

Section wf.
Context (m : ram) (root : Z) (T : tables) (Hwf : pt_wf m root T).

Lemma wf_aligned p t : T !! p = Some t → page_aligned t.
Proof using Hwf. intros Hp. by destruct (pt_page _ _ _ Hwf _ _ Hp). Qed.

(** One step of the walks. *)
Lemma find_leaf_child p t lvl va c :
  T !! p = Some t → T !! (p ++ [vpn va (S lvl)]) = Some c →
  find_leaf (S lvl) va t m = find_leaf lvl va c m.
Proof using Hwf.
  intros Hp Hc. cbn [find_leaf]. rewrite (pt_child _ _ _ Hwf p t _ c Hp Hc).
  destruct (table_pte c) as (-> & -> & ->); [by eapply pt_page|]. done.
Qed.

Lemma find_leaf_stop p t lvl va :
  T !! p = Some t → (length p < 2)%nat → T !! (p ++ [vpn va lvl]) = None →
  find_leaf lvl va t m =
    let e := pte_get m t (vpn va lvl) in if pte_valid e then Some (t, vpn va lvl, e) else None.
Proof using Hwf.
  intros Hp Hl Hn. pose proof (pt_other _ _ _ Hwf p t _ Hp Hl (vpn_range va lvl) Hn) as [E|E];
    destruct lvl; cbn [find_leaf]; rewrite E; cbn [negb]; (done || by destruct (pte_valid _)).
Qed.

Lemma find_leaf_last p t va :
  T !! p = Some t →
  find_leaf 0 va t m =
    let e := pte_get m t (vpn va 0) in
    if pte_valid e && pte_leaf e then Some (t, vpn va 0, e) else None.
Proof using Hwf. intros Hp. cbn [find_leaf]. by destruct (pte_valid _), (pte_leaf _). Qed.
End wf.

(** Two memories that agree on every entry of the tables of [T], except one
    whose new content is known to change nothing, walk alike. *)
Lemma find_leaf_frame m m' root T :
  pt_wf m root T →
  (∀ p t i, T !! p = Some t → 0 ≤ i < kPtePerPage → pte_get m' t i = pte_get m t i) →
  ∀ va, find_leaf 2 va root m' = find_leaf 2 va root m.
Proof.
  intros Hwf Hsame va.
  assert (Hgen : ∀ lvl p t, T !! p = Some t → (length p + lvl = 2)%nat →
                            find_leaf lvl va t m' = find_leaf lvl va t m).
  { induction lvl as [|lvl IH]; intros p t Hp Hl.
    - cbn [find_leaf]. by rewrite (Hsame p t) by (done || apply vpn_range).
    - destruct (T !! (p ++ [vpn va (S lvl)])) as [c|] eqn:Ec.
      + rewrite (find_leaf_child m root T Hwf p t lvl va c) by done.
        rewrite <- (IH (p ++ [vpn va (S lvl)]) c) by (done || (rewrite length_app; cbn; lia)).
        cbn [find_leaf]. rewrite (Hsame p t) by (done || apply vpn_range).
        rewrite (pt_child _ _ _ Hwf p t _ c) by done.
        destruct (table_pte c) as (-> & -> & ->); [by eapply pt_page|]. done.
      + rewrite (find_leaf_stop m root T Hwf p t (S lvl) va) by (done || lia).
        cbn [find_leaf]. rewrite (Hsame p t) by (done || apply vpn_range).
        destruct (pt_other _ _ _ Hwf p t (vpn va (S lvl)) Hp ltac:(lia) (vpn_range va _) Ec) as [-> | ->];
          [done|]. by destruct (pte_valid _). }
  apply (Hgen 2%nat []); [apply Hwf|done].
Qed.

Lemma find_leaf_invalid lvl va t m : pte_valid (pte_get m t (vpn va lvl)) = false → find_leaf lvl va t m = None.
Proof. intros E. by destruct lvl; cbn [find_leaf]; rewrite E. Qed.

(** ** Adding an empty table *)

Section add_table.
Context (m : ram) (root : Z) (T : tables) (Hwf : pt_wf m root T).
Context (p : list Z) (t idx c : Z).
Context (Hp : T !! p = Some t) (Hlen : (length p < 2)%nat) (Hidx : 0 ≤ idx < kPtePerPage).
Context (Hnone : T !! (p ++ [idx]) = None) (Hinv : pte_valid (pte_get m t idx) = false).
Context (Hc : page_ok c) (Hfresh : ∀ q t', T !! q = Some t' → t' ≠ c).

Let m' := pte_set t idx (pa_to_pte c PTE_V) (zero_page c m).
Let T' := <[p ++ [idx] := c]> T.

Lemma add_entry q t' i :
  T !! q = Some t' → 0 ≤ i < kPtePerPage →
  pte_get m' t' i = if decide (q = p ∧ i = idx) then pa_to_pte c PTE_V else pte_get m t' i.
Proof using Hwf Hp Hidx Hc Hfresh.
  intros Hq Hi. pose proof (wf_aligned m root T Hwf) as Hal. unfold m'.
  rewrite pte_get_set by (done || by eapply Hal).
  rewrite zero_page_get by (done || apply Hc || (by eapply Hal)).
  rewrite (decide_False (P := c = t')) by (intros <-; by eapply Hfresh).
  case_decide as E; case_decide as E'; try done; exfalso.
  - destruct E as [E1 E2]. apply E'. split; [|done].
    apply (pt_inj _ _ _ Hwf q p t'); [done|by rewrite <- E1].
  - destruct E' as [E1 E2]. apply E. split; [|done]. rewrite E1 in Hq. congruence.
Qed.

Lemma add_zero i : 0 ≤ i < kPtePerPage → pte_get m' c i = 0.
Proof using Hwf Hp Hidx Hc Hfresh.
  intros Hi. unfold m'. rewrite pte_get_set; [|exact (wf_aligned m root T Hwf p t Hp)|apply Hc|done|done].
  rewrite decide_False by (intros [? _]; by eapply Hfresh).
  rewrite zero_page_get by (done || apply Hc). by rewrite decide_True.
Qed.

Lemma add_path q t' : T' !! q = Some t' → (q = p ++ [idx] ∧ t' = c) ∨ (q ≠ p ++ [idx] ∧ T !! q = Some t').
Proof. intros [[<- <-]|[Hn ?]]%lookup_insert_Some; [by left|right]. split; [|done]. by intros ->. Qed.

Lemma add_table_wf : pt_wf m' root T'.
Proof using Hwf Hp Hidx Hc Hfresh Hlen Hnone.
  assert (Hne : ∀ (q : list Z) i, [] ≠ q ++ [i]) by (intros q i E; symmetry in E; by apply app_eq_nil in E as [_ ?]).
  split.
  - unfold T'. rewrite lookup_insert_ne by (intros E; by eapply Hne). apply Hwf.
  - intros q t' [[-> ->]|[_ Hq]]%add_path; [done|by eapply pt_page].
  - intros q q' t' [[-> ->]|[_ Hq]]%add_path [[-> Et]|[_ Hq']]%add_path; [done| | |by eapply pt_inj].
    + by destruct (Hfresh _ _ Hq').
    + subst. by destruct (Hfresh _ _ Hq).
  - intros q t' [[-> ->]|[_ Hq]]%add_path; [rewrite length_app; cbn; lia|by eapply pt_depth].
  - intros q i c' Hq. assert (Hin : 0 ≤ i < kPtePerPage ∧ is_Some (T !! q)).
    { apply add_path in Hq as [[E ->]|[_ Hq]]; [|by eapply pt_parent].
      apply app_inj_tail in E as [-> ->]. eauto. }
    destruct Hin as [Hi [t' Ht']]. split; [done|]. unfold T'.
    destruct (decide (p ++ [idx] = q)) as [<-|]; [rewrite lookup_insert_eq|rewrite lookup_insert_ne by done]; eauto.
  - intros q t' i c' Hq Hqc.
    assert (Hq' : T !! q = Some t').
    { apply add_path in Hq as [[-> ->]|[_ Hq]]; [|done]. exfalso.
      apply add_path in Hqc as [[E _]|[_ Hqc]]; [by apply app_inj_tail in E as [E _]; apply (f_equal length) in E; rewrite length_app in E; cbn in E; lia|].
      destruct (pt_parent _ _ _ Hwf _ _ _ Hqc) as [_ [? ?]]. congruence. }
    assert (Hi : 0 ≤ i < kPtePerPage).
    { apply add_path in Hqc as [[E _]|[_ Hqc]]; [by apply app_inj_tail in E as [_ ->]|by eapply pt_parent]. }
    rewrite (add_entry q) by done. apply add_path in Hqc as [[E ->]|[Hn Hqc]].
    + apply app_inj_tail in E as [-> ->]. by rewrite decide_True.
    + rewrite decide_False by (intros [-> ->]; done). by eapply pt_child.
  - intros q t' i Hq Hl Hi Hn. apply add_path in Hq as [[-> ->]|[_ Hq]].
    + left. by rewrite add_zero.
    + unfold T' in Hn. apply lookup_insert_None in Hn as [Hn Hne'].
      rewrite (add_entry q), decide_False by (done || (intros [-> ->]; done)). by eapply pt_other.
Qed.

Lemma add_table_walk va : find_leaf 2 va root m' = find_leaf 2 va root m.
Proof using Hwf Hp Hidx Hc Hfresh Hlen Hnone Hinv.
  pose proof add_table_wf as Hwf'.
  assert (Hin : ∀ q t', T !! q = Some t' → T' !! q = Some t').
  { intros q t' Hq. unfold T'. rewrite lookup_insert_ne; [done|]. intros <-. congruence. }
  assert (Hgen : ∀ lvl q t', T !! q = Some t' → (length q + lvl = 2)%nat →
                             find_leaf lvl va t' m' = find_leaf lvl va t' m).
  { induction lvl as [|lvl IH]; intros q t' Hq Hl.
    - cbn [find_leaf]. rewrite (add_entry q t') by (done || apply vpn_range).
      rewrite decide_False; [done|]. intros [-> _]. lia.
    - destruct (T !! (q ++ [vpn va (S lvl)])) as [c'|] eqn:Ec.
      + rewrite (find_leaf_child m root T Hwf q t' lvl va c') by done.
        rewrite (find_leaf_child m' root T' Hwf' q t' lvl va c') by auto.
        apply (IH (q ++ [vpn va (S lvl)])); [done|]. rewrite length_app. cbn. lia.
      + rewrite (find_leaf_stop m root T Hwf q t' (S lvl) va) by (done || lia).
        destruct (decide (q ++ [vpn va (S lvl)] = p ++ [idx])) as [E|E].
        * rewrite (find_leaf_child m' root T' Hwf' q t' lvl va c);
            [|by auto|rewrite E; apply lookup_insert_eq].
          rewrite find_leaf_invalid by (by rewrite add_zero by apply vpn_range).
          apply app_inj_tail in E as [-> Ev]. assert (t' = t) as -> by congruence.
          cbv zeta. by rewrite Ev, Hinv.
        * rewrite (find_leaf_stop m' root T' Hwf' q t' (S lvl) va);
            [|by auto|lia|unfold T'; by rewrite lookup_insert_ne].
          rewrite (add_entry q t'), decide_False; [done| |done|apply vpn_range].
          intros [-> Ev]. apply E. by rewrite Ev. }
  apply (Hgen 2%nat []); [apply Hwf|done].
Qed.
End add_table.

(** ** Writing an entry that is not a pointer to a table *)

(** The indices a walk for [va] uses from [level] down. *)
Fixpoint vps (level : nat) (va : Z) : list Z :=
  match level with
  | O => [vpn va 0]
  | S level' => vpn va level :: vps level' va
  end.

Definition leaf_entry (t i v : Z) : option (Z * Z * Z) :=
  if pte_valid v && pte_leaf v then Some (t, i, v) else None.

Lemma pt_prefix m root T q r : pt_wf m root T → is_Some (T !! q) → r `prefix_of` q → is_Some (T !! r).
Proof.
  intros Hwf Hq [k ->]. revert Hq. induction k as [|x k IH] using rev_ind; [by rewrite app_nil_r|].
  rewrite app_assoc. intros [c Hc]. apply IH. by eapply pt_parent.
Qed.

Lemma prefix_app_cmp (p q k : list Z) : p `prefix_of` q ++ k → p `prefix_of` q ∨ q `prefix_of` p.
Proof.
  intros Hp. destruct (prefix_weak_total p q (q ++ k)) as [?|?]; [done|by apply prefix_app_r|auto..].
Qed.

Section set_entry.
Context (m : ram) (root : Z) (T : tables) (Hwf : pt_wf m root T).
Context (p : list Z) (t i v : Z).
Context (Hp : T !! p = Some t) (Hi : 0 ≤ i < kPtePerPage) (Hnone : T !! (p ++ [i]) = None).
Context (Hv : length p = 2%nat ∨ pte_valid v = false ∨ pte_leaf v = true).

Let m' := pte_set t i v m.

Lemma set_entry_get q t' j :
  T !! q = Some t' → 0 ≤ j < kPtePerPage →
  pte_get m' t' j = if decide (q = p ∧ j = i) then v else pte_get m t' j.
Proof using Hwf Hp Hi.
  intros Hq Hj. pose proof (wf_aligned m root T Hwf) as Hal. unfold m'.
  rewrite pte_get_set by (done || by eapply Hal).
  case_decide as E; case_decide as E'; try done; exfalso.
  - destruct E as [E1 E2]. apply E'. split; [|done]. apply (pt_inj _ _ _ Hwf q p t'); [done|by rewrite <- E1].
  - destruct E' as [E1 E2]. apply E. split; [|done]. rewrite E1 in Hq. congruence.
Qed.

Lemma set_entry_wf : pt_wf m' root T.
Proof using Hwf Hp Hi Hnone Hv.
  split; try apply Hwf.
  - intros q t' j c Hq Hqc. assert (Hj : 0 ≤ j < kPtePerPage) by (by eapply pt_parent).
    rewrite (set_entry_get q t' j Hq Hj), decide_False; [by eapply pt_child|].
    intros [E1 E2]. rewrite E1, E2 in Hqc. congruence.
  - intros q t' j Hq Hl Hj Hn. rewrite (set_entry_get q t' j Hq Hj). case_decide as E; [|by eapply pt_other].
    destruct E as [E1 _]. rewrite E1 in Hl. destruct Hv as [?|?]; [lia|done].
Qed.

Lemma set_entry_walk va :
  find_leaf 2 va root m' =
    if decide (p ++ [i] `prefix_of` vps 2 va) then leaf_entry t i v else find_leaf 2 va root m.
Proof using Hwf Hp Hi Hnone Hv.
  pose proof set_entry_wf as Hwf'.
  assert (Hgen : ∀ lvl q t', T !! q = Some t' → (length q + lvl = 2)%nat →
    find_leaf lvl va t' m' =
      if decide (p ++ [i] `prefix_of` q ++ vps lvl va) then leaf_entry t i v else find_leaf lvl va t' m).
  { induction lvl as [|lvl IH]; intros q t' Hq Hl.
    - rewrite (find_leaf_last m' root T Hwf' q t' va Hq), (find_leaf_last m root T Hwf q t' va Hq).
      rewrite (set_entry_get q t' _ Hq (vpn_range va 0)). cbn [vps].
      destruct (decide (q = p ∧ vpn va 0 = i)) as [[Eq Ev]|Hne].
      { rewrite Eq in Hq |- *. rewrite Ev, decide_True by done. unfold leaf_entry.
        by assert (t' = t) as -> by congruence. }
      rewrite decide_False; [done|]. intros Hpre.
      destruct (decide (length p = 2%nat)) as [E2|E2].
      + apply Hne. apply prefix_length_eq in Hpre; [|rewrite !length_app; cbn; lia].
        apply app_inj_tail in Hpre as [-> ->]. done.
      + assert (p ++ [i] `prefix_of` q) as Hpq.
        { destruct (prefix_app_cmp _ _ _ Hpre) as [?|Hqp]; [done|].
          apply prefix_length_eq in Hqp as ->; [done|]. rewrite length_app. cbn.
          pose proof (pt_depth _ _ _ Hwf p t Hp). lia. }
        destruct (pt_prefix m root T q (p ++ [i]) Hwf ltac:(eauto) Hpq) as [? ?]. congruence.
    - destruct (T !! (q ++ [vpn va (S lvl)])) as [c|] eqn:Ec.
      + rewrite (find_leaf_child m' root T Hwf' q t' lvl va c) by done.
        rewrite (find_leaf_child m root T Hwf q t' lvl va c) by done.
        rewrite (IH (q ++ [vpn va (S lvl)]) c) by (done || (rewrite length_app; cbn; lia)).
        by rewrite <- app_assoc.
      + rewrite (find_leaf_stop m' root T Hwf' q t' (S lvl) va) by (done || lia).
        rewrite (find_leaf_stop m root T Hwf q t' (S lvl) va) by (done || lia). cbv zeta.
        rewrite (set_entry_get q t' _ Hq (vpn_range va _)). cbn [vps].
        destruct (decide (q = p ∧ vpn va (S lvl) = i)) as [[Eq Ev]|Hne].
        { rewrite Eq in Hq, Hl |- *. rewrite Ev. rewrite decide_True by (apply prefix_app, prefix_cons, prefix_nil).
          unfold leaf_entry. assert (t' = t) as -> by congruence.
          destruct Hv as [?|[-> | ->]]; [lia|done|by rewrite andb_true_r]. }
        rewrite decide_False; [done|]. intros Hpre.
        replace (q ++ vpn va (S lvl) :: vps lvl va) with ((q ++ [vpn va (S lvl)]) ++ vps lvl va) in Hpre
          by (by rewrite <- app_assoc).
        destruct (prefix_app_cmp _ _ _ Hpre) as [[k Hk]|[k Hk]].
        * destruct k as [|x k _] using rev_ind.
          { rewrite app_nil_r in Hk. apply app_inj_tail in Hk as [? ?]. by apply Hne. }
          rewrite app_assoc in Hk. apply app_inj_tail in Hk as [Hk _].
          destruct (pt_prefix m root T q (p ++ [i]) Hwf ltac:(eauto)) as [? ?]; [by exists k|]. congruence.
        * destruct k as [|x k _] using rev_ind.
          { rewrite app_nil_r in Hk. apply app_inj_tail in Hk as [? ?]. by apply Hne. }
          rewrite app_assoc in Hk. apply app_inj_tail in Hk as [Hk _].
          destruct (pt_prefix m root T p (q ++ [vpn va (S lvl)]) Hwf ltac:(eauto)) as [? ?]; [by exists k|].
          congruence. }
  rewrite (Hgen 2%nat [] root) by (done || apply Hwf). done.
Qed.
End set_entry.

(** ** Mapping a page

    The tables of an address space: well formed, with no mega page, on pages
    that the page source knows to be in use. *)

Section mapping.
Context `{PageSourceSpec A}.

Record pt_state (s : pm A) (root : Z) (T : tables) : Prop := {
  st_wf : pt_wf (pm_ram s) root T;
  st_small p t i :
    T !! p = Some t → (length p < 2)%nat → 0 ≤ i < kPtePerPage → T !! (p ++ [i]) = None →
    pte_valid (pte_get (pm_ram s) t i) = false;
  st_src : ps_ok (pm_src s);
  st_live p t : T !! p = Some t → ps_live (pm_src s) t;
}.

(** A page in use for something else than these tables. *)
Definition data_page (s : pm A) (T : tables) (x : Z) : Prop :=
  page_ok x ∧ ps_live (pm_src s) x ∧ ∀ p, T !! p ≠ Some x.

(** Growing the tables moves no translation and no data. *)
Record grows (root : Z) (s : pm A) (T : tables) (s' : pm A) (T' : tables) : Prop := {
  gr_state : pt_state s' root T';
  gr_tables : T ⊆ T';
  gr_walk va : find_leaf 2 va root (pm_ram s') = find_leaf 2 va root (pm_ram s);
  gr_data x : data_page s T x → data_page s' T' x;
  gr_words x i : data_page s T x → 0 ≤ i < kPtePerPage → pte_get (pm_ram s') x i = pte_get (pm_ram s) x i;
}.

Lemma grows_refl root s T : pt_state s root T → grows root s T s T.
Proof. by split. Qed.

Lemma grows_trans root s1 T1 s2 T2 s3 T3 :
  grows root s1 T1 s2 T2 → grows root s2 T2 s3 T3 → grows root s1 T1 s3 T3.
Proof.
  intros [A1 B1 C1 D1 E1] [A2 B2 C2 D2 E2]. split; [done|by etrans|intros va; by rewrite C2|auto|].
  intros x i Hx Hi. rewrite E2 by auto. by apply E1.
Qed.

Lemma alloc_pt_page_cases s r s' :
  alloc_pt_page s = Ret (r, s') →
  ∃ o, ps_alloc (pm_src s) = Ret (o, pm_src s') ∧
       ((r = 0 ∧ pm_ram s' = pm_ram s ∧ (o = None ∨ o = Some 0)) ∨
        (r ≠ 0 ∧ o = Some r ∧ pm_ram s' = zero_page r (pm_ram s))).
Proof.
  unfold alloc_pt_page. destruct (ps_alloc (pm_src s)) as [[[pa|] a]| |]; cbn; [| |done..].
  - destruct (Z.eqb_spec pa 0) as [->|]; intros [= <- <-]; eauto 10.
  - intros [= <- <-]. eauto 10.
Qed.

(** A failed allocation of a table page. *)
Lemma grows_fail root s T s' :
  pt_state s root T → alloc_pt_page s = Ret (0, s') → grows root s T s' T.
Proof.
  intros [S1 S2 S3 S4] (o & Ha & [(_ & Er & Ho)|(? & _)])%alloc_pt_page_cases; [|done].
  assert (Hs : ps_ok (pm_src s') ∧ ∀ x, page_ok x → ps_live (pm_src s') x ↔ ps_live (pm_src s) x).
  { destruct Ho as [->| ->]; [by apply ps_alloc_none|].
    destruct (ps_alloc_some _ _ _ S3 Ha) as (_ & [_ ?] & _). lia. }
  destruct Hs as [Hok Hlive]. split; rewrite ?Er; try done.
  - split; rewrite ?Er; try done. intros p t Hp. apply Hlive; [by eapply pt_page|by eapply S4].
  - intros x (H1 & H2 & H3). split_and!; [done|by apply Hlive|done].
Qed.

(** A successful one, linked into its parent. *)
Lemma grows_table root s T p t idx c s' :
  pt_state s root T → T !! p = Some t → (length p < 2)%nat → 0 ≤ idx < kPtePerPage →
  T !! (p ++ [idx]) = None → alloc_pt_page s = Ret (c, s') → c ≠ 0 →
  let s'' := with_ram (pte_set t idx (pa_to_pte c PTE_V)) s' in
  grows root s T s'' (<[p ++ [idx] := c]> T) ∧ page_ok c.
Proof.
  intros [S1 S2 S3 S4] Hp Hl Hidx Hn (o & Ha & [(? & _)|(_ & -> & Er)])%alloc_pt_page_cases Hc s''; [done|].
  destruct (ps_alloc_some _ _ _ S3 Ha) as (Hok & Hpc & Hdead & Hlive).
  assert (Hfresh : ∀ q t', T !! q = Some t' → t' ≠ c).
  { intros q t' Hq ->. apply Hdead. by eapply S4. }
  pose proof (S2 p t idx Hp Hl Hidx Hn) as Hinv.
  pose proof (add_entry (pm_ram s) root T S1 p t idx c Hp Hidx Hpc Hfresh) as Hent.
  pose proof (add_zero (pm_ram s) root T S1 p t idx c Hp Hidx Hpc Hfresh) as Hzero.
  assert (Hm : pm_ram s'' = pte_set t idx (pa_to_pte c PTE_V) (zero_page c (pm_ram s))).
  { cbn. by rewrite Er. }
  split; [split|done].
  - split; rewrite ?Hm.
    + by apply add_table_wf.
    + intros q t' i Hq Hlq Hi Hnq. apply lookup_insert_None in Hnq as [Hnq Hne].
      apply lookup_insert_Some in Hq as [[<- <-]|[Hqne Hq]]; [by rewrite Hzero|].
      rewrite (Hent q) by done. rewrite decide_False by (intros [-> ->]; done). by eapply S2.
    + done.
    + intros q t' [[_ <-]|[_ Hq]]%lookup_insert_Some; cbn; apply Hlive; auto; [by eapply pt_page|left; by eapply S4].
  - by apply insert_subseteq.
  - intros va. rewrite Hm. by apply add_table_walk with (T := T) (p := p).
  - intros x (H1 & H2 & H3). split_and!; [done|by apply Hlive; auto|].
    intros q [[_ <-]|[_ Hq]]%lookup_insert_Some; [done|by eapply H3].
  - intros x i (Hx & Hlx & Hnx) Hi. rewrite Hm.
    rewrite pte_get_set by (done || apply Hx || by eapply wf_aligned).
    rewrite decide_False by (intros [-> _]; by eapply Hnx).
    rewrite zero_page_get by (done || apply Hx || apply Hpc). rewrite decide_False; [done|]. intros ->. done.
Qed.

(** A relation between the page source and the tables that growing the tables
    keeps, whatever else uses the source. *)
Definition source_closed (G : A → tables → Prop) : Prop :=
  (∀ a T p pa a', ps_ok a → G a T → T !! p = None → ps_alloc a = Ret (Some pa, a') → G a' (<[p := pa]> T)) ∧
  (∀ a T a', ps_ok a → G a T → ps_alloc a = Ret (None, a') → G a' T).

Lemma closed_fail G s T s' :
  source_closed G → ps_ok (pm_src s) → G (pm_src s) T → alloc_pt_page s = Ret (0, s') → G (pm_src s') T.
Proof.
  intros [_ HG] Hok Hs (o & Ha & [(_ & _ & [->| ->])|(? & _)])%alloc_pt_page_cases; [by eapply HG| |done].
  destruct (ps_alloc_some _ _ _ Hok Ha) as (_ & [_ ?] & _). lia.
Qed.

Lemma closed_table G s T p c s' :
  source_closed G → ps_ok (pm_src s) → G (pm_src s) T → T !! p = None → alloc_pt_page s = Ret (c, s') → c ≠ 0 →
  G (pm_src s') (<[p := c]> T).
Proof.
  intros [HG _] Hok Hs Hp (o & Ha & [(? & _)|(_ & -> & _)])%alloc_pt_page_cases Hc; [done|by eapply HG].
Qed.

(** The upper indices of the walk for [va]. *)
Fixpoint upper (level : nat) (va : Z) : list Z :=
  match level with O => [] | S level' => vpn va level :: upper level' va end.

Lemma map_walk_ok level va root q table s T r s' :
  pt_state s root T → T !! q = Some table → (length q + level = 2)%nat →
  map_walk level va table s = Ret (r, s') →
  ∃ T', grows root s T s' T' ∧
        match r with Some t0 => T' !! (q ++ upper level va) = Some t0 | None => True end ∧
        ∀ G, source_closed G → G (pm_src s) T → G (pm_src s') T'.
Proof.
  revert q table s T. induction level as [|level IH]; intros q table s T Hs Hq Hl; cbn [map_walk upper].
  { intros [= <- <-]. exists T. rewrite app_nil_r. split_and!; auto using grows_refl. }
  set (idx := vpn va (S level)). pose proof (vpn_range va (S level)) as Hidx. fold idx in Hidx.
  pose proof (st_wf _ _ _ Hs) as Hwf.
  destruct (T !! (q ++ [idx])) as [c|] eqn:Ec.
  - rewrite (pt_child _ _ _ Hwf q table idx c Hq Ec).
    destruct (table_pte c) as (-> & _ & ->); [by eapply pt_page|]. cbn [negb]. intros Hw.
    apply (IH (q ++ [idx])) with (T := T) in Hw as (T' & HT & Hr & HG); [|done|done|rewrite length_app; cbn; lia].
    exists T'. split_and!; [done| |done]. destruct r; [|done]. by rewrite <- app_assoc in Hr.
  - rewrite (st_small _ _ _ Hs q table idx) by (done || lia). cbn [negb].
    destruct (alloc_pt_page s) as [[c s1]| |] eqn:Ea; [|done..]. cbn.
    destruct (Z.eqb_spec c 0) as [->|Hc].
    { intros [= <- <-]. exists T. split_and!; [by apply grows_fail|done|].
      intros G HG HGs. apply (closed_fail G s T s1 HG); [apply Hs|done..]. }
    destruct (grows_table root s T q table idx c s1) as [Hg Hpc]; [done|done|lia|done..|].
    set (s2 := with_ram _ s1) in *. intros Hw.
    assert (Hget : pte_get (pte_set table idx (pa_to_pte c PTE_V) (pm_ram s1)) table idx = pa_to_pte c PTE_V).
    { rewrite pte_get_set by (done || by eapply wf_aligned). by rewrite decide_True. }
    rewrite Hget in Hw. destruct (table_pte c Hpc) as (_ & _ & Hcc). rewrite Hcc in Hw.
    apply (IH (q ++ [idx])) with (T := <[q ++ [idx] := c]> T) in Hw as (T' & HT & Hr & HG);
      [|apply Hg|apply lookup_insert_eq|rewrite length_app; cbn; lia].
    exists T'. split_and!; [by eapply grows_trans| |].
    + destruct r; [|done]. by rewrite <- app_assoc in Hr.
    + intros G HGc HGs. apply HG; [done|]. apply (closed_table G s T (q ++ [idx]) c s1 HGc); [apply Hs|done..].
Qed.
End mapping.

(** ** Translation: what the hardware sees

    The physical page and the permission bits a virtual address has. *)

Definition pte_bits (pte : Z) : Z := Z.land pte 0x3FF.

Definition translate (root va : Z) (m : ram) : option (Z * Z) :=
  '(_, _, pte) ← find_leaf 2 va root m; Some (pte_to_pa pte, pte_bits pte).

Definition same_page (va va' : Z) : Prop := vps 2 va = vps 2 va'.
#[export] Instance same_page_dec va va' : Decision (same_page va va').
Proof. unfold same_page. apply _. Defined.

Lemma vpn_div va level : vpn va level = va / 2 ^ (12 + 9 * Z.of_nat level) mod 512.
Proof.
  unfold vpn. change 0x1FF with (2 ^ 9 - 1). rewrite land_ones_mod by lia.
  by rewrite Z.shiftr_div_pow2 by lia.
Qed.

(** The walk uses bits 12 to 38 of the address and no others. *)
Lemma same_page_iff va va' :
  same_page va va' ↔ (va / kPageSize) mod 2 ^ 27 = (va' / kPageSize) mod 2 ^ 27.
Proof.
  unfold same_page, kPageSize. cbn [vps]. rewrite !vpn_div.
  change (12 + 9 * Z.of_nat 2) with 30. change (12 + 9 * Z.of_nat 1) with 21. change (12 + 9 * Z.of_nat 0) with 12.
  assert (Hd : ∀ v, v / 2 ^ 30 mod 512 * 2 ^ 18 + v / 2 ^ 21 mod 512 * 2 ^ 9 + v / 2 ^ 12 mod 512 = v / 4096 mod 2 ^ 27).
  { intros v. change 4096 with (2 ^ 12).
    replace (v / 2 ^ 30) with (v / 2 ^ 12 / 2 ^ 18) by (rewrite Z.div_div by lia; done).
    replace (v / 2 ^ 21) with (v / 2 ^ 12 / 2 ^ 9) by (rewrite Z.div_div by lia; done).
    generalize (v / 2 ^ 12). clear. intros x. change 512 with (2 ^ 9).
    replace (2 ^ 27) with (2 ^ 9 * (2 ^ 9 * 2 ^ 9)) by done.
    rewrite (Z.rem_mul_r x (2 ^ 9)), (Z.rem_mul_r (x / 2 ^ 9) (2 ^ 9)) by lia.
    rewrite (Z.div_div x (2 ^ 9) (2 ^ 9)) by lia. change (2 ^ 9 * 2 ^ 9) with (2 ^ 18). lia. }
  rewrite <- !Hd. split; [by intros [= -> -> ->]|].
  pose proof (Z.mod_pos_bound (va / 2 ^ 30) 512). pose proof (Z.mod_pos_bound (va / 2 ^ 21) 512).
  pose proof (Z.mod_pos_bound (va / 2 ^ 12) 512). pose proof (Z.mod_pos_bound (va' / 2 ^ 30) 512).
  pose proof (Z.mod_pos_bound (va' / 2 ^ 21) 512). pose proof (Z.mod_pos_bound (va' / 2 ^ 12) 512).
  intros E.
  assert (va / 2 ^ 30 mod 512 = va' / 2 ^ 30 mod 512 ∧ va / 2 ^ 21 mod 512 = va' / 2 ^ 21 mod 512 ∧
          va / 2 ^ 12 mod 512 = va' / 2 ^ 12 mod 512) as (-> & -> & ->) by lia.
  done.
Qed.

Lemma pte_to_pa_page pte : page_aligned (pte_to_pa pte) ∧ 0 ≤ pte_to_pa pte < 2 ^ 56.
Proof.
  unfold pte_to_pa. change 0xFFFFFFFFFFF with (2 ^ 44 - 1). rewrite land_ones_mod by lia.
  pose proof (Z.mod_pos_bound (Z.shiftr pte 10) (2 ^ 44)).
  rewrite Z.shiftl_mul_pow2, wrap_small by lia. split; [|lia].
  unfold page_aligned, kPageSize. change (2 ^ 12) with 4096. by apply Z.mod_mul.
Qed.

Lemma pte_bits_eq pa fl :
  page_aligned pa → 0 ≤ pa < 2 ^ 56 → flags_ok fl → pte_bits (pa_to_pte pa fl) = fl.
Proof.
  intros. unfold pte_bits. rewrite pte_flags by (done || by vm_compute).
  change 0x3FF with (2 ^ 10 - 1). rewrite land_ones_mod by lia. apply Z.mod_small. done.
Qed.

(** What an entry made of a page and flags translates to. *)
Definition entry_result (pa fl : Z) : option (Z * Z) :=
  if negb (Z.land fl PTE_V =? 0) && negb (Z.land fl PTE_RWX =? 0) then Some (pa, fl) else None.

Lemma leaf_entry_result t i pa fl :
  page_aligned pa → 0 ≤ pa < 2 ^ 56 → flags_ok fl →
  ('(_, _, pte) ← leaf_entry t i (pa_to_pte pa fl); Some (pte_to_pa pte, pte_bits pte)) = entry_result pa fl.
Proof.
  intros Hal Hpa Hfl. unfold leaf_entry, entry_result, pte_valid, pte_leaf.
  rewrite !pte_flags by (done || by vm_compute).
  case_match; cbn; [|done]. by rewrite pte_roundtrip, pte_bits_eq.
Qed.

Section operations.
Context `{PageSourceSpec A}.
Context (root : Z) (s : pm A) (T : tables) (Hs : pt_state s root T).

(** Without mega pages every walk ends at level 0. *)
Lemma find_leaf_small va :
  find_leaf 2 va root (pm_ram s) =
    t0 ← T !! [vpn va 2; vpn va 1]; leaf_entry t0 (vpn va 0) (pte_get (pm_ram s) t0 (vpn va 0)).
Proof using Hs.
  pose proof (st_wf _ _ _ Hs) as Hwf. pose proof (pt_root _ _ _ Hwf) as Hr.
  assert (Hstop : ∀ p t lvl, T !! p = Some t → (length p < 2)%nat → T !! (p ++ [vpn va lvl]) = None →
                             find_leaf lvl va t (pm_ram s) = None).
  { intros p t lvl Hp Hl Hn. apply find_leaf_invalid. eapply st_small; [done..|apply vpn_range|done]. }
  destruct (T !! [vpn va 2]) as [t1|] eqn:E1.
  - rewrite (find_leaf_child _ _ _ Hwf [] root 1 va t1) by done.
    destruct (T !! [vpn va 2; vpn va 1]) as [t0|] eqn:E0; cbn [mbind option_bind].
    + rewrite (find_leaf_child _ _ _ Hwf [vpn va 2] t1 0 va t0) by done.
      by rewrite (find_leaf_last _ _ _ Hwf [vpn va 2; vpn va 1] t0 va).
    + apply (Hstop [vpn va 2]); (done || (cbn; lia)).
  - rewrite (Hstop [] root 2%nat) by (done || (cbn; lia)).
    destruct (T !! [vpn va 2; vpn va 1]) as [t0|] eqn:E0; [|done].
    change [vpn va 2; vpn va 1] with ([vpn va 2] ++ [vpn va 1]) in E0.
    destruct (pt_parent _ _ _ Hwf _ _ _ E0) as [_ [? ?]]. congruence.
Qed.

Lemma unmap_walk_small va : unmap_walk 2 va root (pm_ram s) = T !! [vpn va 2; vpn va 1].
Proof using Hs.
  pose proof (st_wf _ _ _ Hs) as Hwf. pose proof (pt_root _ _ _ Hwf) as Hr. cbn [unmap_walk].
  destruct (T !! [vpn va 2]) as [t1|] eqn:E1.
  - rewrite (pt_child _ _ _ Hwf [] root _ t1 Hr E1).
    destruct (table_pte t1) as (-> & _ & ->); [by eapply pt_page|].
    destruct (T !! [vpn va 2; vpn va 1]) as [t0|] eqn:E0.
    + rewrite (pt_child _ _ _ Hwf [vpn va 2] t1 _ t0 E1 E0).
      by destruct (table_pte t0) as (-> & _ & ->); [by eapply pt_page|].
    + rewrite (st_small _ _ _ Hs [vpn va 2] t1); [done|done|cbn; lia|apply vpn_range|done].
  - rewrite (st_small _ _ _ Hs [] root); [|done|cbn; lia|apply vpn_range|done].
    destruct (T !! [vpn va 2; vpn va 1]) as [t0|] eqn:E0; [|done].
    change [vpn va 2; vpn va 1] with ([vpn va 2] ++ [vpn va 1]) in E0.
    destruct (pt_parent _ _ _ Hwf _ _ _ E0) as [_ [? ?]]. congruence.
Qed.

(** Writing the level-0 entry of [va]. *)
Lemma write_leaf va t0 v :
  T !! [vpn va 2; vpn va 1] = Some t0 →
  let s' := with_ram (pte_set t0 (vpn va 0) v) s in
  pt_state s' root T ∧
  (∀ va', translate root va' (pm_ram s') =
     if decide (same_page va va')
     then '(_, _, pte) ← leaf_entry t0 (vpn va 0) v; Some (pte_to_pa pte, pte_bits pte)
     else translate root va' (pm_ram s)) ∧
  (∀ x i, data_page s T x → 0 ≤ i < kPtePerPage → pte_get (pm_ram s') x i = pte_get (pm_ram s) x i).
Proof using Hs.
  intros Ht s'. pose proof (st_wf _ _ _ Hs) as Hwf. pose proof (vpn_range va 0) as Hi.
  assert (Hno : T !! ([vpn va 2; vpn va 1] ++ [vpn va 0]) = None).
  { apply eq_None_not_Some. intros [c E]. pose proof (pt_depth _ _ _ Hwf _ _ E) as Hd. cbn in Hd. lia. }
  split_and!; [split|..].
  - by apply (set_entry_wf (pm_ram s) root T Hwf [vpn va 2; vpn va 1]); auto.
  - intros p t i Hp Hl Hir Hn. cbn.
    rewrite (set_entry_get (pm_ram s) root T Hwf [vpn va 2; vpn va 1] t0 (vpn va 0) v Ht Hi p t i Hp Hir).
    rewrite decide_False; [by eapply st_small|]. intros [-> _]. cbn in Hl. lia.
  - apply Hs.
  - apply Hs.
  - intros va'. unfold translate. cbn [pm_ram s' with_ram].
    rewrite (set_entry_walk (pm_ram s) root T Hwf [vpn va 2; vpn va 1] t0 (vpn va 0) v) by auto.
    change ([vpn va 2; vpn va 1] ++ [vpn va 0]) with (vps 2 va). unfold same_page.
    destruct (decide (vps 2 va = vps 2 va')) as [E|E].
    + by rewrite decide_True by (by rewrite E).
    + rewrite decide_False; [done|]. intros Hpre. apply E. by apply prefix_length_eq.
  - intros x i (Hx & _ & Hn) Hir. cbn. rewrite pte_get_set;
      [|by eapply wf_aligned|apply Hx|done|done]. rewrite decide_False; [done|].
    intros [-> _]. by eapply Hn.
Qed.
End operations.

Lemma flags_lor a b : flags_ok a → flags_ok b → flags_ok (Z.lor a b).
Proof. by apply lor_bound. Qed.

Lemma leaf_flags_ok perm : flags_ok perm → flags_ok (leaf_flags perm).
Proof. intros. unfold leaf_flags. by repeat apply flags_lor. Qed.

Section specs.
Context `{PageSourceSpec A}.

(** A change of the translation of the page of [va] alone. *)
Definition updates (root va : Z) (new : option (Z * Z)) (m m' : ram) : Prop :=
  ∀ va', translate root va' m' = if decide (same_page va va') then new else translate root va' m.

Record keeps_data (s : pm A) (T : tables) (s' : pm A) (T' : tables) : Prop := {
  kd_page x : data_page s T x → data_page s' T' x;
  kd_words x i :
    data_page s T x → 0 ≤ i < kPtePerPage → pte_get (pm_ram s') x i = pte_get (pm_ram s) x i;
}.

Lemma map_ok root s T va pa perm r s' :
  pt_state s root T → page_aligned pa → 0 ≤ pa < 2 ^ 56 → flags_ok perm →
  map root va pa perm s = Ret (r, s') →
  ∃ T', pt_state s' root T' ∧ T ⊆ T' ∧ keeps_data s T s' T' ∧
    ((r = -12 ∧ ∀ va', translate root va' (pm_ram s') = translate root va' (pm_ram s)) ∨
     (r = 0 ∧ updates root va (entry_result pa (leaf_flags perm)) (pm_ram s) (pm_ram s'))) ∧
    ∀ G, source_closed G → G (pm_src s) T → G (pm_src s') T'.
Proof.
  intros Hs Hal Hpa Hfl. unfold map. destruct (map_walk 2 va root s) as [[r0 s1]| |] eqn:Ew; [|done..]. cbn.
  apply (map_walk_ok 2 va root []) with (T := T) in Ew as (T' & Hg & Hr & HG); [|done|apply Hs|done].
  pose proof (gr_state _ _ _ _ _ Hg) as Hs1.
  assert (Hw : ∀ va', translate root va' (pm_ram s1) = translate root va' (pm_ram s)).
  { intros va'. unfold translate. by rewrite (gr_walk _ _ _ _ _ Hg). }
  destruct r0 as [t0|]; intros [= <- <-]; exists T'.
  - destruct (write_leaf root s1 T' Hs1 va t0 (pa_to_pte pa (leaf_flags perm)) Hr) as (H1 & H2 & H3).
    split_and!; [done|apply Hg|split| |done].
    + intros x Hx. by apply (gr_data _ _ _ _ _ Hg).
    + intros x i Hx Hi. rewrite H3 by (done || by apply (gr_data _ _ _ _ _ Hg)). by apply Hg.
    + right. split; [done|]. intros va'. rewrite H2, Hw.
      by rewrite leaf_entry_result by (done || by apply leaf_flags_ok).
  - split_and!; [done|apply Hg|split; apply Hg|auto|done].
Qed.

(** [map] returns whenever the page source does. *)
Lemma map_walk_total level va root q table s T :
  ps_returns (pm_src s) → pt_state s root T → T !! q = Some table → (length q + level = 2)%nat →
  ∃ r s', map_walk level va table s = Ret (r, s').
Proof.
  revert q table s T. induction level as [|level IH]; intros q table s T Hret Hs Hq Hl; cbn [map_walk].
  { eauto. }
  set (idx := vpn va (S level)). pose proof (vpn_range va (S level)) as Hidx. fold idx in Hidx.
  pose proof (st_wf _ _ _ Hs) as Hwf.
  destruct (T !! (q ++ [idx])) as [c|] eqn:Ec.
  - rewrite (pt_child _ _ _ Hwf q table idx c Hq Ec).
    destruct (table_pte c) as (-> & _ & ->); [by eapply pt_page|]. cbn [negb].
    apply (IH (q ++ [idx]) c s T); [done|done|done|]. rewrite length_app. cbn. lia.
  - rewrite (st_small _ _ _ Hs q table idx) by (done || lia). cbn [negb].
    assert (∃ c s1, alloc_pt_page s = Ret (c, s1) ∧ ps_returns (pm_src s1)) as (c & s1 & Ea & Hret1).
    { unfold alloc_pt_page. destruct (ps_alloc_returns (pm_src s)) as (r & a & -> & Ha); [apply Hs|done|].
      destruct r as [pa|]; cbn; [case_match|]; eauto. }
    rewrite Ea. cbn. destruct (Z.eqb_spec c 0) as [->|Hc]; [eauto|].
    destruct (grows_table root s T q table idx c s1) as [Hg Hpc]; [done|done|lia|done..|].
    rewrite pte_get_set by (done || by eapply wf_aligned). rewrite decide_True by done.
    destruct (table_pte c Hpc) as (_ & _ & ->).
    apply (IH (q ++ [idx]) c _ (<[q ++ [idx] := c]> T)); [done|apply Hg|apply lookup_insert_eq|].
    rewrite length_app. cbn. lia.
Qed.

Lemma map_total root s T va pa perm :
  ps_returns (pm_src s) → pt_state s root T → ∃ r s', map root va pa perm s = Ret (r, s').
Proof.
  intros Hret Hs. unfold map.
  destruct (map_walk_total 2 va root [] root s T Hret Hs) as (r & s' & ->); [apply Hs|done|].
  cbn. destruct r; eauto.
Qed.

Lemma translate_small root s T va :
  pt_state s root T →
  translate root va (pm_ram s) =
    t0 ← T !! [vpn va 2; vpn va 1];
    '(_, _, pte) ← leaf_entry t0 (vpn va 0) (pte_get (pm_ram s) t0 (vpn va 0)); Some (pte_to_pa pte, pte_bits pte).
Proof. intros Hs. unfold translate. rewrite (find_leaf_small root s T Hs). by destruct (T !! _). Qed.

Lemma same_page_path va va' :
  same_page va va' → [vpn va 2; vpn va 1] = [vpn va' 2; vpn va' 1] ∧ vpn va 0 = vpn va' 0.
Proof. unfold same_page. cbn [vps]. by intros [= -> -> ->]. Qed.

(** An operation that finds the leaf of [va] and rewrites its entry. *)
Lemma rewrite_leaf root s T va t idx pte v :
  pt_state s root T → find_leaf 2 va root (pm_ram s) = Some (t, idx, pte) →
  let s' := with_ram (pte_set t idx v) s in
  pt_state s' root T ∧ keeps_data s T s' T ∧ pte_valid pte = true ∧ pte_leaf pte = true ∧
  updates root va ('(_, _, pte) ← leaf_entry t idx v; Some (pte_to_pa pte, pte_bits pte)) (pm_ram s) (pm_ram s').
Proof.
  intros Hs. rewrite (find_leaf_small root s T Hs).
  destruct (T !! [vpn va 2; vpn va 1]) as [t0|] eqn:Et; [|done]. cbn [mbind option_bind].
  unfold leaf_entry at 1. destruct (pte_valid _ && pte_leaf _) eqn:Ev; [|done]. intros [= <- <- <-].
  apply andb_true_iff in Ev as [Ev El].
  destruct (write_leaf root s T Hs va t0 v Et) as (H1 & H2 & H3).
  split_and!; [done|by split|done|done|exact H2].
Qed.

Lemma unmap_ok root s T va :
  pt_state s root T →
  let s' := with_ram (unmap root va) s in
  pt_state s' root T ∧ keeps_data s T s' T ∧ updates root va None (pm_ram s) (pm_ram s').
Proof.
  intros Hs s'. unfold s', with_ram, unmap. rewrite (unmap_walk_small root s T Hs).
  destruct (T !! [vpn va 2; vpn va 1]) as [t0|] eqn:Et.
  - destruct (write_leaf root s T Hs va t0 0 Et) as (H1 & H2 & H3).
    split_and!; [done|by split|]. intros va'. by rewrite H2.
  - destruct s as [m a]. split_and!; [done|by split|]. intros va'. case_decide as E; [|done].
    pose proof (translate_small root (mkPm m a) T va' Hs) as Et'. cbn in Et' |- *. rewrite Et'.
    apply same_page_path in E as [<- _]. by rewrite Et.
Qed.
End specs.

(** Memory holds 64-bit words. *)
Definition ram_ok (m : ram) : Prop := ∀ x v, m !! x = Some v → is_u64 v.

Lemma pte_get_u64 m t i : ram_ok m → is_u64 (pte_get m t i).
Proof. intros Hm. unfold pte_get. destruct (m !! _) eqn:E; [by eapply Hm|]. by vm_compute. Qed.

(** [pte &= ~PTE_W; pte |= PTE_COW] changes permission bits only. *)
Definition cow_bits (fl : Z) : Z := Z.lor (Z.land fl (u64 (Z.lnot PTE_W))) PTE_COW.

Lemma cow_entry pte :
  is_u64 pte → pte_to_pa (cow_bits pte) = pte_to_pa pte ∧ pte_bits (cow_bits pte) = cow_bits (pte_bits pte).
Proof.
  intros Hp. unfold cow_bits. split.
  - unfold pte_to_pa. do 3 f_equal. rewrite Z.shiftr_lor, Z.shiftr_land.
    change (Z.shiftr PTE_COW 10) with 0. rewrite Z.lor_0_r.
    change (Z.shiftr (u64 (Z.lnot PTE_W)) 10) with (2 ^ 54 - 1). rewrite land_ones_mod by lia.
    apply Z.mod_small. rewrite Z.shiftr_div_pow2 by lia. unfold is_u64 in Hp.
    split; [apply Z.div_pos; lia|]. apply Z.div_lt_upper_bound; lia.
  - unfold pte_bits. rewrite Z.land_lor_distr_l. f_equal.
    by rewrite <- !Z.land_assoc.
Qed.

Lemma cow_valid pte :
  pte_valid (cow_bits pte) = pte_valid pte ∧
  pte_leaf (cow_bits pte) = negb (Z.land (pte_bits pte) (Z.lor PTE_R PTE_X) =? 0).
Proof.
  unfold pte_valid, pte_leaf, cow_bits, pte_bits.
  rewrite !Z.land_lor_distr_l, <- !Z.land_assoc.
  change (Z.land PTE_COW PTE_V) with 0. change (Z.land PTE_COW PTE_RWX) with 0. rewrite !Z.lor_0_r.
  by change (Z.land (u64 (Z.lnot PTE_W)) PTE_V) with PTE_V.
Qed.

Section more_specs.
Context `{PageSourceSpec A}.

Lemma translate_Some root s T va pa fl :
  pt_state s root T → translate root va (pm_ram s) = Some (pa, fl) →
  ∃ t idx pte, find_leaf 2 va root (pm_ram s) = Some (t, idx, pte) ∧ pa = pte_to_pa pte ∧ fl = pte_bits pte.
Proof.
  intros Hs. unfold translate. destruct (find_leaf 2 va root (pm_ram s)) as [[[t idx] pte]|]; [|done].
  intros [= <- <-]. eauto 10.
Qed.

Lemma protect_ok root s T va perm :
  pt_state s root T → flags_ok perm →
  match translate root va (pm_ram s) with
  | None => protect root va perm (pm_ram s) = (-14, pm_ram s)
  | Some (pa, _) => ∃ m', protect root va perm (pm_ram s) = (0, m') ∧
      pt_state (mkPm m' (pm_src s)) root T ∧ keeps_data s T (mkPm m' (pm_src s)) T ∧
      updates root va (entry_result pa (Z.lor perm PTE_V)) (pm_ram s) m'
  end.
Proof.
  intros Hs Hfl. destruct (translate root va (pm_ram s)) as [[pa fl]|] eqn:E; unfold protect.
  - destruct (translate_Some root s T va pa fl Hs E) as (t & idx & pte & Ef & -> & ->).
    rewrite Ef. eexists; split; [done|]. destruct (pte_to_pa_page pte) as [Hal Hr].
    destruct (rewrite_leaf root s T va t idx pte (pa_to_pte (pte_to_pa pte) (Z.lor perm PTE_V)) Hs Ef)
      as (H1 & H2 & _ & _ & H3).
    split_and!; [done|done|]. intros va'. rewrite H3.
    by rewrite leaf_entry_result by (done || by apply flags_lor).
  - unfold translate in E. by destruct (find_leaf 2 va root (pm_ram s)) as [[[? ?] ?]|].
Qed.

(** [make_cow]: the page stays mapped unless write was its only permission. *)
Definition cow_result (pa fl : Z) : option (Z * Z) :=
  if negb (Z.land fl (Z.lor PTE_R PTE_X) =? 0) then Some (pa, cow_bits fl) else None.

Lemma make_cow_ok root s T va :
  pt_state s root T → ram_ok (pm_ram s) →
  match translate root va (pm_ram s) with
  | None => make_cow root va (pm_ram s) = (-14, pm_ram s)
  | Some (pa, fl) => ∃ m', make_cow root va (pm_ram s) = (0, m') ∧
      pt_state (mkPm m' (pm_src s)) root T ∧ keeps_data s T (mkPm m' (pm_src s)) T ∧
      updates root va (cow_result pa fl) (pm_ram s) m'
  end.
Proof.
  intros Hs Hm. destruct (translate root va (pm_ram s)) as [[pa fl]|] eqn:E; unfold make_cow.
  - destruct (translate_Some root s T va pa fl Hs E) as (t & idx & pte & Ef & -> & ->).
    rewrite Ef. eexists; split; [done|]. fold (cow_bits pte).
    destruct (rewrite_leaf root s T va t idx pte (cow_bits pte) Hs Ef) as (H1 & H2 & Hv & _ & H3).
    split_and!; [done|done|]. intros va'. rewrite H3. case_decide; [|done].
    assert (is_u64 pte) as Hp.
    { rewrite (find_leaf_small root s T Hs) in Ef. destruct (T !! _); [|done]. cbn in Ef.
      unfold leaf_entry in Ef. case_match; simplify_eq. by apply pte_get_u64. }
    unfold leaf_entry, cow_result. destruct (cow_valid pte) as [-> ->]. rewrite Hv. cbn [andb].
    case_match; [|done]. cbn. by destruct (cow_entry pte Hp) as [-> ->].
  - unfold translate in E. by destruct (find_leaf 2 va root (pm_ram s)) as [[[? ?] ?]|].
Qed.
End more_specs.

Lemma lookup_translate root va m : lookup root va m = fst <$> translate root va m.
Proof. unfold lookup, translate. by destruct (find_leaf 2 va root m) as [[[? ?] ?]|]. Qed.

Lemma is_cow_translate root va m :
  is_cow root va m = match translate root va m with Some (_, fl) => negb (Z.land fl PTE_COW =? 0) | None => false end.
Proof.
  unfold is_cow, translate. destruct (find_leaf 2 va root m) as [[[? ?] pte]|]; [|done]. cbn.
  unfold pte_bits. by rewrite <- Z.land_assoc.
Qed.

(** ** Destruction *)

Fixpoint free_all `{PageSource A} (l : list Z) (a : A) : outcome A :=
  match l with [] => Ret a | pa :: l' => a ← ps_free pa a; free_all l' a end.

Section destroy.
Context `{PageSource A}.

Lemma outcome_bind_assoc {X Y Z} (o : outcome X) (f : X → outcome Y) (g : Y → outcome Z) :
  (y ← (x ← o; f x); g y) = (x ← o; y ← f x; g y).
Proof. by destruct o. Qed.

Lemma free_all_app l k (a : A) : free_all (l ++ k) a = (a ← free_all l a; free_all k a).
Proof.
  revert a. induction l as [|x l IH]; intros a; [done|]. cbn [free_all app].
  rewrite outcome_bind_assoc. destruct (ps_free x a); [|done..]. apply IH.
Qed.

Context (m : ram) (root : Z) (T : tables) (Hwf : pt_wf m root T).

(** The entry of [T]'s table points to a table exactly when [T] has one there. *)
Lemma table_entry p t i :
  T !! p = Some t → (length p < 2)%nat → 0 ≤ i < kPtePerPage →
  pte_valid (pte_get m t i) && negb (pte_leaf (pte_get m t i)) = bool_decide (is_Some (T !! (p ++ [i]))) ∧
  (∀ c, T !! (p ++ [i]) = Some c → pte_to_pa (pte_get m t i) = c).
Proof using Hwf.
  intros Hp Hl Hi. destruct (T !! (p ++ [i])) as [c|] eqn:E.
  - rewrite (pt_child _ _ _ Hwf p t i c Hp E).
    destruct (table_pte c) as (-> & -> & Ec); [by eapply pt_page|]. split; [done|]. by intros c' [= <-].
  - split; [|done]. destruct (pt_other _ _ _ Hwf p t i Hp Hl Hi E) as [-> | ->]; [done|]. by rewrite andb_false_r.
Qed.

Definition l1_paths (i j : Z) (n : nat) : list (list Z) := (λ j, [i; j]) <$> seqZ j (Z.of_nat n).
Definition l2_paths (i : Z) (n : nat) : list (list Z) :=
  seqZ i (Z.of_nat n) ≫= λ i, l1_paths i 0 (Z.to_nat kPtePerPage) ++ [[i]].

Lemma seqZ_S i n : seqZ i (Z.of_nat (S n)) = i :: seqZ (i + 1) (Z.of_nat n).
Proof. rewrite seqZ_cons by lia. do 2 f_equal; lia. Qed.

Lemma destroy_l1_ok n i j l1 (a : A) :
  T !! [i] = Some l1 → 0 ≤ j → j + Z.of_nat n ≤ kPtePerPage →
  destroy_l1 n j l1 m a = free_all (omap (T !!.) (l1_paths i j n)) a.
Proof using Hwf.
  intros Hl1. revert j a. induction n as [|n IH]; intros j a Hj Hn; [done|].
  unfold l1_paths. rewrite seqZ_S. cbn [fmap list_fmap omap list_omap destroy_l1].
  destruct (table_entry [i] l1 j Hl1) as [-> Hc]; [cbn; lia|lia|]. cbn [app] in *.
  destruct (T !! [i; j]) as [c|] eqn:E.
  - rewrite bool_decide_eq_true_2 by eauto. rewrite (Hc c) by done. cbn [free_all].
    destruct (ps_free c a); [|done..]. cbn. apply IH; lia.
  - rewrite bool_decide_eq_false_2 by (by intros [? ?]). cbn. apply IH; lia.
Qed.

Lemma destroy_l2_ok n i (a : A) :
  0 ≤ i → i + Z.of_nat n ≤ kPtePerPage →
  destroy_l2 n i root m a = free_all (omap (T !!.) (l2_paths i n)) a.
Proof using Hwf.
  revert i a. induction n as [|n IH]; intros i a Hi Hn; [done|].
  unfold l2_paths. rewrite seqZ_S. cbn [mbind list_bind destroy_l2].
  fold (l2_paths (i + 1) n). rewrite omap_app, free_all_app, omap_app.
  destruct (table_entry [] root i (pt_root _ _ _ Hwf)) as [-> Hc]; [cbn; lia|lia|]. cbn [app] in *.
  destruct (T !! [i]) as [c|] eqn:E.
  - rewrite bool_decide_eq_true_2 by eauto. rewrite (Hc c) by done.
    rewrite (destroy_l1_ok _ i 0 c a E) by (done || by vm_compute).
    cbn [omap list_omap]. rewrite E, free_all_app. cbn [free_all].
    rewrite !outcome_bind_assoc. destruct (free_all _ a) as [a1| |]; [|done..]. cbn.
    rewrite outcome_bind_assoc. destruct (ps_free c a1); [|done..]. cbn. apply IH; lia.
  - rewrite bool_decide_eq_false_2 by (by intros [? ?]). cbn [omap list_omap]. rewrite E.
    assert (Hnil : omap (T !!.) (l1_paths i 0 (Z.to_nat kPtePerPage)) = []).
    { apply elem_of_nil_inv. intros x Hx. apply list_elem_of_omap in Hx as (q & Hq & Hx).
      apply list_elem_of_fmap in Hq as (j & -> & _). change [i; j] with ([i] ++ [j]) in Hx.
      destruct (pt_parent _ _ _ Hwf _ _ _ Hx) as [_ [? ?]]. congruence. }
    rewrite Hnil. cbn. apply IH; lia.
Qed.
End destroy.
