(* ===== verification/PageSources.v ===== *)
(** * PageSources: where page tables get their pages

    [alloc_pt_page] of [na/arch/riscv/mm/pmap.cc] takes pages from memblock
    until [pmm_init] has retired it and from the buddy system afterwards.  This
    file gives the two as one implementation of the [PageSource] interface,
    proves the interface's laws for it from the allocators' own invariants, and
    states the properties of the page-table operations. *)

From S2P Require Import Prelude Bits Memblock Pmm PmmInit Pmap.

Record phys := mkPhys { ph_mb : memblock; ph_cpu : Z; ph_pmm : pmm }.

Definition phys_alloc (ph : phys) : outcome (option Z * phys) :=
  if memblock_is_active (ph_mb ph) then
    '(pa, mb) ← memblock_alloc kPageSize kPageSize (ph_mb ph);
    Ret (Some pa, mkPhys mb (ph_cpu ph) (ph_pmm ph))
  else
    '(page, s) ← pmm_alloc_page (ph_cpu ph) (ph_pmm ph);
    match page with
    | None => Ret (None, mkPhys (ph_mb ph) (ph_cpu ph) s)
    | Some page => pa ← page_index_to_pa s page; Ret (Some pa, mkPhys (ph_mb ph) (ph_cpu ph) s)
    end.

(** [pmm_free_page(pa_to_page(pa))] *)
Definition phys_free (pa : Z) (ph : phys) : outcome phys :=
  page ← pa_to_page_index (ph_pmm ph) pa;
  s ← pmm_free_page (ph_cpu ph) (Some page) (ph_pmm ph);
  Ret (mkPhys (ph_mb ph) (ph_cpu ph) s).

#[export] Instance phys_source : PageSource phys := { ps_alloc := phys_alloc; ps_free := phys_free }.

(** ** The laws *)

Definition mb_phase_ok (mb : memblock) : Prop := mb_ok mb ∧ 0 < mem_base mb.

Definition pmm_phase_ok (s : pmm) : Prop :=
  (∃ B, pmm_wf B s) ∧ 0 < g_pcp_batch_size s ∧ page_aligned (g_mem_base s) ∧ 0 < g_mem_base s ∧
  g_mem_base s + kPageSize * g_num_pages s ≤ 2 ^ 56.

Definition phys_ok (ph : phys) : Prop :=
  if memblock_is_active (ph_mb ph) then mb_phase_ok (ph_mb ph) else pmm_phase_ok (ph_pmm ph).

(** The page at [x] could still be handed out. *)
Definition phys_avail (ph : phys) (x : Z) : Prop :=
  if memblock_is_active (ph_mb ph)
  then fits (ph_mb ph) kPageSize 12 (page_align_up (mem_base (ph_mb ph))) x
  else ∃ p, pool (ph_pmm ph) p ∧ x = g_mem_base (ph_pmm ph) + kPageSize * p.

Definition phys_live (ph : phys) (x : Z) : Prop := ¬ phys_avail ph x.

Lemma pool_bounds B s p : pmm_wf B s → pool s p → 0 ≤ p < g_num_pages s.
Proof.
  intros Hwf Hp. pose proof (inv_blocks _ _ _ (wf_buddy _ _ Hwf)) as HB.
  destruct Hp as [(o & q & (Hq & _)%(inv_free _ _ _ (wf_buddy _ _ Hwf)) & Hin)|[c [Hq _]%(pcp_cached _ _ (wf_pcp _ _ Hwf))]].
  - pose proof (blk_end _ _ HB _ _ Hq). pose proof (blk_nonneg _ _ HB _ _ Hq). unfold in_block in Hin. lia.
  - pose proof (blk_end _ _ HB _ _ Hq). pose proof (blk_nonneg _ _ HB _ _ Hq). change (pow2 0) with 1 in *. lia.
Qed.

Lemma page_index_to_pa_ok s p :
  page_aligned (g_mem_base s) → 0 < g_mem_base s → g_mem_base s + kPageSize * g_num_pages s ≤ 2 ^ 56 →
  0 ≤ p < g_num_pages s →
  page_index_to_pa s p = Ret (g_mem_base s + kPageSize * p) ∧ page_ok (g_mem_base s + kPageSize * p).
Proof.
  unfold page_index_to_pa, page_ok, page_aligned, kPageSize. intros Hal H0 Hl Hp.
  rewrite (proj2 (Z.leb_gt _ _)) by lia. rewrite (wrap_small _ (p * 4096)), wrap_small by lia.
  rewrite (Z.mul_comm 4096 p), Z.mod_add by lia. split; [done|]. split; [done|lia].
Qed.

Lemma phys_alloc_pmm ph r ph' :
  memblock_is_active (ph_mb ph) = false → pmm_phase_ok (ph_pmm ph) →
  phys_alloc ph = Ret (r, ph') →
  ph_mb ph' = ph_mb ph ∧ pmm_phase_ok (ph_pmm ph') ∧
  match r with
  | None => ∀ x, phys_avail ph' x ↔ phys_avail ph x
  | Some pa => page_ok pa ∧ phys_avail ph pa ∧ ∀ x, phys_avail ph' x ↔ phys_avail ph x ∧ x ≠ pa
  end.
Proof.
  intros Hact ([B Hwf] & Hbatch & Hal & H0 & Hlim). unfold phys_alloc. rewrite Hact.
  pose proof (pmm_alloc_page_ok B (ph_pmm ph) (ph_cpu ph) Hwf Hbatch) as H.
  destruct (pmm_alloc_page (ph_cpu ph) (ph_pmm ph)) as [[[p|] s']| |]; [| |done..]; cbn.
  - destruct H as (B' & [P1 _ _ _ P5 P6 P7]). pose proof (pool_bounds B _ p Hwf P6) as Hp.
    unfold params in P7. assert (Eb : g_mem_base s' = g_mem_base (ph_pmm ph)) by congruence.
    assert (En : g_num_pages s' = g_num_pages (ph_pmm ph)) by congruence.
    assert (Ec : g_pcp_batch_size s' = g_pcp_batch_size (ph_pmm ph)) by congruence.
    destruct (page_index_to_pa_ok s' p) as [E Hpok]; rewrite ?Eb, ?En; try done.
    rewrite E. cbn. intros [= <- <-]. cbn. rewrite Eb in *. split_and!; [done| |done| |].
    + unfold pmm_phase_ok. rewrite Eb, En, Ec. split; [eauto|done].
    + unfold phys_avail. rewrite Hact. eauto.
    + intros x. unfold phys_avail. cbn. rewrite Hact, Eb. setoid_rewrite P5. unfold kPageSize. split.
      * intros (q & [? ?] & ->). split; [eauto|]. lia.
      * intros [(q & ? & ->) Hne]. exists q. split_and!; [done| |done]. intros ->. done.
  - destruct H as (_ & _ & B' & Hwf' & [_ T2 T3]). intros [= <- <-]. cbn. unfold params in T3.
    split_and!; [done| |].
    + unfold pmm_phase_ok. replace (g_pcp_batch_size s') with (g_pcp_batch_size (ph_pmm ph)) by congruence.
      replace (g_mem_base s') with (g_mem_base (ph_pmm ph)) by congruence.
      replace (g_num_pages s') with (g_num_pages (ph_pmm ph)) by congruence. split; [eauto|done].
    + intros x. unfold phys_avail. cbn. rewrite Hact. setoid_rewrite T2.
      by replace (g_mem_base s') with (g_mem_base (ph_pmm ph)) by congruence.
Qed.

Lemma page_fits_split mb mb' pa x lo :
  mb_reserved mb pa kPageSize mb' → (2 ^ 12 | pa) →
  fits mb' kPageSize 12 lo x ↔ fits mb kPageSize 12 lo x ∧ x ≠ pa.
Proof.
  intros [_ Hr Hb Hs] Hd. unfold fits, range_free, mem_end. rewrite Hb, Hs. setoid_rewrite Hr.
  split.
  - intros (H1 & H2 & H3 & H4). split_and!; [done..| |].
    + intros r Hin. apply H4. by right.
    + intros ->. destruct (H4 (mkRegion pa kPageSize)) as [?|?]; [left|..]; cbn in *; unfold kPageSize in *; lia.
  - intros [(H1 & H2 & H3 & H4) Hne]. split_and!; [done..|]. intros r [->|Hin]%elem_of_cons; [|by apply H4].
    cbn. unfold kPageSize. destruct (decide (x < pa)) as [Hlt|].
    + left. apply (divide_lt_le 4096 x pa); (done || lia).
    + right. apply (divide_lt_le 4096 pa x); (done || lia).
Qed.

Lemma phys_alloc_mb ph r ph' :
  memblock_is_active (ph_mb ph) = true → mb_phase_ok (ph_mb ph) → phys_alloc ph = Ret (r, ph') →
  memblock_is_active (ph_mb ph') = true ∧ mb_phase_ok (ph_mb ph') ∧
  ∃ pa, r = Some pa ∧ page_ok pa ∧ phys_avail ph pa ∧ ∀ x, phys_avail ph' x ↔ phys_avail ph x ∧ x ≠ pa.
Proof.
  intros Hact [Hok H0]. unfold phys_alloc. rewrite Hact.
  pose proof (memblock_alloc_ok (ph_mb ph) kPageSize 12 Hok ltac:(lia) ltac:(by vm_compute)) as H.
  assert (E12 : 2 ^ 12 = kPageSize) by reflexivity.
  assert (Epg : page_align_up kPageSize = kPageSize) by reflexivity. rewrite E12 in H.
  destruct (memblock_alloc kPageSize kPageSize (ph_mb ph)) as [[pa mb']| |] eqn:E; [|done..]. cbn.
  destruct H as (Hfit & _ & Hres). rewrite Epg in Hres.
  intros [= <- <-]. cbn.
  assert (Hact' : memblock_is_active mb' = true).
  { unfold memblock_is_active in *. by rewrite (memblock_alloc_active _ _ _ _ _ E). }
  pose proof Hfit as (Hlo & Hdiv & Hend & _). pose proof (mem_end_bounds _ Hok) as Hme.
  pose proof (mr_ok _ _ _ _ Hres) as R1. pose proof (mr_base _ _ _ _ Hres) as R3.
  assert (Hup : mem_base (ph_mb ph) ≤ page_align_up (mem_base (ph_mb ph))).
  { apply page_align_up_spec. pose proof (mb_base _ Hok). pose proof (mb_size _ Hok).
    unfold mem_end, kPhysLimit, kPageSize in *. lia. }
  split_and!; [done|split; [done|by rewrite R3]|].
  exists pa. split_and!; [done|split| |].
  - apply (pow2_page_aligned 12); [lia|done].
  - unfold kPhysLimit, kPageSize in *. lia.
  - unfold phys_avail. by rewrite Hact.
  - intros x. unfold phys_avail. cbn. rewrite Hact'. rewrite Hact, R3. by apply page_fits_split.
Qed.

(** Once memblock is retired, no allocation panics. *)
Lemma phys_alloc_total ph :
  memblock_is_active (ph_mb ph) = false → phys_ok ph → ∃ r ph', phys_alloc ph = Ret (r, ph').
Proof.
  unfold phys_ok. intros Hact. rewrite Hact. intros ([B Hwf] & Hbatch & Hal & H0 & Hlim).
  unfold phys_alloc. rewrite Hact.
  pose proof (pmm_alloc_page_ok B (ph_pmm ph) (ph_cpu ph) Hwf Hbatch) as H.
  destruct (pmm_alloc_page (ph_cpu ph) (ph_pmm ph)) as [[[p|] s']| |]; [| |done..]; cbn; [|eauto].
  destruct H as (B' & [_ _ _ _ _ P6 P7]). pose proof (pool_bounds B _ p Hwf P6) as Hp. unfold params in P7.
  destruct (page_index_to_pa_ok s' p) as [-> _]; [..|cbn; eauto];
    replace (g_mem_base s') with (g_mem_base (ph_pmm ph)) by congruence;
    replace (g_num_pages s') with (g_num_pages (ph_pmm ph)) by congruence; done.
Qed.

#[export] Program Instance phys_source_spec : PageSourceSpec phys :=
  { ps_ok := phys_ok; ps_live := phys_live;
    ps_returns ph := memblock_is_active (ph_mb ph) = false }.
Next Obligation.
  intros ph pa ph' Hok Ha. unfold phys_ok in *. cbn in Ha. unfold phys_live.
  destruct (memblock_is_active (ph_mb ph)) eqn:Hact.
  - destruct (phys_alloc_mb ph _ ph' Hact Hok Ha) as (Hact' & Hok' & pa' & [= <-] & Hpg & Hav & Hx).
    rewrite Hact'. split_and!; [done|done|tauto|]. intros x _. rewrite Hx.
    destruct (decide (x = pa)) as [->|]; tauto.
  - destruct (phys_alloc_pmm ph _ ph' Hact Hok Ha) as (Emb & Hok' & Hpg & Hav & Hx).
    rewrite Emb, Hact. split_and!; [done|done|tauto|]. intros x _. rewrite Hx.
    destruct (decide (x = pa)) as [->|]; tauto.
Qed.
Next Obligation.
  intros ph ph' Hok Ha. unfold phys_ok in *. cbn in Ha. unfold phys_live.
  destruct (memblock_is_active (ph_mb ph)) eqn:Hact.
  - destruct (phys_alloc_mb ph _ ph' Hact Hok Ha) as (_ & _ & pa' & ? & _). done.
  - destruct (phys_alloc_pmm ph _ ph' Hact Hok Ha) as (Emb & Hok' & Hx).
    rewrite Emb, Hact. split; [done|]. intros x _. by rewrite Hx.
Qed.
Next Obligation.
  intros ph Hok Hact. destruct (phys_alloc_total ph Hact Hok) as (r & ph' & E). exists r, ph'. split; [done|].
  unfold phys_ok in Hok. rewrite Hact in Hok. destruct (phys_alloc_pmm ph r ph' Hact Hok E) as (-> & _). done.
Qed.

(** ** A new address space *)

Lemma create_ok `{PageSourceSpec A} (s : pm A) root s' :
  ps_ok (pm_src s) → create s = Ret (root, s') → root ≠ 0 →
  pt_state s' root {[ [] := root ]} ∧ ∀ va, translate root va (pm_ram s') = None.
Proof.
  intros Hok (o & Ha & [(? & _)|(_ & -> & Er)])%alloc_pt_page_cases Hne; [done|].
  destruct (ps_alloc_some _ _ _ Hok Ha) as (Hok' & Hpg & _ & Hlive).
  assert (Hz : ∀ i, 0 ≤ i < kPtePerPage → pte_get (pm_ram s') root i = 0).
  { intros i Hi. rewrite Er, zero_page_get by (done || apply Hpg). by rewrite decide_True. }
  assert (Hsingle : ∀ p t, ({[ [] := root ]} : tables) !! p = Some t → p = [] ∧ t = root).
  { by intros p t [<- <-]%lookup_singleton_Some. }
  assert (Hnil : ∀ (p : list Z) i, p ++ [i] ≠ []) by (intros p i E; by apply app_eq_nil in E as [_ ?]).
  assert (Hst : pt_state s' root {[ [] := root ]}).
  { split; [split|..].
    - apply lookup_singleton_eq.
    - by intros p t [-> ->]%Hsingle.
    - by intros p q t [-> _]%Hsingle [-> _]%Hsingle.
    - intros p t [-> _]%Hsingle. cbn. lia.
    - intros p i c [E _]%Hsingle. by apply Hnil in E.
    - intros p t i c _ [E _]%Hsingle. by apply Hnil in E.
    - intros p t i [-> ->]%Hsingle _ Hi _. left. by rewrite Hz.
    - intros p t i [-> ->]%Hsingle _ Hi _. by rewrite Hz.
    - done.
    - intros p t [-> ->]%Hsingle. apply Hlive; auto. }
  split; [done|]. intros va. rewrite (translate_small root s' _ va Hst).
  rewrite lookup_singleton_ne by done. done.
Qed.

(** ** The pages a destruction frees *)

Lemma NoDup_omap_inj {X Y} (f : X → option Y) l :
  NoDup l → (∀ x y z, f x = Some z → f y = Some z → x = y) → NoDup (omap f l).
Proof.
  intros Hnd Hinj. induction Hnd as [|x l Hx Hnd IH]; cbn; [constructor|].
  destruct (f x) as [z|] eqn:E; [|done]. apply NoDup_cons. split; [|done].
  intros (y & Hy & Ey)%list_elem_of_omap. apply Hx. by rewrite (Hinj x y z E Ey).
Qed.

Definition all_paths : list (list Z) := l2_paths 0 (Z.to_nat kPtePerPage) ++ [[]].

Lemma elem_l2_paths p :
  p ∈ l2_paths 0 (Z.to_nat kPtePerPage) ↔
  ∃ i, 0 ≤ i < kPtePerPage ∧ (p = [i] ∨ ∃ j, 0 ≤ j < kPtePerPage ∧ p = [i; j]).
Proof.
  unfold l2_paths, l1_paths. rewrite list_elem_of_bind.
  assert (E : Z.of_nat (Z.to_nat kPtePerPage) = kPtePerPage) by reflexivity. rewrite E. split.
  - intros (i & [Hp|Hp]%elem_of_app & Hi%elem_of_seqZ); exists i; (split; [lia|]).
    + apply list_elem_of_fmap in Hp as (j & -> & Hj%elem_of_seqZ). right. exists j. split; [lia|done].
    + apply list_elem_of_singleton in Hp. auto.
  - intros (i & Hi & Hp). exists i. rewrite elem_of_app, list_elem_of_fmap, list_elem_of_singleton, elem_of_seqZ.
    split; [|lia]. destruct Hp as [->|(j & Hj & ->)]; [auto|]. left. exists j. rewrite elem_of_seqZ. split; [done|lia].
Qed.

Lemma all_paths_nodup : NoDup all_paths.
Proof.
  unfold all_paths. apply NoDup_app. split_and!; [|intros p Hp Hnil|apply NoDup_singleton].
  - unfold l2_paths. apply NoDup_bind; [|intros i _; apply NoDup_app; split_and!|apply NoDup_seqZ].
    + intros i i' p _ _ Hi Hi'.
      assert (Hh : ∀ k, p ∈ l1_paths k 0 (Z.to_nat kPtePerPage) ++ [[k]] → list.head p = Some k).
      { intros k [Hp|Hp]%elem_of_app; [by apply list_elem_of_fmap in Hp as (? & -> & _)|].
        by apply list_elem_of_singleton in Hp as ->. }
      apply Hh in Hi, Hi'. congruence.
    + apply NoDup_fmap_2; [|apply NoDup_seqZ]. by intros j j' [= ->].
    + intros p (j & -> & _)%list_elem_of_fmap Hp. by apply list_elem_of_singleton in Hp.
    + apply NoDup_singleton.
  - apply list_elem_of_singleton in Hnil as ->. apply elem_l2_paths in Hp as (i & _ & [?|(j & _ & ?)]); done.
Qed.

Lemma all_paths_complete m root T p t : pt_wf m root T → T !! p = Some t → p ∈ all_paths.
Proof.
  intros Hwf Hp. unfold all_paths. rewrite elem_of_app, list_elem_of_singleton.
  pose proof (pt_depth _ _ _ Hwf _ _ Hp) as Hd.
  destruct p as [|i [|j [|k p]]]; [by right|left|left|cbn in Hd; lia]; apply elem_l2_paths; exists i.
  - destruct (pt_parent _ _ _ Hwf [] i t Hp). auto.
  - destruct (pt_parent _ _ _ Hwf [i] j t Hp) as [Hj [c Hc]]. destruct (pt_parent _ _ _ Hwf [] i c Hc). eauto.
Qed.

(** ** Properties *)

(** an entry built from a page address and permission bits decodes to that
    page and those bits, for every page-aligned address a 44-bit frame number
    can name and every value of the ten low bits. *)
Theorem pte_encode_decode pa fl (Hal : page_aligned pa) (Hpa : 0 ≤ pa < 2 ^ 56) (Hfl : 0 ≤ fl < 2 ^ 10) :
  pte_to_pa (pa_to_pte pa fl) = pa ∧ pte_bits (pa_to_pte pa fl) = fl ∧ is_u64 (pa_to_pte pa fl).
Proof.
  split_and!; [by apply pte_roundtrip|by apply pte_bits_eq|]. rewrite pa_to_pte_eq by done.
  assert (0 ≤ pa / 4096 < 2 ^ 44); [|unfold is_u64; lia].
  split; [apply Z.div_pos; lia|]. apply Z.div_lt_upper_bound; lia.
Qed.

Lemma pte_encode_decode_witness :
  pte_to_pa (pa_to_pte 0x80203000 0xD7) = 0x80203000 ∧ pte_bits (pa_to_pte 0x80203000 0xD7) = 0xD7.
Proof. destruct (pte_encode_decode 0x80203000 0xD7) as (H1 & H2 & _); [by vm_compute|lia|lia|done]. Defined.


(** C6: [unmap] removes the translation of the page of [va] and of no other,
    whether or not it was mapped. *)
Theorem unmap_removes_translation `{PageSourceSpec A} (root va : Z) (s : pm A) (T : tables)
    (Hs : pt_state s root T) :
  let s' := with_ram (unmap root va) s in
  pt_state s' root T ∧ keeps_data s T s' T ∧ updates root va None (pm_ram s) (pm_ram s').
Proof. by apply unmap_ok. Qed.

(** [protect] replaces the permission bits of a mapped page and keeps its
    frame; on an unmapped page it returns -EFAULT and writes nothing. *)
Theorem protect_changes_permissions `{PageSourceSpec A} (root va perm : Z) (s : pm A) (T : tables)
    (Hs : pt_state s root T) (Hfl : flags_ok perm) :
  match translate root va (pm_ram s) with
  | None => protect root va perm (pm_ram s) = (-14, pm_ram s)
  | Some (pa, _) => ∃ m', protect root va perm (pm_ram s) = (0, m') ∧
      pt_state (mkPm m' (pm_src s)) root T ∧
      updates root va (entry_result pa (Z.lor perm PTE_V)) (pm_ram s) m'
  end.
Proof.
  pose proof (protect_ok root s T va perm Hs Hfl) as Hp.
  destruct (translate root va (pm_ram s)) as [[pa fl]|]; [|done].
  destruct Hp as (m' & H1 & H2 & _ & H3). eauto.
Qed.

(** C7: [make_cow] on a mapped page clears the write bit and sets the
    copy-on-write bit, keeping the frame and the other bits, so that [is_cow]
    and [lookup] see it; a page whose only permission was write is no longer
    mapped at all. *)
Theorem make_cow_write_protects `{PageSourceSpec A} (root va pa fl : Z) (s : pm A) (T : tables)
    (Hs : pt_state s root T) (Hram : ram_ok (pm_ram s))
    (Htr : translate root va (pm_ram s) = Some (pa, fl)) :
  ∃ m', make_cow root va (pm_ram s) = (0, m') ∧ pt_state (mkPm m' (pm_src s)) root T ∧
    updates root va (cow_result pa fl) (pm_ram s) m' ∧
    (if negb (Z.land fl (Z.lor PTE_R PTE_X) =? 0)
     then lookup root va m' = Some pa ∧ is_cow root va m' = true
     else lookup root va m' = None).
Proof.
  pose proof (make_cow_ok root s T va Hs Hram) as Hc. rewrite Htr in Hc.
  destruct Hc as (m' & H1 & H2 & _ & H3). exists m'. split_and!; [done..|].
  rewrite lookup_translate, is_cow_translate, H3, decide_True by done. unfold cow_result.
  destruct (negb _); [|done]. split; [done|].
  unfold cow_bits. rewrite Z.land_lor_distr_l. change (Z.land PTE_COW PTE_COW) with PTE_COW.
  apply negb_true_iff, Z.eqb_neq. intros E%Z.lor_eq_0_iff. by destruct E.
Qed.

(** C8: [destroy] gives every table page of the address space back to the
    allocator exactly once, children before parents, and nothing else. *)
Theorem destroy_frees_each_table_once `{PageSource A} (root : Z) (s : pm A) (T : tables)
    (Hwf : pt_wf (pm_ram s) root T) :
  ∃ l, destroy root s = (a ← free_all l (pm_src s); Ret (mkPm (pm_ram s) a)) ∧
       NoDup l ∧ (∀ x, x ∈ l ↔ ∃ p, T !! p = Some x) ∧ last l = Some root.
Proof.
  exists (omap (T !!.) all_paths). unfold all_paths. rewrite omap_app. cbn [omap list_omap].
  rewrite (pt_root _ _ _ Hwf). split_and!.
  - unfold destroy. rewrite (destroy_l2_ok (pm_ram s) root T Hwf) by (done || by vm_compute).
    rewrite free_all_app. cbn [free_all]. rewrite !outcome_bind_assoc.
    destruct (free_all _ (pm_src s)) as [a| |]; [|done..]. cbn. rewrite outcome_bind_assoc.
    by destruct (ps_free root a).
  - pose proof (NoDup_omap_inj (T !!.) all_paths all_paths_nodup) as Hnd. unfold all_paths in Hnd.
    rewrite omap_app in Hnd. cbn [omap list_omap] in Hnd. rewrite (pt_root _ _ _ Hwf) in Hnd. apply Hnd.
    intros p q t. apply Hwf.
  - intros x. split.
    + intros [Hx|Hx]%elem_of_app; [by apply list_elem_of_omap in Hx as (p & _ & ?); eauto|].
      apply list_elem_of_singleton in Hx as ->. exists []. apply Hwf.
    + intros [p Hp]. pose proof (all_paths_complete _ _ _ _ _ Hwf Hp) as Hin. unfold all_paths in Hin.
      apply elem_of_app. apply elem_of_app in Hin as [Hin|Hin].
      * left. apply list_elem_of_omap. eauto.
      * right. apply list_elem_of_singleton in Hin as ->. rewrite (pt_root _ _ _ Hwf) in Hp. simplify_eq. left.
  - apply last_snoc.
Qed.

(** *** Witnesses: an address space on the booted 40-page machine *)

Definition small_phys : phys := mkPhys (memblock_retire small_mb) 0 small_boot.

Lemma small_phys_ok : phys_ok small_phys.
Proof.
  destruct (pmm_init_ok small_mb 40 small_layout) as (t & s & B & E & Hwf & _).
  rewrite small_boot_eq in E.
  apply (f_equal (λ o, match o with Ret (_, s, _) => s | _ => small_boot end)) in E. cbv beta iota in E.
  assert (Hb : ∃ B, pmm_wf B small_boot) by (exists B; rewrite E; exact Hwf). clear -Hb.
  refine (conj Hb _). clear Hb. vm_compute. repeat split; discriminate.
Qed.

Definition created (s : pm phys) : Z * pm phys := match create s with Ret r => r | _ => (0, s) end.

Lemma created_state s :
  phys_ok (pm_src s) → (created s).1 ≠ 0 → pt_state (created s).2 (created s).1 {[ [] := (created s).1 ]}.
Proof.
  unfold created. intros Hok. destruct (create s) as [[root s']| |] eqn:E; [|done..]. cbn [fst snd].
  intros Hne. by apply (create_ok s root s').
Qed.

Abbreviation small_space := (created (mkPm ∅ small_phys)).

Lemma small_space_root : small_space.1 = 0x80018000.
Proof. vm_compute. reflexivity. Qed.

Lemma small_space_state : pt_state small_space.2 small_space.1 {[ [] := small_space.1 ]}.
Proof. apply created_state; [exact small_phys_ok|]. rewrite small_space_root. lia. Qed.


Lemma unmap_removes_translation_witness :
  updates small_space.1 0x5000 None (pm_ram small_space.2)
    (pm_ram (with_ram (unmap small_space.1 0x5000) small_space.2)).
Proof.
  apply (unmap_removes_translation small_space.1 0x5000 small_space.2
           {[ [] := small_space.1 ]} small_space_state).
Defined.

Lemma ram_ok_check m :
  forallb (λ kv, (0 <=? kv.2) && (kv.2 <? 2 ^ 64)) (map_to_list m) = true → ram_ok m.
Proof.
  intros Hb x v Hx. rewrite forallb_forall in Hb. specialize (Hb (x, v)).
  rewrite <- list_elem_of_In, elem_of_map_to_list in Hb. specialize (Hb Hx).
  apply andb_true_iff in Hb as [H0%Z.leb_le H1%Z.ltb_lt]. by split.
Qed.

(** The address space with a writable page at 0x5000. *)
Definition mapped (root va pa perm : Z) (s : pm phys) : pm phys :=
  match map root va pa perm s with Ret (_, s') => s' | _ => s end.

Lemma mapped_state root va pa perm s T :
  pt_state s root T → page_aligned pa → 0 ≤ pa < 2 ^ 56 → flags_ok perm →
  ∃ T', pt_state (mapped root va pa perm s) root T'.
Proof.
  intros Hs Hal Hpa Hfl. unfold mapped. destruct (map root va pa perm s) as [[r s']| |] eqn:E; [|eauto..].
  destruct (map_ok root s T va pa perm r s' Hs Hal Hpa Hfl E) as (T' & ? & _). eauto.
Qed.

Abbreviation small_mapped := (mapped small_space.1 0x5000 0x80010000 0xD7 small_space.2).

Lemma small_mapped_state : ∃ T, pt_state small_mapped small_space.1 T.
Proof. apply (mapped_state _ _ _ _ _ _ small_space_state); [done|lia|done]. Qed.

Lemma small_mapped_translate : translate small_space.1 0x5000 (pm_ram small_mapped) = Some (0x80010000, 0xD7).
Proof. vm_compute. reflexivity. Qed.

Lemma protect_changes_permissions_witness :
  ∃ m', protect small_space.1 0x5000 0xD3 (pm_ram small_mapped) = (0, m') ∧
        translate small_space.1 0x5000 m' = Some (0x80010000, 0xD3).
Proof.
  destruct small_mapped_state as [T Hs].
  pose proof (protect_changes_permissions small_space.1 0x5000 0xD3 small_mapped T Hs) as H.
  rewrite small_mapped_translate in H.
  destruct H as (m' & H1 & _ & H2); [by vm_compute|]. exists m'. split; [exact H1|].
  specialize (H2 0x5000). revert H2. generalize (translate small_space.1 0x5000 m').
  intros o ->. reflexivity.
Defined.

Lemma make_cow_write_protects_witness :
  ∃ m', make_cow small_space.1 0x5000 (pm_ram small_mapped) = (0, m') ∧
        lookup small_space.1 0x5000 m' = Some 0x80010000 ∧ is_cow small_space.1 0x5000 m' = true.
Proof.
  destruct small_mapped_state as [T Hs].
  destruct (make_cow_write_protects small_space.1 0x5000 0x80010000 0xD7 small_mapped T Hs)
    as (m' & H1 & _ & _ & H2); [apply ram_ok_check; vm_compute; reflexivity|apply small_mapped_translate|].
  exists m'. split; [exact H1|exact H2].
Defined.

Lemma destroy_frees_each_table_once_witness :
  ∃ l, destroy small_space.1 small_mapped = (a ← free_all l (pm_src small_mapped); Ret (mkPm (pm_ram small_mapped) a)) ∧
       NoDup l.
Proof.
  destruct small_mapped_state as [T Hs].
  destruct (destroy_frees_each_table_once small_space.1 small_mapped T (st_wf _ _ _ Hs)) as (l & H1 & H2 & _).
  exists l. split; [exact H1|exact H2].
Defined.
