(* ===== verification/UserPages.v ===== *)
(** * UserPages: reference-counted pages for user memory

    The address-space code of [na/mm/vma.cc] takes pages for user memory with
    [pmm_alloc_page], shares them with [page_incref] and drops them with
    [page_decref].  This file states what it relies on as an interface whose
    laws speak of the references in the kernel's hands, and proves them for the
    physical memory manager. *)

From S2P Require Import Prelude Bits Memblock Pmm PmmInit Pmap PageSources.

Class UserPages (A : Type) := {
  up_alloc : A → outcome (option Z * A);   (* [pmm_alloc_page], as the page's address *)
  up_free : Z → A → outcome A;             (* [pmm_free_page(page)] *)
  up_incref : Z → A → outcome A;           (* [page_incref(pa_to_page(pa))] *)
  up_decref : Z → A → outcome A;           (* [page_decref(pa_to_page(pa))] *)
}.

(** One reference less to a page; the last one gives the page up. *)
Definition drop_ref (pa : Z) (H : gmap Z Z) : gmap Z Z :=
  match H !! pa with
  | Some n => if n =? 1 then delete pa H else <[pa := n - 1]> H
  | None => H
  end.

(** [held a H]: in state [a], [H] counts the references to pages in use. *)
Class UserPagesSpec (A : Type) `{PageSourceSpec A, !UserPages A} := {
  held : A → gmap Z Z → Prop;
  held_ok a H : held a H → ps_ok a ∧ ps_returns a;
  held_live a H x n : held a H → H !! x = Some n → page_ok x ∧ ps_live a x ∧ 0 < n < 2 ^ 32;
  held_table a H r a' : held a H → ps_alloc a = Ret (r, a') →
    held a' (match r with Some pa => <[pa := 1]> H | None => H end);
  held_table_free a H pa : held a H → H !! pa = Some 1 →
    ∃ a', ps_free pa a = Ret a' ∧ held a' (delete pa H);
  up_alloc_ok a H : held a H →
    ∃ r a', up_alloc a = Ret (r, a') ∧
      match r with
      | Some pa => page_ok pa ∧ ¬ ps_live a pa ∧ held a' (<[pa := 1]> H)
      | None => held a' H
      end;
  up_free_ok a H pa : held a H → H !! pa = Some 1 → ∃ a', up_free pa a = Ret a' ∧ held a' (delete pa H);
  up_incref_ok a H pa n : held a H → H !! pa = Some n → n < 2 ^ 32 - 1 →
    ∃ a', up_incref pa a = Ret a' ∧ held a' (<[pa := n + 1]> H);
  up_decref_ok a H pa n : held a H → H !! pa = Some n →
    ∃ a', up_decref pa a = Ret a' ∧ held a' (drop_ref pa H);
}.

(** ** The physical memory manager *)

Definition phys_user_alloc (ph : phys) : outcome (option Z * phys) :=
  '(page, s) ← pmm_alloc_page (ph_cpu ph) (ph_pmm ph);
  match page with
  | None => Ret (None, mkPhys (ph_mb ph) (ph_cpu ph) s)
  | Some page => pa ← page_index_to_pa s page; Ret (Some pa, mkPhys (ph_mb ph) (ph_cpu ph) s)
  end.

Definition phys_incref (pa : Z) (ph : phys) : outcome phys :=
  page ← pa_to_page_index (ph_pmm ph) pa;
  Ret (mkPhys (ph_mb ph) (ph_cpu ph) (page_incref page (ph_pmm ph))).

Definition phys_decref (pa : Z) (ph : phys) : outcome phys :=
  page ← pa_to_page_index (ph_pmm ph) pa;
  s ← page_decref (ph_cpu ph) page (ph_pmm ph);
  Ret (mkPhys (ph_mb ph) (ph_cpu ph) s).

#[export] Instance phys_user_pages : UserPages phys :=
  { up_alloc := phys_user_alloc; up_free := phys_free; up_incref := phys_incref; up_decref := phys_decref }.

Definition frame_pa (s : pmm) (p : Z) : Z := g_mem_base s + kPageSize * p.

Record phys_held (ph : phys) (H : gmap Z Z) : Prop := {
  hp_mb : memblock_is_active (ph_mb ph) = false;
  hp_layout : page_aligned (g_mem_base (ph_pmm ph)) ∧ 0 < g_mem_base (ph_pmm ph) ∧
              g_mem_base (ph_pmm ph) + kPageSize * g_num_pages (ph_pmm ph) ≤ 2 ^ 56;
  hp_client : ∃ F hd, client_good F (mkClient (ph_pmm ph) hd) ∧
    ∀ x n, H !! x = Some n → ∃ p, x = frame_pa (ph_pmm ph) p ∧ hd !! p = Some (0%nat, n);
}.

Lemma frame_pa_inj s p q : frame_pa s p = frame_pa s q → p = q.
Proof. unfold frame_pa, kPageSize. lia. Qed.

Lemma held_frame_bounds F s hd p o n :
  client_good F (mkClient s hd) → hd !! p = Some (o, n) → 0 ≤ p < g_num_pages s ∧ 0 < n < 2 ^ 32 ∧ ¬ pool s p.
Proof.
  intros [B Hc] Hp. cbn in Hc. destruct (ci_held _ _ _ _ Hc _ _ _ Hp) as (HB & _ & Hn).
  pose proof (inv_blocks _ _ _ (wf_buddy _ _ (ci_wf _ _ _ _ Hc))) as Hb.
  pose proof (blk_end _ _ Hb _ _ HB). pose proof (blk_nonneg _ _ Hb _ _ HB).
  assert (0 < pow2 o) by (unfold pow2; lia). split_and!; [lia..|].
  intros Hpool. apply (ci_apart _ _ _ _ Hc p Hpool). exists p, o, n. split; [done|]. unfold in_block. lia.
Qed.

Lemma pa_to_page_index_frame s p :
  0 < g_mem_base s → g_mem_base s + kPageSize * g_num_pages s ≤ 2 ^ 56 → 0 ≤ p < g_num_pages s →
  pa_to_page_index s (frame_pa s p) = Ret p.
Proof.
  unfold pa_to_page_index, frame_pa, kPageSize. intros H0 Hl Hp.
  rewrite (wrap_small _ (g_num_pages s * 4096)), wrap_small by lia.
  rewrite (proj2 (Z.ltb_ge _ _)), (proj2 (Z.leb_gt _ _)) by lia. cbn [orb]. f_equal.
  rewrite wrap_small by lia. symmetry. apply (Z.div_unique _ _ _ 0); lia.
Qed.

(** A move of the manager's clients carries the references along. *)
Lemma phys_held_move ph H s' hd' H' F :
  phys_held ph H → params s' = params (ph_pmm ph) → client_good F (mkClient s' hd') →
  (∀ x n, H' !! x = Some n → ∃ p, x = frame_pa (ph_pmm ph) p ∧ hd' !! p = Some (0%nat, n)) →
  phys_held (mkPhys (ph_mb ph) (ph_cpu ph) s') H'.
Proof.
  intros [Hmb Hlay _] Hpar Hc HH. unfold params in Hpar.
  assert (Eb : g_mem_base s' = g_mem_base (ph_pmm ph)) by congruence.
  assert (En : g_num_pages s' = g_num_pages (ph_pmm ph)) by congruence.
  split; cbn; [done|by rewrite Eb, En|]. exists F, hd'. split; [done|].
  unfold frame_pa. by rewrite Eb.
Qed.

Section phys_laws.
Context (ph : phys) (H : gmap Z Z) (Hph : phys_held ph H).
Let s := ph_pmm ph.

Lemma phys_held_ok : phys_ok ph ∧ memblock_is_active (ph_mb ph) = false.
Proof using Hph.
  destruct Hph as [Hmb Hlay (F & hd & [B Hc] & _)]. split; [|done]. unfold phys_ok. rewrite Hmb.
  split; [exists B; apply Hc|]. split; [apply (ci_batch _ _ _ _ Hc)|done].
Qed.

Lemma phys_held_live x n : H !! x = Some n → page_ok x ∧ phys_live ph x ∧ 0 < n < 2 ^ 32.
Proof using Hph.
  intros Hx. destruct Hph as [Hmb (Hal & H0 & Hl) (F & hd & Hc & HH)].
  destruct (HH x n Hx) as (p & -> & Hp). destruct (held_frame_bounds F _ hd p _ _ Hc Hp) as (Hb & Hn & Hpool).
  destruct (page_index_to_pa_ok (ph_pmm ph) p Hal H0 Hl Hb) as [_ Hpok].
  split_and!; [done| |lia|lia]. unfold phys_live, phys_avail. rewrite Hmb.
  intros (q & Hq & E). apply Hpool. by apply frame_pa_inj in E as ->.
Qed.

Lemma phys_user_alloc_ok :
  ∃ r ph', phys_user_alloc ph = Ret (r, ph') ∧
    match r with
    | Some pa => page_ok pa ∧ ¬ phys_live ph pa ∧ phys_held ph' (<[pa := 1]> H)
    | None => phys_held ph' H
    end.
Proof using Hph.
  pose proof Hph as [Hmb (Hal & H0 & Hl) (F & hd & [B Hc] & HH)]. cbn in Hc. unfold phys_user_alloc. fold s.
  pose proof (pmm_alloc_page_ok B s (ph_cpu ph) (ci_wf _ _ _ _ Hc) (ci_batch _ _ _ _ Hc)) as K.
  destruct (exec_alloc_page F B s hd Hc (ph_cpu ph)) as (c' & Ec & Hg). cbn in Ec.
  destruct (pmm_alloc_page (ph_cpu ph) s) as [[[p|] s']| |]; [| |done..]; cbn in Ec |- *; injection Ec as <-.
  - destruct K as (B' & [_ _ _ _ _ P6 P7]).
    pose proof (pool_bounds B _ p (ci_wf _ _ _ _ Hc) P6) as Hp. pose proof P7 as P7'. unfold params in P7'.
    assert (Eb : g_mem_base s' = g_mem_base s) by congruence.
    assert (En : g_num_pages s' = g_num_pages s) by congruence.
    destruct (page_index_to_pa_ok s' p) as [-> Hpok]; [by rewrite ?Eb, ?En..|]. cbn. rewrite Eb.
    eexists _, _. split; [done|]. split_and!; [by rewrite Eb in Hpok| |].
    + unfold phys_live, phys_avail. rewrite Hmb. intros Hno. apply Hno. eauto.
    + apply (phys_held_move ph H s' (<[p := (0%nat, 1)]> hd) _ F Hph P7 Hg). fold s.
      intros x n [[<- <-]|[Hne Hx]]%lookup_insert_Some.
      * exists p. by rewrite lookup_insert_eq.
      * destruct (HH x n Hx) as (q & -> & Hq). exists q. split; [done|]. rewrite lookup_insert_ne; [done|].
        intros ->. by apply Hne.
  - destruct K as (_ & _ & B' & _ & [_ _ T3]). eexists _, _. split; [done|].
    by apply (phys_held_move ph H s' hd _ F Hph T3 Hg).
Qed.

Lemma phys_alloc_user : phys_alloc ph = phys_user_alloc ph.
Proof using Hph. unfold phys_alloc. by rewrite (hp_mb _ _ Hph). Qed.

Lemma phys_free_ok pa : H !! pa = Some 1 → ∃ ph', phys_free pa ph = Ret ph' ∧ phys_held ph' (delete pa H).
Proof using Hph.
  intros Hpa. pose proof Hph as [Hmb (Hal & H0 & Hl) (F & hd & [B Hc] & HH)]. cbn in Hc.
  destruct (HH pa 1 Hpa) as (p & -> & Hp).
  destruct (held_frame_bounds F s hd p 0 1) as (Hb & _ & _); [by exists B|done|].
  unfold phys_free. rewrite pa_to_page_index_frame by done. cbn [mbind outcome_bind]. fold s.
  pose proof (held_owned _ _ _ _ _ _ _ Hc Hp) as Ho.
  destruct (pmm_free_page_ok B s (ph_cpu ph) p (ci_wf _ _ _ _ Hc) Ho) as (s' & B' & E & _ & _ & _ & Hpar).
  destruct (release_page F B s hd Hc (ph_cpu ph) p 1 s Hp (ci_wf _ _ _ _ Hc) Ho) as (s'' & E' & Hg); [done..|].
  rewrite E. eexists; split; [done|]. rewrite E in E'. injection E' as <-.
  apply (phys_held_move ph H s' (delete p hd) _ F Hph Hpar Hg).
  intros x n [Hne Hx]%lookup_delete_Some. destruct (HH x n Hx) as (q & -> & Hq).
  exists q. split; [done|]. rewrite lookup_delete_ne; [done|]. intros ->. by apply Hne.
Qed.

Lemma phys_incref_ok pa n : H !! pa = Some n → n < 2 ^ 32 - 1 →
  ∃ ph', phys_incref pa ph = Ret ph' ∧ phys_held ph' (<[pa := n + 1]> H).
Proof using Hph.
  intros Hpa Hn. pose proof Hph as [Hmb (Hal & H0 & Hl) (F & hd & [B Hc] & HH)]. cbn in Hc.
  destruct (HH pa n Hpa) as (p & -> & Hp).
  destruct (held_frame_bounds F s hd p 0 n) as (Hb & Hn' & _); [by exists B|done|].
  unfold phys_incref. rewrite pa_to_page_index_frame by done. cbn. eexists; split; [done|].
  assert (Ha : allowed (Incref p) (mkClient s hd) = true) by (cbn; rewrite Hp; lia).
  destruct (client_exec_ok F B s hd Hc _ Ha) as (c' & E & Hg). cbn in E. injection E as <-.
  apply (phys_held_move ph H (page_incref p s) _ _ F Hph eq_refl Hg). rewrite Hp.
  intros x m [[<- <-]|[Hne Hx]]%lookup_insert_Some.
  - exists p. by rewrite lookup_insert_eq.
  - destruct (HH x m Hx) as (q & -> & Hq). exists q. split; [done|]. rewrite lookup_insert_ne; [done|].
    intros ->. by apply Hne.
Qed.

Lemma page_decref_params B hd F p o n s' :
  client_inv F B s hd → hd !! p = Some (o, n) → page_decref (ph_cpu ph) p s = Ret s' → params s' = params s.
Proof.
  intros Hc Hp. destruct (ci_held _ _ _ _ Hc _ _ _ Hp) as (_ & Hd & Hn). unfold page_decref. rewrite Hd. cbn [refcount state order].
  destruct (Z.eqb_spec n 1) as [->|]; [|by intros [= <-]].
  destruct (set_refcount_ok B s p o 0 (ci_wf _ _ _ _ Hc)) as (Hwf & Ho & _ & _); [by eapply held_owned|].
  change (u32 (1 - 1)) with 0. destruct (Nat.eqb_spec o 0) as [->|].
  - destruct (pmm_free_page_ok B _ (ph_cpu ph) p Hwf Ho) as (s1 & B1 & -> & _ & _ & _ & Hpar). by intros [= <-].
  - destruct (pmm_free_pages_ok B _ p o Hwf Ho) as (s1 & B1 & -> & _ & _ & _ & Hpar). by intros [= <-].
Qed.

Lemma phys_decref_ok pa n : H !! pa = Some n →
  ∃ ph', phys_decref pa ph = Ret ph' ∧ phys_held ph' (drop_ref pa H).
Proof using Hph.
  intros Hpa. pose proof Hph as [Hmb (Hal & H0 & Hl) (F & hd & [B Hc] & HH)]. cbn in Hc.
  destruct (HH pa n Hpa) as (p & -> & Hp).
  destruct (held_frame_bounds F s hd p 0 n) as (Hb & Hn' & _); [by exists B|done|].
  unfold phys_decref, drop_ref. rewrite pa_to_page_index_frame by done. cbn [mbind outcome_bind]. fold s in Hpa |- *. rewrite Hpa.
  assert (Ha : allowed (Decref (ph_cpu ph) p) (mkClient s hd) = true) by (apply bool_decide_eq_true; eauto).
  destruct (client_exec_ok F B s hd Hc _ Ha) as (c' & E & Hg). cbn in E. rewrite Hp in E.
  destruct (page_decref (ph_cpu ph) p s) as [s'| |] eqn:Ed; [|done..]. cbn in E |- *. injection E as <-.
  eexists; split; [done|].
  apply (phys_held_move ph H s' _ _ F Hph (page_decref_params B hd F p 0 n s' Hc Hp Ed) Hg).
  destruct (n =? 1).
  - intros x m [Hne Hx]%lookup_delete_Some. destruct (HH x m Hx) as (q & -> & Hq).
    exists q. split; [done|]. rewrite lookup_delete_ne; [done|]. intros ->. by apply Hne.
  - intros x m [[<- <-]|[Hne Hx]]%lookup_insert_Some.
    + exists p. by rewrite lookup_insert_eq.
    + destruct (HH x m Hx) as (q & -> & Hq). exists q. split; [done|]. rewrite lookup_insert_ne; [done|].
      intros ->. by apply Hne.
Qed.
End phys_laws.

#[export] Program Instance phys_user_pages_spec : UserPagesSpec phys := { held := phys_held }.
Next Obligation. intros ph H Hh. by apply (phys_held_ok ph H). Qed.
Next Obligation. intros ph H x n Hh. by apply (phys_held_live ph H). Qed.
Next Obligation.
  intros ph H r ph' Hh Ha. cbn in Ha. rewrite (phys_alloc_user ph H Hh) in Ha.
  destruct (phys_user_alloc_ok ph H Hh) as (r' & ph'' & E & Hr). rewrite Ha in E. injection E as <- <-.
  destruct r as [pa|]; [apply Hr|done].
Qed.
Next Obligation. intros ph H pa Hh. by apply (phys_free_ok ph H). Qed.
Next Obligation. intros ph H Hh. by apply (phys_user_alloc_ok ph H). Qed.
Next Obligation. intros ph H pa Hh. by apply (phys_free_ok ph H). Qed.
Next Obligation. intros ph H pa n Hh. by apply (phys_incref_ok ph H). Qed.
Next Obligation. intros ph H pa n Hh. by apply (phys_decref_ok ph H). Qed.
