(* ===== verification/VmaTree.v ===== *)
(** * VmaTree: the areas of a user address space

    Models the part of [na/mm/vma.cc] that works on the tree of areas alone:
    the tree's order, the scans for overlap, coverage and free space, merging
    with neighbours and splitting.  The tree is any [OrderedTree]; a pointer to
    an area in the tree is the area's start, which no two areas share, together
    with the field values last read through it. *)

From S2P Require Import Prelude Bits RBTree.

Record vma := mkVma { start : Z; end_ : Z; perm : Z }.

#[export] Instance vma_eq_dec : EqDecision vma.
Proof. solve_decision. Defined.

Definition with_start (x : Z) (v : vma) : vma := mkVma x (end_ v) (perm v).
Definition with_end (x : Z) (v : vma) : vma := mkVma (start v) x (perm v).
Definition with_perm (x : Z) (v : vma) : vma := mkVma (start v) (end_ v) x.

Definition vma_less (node parent : vma) : bool := start node <? start parent.

Definition vma_cmp (addr : Z) (n : vma) : Z :=
  if addr <? start n then -1 else if end_ n <=? addr then 1 else 0.

(** The node of the tree that [v] was read from. *)
Definition node_of (v x : vma) : bool := start x =? start v.

Definition align_up_any (value align : Z) : Z :=
  if align =? 0 then value else u64 (u64 (value + align - 1) / align * align).

Definition range_overlaps (a_start a_end b_start b_end : Z) : bool :=
  (a_start <? b_end) && (b_start <? a_end).

Definition kUserVaBase : Z := kPageSize.
Definition kUserVaLimit : Z := 0xFFFFFFC000000000.

Definition VM_READ : Z := Z.shiftl 1 0.
Definition VM_WRITE : Z := Z.shiftl 1 1.
Definition VM_EXEC : Z := Z.shiftl 1 2.
Definition VM_USER : Z := Z.shiftl 1 3.

Definition ENOMEM : Z := 12.
Definition EFAULT : Z := 14.
Definition EINVAL : Z := 22.
Definition ENOSYS : Z := 38.

(** Allocating the kernel's own objects with [new] and [delete]. *)
Inductive object := VmAreaStruct | VmSpaceObject.

Class ObjectHeap (A : Type) := {
  obj_new : object → A → outcome (bool * A);    (* [false]: out of memory *)
  obj_delete : object → A → outcome A;
}.

Section vma_tree.
Context {T : Type} `{OrderedTree vma T}.

(** ** Loops over the nodes

    [node = rb_first(tree); while (node) { ...; node = rb_next(node); }] *)

Definition node_step {S R} (f : vma → S → outcome (S + R)) (t : T) (c : option vma * S)
  : option vma * S + outcome (S + R) :=
  let '(node, s) := c in
  match node with
  | None => inr (Ret (inl s))
  | Some v =>
      match f v s with
      | Ret (inl s') => inl (ot_next (node_of v) t, s')
      | Ret (inr r) => inr (Ret (inr r))
      | Panic msg => inr (Panic msg)
      | OutOfFuel => inr OutOfFuel
      end
  end.

Definition for_nodes {S R} (f : vma → S → outcome (S + R)) (t : T) (s : S) : outcome (S + R) :=
  match loop 64 (node_step f t) (ot_first t, s) with inr r => r | inl _ => OutOfFuel end.

Definition vma_overlaps_locked (t : T) (start_ end_' : Z) : outcome bool :=
  r ← for_nodes (λ vma (_ : unit),
        Ret (if range_overlaps start_ end_' (start vma) (end_ vma) then inr tt else inl tt)) t tt;
  Ret (match r with inr _ => true | inl _ => false end).

(** The loop's condition [cursor < end] is the first test of the body. *)
Definition covered_step (end_' : Z) (vma : vma) (cursor : Z) : Z + bool :=
  if negb (cursor <? end_') then inr (end_' <=? cursor)
  else if end_ vma <=? cursor then inl cursor
  else if cursor <? start vma then inr false
  else inl (if cursor <? end_ vma then end_ vma else cursor).

Definition vma_range_covered_locked (t : T) (start_ end_' : Z) : outcome bool :=
  r ← for_nodes (λ vma cursor, Ret (covered_step end_' vma cursor)) t start_;
  Ret (match r with inl cursor => end_' <=? cursor | inr b => b end).

Definition vma_range_covered (t : T) (start_ end_' : Z) : outcome bool :=
  let start_ := page_align_down start_ in
  let end_' := page_align_up end_' in
  if end_' <=? start_ then Ret true else vma_range_covered_locked t start_ end_'.

Definition free_va_step (length align : Z) (vma : vma) (cursor : Z) : Z + Z :=
  let advance :=
    let cursor := if cursor <? end_ vma then end_ vma else cursor in
    inl (align_up_any cursor align) in
  if cursor <=? start vma then
    if u64 (kUserVaLimit - length) <? cursor then inr 0
    else if u64 (cursor + length) <=? start vma then inr cursor
    else advance
  else advance.

Definition mm_find_free_va (t : T) (length align : Z) : outcome Z :=
  let length := page_align_up length in
  if length =? 0 then Ret 0
  else
    let align := if align <? kPageSize then kPageSize else align in
    r ← for_nodes (λ vma cursor, Ret (free_va_step length align vma cursor)) t (align_up_any kUserVaBase align);
    Ret (match r with
         | inr va => va
         | inl cursor => if u64 (kUserVaLimit - length) <? cursor then 0 else cursor
         end).

Context {A : Type} `{ObjectHeap A}.

Definition vma_try_merge_neighbors_locked (t : T) (vma : vma) (a : A) : outcome (T * A) :=
  '(t, vma, a) ←
    match ot_prev (node_of vma) t with
    | Some prev =>
        if (end_ prev =? start vma) && (perm prev =? perm vma) then
          let t := ot_store (node_of prev) (with_end (end_ vma)) t in
          let t := ot_erase (node_of vma) t in
          a ← obj_delete VmAreaStruct a;
          Ret (t, with_end (end_ vma) prev, a)
        else Ret (t, vma, a)
    | None => Ret (t, vma, a)
    end;
  match ot_next (node_of vma) t with
  | Some next =>
      if (end_ vma =? start next) && (perm vma =? perm next) then
        let t := ot_store (node_of vma) (with_end (end_ next)) t in
        let t := ot_erase (node_of next) t in
        a ← obj_delete VmAreaStruct a;
        Ret (t, a)
      else Ret (t, a)
  | None => Ret (t, a)
  end.

Definition vma_split_locked (t : T) (vma : vma) (split : Z) (a : A) : outcome (Z * T * A) :=
  if (split <=? start vma) || (end_ vma <=? split) then Ret (0, t, a)
  else
    '(ok, a) ← obj_new VmAreaStruct a;
    if negb ok then Ret (- ENOMEM, t, a)
    else
      let right := mkVma split (end_ vma) (perm vma) in
      let t := ot_store (node_of vma) (with_end split) t in
      Ret (0, ot_add vma_less right t, a).

Definition vma_split_range_locked (t : T) (start_ end_' : Z) (a : A) : outcome (Z * T * A) :=
  if end_' <=? start_ then Ret (0, t, a)
  else
    match ot_find (vma_cmp start_) t with
    | None => Ret (- ENOMEM, t, a)
    | Some start_vma =>
        '(ret, t, a) ← vma_split_locked t start_vma start_ a;
        if ret <? 0 then Ret (ret, t, a)
        else
          match ot_find (vma_cmp (u64 (end_' - 1))) t with
          | None => Ret (- ENOMEM, t, a)
          | Some end_vma => vma_split_locked t end_vma end_' a
          end
    end.
End vma_tree.

(** ** Well-formed areas

    Page-aligned, not empty, within the user range, in order and disjoint. *)

Definition vma_ok (v : vma) : Prop :=
  page_aligned (start v) ∧ page_aligned (end_ v) ∧ kUserVaBase ≤ start v < end_ v ∧ end_ v ≤ kUserVaLimit.

Abbreviation before := (λ v w : vma, end_ v ≤ start w).

Record vmas_ok (l : list vma) : Prop := {
  vs_each : Forall vma_ok l;
  vs_sorted : StronglySorted before l;
}.

(** The permissions an address has, and the equivalence of two lists that give
    every address the same: splitting and merging areas stay within it. *)
Fixpoint perm_at (l : list vma) (x : Z) : option Z :=
  match l with
  | [] => None
  | v :: l' => if (start v <=? x) && (x <? end_ v) then Some (perm v) else perm_at l' x
  end.

Definition same_perms (l k : list vma) : Prop := ∀ x, perm_at l x = perm_at k x.

#[export] Instance same_perms_equiv : Equivalence same_perms.
Proof. split; [by intros l x|by intros l k H x|by intros l k j H1 H2 x; rewrite H1]. Qed.

Lemma perm_at_app a b x : perm_at (a ++ b) x = match perm_at a x with Some p => Some p | None => perm_at b x end.
Proof. induction a as [|v a IH]; cbn; [done|]. by destruct (_ && _). Qed.

#[export] Instance same_perms_app : Proper (same_perms ==> same_perms ==> same_perms) app.
Proof. intros a a' Ha b b' Hb x. by rewrite !perm_at_app, Ha, Hb. Qed.

#[export] Instance same_perms_cons v : Proper (same_perms ==> same_perms) (cons v).
Proof. intros a a' Ha x. cbn. by rewrite Ha. Qed.

Lemma vmas_ok_nil : vmas_ok [].
Proof. split; constructor. Qed.

Lemma vmas_ok_app a b :
  vmas_ok (a ++ b) ↔ vmas_ok a ∧ vmas_ok b ∧ ∀ v w, v ∈ a → w ∈ b → end_ v ≤ start w.
Proof.
  split.
  - intros [He Hs]. apply Forall_app in He as [? ?]. apply StronglySorted_app in Hs as (? & ? & ?). done.
  - intros ([He1 Hs1] & [He2 Hs2] & H). split; [by apply Forall_app|by apply StronglySorted_app].
Qed.

Lemma vmas_ok_cons v b : vmas_ok (v :: b) ↔ vma_ok v ∧ vmas_ok b ∧ ∀ w, w ∈ b → end_ v ≤ start w.
Proof.
  split.
  - intros [He Hs]. apply Forall_cons in He as [? ?]. apply StronglySorted_cons in Hs as [Hf ?].
    rewrite Forall_forall in Hf. done.
  - intros (Hv & [He Hs] & H). split; [by constructor|]. apply StronglySorted_cons.
    split; [by apply Forall_forall|done].
Qed.

Lemma vmas_ok_elem l v : vmas_ok l → v ∈ l → vma_ok v.
Proof. intros [He _] Hv. rewrite Forall_forall in He. by apply He. Qed.

Lemma perm_at_none l x : (∀ v, v ∈ l → x < start v ∨ end_ v ≤ x) → perm_at l x = None.
Proof.
  induction l as [|v l IH]; cbn; intros H; [done|].
  rewrite IH by (intros w Hw; apply H; by right).
  destruct (H v) as [?|?]; [left|..].
  - by rewrite (proj2 (Z.leb_gt _ _)) by lia.
  - by rewrite (proj2 (Z.ltb_ge _ _)), andb_false_r by lia.
Qed.

Lemma perm_at_here v l x : start v ≤ x < end_ v → perm_at (v :: l) x = Some (perm v).
Proof. intros. cbn. by rewrite (proj2 (Z.leb_le _ _)), (proj2 (Z.ltb_lt _ _)) by lia. Qed.

Lemma perm_at_skip v l x : x < start v ∨ end_ v ≤ x → perm_at (v :: l) x = perm_at l x.
Proof.
  intros [?|?]; cbn; [by rewrite (proj2 (Z.leb_gt _ _)) by lia|].
  by rewrite (proj2 (Z.ltb_ge _ _)), andb_false_r by lia.
Qed.

Lemma perm_at_Some l x p :
  perm_at l x = Some p → ∃ a v b, l = a ++ v :: b ∧ start v ≤ x < end_ v ∧ perm v = p.
Proof.
  induction l as [|v l IH]; cbn; [done|].
  destruct ((start v <=? x) && (x <? end_ v)) eqn:E.
  - apply andb_true_iff in E as [?%Z.leb_le ?%Z.ltb_lt]. intros [= <-]. by exists [], v, l.
  - intros (a & w & b & -> & ? & ?)%IH. by exists (v :: a), w, b.
Qed.

Lemma perm_at_mid a v b x : vmas_ok (a ++ v :: b) → start v ≤ x < end_ v → perm_at (a ++ v :: b) x = Some (perm v).
Proof.
  intros (_ & _ & H)%vmas_ok_app Hx. rewrite perm_at_app, perm_at_none, perm_at_here; [done..|].
  intros w Hw. right. specialize (H w v Hw ltac:(left)). lia.
Qed.

(** There are fewer areas than addresses. *)
Lemma vmas_ok_length l lo : vmas_ok l → (∀ v, v ∈ l → lo ≤ start v) → lo ≤ kUserVaLimit →
  Z.of_nat (length l) ≤ kUserVaLimit - lo.
Proof.
  revert lo. induction l as [|v l IH]; cbn [length]; intros lo Hok Hlo Hl; [lia|].
  apply vmas_ok_cons in Hok as ((_ & _ & Hv & Hv') & Hok & Hb). specialize (Hlo v ltac:(left)).
  specialize (IH (end_ v) Hok Hb Hv'). lia.
Qed.

Lemma vmas_ok_count l : vmas_ok l → Z.of_nat (length l) < 2 ^ 64.
Proof.
  intros Hok. pose proof (vmas_ok_length l 0 Hok) as H.
  assert (kUserVaLimit < 2 ^ 64 ∧ 0 ≤ kUserVaLimit) as [? ?] by (by vm_compute).
  enough (Z.of_nat (length l) ≤ kUserVaLimit - 0) by lia. apply H; [|lia].
  intros v Hv. destruct (vmas_ok_elem l v Hok Hv) as (_ & _ & ? & _). unfold kUserVaBase, kPageSize in *. lia.
Qed.

Section tree_facts.
Context {T : Type} `{OrderedTree vma T} {Hot : OrderedTreeSpec vma T}.

Record tree_ok (t : T) (l : list vma) : Prop := {
  to_ok : ot_ok t;
  to_elems : ot_elems t = l;
  to_vmas : vmas_ok l;
}.

Lemma node_of_self v : node_of v v = true.
Proof. unfold node_of. lia. Qed.

(** Starts are unique: a pointer finds its node. *)
Record tree_has (t : T) (l : list vma) : Prop := {
  th_ok : ot_ok t;
  th_elems : ot_elems t = l;
  th_starts : NoDup (start <$> l);
}.

Lemma vmas_ok_starts l : vmas_ok l → NoDup (start <$> l).
Proof.
  induction l as [|v l IH]; cbn; intros Hok; [constructor|].
  apply vmas_ok_cons in Hok as ((_ & _ & Hv & _) & Hok & Hb). constructor; [|auto].
  intros (w & E & Hw)%list_elem_of_fmap. specialize (Hb w Hw). lia.
Qed.

Lemma tree_ok_has t l : tree_ok t l ↔ tree_has t l ∧ vmas_ok l.
Proof.
  split; [intros [? ? ?]; split; [split; by auto using vmas_ok_starts|done]|by intros [[] ?]; split].
Qed.

Lemma tree_has_points t a v b : tree_has t (a ++ v :: b) → points_to (node_of v) t a v b.
Proof.
  intros [_ He Hv]. split_and!; [done|apply node_of_self|]. unfold node_of.
  rewrite fmap_app, fmap_cons in Hv. apply NoDup_app in Hv as (_ & Ha & [Hb _]%NoDup_cons).
  intros y [Hy|Hy]%elem_of_app; apply Z.eqb_neq; intros E.
  - apply (Ha (start y)); [by apply list_elem_of_fmap_2|]. rewrite E. left.
  - apply Hb. rewrite <-E. by apply list_elem_of_fmap_2.
Qed.

Lemma points_to_mid t a v b : tree_ok t (a ++ v :: b) → points_to (node_of v) t a v b.
Proof. intros [? _]%tree_ok_has. by apply tree_has_points. Qed.

Lemma tree_has_erase t a v b : tree_has t (a ++ v :: b) → tree_has (ot_erase (node_of v) t) (a ++ b).
Proof using Hot.
  intros Ht. destruct (ot_erase_spec _ _ _ _ _ (th_ok _ _ Ht) (tree_has_points _ _ _ _ Ht)) as [? ?].
  split; [done..|]. pose proof (th_starts _ _ Ht) as Hn. rewrite fmap_app in Hn |- *. cbn in Hn.
  rewrite <-Permutation_middle in Hn. by apply NoDup_cons in Hn as [_ ?].
Qed.

Lemma tree_has_store t a v b f : tree_has t (a ++ v :: b) → start (f v) = start v →
  tree_has (ot_store (node_of v) f t) (a ++ f v :: b).
Proof using Hot.
  intros Ht Hf. destruct (ot_store_spec _ f _ _ _ _ (th_ok _ _ Ht) (tree_has_points _ _ _ _ Ht)) as [? ?].
  split; [done..|]. pose proof (th_starts _ _ Ht) as Hn. rewrite fmap_app in Hn |- *. cbn in Hn |- *. by rewrite Hf.
Qed.

Lemma tree_ok_empty : tree_ok ot_empty [].
Proof using Hot. destruct (ot_empty_spec (A := vma) (T := T)). split; [done..|apply vmas_ok_nil]. Qed.

(** A split of a sequence by a predicate that holds on its tail only. *)
Lemma partition_unique {B} (P : B → Prop) (a b a' b' : list B) :
  a ++ b = a' ++ b' → Forall (λ x, ¬ P x) a → Forall P b → Forall (λ x, ¬ P x) a' → Forall P b' →
  a = a' ∧ b = b'.
Proof.
  revert a'. induction a as [|x a IH]; intros [|x' a'] E Ha Hb Ha' Hb'; cbn in E; simplify_eq; [done|..].
  - apply Forall_cons in Hb as [? _], Ha' as [? _]. done.
  - apply Forall_cons in Hb' as [? _], Ha as [? _]. done.
  - apply Forall_cons in Ha as [_ Ha], Ha' as [_ Ha']. destruct (IH a') as [-> ->]; done.
Qed.

Lemma tree_ok_add t a v b :
  tree_ok t (a ++ b) → vmas_ok (a ++ v :: b) → tree_ok (ot_add vma_less v t) (a ++ v :: b).
Proof using Hot.
  intros [Hok He Hv] Hv'. destruct (ot_add_spec vma_less v t Hok) as (Hok' & a' & b' & E & E' & Fa & Fb).
  { rewrite He. destruct Hv as [Heach Hs]. revert Heach Hs. generalize (a ++ b). clear. intros l He Hs.
    induction Hs as [|x l Hs IH Hx]; [constructor|]. apply Forall_cons in He as [(_ & _ & Hx' & _) He].
    constructor; [auto|]. rewrite Forall_forall in Hx |- *. intros y Hy Hl. specialize (Hx y Hy). cbv beta in Hx.
    unfold vma_less in *. apply Is_true_true in Hl. apply Is_true_true. lia. }
  rewrite He in E. destruct (partition_unique (λ y, vma_less v y = true) a b a' b') as [-> ->]; [done|..].
  - apply vmas_ok_app in Hv' as (_ & (_ & _)%vmas_ok_cons & Hab). apply Forall_forall. intros y Hy Hl.
    specialize (Hab y v Hy ltac:(left)). apply vmas_ok_app in Hv as (Ha & _).
    destruct (vmas_ok_elem _ _ Ha Hy) as (_ & _ & ? & _). unfold vma_less in Hl. lia.
  - apply vmas_ok_app in Hv' as (_ & ((_ & _ & Hvv & _) & _ & Hb)%vmas_ok_cons & _). apply Forall_forall.
    intros y Hy. specialize (Hb y Hy). unfold vma_less. lia.
  - eapply Forall_impl; [exact Fa|]. intros y Hy. cbv beta in Hy. by rewrite Hy.
  - done.
  - by split.
Qed.

(** The loop over the nodes is a scan of the areas in order. *)
Lemma for_nodes_scan {S R} (f : vma → S → outcome (S + R)) t l s :
  tree_ok t l → for_nodes f t s = scan f l s.
Proof using Hot.
  intros Ht. unfold for_nodes.
  rewrite (scan_loop f (λ c k, c = head k ∧ ∃ a, l = a ++ k) (node_step f t)) with (l := l); [done|..].
  - intros c s' [-> _]. done.
  - intros c x k s' [-> [a Ea]]. cbn [head node_step].
    destruct (f x s') as [[s''|r]|msg|]; [|done..]. eexists. split; [|done].
    rewrite Ea in Ht. rewrite (ot_next_spec _ _ _ _ _ (to_ok _ _ Ht) (points_to_mid t a x k Ht)).
    split; [done|]. exists (a ++ [x]). by rewrite <-app_assoc.
  - split; [|by exists []]. rewrite (ot_first_spec t), (to_elems t l Ht); [done|apply Ht].
  - apply vmas_ok_count, Ht.
Qed.

(** ** The scans *)

Lemma vma_overlaps_locked_ok t l s e :
  tree_ok t l → s < e →
  ∃ b, vma_overlaps_locked t s e = Ret b ∧ (b = false ↔ ∀ v, v ∈ l → e ≤ start v ∨ end_ v ≤ s).
Proof using Hot.
  intros Ht Hse. unfold vma_overlaps_locked. rewrite (for_nodes_scan _ t l tt Ht). clear Ht.
  induction l as [|v l IH]; cbn [scan mbind outcome_bind].
  { exists false. split; [done|]. split; [|done]. intros _ v []%elem_of_nil. }
  destruct (range_overlaps s e (start v) (end_ v)) eqn:Ev; cbn [mbind outcome_bind].
  all: unfold range_overlaps in Ev.
  - exists true. split; [done|]. split; [done|]. intros Hv. destruct (Hv v ltac:(left)); lia.
  - destruct IH as (b & -> & Hb). exists b. split; [done|]. rewrite Hb. setoid_rewrite elem_of_cons.
    split; [|by auto]. intros Hl w [->|Hw]; [lia|auto].
Qed.

(** [vma_range_covered_locked] decides whether every address of the range
    belongs to an area. *)
Lemma covered_scan l c e :
  vmas_ok l →
  (match scan (λ v c, Ret (covered_step e v c)) l c with
   | Ret (inl cursor) => e <=? cursor | Ret (inr b) => b | _ => false end) = true ↔
  (∀ x, c ≤ x < e → is_Some (perm_at l x)).
Proof.
  revert c. induction l as [|v l IH]; intros c Hok; cbn [scan].
  { rewrite Z.leb_le. split; [lia|]. intros Hx. destruct (decide (e ≤ c)); [done|].
    by destruct (Hx c ltac:(lia)). }
  apply vmas_ok_cons in Hok as ((_ & _ & Hv & _) & Hok & Hb). cbn [mbind outcome_bind].
  assert (covered_step e v c = (if c <? e then
            if end_ v <=? c then inl c else if c <? start v then inr false else inl (end_ v)
          else inr true)) as ->.
  { unfold covered_step. destruct (Z.ltb_spec c e); cbn [negb]; [|by rewrite (proj2 (Z.leb_le _ _)) by lia].
    destruct (Z.leb_spec (end_ v) c); [done|]. by rewrite (proj2 (Z.ltb_lt c (end_ v))) by lia. }
  destruct (Z.ltb_spec c e); [|by split; [lia|]].
  destruct (Z.leb_spec (end_ v) c); [|destruct (Z.ltb_spec c (start v))].
  - rewrite IH by done. split; intros Hx x Hx'; specialize (Hx x Hx'); by rewrite perm_at_skip in * by lia.
  - split; [done|]. intros Hx. destruct (Hx c ltac:(lia)) as [p Hp].
    rewrite perm_at_none in Hp; [done|]. intros w [->|Hw]%elem_of_cons; [lia|]. specialize (Hb w Hw). lia.
  - rewrite IH by done. split; intros Hx x Hx'.
    + destruct (decide (x < end_ v)).
      * rewrite perm_at_here by lia. by eexists.
      * rewrite perm_at_skip by lia. apply Hx. lia.
    + specialize (Hx x ltac:(lia)). by rewrite perm_at_skip in Hx by lia.
Qed.

Lemma vma_range_covered_locked_ok t l s e :
  tree_ok t l →
  ∃ b, vma_range_covered_locked t s e = Ret b ∧ (b = true ↔ ∀ x, s ≤ x < e → is_Some (perm_at l x)).
Proof using Hot.
  intros Ht. unfold vma_range_covered_locked. rewrite (for_nodes_scan _ t l s Ht).
  pose proof (covered_scan l s e (to_vmas _ _ Ht)) as Hc.
  assert (∃ r, scan (λ v c, Ret (covered_step e v c)) l s = Ret r) as [r Er].
  { clear. revert s. induction l as [|v l IH]; intros s; cbn; [eauto|]. destruct (covered_step e v s); eauto. }
  rewrite Er in Hc |- *. cbn. by eexists.
Qed.

(** ** First fit *)

Lemma align_up_any_ok value align :
  0 ≤ value → 0 < align → value + align ≤ 2 ^ 64 →
  (align | align_up_any value align) ∧ value ≤ align_up_any value align < value + align ∧
  ∀ x, (align | x) → value ≤ x → align_up_any value align ≤ x.
Proof.
  intros Hv Ha Hs. unfold align_up_any. rewrite (proj2 (Z.eqb_neq _ _)) by lia.
  rewrite (wrap_small _ (value + align - 1)) by lia.
  pose proof (Z.div_mod (value + align - 1) align ltac:(lia)).
  pose proof (Z.mod_pos_bound (value + align - 1) align ltac:(lia)).
  set (q := (value + align - 1) / align) in *. rewrite (Z.mul_comm align) in *.
  rewrite wrap_small by nia. split_and!; [by exists q|lia|lia|].
  intros x [y ->] Hx. enough (q ≤ y) by nia. assert (q * align < (y + 1) * align) by lia. nia.
Qed.

(** A free place for [len] bytes at a multiple of [align] among the areas. *)
Definition fits_va (l : list vma) (len align x : Z) : Prop :=
  (align | x) ∧ x + len ≤ kUserVaLimit ∧ ∀ v, v ∈ l → x + len ≤ start v ∨ end_ v ≤ x.

Definition free_va_result (len align : Z) (l : list vma) (c : Z) : Z :=
  match scan (λ v c, Ret (free_va_step len align v c)) l c with
  | Ret (inr va) => va
  | Ret (inl c) => if u64 (kUserVaLimit - len) <? c then 0 else c
  | _ => 0
  end.

Lemma free_va_result_cons len align v l c :
  free_va_result len align (v :: l) c =
  match free_va_step len align v c with inl c' => free_va_result len align l c' | inr r => r end.
Proof. unfold free_va_result. cbn. by destruct (free_va_step len align v c). Qed.

Lemma kUserVaLimit_val : kUserVaLimit = 2 ^ 64 - 2 ^ 38.
Proof. reflexivity. Qed.

(** From cursor [c]: the least free place at or above it, or none. *)
Lemma free_va_scan l len align c :
  vmas_ok l → 0 < len ≤ kUserVaLimit → kPageSize ≤ align ≤ 2 ^ 37 →
  0 < c ≤ kUserVaLimit + align → (align | c) →
  let r := free_va_result len align l c in
  (r = 0 ∧ ∀ x, c ≤ x → ¬ fits_va l len align x) ∨
  (c ≤ r ∧ fits_va l len align r ∧ ∀ x, c ≤ x → fits_va l len align x → r ≤ x).
Proof.
  intros Hok Hlen Hal. pose proof kUserVaLimit_val as HL. unfold kPageSize in *. revert c Hok.
  induction l as [|v l IH]; intros c Hok Hc Hdiv.
  { unfold free_va_result. cbn [scan]. rewrite wrap_small by lia. destruct (Z.ltb_spec (kUserVaLimit - len) c).
    - left. split; [done|]. intros x Hx (_ & ? & _). lia.
    - right. split; [lia|]. split; [|by intros; lia]. split_and!; [done|lia|]. intros ? []%elem_of_nil. }
  apply vmas_ok_cons in Hok as ((_ & _ & Hv & Hv') & Hok & Hb). rewrite free_va_result_cons. cbv zeta in IH |- *.
  set (c' := align_up_any (if c <? end_ v then end_ v else c) align).
  assert (Hc' : c ≤ c' ∧ end_ v ≤ c' ∧ c' ≤ kUserVaLimit + align ∧ (align | c') ∧
                ∀ x, c ≤ x → end_ v ≤ x → (align | x) → c' ≤ x).
  { unfold c'. destruct (Z.ltb_spec c (end_ v)) as [Hlt|Hge].
    - destruct (align_up_any_ok (end_ v) align) as (H1 & H2 & H3); [unfold kUserVaBase, kPageSize in *; lia..|].
      split_and!; [lia|lia|lia|done|auto].
    - destruct (align_up_any_ok c align) as (H1 & H2 & H3); [lia..|].
      pose proof (H3 c Hdiv ltac:(lia)). split_and!; [lia|lia|lia|done|auto]. }
  destruct Hc' as (Hc1 & Hc2 & Hc3 & Hc4 & Hc5).
  assert (Hcons : ∀ x, fits_va (v :: l) len align x ↔ fits_va l len align x ∧ (x + len ≤ start v ∨ end_ v ≤ x)).
  { intros x. unfold fits_va. setoid_rewrite elem_of_cons. split.
    - intros (? & ? & Hx). split_and!; auto.
    - intros ((? & ? & Hx) & Hx'). split_and!; [done..|]. intros w [->|?]; auto. }
  assert (Hgo : (∀ x, c ≤ x → ¬ x + len ≤ start v) →
    let r := free_va_result len align l c' in
    (r = 0 ∧ ∀ x, c ≤ x → ¬ fits_va (v :: l) len align x) ∨
    (c ≤ r ∧ fits_va (v :: l) len align r ∧ ∀ x, c ≤ x → fits_va (v :: l) len align x → r ≤ x)).
  { intros Hno. destruct (IH c' Hok ltac:(lia) Hc4) as [[-> Hn]|(Hr & Hf & Hmin)].
    - left. split; [done|]. intros x Hx [Hf [?|?]]%Hcons; [by eapply Hno|].
      apply (Hn x); [|done]. apply Hc5; [done..|apply Hf].
    - right. split_and!; [lia|apply Hcons; split; [done|lia]|].
      intros x Hx [Hf' [?|?]]%Hcons; [by destruct (Hno x)|]. apply Hmin; [|done]. apply Hc5; [done..|apply Hf']. }
  unfold free_va_step. fold c'. rewrite (wrap_small _ (kUserVaLimit - len)) by lia.
  destruct (Z.leb_spec c (start v)) as [Hcs|Hcs]; [|apply Hgo; intros; lia].
  destruct (Z.ltb_spec (kUserVaLimit - len) c).
  { left. split; [done|]. intros x Hx [(_ & ? & _) _]%Hcons. lia. }
  rewrite wrap_small by lia. destruct (Z.leb_spec (c + len) (start v)) as [Hfit|Hfit]; [|apply Hgo; intros; lia].
  right. split; [lia|]. split; [|by intros; lia]. apply Hcons. split; [|by left].
  split_and!; [done|lia|]. intros w Hw. specialize (Hb w Hw). left. lia.
Qed.

Lemma mm_find_free_va_ok t l length_ align_ :
  tree_ok t l → 0 < length_ ≤ kUserVaLimit → 0 ≤ align_ ≤ 2 ^ 37 →
  let len := page_align_up length_ in
  let align := align_ `max` kPageSize in
  ∃ r, mm_find_free_va t length_ align_ = Ret r ∧
    ((r = 0 ∧ ∀ x, kUserVaBase ≤ x → ¬ fits_va l len align x) ∨
     (kUserVaBase ≤ r ∧ fits_va l len align r ∧ ∀ x, kUserVaBase ≤ x → fits_va l len align x → r ≤ x)).
Proof using Hot.
  intros Ht Hlen Hal len align. unfold mm_find_free_va. fold len. pose proof kUserVaLimit_val as HL.
  destruct (page_align_up_spec length_) as [Hpl Hlr]; [unfold kPageSize; lia|]. fold len in Hpl, Hlr.
  assert (len ≤ kUserVaLimit) as Hll.
  { unfold page_aligned, kPageSize in *. pose proof (Z.div_mod len 4096). lia. }
  rewrite (proj2 (Z.eqb_neq len 0)) by lia.
  assert ((if align_ <? kPageSize then kPageSize else align_) = align) as ->.
  { unfold align. destruct (Z.ltb_spec align_ kPageSize); lia. }
  rewrite (for_nodes_scan _ t l _ Ht).
  destruct (align_up_any_ok kUserVaBase align) as (H1 & H2 & H3); [unfold kUserVaBase, align, kPageSize; lia..|].
  set (c := align_up_any kUserVaBase align) in *.
  pose proof (free_va_scan l len align c (to_vmas _ _ Ht) ltac:(lia)
    ltac:(unfold align, kPageSize; lia) ltac:(unfold kUserVaBase, kPageSize in *; lia) H1) as Hscan.
  assert (∃ r, scan (λ v c, Ret (free_va_step len align v c)) l c = Ret r) as [r Er].
  { generalize c. clear. induction l as [|v l IH]; intros c; cbn; [eauto|]. destruct (free_va_step len align v c); eauto. }
  unfold free_va_result in Hscan. rewrite Er in Hscan |- *. cbn. eexists; split; [done|].
  destruct Hscan as [[E Hn]|(E1 & E2 & E3)].
  - left. destruct r; (split; [done|]); intros x Hx Hf; (apply (Hn x); [|done]); (apply H3; [apply Hf|done]).
  - right. destruct r; (split; [lia|split; [done|]]); intros x Hx Hf; (apply E3; [|done]); (apply H3; [apply Hf|done]).
Qed.
End tree_facts.

(** What the areas' code needs of [new] and [delete]: they return, and keep an
    invariant [I] of the memory system. *)
Class HeapKeeps (A : Type) `{ObjectHeap A} (I : A → Prop) : Prop := {
  obj_new_keeps o a : I a → ∃ ok a', obj_new o a = Ret (ok, a') ∧ I a';
  obj_delete_keeps o a : I a → ∃ a', obj_delete o a = Ret a' ∧ I a';
}.

(** ** Finding, merging and splitting *)

(** Areas that leave a range free stand on either side of it. *)
Lemma disjoint_split l s e :
  vmas_ok l → s < e → (∀ v, v ∈ l → e ≤ start v ∨ end_ v ≤ s) →
  ∃ a b, l = a ++ b ∧ (∀ v, v ∈ a → end_ v ≤ s) ∧ (∀ v, v ∈ b → e ≤ start v).
Proof.
  intros Hok Hse. induction l as [|v l IH]; intros Hd.
  { exists [], []. split_and!; [done|..]; by intros ? ?%elem_of_nil. }
  apply vmas_ok_cons in Hok as ((_ & _ & Hv & _) & Hok & Hb).
  destruct (Hd v ltac:(left)) as [He|He].
  - exists [], (v :: l). split_and!; [done|by intros ? ?%elem_of_nil|].
    intros w [->|Hw]%elem_of_cons; [done|]. specialize (Hb w Hw). lia.
  - destruct IH as (a & b & -> & Ha & Hb'); [done|by intros w Hw; apply Hd; right|].
    exists (v :: a), b. split_and!; [done| |done]. intros w [->|Hw]%elem_of_cons; auto.
Qed.

(** The halves of an area split at an address inside it. *)
Definition split_at (x : Z) (v : vma) : list vma :=
  if (x <=? start v) || (end_ v <=? x) then [v] else [with_end x v; with_start x v].

Lemma split_at_perms x v : same_perms (split_at x v) [v].
Proof.
  intros y. unfold split_at. case_match; [done|]. cbn.
  destruct (Z.leb_spec (start v) y), (Z.ltb_spec y (end_ v)), (Z.ltb_spec y x), (Z.leb_spec x y); cbn; (done || lia).
Qed.

Lemma split_at_ok x a v b : page_aligned x → vmas_ok (a ++ v :: b) → vmas_ok (a ++ split_at x v ++ b).
Proof.
  intros Hx Hok. unfold split_at. destruct (_ || _) eqn:E; [done|]. cbn [app].
  apply vmas_ok_app in Hok as (Ha & Hvb & Hab). apply vmas_ok_cons in Hvb as ((H1 & H2 & H3 & H4) & Hb & Hvb).
  apply orb_false_iff in E as [E1%Z.leb_gt E2%Z.leb_gt].
  apply vmas_ok_app. split_and!; [done| |].
  - apply vmas_ok_cons. split_and!; [split_and!; cbn in *; (done || lia)| |].
    + apply vmas_ok_cons. split_and!; [split_and!; cbn in *; (done || lia)|done|done].
    + cbn. intros w [->|Hw]%elem_of_cons; [done|]. specialize (Hvb w Hw). lia.
  - intros y w Hy Hw. specialize (Hab y v Hy ltac:(left)).
    apply elem_of_cons in Hw as [->|[->|Hw]%elem_of_cons]; cbn; [done|lia|].
    specialize (Hvb w Hw). lia.
Qed.

(** Two neighbours that touch and agree make one area. *)
Lemma join_perms v w : start v < end_ v → start w < end_ w → end_ v = start w → perm v = perm w →
  same_perms [v; w] [with_end (end_ w) v].
Proof.
  intros Hv Hw E Ep x. cbn. rewrite <-Ep.
  destruct (Z.leb_spec (start v) x), (Z.ltb_spec x (end_ v)), (Z.leb_spec (start w) x), (Z.ltb_spec x (end_ w)); cbn; (done || lia).
Qed.

Lemma join_ok a v w b : vmas_ok (a ++ v :: w :: b) → vmas_ok (a ++ with_end (end_ w) v :: b).
Proof.
  intros (Ha & Hvw & Hab)%vmas_ok_app. apply vmas_ok_cons in Hvw as ((V1 & V2 & V3 & V4) & Hw & Hv).
  apply vmas_ok_cons in Hw as ((W1 & W2 & W3 & W4) & Hb & Hwb). specialize (Hv w ltac:(left)).
  apply vmas_ok_app. split_and!; [done| |].
  - apply vmas_ok_cons. split_and!; [split_and!; cbn in *; (done || lia)|done|done].
  - intros y z Hy [->|Hz]%elem_of_cons; [by apply (Hab y v Hy); left|].
    specialize (Hab y v Hy ltac:(left)). specialize (Hwb z Hz). cbn. lia.
Qed.

(** An address that no area has strictly inside. *)
Definition cut (x : Z) (l : list vma) : Prop := ∀ v, v ∈ l → x ≤ start v ∨ end_ v ≤ x.

Lemma split_at_inside x v w : w ∈ split_at x v → start v ≤ start w ∧ end_ w ≤ end_ v.
Proof.
  unfold split_at. destruct (_ || _) eqn:E; [by intros Hw%list_elem_of_singleton; subst|].
  apply orb_false_iff in E as [?%Z.leb_gt ?%Z.leb_gt].
  intros [Hw|Hw%list_elem_of_singleton]%elem_of_cons; subst; cbn; lia.
Qed.

Lemma split_at_cut x a v b :
  vmas_ok (a ++ v :: b) → start v ≤ x ≤ end_ v → cut x (a ++ split_at x v ++ b).
Proof.
  intros (Ha & Hvb & Hab)%vmas_ok_app Hx w. apply vmas_ok_cons in Hvb as ((_ & _ & Hv & _) & _ & Hvb).
  rewrite !elem_of_app. intros [Hw|[Hw|Hw]].
  - specialize (Hab w v Hw ltac:(left)). lia.
  - unfold split_at in Hw. destruct (_ || _) eqn:E.
    + apply list_elem_of_singleton in Hw as ->. lia.
    + apply elem_of_cons in Hw as [Hw|Hw%list_elem_of_singleton]; subst; cbn; lia.
  - specialize (Hvb w Hw). lia.
Qed.

Lemma split_at_keeps_cut x y a v b : cut y (a ++ v :: b) → cut y (a ++ split_at x v ++ b).
Proof.
  intros Hc w. rewrite !elem_of_app. intros [Hw|[Hw|Hw]]; [apply Hc; set_solver| |apply Hc; set_solver].
  destruct (split_at_inside x v w Hw). destruct (Hc v); [set_solver|lia..].
Qed.

Section tree_updates.
Context {T : Type} `{OrderedTree vma T} {Hot : OrderedTreeSpec vma T}.
Context {A : Type} `{ObjectHeap A} {I : A → Prop} {Hheap : HeapKeeps A I}.

Lemma vma_find_here t a v b x :
  tree_ok t (a ++ v :: b) → start v ≤ x < end_ v → ot_find (vma_cmp x) t = Some v.
Proof using Hot.
  intros [Hok He Hv] Hx. apply vmas_ok_app in Hv as (Ha & Hvb & Hab).
  apply vmas_ok_cons in Hvb as (_ & Hb & Hvb). unfold vma_cmp.
  apply (ot_find_present _ _ a v b); [done..| | |].
  - rewrite (proj2 (Z.ltb_ge _ _)), (proj2 (Z.leb_gt _ _)) by lia. done.
  - apply Forall_forall. intros y Hy. specialize (Hab y v Hy ltac:(left)).
    destruct (vmas_ok_elem _ _ Ha Hy) as (_ & _ & ? & _).
    rewrite (proj2 (Z.ltb_ge _ _)), (proj2 (Z.leb_le _ _)) by lia. done.
  - apply Forall_forall. intros y Hy. specialize (Hvb y Hy). by rewrite (proj2 (Z.ltb_lt _ _)) by lia.
Qed.

Lemma vma_find_none t l x : tree_ok t l → perm_at l x = None → ot_find (vma_cmp x) t = None.
Proof using Hot.
  intros [Hok He Hv] Hx. destruct (disjoint_split l x (x + 1) Hv) as (a & b & -> & Ha & Hb); [lia|..].
  { intros v (c & d & ->)%list_elem_of_split.
    destruct (decide (start v ≤ x < end_ v)) as [Hin|]; [|lia]. by rewrite perm_at_mid in Hx. }
  apply (ot_find_absent _ _ a b); [done..| |]; apply Forall_forall; intros y Hy; unfold vma_cmp.
  - apply vmas_ok_app in Hv as (Hva & _). destruct (vmas_ok_elem _ _ Hva Hy) as (_ & _ & ? & _).
    specialize (Ha y Hy). by rewrite (proj2 (Z.ltb_ge _ _)), (proj2 (Z.leb_le _ _)) by lia.
  - specialize (Hb y Hy). by rewrite (proj2 (Z.ltb_lt _ _)) by lia.
Qed.

(** Joining the node of [v] with the one after it. *)
Lemma tree_join t a v w b : tree_ok t (a ++ v :: w :: b) →
  tree_ok (ot_erase (node_of w) (ot_store (node_of v) (with_end (end_ w)) t)) (a ++ with_end (end_ w) v :: b).
Proof using Hot.
  intros [Hh Hv]%tree_ok_has. apply tree_ok_has. split; [|by eapply join_ok].
  apply (tree_has_store _ _ _ _ (with_end (end_ w))) in Hh; [|done].
  revert Hh. rewrite (cons_middle _ a), app_assoc. intros Hh.
  apply tree_has_erase in Hh. by rewrite <-app_assoc in Hh.
Qed.

Lemma merge_neighbors_ok t a v b s :
  tree_ok t (a ++ v :: b) → I s →
  ∃ t' s' l', vma_try_merge_neighbors_locked t v s = Ret (t', s') ∧ I s' ∧
              tree_ok t' l' ∧ same_perms l' (a ++ v :: b).
Proof using Hot Hheap.
  intros Ht Hs. unfold vma_try_merge_neighbors_locked.
  rewrite (ot_prev_spec _ _ _ _ _ (to_ok _ _ Ht) (points_to_mid _ _ _ _ Ht)).
  (* after the first half: the area that stands at [v] *)
  assert (∃ t1 v1 a1 s1,
    match last a with
    | Some prev =>
        if (end_ prev =? start v) && (perm prev =? perm v) then
          a0 ← obj_delete VmAreaStruct s;
          Ret (ot_erase (node_of v) (ot_store (node_of prev) (with_end (end_ v)) t), with_end (end_ v) prev, a0)
        else Ret (t, v, s)
    | None => Ret (t, v, s)
    end = Ret (t1, v1, s1) ∧ I s1 ∧ tree_ok t1 (a1 ++ v1 :: b) ∧ same_perms (a1 ++ v1 :: b) (a ++ v :: b))
    as (t1 & v1 & a1 & s1 & E1 & Hs1 & Ht1 & Hp1).
  { destruct (last a) as [prev|] eqn:El; [|by exists t, v, a, s].
    destruct (_ && _) eqn:Ec; [|by exists t, v, a, s].
    apply last_Some in El as [a' ->]. apply andb_true_iff in Ec as [Ee%Z.eqb_eq Ep%Z.eqb_eq].
    destruct (obj_delete_keeps VmAreaStruct s Hs) as (s1 & -> & Hs1). cbn.
    rewrite <-app_assoc in Ht. cbn in Ht. pose proof (to_vmas _ _ Ht) as Hv.
    assert (vma_ok prev ∧ vma_ok v) as [(_ & _ & ? & _) (_ & _ & ? & _)]
      by (split; eapply vmas_ok_elem; [exact Hv|set_solver|exact Hv|set_solver]).
    eexists _, _, a', s1. split_and!; [done..|by apply tree_join|].
    rewrite <-app_assoc. cbn. change (prev :: v :: b) with ([prev; v] ++ b).
    rewrite (join_perms prev v) by (done || lia). done. }
  rewrite E1. cbn [mbind outcome_bind].
  rewrite (ot_next_spec _ _ _ _ _ (to_ok _ _ Ht1) (points_to_mid _ _ _ _ Ht1)).
  destruct b as [|w b]; cbn [head]; [by exists t1, s1, (a1 ++ [v1])|].
  destruct ((end_ v1 =? start w) && (perm v1 =? perm w)) eqn:Ec; [|by exists t1, s1, (a1 ++ v1 :: w :: b)].
  apply andb_true_iff in Ec as [Ee%Z.eqb_eq Ep%Z.eqb_eq].
  destruct (obj_delete_keeps VmAreaStruct s1 Hs1) as (s2 & -> & Hs2). cbn.
  pose proof (to_vmas _ _ Ht1) as Hv.
  assert (vma_ok v1 ∧ vma_ok w) as [(_ & _ & ? & _) (_ & _ & ? & _)]
    by (split; eapply vmas_ok_elem; [exact Hv|set_solver|exact Hv|set_solver]).
  eexists _, s2, _. split_and!; [done..|by apply tree_join|]. rewrite <-Hp1.
  change (v1 :: w :: b) with ([v1; w] ++ b). rewrite (join_perms v1 w) by (done || lia). done.
Qed.

Lemma vma_split_locked_ok t a v b x s :
  tree_ok t (a ++ v :: b) → page_aligned x → I s →
  ∃ ret t' s', vma_split_locked t v x s = Ret (ret, t', s') ∧ I s' ∧
    (ret = 0 ∧ tree_ok t' (a ++ split_at x v ++ b) ∨ ret = - ENOMEM ∧ t' = t).
Proof using Hot Hheap.
  intros Ht Hx Hs. pose proof (split_at_ok x a v b Hx (to_vmas _ _ Ht)) as Hok.
  unfold vma_split_locked, split_at in *. destruct (_ || _) eqn:Ec.
  { exists 0, t, s. split_and!; [done..|]. by left. }
  apply orb_false_iff in Ec as [E1%Z.leb_gt E2%Z.leb_gt].
  destruct (obj_new_keeps VmAreaStruct s Hs) as (ok & s' & -> & Hs'). cbn [mbind outcome_bind].
  destruct ok; cbn [negb]; [|exists (- ENOMEM), t, s'; split_and!; auto].
  eexists 0, _, s'. split_and!; [done..|]. left. split; [done|].
  change (a ++ with_end x v :: mkVma x (end_ v) (perm v) :: b) with (a ++ [with_end x v] ++ mkVma x (end_ v) (perm v) :: b).
  cbn [app] in Hok |- *. rewrite (cons_middle _ a), app_assoc in Hok |- *.
  apply tree_ok_add; [|exact Hok]. apply tree_ok_has. rewrite <-app_assoc. split.
  - apply tree_ok_has in Ht as [Hh _]. by apply (tree_has_store _ _ _ _ (with_end x)) in Hh.
  - apply vmas_ok_app in Hok as (Hl & Hr & Hlr). apply vmas_ok_app in Hl as (Hl & Hl' & Hll).
    apply vmas_ok_cons in Hr as (_ & Hr & _). apply vmas_ok_app. split_and!; [done| |].
    + cbn. apply vmas_ok_cons in Hl' as (? & _). apply vmas_ok_cons. split_and!; [done..|].
      intros w Hw. apply (Hlr (with_end x v) w); set_solver.
    + intros y z Hy [->|Hz]%elem_of_cons; [apply Hll; [done|left]|]. apply (Hlr y z); set_solver.
Qed.
Lemma split_range_ok t l s e h :
  tree_ok t l → page_aligned s → page_aligned e → 0 ≤ s < e → e < 2 ^ 64 →
  (∀ x, s ≤ x < e → is_Some (perm_at l x)) → I h →
  ∃ ret t' h' l', vma_split_range_locked t s e h = Ret (ret, t', h') ∧ I h' ∧
    tree_ok t' l' ∧ same_perms l' l ∧ (ret = 0 ∧ cut s l' ∧ cut e l' ∨ ret = - ENOMEM).
Proof using Hot Hheap.
  intros Ht Has Hae Hse He64 Hcov Hh. unfold vma_split_range_locked. rewrite (proj2 (Z.leb_gt _ _)) by lia.
  destruct (Hcov s ltac:(lia)) as [p (a & v & b & -> & Hv & _)%perm_at_Some].
  rewrite (vma_find_here t a v b s Ht Hv).
  destruct (vma_split_locked_ok t a v b s h Ht Has Hh) as (r1 & t1 & h1 & -> & Hh1 & Hr1). cbn [mbind outcome_bind].
  destruct Hr1 as [[-> Ht1]|[-> ->]].
  2: { exists (- ENOMEM), t, h1, (a ++ v :: b). split_and!; [done..|by right]. }
  cbn [Z.ltb Z.compare].
  assert (Hp1 : same_perms (a ++ split_at s v ++ b) (a ++ v :: b))
    by (change (v :: b) with ([v] ++ b); by rewrite split_at_perms).
  pose proof (split_at_cut s a v b (to_vmas _ _ Ht) ltac:(lia)) as Hcut.
  set (l1 := a ++ split_at s v ++ b) in *.
  rewrite wrap_small by lia. destruct (Hcov (e - 1) ltac:(lia)) as [p' Hp']. rewrite <-Hp1 in Hp'.
  apply perm_at_Some in Hp' as (a1 & w & b1 & El1 & Hw & _).
  clearbody l1. subst l1. rewrite (vma_find_here t1 a1 w b1 (e - 1) Ht1 Hw).
  destruct (vma_split_locked_ok t1 a1 w b1 e h1 Ht1 Hae Hh1) as (r2 & t2 & h2 & -> & Hh2 & Hr2).
  destruct Hr2 as [[-> Ht2]|[-> ->]].
  - eexists 0, t2, h2, _. split_and!; [done..| |].
    + change (w :: b1) with ([w] ++ b1) in Hp1. rewrite <-Hp1. by rewrite split_at_perms.
    + left. split_and!; [done|by apply split_at_keeps_cut|]. apply split_at_cut; [apply Ht1|lia].
  - exists (- ENOMEM), t1, h2, (a1 ++ w :: b1). split_and!; [done..|by right].
Qed.
End tree_updates.
