(* ===== verification/Vma.v ===== *)
(** * Vma: user address spaces

    Models [na/mm/vma.cc]: an address space is a tree of areas (file [VmaTree])
    and an SV39 page table (file [Pmap]) filled on demand.  Every operation is
    the whole routine: argument checks, changes of the tree, page-table updates
    and reference counts.  A [VmSpace] is given to an operation by value with
    the machine's memory [s]; the lock is held throughout each operation, so
    they run one after another.  Flushes of the TLB have no counterpart here:
    the model's memory has no stale translations. *)

From S2P Require Import Prelude Bits RBTree Pmap UserPages VmaTree.

Record VmSpace (T : Type) := mkSpace { root_pa : Z; vma_tree : T; brk_start : Z; brk_end : Z }.
Arguments mkSpace {T} root_pa vma_tree brk_start brk_end.
Arguments root_pa {T} v.
Arguments vma_tree {T} v.
Arguments brk_start {T} v.
Arguments brk_end {T} v.

Definition with_tree {T} (t : T) (sp : VmSpace T) : VmSpace T := mkSpace (root_pa sp) t (brk_start sp) (brk_end sp).

Inductive VmFaultCause := Read | Write | Exec.

(** [for (addr = a; addr < e; addr += kPageSize)] *)
Definition page_step {S R} (f : Z → S → outcome (S + R)) (e : Z) (c : Z * S) : Z * S + outcome (S + R) :=
  let '(addr, s) := c in
  if addr <? e then
    match f addr s with
    | Ret (inl s') => inl (u64 (addr + kPageSize), s')
    | Ret (inr r) => inr (Ret (inr r))
    | Panic msg => inr (Panic msg)
    | OutOfFuel => inr OutOfFuel
    end
  else inr (Ret (inl s)).

Definition for_pages {S R} (f : Z → S → outcome (S + R)) (a e : Z) (s : S) : outcome (S + R) :=
  match loop 64 (page_step f e) (a, s) with inr r => r | inl _ => OutOfFuel end.

(** A loop over pages that never leaves early. *)
Definition each_page {S} (f : Z → S → outcome S) (a e : Z) (s : S) : outcome S :=
  r ← for_pages (R := Empty_set) (λ addr s, s ← f addr s; Ret (inl s)) a e s;
  Ret (match r with inl s => s | inr r => Empty_set_rect (λ _, S) r end).

Section vmm.
Context {T : Type} `{OrderedTree vma T}.
Context {A : Type} `{PageSource A, !UserPages A, !ObjectHeap A}.

Definition src_do (f : A → outcome A) (s : pm A) : outcome (pm A) := a ← f (pm_src s); Ret (mkPm (pm_ram s) a).

Definition pm_new (o : object) (s : pm A) : outcome (bool * pm A) :=
  '(ok, a) ← obj_new o (pm_src s); Ret (ok, mkPm (pm_ram s) a).

(** ** [VmSpace::create] and [VmSpace::destroy] *)

Definition VmSpace_create (s : pm A) : outcome (option (VmSpace T) * pm A) :=
  '(ok, s) ← pm_new VmSpaceObject s;
  if negb ok then Ret (None, s)
  else
    '(root, s) ← create s;
    if root =? 0 then s ← src_do (obj_delete VmSpaceObject) s; Ret (None, s)
    else Ret (Some (mkSpace root ot_empty 0 0), s).

Definition decref_mapped (root addr : Z) (s : pm A) : outcome (pm A) :=
  match lookup root addr (pm_ram s) with
  | Some pa => src_do (up_decref pa) s
  | None => Ret s
  end.

Definition destroy_step (root : Z) (c : option vma * T * pm A) : option vma * T * pm A + outcome (pm A) :=
  let '(node, t, s) := c in
  match node with
  | None => inr (Ret s)
  | Some vma =>
      match (s ← each_page (decref_mapped root) (start vma) (end_ vma) s; src_do (obj_delete VmAreaStruct) s) with
      | Ret s => inl (ot_next (node_of vma) t, ot_erase (node_of vma) t, s)
      | Panic msg => inr (Panic msg)
      | OutOfFuel => inr OutOfFuel
      end
  end.

Definition VmSpace_destroy (sp : VmSpace T) (s : pm A) : outcome (pm A) :=
  s ← match loop 64 (destroy_step (root_pa sp)) (ot_first (vma_tree sp), vma_tree sp, s) with
      | inr r => r | inl _ => OutOfFuel end;
  s ← destroy (root_pa sp) s;
  src_do (obj_delete VmSpaceObject) s.

(** ** [vmm_map_user] *)

(** The checks the operations on a range share. *)
Definition range_bad (va len : Z) : bool :=
  (va <? kUserVaBase) || (kUserVaLimit <=? va) ||
  (u64 (va + len) <? va) || (kUserVaLimit <? u64 (va + len)).

Definition vmm_map_user (sp : VmSpace T) (va len perm : Z) (s : pm A) : outcome (Z * VmSpace T * pm A) :=
  let va := page_align_down va in
  let len := page_align_up len in
  if len =? 0 then Ret (0, sp, s)
  else if range_bad va len then Ret (- EINVAL, sp, s)
  else
    '(ok, s) ← pm_new VmAreaStruct s;
    if negb ok then Ret (- ENOMEM, sp, s)
    else
      let vma := mkVma va (u64 (va + len)) (Z.lor perm VM_USER) in
      overlaps ← vma_overlaps_locked (vma_tree sp) (start vma) (end_ vma);
      if (overlaps : bool) then s ← src_do (obj_delete VmAreaStruct) s; Ret (- EINVAL, sp, s)
      else
        '(t, a) ← vma_try_merge_neighbors_locked (ot_add vma_less vma (vma_tree sp)) vma (pm_src s);
        Ret (0, with_tree t sp, mkPm (pm_ram s) a).

(** ** [vmm_unmap_user] *)

Definition unmap_page (root addr : Z) (s : pm A) : outcome (pm A) :=
  match lookup root addr (pm_ram s) with
  | Some pa => s ← src_do (up_decref pa) s; Ret (with_ram (unmap root addr) s)
  | None => Ret s
  end.

(** One area: [inl] goes on with the tree changed, [inr] leaves the loop with
    the value the routine returns. *)
Definition unmap_area (root va end_' : Z) (vma : vma) (t : T) (s : pm A)
  : outcome (T * pm A + Z * T * pm A) :=
  if end_ vma <=? va then Ret (inl (t, s))
  else if end_' <=? start vma then Ret (inr (0, t, s))
  else
    let unmap_start := if va <? start vma then start vma else va in
    let unmap_end := if end_ vma <? end_' then end_ vma else end_' in
    s ← (if unmap_start <? unmap_end then each_page (unmap_page root) unmap_start unmap_end s else Ret s);
    if (unmap_start =? start vma) && (unmap_end =? end_ vma) then
      let t := ot_erase (node_of vma) t in
      s ← src_do (obj_delete VmAreaStruct) s; Ret (inl (t, s))
    else if unmap_start =? start vma then
      let t := ot_erase (node_of vma) t in
      Ret (inl (ot_add vma_less (with_start unmap_end vma) t, s))
    else if unmap_end =? end_ vma then
      Ret (inl (ot_store (node_of vma) (with_end unmap_start) t, s))
    else
      '(ok, s) ← pm_new VmAreaStruct s;
      if negb ok then Ret (inr (- ENOMEM, t, s))
      else
        let right := mkVma unmap_end (end_ vma) (perm vma) in
        let t := ot_store (node_of vma) (with_end unmap_start) t in
        Ret (inr (0, ot_add vma_less right t, s)).

Definition unmap_step (root va end_' : Z) (c : option vma * T * pm A)
  : option vma * T * pm A + outcome (Z * T * pm A) :=
  let '(node, t, s) := c in
  match node with
  | None => inr (Ret (0, t, s))
  | Some vma =>
      let next := ot_next (node_of vma) t in
      match unmap_area root va end_' vma t s with
      | Ret (inl (t, s)) => inl (next, t, s)
      | Ret (inr r) => inr (Ret r)
      | Panic msg => inr (Panic msg)
      | OutOfFuel => inr OutOfFuel
      end
  end.

Definition vmm_unmap_user (sp : VmSpace T) (va len : Z) (s : pm A) : outcome (Z * VmSpace T * pm A) :=
  let va := page_align_down va in
  let len := page_align_up len in
  if len =? 0 then Ret (0, sp, s)
  else if range_bad va len then Ret (- EINVAL, sp, s)
  else
    let end_' := u64 (va + len) in
    '(ret, t, s) ←
      match loop 64 (unmap_step (root_pa sp) va end_') (ot_first (vma_tree sp), vma_tree sp, s) with
      | inr r => r | inl _ => OutOfFuel end;
    Ret (ret, with_tree t sp, s).

(** ** [vmm_protect_user] *)

Definition cow_perm (pte_perm : Z) : Z := Z.lor (Z.land pte_perm (u64 (Z.lnot PTE_W))) PTE_COW.

Definition protect_page (root perm vma_perm addr : Z) (s : pm A) : outcome (pm A + Z * pm A) :=
  match lookup root addr (pm_ram s) with
  | None => Ret (inl s)
  | Some pa =>
      if perm =? 0 then
        s ← src_do (up_decref pa) s; Ret (inl (with_ram (unmap root addr) s))
      else
        let pte_perm := vm_perm_to_pte vma_perm in
        let pte_perm := if negb (Z.land vma_perm VM_WRITE =? 0) && is_cow root addr (pm_ram s)
                        then cow_perm pte_perm else pte_perm in
        let '(ret, m) := protect root addr pte_perm (pm_ram s) in
        let s := mkPm m (pm_src s) in
        if ret <? 0 then Ret (inr (ret, s)) else Ret (inl s)
  end.

Definition protect_step (root va end_' perm : Z) (c : option vma * T * pm A)
  : option vma * T * pm A + outcome (Z * T * pm A) :=
  let '(node, t, s) := c in
  match node with
  | None => inr (Ret (0, t, s))
  | Some vma =>
      if end_' <=? start vma then inr (Ret (0, t, s))
      else if end_ vma <=? va then inl (ot_next (node_of vma) t, t, s)
      else
        let vma_perm := Z.lor perm VM_USER in
        let t := ot_store (node_of vma) (with_perm vma_perm) t in
        match for_pages (protect_page root perm vma_perm) (start vma) (end_ vma) s with
        | Ret (inl s) => inl (ot_next (node_of vma) t, t, s)
        | Ret (inr (ret, s)) => inr (Ret (ret, t, s))
        | Panic msg => inr (Panic msg)
        | OutOfFuel => inr OutOfFuel
        end
  end.

Definition vmm_protect_user (sp : VmSpace T) (va len perm : Z) (s : pm A) : outcome (Z * VmSpace T * pm A) :=
  let va := page_align_down va in
  let len := page_align_up len in
  if len =? 0 then Ret (- EINVAL, sp, s)
  else if range_bad va len then Ret (- EINVAL, sp, s)
  else
    let end_' := u64 (va + len) in
    covered ← vma_range_covered_locked (vma_tree sp) va end_';
    if negb covered then Ret (- ENOMEM, sp, s)
    else
      '(ret, t, a) ← vma_split_range_locked (vma_tree sp) va end_' (pm_src s);
      let s := mkPm (pm_ram s) a in
      if ret <? 0 then Ret (ret, with_tree t sp, s)
      else
        '(ret, t, s) ←
          match loop 64 (protect_step (root_pa sp) va end_' perm) (ot_find (vma_cmp va) t, t, s) with
          | inr r => r | inl _ => OutOfFuel end;
        Ret (ret, with_tree t sp, s).

(** ** [vmm_handle_page_fault] *)

Definition vma_allows (vma : vma) (cause : VmFaultCause) : bool :=
  match cause with
  | Read => negb (Z.land (perm vma) VM_READ =? 0)
  | Write => negb (Z.land (perm vma) VM_WRITE =? 0)
  | Exec => negb (Z.land (perm vma) VM_EXEC =? 0)
  end.

(** The loop that copies a page, word by word. *)
Definition copy_page (dst src : Z) (m : ram) : ram :=
  foldl (λ m i, pte_set dst i (pte_get m src i) m) m (seqZ 0 kPtePerPage).

(** The branch for a write to a copy-on-write page. *)
Definition fault_copy (root aligned_addr paddr pte_perm : Z) (s : pm A) : outcome (Z * pm A) :=
  '(page, a) ← up_alloc (pm_src s);
  let s := mkPm (pm_ram s) a in
  match page with
  | None => Ret (- ENOMEM, s)
  | Some new_pa =>
      let s := with_ram (copy_page new_pa paddr) s in
      '(ret, s) ← map root aligned_addr new_pa pte_perm s;
      if negb (ret =? 0) then s ← src_do (up_free new_pa) s; Ret (- ENOMEM, s)
      else s ← src_do (up_decref paddr) s; Ret (0, s)
  end.

(** The branch for a page that is not mapped yet. *)
Definition fault_fresh (root aligned_addr pte_perm : Z) (s : pm A) : outcome (Z * pm A) :=
  '(page, a) ← up_alloc (pm_src s);
  let s := mkPm (pm_ram s) a in
  match page with
  | None => Ret (- ENOMEM, s)
  | Some pa =>
      '(ret, s) ← map root aligned_addr pa pte_perm s;
      if negb (ret =? 0) then s ← src_do (up_free pa) s; Ret (- ENOMEM, s)
      else Ret (0, s)
  end.

Definition vmm_handle_page_fault (sp : VmSpace T) (fault_addr : Z) (cause : VmFaultCause) (s : pm A)
  : outcome (Z * pm A) :=
  let aligned_addr := page_align_down fault_addr in
  match ot_find (vma_cmp fault_addr) (vma_tree sp) with
  | None => Ret (- EFAULT, s)
  | Some vma =>
      if negb (vma_allows vma cause) then Ret (- EFAULT, s)
      else
        let pte_perm := vm_perm_to_pte (perm vma) in
        match lookup (root_pa sp) aligned_addr (pm_ram s) with
        | Some paddr =>
            if match cause with Write => is_cow (root_pa sp) aligned_addr (pm_ram s) | _ => false end
            then fault_copy (root_pa sp) aligned_addr paddr pte_perm s
            else Ret (0, s)
        | None => fault_fresh (root_pa sp) aligned_addr pte_perm s
        end
  end.

(** ** [vmm_clone] *)

(** One page of the parent; [inr] when the child's table could not grow. *)
Definition clone_page (parent_root child_root vma_perm va : Z) (s : pm A) : outcome (pm A + pm A) :=
  match lookup parent_root va (pm_ram s) with
  | None => Ret (inl s)
  | Some pa =>
      let writable := negb (Z.land vma_perm VM_WRITE =? 0) in
      let s := if writable then with_ram (λ m, (make_cow parent_root va m).2) s else s in
      let pte_perm := vm_perm_to_pte vma_perm in
      let pte_perm := if writable then cow_perm pte_perm else pte_perm in
      '(ret, s) ← map child_root va pa pte_perm s;
      if negb (ret =? 0) then Ret (inr s)
      else s ← src_do (up_incref pa) s; Ret (inl s)
  end.

Definition clone_area (parent_root : Z) (parent_vma : vma) (c : VmSpace T * pm A) : outcome (VmSpace T * pm A + pm A) :=
  let '(child, s) := c in
  '(ok, s) ← pm_new VmAreaStruct s;
  if negb ok then s ← VmSpace_destroy child s; Ret (inr s)
  else
    let child_vma := parent_vma in
    r ← for_pages (clone_page parent_root (root_pa child) (perm child_vma)) (start child_vma) (end_ child_vma) s;
    match r with
    | inr s =>
        s ← src_do (obj_delete VmAreaStruct) s;
        s ← VmSpace_destroy child s; Ret (inr s)
    | inl s => Ret (inl (with_tree (ot_add vma_less child_vma (vma_tree child)) child, s))
    end.

Definition vmm_clone (parent : VmSpace T) (s : pm A) : outcome (option (VmSpace T) * pm A) :=
  '(child, s) ← VmSpace_create s;
  match child with
  | None => Ret (None, s)
  | Some child =>
      let child := mkSpace (root_pa child) (vma_tree child) (brk_start parent) (brk_end parent) in
      r ← for_nodes (clone_area (root_pa parent)) (vma_tree parent) (child, s);
      Ret (match r with inl (child, s) => (Some child, s) | inr s => (None, s) end)
  end.
End vmm.
