(* ===== verification/VmaPages.v ===== *)
(** * VmaPages: what the address-space operations do to pages

    The loops of [na/mm/vma.cc] over the pages of a range, against the page
    tables and the reference counts: dropping the pages of a range, changing
    their permissions, and the invariant both keep.  Files [VmaOps] and
    [VmaFault] combine this with the tree of areas. *)

From S2P Require Import Prelude Bits RBTree Pmap UserPages VmaTree Vma.

(** ** The pages of a range *)

Definition pages (a e : Z) : list Z := (λ i, a + kPageSize * i) <$> seqZ 0 ((e - a + (kPageSize - 1)) / kPageSize).

Lemma pages_nil a e : e ≤ a → pages a e = [].
Proof.
  intros. unfold pages. replace (seqZ 0 _) with (@nil Z); [done|]. symmetry. apply seqZ_nil.
  unfold kPageSize. assert ((e - a + (4096 - 1)) / 4096 < 1) by (apply Z.div_lt_upper_bound; lia). lia.
Qed.

Lemma pages_cons a e : a < e → pages a e = a :: pages (a + kPageSize) e.
Proof.
  intros. unfold pages. set (n := (e - a + (kPageSize - 1)) / kPageSize).
  replace ((e - (a + kPageSize) + (kPageSize - 1)) / kPageSize) with (n - 1).
  2: { unfold n, kPageSize. replace (e - (a + 4096) + (4096 - 1)) with (e - a + (4096 - 1) + (-1) * 4096) by lia.
       rewrite Z.div_add by lia. lia. }
  assert (0 < n). { unfold n, kPageSize. apply Z.div_str_pos. lia. }
  rewrite seqZ_cons by lia. cbn. f_equal; [lia|].
  rewrite <-(fmap_add_seqZ 1 0), <-list_fmap_compose by lia.
  replace (Z.pred n) with (n - 1) by lia. apply list_fmap_ext. intros i x _. cbn. lia.
Qed.

Lemma elem_of_pages x a e : x ∈ pages a e ↔ ∃ i, 0 ≤ i ∧ x = a + kPageSize * i ∧ x < e.
Proof.
  unfold pages. rewrite list_elem_of_fmap. setoid_rewrite elem_of_seqZ. unfold kPageSize. split.
  - intros (i & -> & Hi). exists i. split_and!; [lia|done|].
    pose proof (Z.mul_div_le (e - a + (4096 - 1)) 4096). lia.
  - intros (i & Hi & -> & He). exists i. split; [done|]. split; [lia|].
    enough (i + 1 ≤ (e - a + (4096 - 1)) / 4096) by lia. apply Z.div_le_lower_bound; lia.
Qed.

(** The loop over addresses visits exactly these pages. *)
Lemma for_pages_scan {S R} (f : Z → S → outcome (S + R)) a e s :
  0 ≤ a → e ≤ kUserVaLimit → for_pages f a e s = scan f (pages a e) s.
Proof.
  intros Ha He. unfold for_pages. pose proof kUserVaLimit_val as HL.
  rewrite (scan_loop f (λ c l, 0 ≤ c ∧ l = pages c e) (page_step f e)) with (l := pages a e); [done|..].
  - intros c s' [Hc E]. cbn. destruct (Z.ltb_spec c e); [|done]. rewrite pages_cons in E by done. done.
  - intros c x l s' [Hc E]. cbn. destruct (Z.ltb_spec c e); [|by rewrite pages_nil in E].
    rewrite pages_cons in E by done. injection E as -> ->.
    destruct (f c s') as [[s''|r]| |]; [|done..]. eexists. split; [|done].
    unfold kPageSize. rewrite wrap_small by lia. split; [lia|done].
  - done.
  - unfold pages. rewrite length_fmap, length_seqZ. unfold kPageSize. change (Z.of_nat 64) with 64.
    assert ((e - a + (4096 - 1)) / 4096 < 2 ^ 64) by (apply Z.div_lt_upper_bound; lia). lia.
Qed.

Lemma each_page_scan {S} (f : Z → S → outcome S) a e s :
  0 ≤ a → e ≤ kUserVaLimit → each_page f a e s = foldl (λ o addr, o ≫= f addr) (Ret s) (pages a e).
Proof.
  intros Ha He. unfold each_page. rewrite for_pages_scan by done. revert s.
  induction (pages a e) as [|x l IH]; intros s; cbn; [done|].
  destruct (f x s) as [s'| |]; cbn; [apply IH|..]; clear; induction l; cbn; done.
Qed.

(** An address and the page it lies in. *)
Lemma same_page_down a x : 0 ≤ a → page_aligned a → a ≤ x < a + kPageSize → same_page a x.
Proof.
  unfold page_aligned, kPageSize. intros H0 Ha Hx. apply same_page_iff. unfold kPageSize. f_equal.
  pose proof (Z.div_mod a 4096 ltac:(lia)). apply (Z.div_unique _ _ _ (x - a)); lia.
Qed.

#[export] Instance same_page_equiv : Equivalence same_page.
Proof. unfold same_page. split; [by intros ?|by intros ???|by intros ?????; congruence]. Qed.

(** The pages of a list, up to aliasing. *)
Definition among (L : list Z) (va : Z) : Prop := ∃ x, x ∈ L ∧ same_page x va.

#[export] Instance among_dec L va : Decision (among L va).
Proof.
  destruct (Exists_dec (λ x, same_page x va) (dec := λ x, same_page_dec x va) L) as [E|E]; [left|right].
  - exact (proj1 (Exists_exists _ _) E).
  - intros K. exact (E (proj2 (Exists_exists _ _) K)).
Defined.

Lemma among_closed L va va' : same_page va va' → among L va → among L va'.
Proof. intros E (x & Hx & Ex). exists x. split; [done|]. by etrans. Qed.

Lemma among_cons x L va : among (x :: L) va ↔ same_page x va ∨ among L va.
Proof. unfold among. setoid_rewrite elem_of_cons. naive_solver. Qed.

(** The pages of an aligned range are those of its addresses. *)
Lemma among_pages a e va : page_aligned a → 0 ≤ a →
  among (pages a e) va ↔ ∃ x, a ≤ x < e ∧ same_page x va.
Proof.
  intros Ha H0. split.
  - intros (x & (i & Hi & -> & Hx)%elem_of_pages & E). exists (a + kPageSize * i). unfold kPageSize in *. split; [lia|done].
  - intros (x & Hx & E). exists (a + kPageSize * ((x - a) / kPageSize)). unfold kPageSize.
    pose proof (Z.div_mod (x - a) 4096 ltac:(lia)). pose proof (Z.mod_pos_bound (x - a) 4096 ltac:(lia)).
    pose proof (Z.div_pos (x - a) 4096 ltac:(lia) ltac:(lia)). split.
    + apply elem_of_pages. exists ((x - a) / 4096). unfold kPageSize. split_and!; lia.
    + etrans; [|exact E]. apply same_page_down; unfold kPageSize; [lia| |lia].
      unfold page_aligned, kPageSize in *. rewrite Z.mul_comm, Z.mod_add by lia. done.
Qed.

Section page_level.
Context {A : Type} `{UserPagesSpec A}.

(** The page table of a space and the references behind it: every table page
    and every mapped page is held, no two pages of the space share a frame, and
    no frame is both a table and user memory. *)
Record pages_ok (root : Z) (s : pm A) (TT : tables) (R : gmap Z Z) : Prop := {
  po_state : pt_state s root TT;
  po_held : held (pm_src s) R;
  po_tables p t : TT !! p = Some t → R !! t = Some 1;
  po_mapped va pa fl : translate root va (pm_ram s) = Some (pa, fl) →
    (∃ n, R !! pa = Some n) ∧ ∀ p, TT !! p ≠ Some pa;
  po_inj va va' pa fl fl' : translate root va (pm_ram s) = Some (pa, fl) →
    translate root va' (pm_ram s) = Some (pa, fl') → same_page va va';
}.

(** Dropping the pages [D] of a space: they are no longer mapped and each lost
    one reference; no other page or count changed. *)
Record drops (root : Z) (D : Z → Prop) (s : pm A) (R : gmap Z Z) (s' : pm A) (R' : gmap Z Z) : Prop := {
  dr_gone va : D va → translate root va (pm_ram s') = None;
  dr_kept va : ¬ D va → translate root va (pm_ram s') = translate root va (pm_ram s);
  dr_counts x : (∃ va fl, D va ∧ translate root va (pm_ram s) = Some (x, fl)) → R' !! x = drop_ref x R !! x;
  dr_others x : (∀ va fl, D va → translate root va (pm_ram s) ≠ Some (x, fl)) → R' !! x = R !! x;
}.

Lemma drop_ref_ne x y (R : gmap Z Z) : x ≠ y → drop_ref x R !! y = R !! y.
Proof.
  intros. unfold drop_ref. destruct (R !! x) as [n|]; [|done].
  case_match; [by rewrite lookup_delete_ne|by rewrite lookup_insert_ne].
Qed.

Lemma drop_ref_eq x (R R' : gmap Z Z) : R' !! x = R !! x → drop_ref x R' !! x = drop_ref x R !! x.
Proof.
  intros E. unfold drop_ref. rewrite E. destruct (R !! x) as [n|] eqn:En; [|by rewrite E].
  case_match; [by rewrite !lookup_delete_eq|by rewrite !lookup_insert_eq].
Qed.

Lemma drops_none root s R : drops root (λ _, False) s R s R.
Proof. split; try done. by intros x (va & fl & [] & _). Qed.

Lemma drops_iff root D D' s R s' R' : (∀ va, D va ↔ D' va) → drops root D s R s' R' → drops root D' s R s' R'.
Proof.
  intros E [K1 K2 K3 K4]. split; intros; [apply K1|apply K2|apply K3|apply K4]; setoid_rewrite E; by eauto.
Qed.

Lemma drops_trans root D1 D2 s0 T0 R0 s1 R1 s2 R2 :
  pages_ok root s0 T0 R0 → (∀ va va', same_page va va' → D1 va → D1 va') → (∀ va, Decision (D1 va)) →
  drops root D1 s0 R0 s1 R1 → drops root D2 s1 R1 s2 R2 → drops root (λ va, D1 va ∨ D2 va) s0 R0 s2 R2.
Proof.
  intros Hp Hcl Hdec [A1 A2 A3 A4] [B1 B2 B3 B4]. split.
  - intros va Hd. destruct (decide (D1 va)) as [K1|K1].
    + destruct (translate root va (pm_ram s2)) eqn:E; [|done].
      assert (Hn : ¬ D2 va) by (intros Hd2; by rewrite B1 in E). by rewrite B2, A1 in E.
    + apply B1. tauto.
  - intros va Hd. rewrite B2, A2 by tauto. done.
  - intros x (va & fl & Hd & Ht). destruct (decide (D1 va)) as [K1|K1].
    + rewrite B4, A3; [done|by eauto|]. intros va' fl' _ Ht'.
      destruct (decide (D1 va')) as [K1'|K1']; [by rewrite A1 in Ht'|].
      rewrite A2 in Ht' by done. apply K1'. eapply Hcl; [|exact K1]. by eapply po_inj.
    + assert (Ht1 : translate root va (pm_ram s1) = Some (x, fl)) by by rewrite A2.
      rewrite B3 by (exists va, fl; tauto). apply drop_ref_eq, A4. intros va' fl' K1' Ht'.
      apply K1. eapply Hcl; [|exact K1']. by eapply po_inj.
  - intros x Hx. rewrite B4, A4; [done|by intros va fl Hd; apply Hx; left|].
    intros va fl Hd Ht. destruct (decide (D1 va)) as [K1|K1]; [by rewrite A1 in Ht|].
    rewrite A2 in Ht by done. by apply (Hx va fl); [right|].
Qed.

(** What is held stays live: the state's other pages move, the tables do not. *)
Lemma pt_state_held root m a a' TT R :
  pt_state (mkPm m a) root TT → held a' R → (∀ p t, TT !! p = Some t → R !! t = Some 1) →
  pt_state (mkPm m a') root TT.
Proof.
  intros [S1 S2 S3 S4] Hh Ht. split; [done|done|by eapply held_ok|].
  intros p t Hp. by eapply (held_live _ R t 1); [|eapply Ht].
Qed.

Lemma drop_ref_tables root s TT R pa :
  pages_ok root s TT R → (∃ va fl, translate root va (pm_ram s) = Some (pa, fl)) →
  ∀ p t, TT !! p = Some t → drop_ref pa R !! t = Some 1.
Proof.
  intros Hp (va & fl & Ht) p t Hpt. rewrite drop_ref_ne; [by eapply po_tables|].
  intros ->. by eapply (po_mapped _ _ _ _ Hp va t fl Ht).
Qed.

Lemma translate_same_page root s TT va va' :
  pt_state s root TT → same_page va va' → translate root va (pm_ram s) = translate root va' (pm_ram s).
Proof.
  intros Hs E. unfold translate. rewrite !(find_leaf_small root s TT Hs).
  destruct (same_page_path _ _ E) as [E1 E2]. by rewrite E1, E2.
Qed.

Lemma unmap_page_ok root addr s TT R :
  pages_ok root s TT R →
  ∃ s' R', unmap_page root addr s = Ret s' ∧ pages_ok root s' TT R' ∧ drops root (same_page addr) s R s' R'.
Proof.
  intros Hp. unfold unmap_page. rewrite lookup_translate.
  destruct (translate root addr (pm_ram s)) as [[pa fl]|] eqn:Et; cbn [fst fmap option_fmap option_map].
  - destruct (po_mapped _ _ _ _ Hp _ _ _ Et) as [[n Hn] _].
    destruct (up_decref_ok (pm_src s) R pa n (po_held _ _ _ _ Hp) Hn) as (a' & Ea & Hh).
    unfold src_do. rewrite Ea. cbn [mbind outcome_bind].
    pose proof (drop_ref_tables root s TT R pa Hp ltac:(eauto)) as Htab.
    assert (Hst : pt_state (mkPm (pm_ram s) a') root TT).
    { apply (pt_state_held root (pm_ram s) (pm_src s) a' TT (drop_ref pa R)); [|done|done].
      destruct s. apply Hp. }
    destruct (unmap_ok root (mkPm (pm_ram s) a') TT addr Hst) as (Hst' & _ & Hu). cbn in Hu.
    eexists _, (drop_ref pa R). split; [done|].
    assert (Hu' : ∀ va pa' fl', translate root va (unmap root addr (pm_ram s)) = Some (pa', fl') →
              ¬ same_page addr va ∧ translate root va (pm_ram s) = Some (pa', fl')).
    { intros va pa' fl'. rewrite Hu. by case_decide. }
    split; split; cbn [with_ram pm_ram pm_src].
    + done.
    + done.
    + done.
    + intros va pa' fl' [Hne Ht]%Hu'. destruct (po_mapped _ _ _ _ Hp _ _ _ Ht) as [[n' Hn'] Hno].
      split; [|done]. exists n'. rewrite drop_ref_ne; [done|]. intros ->. apply Hne. by eapply po_inj.
    + intros va va' pa' fl1 fl2 [_ K1]%Hu' [_ K2]%Hu'. by eapply po_inj.
    + intros va Hva. rewrite Hu. by rewrite decide_True.
    + intros va Hva. rewrite Hu. by rewrite decide_False.
    + intros x (va & fl' & Hva & Ht). assert (x = pa) as ->; [|done].
      rewrite <-(translate_same_page root s TT addr va), Et in Ht by (done || apply Hp). congruence.
    + intros x Hx. rewrite drop_ref_ne; [done|]. intros ->. by eapply (Hx addr fl).
  - exists s, R. split_and!; [done|done|].
    assert (Hnone : ∀ va, same_page addr va → translate root va (pm_ram s) = None).
    { intros va E. by rewrite <-(translate_same_page root s TT addr va) by (done || apply Hp). }
    split; [done|done| |done]. intros x (va & fl & Hva & Ht). by rewrite Hnone in Ht.
Qed.
(** A routine that drops one page at a time drops the pages of a list. *)
Lemma drop_list_ok (f : Z → pm A → outcome (pm A)) root TT L :
  (∀ addr s R, pages_ok root s TT R →
     ∃ s' R', f addr s = Ret s' ∧ pages_ok root s' TT R' ∧ drops root (same_page addr) s R s' R') →
  ∀ s R, pages_ok root s TT R →
  ∃ s' R', foldl (λ o addr, o ≫= f addr) (Ret s) L = Ret s' ∧
           pages_ok root s' TT R' ∧ drops root (among L) s R s' R'.
Proof.
  intros Hf. induction L as [|x L IH]; intros s R Hp; cbn [foldl].
  - exists s, R. split_and!; [done..|]. eapply drops_iff; [|apply drops_none].
    intros va. split; [done|]. by intros (? & ?%elem_of_nil & _).
  - destruct (Hf x s R Hp) as (s1 & R1 & E1 & Hp1 & Hd1). cbn [mbind outcome_bind]. rewrite E1.
    destruct (IH s1 R1 Hp1) as (s2 & R2 & -> & Hp2 & Hd2). exists s2, R2. split_and!; [done..|].
    eapply drops_iff; [|eapply drops_trans; [exact Hp| |intros va; apply same_page_dec|exact Hd1|exact Hd2]].
    + intros va. by rewrite among_cons.
    + intros va va' E Ex. by etrans.
Qed.

Lemma unmap_pages_ok root s TT R a e :
  pages_ok root s TT R → 0 ≤ a → e ≤ kUserVaLimit →
  ∃ s' R', each_page (unmap_page root) a e s = Ret s' ∧
           pages_ok root s' TT R' ∧ drops root (among (pages a e)) s R s' R'.
Proof.
  intros Hp Ha He. rewrite each_page_scan by done. apply drop_list_ok; [|done].
  intros addr s0 R0 Hp0. by apply unmap_page_ok.
Qed.
End page_level.
