(* ===== verification/VmaOps.v ===== *)
(** * VmaOps: mapping, unmapping and protecting user memory

    The functional behaviour of [vmm_map_user], [vmm_unmap_user] and
    [vmm_protect_user] of [na/mm/vma.cc] on every branch, as the change of the
    permissions each address has, of its translation and of the reference
    counts; and the invariant of an address space that all of them keep. *)

From S2P Require Import Prelude Bits RBTree Pmap UserPages VmaTree Vma VmaPages.

(** ** Areas with a range taken out *)

Definition cut_out (va e : Z) (v : vma) : list vma :=
  if (end_ v <=? va) || (e <=? start v) then [v]
  else (if start v <? va then [with_end va v] else []) ++ (if e <? end_ v then [with_start e v] else []).

(** The pages of an area within the range. *)
Definition pages_in (va e : Z) (v : vma) : list Z := pages (start v `max` va) (end_ v `min` e).

Lemma cut_out_far va e v : start v < end_ v → va < e →
  end_ v ≤ va ∨ e ≤ start v → cut_out va e v = [v] ∧ pages_in va e v = [].
Proof.
  intros Hv Hve Hd. unfold cut_out, pages_in. split; [|apply pages_nil; lia].
  destruct Hd; [by rewrite (proj2 (Z.leb_le _ _))|by rewrite (proj2 (Z.leb_le e _)), orb_true_r by lia].
Qed.

Lemma cut_out_far_list va e b : Forall vma_ok b → va < e →
  (∀ w, w ∈ b → end_ w ≤ va ∨ e ≤ start w) → b ≫= cut_out va e = b ∧ b ≫= pages_in va e = [].
Proof.
  intros Hok Hve. induction Hok as [|v b (_ & _ & Hv & _) _ IH]; intros Hb; [done|].
  destruct IH as [E1 E2]; [by intros w Hw; apply Hb; right|].
  destruct (cut_out_far va e v) as [E3 E4]; [lia..|apply Hb; left|].
  rewrite !bind_cons. by rewrite E1, E2, E3, E4.
Qed.

Lemma cut_out_inside va e v w : vma_ok v → page_aligned va → page_aligned e → w ∈ cut_out va e v →
  vma_ok w ∧ start v ≤ start w ∧ end_ w ≤ end_ v.
Proof.
  intros (V1 & V2 & V3 & V4) Ha He. unfold cut_out.
  destruct (Z.leb_spec (end_ v) va), (Z.leb_spec e (start v)); cbn [orb].
  1-3: intros Hw%list_elem_of_singleton; subst w; split_and!; (done || lia).
  rewrite elem_of_app. intros [Hw|Hw].
  - destruct (Z.ltb_spec (start v) va); [|by apply elem_of_nil in Hw].
    apply list_elem_of_singleton in Hw; subst w. split; [|cbn; lia]. split_and!; cbn; (done || lia).
  - destruct (Z.ltb_spec e (end_ v)); [|by apply elem_of_nil in Hw].
    apply list_elem_of_singleton in Hw; subst w. split; [|cbn; lia]. split_and!; cbn; (done || lia).
Qed.

Lemma cut_out_ok va e a v b : page_aligned va → page_aligned e → va < e →
  vmas_ok (a ++ v :: b) → vmas_ok (a ++ cut_out va e v ++ b).
Proof.
  intros Ha He Hve (Hoa & (Hv & Hob & Hvb)%vmas_ok_cons & Hab)%vmas_ok_app.
  pose proof (cut_out_inside va e v) as Hc. apply vmas_ok_app. split_and!; [done| |].
  - apply vmas_ok_app. split_and!; [split|done|].
    + apply Forall_forall. intros w Hw. by apply (Hc w).
    + unfold cut_out. destruct (_ || _); [repeat constructor|].
      destruct (start v <? va), (e <? end_ v); repeat constructor. cbn. lia.
    + intros w y Hw Hy. destruct (Hc w Hv Ha He Hw) as (_ & _ & ?). specialize (Hvb y Hy). lia.
  - intros x w Hx [Hw|Hw]%elem_of_app; [|by apply Hab; [|right]].
    destruct (Hc w Hv Ha He Hw) as (_ & ? & _). specialize (Hab x v Hx ltac:(left)). lia.
Qed.

Lemma cut_out_perms va e v x : va < e → start v < end_ v →
  perm_at (cut_out va e v) x = if (va <=? x) && (x <? e) then None else perm_at [v] x.
Proof.
  intros Hve Hv. unfold cut_out. cbn [perm_at].
  destruct (Z.leb_spec (end_ v) va), (Z.leb_spec e (start v)); cbn [orb perm_at app].
  4: destruct (Z.ltb_spec (start v) va), (Z.ltb_spec e (end_ v)); cbn.
  all: destruct (Z.leb_spec va x), (Z.ltb_spec x e), (Z.leb_spec (start v) x), (Z.ltb_spec x (end_ v)),
         (Z.leb_spec e x), (Z.ltb_spec x va); cbn; (done || lia).
Qed.

Lemma cut_out_list_perms va e l x : va < e → Forall vma_ok l →
  perm_at (l ≫= cut_out va e) x = if (va <=? x) && (x <? e) then None else perm_at l x.
Proof.
  intros Hve Hok. induction Hok as [|v l (_ & _ & Hv & _) _ IH]; cbn [perm_at].
  { cbn. by destruct (_ && _). }
  rewrite bind_cons, perm_at_app, IH, cut_out_perms by lia. cbn [perm_at].
  by destruct ((va <=? x) && (x <? e)), ((start v <=? x) && (x <? end_ v)).
Qed.

(** The pages dropped are those of the range's addresses that have an area. *)
Lemma among_app L K va : among (L ++ K) va ↔ among L va ∨ among K va.
Proof. unfold among. setoid_rewrite elem_of_app. naive_solver. Qed.

Lemma among_pages_in va e l va' : page_aligned va → vmas_ok l →
  among (l ≫= pages_in va e) va' ↔ ∃ x, va ≤ x < e ∧ is_Some (perm_at l x) ∧ same_page x va'.
Proof.
  intros Ha Hok.
  assert (Hl : among (l ≫= pages_in va e) va' ↔ ∃ v, v ∈ l ∧ among (pages_in va e v) va').
  { clear. induction l as [|v l IH]; [split; [by intros (? & ?%elem_of_nil & _)|by intros (? & ?%elem_of_nil & _)]|].
    rewrite bind_cons, among_app, IH. setoid_rewrite elem_of_cons. split.
    - intros [?|(w & ? & ?)]; eauto.
    - intros (w & [->|?] & ?); eauto. }
  rewrite Hl. clear Hl. split.
  - intros (v & Hv & Hva). destruct (vmas_ok_elem _ _ Hok Hv) as (V1 & _ & V3 & _).
    apply among_pages in Hva as (x & Hx & E).
    + exists x. split_and!; [lia|lia| |done]. apply list_elem_of_split in Hv as (a & b & ->).
      rewrite perm_at_mid; [by eexists|done|lia].
    + by destruct (Z.max_spec (start v) va) as [[_ ->]|[_ ->]].
    + unfold kUserVaBase, kPageSize in *. lia.
  - intros (x & Hx & [p Hp] & E). apply perm_at_Some in Hp as (a & v & b & -> & Hv & _).
    exists v. split; [set_solver|]. destruct (vmas_ok_elem _ v Hok ltac:(set_solver)) as (V1 & _ & V3 & _).
    apply among_pages; [by destruct (Z.max_spec (start v) va) as [[_ ->]|[_ ->]]|unfold kUserVaBase, kPageSize in *; lia|].
    exists x. split; [lia|done].
Qed.

Section space.
Context {T : Type} `{OrderedTree vma T} {Hot : OrderedTreeSpec vma T}.
Context {A : Type} `{UserPagesSpec A} `{!ObjectHeap A}.
Context {Hheap : ∀ R, HeapKeeps A (λ a, held a R)}.

(** An address space: a tree of disjoint areas, a page table whose pages are
    accounted for, and no page mapped outside the areas. *)
Record space_inv (sp : VmSpace T) (s : pm A) (l : list vma) (TT : tables) (R : gmap Z Z) : Prop := {
  si_tree : tree_ok (vma_tree sp) l;
  si_pages : pages_ok (root_pa sp) s TT R;
  si_inside va pa fl : translate (root_pa sp) va (pm_ram s) = Some (pa, fl) →
    ∃ x, same_page x va ∧ is_Some (perm_at l x);
}.

(** Changes of the memory system that keep every reference. *)
Lemma pages_ok_src root s a' TT R : pages_ok root s TT R → held a' R → pages_ok root (mkPm (pm_ram s) a') TT R.
Proof.
  intros [S1 S2 S3 S4 S5] Hh. split; [|done..].
  apply (pt_state_held root (pm_ram s) (pm_src s) a' TT R); [by destruct s|done..].
Qed.

Lemma pm_new_ok o root s TT R : pages_ok root s TT R →
  ∃ ok s', pm_new o s = Ret (ok, s') ∧ pages_ok root s' TT R ∧ pm_ram s' = pm_ram s.
Proof using Hheap.
  intros Hp. destruct (obj_new_keeps o (pm_src s) (po_held _ _ _ _ Hp)) as (ok & a' & E & Hh).
  unfold pm_new. rewrite E. cbn. eexists _, _. split_and!; [done|by apply pages_ok_src|done].
Qed.

Lemma pm_delete_ok o root s TT R : pages_ok root s TT R →
  ∃ s', src_do (obj_delete o) s = Ret s' ∧ pages_ok root s' TT R ∧ pm_ram s' = pm_ram s.
Proof using Hheap.
  intros Hp. destruct (obj_delete_keeps o (pm_src s) (po_held _ _ _ _ Hp)) as (a' & E & Hh).
  unfold src_do. rewrite E. cbn. eexists _. split_and!; [done|by apply pages_ok_src|done].
Qed.

(** ** The checks of a range *)

Lemma range_good va len :
  is_u64 va → is_u64 len → page_aligned len → range_bad va len = false →
  u64 (va + len) = va + len ∧ kUserVaBase ≤ va ∧ va + len ≤ kUserVaLimit.
Proof.
  unfold range_bad, is_u64. intros Hva Hlen Hal.
  rewrite !orb_false_iff, !Z.ltb_ge, Z.leb_gt. intros (((H1' & H2') & H3') & H4').
  pose proof kUserVaLimit_val as HL. unfold wrap in *.
  destruct (decide (va + len < 2 ^ 64)) as [Hlt|Hge].
  - rewrite Z.mod_small in * by lia. lia.
  - exfalso. replace (va + len) with (va + len - 2 ^ 64 + 1 * 2 ^ 64) in H3' by lia.
    rewrite Z.mod_add, Z.mod_small in H3' by lia. lia.
Qed.

Lemma range_bad_invalid va len :
  is_u64 va → is_u64 len → len ≠ 0 → range_bad va len = true → ¬ (kUserVaBase ≤ va ∧ va + len ≤ kUserVaLimit).
Proof.
  unfold range_bad, is_u64. intros Hva Hlen Hne Eb [G1 G2]. pose proof kUserVaLimit_val.
  rewrite !orb_true_iff, !Z.ltb_lt, Z.leb_le in Eb. rewrite wrap_small in Eb by lia. lia.
Qed.

Lemma page_align_down_range va : is_u64 va → is_u64 (page_align_down va) ∧ page_aligned (page_align_down va).
Proof. intros Hv. destruct (page_align_down_spec va Hv) as (? & ? & ?). unfold is_u64 in *. split; [lia|done]. Qed.

Lemma page_align_up_range len : is_u64 len → is_u64 (page_align_up len) ∧ page_aligned (page_align_up len).
Proof.
  intros Hl. destruct (decide (len ≤ 2 ^ 64 - kPageSize)) as [Hs|Hs].
  - destruct (page_align_up_spec len) as [Ha Hr]; [unfold is_u64 in *; lia|]. split; [|done].
    unfold is_u64, page_aligned, kPageSize in *. pose proof (Z.div_mod (page_align_up len) 4096). lia.
  - rewrite page_align_up_wraps by (unfold is_u64 in *; lia). done.
Qed.

(** ** [vmm_map_user] *)

(** The permissions after giving the range [[va, e)] the permissions [p]. *)
Definition perms_set (l l' : list vma) (va e : Z) (p : option Z) : Prop :=
  ∀ x, perm_at l' x = if (va <=? x) && (x <? e) then p else perm_at l x.

Lemma perm_at_insert a b v x :
  vmas_ok (a ++ v :: b) →
  perm_at (a ++ v :: b) x = if (start v <=? x) && (x <? end_ v) then Some (perm v) else perm_at (a ++ b) x.
Proof.
  intros Hok. destruct (_ && _) eqn:E.
  - apply andb_true_iff in E as [?%Z.leb_le ?%Z.ltb_lt]. by apply perm_at_mid.
  - rewrite !perm_at_app. cbn. by rewrite E.
Qed.

(** An operation changes the tree of a space, not its root or heap bounds. *)
Definition same_space (sp sp' : VmSpace T) : Prop :=
  root_pa sp' = root_pa sp ∧ brk_start sp' = brk_start sp ∧ brk_end sp' = brk_end sp.

Inductive map_result (sp : VmSpace T) (l : list vma) (va len p : Z) : Z → VmSpace T → list vma → Prop :=
| map_empty : len = 0 → map_result sp l va len p 0 sp l
| map_done sp' l' :
    0 < len → kUserVaBase ≤ va → va + len ≤ kUserVaLimit →
    (∀ x, va ≤ x < va + len → perm_at l x = None) →
    perms_set l l' va (va + len) (Some (Z.lor p VM_USER)) → same_space sp sp' →
    map_result sp l va len p 0 sp' l'
| map_invalid :
    (¬ (kUserVaBase ≤ va ∧ va + len ≤ kUserVaLimit) ∨ ∃ x, va ≤ x < va + len ∧ is_Some (perm_at l x)) →
    map_result sp l va len p (- EINVAL) sp l
| map_nomem : map_result sp l va len p (- ENOMEM) sp l.

Lemma disjoint_perms l s e :
  vmas_ok l → s < e → (∀ v, v ∈ l → e ≤ start v ∨ end_ v ≤ s) ↔ (∀ x, s ≤ x < e → perm_at l x = None).
Proof.
  intros Hok Hse. split.
  - intros Hd x Hx. apply perm_at_none. intros v Hv. destruct (Hd v Hv); lia.
  - intros Hn v Hv. destruct (vmas_ok_elem _ _ Hok Hv) as (_ & _ & Hv' & _).
    destruct (decide (e ≤ start v ∨ end_ v ≤ s)) as [|Ho]; [done|]. exfalso.
    apply list_elem_of_split in Hv as (a & b & ->).
    pose proof (perm_at_mid a v b (start v `max` s) Hok ltac:(lia)) as Hp.
    rewrite Hn in Hp by lia. done.
Qed.

Lemma vmm_map_user_ok sp s l TT R va len p :
  space_inv sp s l TT R → is_u64 va → is_u64 len →
  ∃ ret sp' s' l', vmm_map_user sp va len p s = Ret (ret, sp', s') ∧ space_inv sp' s' l' TT R ∧
    pm_ram s' = pm_ram s ∧ map_result sp l (page_align_down va) (page_align_up len) p ret sp' l'.
Proof using Hot Hheap.
  intros [Ht Hp Hin] Hva Hlen. unfold vmm_map_user.
  destruct (page_align_down_range va Hva) as [Hva' Hal]. destruct (page_align_up_range len Hlen) as [Hlen' Hal'].
  set (va' := page_align_down va) in *. set (len' := page_align_up len) in *. clearbody va' len'. clear Hva Hlen.
  destruct (Z.eqb_spec len' 0) as [->|Hne].
  { exists 0, sp, s, l. split_and!; [done|done|done|by constructor]. }
  destruct (range_bad va' len') eqn:Eb.
  { exists (- EINVAL), sp, s, l. split_and!; [done|done|done|]. apply map_invalid. left. by apply range_bad_invalid. }
  destruct (range_good va' len' Hva' Hlen' Hal' Eb) as (Ew & G1 & G2). rewrite Ew.
  destruct (pm_new_ok VmAreaStruct _ s TT R Hp) as (ok & s1 & -> & Hp1 & Er1). cbn [mbind outcome_bind].
  destruct ok; cbn [negb].
  2: { exists (- ENOMEM), sp, s1, l. split_and!; [done|split; [done..|by rewrite Er1]|done|constructor]. }
  assert (0 < len') as Hpos by (unfold is_u64 in *; lia).
  destruct (vma_overlaps_locked_ok (vma_tree sp) l va' (va' + len') Ht ltac:(lia)) as (b & Eo & Hb).
  cbn [start end_]. rewrite Eo. cbn [mbind outcome_bind]. destruct b.
  - destruct (pm_delete_ok VmAreaStruct _ s1 TT R Hp1) as (s2 & -> & Hp2 & Er2). cbn.
    exists (- EINVAL), sp, s2, l. rewrite Er2, Er1. split_and!; [done|split; [done..|by rewrite Er2, Er1]|done|].
    apply map_invalid. right. destruct (decide (Forall (λ v, va' + len' ≤ start v ∨ end_ v ≤ va') l)) as [Hf|Hf].
    + rewrite Forall_forall in Hf. by apply Hb in Hf.
    + apply not_Forall_Exists, Exists_exists in Hf as (v & Hv & Hn); [|apply _].
      destruct (vmas_ok_elem _ _ (to_vmas _ _ Ht) Hv) as (_ & _ & Hv' & _).
      apply list_elem_of_split in Hv as (a & c & ->). cbn in Hn. exists (start v `max` va'). split; [lia|].
      rewrite perm_at_mid; [by eexists|apply Ht|lia].
  - destruct Hb as [Hb _]. specialize (Hb eq_refl).
    destruct (disjoint_split l va' (va' + len') (to_vmas _ _ Ht) ltac:(lia) Hb) as (a & c & -> & Ha & Hc).
    set (v := mkVma va' (va' + len') (Z.lor p VM_USER)).
    assert (Hok : vmas_ok (a ++ v :: c)).
    { pose proof (to_vmas _ _ Ht) as (Hoa & Hoc & Hac)%vmas_ok_app. apply vmas_ok_app. split_and!; [done| |].
      - apply vmas_ok_cons. split_and!; [|done|by apply Hc].
        split_and!; cbn; [done| |lia|lia|lia]. unfold page_aligned, kPageSize in *.
        rewrite Z.add_mod, Hal, Hal' by lia. done.
      - intros x y Hx [->|Hy]%elem_of_cons; [by apply Ha|by apply Hac]. }
    destruct (merge_neighbors_ok (I := λ a, held a R) (ot_add vma_less v (vma_tree sp)) a v c (pm_src s1))
      as (t' & a' & l' & -> & Hh & Ht' & Hsame); [by apply tree_ok_add|apply Hp1|]. cbn.
    eexists 0, _, _, l'. split; [done|]. split; [|split; [done|]].
    + split; cbn; [done|by apply pages_ok_src|]. rewrite Er1. intros x pa fl Hx.
      destruct (Hin x pa fl Hx) as (y & Hy & Hpy). exists y. split; [done|]. rewrite Hsame, perm_at_insert by done.
      destruct (_ && _); [by eexists|done].
    + apply map_done; [lia|lia|lia|by apply disjoint_perms; [apply Ht|lia|done]| |done].
      intros x. rewrite Hsame, perm_at_insert by done. done.
Qed.
(** ** [vmm_unmap_user] *)

Lemma drops_ram root D (s : pm A) R s' R' s'' :
  drops root D s R s' R' → pm_ram s'' = pm_ram s' → drops root D s R s'' R'.
Proof. intros [D1 D2 D3 D4] E. split; rewrite ?E; done. Qed.

Lemma unmap_area_ok root va e t a v b s TT R :
  page_aligned va → page_aligned e → 0 ≤ va < e → e ≤ kUserVaLimit →
  tree_ok t (a ++ v :: b) → pages_ok root s TT R →
  ∃ r s' R', unmap_area root va e v t s = Ret r ∧ pages_ok root s' TT R' ∧
    drops root (among (pages_in va e v)) s R s' R' ∧
    match r with
    | inl (t', s'') => s'' = s' ∧ tree_ok t' (a ++ cut_out va e v ++ b)
    | inr (ret, t', s'') => s'' = s' ∧ (e ≤ start v ∨ e < end_ v) ∧
        (ret = 0 ∧ tree_ok t' (a ++ cut_out va e v ++ b) ∨ ret = - ENOMEM ∧ t' = t ∧ start v < va)
    end.
Proof using Hot Hheap.
  intros Ha He Hve Hlim Ht Hp.
  pose proof (cut_out_ok va e a v b Ha He ltac:(lia) (to_vmas _ _ Ht)) as Hok.
  destruct (vmas_ok_elem _ v (to_vmas _ _ Ht) ltac:(set_solver)) as (V1 & V2 & V3 & V4).
  assert (Hnone : ∀ D, (∀ x, ¬ D x) → drops root D s R s R).
  { intros D HD. eapply drops_iff; [|apply drops_none]. intros x. split; [done|apply HD]. }
  unfold unmap_area.
  destruct (Z.leb_spec (end_ v) va) as [Hfar|Hfar].
  { destruct (cut_out_far va e v) as [-> ->]; [lia..|]. eexists _, s, R. split; [done|]. split_and!; [done| |done|done].
    apply Hnone. by intros x (? & ?%elem_of_nil & _). }
  destruct (Z.leb_spec e (start v)) as [Hfar'|Hfar'].
  { destruct (cut_out_far va e v) as [-> ->]; [lia..|]. eexists _, s, R. split; [done|]. split_and!; [done| |done|lia|by left].
    apply Hnone. by intros x (? & ?%elem_of_nil & _). }
  replace (if va <? start v then start v else va) with (start v `max` va)
    by (destruct (Z.ltb_spec va (start v)); lia).
  replace (if end_ v <? e then end_ v else e) with (end_ v `min` e)
    by (destruct (Z.ltb_spec (end_ v) e); lia).
  rewrite (proj2 (Z.ltb_lt _ _)) by lia.
  destruct (unmap_pages_ok root s TT R (start v `max` va) (end_ v `min` e)) as (s1 & R1 & -> & Hp1 & Hd1);
    [done|unfold kUserVaBase, kPageSize in *; lia|lia|]. cbn [mbind outcome_bind].
  fold (pages_in va e v) in Hd1. unfold cut_out in *.
  rewrite (proj2 (Z.leb_gt (end_ v) va)), (proj2 (Z.leb_gt e (start v))) in * by lia. cbn [orb] in *.
  pose proof Ht as [Hh _]%tree_ok_has.
  destruct (Z.eqb_spec (start v `max` va) (start v)) as [Es|Es], (Z.eqb_spec (end_ v `min` e) (end_ v)) as [Ee|Ee];
    cbn [andb].
  - rewrite (proj2 (Z.ltb_ge (start v) va)), (proj2 (Z.ltb_ge e (end_ v))) in * by lia. cbn [app] in *.
    destruct (pm_delete_ok VmAreaStruct root s1 TT R1 Hp1) as (s2 & -> & Hp2 & Er). cbn [mbind outcome_bind].
    eexists _, s2, R1. split; [done|]. split_and!; [done|by eapply drops_ram|done|].
    apply tree_ok_has. split; [by apply tree_has_erase|done].
  - rewrite (proj2 (Z.ltb_ge (start v) va)), (proj2 (Z.ltb_lt e (end_ v))) in * by lia. cbn [app] in *.
    eexists _, s1, R1. split; [done|]. split_and!; [done|done|done|]. replace (end_ v `min` e) with e by lia.
    apply tree_ok_add; [|done]. apply tree_ok_has. split; [by apply tree_has_erase|].
    apply vmas_ok_app in Hok as (Hoa & (_ & Hob & _)%vmas_ok_cons & Hab). apply vmas_ok_app. split_and!; [done..|].
    intros x y Hx Hy. apply Hab; [done|by right].
  - rewrite (proj2 (Z.ltb_lt (start v) va)), (proj2 (Z.ltb_ge e (end_ v))) in * by lia. cbn [app] in *.
    eexists _, s1, R1. split; [done|]. split_and!; [done|done|done|]. replace (start v `max` va) with va by lia.
    apply tree_ok_has. split; [by apply (tree_has_store _ _ _ _ (with_end va))|done].
  - rewrite (proj2 (Z.ltb_lt (start v) va)), (proj2 (Z.ltb_lt e (end_ v))) in * by lia. cbn [app] in *.
    replace (start v `max` va) with va by lia. replace (end_ v `min` e) with e by lia.
    destruct (pm_new_ok VmAreaStruct root s1 TT R1 Hp1) as (ok & s2 & -> & Hp2 & Er). cbn [mbind outcome_bind].
    destruct ok; cbn [negb]; eexists _, s2, R1; (split; [done|]; split_and!; [done|by eapply drops_ram|done|lia|]).
    + left. split; [done|]. rewrite (cons_middle _ a), app_assoc in Hok |- *.
      apply (tree_ok_add _ (a ++ [with_end va v]) (mkVma e (end_ v) (perm v)) b); [|done]. apply tree_ok_has.
      rewrite <-app_assoc. split; [by apply (tree_has_store _ _ _ _ (with_end va)) in Hh|].
      apply vmas_ok_app in Hok as (Hl & (_ & Hr & _)%vmas_ok_cons & Hlr).
      change (a ++ [with_end va v] ++ b) with (a ++ ([with_end va v] ++ b)). rewrite app_assoc.
      apply vmas_ok_app. split_and!; [done..|]. intros x y Hx Hy. apply Hlr; [done|by right].
    + right. split_and!; [done..|lia].
Qed.

Lemma unmap_loop_ok root va e t l s TT R :
  page_aligned va → page_aligned e → 0 ≤ va < e → e ≤ kUserVaLimit →
  tree_ok t l → pages_ok root s TT R →
  ∃ ret t' s' R', loop 64 (unmap_step root va e) (ot_first t, t, s) = inr (Ret (ret, t', s')) ∧
    pages_ok root s' TT R' ∧ drops root (among (l ≫= pages_in va e)) s R s' R' ∧
    (ret = 0 ∧ tree_ok t' (l ≫= cut_out va e) ∨
     ret = - ENOMEM ∧ tree_ok t' l ∧ ∃ v, v ∈ l ∧ start v < va ∧ e < end_ v).
Proof using Hot Hheap.
  intros Ha He Hve Hlim Ht Hp.
  destruct (loop_list (unmap_step root va e)
    (λ b c, c.1.1 = head b ∧ ∃ a R', l = a ++ b ∧ tree_ok c.1.2 ((a ≫= cut_out va e) ++ b) ∧
       pages_ok root c.2 TT R' ∧ drops root (among (a ≫= pages_in va e)) s R c.2 R')
    (λ r, ∃ ret t' s' R', r = Ret (ret, t', s') ∧ pages_ok root s' TT R' ∧
       drops root (among (l ≫= pages_in va e)) s R s' R' ∧
       (ret = 0 ∧ tree_ok t' (l ≫= cut_out va e) ∨
        ret = - ENOMEM ∧ tree_ok t' l ∧ ∃ v, v ∈ l ∧ start v < va ∧ e < end_ v)))
    with (k := 64%nat) (l := l) (s := (ot_first t, t, s)) as (r & E & ret & t' & s' & R' & -> & Hres).
  - (* the end of the tree *)
    intros [[node t1] s1] (En & a & R1 & -> & Ht1 & Hp1 & Hd1). cbn in *. subst node. eexists. split; [done|].
    rewrite !app_nil_r in *. exists 0, t1, s1, R1. split_and!; auto.
  - (* one area *)
    intros v b [[node t1] s1] (En & a & R1 & -> & Ht1 & Hp1 & Hd1). cbn [fst snd head] in *. subst node. cbn [unmap_step].
    destruct (unmap_area_ok root va e t1 _ v b s1 TT R1 Ha He Hve Hlim Ht1 Hp1) as (r & s2 & R2 & -> & Hp2 & Hd2 & Hr).
    assert (Hd : drops root (among ((a ++ [v]) ≫= pages_in va e)) s R s2 R2).
    { eapply drops_iff; [|eapply drops_trans; [exact Hp|apply among_closed|apply _|exact Hd1|exact Hd2]].
      intros x. rewrite bind_app, among_app, bind_cons, app_nil_r. done. }
    rewrite (ot_next_spec _ _ _ _ _ (to_ok _ _ Ht1) (points_to_mid _ _ _ _ Ht1)).
    destruct r as [[t2 s2']|[[ret t2] s2']].
    + destruct Hr as [-> Ht2]. split; [done|]. exists (a ++ [v]), R2. rewrite <-app_assoc. split; [done|].
      rewrite bind_app, bind_cons, app_nil_r, <-app_assoc. done.
    + destruct Hr as (-> & Hout & Hr). exists ret, t2, s2, R2.
      (* the areas behind [v] begin after the range *)
      pose proof (to_vmas _ _ Ht) as Hl. apply vmas_ok_app in Hl as (Hla & Hlb & Hab).
      apply vmas_ok_cons in Hlb as ((_ & _ & Hv & _) & Hlb & Hvb).
      destruct (cut_out_far_list va e b) as [Eb1 Eb2]; [apply Hlb|lia|intros w Hw; specialize (Hvb w Hw); lia|].
      split_and!; [done|done| |].
      { eapply drops_iff; [|exact Hd]. intros x. rewrite !bind_app, !bind_cons, Eb2. done. }
      destruct Hr as [[-> Ht2]|(-> & -> & Hs)]; [left|right]; (split; [done|]).
      * rewrite bind_app, bind_cons, Eb1. done.
      * destruct (cut_out_far_list va e a) as [Ea1 _]; [apply Hla|lia|intros w Hw; specialize (Hab w v Hw ltac:(left)); lia|].
        rewrite Ea1 in Ht1. split; [done|]. exists v. split; [set_solver|lia].
  - (* at the start *)
    cbn. rewrite (ot_first_spec t), (to_elems _ _ Ht); [|apply Ht]. split; [done|]. exists [], R. cbn.
    split_and!; [done..|]. eapply drops_iff; [|apply drops_none]. intros x. split; [done|]. by intros (? & ?%elem_of_nil & _).
  - apply vmas_ok_count, Ht.
  - exists ret, t', s', R'. rewrite E. done.
Qed.

(** What happens to the pages of a range that have an area. *)
Definition unmapped (l : list vma) (va e : Z) (root : Z) (s : pm A) (R : gmap Z Z) (s' : pm A) (R' : gmap Z Z) : Prop :=
  drops root (λ va', ∃ x, va ≤ x < e ∧ is_Some (perm_at l x) ∧ same_page x va') s R s' R'.

Inductive unmap_result (sp : VmSpace T) (l : list vma) (s : pm A) (R : gmap Z Z) (va len : Z)
  : Z → VmSpace T → list vma → pm A → gmap Z Z → Prop :=
| unmap_empty : len = 0 → unmap_result sp l s R va len 0 sp l s R
| unmap_invalid : ¬ (kUserVaBase ≤ va ∧ va + len ≤ kUserVaLimit) →
    unmap_result sp l s R va len (- EINVAL) sp l s R
| unmap_done sp' l' s' R' :
    0 < len → kUserVaBase ≤ va → va + len ≤ kUserVaLimit →
    perms_set l l' va (va + len) None → unmapped l va (va + len) (root_pa sp) s R s' R' →
    same_space sp sp' → unmap_result sp l s R va len 0 sp' l' s' R'
| unmap_nomem sp' s' R' :
    (∃ v, v ∈ l ∧ start v < va ∧ va + len < end_ v) → unmapped l va (va + len) (root_pa sp) s R s' R' →
    same_space sp sp' → unmap_result sp l s R va len (- ENOMEM) sp' l s' R'.

Lemma vmm_unmap_user_ok sp s l TT R va len :
  space_inv sp s l TT R → is_u64 va → is_u64 len →
  ∃ ret sp' s' l' R', vmm_unmap_user sp va len s = Ret (ret, sp', s') ∧ space_inv sp' s' l' TT R' ∧
    unmap_result sp l s R (page_align_down va) (page_align_up len) ret sp' l' s' R'.
Proof using Hot Hheap.
  intros [Ht Hp Hin] Hva Hlen. unfold vmm_unmap_user.
  destruct (page_align_down_range va Hva) as [Hva' Hal]. destruct (page_align_up_range len Hlen) as [Hlen' Hal'].
  set (va' := page_align_down va) in *. set (len' := page_align_up len) in *. clearbody va' len'. clear Hva Hlen.
  destruct (Z.eqb_spec len' 0) as [->|Hne].
  { exists 0, sp, s, l, R. split_and!; [done|done|by constructor]. }
  destruct (range_bad va' len') eqn:Eb.
  { exists (- EINVAL), sp, s, l, R. split_and!; [done|done|]. apply unmap_invalid. by apply range_bad_invalid. }
  destruct (range_good va' len' Hva' Hlen' Hal' Eb) as (Ew & G1 & G2). rewrite Ew.
  assert (0 < len') as Hpos by (unfold is_u64 in *; lia).
  assert (page_aligned (va' + len')) as Hale.
  { unfold page_aligned, kPageSize in *. rewrite Z.add_mod, Hal, Hal' by lia. done. }
  destruct (unmap_loop_ok (root_pa sp) va' (va' + len') (vma_tree sp) l s TT R) as (ret & t' & s' & R' & -> & Hp' & Hd & Hr);
    [done|done|unfold is_u64 in *; lia|lia|done|done|]. cbn [mbind outcome_bind].
  assert (Hun : unmapped l va' (va' + len') (root_pa sp) s R s' R').
  { eapply drops_iff; [|exact Hd]. intros x. by apply among_pages_in; [|apply Ht]. }
  destruct Hr as [[-> Ht']|(-> & Ht' & Hsplit)].
  - pose proof (λ x, cut_out_list_perms va' (va' + len') l x ltac:(lia) (vs_each _ (to_vmas _ _ Ht))) as Hperm.
    eexists 0, _, s', _, R'. split; [done|]. split; [split; cbn [with_tree root_pa vma_tree]; [done|done|]|by constructor].
    intros x pa fl Hx. destruct (decide (among (l ≫= pages_in va' (va' + len')) x)) as [Hg|Hg].
    { by rewrite (dr_gone _ _ _ _ _ _ Hd) in Hx. }
    rewrite (dr_kept _ _ _ _ _ _ Hd) in Hx by done. destruct (Hin x pa fl Hx) as (y & Hy & Hpy).
    exists y. split; [done|]. rewrite Hperm. destruct (_ && _) eqn:Er; [|done]. exfalso. apply Hg.
    apply among_pages_in; [done|apply Ht|]. exists y. apply andb_true_iff in Er as [?%Z.leb_le ?%Z.ltb_lt]. done.
  - eexists (- ENOMEM), _, s', l, R'. split; [done|]. split; [split; cbn [with_tree root_pa vma_tree]; [done|done|]|by constructor].
    intros x pa fl Hx. destruct (decide (among (l ≫= pages_in va' (va' + len')) x)) as [Hg|Hg].
    { by rewrite (dr_gone _ _ _ _ _ _ Hd) in Hx. }
    rewrite (dr_kept _ _ _ _ _ _ Hd) in Hx by done. by eapply Hin.
Qed.
End space.
