(* ===== verification/VmaProtect.v ===== *)
(** * VmaProtect: changing the permissions of user memory

    [vmm_protect_user] of [na/mm/vma.cc]: the areas are split at the ends of
    the range, those inside get the new permissions, and every page that is
    already mapped gets the matching hardware permissions, copy-on-write pages
    staying write-protected; with no permissions at all the pages are dropped. *)

From S2P Require Import Prelude Bits RBTree Pmap UserPages VmaTree Vma VmaPages VmaOps.

(** The flags of a mapped page after [vmm_protect_user(..., perm)]. *)
Definition prot_flags (perm fl : Z) : Z :=
  let vma_perm := Z.lor perm VM_USER in
  let pte_perm := vm_perm_to_pte vma_perm in
  Z.lor (if negb (Z.land vma_perm VM_WRITE =? 0) && negb (Z.land fl PTE_COW =? 0)
         then cow_perm pte_perm else pte_perm) PTE_V.

Lemma vm_perm_to_pte_bits p :
  flags_ok (vm_perm_to_pte p) ∧ Z.land (vm_perm_to_pte p) PTE_COW = 0 ∧
  (Z.land p 5 ≠ 0 → Z.land (vm_perm_to_pte p) (Z.lor PTE_R PTE_X) ≠ 0) ∧
  (Z.land p 7 ≠ 0 → Z.land (vm_perm_to_pte p) PTE_RWX ≠ 0) ∧
  Z.land (vm_perm_to_pte p) PTE_V ≠ 0.
Proof.
  unfold vm_perm_to_pte.
  assert (Z.land p 7 = Z.lor (Z.lor (Z.land p (Z.shiftl 1 0)) (Z.land p (Z.shiftl 1 1))) (Z.land p (Z.shiftl 1 2))) as ->.
  { rewrite <-!Z.land_lor_distr_r. done. }
  assert (Z.land p 5 = Z.lor (Z.land p (Z.shiftl 1 0)) (Z.land p (Z.shiftl 1 2))) as ->.
  { rewrite <-!Z.land_lor_distr_r. done. }
  destruct (Z.eqb_spec (Z.land p (Z.shiftl 1 0)) 0) as [E0|E0], (Z.eqb_spec (Z.land p (Z.shiftl 1 1)) 0) as [E1|E1],
    (Z.eqb_spec (Z.land p (Z.shiftl 1 2)) 0) as [E2|E2], (Z.eqb_spec (Z.land p (Z.shiftl 1 3)) 0) as [E3|E3]; cbn [negb].
  all: rewrite ?E0, ?E1, ?E2; (split_and!; first [by vm_compute|done|intros _; by vm_compute]).
Qed.

Lemma cow_perm_bits p : flags_ok p →
  flags_ok (cow_perm p) ∧ Z.land (cow_perm p) PTE_COW ≠ 0 ∧
  (Z.land p PTE_V ≠ 0 → Z.land (cow_perm p) PTE_V ≠ 0) ∧
  (Z.land p (Z.lor PTE_R PTE_X) ≠ 0 → Z.land (cow_perm p) PTE_RWX ≠ 0).
Proof.
  intros Hp. unfold cow_perm. set (w := u64 (Z.lnot PTE_W)).
  assert (flags_ok (Z.land p w)) as Hl.
  { unfold flags_ok in *. by apply land_bound. }
  split_and!.
  - by apply flags_lor.
  - rewrite Z.land_lor_distr_l. intros E%Z.lor_eq_0_iff. by destruct E.
  - intros Hv. rewrite Z.land_lor_distr_l, <-Z.land_assoc. intros [E _]%Z.lor_eq_0_iff. done.
  - intros Hv. rewrite Z.land_lor_distr_l, <-Z.land_assoc. intros [E _]%Z.lor_eq_0_iff. done.
Qed.

(** Permissions that keep a page readable or executable. *)
Definition visible (perm : Z) : Prop := Z.land perm 5 ≠ 0.

Lemma land_lor_ne a b m : Z.land a m ≠ 0 → Z.land (Z.lor a b) m ≠ 0.
Proof. rewrite Z.land_lor_distr_l. by intros Ha [E _]%Z.lor_eq_0_iff. Qed.

Lemma rwx_of_rx p : Z.land p (Z.lor PTE_R PTE_X) ≠ 0 → Z.land p PTE_RWX ≠ 0.
Proof.
  change PTE_RWX with (Z.lor (Z.lor PTE_R PTE_X) PTE_W).
  rewrite (Z.land_lor_distr_r p (Z.lor PTE_R PTE_X) PTE_W).
  by intros Ha [E _]%Z.lor_eq_0_iff.
Qed.

Lemma prot_flags_ok perm fl : visible perm →
  flags_ok (prot_flags perm fl) ∧ entry_result 0 (prot_flags perm fl) = Some (0, prot_flags perm fl) ∧
  prot_flags perm (prot_flags perm fl) = prot_flags perm fl.
Proof.
  intros Hv. set (q := Z.lor perm VM_USER).
  destruct (vm_perm_to_pte_bits q) as (F1 & F2 & F3 & _ & F5).
  destruct (cow_perm_bits (vm_perm_to_pte q) F1) as (C1 & C2 & C3 & C4).
  assert (Z.land (vm_perm_to_pte q) (Z.lor PTE_R PTE_X) ≠ 0) as F6 by (apply F3; by apply land_lor_ne).
  assert (flags_ok PTE_V) as FV by (by vm_compute).
  unfold prot_flags. fold q. unfold entry_result.
  set (c := negb (Z.land q VM_WRITE =? 0)).
  assert (Hcow : ∀ p b, flags_ok p → Z.land p PTE_V ≠ 0 → Z.land p PTE_RWX ≠ 0 →
    flags_ok (Z.lor p PTE_V) ∧
    (if negb (Z.land (Z.lor p PTE_V) PTE_V =? 0) && negb (Z.land (Z.lor p PTE_V) PTE_RWX =? 0)
     then Some (0, Z.lor p PTE_V) else None) = Some (0, Z.lor p PTE_V) ∧
    (Z.land p PTE_COW = b → Z.land (Z.lor p PTE_V) PTE_COW = b)).
  { intros p b P1 P2 P3. split; [by apply flags_lor|].
    rewrite (proj2 (Z.eqb_neq _ 0) (land_lor_ne _ _ _ P2)), (proj2 (Z.eqb_neq _ 0) (land_lor_ne _ _ _ P3)).
    split; [done|]. rewrite Z.land_lor_distr_l. change (Z.land PTE_V PTE_COW) with 0. by rewrite Z.lor_0_r. }
  destruct c; cbn [andb negb].
  - destruct (Z.eqb_spec (Z.land fl PTE_COW) 0) as [E|E]; cbn [negb].
    + destruct (Hcow (vm_perm_to_pte q) 0 F1 F5 (rwx_of_rx _ F6)) as (G1 & G2 & G3).
      split_and!; [done|done|]. by rewrite (G3 F2).
    + destruct (Hcow (cow_perm (vm_perm_to_pte q)) (Z.land (cow_perm (vm_perm_to_pte q)) PTE_COW) C1 (C3 F5) (C4 F6)) as (G1 & G2 & G3).
      split_and!; [done|done|]. rewrite (G3 eq_refl). by rewrite (proj2 (Z.eqb_neq _ 0) C2).
  - by destruct (Hcow (vm_perm_to_pte q) 0 F1 F5 (rwx_of_rx _ F6)) as (G1 & G2 & G3).
Qed.

Lemma entry_result_any pa fl : entry_result 0 fl = Some (0, fl) → entry_result pa fl = Some (pa, fl).
Proof. unfold entry_result. by destruct (_ && _). Qed.

Section protect.
Context {T : Type} `{OrderedTree vma T} {Hot : OrderedTreeSpec vma T}.
Context {A : Type} `{UserPagesSpec A} `{!ObjectHeap A}.
Context {Hheap : ∀ R, HeapKeeps A (λ a, held a R)}.

(** The pages [D] keep their frames and get new flags. *)
Definition reflags (root : Z) (D : Z → Prop) (g : Z → Z) (s s' : pm A) : Prop :=
  ∀ va, (D va → translate root va (pm_ram s') = prod_map id g <$> translate root va (pm_ram s)) ∧
        (¬ D va → translate root va (pm_ram s') = translate root va (pm_ram s)).

(** What a protection with [perm] does to the mapped pages [D]. *)
Definition reprotects (root perm : Z) (D : Z → Prop) (s : pm A) (R : gmap Z Z) (s' : pm A) (R' : gmap Z Z) : Prop :=
  if decide (perm = 0) then drops root D s R s' R' else reflags root D (prot_flags perm) s s' ∧ R' = R.

Lemma reprotects_none root perm s R : reprotects root perm (λ _, False) s R s R.
Proof. unfold reprotects. case_decide; [apply drops_none|]. split; [|done]. by intros va; split. Qed.

Lemma reprotects_iff root perm D D' s R s' R' :
  (∀ va, D va ↔ D' va) → reprotects root perm D s R s' R' → reprotects root perm D' s R s' R'.
Proof.
  intros E. unfold reprotects. case_decide; [by apply drops_iff|]. intros [Hr ->]. split; [|done].
  intros va. destruct (Hr va) as [K1 K2]. split; intros HD; [apply K1|apply K2]; by rewrite E.
Qed.

Lemma reprotects_trans root perm D1 D2 s0 T0 R0 s1 R1 s2 R2 :
  perm = 0 ∨ visible perm → pages_ok root s0 T0 R0 →
  (∀ va va', same_page va va' → D1 va → D1 va') → (∀ va, Decision (D1 va)) → (∀ va, Decision (D2 va)) →
  reprotects root perm D1 s0 R0 s1 R1 → reprotects root perm D2 s1 R1 s2 R2 →
  reprotects root perm (λ va, D1 va ∨ D2 va) s0 R0 s2 R2.
Proof.
  intros Hperm Hp Hcl Hd1 Hd2. unfold reprotects. case_decide as E; [by eapply drops_trans|].
  destruct Hperm as [?|Hv]; [done|]. intros [K1 ->] [K2 ->]. split; [|done].
  intros va. destruct (K1 va) as [K1y K1n], (K2 va) as [K2y K2n]. split.
  - intros HD. destruct (decide (D1 va)) as [d1|d1], (decide (D2 va)) as [d2|d2].
    + rewrite K2y, K1y by done. destruct (translate root va (pm_ram s0)) as [[pa fl]|]; [|done]. cbn.
      by destruct (prot_flags_ok perm fl Hv) as (_ & _ & ->).
    + by rewrite K2n, K1y.
    + by rewrite K2y, K1n.
    + exfalso. tauto.
  - intros Hn. rewrite K2n, K1n by tauto. done.
Qed.
Lemma reflags_pages_ok root D g s s' TT R :
  (∀ va, Decision (D va)) → pages_ok root s TT R → pt_state s' root TT → pm_src s' = pm_src s →
  reflags root D g s s' → pages_ok root s' TT R.
Proof.
  intros Hdec Hp Hst Es Hr.
  assert (Hback : ∀ va pa fl, translate root va (pm_ram s') = Some (pa, fl) →
            ∃ fl', translate root va (pm_ram s) = Some (pa, fl')).
  { intros va pa fl Ht. destruct (Hr va) as [K1 K2]. destruct (decide (D va)) as [d|d].
    - rewrite K1 in Ht by done. destruct (translate root va (pm_ram s)) as [[pa' fl']|]; [|done].
      cbn in Ht. simplify_eq. eauto.
    - rewrite K2 in Ht by done. eauto. }
  split; [done|rewrite Es; apply Hp|apply Hp|..].
  - intros va pa fl (fl' & Ht)%Hback. by eapply po_mapped.
  - intros va va' pa fl1 fl2 (? & K1)%Hback (? & K2)%Hback. by eapply po_inj.
Qed.

Lemma protect_page_ok root perm addr s TT R :
  pages_ok root s TT R → perm = 0 ∨ visible perm →
  ∃ s' R', protect_page root perm (Z.lor perm VM_USER) addr s = Ret (inl s') ∧
           pages_ok root s' TT R' ∧ reprotects root perm (same_page addr) s R s' R'.
Proof.
  intros Hp Hperm. destruct (decide (perm = 0)) as [->|Hne].
  { destruct (unmap_page_ok root addr s TT R Hp) as (s' & R' & E & Hp' & Hd). exists s', R'.
    split_and!; [|done|unfold reprotects; by rewrite decide_True].
    unfold unmap_page in E. unfold protect_page. destruct (lookup root addr (pm_ram s)) as [pa|].
    - cbn [Z.eqb]. destruct (src_do (up_decref pa) s) as [s1| |]; [|done..]. cbn in E |- *. by injection E as <-.
    - by injection E as <-. }
  destruct Hperm as [?|Hv]; [done|]. unfold protect_page.
  rewrite lookup_translate, is_cow_translate.
  destruct (translate root addr (pm_ram s)) as [[pa fl]|] eqn:Et; cbn [fst fmap option_fmap option_map].
  - rewrite (proj2 (Z.eqb_neq _ _)) by done.
    set (pp := if _ : bool then cow_perm _ else _).
    assert (Hpp : prot_flags perm fl = Z.lor pp PTE_V) by done.
    destruct (prot_flags_ok perm fl Hv) as (Hfl & Hres & _). rewrite Hpp in Hres.
    assert (flags_ok pp) as Hpf.
    { unfold pp. destruct (vm_perm_to_pte_bits (Z.lor perm VM_USER)) as (F1 & _). case_match; [|done].
      by apply cow_perm_bits. }
    pose proof (protect_ok root s TT addr pp (po_state _ _ _ _ Hp) Hpf) as K. rewrite Et in K.
    destruct K as (m' & -> & Hst & _ & Hu). cbn. eexists _, R. split; [done|].
    assert (Hr : reflags root (same_page addr) (prot_flags perm) s (mkPm m' (pm_src s))).
    { intros va. cbn [pm_ram]. rewrite Hu, (entry_result_any _ _ Hres). split; intros E.
      - rewrite decide_True by done.
        rewrite <-(translate_same_page root s TT addr va) by (done || apply Hp). by rewrite Et.
      - by rewrite decide_False. }
    split; [|unfold reprotects; by rewrite decide_False]. eapply (reflags_pages_ok root (same_page addr)); [apply _|done|done|done|exact Hr].
  - exists s, R. split_and!; [done..|]. unfold reprotects. rewrite decide_False by done. split; [|done].
    intros va. split; [|done]. intros E.
    rewrite <-(translate_same_page root s TT addr va) by (done || apply Hp). by rewrite Et.
Qed.

Lemma protect_pages_ok root perm a e s TT R :
  pages_ok root s TT R → perm = 0 ∨ visible perm → 0 ≤ a → e ≤ kUserVaLimit →
  ∃ s' R', for_pages (protect_page root perm (Z.lor perm VM_USER)) a e s = Ret (inl s') ∧
           pages_ok root s' TT R' ∧ reprotects root perm (among (pages a e)) s R s' R'.
Proof.
  intros Hp Hperm Ha He. rewrite for_pages_scan by done. revert s R Hp.
  induction (pages a e) as [|x L IH]; intros s R Hp; cbn [scan].
  - exists s, R. split_and!; [done..|]. eapply reprotects_iff; [|apply reprotects_none].
    intros va. split; [done|]. by intros (? & ?%elem_of_nil & _).
  - destruct (protect_page_ok root perm x s TT R Hp Hperm) as (s1 & R1 & -> & Hp1 & Hd1). cbn [mbind outcome_bind].
    destruct (IH s1 R1 Hp1) as (s2 & R2 & -> & Hp2 & Hd2). exists s2, R2. split_and!; [done..|].
    eapply reprotects_iff; [|eapply reprotects_trans;
      [exact Hperm|exact Hp| |intros va; apply same_page_dec|apply among_dec|exact Hd1|exact Hd2]].
    + intros va. by rewrite among_cons.
    + intros va va' E Ex. by etrans.
Qed.

(** ** The areas *)

Definition set_perm (va e p : Z) (v : vma) : vma :=
  if (start v <? e) && (va <? end_ v) then with_perm p v else v.

Lemma set_perm_range va e p v : start (set_perm va e p v) = start v ∧ end_ (set_perm va e p v) = end_ v.
Proof. unfold set_perm. by destruct (_ && _). Qed.

Lemma set_perm_ok va e p l : vmas_ok l → vmas_ok (set_perm va e p <$> l).
Proof.
  induction l as [|v l IH]; [done|]. cbn. rewrite !vmas_ok_cons. intros (Hv & Hl & Hb).
  destruct (set_perm_range va e p v) as [E1 E2]. unfold vma_ok. rewrite E1, E2. split_and!; [by apply Hv..|auto|].
  intros w (w' & -> & Hw)%list_elem_of_fmap. destruct (set_perm_range va e p w') as [-> _]. auto.
Qed.

Lemma set_perm_perms va e p l x : va < e → cut va l → cut e l → (va ≤ x < e → is_Some (perm_at l x)) →
  perm_at (set_perm va e p <$> l) x = if (va <=? x) && (x <? e) then Some p else perm_at l x.
Proof.
  intros Hve Hc1 Hc2. induction l as [|v l IH]; intros Hcov.
  { cbn in *. destruct (Z.leb_spec va x), (Z.ltb_spec x e); cbn; try done. by destruct Hcov. }
  destruct (set_perm_range va e p v) as [E1 E2]. cbn [fmap list_fmap perm_at]. rewrite E1, E2.
  destruct (Hc1 v ltac:(left)) as [C1|C1], (Hc2 v ltac:(left)) as [C2|C2].
  all: destruct (Z.leb_spec (start v) x), (Z.ltb_spec x (end_ v)); cbn [andb].
  all: try (apply IH; [intros w Hw; apply Hc1; by right|intros w Hw; apply Hc2; by right|];
            intros Hx; specialize (Hcov Hx); by rewrite perm_at_skip in Hcov by lia).
  all: unfold set_perm; destruct (Z.leb_spec va x), (Z.ltb_spec x e), (Z.ltb_spec (start v) e), (Z.ltb_spec va (end_ v));
         cbn; (done || lia).
Qed.

Lemma protect_loop_ok root va e perm t a v b s TT R :
  page_aligned va → 0 ≤ va < e → e ≤ kUserVaLimit → perm = 0 ∨ visible perm →
  tree_ok t (a ++ v :: b) → start v = va → cut e (a ++ v :: b) → pages_ok root s TT R →
  ∃ t' s' R', loop 64 (protect_step root va e perm) (Some v, t, s) = inr (Ret (0, t', s')) ∧
    tree_ok t' (set_perm va e (Z.lor perm VM_USER) <$> a ++ v :: b) ∧ pages_ok root s' TT R' ∧
    reprotects root perm (among ((v :: b) ≫= pages_in va e)) s R s' R'.
Proof using Hot Hheap.
  intros Ha Hve Hlim Hperm Ht Hv Hcut Hp. pose proof (to_vmas _ _ Ht) as Hall.
  set (sp := set_perm va e (Z.lor perm VM_USER)).
  assert (Hbefore : sp <$> a = a).
  { apply vmas_ok_app in Hall as (_ & _ & Hab). clear -Hab Hv. subst sp.
    induction a as [|w a IH]; [done|]. cbn. f_equal; [|apply IH; intros; by apply Hab; [right|]].
    unfold set_perm. specialize (Hab w v ltac:(left) ltac:(left)). by rewrite (proj2 (Z.ltb_ge va _)), andb_false_r by lia. }
  destruct (loop_list (protect_step root va e perm)
    (λ k c, c.1.1 = head k ∧ ∃ d R', v :: b = d ++ k ∧ tree_ok c.1.2 (a ++ (sp <$> d) ++ k) ∧
       pages_ok root c.2 TT R' ∧ reprotects root perm (among (d ≫= pages_in va e)) s R c.2 R')
    (λ r, ∃ t' s' R', r = Ret (0, t', s') ∧ tree_ok t' (sp <$> a ++ v :: b) ∧ pages_ok root s' TT R' ∧
       reprotects root perm (among ((v :: b) ≫= pages_in va e)) s R s' R'))
    with (k := 64%nat) (l := v :: b) (s := (Some v, t, s)) as (r & E & t' & s' & R' & -> & Hres).
  - intros [[node t1] s1] (En & d & R1 & Ed & Ht1 & Hp1 & Hd1). cbn [fst snd head] in *. subst node.
    eexists. split; [done|]. rewrite app_nil_r in Ed, Ht1. rewrite <-Ed in *. exists t1, s1, R1.
    rewrite fmap_app, Hbefore. done.
  - intros w k [[node t1] s1] (En & d & R1 & Ed & Ht1 & Hp1 & Hd1). cbn [fst snd head] in *. subst node. cbn [protect_step].
    assert (Hw : w ∈ v :: b) by (rewrite Ed; set_solver).
    assert (Hwok : vma_ok w) by (apply (vmas_ok_elem _ _ Hall); set_solver). destruct Hwok as (W1 & W2 & W3 & W4).
    assert (Hws : va ≤ start w).
    { apply elem_of_cons in Hw as [->|Hw]; [lia|].
      apply vmas_ok_app in Hall as (_ & ((_ & _ & V3 & _) & _ & Hvb)%vmas_ok_cons & _). specialize (Hvb w Hw). lia. }
    destruct (Z.leb_spec e (start w)) as [Hfar|Hnear].
    + (* behind the range: the rest is untouched *)
      exists t1, s1, R1. split; [done|].
      assert (Hk : ∀ y, y ∈ w :: k → e ≤ start y).
      { rewrite app_assoc in Ht1. pose proof (to_vmas _ _ Ht1) as (_ & ((_ & _ & ? & _) & _ & Hwk)%vmas_ok_cons & _)%vmas_ok_app.
        intros y [->|Hy]%elem_of_cons; [done|]. specialize (Hwk y Hy). lia. }
      assert (Hkok : vmas_ok (w :: k)).
      { rewrite app_assoc in Ht1. by apply (to_vmas _ _) in Ht1 as (_ & ? & _)%vmas_ok_app. }
      assert (Hk1 : sp <$> w :: k = w :: k).
      { clear -Hk. subst sp. induction (w :: k) as [|y z IH]; [done|]. cbn. f_equal; [|apply IH; intros; apply Hk; by right].
        unfold set_perm. specialize (Hk y ltac:(left)). by rewrite (proj2 (Z.ltb_ge _ e)) by lia. }
      destruct (cut_out_far_list va e (w :: k)) as [_ Hk2]; [apply Hkok|lia|by auto|].
      rewrite Ed, !fmap_app, Hbefore, Hk1, bind_app, Hk2, app_nil_r. done.
    + rewrite (proj2 (Z.leb_gt _ _)) by lia.
      assert (Hwe : end_ w ≤ e) by (destruct (Hcut w); [set_solver|lia|done]).
      destruct (protect_pages_ok root perm (start w) (end_ w) s1 TT R1 Hp1 Hperm) as (s2 & R2 & -> & Hp2 & Hd2);
        [lia|lia|].
      rewrite app_assoc in Ht1. pose proof Ht1 as [Hh Hok1]%tree_ok_has.
      assert (Esp : sp w = with_perm (Z.lor perm VM_USER) w).
      { unfold sp, set_perm. by rewrite (proj2 (Z.ltb_lt _ _)), (proj2 (Z.ltb_lt va _)) by lia. }
      assert (Ht2 : tree_ok (ot_store (node_of w) (with_perm (Z.lor perm VM_USER)) t1) ((a ++ (sp <$> d)) ++ sp w :: k)).
      { apply tree_ok_has. rewrite Esp. split; [by apply (tree_has_store _ _ _ _ (with_perm _))|].
        apply vmas_ok_app in Hok1 as (? & (? & ? & ?)%vmas_ok_cons & Hx). apply vmas_ok_app. split_and!; [done| |].
        - by apply vmas_ok_cons.
        - intros y z Hy [->|Hz]%elem_of_cons; [by apply (Hx y w Hy); left|by apply Hx; [|right]]. }
      pose proof (ot_next_spec _ _ _ _ _ (to_ok _ _ Ht2) (points_to_mid _ _ _ _ Ht2)) as Hnext.
      unfold node_of in Hnext at 1. rewrite Esp in Hnext. cbn [start with_perm] in Hnext.
      fold (node_of w) in Hnext. split; [exact Hnext|]. exists (d ++ [w]), R2. rewrite <-app_assoc. split; [done|].
      rewrite fmap_app, bind_app. split_and!; [|done|].
      { rewrite <-app_assoc. cbn. by rewrite <-app_assoc in Ht2. }
      assert (Epg : pages_in va e w = pages (start w) (end_ w)).
      { unfold pages_in. by rewrite Z.max_l, Z.min_l by lia. }
      rewrite bind_cons, Epg, app_nil_r.
      eapply reprotects_iff; [|eapply reprotects_trans;
        [exact Hperm|exact Hp|apply among_closed|apply among_dec|apply among_dec|exact Hd1|exact Hd2]].
      intros x. by rewrite among_app.
  - cbn. split; [done|]. exists [], R. split_and!; [done..|]. eapply reprotects_iff; [|apply reprotects_none].
    intros x. split; [done|]. by intros (? & ?%elem_of_nil & _).
  - apply vmas_ok_count. by apply vmas_ok_app in Hall as (_ & ? & _).
  - exists t', s', R'. rewrite E. done.
Qed.
Lemma not_covered l va e :
  ¬ (∀ x, va ≤ x < e → is_Some (perm_at l x)) → ∃ x, va ≤ x < e ∧ perm_at l x = None.
Proof.
  intros Hn. destruct (decide (Exists (λ x, perm_at l x = None) (seqZ va (e - va)))) as [E|E].
  - apply Exists_exists in E as (x & Hx%elem_of_seqZ & E). exists x. split; [lia|done].
  - exfalso. apply Hn. intros x Hx. destruct (perm_at l x) eqn:Ep; [by eexists|]. exfalso. apply E.
    apply Exists_exists. exists x. split; [|done]. apply elem_of_seqZ. lia.
Qed.

Inductive protect_result (sp : VmSpace T) (l : list vma) (s : pm A) (R : gmap Z Z) (va len perm : Z)
  : Z → VmSpace T → list vma → pm A → gmap Z Z → Prop :=
| protect_invalid : len = 0 ∨ ¬ (kUserVaBase ≤ va ∧ va + len ≤ kUserVaLimit) →
    protect_result sp l s R va len perm (- EINVAL) sp l s R
| protect_hole x : va ≤ x < va + len → perm_at l x = None →
    protect_result sp l s R va len perm (- ENOMEM) sp l s R
| protect_nomem sp' l' s' : same_perms l' l → pm_ram s' = pm_ram s → same_space sp sp' →
    protect_result sp l s R va len perm (- ENOMEM) sp' l' s' R
| protect_done sp' l' s' R' :
    0 < len → kUserVaBase ≤ va → va + len ≤ kUserVaLimit →
    (∀ x, va ≤ x < va + len → is_Some (perm_at l x)) →
    perms_set l l' va (va + len) (Some (Z.lor perm VM_USER)) →
    reprotects (root_pa sp) perm (λ va', ∃ x, va ≤ x < va + len ∧ same_page x va') s R s' R' →
    same_space sp sp' → protect_result sp l s R va len perm 0 sp' l' s' R'.

Lemma reprotects_ram root perm D s R s' R' s0 :
  reprotects root perm D s0 R s' R' → pm_ram s0 = pm_ram s → reprotects root perm D s R s' R'.
Proof.
  unfold reprotects, reflags. intros K E. case_decide; [|by rewrite <-E].
  destruct K as [K1 K2 K3 K4]. rewrite E in *. by split.
Qed.

Lemma reprotects_mapped root perm D s R s' R' va pa fl :
  (∀ va, Decision (D va)) → reprotects root perm D s R s' R' → translate root va (pm_ram s') = Some (pa, fl) →
  ∃ fl', translate root va (pm_ram s) = Some (pa, fl').
Proof.
  intros Hdec K Ht. unfold reprotects in K. destruct (decide (perm = 0)), (decide (D va)) as [d|d].
  - by rewrite (dr_gone _ _ _ _ _ _ K) in Ht.
  - rewrite (dr_kept _ _ _ _ _ _ K) in Ht by done. eauto.
  - destruct K as [K _]. rewrite (proj1 (K va) d) in Ht.
    destruct (translate root va (pm_ram s)) as [[pa' fl']|]; [|done]. cbn in Ht. simplify_eq. eauto.
  - destruct K as [K _]. rewrite (proj2 (K va) d) in Ht. eauto.
Qed.

Lemma vmm_protect_user_ok sp s l TT R va len perm :
  space_inv sp s l TT R → is_u64 va → is_u64 len → perm = 0 ∨ visible perm →
  ∃ ret sp' s' l' R', vmm_protect_user sp va len perm s = Ret (ret, sp', s') ∧ space_inv sp' s' l' TT R' ∧
    protect_result sp l s R (page_align_down va) (page_align_up len) perm ret sp' l' s' R'.
Proof using Hot Hheap.
  intros Hinv Hva Hlen Hperm. pose proof Hinv as [Ht Hp Hin]. unfold vmm_protect_user.
  destruct (page_align_down_range va Hva) as [Hva' Hal]. destruct (page_align_up_range len Hlen) as [Hlen' Hal'].
  set (va' := page_align_down va) in *. set (len' := page_align_up len) in *. clearbody va' len'. clear Hva Hlen.
  destruct (Z.eqb_spec len' 0) as [->|Hne].
  { exists (- EINVAL), sp, s, l, R. split_and!; [done|done|]. apply protect_invalid. by left. }
  destruct (range_bad va' len') eqn:Eb.
  { exists (- EINVAL), sp, s, l, R. split_and!; [done|done|]. apply protect_invalid. right. by apply range_bad_invalid. }
  destruct (range_good va' len' Hva' Hlen' Hal' Eb) as (Ew & G1 & G2). rewrite Ew.
  assert (0 < len') as Hpos by (unfold is_u64 in *; lia). pose proof kUserVaLimit_val as HL.
  assert (page_aligned (va' + len')) as Hale.
  { unfold page_aligned, kPageSize in *. rewrite Z.add_mod, Hal, Hal' by lia. done. }
  destruct (vma_range_covered_locked_ok (vma_tree sp) l va' (va' + len') Ht) as (c & -> & Hc). cbn [mbind outcome_bind].
  destruct c; cbn [negb].
  2: { destruct (not_covered l va' (va' + len')) as (x & Hx & Hnone); [by intros ?%Hc|].
       exists (- ENOMEM), sp, s, l, R. split_and!; [done|done|]. by eapply protect_hole. }
  destruct Hc as [Hcov _]. specialize (Hcov eq_refl).
  destruct (split_range_ok (I := λ a, held a R) (vma_tree sp) l va' (va' + len') (pm_src s))
    as (ret & t1 & a1 & l1 & -> & Hh1 & Ht1 & Hsame & Hr); [done..|unfold is_u64 in *; lia|lia|done|apply Hp|].
  cbn [mbind outcome_bind].
  assert (Hp1 : pages_ok (root_pa sp) (mkPm (pm_ram s) a1) TT R) by by apply pages_ok_src.
  destruct Hr as [(-> & Hcut1 & Hcut2)| ->]; cbn [Z.ltb Z.compare].
  2: { eexists (- ENOMEM), _, _, l1, R. split; [done|]. split; [split; cbn [with_tree root_pa vma_tree pm_ram]; [done|done|]|].
       - intros x pa fl Hx. destruct (Hin x pa fl Hx) as (y & Hy & Hpy). exists y. by rewrite Hsame.
       - by apply protect_nomem. }
  destruct (Hcov va' ltac:(lia)) as [p Hpv]. rewrite <-Hsame in Hpv.
  apply perm_at_Some in Hpv as (a & v & b & -> & Hv & _).
  assert (start v = va') as Hvs by (destruct (Hcut1 v); [set_solver|lia|lia]).
  rewrite (vma_find_here t1 a v b va' Ht1 Hv).
  destruct (protect_loop_ok (root_pa sp) va' (va' + len') perm t1 a v b (mkPm (pm_ram s) a1) TT R)
    as (t2 & s2 & R2 & -> & Ht2 & Hp2 & Hd2); [done|unfold is_u64 in *; lia|lia|done..|]. cbn [mbind outcome_bind].
  assert (Hset : perms_set l (set_perm va' (va' + len') (Z.lor perm VM_USER) <$> a ++ v :: b) va' (va' + len')
                   (Some (Z.lor perm VM_USER))).
  { intros x. rewrite set_perm_perms; [by rewrite Hsame|lia|done|done|]. intros Hx. rewrite Hsame. by apply Hcov. }
  apply (reprotects_ram _ _ _ s) in Hd2; [|done].
  eexists 0, _, s2, _, R2. split; [done|]. split; [split; cbn [with_tree root_pa vma_tree]; [exact Ht2|done|]|].
  - intros x pa fl Hx. apply (reprotects_mapped _ _ _ _ _ _ _ _ _ _ (among_dec _) Hd2) in Hx as (fl' & Hx).
    destruct (Hin x pa fl' Hx) as (y & Hy & Hpy). exists y. split; [done|]. rewrite Hset. by destruct (_ && _).
  - apply protect_done; try done. eapply reprotects_iff; [|exact Hd2]. intros x.
    assert (Hvb : vmas_ok (v :: b)) by by apply (to_vmas _ _) in Ht1 as (_ & ? & _)%vmas_ok_app.
    rewrite among_pages_in by done. split; [by intros (y & Hy & _ & E); eauto|].
    intros (y & Hy & E). exists y. split_and!; [lia|lia| |done].
    destruct (Hcov y Hy) as [q Hq]. rewrite <-Hsame, perm_at_app in Hq.
    rewrite (perm_at_none a) in Hq; [by eexists|]. intros w Hw.
    apply (to_vmas _ _), vmas_ok_app in Ht1 as (_ & _ & Hab). specialize (Hab w v Hw ltac:(left)). lia.
Qed.
End protect.
