(* ===== verification/VmaFault.v ===== *)
(** * VmaFault: demand paging and copy-on-write

    [vmm_handle_page_fault] of [na/mm/vma.cc]: a first access maps a fresh
    page, a write to a copy-on-write page gives the space a private copy, and
    an access outside the areas or against their permissions is refused. *)

From S2P Require Import Prelude Bits RBTree Pmap UserPages VmaTree Vma VmaPages VmaOps VmaProtect.

(** ** Copying a page *)

Lemma copy_page_get dst src m t i :
  page_aligned dst → page_aligned src → dst ≠ src → page_aligned t → 0 ≤ i < kPtePerPage →
  pte_get (copy_page dst src m) t i = if decide (t = dst) then pte_get m src i else pte_get m t i.
Proof.
  intros Hd Hs Hne Ht Hi. unfold copy_page.
  assert (Hgen : ∀ l m, Forall (λ j, 0 ≤ j < kPtePerPage) l →
    let m' := foldl (λ m i, pte_set dst i (pte_get m src i) m) m l in
    (∀ j, 0 ≤ j < kPtePerPage → pte_get m' src j = pte_get m src j) ∧
    pte_get m' t i = if decide (t = dst ∧ i ∈ l) then pte_get m src i else pte_get m t i).
  { clear m. induction l as [|j l IH]; intros m Hl; cbn [foldl].
    - split; [done|]. rewrite decide_False; [done|]. by intros [_ ?%elem_of_nil].
    - apply Forall_cons in Hl as [Hj Hl]. destruct (IH (pte_set dst j (pte_get m src j) m) Hl) as [IH1 IH2].
      assert (Hsrc : ∀ k, 0 ≤ k < kPtePerPage → pte_get (pte_set dst j (pte_get m src j) m) src k = pte_get m src k).
      { intros k Hk. rewrite pte_get_set by done. rewrite decide_False; [done|]. by intros [? _]. }
      split; [intros k Hk; by rewrite IH1, Hsrc|].
      rewrite IH2, Hsrc, pte_get_set by done. destruct (decide (t = dst ∧ i ∈ l)) as [[-> Hin]|Hn].
      + rewrite decide_True; [done|]. split; [done|by right].
      + destruct (decide (dst = t ∧ j = i)) as [[-> ->]|Hn'].
        * rewrite decide_True; [done|]. split; [done|left].
        * rewrite decide_False; [done|]. intros [-> [->|?]%elem_of_cons]; [by apply Hn'|by apply Hn]. }
  destruct (Hgen (seqZ 0 kPtePerPage) m) as [_ ->].
  { apply Forall_forall. intros j ?%elem_of_seqZ. lia. }
  destruct (decide (t = dst)) as [->|Hn]; [rewrite decide_True; [done|]; split; [done|apply elem_of_seqZ; lia]|].
  rewrite decide_False; [done|]. by intros [? _].
Qed.

Section fault.
Context {T : Type} `{OrderedTree vma T} {Hot : OrderedTreeSpec vma T}.
Context {A : Type} `{UserPagesSpec A}.

(** Memory changed outside the tables only. *)
Lemma pt_state_frame root m m' a TT :
  pt_state (mkPm m a) root TT →
  (∀ p t i, TT !! p = Some t → 0 ≤ i < kPtePerPage → pte_get m' t i = pte_get m t i) →
  pt_state (mkPm m' a) root TT ∧ ∀ va, translate root va m' = translate root va m.
Proof.
  intros Hst Hsame. pose proof Hst as [[W1 W2 W3 W4 W5 W6 W7] S2 S3 S4]. cbn [pm_ram pm_src] in *.
  split; [|intros va; unfold translate; by rewrite (find_leaf_frame m m' root TT (st_wf _ _ _ Hst))].
  split; cbn [pm_ram pm_src]; [split; try done| |done|done].
  - intros p t i c Hp Hc. rewrite (Hsame p t) by (done || by eapply W5). by eapply W6.
  - intros p t i Hp Hl Hi Hn. rewrite (Hsame p t) by done. by eapply W7.
  - intros p t i Hp Hl Hi Hn. rewrite (Hsame p t) by done. by eapply S2.
Qed.

(** References after the tables grew: what was held is held, what is new are tables. *)
Record refs_grow (TT' : tables) (R R' : gmap Z Z) : Prop := {
  rg_kept x n : R !! x = Some n → R' !! x = Some n;
  rg_new x n : R' !! x = Some n → R !! x = Some n ∨ n = 1 ∧ ∃ p, TT' !! p = Some x;
}.

Lemma refs_grow_refl TT R : refs_grow TT R R.
Proof. split; auto. Qed.

Definition refs_inv (R : gmap Z Z) (a : A) (TT' : tables) : Prop :=
  ∃ R', held a R' ∧ (∀ p t, TT' !! p = Some t → R' !! t = Some 1) ∧ refs_grow TT' R R'.

Lemma refs_inv_closed R : source_closed (refs_inv R).
Proof.
  split.
  - intros a TT p pa a' Hok (R' & Hh & Ht & [G1 G2]) Hp Ha.
    destruct (ps_alloc_some _ _ _ Hok Ha) as (_ & _ & Hdead & _).
    assert (Hfresh : ∀ n, R' !! pa ≠ Some n) by (intros n Hn; apply Hdead; by eapply held_live).
    exists (<[pa := 1]> R'). split_and!.
    + by apply (held_table a R' (Some pa) a').
    + intros q t [[<- <-]|[Hne Hq]]%lookup_insert_Some; [apply lookup_insert_eq|].
      rewrite lookup_insert_ne; [by eapply Ht|]. intros ->. by eapply (Hfresh 1), Ht.
    + split.
      * intros x n Hx. rewrite lookup_insert_ne; [by apply G1|]. intros ->. by eapply Hfresh, G1.
      * intros x n [[<- <-]|[Hne Hx]]%lookup_insert_Some.
        -- right. split; [done|]. exists p. apply lookup_insert_eq.
        -- destruct (G2 x n Hx) as [?|[-> [q Hq]]]; [by left|right]. split; [done|]. exists q.
           rewrite lookup_insert_ne; [done|]. intros ->. by rewrite Hp in Hq.
  - intros a TT a' Hok (R' & Hh & Ht & G) Ha. exists R'. split_and!; [|done|done].
    by apply (held_table a R' None a').
Qed.

(** [pmap::map] of a page the space holds and has mapped nowhere else. *)
Lemma map_page_ok root s TT R va pa perm n :
  pages_ok root s TT R → R !! pa = Some n → (∀ p, TT !! p ≠ Some pa) → flags_ok perm →
  (∀ va' fl, translate root va' (pm_ram s) = Some (pa, fl) → same_page va va') →
  ∃ r s' TT' R', map root va pa perm s = Ret (r, s') ∧ TT ⊆ TT' ∧ pages_ok root s' TT' R' ∧
    refs_grow TT' R R' ∧ keeps_data s TT s' TT' ∧
    ((r = - ENOMEM ∧ ∀ va', translate root va' (pm_ram s') = translate root va' (pm_ram s)) ∨
     (r = 0 ∧ updates root va (entry_result pa (leaf_flags perm)) (pm_ram s) (pm_ram s'))).
Proof.
  intros Hp Hpa Hnt Hfl Hinj. pose proof Hp as [Hst Hh Htab Hmap Hpi].
  destruct (held_ok _ _ Hh) as [_ Hret]. destruct (map_total root s TT va pa perm Hret Hst) as (r & s' & E).
  destruct (held_live _ _ pa n Hh Hpa) as ((Hal & Hr) & Hlive & _).
  destruct (map_ok root s TT va pa perm r s' Hst Hal ltac:(lia) Hfl E) as (TT' & Hst' & Hsub & Hkd & Hres & HG).
  destruct (HG (refs_inv R) (refs_inv_closed R)) as (R' & Hh' & Htab' & Hg); [exists R; auto using refs_grow_refl|].
  assert (Hdata : ∀ x m, R !! x = Some m → (∀ p, TT !! p ≠ Some x) → ∀ p, TT' !! p ≠ Some x).
  { intros x m Hx Hnx. destruct (held_live _ _ x m Hh Hx) as (Hx1 & Hx2 & _).
    by apply (kd_page _ _ _ _ Hkd x). }
  exists r, s', TT', R'. split_and!; [done|done| |done|done|by destruct Hres as [[-> ?]|[-> ?]]; [left|right]].
  assert (Hold : ∀ va' pa' fl', translate root va' (pm_ram s') = Some (pa', fl') →
    (∃ fl, translate root va' (pm_ram s) = Some (pa', fl)) ∧ (pa' = pa → same_page va va') ∨ pa' = pa ∧ same_page va va').
  { intros va' pa' fl'. destruct Hres as [[_ Hsame]|[_ Hu]].
    - rewrite Hsame. intros Ht. left. split; [eauto|]. intros ->. by eapply Hinj.
    - rewrite Hu. case_decide as Esp.
      + intros Ht. right. split; [|done]. unfold entry_result in Ht. by destruct (_ && _); simplify_eq.
      + intros Ht. left. split; [eauto|]. intros ->. by eapply Hinj. }
  split; [done|done|done|..].
  - intros va' pa' fl' [[[fl Ht] _]|[-> _]]%Hold.
    + destruct (Hmap _ _ _ Ht) as [[m Hm] Hn]. split; [|by eapply Hdata]. exists m. by eapply rg_kept.
    + split; [|by eapply Hdata]. exists n. by eapply rg_kept.
  - intros va1 va2 pa' fl1 fl2 [[[f1 T1] S1]|[-> S1]]%Hold [[[f2 T2] S2]|[E2 S2]]%Hold.
    + by eapply Hpi.
    + etrans; [symmetry; by apply S1|done].
    + etrans; [symmetry; exact S1|by apply S2].
    + by etrans; [symmetry|].
Qed.
(** A change of the count of one page that the space does not use. *)
Lemma pages_ok_change root s TT R a' R' x :
  pages_ok root s TT R → held a' R' → (∀ y, y ≠ x → R' !! y = R !! y) →
  (∀ p, TT !! p ≠ Some x) → (∀ va fl, translate root va (pm_ram s) ≠ Some (x, fl)) →
  pages_ok root (mkPm (pm_ram s) a') TT R'.
Proof.
  intros [S1 S2 S3 S4 S5] Hh Hy Hnt Hnm.
  assert (Ht : ∀ p t, TT !! p = Some t → R' !! t = Some 1).
  { intros p t Hp. rewrite Hy; [by eapply S3|]. intros ->. by eapply Hnt. }
  split; cbn [pm_ram pm_src]; [|done|done| |done].
  - apply (pt_state_held root (pm_ram s) (pm_src s) a' TT R'); [by destruct s|done..].
  - intros va pa fl Hva. destruct (S4 va pa fl Hva) as [[n Hn] Hp]. split; [|done]. exists n.
    rewrite Hy; [done|]. intros ->. by eapply Hnm.
Qed.

(** A page just allocated: held once, used by nobody. *)
Lemma fresh_page root s TT R pa :
  pages_ok root s TT R → page_ok pa → ¬ ps_live (pm_src s) pa →
  R !! pa = None ∧ (∀ p, TT !! p ≠ Some pa) ∧ ∀ va fl, translate root va (pm_ram s) ≠ Some (pa, fl).
Proof.
  intros Hp Hpa Hd. assert (Hn : ∀ n, R !! pa ≠ Some n).
  { intros n Hn. apply Hd. by eapply held_live; [apply Hp|]. }
  split_and!.
  - destruct (R !! pa) eqn:E; [|done]. by destruct (Hn z).
  - intros p Hpp. by eapply Hn, po_tables.
  - intros va fl Ht. destruct (po_mapped _ _ _ _ Hp _ _ _ Ht) as [[n ?] _]. by eapply Hn.
Qed.

(** Mapping a fresh page at the fault address, or giving it back. *)
Lemma fault_map_ok root s TT R va pa perm a' :
  pages_ok root s TT R → page_ok pa → ¬ ps_live (pm_src s) pa → held a' (<[pa := 1]> R) →
  flags_ok perm → (∀ va fl, translate root va (pm_ram s) ≠ Some (pa, fl)) →
  ∃ r s' TT' R', map root va pa perm (mkPm (pm_ram s) a') = Ret (r, s') ∧ TT ⊆ TT' ∧ pages_ok root s' TT' R' ∧
    refs_grow TT' (<[pa := 1]> R) R' ∧
    (∀ x n, R !! x = Some n ∨ x = pa → (∀ p, TT !! p ≠ Some x) → ∀ p, TT' !! p ≠ Some x) ∧
    (∀ x n i, R !! x = Some n ∨ x = pa → (∀ p, TT !! p ≠ Some x) → 0 ≤ i < kPtePerPage →
       pte_get (pm_ram s') x i = pte_get (pm_ram s) x i) ∧
    ((r = - ENOMEM ∧ ∀ va', translate root va' (pm_ram s') = translate root va' (pm_ram s)) ∨
     (r = 0 ∧ updates root va (entry_result pa (leaf_flags perm)) (pm_ram s) (pm_ram s'))).
Proof.
  intros Hp Hpa Hdead Hh Hfl Hnm. destruct (fresh_page root s TT R pa Hp Hpa Hdead) as (Hn & Hnt & _).
  assert (Hp1 : pages_ok root (mkPm (pm_ram s) a') TT (<[pa := 1]> R)).
  { apply (pages_ok_change root s TT R a' _ pa); [done|done| |done|done].
    intros y Hy. by rewrite lookup_insert_ne. }
  destruct (map_page_ok root (mkPm (pm_ram s) a') TT (<[pa := 1]> R) va pa perm 1) as (r & s' & TT' & R' & E & Hsub & Hp' & Hg & Hkd & Hres);
    [done|apply lookup_insert_eq|done|done|by intros va' fl ?%Hnm|].
  exists r, s', TT', R'.
  assert (Hdata : ∀ x n, R !! x = Some n ∨ x = pa → (∀ p, TT !! p ≠ Some x) → data_page (mkPm (pm_ram s) a') TT x).
  { intros x n Hx Hxt. assert (∃ n, (<[pa := 1]> R) !! x = Some n) as [m Hm].
    { destruct (decide (x = pa)) as [->|Hne]; [exists 1; apply lookup_insert_eq|].
      destruct Hx as [Hx|?]; [|done]. exists n. by rewrite lookup_insert_ne. }
    destruct (held_live _ _ x m Hh Hm) as (? & ? & _). done. }
  split_and!; [done..| | |done].
  - intros x n Hx Hxt p. by apply (kd_page _ _ _ _ Hkd x), (Hdata x n).
  - intros x n i Hx Hxt Hi. apply (kd_words _ _ _ _ Hkd x i); [|done]. by eapply Hdata.
Qed.

(** Giving the fresh page back when its mapping failed. *)
Lemma fault_undo_ok root (s : pm A) R s' TT' R' pa :
  pages_ok root s' TT' R' → R !! pa = None → refs_grow TT' (<[pa := 1]> R) R' → (∀ p, TT' !! p ≠ Some pa) →
  (∀ va fl, translate root va (pm_ram s) ≠ Some (pa, fl)) →
  (∀ va', translate root va' (pm_ram s') = translate root va' (pm_ram s)) →
  ∃ s'', src_do (up_free pa) s' = Ret s'' ∧ pages_ok root s'' TT' (delete pa R') ∧ pm_ram s'' = pm_ram s' ∧
         ∀ x n, R !! x = Some n → delete pa R' !! x = Some n.
Proof.
  intros Hp Hn [G1 G2] Hnt Hnm Hsame. assert (Hpa : R' !! pa = Some 1) by (apply G1, lookup_insert_eq).
  destruct (up_free_ok (pm_src s') R' pa (po_held _ _ _ _ Hp) Hpa) as (a'' & E & Hh).
  unfold src_do. rewrite E. cbn. eexists. split; [done|]. split_and!; [|done|].
  - apply (pages_ok_change root s' TT' R' a'' _ pa); [done|done| |done|].
    + intros y Hy. by rewrite lookup_delete_ne.
    + intros va fl. rewrite Hsame. apply Hnm.
  - intros x n Hx. rewrite lookup_delete_ne by congruence. apply G1. rewrite lookup_insert_ne; [done|congruence].
Qed.

Definition perm_allows (p : Z) (cause : VmFaultCause) : bool := vma_allows (mkVma 0 0 p) cause.

(** What the handler can do to the page of [addr]. *)
Inductive fault_result (root : Z) (l : list vma) (s : pm A) (TT : tables) (R : gmap Z Z) (addr : Z) (cause : VmFaultCause)
  : Z → pm A → gmap Z Z → Prop :=
| fault_refused :
    (∀ p, perm_at l addr = Some p → perm_allows p cause = false) →
    fault_result root l s TT R addr cause (- EFAULT) s R
| fault_present p pa fl :
    perm_at l addr = Some p → perm_allows p cause = true → translate root addr (pm_ram s) = Some (pa, fl) →
    cause ≠ Write ∨ Z.land fl PTE_COW = 0 → fault_result root l s TT R addr cause 0 s R
| fault_nomem s' R' :
    (∀ va, translate root va (pm_ram s') = translate root va (pm_ram s)) →
    (∀ x n, R !! x = Some n → R' !! x = Some n) →
    fault_result root l s TT R addr cause (- ENOMEM) s' R'
| fault_demand p pa s' R' :
    perm_at l addr = Some p → perm_allows p cause = true → translate root addr (pm_ram s) = None →
    ¬ ps_live (pm_src s) pa → R' !! pa = Some 1 → (∀ x n, R !! x = Some n → R' !! x = Some n) →
    updates root addr (Some (pa, leaf_flags (vm_perm_to_pte p))) (pm_ram s) (pm_ram s') →
    (∀ i, 0 ≤ i < kPtePerPage → pte_get (pm_ram s') pa i = pte_get (pm_ram s) pa i) →
    fault_result root l s TT R addr cause 0 s' R'
| fault_cow p old fl pa s' R' :
    perm_at l addr = Some p → perm_allows p Write = true → cause = Write →
    translate root addr (pm_ram s) = Some (old, fl) → Z.land fl PTE_COW ≠ 0 →
    ¬ ps_live (pm_src s) pa → R' !! pa = Some 1 → R' !! old = drop_ref old R !! old →
    (∀ x n, R !! x = Some n → x ≠ old → R' !! x = Some n) →
    updates root addr (Some (pa, leaf_flags (vm_perm_to_pte p))) (pm_ram s) (pm_ram s') →
    (∀ i, 0 ≤ i < kPtePerPage → pte_get (pm_ram s') pa i = pte_get (pm_ram s) old i) →
    fault_result root l s TT R addr cause 0 s' R'.

Lemma leaf_perm_ok p cause pa : perm_allows p cause = true →
  flags_ok (vm_perm_to_pte p) ∧
  entry_result pa (leaf_flags (vm_perm_to_pte p)) = Some (pa, leaf_flags (vm_perm_to_pte p)).
Proof.
  intros Ha. destruct (vm_perm_to_pte_bits p) as (F1 & _ & _ & F4 & F5). split; [done|].
  assert (Z.land p 7 ≠ 0) as H7.
  { intros E. assert (Hz : ∀ b, Z.land 7 b = b → Z.land p b = 0).
    { intros b Hb. rewrite <-Hb, Z.land_assoc, E. apply Z.land_0_l. }
    unfold perm_allows, vma_allows in Ha. cbn [perm] in Ha. by destruct cause; rewrite Hz in Ha. }
  unfold entry_result, leaf_flags.
  do 2 (rewrite (proj2 (Z.eqb_neq _ 0)); [|do 3 apply land_lor_ne; by auto]). done.
Qed.

(** The new mapping at the fault keeps the invariant of the space. *)
Lemma fault_inside sp (s s' : pm A) l TT' R' addr pa fl p :
  tree_ok (vma_tree sp) l → pages_ok (root_pa sp) s' TT' R' → perm_at l addr = Some p →
  (∀ va pa fl, translate (root_pa sp) va (pm_ram s) = Some (pa, fl) → ∃ x, same_page x va ∧ is_Some (perm_at l x)) →
  updates (root_pa sp) addr (Some (pa, fl)) (pm_ram s) (pm_ram s') → space_inv sp s' l TT' R'.
Proof.
  intros Ht Hp Hpa Hin Hu. split; [done..|]. intros va pa' fl'. rewrite Hu. case_decide as E.
  - intros _. exists addr. split; [done|by eexists].
  - apply Hin.
Qed.

Lemma updates_same_page root a b new m m' : same_page a b → updates root a new m m' → updates root b new m m'.
Proof.
  intros E Hu va. rewrite Hu. case_decide as E1; case_decide as E2; try done; exfalso; [apply E2|apply E1].
  - by etrans; [symmetry|].
  - by etrans.
Qed.

Definition kept_words (R : gmap Z Z) (TT : tables) (s s' : pm A) : Prop :=
  ∀ x n i, R !! x = Some n → (∀ p, TT !! p ≠ Some x) → 0 ≤ i < kPtePerPage →
    pte_get (pm_ram s') x i = pte_get (pm_ram s) x i.

(** The space after [map] ran out of memory and the page was given back. *)
Lemma fault_fail_ok sp l s TT R s2 TT2 R2 pa addr cause :
  space_inv sp s l TT R → R !! pa = None → (∀ va fl, translate (root_pa sp) va (pm_ram s) ≠ Some (pa, fl)) →
  pages_ok (root_pa sp) s2 TT2 R2 → refs_grow TT2 (<[pa := 1]> R) R2 → (∀ p, TT2 !! p ≠ Some pa) →
  (∀ va', translate (root_pa sp) va' (pm_ram s2) = translate (root_pa sp) va' (pm_ram s)) →
  ∃ s' R', src_do (up_free pa) s2 = Ret s' ∧ space_inv sp s' l TT2 R' ∧ pm_ram s' = pm_ram s2 ∧
    fault_result (root_pa sp) l s TT R addr cause (- ENOMEM) s' R'.
Proof.
  intros [Ht Hp Hin] Hn Hnm Hp2 Hg Hnt2 Hsame.
  destruct (fault_undo_ok (root_pa sp) s R s2 TT2 R2 pa Hp2 Hn Hg Hnt2 Hnm Hsame) as (s' & E & Hp' & Er & Hk).
  exists s', (delete pa R2). split_and!; [done| |done|].
  - split; [done|done|]. intros va pa' fl'. rewrite Er, Hsame. apply Hin.
  - apply fault_nomem; [|done]. intros va. by rewrite Er, Hsame.
Qed.

Lemma fault_fresh_ok sp s l TT R addr cause p :
  space_inv sp s l TT R → same_page (page_align_down addr) addr →
  perm_at l addr = Some p → perm_allows p cause = true → translate (root_pa sp) addr (pm_ram s) = None →
  ∃ ret s' TT' R', fault_fresh (root_pa sp) (page_align_down addr) (vm_perm_to_pte p) s = Ret (ret, s') ∧
    space_inv sp s' l TT' R' ∧ fault_result (root_pa sp) l s TT R addr cause ret s' R' ∧ kept_words R TT s s'.
Proof.
  intros Hinv Esp Epa Eal Et. pose proof Hinv as [Ht Hp Hin]. set (root := root_pa sp) in *. unfold fault_fresh.
  destruct (up_alloc_ok (pm_src s) R (po_held _ _ _ _ Hp)) as (r & a1 & -> & Hr1). cbn [mbind outcome_bind].
  destruct r as [pa|].
  2: { exists (- ENOMEM), (mkPm (pm_ram s) a1), TT, R. split_and!; [done| |by apply fault_nomem|by intros ??????].
       split; [done|by apply pages_ok_src|done]. }
  destruct Hr1 as (Hpa & Hdead & Hh). destruct (fresh_page root s TT R pa Hp Hpa Hdead) as (Hn & Hnt & Hnm).
  destruct (leaf_perm_ok p cause pa Eal) as [Hfl Hent].
  destruct (fault_map_ok root s TT R (page_align_down addr) pa (vm_perm_to_pte p) a1) as
    (ret & s2 & TT2 & R2 & -> & Hsub & Hp2 & Hg & Hnt2 & Hw & Hres); [done..|]. cbn [mbind outcome_bind].
  destruct Hres as [[-> Hsame]|[-> Hu]].
  - destruct (fault_fail_ok sp l s TT R s2 TT2 R2 pa addr cause) as (s' & R' & -> & Hi & Er & Hf); [done..|by apply (Hnt2 pa 1); auto|done|].
    cbn. exists (- ENOMEM), s', TT2, R'. split_and!; [done|done|done|]. intros x n i Hx Hxt Hi'. rewrite Er. eapply Hw; eauto.
  - cbn. exists 0, s2, TT2, R2. rewrite Hent in Hu. apply (updates_same_page _ _ _ _ _ _ Esp) in Hu.
    split_and!; [done|by eapply fault_inside| |intros x n i Hx Hxt Hi'; eapply Hw; eauto].
    eapply (fault_demand root l s TT R addr cause p pa); try done.
    + apply (rg_kept _ _ _ Hg), lookup_insert_eq.
    + intros x n Hx. apply (rg_kept _ _ _ Hg). rewrite lookup_insert_ne; [done|congruence].
    + intros i Hi. eapply (Hw pa 1); auto.
Qed.

(** Copying into a page that is neither a table nor mapped. *)
Lemma with_ram_src f (s : pm A) (a : A) : with_ram f (mkPm (pm_ram s) a) = mkPm (pm_ram (with_ram f s)) a.
Proof. done. Qed.

Lemma copy_fresh_ok root s TT R pa old :
  pages_ok root s TT R → page_ok pa → page_aligned old → pa ≠ old → (∀ p, TT !! p ≠ Some pa) →
  ∃ s1, with_ram (copy_page pa old) s = s1 ∧ pm_src s1 = pm_src s ∧
  pages_ok root s1 TT R ∧ (∀ va, translate root va (pm_ram s1) = translate root va (pm_ram s)) ∧
  ∀ t i, page_aligned t → 0 ≤ i < kPtePerPage →
    pte_get (pm_ram s1) t i = if decide (t = pa) then pte_get (pm_ram s) old i else pte_get (pm_ram s) t i.
Proof.
  intros Hp Hpa Halo Hne Hnt. unfold with_ram.
  assert (Hcp : ∀ t i, page_aligned t → 0 ≤ i < kPtePerPage → pte_get (copy_page pa old (pm_ram s)) t i =
    if decide (t = pa) then pte_get (pm_ram s) old i else pte_get (pm_ram s) t i).
  { intros. by apply copy_page_get; [apply Hpa|..]. }
  remember (copy_page pa old (pm_ram s)) as m1. clear Heqm1. exists (mkPm m1 (pm_src s)).
  destruct (pt_state_frame root (pm_ram s) m1 (pm_src s) TT) as [Hst Htr].
  { destruct s. apply Hp. }
  { intros q t i Hq Hi. rewrite Hcp by (done || by eapply wf_aligned; [apply Hp|]).
    rewrite decide_False; [done|]. intros ->. by eapply Hnt. }
  split_and!; [done|done| |done|done].
  split; cbn [pm_ram pm_src]; [done|apply Hp|apply Hp|intros va; rewrite Htr; apply Hp|intros va va'; rewrite !Htr; apply Hp].
Qed.

Lemma fault_copy_ok sp s l TT R addr p old fl :
  space_inv sp s l TT R → same_page (page_align_down addr) addr →
  perm_at l addr = Some p → perm_allows p Write = true →
  translate (root_pa sp) addr (pm_ram s) = Some (old, fl) → Z.land fl PTE_COW ≠ 0 →
  ∃ ret s' TT' R', fault_copy (root_pa sp) (page_align_down addr) old (vm_perm_to_pte p) s = Ret (ret, s') ∧
    space_inv sp s' l TT' R' ∧ fault_result (root_pa sp) l s TT R addr Write ret s' R' ∧ kept_words R TT s s'.
Proof.
  intros Hinv Esp Epa Eal Et Hcow. pose proof Hinv as [Ht Hp Hin]. set (root := root_pa sp) in *. unfold fault_copy.
  destruct (up_alloc_ok (pm_src s) R (po_held _ _ _ _ Hp)) as (r & a1 & -> & Hr1). cbn [mbind outcome_bind].
  destruct r as [pa|].
  2: { exists (- ENOMEM), (mkPm (pm_ram s) a1), TT, R. split_and!; [done| |by apply fault_nomem|by intros ??????].
       split; [done|by apply pages_ok_src|done]. }
  destruct Hr1 as (Hpa & Hdead & Hh). destruct (fresh_page root s TT R pa Hp Hpa Hdead) as (Hn & Hnt & Hnm).
  destruct (leaf_perm_ok p Write pa Eal) as [Hfl Hent].
  destruct (po_mapped _ _ _ _ Hp _ _ _ Et) as [[n Hold] Holdt].
  assert (pa ≠ old) as Hne by congruence.
  destruct (held_live _ _ old n (po_held _ _ _ _ Hp) Hold) as ((Halo & _) & _ & _).
  destruct (copy_fresh_ok root s TT R pa old Hp Hpa Halo Hne Hnt) as (sc & Esc & Esrc & Hpc & Htr & Hcp).
  rewrite (with_ram_src (copy_page pa old) s a1), Esc. clear Esc. pose proof Hdead as Hdead'. rewrite <-Esrc in Hdead.
  destruct (fault_map_ok root sc TT R (page_align_down addr) pa (vm_perm_to_pte p) a1) as
    (ret & s2 & TT2 & R2 & E2 & Hsub & Hp2 & Hg & Hnt2 & Hw & Hres);
    [exact Hpc|exact Hpa|exact Hdead|exact Hh|exact Hfl|intros va fl'; rewrite Htr; apply Hnm|].
  rewrite E2. cbn [mbind outcome_bind].
  assert (Hwords : ∀ s', pm_ram s' = pm_ram s2 → kept_words R TT s s').
  { intros s' E x m i Hx Hxt Hi. rewrite E, (Hw x m i) by auto.
    rewrite Hcp, decide_False; [done|congruence| |done]. by eapply (held_live _ _ x m (po_held _ _ _ _ Hp)). }
  destruct Hres as [[-> Hsame]|[-> Hu]].
  - destruct (fault_fail_ok sp l s TT R s2 TT2 R2 pa addr Write) as (s' & R' & -> & Hi & Er & Hf);
      [done..|by apply (Hnt2 pa 1); auto|by intros va; rewrite Hsame, Htr|].
    cbn. exists (- ENOMEM), s', TT2, R'. split_and!; [done|done|done|by apply Hwords].
  - cbn [Z.eqb negb]. rewrite Hent in Hu.
    assert (Hu' : updates root addr (Some (pa, leaf_flags (vm_perm_to_pte p))) (pm_ram s) (pm_ram s2)).
    { apply (updates_same_page _ _ _ _ _ _ Esp). intros va. by rewrite Hu, Htr. }
    assert (HR2 : ∀ x m, R !! x = Some m → R2 !! x = Some m).
    { intros x m Hx. apply (rg_kept _ _ _ Hg). rewrite lookup_insert_ne; [done|congruence]. }
    destruct (up_decref_ok (pm_src s2) R2 old n (po_held _ _ _ _ Hp2) (HR2 _ _ Hold)) as (a3 & Ea3 & Hh3).
    unfold src_do. rewrite Ea3. cbn. eexists 0, _, TT2, (drop_ref old R2). split; [done|].
    assert (Hp3 : pages_ok root (mkPm (pm_ram s2) a3) TT2 (drop_ref old R2)).
    { apply (pages_ok_change root s2 TT2 R2 a3 _ old); [done|done| | |].
      - intros y Hy. by rewrite drop_ref_ne.
      - by apply (Hnt2 old n); auto.
      - intros va fl'. rewrite Hu'. case_decide as Es; [congruence|]. intros Hva. apply Es.
        exact (po_inj _ _ _ _ Hp addr va old fl fl' Et Hva). }
    split_and!; [by eapply fault_inside| |by apply Hwords].
    eapply (fault_cow root l s TT R addr Write p old fl pa); try done.
    + rewrite drop_ref_ne by done. apply (rg_kept _ _ _ Hg), lookup_insert_eq.
    + apply drop_ref_eq. by rewrite Hold, (HR2 _ _ Hold).
    + intros x m Hx Hxo. rewrite drop_ref_ne by done. by apply HR2.
    + intros i Hi. cbn. rewrite (Hw pa 1) by auto. rewrite Hcp, decide_True by (done || apply Hpa). done.
Qed.

Lemma vmm_handle_page_fault_ok sp s l TT R addr cause :
  space_inv sp s l TT R → is_u64 addr →
  ∃ ret s' TT' R', vmm_handle_page_fault sp addr cause s = Ret (ret, s') ∧ space_inv sp s' l TT' R' ∧
    fault_result (root_pa sp) l s TT R addr cause ret s' R' ∧ kept_words R TT s s'.
Proof using Hot.
  intros Hinv Haddr. pose proof Hinv as [Ht Hp Hin].
  destruct (page_align_down_spec addr Haddr) as (Hal & Hr & H0').
  assert (Esp : same_page (page_align_down addr) addr) by (apply same_page_down; [done..|unfold kPageSize in *; lia]).
  assert (Hkw : kept_words R TT s s) by by intros ??????.
  unfold vmm_handle_page_fault.
  destruct (perm_at l addr) as [p|] eqn:Epa.
  2: { rewrite (vma_find_none _ _ _ Ht Epa). exists (- EFAULT), s, TT, R. split_and!; [done..| |done].
       apply fault_refused. by rewrite Epa. }
  pose proof Epa as (a & v & b & El & Hv & Evp)%perm_at_Some. rewrite El in Ht. rewrite (vma_find_here _ _ _ _ _ Ht Hv).
  assert (Eall : vma_allows v cause = perm_allows p cause) by (rewrite <-Evp; by destruct cause).
  rewrite Eall, Evp. destruct (perm_allows p cause) eqn:Eal; cbn [negb].
  2: { exists (- EFAULT), s, TT, R. split_and!; [done..| |done].
       apply fault_refused. rewrite Epa. intros q [= <-]. done. }
  rewrite lookup_translate, is_cow_translate.
  rewrite (translate_same_page (root_pa sp) s TT _ _ (po_state _ _ _ _ Hp) Esp).
  destruct (translate (root_pa sp) addr (pm_ram s)) as [[old fl]|] eqn:Et; cbn [fst fmap option_fmap option_map].
  - destruct (match cause with Write => negb (Z.land fl PTE_COW =? 0) | _ => false end) eqn:Ec.
    + assert (cause = Write ∧ Z.land fl PTE_COW ≠ 0) as [-> Hcow].
      { destruct cause; [done| |done]. split; [done|]. apply negb_true_iff in Ec. lia. }
      by apply (fault_copy_ok sp s l TT R addr p old fl).
    + exists 0, s, TT, R. split_and!; [done..| |done]. eapply fault_present; [done..|].
      destruct cause; [by left| |by left]. right. apply negb_false_iff in Ec. lia.
  - by apply (fault_fresh_ok sp s l TT R addr cause p).
Qed.
End fault.
