(* ===== verification/SysMm.v ===== *)
(** * SysMm: the memory-management system calls

    Models [na/kernel/sys_mm.cc]: [brk], [mmap] (anonymous private mappings),
    [munmap] and [mprotect] on the address space of the current task, which a
    kernel thread does not have.  Arguments are the 64-bit registers; results
    are the signed value returned to the user. *)

From S2P Require Import Prelude Bits RBTree Pmap UserPages VmaTree Vma VmaPages VmaOps VmaProtect.

Definition PROT_READ : Z := 1.
Definition PROT_WRITE : Z := 2.
Definition PROT_EXEC : Z := 4.
Definition MAP_SHARED : Z := 1.
Definition MAP_PRIVATE : Z := 2.
Definition MAP_FIXED : Z := 0x10.
Definition MAP_ANONYMOUS : Z := 0x20.

Definition has (flags f : Z) : bool := negb (Z.land flags f =? 0).

Definition prot_to_vm (prot : Z) : Z :=
  let vm_perm := 0 in
  let vm_perm := if has prot PROT_READ then Z.lor vm_perm VM_READ else vm_perm in
  let vm_perm := if has prot PROT_WRITE then Z.lor vm_perm VM_WRITE else vm_perm in
  if has prot PROT_EXEC then Z.lor vm_perm VM_EXEC else vm_perm.

Section syscalls.
Context {T : Type} `{OrderedTree vma T}.
Context {A : Type} `{PageSource A, !UserPages A, !ObjectHeap A}.

(** The result of a call on the current task's space. *)
Abbreviation ret_space := (outcome (Z * option (VmSpace T) * pm A)).

Definition with_brk (start_ end_' : Z) (mm : VmSpace T) : VmSpace T :=
  mkSpace (root_pa mm) (vma_tree mm) start_ end_'.

Definition sys_brk (mm : option (VmSpace T)) (new_brk : Z) (s : pm A) : ret_space :=
  match mm with
  | None => Ret (- ENOMEM, None, s)
  | Some mm =>
      if new_brk =? 0 then Ret (signed 64 (brk_end mm), Some mm, s)
      else
        let mm := if brk_start mm =? 0
                  then let init_brk := page_align_up new_brk in with_brk init_brk init_brk mm
                  else mm in
        if new_brk <? brk_start mm then Ret (- EINVAL, Some mm, s)
        else
          let new_end := page_align_up new_brk in
          '(ret, mm, s) ←
            (if brk_end mm <? new_end then
               vmm_map_user mm (brk_end mm) (new_end - brk_end mm) (Z.lor VM_READ VM_WRITE) s
             else if new_end <? brk_end mm then
               vmm_unmap_user mm new_end (brk_end mm - new_end) s
             else Ret (0, mm, s));
          if ret <? 0 then Ret (ret, Some mm, s)
          else Ret (signed 64 new_brk, Some (with_brk (brk_start mm) new_end mm), s)
  end.

(** The part of [sys_mmap] after the place has been chosen. *)
Definition mmap_at (mm : VmSpace T) (addr va length vm_perm flags : Z) (s : pm A) : ret_space :=
  '(ret, mm, s) ←
    (if has flags MAP_FIXED then vmm_unmap_user mm va length s else Ret (0, mm, s));
  if ret <? 0 then Ret (ret, Some mm, s)
  else
    '(ret, mm, s) ← vmm_map_user mm va length vm_perm s;
    if (ret <? 0) && negb (has flags MAP_FIXED) && negb (addr =? 0) then
      fallback ← mm_find_free_va (vma_tree mm) length kPageSize;
      if fallback =? 0 then Ret (ret, Some mm, s)
      else
        '(ret, mm, s) ← vmm_map_user mm fallback length vm_perm s;
        if ret <? 0 then Ret (ret, Some mm, s) else Ret (signed 64 fallback, Some mm, s)
    else if ret <? 0 then Ret (ret, Some mm, s)
    else Ret (signed 64 va, Some mm, s).

Definition sys_mmap (mm : option (VmSpace T)) (addr length prot flags fd offset : Z) (s : pm A) : ret_space :=
  if length =? 0 then Ret (- EINVAL, mm, s)
  else
    let length := page_align_up length in
    if negb (offset mod kPageSize =? 0) then Ret (- EINVAL, mm, s)
    else if has flags MAP_PRIVATE && has flags MAP_SHARED then Ret (- EINVAL, mm, s)
    else if negb (has flags MAP_PRIVATE) && negb (has flags MAP_SHARED) then Ret (- EINVAL, mm, s)
    else
      match mm with
      | None => Ret (- ENOMEM, None, s)
      | Some mm =>
          if negb (has flags MAP_ANONYMOUS) then Ret (- ENOSYS, Some mm, s)
          else if has flags MAP_SHARED then Ret (- ENOSYS, Some mm, s)
          else
            let vm_perm := Z.lor (prot_to_vm prot) VM_USER in
            if has flags MAP_FIXED && negb (addr mod kPageSize =? 0) then Ret (- EINVAL, Some mm, s)
            else
              let va := if has flags MAP_FIXED then addr
                        else if negb (addr =? 0) then page_align_down addr else addr in
              va ← (if va =? 0 then mm_find_free_va (vma_tree mm) length kPageSize else Ret va);
              if va =? 0 then Ret (- ENOMEM, Some mm, s)
              else mmap_at mm addr va length vm_perm flags s
      end.

Definition sys_munmap (mm : option (VmSpace T)) (addr length : Z) (s : pm A) : ret_space :=
  if length =? 0 then Ret (- EINVAL, mm, s)
  else if negb (addr mod kPageSize =? 0) then Ret (- EINVAL, mm, s)
  else
    let length := page_align_up length in
    match mm with
    | None => Ret (- EINVAL, None, s)
    | Some mm => '(ret, mm, s) ← vmm_unmap_user mm addr length s; Ret (ret, Some mm, s)
    end.

Definition sys_mprotect (mm : option (VmSpace T)) (addr len prot : Z) (s : pm A) : ret_space :=
  if len =? 0 then Ret (- EINVAL, mm, s)
  else if negb (addr mod kPageSize =? 0) then Ret (- EINVAL, mm, s)
  else
    match mm with
    | None => Ret (- ENOMEM, None, s)
    | Some mm => '(ret, mm, s) ← vmm_protect_user mm addr len (prot_to_vm prot) s; Ret (ret, Some mm, s)
    end.
End syscalls.

Section syscall_specs.
Context {T : Type} `{OrderedTree vma T} {Hot : OrderedTreeSpec vma T}.
Context {A : Type} `{UserPagesSpec A} `{!ObjectHeap A}.
Context {Hheap : ∀ R, HeapKeeps A (λ a, held a R)}.
Implicit Types (mm : VmSpace T) (s : pm A).

Lemma prot_to_vm_cases prot : prot_to_vm prot ∈ seqZ 0 8.
Proof.
  unfold prot_to_vm. destruct (has prot PROT_READ), (has prot PROT_WRITE), (has prot PROT_EXEC);
    apply elem_of_seqZ; vm_compute; split; done.
Qed.

(** A mapping request: the addresses of the place it got, or nothing changed. *)
Inductive mmap_result (mm : VmSpace T) (l : list vma) (len p : Z) : Z → VmSpace T → list vma → Prop :=
| mmap_mapped va mm' l' :
    kUserVaBase ≤ va → va + len ≤ kUserVaLimit → page_aligned va →
    (∀ x, va ≤ x < va + len → perm_at l x = None) →
    perms_set l l' va (va + len) (Some p) → same_space mm mm' →
    mmap_result mm l len p (signed 64 va) mm' l'
| mmap_failed ret : ret = - EINVAL ∨ ret = - ENOMEM → mmap_result mm l len p ret mm l.

Lemma vmm_map_user_mmap mm s l TT R va len p :
  space_inv mm s l TT R → is_u64 va → page_aligned va → 0 < len ≤ kUserVaLimit → page_aligned len →
  ∃ ret mm' s' l', vmm_map_user mm va len p s = Ret (ret, mm', s') ∧ space_inv mm' s' l' TT R ∧
    pm_ram s' = pm_ram s ∧
    (ret = 0 ∧ mmap_result mm l len (Z.lor p VM_USER) (signed 64 va) mm' l' ∨
     (ret = - EINVAL ∨ ret = - ENOMEM) ∧ mm' = mm ∧ l' = l).
Proof using Hot Hheap.
  intros Hi Hva Hal Hlen Hlal. pose proof kUserVaLimit_val.
  destruct (vmm_map_user_ok mm s l TT R va len p Hi Hva ltac:(unfold is_u64; lia))
    as (ret & mm' & s' & l' & E & Hi' & Er & Hres).
  rewrite page_align_down_id, page_align_up_id in Hres by (unfold is_u64 in *; (done || lia)).
  exists ret, mm', s', l'. split_and!; [done..|].
  destruct Hres as [?|mm' l' ? ? ? ? ? ?|?|]; [lia|left|right|right].
  - split; [done|]. by apply mmap_mapped.
  - auto.
  - auto.
Qed.

(** A free place found for the request. *)
Lemma find_free_page mm s l TT R len :
  space_inv mm s l TT R → 0 < len ≤ kUserVaLimit →
  ∃ va, mm_find_free_va (vma_tree mm) len kPageSize = Ret va ∧
        (va = 0 ∨ is_u64 va ∧ page_aligned va ∧ va ≠ 0).
Proof using Hot.
  intros [Ht _ _] Hlen. pose proof kUserVaLimit_val. unfold kPageSize at 1.
  destruct (mm_find_free_va_ok (vma_tree mm) l len 4096 Ht Hlen ltac:(lia)) as (va & E & Hva).
  exists va. split; [done|]. destruct Hva as [[-> _]|(Hb & (Hd & Hl & _) & _)]; [by left|right].
  change (4096 `max` kPageSize) with 4096 in Hd.
  destruct (page_align_up_spec len) as [_ Hup]; [unfold kPageSize; lia|].
  unfold is_u64, kUserVaBase, kPageSize in *. split_and!; [lia|lia| |lia].
  unfold page_aligned, kPageSize. by apply Z.mod_divide.
Qed.

Lemma sys_mmap_ok mm s l TT R addr length prot flags fd offset :
  space_inv mm s l TT R → is_u64 addr → 0 < length ≤ kUserVaLimit → offset mod kPageSize = 0 →
  has flags MAP_PRIVATE = true → has flags MAP_SHARED = false → has flags MAP_ANONYMOUS = true →
  has flags MAP_FIXED = false →
  ∃ ret mm' s' l', sys_mmap (Some mm) addr length prot flags fd offset s = Ret (ret, Some mm', s') ∧
    space_inv mm' s' l' TT R ∧ pm_ram s' = pm_ram s ∧
    mmap_result mm l (page_align_up length) (Z.lor (prot_to_vm prot) VM_USER) ret mm' l'.
Proof using Hot Hheap.
  intros Hi Haddr Hlen Hoff Hp Hsh Han Hfx. pose proof kUserVaLimit_val as HL.
  destruct (page_align_up_spec length) as [Hal Hup]; [unfold kPageSize; lia|].
  assert (0 < page_align_up length ≤ kUserVaLimit) as Hlen'.
  { unfold page_aligned, kPageSize in *. pose proof (Z.div_mod (page_align_up length) 4096). lia. }
  unfold sys_mmap. rewrite (proj2 (Z.eqb_neq length 0)) by lia. rewrite Hoff, Hp, Hsh, Han, Hfx. cbn [negb andb Z.eqb].
  set (len := page_align_up length) in *. set (p := Z.lor (prot_to_vm prot) VM_USER).
  assert (Hpp : Z.lor p VM_USER = p).
  { unfold p. by rewrite <-Z.lor_assoc, Z.lor_diag. }
  set (va0 := if negb (addr =? 0) then page_align_down addr else addr).
  assert (Hva0 : is_u64 va0 ∧ page_aligned va0).
  { unfold va0. destruct (Z.eqb_spec addr 0) as [->|]; [done|]. by apply page_align_down_range. }
  assert (∃ va, (if va0 =? 0 then mm_find_free_va (vma_tree mm) len kPageSize else Ret va0) = Ret va ∧
                (va = 0 ∨ is_u64 va ∧ page_aligned va ∧ va ≠ 0)) as (va & Eva & Hva).
  { destruct (Z.eqb_spec va0 0) as [E|E]; [by eapply find_free_page|]. exists va0. split; [done|]. right. tauto. }
  rewrite Eva. cbn [mbind outcome_bind].
  destruct Hva as [->|(Hva & Hval & Hvne)].
  { exists (- ENOMEM), mm, s, l. split_and!; [done..|]. apply mmap_failed. by right. }
  rewrite (proj2 (Z.eqb_neq va 0)) by done. unfold mmap_at. rewrite Hfx. cbn [mbind outcome_bind Z.ltb Z.compare].
  destruct (vmm_map_user_mmap mm s l TT R va len p) as (ret & mm1 & s1 & l1 & -> & Hi1 & Er1 & Hr); [done..|].
  cbn [mbind outcome_bind]. rewrite Hpp in Hr.
  destruct Hr as [[-> Hm]|(Hret & -> & ->)].
  { cbn. eexists _, mm1, s1, l1. done. }
  assert (ret < 0) as Hneg by (destruct Hret as [-> | ->]; by vm_compute).
  rewrite (proj2 (Z.ltb_lt ret 0)) by done. cbn [negb andb].
  destruct (addr =? 0); cbn [negb].
  { exists ret, mm, s1, l. split_and!; [done..|]. by apply mmap_failed. }
  destruct (find_free_page mm s1 l TT R len Hi1 Hlen') as (va2 & -> & Hva2). cbn [mbind outcome_bind].
  destruct Hva2 as [->|(Hu2 & Ha2 & Hn2)].
  { cbn. exists ret, mm, s1, l. split_and!; [done..|]. by apply mmap_failed. }
  rewrite (proj2 (Z.eqb_neq va2 0)) by done.
  destruct (vmm_map_user_mmap mm s1 l TT R va2 len p) as (ret2 & mm2 & s2 & l2 & -> & Hi2 & Er2 & Hr); [done..|].
  cbn [mbind outcome_bind]. rewrite Hpp in Hr. rewrite Er1 in Er2.
  destruct Hr as [[-> Hm]|(Hret2 & -> & ->)].
  { cbn. eexists _, mm2, s2, l2. done. }
  assert (ret2 < 0) as Hneg2 by (destruct Hret2 as [-> | ->]; by vm_compute).
  rewrite (proj2 (Z.ltb_lt ret2 0)) by done. exists ret2, mm, s2, l. split_and!; [done..|]. by apply mmap_failed.
Qed.

(** A length in the last page of the 64-bit range rounds up to zero: with a
    hint, [mmap] answers the hint and maps nothing. *)
Lemma sys_mmap_huge mm s addr length prot flags fd offset :
  2 ^ 64 - kPageSize < length < 2 ^ 64 → 0 < addr < 2 ^ 63 → page_aligned addr → offset mod kPageSize = 0 →
  has flags MAP_PRIVATE = true → has flags MAP_SHARED = false → has flags MAP_ANONYMOUS = true →
  has flags MAP_FIXED = false →
  sys_mmap (Some mm) addr length prot flags fd offset s = Ret (addr, Some mm, s).
Proof.
  intros Hlen Haddr Hal Hoff Hp Hsh Han Hfx. unfold sys_mmap, mmap_at, vmm_map_user.
  rewrite (proj2 (Z.eqb_neq length 0)) by (unfold kPageSize in *; lia).
  rewrite Hoff, Hp, Hsh, Han, Hfx, (page_align_up_wraps length Hlen). cbn [negb andb Z.eqb].
  rewrite (proj2 (Z.eqb_neq addr 0)) by lia. cbn [negb].
  rewrite page_align_down_id by (unfold is_u64; (done || lia)). rewrite (proj2 (Z.eqb_neq addr 0)) by lia. cbn.
  rewrite (proj2 (Z.eqb_neq addr 0)) by lia. cbn. unfold signed. rewrite Z.mod_small by lia.
  by rewrite (proj2 (Z.ltb_lt _ _)) by lia.
Qed.

(** ** [brk] *)

(** The heap's bounds are page boundaries in the user range. *)
Record brk_ok mm : Prop := {
  bo_start : page_aligned (brk_start mm);
  bo_end : page_aligned (brk_end mm);
  bo_order : kUserVaBase ≤ brk_start mm ≤ brk_end mm;
  bo_limit : brk_end mm ≤ kUserVaLimit;
}.

Definition heap_perm : Z := Z.lor (Z.lor VM_READ VM_WRITE) VM_USER.

Inductive brk_result mm (l : list vma) (new_brk : Z) : Z → VmSpace T → list vma → Prop :=
| brk_query : new_brk = 0 → brk_result mm l new_brk (signed 64 (brk_end mm)) mm l
| brk_below : new_brk < brk_start mm → brk_result mm l new_brk (- EINVAL) mm l
| brk_refused mm' l' ret : ret < 0 → brk_end mm' = brk_end mm → same_perms l' l → brk_result mm l new_brk ret mm' l'
| brk_grown mm' l' :
    let e := page_align_up new_brk in
    brk_end mm ≤ e → (∀ x, brk_end mm ≤ x < e → perm_at l x = None) →
    perms_set l l' (brk_end mm) e (Some heap_perm) → brk_end mm' = e →
    brk_result mm l new_brk (signed 64 new_brk) mm' l'
| brk_shrunk mm' l' :
    let e := page_align_up new_brk in
    e < brk_end mm → perms_set l l' e (brk_end mm) None → brk_end mm' = e →
    brk_result mm l new_brk (signed 64 new_brk) mm' l'.

Lemma sys_brk_ok mm s l TT R new_brk :
  space_inv mm s l TT R → brk_ok mm → 0 ≤ new_brk ≤ 2 ^ 64 - kPageSize →
  ∃ ret mm' s' l' R', sys_brk (Some mm) new_brk s = Ret (ret, Some mm', s') ∧ space_inv mm' s' l' TT R' ∧
    brk_ok mm' ∧ brk_start mm' = brk_start mm ∧ brk_result mm l new_brk ret mm' l'.
Proof using Hot Hheap.
  intros Hi Hb Hnew. pose proof Hb as [Hb1 Hb2 Hb3 Hb4]. pose proof kUserVaLimit_val as HL. unfold sys_brk.
  destruct (Z.eqb_spec new_brk 0) as [->|Hne].
  { exists (signed 64 (brk_end mm)), mm, s, l, R. split_and!; [done..|]. by apply brk_query. }
  rewrite (proj2 (Z.eqb_neq (brk_start mm) 0)) by (unfold kUserVaBase, kPageSize in *; lia).
  destruct (Z.ltb_spec new_brk (brk_start mm)).
  { exists (- EINVAL), mm, s, l, R. split_and!; [done..|]. by apply brk_below. }
  destruct (page_align_up_spec new_brk Hnew) as [Hal Hup]. set (e := page_align_up new_brk) in *.
  assert (He : is_u64 e).
  { unfold is_u64, page_aligned, kPageSize in *. pose proof (Z.div_mod e 4096). lia. }
  destruct (Z.ltb_spec (brk_end mm) e) as [Hgrow|Hge]; [|destruct (Z.ltb_spec e (brk_end mm)) as [Hshrink|Heq]].
  - destruct (vmm_map_user_ok mm s l TT R (brk_end mm) (e - brk_end mm) (Z.lor VM_READ VM_WRITE))
      as (ret & mm1 & s1 & l1 & -> & Hi1 & Er & Hr); [done|unfold is_u64, kUserVaBase, kPageSize in *; lia..|].
    cbn [mbind outcome_bind].
    assert (Hald : page_aligned (e - brk_end mm)).
    { unfold page_aligned, kPageSize in *. by rewrite Zminus_mod, Hal, Hb2. }
    rewrite page_align_down_id, page_align_up_id in Hr by (unfold is_u64, kUserVaBase, kPageSize in *; (done || lia)).
    assert (Esum : brk_end mm + (e - brk_end mm) = e) by lia.
    destruct Hr as [?|mm1 l1 ? ? Hlim Hfree Hset (Eq1 & Eq2 & Eq3)|?|]; rewrite ?Esum in *; [lia|..].
    + cbn. eexists _, _, s1, l1, R. split; [done|].
      split_and!; [by destruct Hi1; split| |done|by eapply brk_grown; [lia|..]].
      split; cbn; rewrite ?Eq2; (done || lia).
    + exists (- EINVAL), mm, s1, l, R. split_and!; [done..|]. by apply brk_refused.
    + exists (- ENOMEM), mm, s1, l, R. split_and!; [done..|]. by apply brk_refused.
  - destruct (vmm_unmap_user_ok mm s l TT R e (brk_end mm - e))
      as (ret & mm1 & s1 & l1 & R1 & -> & Hi1 & Hr); [done|done|unfold is_u64, kUserVaBase, kPageSize in *; lia|].
    cbn [mbind outcome_bind].
    assert (Hald : page_aligned (brk_end mm - e)).
    { unfold page_aligned, kPageSize in *. by rewrite Zminus_mod, Hal, Hb2. }
    rewrite page_align_down_id, page_align_up_id in Hr by (unfold is_u64, kUserVaBase, kPageSize in *; (done || lia)).
    assert (Esum : e + (brk_end mm - e) = brk_end mm) by lia.
    destruct Hr as [?|?|mm1 l1 s1 R1 ? ? Hlim Hset ? (Eq1 & Eq2 & Eq3)|mm1 s1 R1 ? ? (Eq1 & Eq2 & Eq3)]; rewrite ?Esum in *; [lia|..].
    + exists (- EINVAL), mm, s, l, R. split_and!; [done..|]. by apply brk_refused.
    + cbn. eexists _, _, s1, l1, R1. split; [done|].
      split_and!; [by destruct Hi1; split| |done|by eapply brk_shrunk].
      split; cbn; rewrite ?Eq2; (done || lia).
    + exists (- ENOMEM), mm1, s1, l, R1. split_and!; [done..| |done|by apply brk_refused].
      split; rewrite ?Eq2, ?Eq3; done.
  - cbn. assert (e = brk_end mm) as Ee by lia. eexists _, _, s, l, R. split; [done|].
    split_and!; [by destruct Hi; split| |done|].
    + split; cbn; (done || lia).
    + eapply brk_grown; cbn; fold e; [lia|intros; lia| |done]. intros x. destruct (_ && _) eqn:E; [lia|done].
Qed.
End syscall_specs.
