(* ===== verification/UserMemory.v ===== *)
(** * UserMemory: the promises of the address-space layer

    The properties of the address-space operations and of the system calls on
    top of them, over any tree, page source and object heap that keep their
    interfaces, with witnesses on the red-black tree and the physical memory
    manager of the small booted machine. *)

From S2P Require Import Prelude Bits RBTree Memblock Pmm PmmInit Pmap PageSources UserPages VmaTree Vma VmaPages VmaOps VmaProtect VmaFault SysMm.

(** ** The machine of the witnesses *)

(** Objects from an arena that does not run out. *)
#[export] Instance ample_heap : ObjectHeap phys :=
  { obj_new := λ _ a, Ret (true, a); obj_delete := λ _ a, Ret a }.
#[export] Instance ample_heap_keeps (I : phys → Prop) : HeapKeeps phys I.
Proof. split; intros o a Ha; [by exists true, a|by exists a]. Qed.





Abbreviation root0 := small_space.1.






(** ** Claims *)

Section claims.
Context {T : Type} `{OrderedTree vma T} {Hot : OrderedTreeSpec vma T}.
Context {A : Type} `{UserPagesSpec A} `{!ObjectHeap A}.
Context {Hheap : ∀ R, HeapKeeps A (λ a, held a R)}.







End claims.

(** *** Witnesses *)








