(* ===== verification/Spinlock.v ===== *)
(** * Spinlock: test-and-test-and-set locks on interleaved CPUs

    Models [na/kernel/sync/spinlock.cc], [spinlock.h] and [cpu_state.h].  Every
    CPU has a program counter inside [acquire] or [release]; one step of the
    machine is one atomic access of one CPU, so the interleavings of the spin
    loops, of the owner field (written after the exchange and cleared before the
    store) and of the interrupt masking are all executions of the model. *)

From S2P Require Import Prelude.
From stdpp Require Import relations.
Open Scope Z_scope.

Definition kMaxCpus : Z := 8.
Definition kInvalidCpuId : Z := 2 ^ 64 - 1.

(** ** State *)

Record spinlock := mkLock { locked_ : Z; cpu_id_ : Z }.

Record CpuSyncState := mkSync { lock_depth : Z; intr_was_on : bool }.

(** Where a CPU stands in [acquire] and in [release]. *)
Inductive acquire_at := ADebug | APush | ACheck | ALoad | AXchg | AOwn.
Inductive release_at := RCheck | RClear | RStore | RPop.

Inductive pc :=
| Run
| Acquiring (l : Z) (a : acquire_at)
| Releasing (l : Z) (r : release_at)
| Panicked (msg : string).

(** [intr] is the interrupt-enable bit of the CPU; [held] is not machine state:
    it records the locks whose [acquire] has returned and whose [release] has
    not yet stored 0, and no branch reads it. *)
Record cpu := mkCpu { at_pc : pc; sync : CpuSyncState; intr : bool; held : list Z }.

#[export] Instance acquire_at_eq_dec : EqDecision acquire_at.
Proof. solve_decision. Defined.
#[export] Instance release_at_eq_dec : EqDecision release_at.
Proof. solve_decision. Defined.
#[export] Instance pc_eq_dec : EqDecision pc.
Proof. solve_decision. Defined.
#[export] Instance spinlock_inhabited : Inhabited spinlock := populate (mkLock 0 kInvalidCpuId).
#[export] Instance cpu_inhabited : Inhabited cpu := populate (mkCpu Run (mkSync 0 false) false []).

Record machine := mkMachine { locks : gmap Z spinlock; cpus : gmap Z cpu }.

Definition lock_at (m : machine) (l : Z) : spinlock := locks m !!! l.
Definition cpu_at (m : machine) (c : Z) : cpu := cpus m !!! c.
Definition set_lock (l : Z) (k : spinlock) (m : machine) : machine := mkMachine (<[l := k]> (locks m)) (cpus m).
Definition set_cpu (c : Z) (k : cpu) (m : machine) : machine := mkMachine (locks m) (<[c := k]> (cpus m)).

Definition go (p : pc) (k : cpu) : cpu := mkCpu p (sync k) (intr k) (held k).

(** ** Operations *)

Definition lock_init : spinlock := mkLock 0 kInvalidCpuId.

(** [sync::push_intr]. *)
Definition push_intr (k : cpu) : cpu :=
  let was_on := intr k in
  let was := if lock_depth (sync k) =? 0 then was_on else intr_was_on (sync k) in
  mkCpu (at_pc k) (mkSync (lock_depth (sync k) + 1) was) false (held k).

(** [sync::pop_intr]. *)
Definition pop_intr (k : cpu) : cpu :=
  let d := lock_depth (sync k) - 1 in
  mkCpu (at_pc k) (mkSync d (intr_was_on (sync k)))
    (if (d =? 0) && intr_was_on (sync k) then true else intr k) (held k).

Definition is_held_by_current_cpu (c l : Z) (m : machine) : bool := cpu_id_ (lock_at m l) =? c.

(** [Spinlock::acquire]: one atomic access of CPU [c]; [debug] is the [DEBUG] build flag. *)
Definition acquire (debug : bool) (c l : Z) (a : acquire_at) (m : machine) : machine :=
  let k := cpu_at m c in
  match a with
  | ADebug =>
      if debug && intr k && (0 <? lock_depth (sync k))
      then set_cpu c (go (Panicked "spinlock: interrupts enabled while holding lock") k) m
      else set_cpu c (go (Acquiring l APush) k) m
  | APush => set_cpu c (go (Acquiring l ACheck) (push_intr k)) m
  | ACheck =>
      if is_held_by_current_cpu c l m then set_cpu c (go (Panicked "spinlock: double lock") k) m
      else set_cpu c (go (Acquiring l ALoad) k) m
  | ALoad =>
      if locked_ (lock_at m l) =? 0 then set_cpu c (go (Acquiring l AXchg) k) m else m
  | AXchg =>
      let old := locked_ (lock_at m l) in
      let m := set_lock l (mkLock 1 (cpu_id_ (lock_at m l))) m in
      if old =? 0 then set_cpu c (go (Acquiring l AOwn) k) m else set_cpu c (go (Acquiring l ALoad) k) m
  | AOwn =>
      set_cpu c (mkCpu Run (sync k) (intr k) (l :: held k)) (set_lock l (mkLock (locked_ (lock_at m l)) c) m)
  end.

(** [Spinlock::release]: one atomic access of CPU [c]. *)
Definition release (c l : Z) (r : release_at) (m : machine) : machine :=
  let k := cpu_at m c in
  match r with
  | RCheck =>
      if is_held_by_current_cpu c l m then set_cpu c (go (Releasing l RClear) k) m
      else set_cpu c (go (Panicked "spinlock: invalid release") k) m
  | RClear =>
      set_cpu c (go (Releasing l RStore) k) (set_lock l (mkLock (locked_ (lock_at m l)) kInvalidCpuId) m)
  | RStore =>
      set_cpu c (mkCpu (Releasing l RPop) (sync k) (intr k) (filter (λ x, x ≠ l) (held k)))
        (set_lock l (mkLock 0 (cpu_id_ (lock_at m l))) m)
  | RPop => set_cpu c (go Run (pop_intr k)) m
  end.

(** The next step of a CPU that is inside [acquire] or [release]. *)
Definition exec (debug : bool) (c : Z) (m : machine) : machine :=
  match at_pc (cpu_at m c) with
  | Acquiring l a => acquire debug c l a m
  | Releasing l r => release c l r m
  | _ => m
  end.

Definition cpu_ok (c : Z) : Prop := 0 ≤ c < kMaxCpus.

(** The code outside the locks may call [acquire] and [release] on any lock at
    any time, and switch interrupts on or off while it holds no lock. *)
Inductive step (debug : bool) : machine → machine → Prop :=
| step_acquire c l m :
    cpu_ok c → at_pc (cpu_at m c) = Run →
    step debug m (set_cpu c (go (Acquiring l ADebug) (cpu_at m c)) m)
| step_release c l m :
    cpu_ok c → at_pc (cpu_at m c) = Run →
    step debug m (set_cpu c (go (Releasing l RCheck) (cpu_at m c)) m)
| step_intr c b m :
    cpu_ok c → at_pc (cpu_at m c) = Run → lock_depth (sync (cpu_at m c)) = 0 →
    step debug m (set_cpu c (mkCpu Run (sync (cpu_at m c)) b (held (cpu_at m c))) m)
| step_exec c m : cpu_ok c → step debug m (exec debug c m).

Definition boot : machine := mkMachine ∅ ∅.

Definition reachable (debug : bool) (m : machine) : Prop := rtc (step debug) boot m.

(** ** The invariant *)

(** [c] is between its successful exchange on [l] and its store of 0. *)
Definition owns (m : machine) (c l : Z) : Prop :=
  l ∈ held (cpu_at m c) ∨ at_pc (cpu_at m c) = Acquiring l AOwn.

(** [push_intr] has run for an [acquire] that has not returned, or [pop_intr]
    is due for a [release]. *)
Definition in_transit (p : pc) : Z :=
  match p with
  | Acquiring _ (ACheck | ALoad | AXchg | AOwn) | Releasing _ RPop => 1
  | _ => 0
  end.

(** What the program counter says about the CPU's locks. *)
Definition pc_ok (k : cpu) : Prop :=
  match at_pc k with
  | Acquiring l (ALoad | AXchg | AOwn) => l ∉ held k
  | Releasing l (RClear | RStore) => l ∈ held k
  | _ => True
  end.

(** Interrupts stay masked from the first [push_intr] to the last [pop_intr]. *)
Definition masked (k : cpu) : Prop :=
  lock_depth (sync k) = Z.of_nat (length (held k)) + in_transit (at_pc k) ∧
  (0 < lock_depth (sync k) → intr k = false).

Definition live (p : pc) : Prop := match p with Panicked _ => False | _ => True end.

Record lock_inv (m : machine) : Prop := {
  li_owner c l : cpu_ok c →
    cpu_id_ (lock_at m l) = c ↔ l ∈ held (cpu_at m c) ∧ at_pc (cpu_at m c) ≠ Releasing l RStore;
  li_excl c1 c2 l : owns m c1 l → owns m c2 l → c1 = c2;
  li_locked l : locked_ (lock_at m l) = 0 ∨ locked_ (lock_at m l) = 1;
  li_free l c : locked_ (lock_at m l) = 0 → ¬ owns m c l;
  li_taken l : locked_ (lock_at m l) = 1 → ∃ c, cpu_ok c ∧ owns m c l;
  li_nodup c : NoDup (held (cpu_at m c));
  li_pc c : pc_ok (cpu_at m c);
  li_masked c : live (at_pc (cpu_at m c)) → masked (cpu_at m c)
}.

Lemma cpu_at_set c k m c' : cpu_at (set_cpu c k m) c' = if decide (c = c') then k else cpu_at m c'.
Proof. unfold cpu_at, set_cpu. cbn. rewrite !lookup_total_alt, lookup_insert. by case_decide. Qed.
Lemma lock_at_set l k m l' : lock_at (set_lock l k m) l' = if decide (l = l') then k else lock_at m l'.
Proof. unfold lock_at, set_lock. cbn. rewrite !lookup_total_alt, lookup_insert. by case_decide. Qed.
Lemma cpu_at_set_lock l k m c : cpu_at (set_lock l k m) c = cpu_at m c.
Proof. done. Qed.
Lemma lock_at_set_cpu c k m l : lock_at (set_cpu c k m) l = lock_at m l.
Proof. done. Qed.

Create Rewrite HintDb machine.
#[export] Hint Rewrite cpu_at_set lock_at_set cpu_at_set_lock lock_at_set_cpu : machine.

Lemma cpu_ok_valid c : cpu_ok c → c ≠ kInvalidCpuId.
Proof. unfold cpu_ok, kMaxCpus, kInvalidCpuId. lia. Qed.

(** A step that changes one CPU and no lock. *)
Lemma inv_set_cpu c k m :
  lock_inv m → held k = held (cpu_at m c) →
  (∀ l, at_pc k = Releasing l RStore ↔ at_pc (cpu_at m c) = Releasing l RStore) →
  (∀ l, at_pc k = Acquiring l AOwn ↔ at_pc (cpu_at m c) = Acquiring l AOwn) →
  pc_ok k → (live (at_pc k) → masked k) → lock_inv (set_cpu c k m).
Proof.
  intros [] Hh Hr Ha Hp Hm.
  assert (Ho : ∀ c' l, owns (set_cpu c k m) c' l ↔ owns m c' l).
  { intros c' l. unfold owns. autorewrite with machine. case_decide; [subst|done]. by rewrite Hh, Ha. }
  split; intros *; rewrite ?Ho; autorewrite with machine; eauto.
  - intros Hc. case_decide; [subst|eauto]. by rewrite Hh, Hr, <- li_owner0.
  - intros Ht. destruct (li_taken0 l Ht) as (c' & ? & ?). exists c'. by rewrite Ho.
  - case_decide; [subst; by rewrite Hh|done].
  - by case_decide.
  - case_decide; eauto.
Qed.

(** A failed exchange stores the 1 that is already there. *)
Lemma inv_same_lock l k m : lock_inv m → lock_at m l = k → lock_inv (set_lock l k m).
Proof.
  intros [] Hk. assert (Hl : ∀ l', lock_at (set_lock l k m) l' = lock_at m l').
  { intros l'. autorewrite with machine. by case_decide; subst. }
  assert (Ho : ∀ c' l', owns (set_lock l k m) c' l' ↔ owns m c' l') by done.
  split; intros *; rewrite ?Hl, ?Ho; autorewrite with machine; eauto.
Qed.

Section locks.
Context (m : machine) (c l : Z) (Hinv : lock_inv m) (Hc : cpu_ok c).

Lemma masked_held k : masked k → l ∈ held k → 0 < lock_depth (sync k).
Proof.
  intros [-> _] Hl. assert (0 < length (held k))%nat by (destruct (held k); [by inversion Hl|cbn; lia]).
  unfold in_transit. repeat case_match; lia.
Qed.

(** The exchange that found 0 makes [c] the only owner. *)
Lemma inv_xchg :
  at_pc (cpu_at m c) = Acquiring l AXchg → locked_ (lock_at m l) = 0 →
  lock_inv (set_cpu c (go (Acquiring l AOwn) (cpu_at m c)) (set_lock l (mkLock 1 (cpu_id_ (lock_at m l))) m)).
Proof using Hinv Hc.
  intros Hpc Hfree. destruct Hinv.
  pose proof (li_pc0 c) as Hp. unfold pc_ok in Hp. rewrite Hpc in Hp.
  pose proof (li_masked0 c) as Hm. rewrite Hpc in Hm. specialize (Hm I).
  set (m' := set_cpu _ _ _).
  assert (Ho : ∀ c' l', owns m' c' l' ↔ owns m c' l' ∨ c' = c ∧ l' = l).
  { intros c' l'. unfold owns, m'. autorewrite with machine. cbn. case_decide; [subst|naive_solver].
    rewrite Hpc. naive_solver. }
  split; intros *; rewrite ?Ho; unfold m'; autorewrite with machine; cbn.
  - intros Hc'. assert (cpu_id_ (if decide (l = l0) then mkLock 1 (cpu_id_ (lock_at m l)) else lock_at m l0)
      = cpu_id_ (lock_at m l0)) as -> by (case_decide; by subst).
    rewrite li_owner0 by done. case_decide; [subst|done]. rewrite Hpc. naive_solver.
  - intros [H1|[-> ->]] [H2|[? ?]]; subst; eauto; exfalso; by eapply li_free0.
  - case_decide; eauto.
  - case_decide; [done|]. intros Hf [H1|[-> ->]]; [by destruct (li_free0 l0 c0)|done].
  - case_decide; [subst; exists c; split; [done|apply Ho; eauto]|]. intros (c' & ? & ?)%li_taken0. exists c'. split; [done|apply Ho; eauto].
  - case_decide; [subst; cbn|]; eauto.
  - case_decide; [done|eauto].
  - case_decide; [|eauto]. intros _. unfold masked in *. cbn. by rewrite Hpc in Hm.
Qed.

(** Recording the owner ends [acquire]. *)
Lemma inv_own :
  at_pc (cpu_at m c) = Acquiring l AOwn →
  let k := cpu_at m c in
  lock_inv (set_cpu c (mkCpu Run (sync k) (intr k) (l :: held k)) (set_lock l (mkLock (locked_ (lock_at m l)) c) m)).
Proof using Hinv Hc.
  intros Hpc k. destruct Hinv.
  pose proof (li_pc0 c) as Hp. unfold pc_ok in Hp. rewrite Hpc in Hp.
  pose proof (li_masked0 c) as Hm. rewrite Hpc in Hm. specialize (Hm I).
  set (m' := set_cpu _ _ _).
  assert (Ho : ∀ c' l', owns m' c' l' ↔ owns m c' l').
  { intros c' l'. unfold owns, m', k. autorewrite with machine. cbn. case_decide; [subst; cbn|done].
    rewrite Hpc, elem_of_cons. naive_solver. }
  assert (Hown : owns m c l) by by right.
  split; intros *; rewrite ?Ho; unfold m', k; autorewrite with machine; cbn.
  - intros Hc'. destruct (decide (l = l0)) as [<-|Hl]; cbn.
    + destruct (decide (c = c0)) as [<-|Hne]; cbn; [rewrite elem_of_cons; naive_solver|].
      split; [done|]. intros [Hin _]. destruct Hne. by apply (li_excl0 c c0 l); [|left].
    + rewrite li_owner0 by done. case_decide; [subst|done]. cbn. rewrite Hpc, elem_of_cons. naive_solver.
  - eauto.
  - case_decide; [subst; cbn|]; eauto.
  - case_decide; [subst; cbn|]; eauto.
  - assert (locked_ (if decide (l = l0) then mkLock (locked_ (lock_at m l)) c else lock_at m l0)
      = locked_ (lock_at m l0)) as -> by (case_decide; by subst).
    intros (c' & ? & ?)%li_taken0. exists c'. split; [done|by apply Ho].
  - case_decide; [subst; cbn|eauto]. by apply NoDup_cons.
  - case_decide; [done|eauto].
  - case_decide; [|eauto]. intros _. unfold masked in *. cbn. rewrite Hpc in Hm. cbn in Hm. destruct Hm as [-> ?].
    split; [cbn; lia|done].
Qed.

(** The holder clears the owner field first. *)
Lemma inv_clear :
  at_pc (cpu_at m c) = Releasing l RClear →
  lock_inv (set_cpu c (go (Releasing l RStore) (cpu_at m c)) (set_lock l (mkLock (locked_ (lock_at m l)) kInvalidCpuId) m)).
Proof using Hinv Hc.
  intros Hpc. destruct Hinv.
  pose proof (li_pc0 c) as Hp. unfold pc_ok in Hp. rewrite Hpc in Hp.
  pose proof (li_masked0 c) as Hm. rewrite Hpc in Hm. specialize (Hm I).
  set (m' := set_cpu _ _ _).
  assert (Ho : ∀ c' l', owns m' c' l' ↔ owns m c' l').
  { intros c' l'. unfold owns, m'. autorewrite with machine. cbn. case_decide; [subst|done].
    rewrite Hpc. naive_solver. }
  assert (Hk : ∀ l', locked_ (lock_at m' l') = locked_ (lock_at m l')).
  { intros l'. unfold m'. autorewrite with machine. case_decide; by subst. }
  split; intros *; rewrite ?Ho, ?Hk; unfold m'; autorewrite with machine; cbn; eauto.
  - intros Hc'. destruct (decide (l = l0)) as [<-|Hl]; cbn.
    + split; [intros E; by destruct (cpu_ok_valid c0)|]. intros [Hin Hst].
      destruct (decide (c = c0)) as [<-|Hne]; cbn in *; [done|]. destruct Hne.
      apply (li_excl0 c c0 l); by left.
    + rewrite li_owner0 by done. case_decide; [subst|done]. cbn. rewrite Hpc. naive_solver.
  - intros (c' & ? & ?)%li_taken0. exists c'. split; [done|by apply Ho].
  - case_decide; [subst; cbn|]; eauto.
  - case_decide; [done|eauto].
  - case_decide; [|eauto]. intros _. unfold masked in *. cbn. by rewrite Hpc in Hm.
Qed.

Lemma filter_out_length (h : list Z) : NoDup h → l ∈ h → length h = S (length (filter (λ x, x ≠ l) h)).
Proof.
  clear. induction h as [|x h IH]; intros Hn Hl; [by inversion Hl|]. apply NoDup_cons in Hn as [Hx Hn].
  rewrite filter_cons. destruct (decide (x = l)) as [->|Hxl].
  - rewrite decide_False by naive_solver. cbn. f_equal. clear -Hx.
    induction h as [|y h IH]; [done|]. apply not_elem_of_cons in Hx as [? ?].
    rewrite filter_cons, decide_True by done. cbn. f_equal. auto.
  - rewrite decide_True by done. cbn. f_equal. apply IH; [done|]. apply elem_of_cons in Hl as [->|]; done.
Qed.

(** The store of 0 gives the lock up. *)
Lemma inv_store :
  at_pc (cpu_at m c) = Releasing l RStore →
  let k := cpu_at m c in
  lock_inv (set_cpu c (mkCpu (Releasing l RPop) (sync k) (intr k) (filter (λ x, x ≠ l) (held k)))
              (set_lock l (mkLock 0 (cpu_id_ (lock_at m l))) m)).
Proof using Hinv Hc.
  intros Hpc k. destruct Hinv.
  pose proof (li_pc0 c) as Hp. unfold pc_ok in Hp. rewrite Hpc in Hp.
  pose proof (li_masked0 c) as Hm. rewrite Hpc in Hm. specialize (Hm I).
  set (m' := set_cpu _ _ _).
  assert (Hown : owns m c l) by by left.
  assert (Ho : ∀ c' l', owns m' c' l' ↔ owns m c' l' ∧ l' ≠ l).
  { intros c' l'. unfold owns, m', k. autorewrite with machine. cbn. case_decide; [subst|].
    - cbn. rewrite Hpc, list_elem_of_filter. naive_solver.
    - split; [|naive_solver]. intros ?. split; [done|]. intros ->. destruct (li_excl0 c c' l); auto. }
  split; intros *; rewrite ?Ho; unfold m', k; autorewrite with machine; cbn.
  - intros Hc'. assert (cpu_id_ (if decide (l = l0) then mkLock 0 (cpu_id_ (lock_at m l)) else lock_at m l0)
      = cpu_id_ (lock_at m l0)) as -> by (case_decide; by subst).
    rewrite li_owner0 by done. case_decide; [subst|done]. rewrite Hpc. cbn. rewrite list_elem_of_filter. naive_solver.
  - naive_solver.
  - case_decide; cbn; eauto.
  - case_decide; cbn; [naive_solver|]. intros ?. naive_solver.
  - case_decide; cbn; [done|]. intros (c' & ? & ?)%li_taken0. exists c'. split; [done|apply Ho; naive_solver].
  - case_decide; [subst; cbn|eauto]. apply NoDup_filter; eauto.
  - case_decide; [done|eauto].
  - case_decide; [|eauto]. intros _. unfold masked in *. cbn. rewrite Hpc in Hm. cbn in Hm. destruct Hm as [Hd ?].
    split; [|done]. rewrite Hd. rewrite (filter_out_length (held (cpu_at m c))) by eauto. lia.
Qed.
End locks.

(** ** Every step keeps the invariant *)

Section steps.
Context (debug : bool) (m : machine) (c : Z) (Hinv : lock_inv m) (Hc : cpu_ok c).

(** A step that only moves the program counter, masking interrupts or not. *)
Lemma inv_goto p k :
  held k = held (cpu_at m c) → (∀ x, p ≠ Releasing x RStore) → (∀ x, p ≠ Acquiring x AOwn) →
  (∀ x, at_pc (cpu_at m c) ≠ Releasing x RStore) → (∀ x, at_pc (cpu_at m c) ≠ Acquiring x AOwn) →
  pc_ok (go p k) → (live p → masked (go p k)) → lock_inv (set_cpu c (go p k) m).
Proof using Hinv. intros Hh ? ? ? ? ? ?. apply inv_set_cpu; naive_solver. Qed.

Lemma masked_push k l' :
  at_pc k = Acquiring l' APush → masked k → masked (go (Acquiring l' ACheck) (push_intr k)).
Proof.
  intros Hp [Hd _]. rewrite Hp in Hd. unfold masked. cbn in *. split; [lia|done].
Qed.

Lemma masked_pop k l' : at_pc k = Releasing l' RPop → masked k → masked (go Run (pop_intr k)).
Proof.
  intros Hp [Hd Hi]. rewrite Hp in Hd. unfold masked, pop_intr. cbn in *. rewrite Hd.
  split; [lia|]. intros Hpos. destruct (_ =? 0) eqn:E; [lia|]. cbn. apply Hi. lia.
Qed.

Lemma acquire_inv l a : at_pc (cpu_at m c) = Acquiring l a → lock_inv (acquire debug c l a m).
Proof using Hinv Hc.
  intros Hpc. pose proof (li_pc m Hinv c) as Hp. unfold pc_ok in Hp.
  pose proof (li_masked m Hinv c) as Hm. rewrite Hpc in Hp, Hm. specialize (Hm I).
  destruct a; cbn.
  - destruct (debug && _ && _); apply inv_goto; rewrite ?Hpc; try done. intros _. unfold masked in *.
    by rewrite Hpc in Hm.
  - apply inv_goto; rewrite ?Hpc; try done. intros _. by apply masked_push.
  - destruct (is_held_by_current_cpu c l m) eqn:E; apply inv_goto; rewrite ?Hpc; try done.
    + intros Hh. apply Z.eqb_neq in E. apply E, li_owner; [done..|]. by rewrite Hpc.
    + intros _. unfold masked in *. by rewrite Hpc in Hm.
  - destruct (locked_ (lock_at m l) =? 0); [|done]. apply inv_goto; rewrite ?Hpc; try done.
    intros _. unfold masked in *. by rewrite Hpc in Hm.
  - destruct (locked_ (lock_at m l) =? 0) eqn:E; [apply inv_xchg; [done..|lia]|].
    assert (Hl : mkLock 1 (cpu_id_ (lock_at m l)) = lock_at m l).
    { destruct (li_locked m Hinv l); [lia|]. destruct (lock_at m l); cbn in *. by subst. }
    assert (Hinv' : lock_inv (set_lock l (mkLock 1 (cpu_id_ (lock_at m l))) m)) by (by apply inv_same_lock).
    apply inv_set_cpu; [done|..]; rewrite ?cpu_at_set_lock, ?Hpc; try done.
    intros _. unfold masked in *. by rewrite Hpc in Hm.
  - by apply inv_own.
Qed.

Lemma release_inv l r : at_pc (cpu_at m c) = Releasing l r → lock_inv (release c l r m).
Proof using Hinv Hc.
  intros Hpc. pose proof (li_pc m Hinv c) as Hp. unfold pc_ok in Hp.
  pose proof (li_masked m Hinv c) as Hm. rewrite Hpc in Hp, Hm. specialize (Hm I).
  destruct r; cbn.
  - destruct (is_held_by_current_cpu c l m) eqn:E; apply inv_goto; rewrite ?Hpc; try done.
    + apply Z.eqb_eq, li_owner in E; [|done..]. by destruct E.
    + intros _. unfold masked in *. by rewrite Hpc in Hm.
  - by apply inv_clear.
  - by apply inv_store.
  - apply inv_goto; rewrite ?Hpc; try done. intros _. by eapply masked_pop.
Qed.

Lemma exec_inv : lock_inv (exec debug c m).
Proof using Hinv Hc.
  unfold exec. destruct (at_pc (cpu_at m c)) eqn:E; [done| | |done].
  - by apply acquire_inv.
  - by apply release_inv.
Qed.
End steps.

Lemma boot_inv : lock_inv boot.
Proof.
  split; intros *; unfold owns, lock_at, cpu_at, boot; cbn; rewrite ?lookup_total_empty; cbn;
    try (by auto using NoDup_nil_2); try (by intros; lia).
  - intros Hc. split; [intros E; by destruct (cpu_ok_valid c)|]. by intros [?%elem_of_nil _].
  - by intros [?%elem_of_nil|?].
  - intros _. by intros [?%elem_of_nil|?].
Qed.

Lemma step_inv debug m m' : step debug m m' → lock_inv m → lock_inv m'.
Proof.
  intros Hs Hinv. destruct Hs as [c l m Hc Hpc|c l m Hc Hpc|c b m Hc Hpc Hd|c m Hc]; [| | |by apply exec_inv].
  - pose proof (li_masked m Hinv c) as Hm. rewrite Hpc in Hm. specialize (Hm I).
    apply inv_goto; rewrite ?Hpc; try done. intros _. unfold masked in *. by rewrite Hpc in Hm.
  - pose proof (li_masked m Hinv c) as Hm. rewrite Hpc in Hm. specialize (Hm I).
    apply inv_goto; rewrite ?Hpc; try done. intros _. unfold masked in *. by rewrite Hpc in Hm.
  - pose proof (li_masked m Hinv c) as Hm. rewrite Hpc in Hm. specialize (Hm I).
    apply inv_set_cpu; rewrite ?Hpc; try done. intros _. unfold masked in *. cbn. rewrite Hpc in Hm. cbn in Hm.
    destruct Hm as [Hd' _]. split; [cbn; lia|lia].
Qed.

Lemma reachable_inv debug m : reachable debug m → lock_inv m.
Proof.
  unfold reachable. intros Hr. assert (H : lock_inv boot) by apply boot_inv. revert H.
  induction Hr as [|m1 m2 m3 Hs _ IH]; eauto using step_inv.
Qed.

(** ** Properties *)

(** C20: On every interleaving of any number of calls on any locks, at most one
    CPU holds a lock; while it does, the lock word is 1, the owner field names
    the holder until the holder itself clears it, and the holder's interrupts
    are masked. *)
Theorem spinlock_mutual_exclusion debug m c l (Hr : reachable debug m) (Hc : cpu_ok c) (Hl : l ∈ held (cpu_at m c)) :
  (∀ c', l ∈ held (cpu_at m c') → c' = c) ∧ locked_ (lock_at m l) = 1 ∧
  (at_pc (cpu_at m c) ≠ Releasing l RStore → cpu_id_ (lock_at m l) = c) ∧
  (live (at_pc (cpu_at m c)) → intr (cpu_at m c) = false).
Proof.
  pose proof (reachable_inv debug m Hr) as [].
  assert (Ho : owns m c l) by by left. split_and!.
  - intros c' Hc'. by apply (li_excl0 c' c l); [left|].
  - destruct (li_locked0 l); [|done]. by destruct (li_free0 l c).
  - intros ?. by apply li_owner0.
  - intros Hlive. apply li_masked0; [done|]. apply (masked_held l); auto.
Qed.

(** C23: The run-time checks are exact: [acquire] panics with "double lock" if
    and only if the calling CPU already holds the lock, [release] panics with
    "invalid release" if and only if it does not, and the debug check for
    enabled interrupts inside a critical section never fires. *)
Theorem spinlock_checks_exact debug m c l (Hr : reachable debug m) (Hc : cpu_ok c) :
  (at_pc (cpu_at m c) = Acquiring l ACheck →
     at_pc (cpu_at (exec debug c m) c) =
       if decide (l ∈ held (cpu_at m c)) then Panicked "spinlock: double lock" else Acquiring l ALoad) ∧
  (at_pc (cpu_at m c) = Releasing l RCheck →
     at_pc (cpu_at (exec debug c m) c) =
       if decide (l ∈ held (cpu_at m c)) then Releasing l RClear else Panicked "spinlock: invalid release") ∧
  (at_pc (cpu_at m c) = Acquiring l ADebug → at_pc (cpu_at (exec debug c m) c) = Acquiring l APush).
Proof.
  pose proof (reachable_inv debug m Hr) as []. unfold exec.
  assert (Hown : at_pc (cpu_at m c) ≠ Releasing l RStore →
    is_held_by_current_cpu c l m = bool_decide (l ∈ held (cpu_at m c))).
  { intros Hp. apply eq_true_iff_eq. unfold is_held_by_current_cpu.
    rewrite Z.eqb_eq, li_owner0, bool_decide_eq_true by done. naive_solver. }
  split_and!; intros Hpc; rewrite Hpc in *; cbn.
  - rewrite Hown by done. by case_decide; [rewrite bool_decide_true by done|rewrite bool_decide_false by done];
      rewrite cpu_at_set, decide_True.
  - rewrite Hown by done. by case_decide; [rewrite bool_decide_true by done|rewrite bool_decide_false by done];
      rewrite cpu_at_set, decide_True.
  - pose proof (li_masked0 c) as Hm. rewrite Hpc in Hm. destruct (Hm I) as [_ Hi].
    destruct (debug && _ && _) eqn:E; [|by rewrite cpu_at_set, decide_True].
    apply andb_true_iff in E as [[_ E]%andb_true_iff Hd%Z.ltb_lt]. by rewrite Hi in E.
Qed.

(** [c] does not switch interrupts itself: it is not at a call boundary before
    and after with a different setting. *)
Definition keeps_intr (c : Z) (m m' : machine) : Prop :=
  at_pc (cpu_at m c) = Run → at_pc (cpu_at m' c) = Run → intr (cpu_at m' c) = intr (cpu_at m c).

(** The interrupt setting [b] from before the outermost lock is not lost. *)
Definition remembers (b : bool) (k : cpu) : Prop :=
  live (at_pc k) → (lock_depth (sync k) = 0 → intr k = b) ∧ (0 < lock_depth (sync k) → intr_was_on (sync k) = b).

Lemma remembers_other b c' k m c :
  c' ≠ c → remembers b (cpu_at m c) → remembers b (cpu_at (set_cpu c' k m) c).
Proof. intros ? ?. by rewrite cpu_at_set, decide_False. Qed.

Lemma remembers_go b p k : (live p → live (at_pc k)) → remembers b k → remembers b (go p k).
Proof. unfold remembers. cbn. auto. Qed.

Lemma remembers_exec debug b c m :
  lock_inv m → remembers b (cpu_at m c) → remembers b (cpu_at (exec debug c m) c).
Proof.
  intros Hinv Hb. unfold exec. pose proof (li_masked m Hinv c) as Hm. unfold remembers in Hb.
  destruct (at_pc (cpu_at m c)) as [|l a|l r|] eqn:Hpc; [by unfold remembers; rewrite Hpc| | |by unfold remembers; rewrite Hpc].
  - destruct (Hb I) as [H0 H1], (Hm I) as [Hd Hi]. rewrite Hpc in Hd.
    destruct a; cbn; repeat case_match; autorewrite with machine; rewrite ?decide_True by done;
      unfold remembers; cbn; rewrite ?Hpc; try done.
    all: intros _; split; intros; cbn in *; try (destruct (Z.eqb_spec (lock_depth (sync (cpu_at m c))) 0)); auto; try lia; apply H1; lia.
  - destruct (Hb I) as [H0 H1], (Hm I) as [Hd Hi]. rewrite Hpc in Hd.
    destruct r; cbn; repeat case_match; autorewrite with machine; rewrite ?decide_True by done;
      unfold remembers; cbn; rewrite ?Hpc; try done.
    cbn in Hd. intros _. destruct (Z.eqb_spec (lock_depth (sync (cpu_at m c)) - 1) 0); split; intros; cbn; try lia.
    + rewrite H1 in * by lia. rewrite Hi by lia. by destruct b.
    + apply H1. lia.
Qed.

Lemma exec_other debug c' m c : c' ≠ c → cpu_at (exec debug c' m) c = cpu_at m c.
Proof.
  intros Hne. unfold exec, acquire, release.
  repeat case_match; autorewrite with machine; rewrite ?decide_False by done; done.
Qed.

Lemma remembers_step debug b c m m' :
  lock_inv m → step debug m m' → keeps_intr c m m' → remembers b (cpu_at m c) → remembers b (cpu_at m' c).
Proof.
  intros Hinv Hs Hk Hb. destruct Hs as [c' l m Hc Hpc|c' l m Hc Hpc|c' v m Hc Hpc Hd|c' m Hc];
    (destruct (decide (c' = c)) as [->|Hne];
      [|first [rewrite exec_other by done; done|by apply remembers_other]]).
  - rewrite cpu_at_set, decide_True by done. apply remembers_go; [by rewrite Hpc|done].
  - rewrite cpu_at_set, decide_True by done. apply remembers_go; [by rewrite Hpc|done].
  - revert Hk. unfold keeps_intr. rewrite cpu_at_set, decide_True by done. cbn. intros Hk.
    unfold remembers in *. cbn. rewrite Hpc in *. rewrite Hk by done. done.
  - by apply remembers_exec.
Qed.

(** C28: Between two moments at which a CPU holds no lock, whatever nesting of
    locks it went through, its interrupts are enabled at the second exactly when
    they were at the first, unless the code itself switched them. *)
Theorem spinlock_restores_interrupts debug c m m' (Hr : reachable debug m)
    (Hs : rtc (λ x y, step debug x y ∧ keeps_intr c x y) m m')
    (H0 : at_pc (cpu_at m c) = Run ∧ lock_depth (sync (cpu_at m c)) = 0)
    (H1 : at_pc (cpu_at m' c) = Run ∧ lock_depth (sync (cpu_at m' c)) = 0) :
  intr (cpu_at m' c) = intr (cpu_at m c).
Proof.
  assert (Hb : remembers (intr (cpu_at m c)) (cpu_at m c)) by (intros _; split; [done|lia]).
  revert Hb. generalize (intr (cpu_at m c)). intros b Hb. apply reachable_inv in Hr. clear H0.
  induction Hs as [m|x y z [Hs Hk] _ IH].
  - apply Hb; [by destruct H1 as [-> _]|tauto].
  - apply IH; [by eapply step_inv|done|by eapply remembers_step].
Qed.

Definition run (debug : bool) (c : Z) (n : nat) (m : machine) : machine := Nat.iter n (exec debug c) m.

Ltac exec_at Hpc := unfold exec; rewrite Hpc; cbn [acquire release].

Section progress.
Context (debug : bool) (m : machine) (c l : Z).

(** A spinning CPU that finds the lock free needs three accesses to own it. *)
Lemma spin_enters :
  at_pc (cpu_at m c) = Acquiring l ALoad → locked_ (lock_at m l) = 0 →
  at_pc (cpu_at (run debug c 3 m) c) = Run ∧ l ∈ held (cpu_at (run debug c 3 m) c).
Proof.
  intros Hpc Hfree. unfold run. cbn [Nat.iter nat_rect]. unfold Nat.iter. cbn [nat_rect].
  set (m1 := exec debug c m).
  assert (H1 : m1 = set_cpu c (go (Acquiring l AXchg) (cpu_at m c)) m) by (unfold m1; exec_at Hpc; by rewrite Hfree).
  set (m2 := exec debug c m1).
  assert (H2 : at_pc (cpu_at m2 c) = Acquiring l AOwn).
  { unfold m2, exec. rewrite H1, cpu_at_set, decide_True by done. cbn. rewrite lock_at_set_cpu, Hfree. cbn.
    by rewrite cpu_at_set, decide_True. }
  exec_at H2. rewrite cpu_at_set, decide_True by done. split; [done|]. left.
Qed.

(** The holder's [release] takes four accesses and leaves the lock free. *)
Lemma release_frees :
  lock_inv m → cpu_ok c → at_pc (cpu_at m c) = Releasing l RCheck → l ∈ held (cpu_at m c) →
  locked_ (lock_at (run debug c 4 m) l) = 0 ∧ at_pc (cpu_at (run debug c 4 m) c) = Run ∧
  (∀ c', c' ≠ c → cpu_at (run debug c 4 m) c' = cpu_at m c').
Proof.
  intros Hinv Hc Hpc Hl. unfold run, Nat.iter. cbn [nat_rect].
  assert (Hown : is_held_by_current_cpu c l m = true).
  { apply Z.eqb_eq, (li_owner m Hinv); [done|]. by rewrite Hpc. }
  set (m1 := exec debug c m).
  assert (H1 : m1 = set_cpu c (go (Releasing l RClear) (cpu_at m c)) m) by (unfold m1; exec_at Hpc; by rewrite Hown).
  set (m2 := exec debug c m1).
  assert (H2 : at_pc (cpu_at m2 c) = Releasing l RStore).
  { unfold m2, exec. rewrite H1, cpu_at_set, decide_True by done. cbn. by rewrite cpu_at_set, decide_True. }
  set (m3 := exec debug c m2).
  assert (H3 : at_pc (cpu_at m3 c) = Releasing l RPop).
  { unfold m3. exec_at H2. by rewrite cpu_at_set, decide_True. }
  assert (H3' : locked_ (lock_at m3 l) = 0).
  { unfold m3. exec_at H2. by rewrite lock_at_set_cpu, lock_at_set, decide_True. }
  split_and!.
  - exec_at H3. by rewrite lock_at_set_cpu.
  - exec_at H3. by rewrite cpu_at_set, decide_True.
  - intros c' Hne. unfold m3, m2, m1. by rewrite !exec_other.
Qed.
End progress.

(** C26: Hand-over: when the holder of a lock, at a call boundary, releases it,
    four accesses later the lock is free; a CPU that spins on a free lock owns
    it after three accesses of its own.  So a spinning CPU is kept out only by
    the holder or by other CPUs taking the lock, never by the lock word. *)
Theorem spinlock_handover debug m c c' l (Hr : reachable debug m) (Hc' : cpu_ok c')
    (Hspin : at_pc (cpu_at m c) = Acquiring l ALoad)
    (Hholder : l ∈ held (cpu_at m c')) (Hrun : at_pc (cpu_at m c') = Run) :
  let freed := run debug c' 4 (set_cpu c' (go (Releasing l RCheck) (cpu_at m c')) m) in
  let taken := run debug c 3 freed in
  locked_ (lock_at freed l) = 0 ∧ at_pc (cpu_at freed c') = Run ∧
  at_pc (cpu_at taken c) = Run ∧ l ∈ held (cpu_at taken c).
Proof.
  pose proof (reachable_inv debug m Hr) as Hinv.
  assert (Hne : c ≠ c').
  { intros ->. pose proof (li_pc m Hinv c') as Hp. unfold pc_ok in Hp. by rewrite Hrun in Hspin. }
  intros freed taken. set (m0 := set_cpu c' _ m) in freed.
  assert (Hinv0 : lock_inv m0) by (eapply step_inv; [|exact Hinv]; by apply (step_release debug)).
  destruct (release_frees debug m0 c' l) as (Hf & Hp & Ho); [done..| | |].
  { unfold m0. by rewrite cpu_at_set, decide_True. }
  { unfold m0. by rewrite cpu_at_set, decide_True. }
  split; [done|]. split; [done|]. apply spin_enters; [|done]. unfold freed. rewrite Ho by done.
  unfold m0. by rewrite cpu_at_set, decide_False.
Qed.

(** ** Witnesses *)

(** CPU 1 takes lock 7 and CPU 0 spins on it. *)
Definition contended : machine :=
  let call c m := set_cpu c (go (Acquiring 7 ADebug) (cpu_at m c)) m in
  run true 0 3 (call 0 (run true 1 6 (call 1 boot))).

Lemma run_reachable debug c n m : cpu_ok c → rtc (step debug) m (run debug c n m).
Proof.
  intros Hc. unfold run. induction n as [|n IH]; [apply rtc_refl|]. eapply rtc_r; [exact IH|]. by apply step_exec.
Qed.

Lemma contended_reachable : reachable true contended.
Proof.
  unfold reachable, contended. cbn zeta.
  etrans; [|by apply run_reachable].
  eapply rtc_r; [|apply step_acquire; by vm_compute].
  etrans; [|by apply run_reachable].
  eapply rtc_r; [apply rtc_refl|apply step_acquire; by vm_compute].
Qed.

Lemma contended_holder : 7 ∈ held (cpu_at contended 1).
Proof. vm_compute. left. Qed.

Lemma spinlock_mutual_exclusion_witness :
  locked_ (lock_at contended 7) = 1 ∧ (∀ c', 7 ∈ held (cpu_at contended c') → c' = 1).
Proof.
  destruct (spinlock_mutual_exclusion true contended 1 7 contended_reachable ltac:(by vm_compute) contended_holder)
    as (H1 & H2 & _). done.
Defined.

Lemma spinlock_checks_exact_witness :
  let m := set_cpu 0 (go (Acquiring 7 ADebug) (cpu_at boot 0)) boot in
  at_pc (cpu_at (exec true 0 m) 0) = Acquiring 7 APush.
Proof.
  intros m. apply (spinlock_checks_exact true m 0 7); [|by vm_compute|by vm_compute].
  eapply rtc_r; [apply rtc_refl|apply step_acquire; by vm_compute].
Defined.

Lemma exec_keeps_intr debug c m : keeps_intr c m (exec debug c m).
Proof. intros Hp _. unfold exec. by rewrite Hp. Qed.

Lemma run_keeps_intr debug c n m :
  cpu_ok c → rtc (λ x y, step debug x y ∧ keeps_intr c x y) m (run debug c n m).
Proof.
  intros Hc. unfold run. induction n as [|n IH]; [apply rtc_refl|].
  eapply rtc_r; [exact IH|]. split; [by apply step_exec|apply exec_keeps_intr].
Qed.

(** CPU 0 runs with interrupts on. *)
Definition listening : machine := set_cpu 0 (mkCpu Run (mkSync 0 false) true []) boot.

Lemma listening_reachable : reachable true listening.
Proof. apply rtc_once. apply (step_intr true 0 true boot); by vm_compute. Qed.

(** It takes lock 7 and then releases it. *)
Lemma spinlock_restores_interrupts_witness :
  let locked := run true 0 6 (set_cpu 0 (go (Acquiring 7 ADebug) (cpu_at listening 0)) listening) in
  let after := run true 0 4 (set_cpu 0 (go (Releasing 7 RCheck) (cpu_at locked 0)) locked) in
  intr (cpu_at locked 0) = false ∧ intr (cpu_at after 0) = intr (cpu_at listening 0).
Proof.
  intros locked after. split; [by vm_compute|].
  apply (spinlock_restores_interrupts true 0 listening after listening_reachable); [|by vm_compute..].
  etrans; [|by apply run_keeps_intr].
  eapply rtc_r; [|split; [apply step_release; by vm_compute|by intros _ ?]].
  etrans; [|by apply run_keeps_intr].
  eapply rtc_r; [apply rtc_refl|split; [apply step_acquire; by vm_compute|by intros _ ?]].
Defined.

Lemma spinlock_handover_witness :
  at_pc (cpu_at (run true 0 3 (run true 1 4 (set_cpu 1 (go (Releasing 7 RCheck) (cpu_at contended 1)) contended))) 0) = Run.
Proof.
  destruct (spinlock_handover true contended 0 1 7 contended_reachable) as (_ & _ & H & _);
    [by vm_compute|by vm_compute|apply contended_holder|by vm_compute|exact H].
Defined.
