(* ===== verification/Sched.v ===== *)
(** * Sched: run queues, scheduler core and wait queues

    Models [na/kernel/sched_internal.h], [sched_class_o1.cc], [sched_core.cc] and
    [waitqueue.cc].  Task control blocks live in a store indexed by address; the
    [run_link] of a block is a node of the store of list nodes ([DList]), the
    same node whether the task is on a run queue or on a wait queue, so linking a
    task twice would corrupt both lists here as it would in the kernel.  Every
    operation is one critical section of the run-queue lock, except that
    [WaitQueue::sleep] is two: linking under the wait queue's lock, then
    [schedule] (the sections' atomicity is [Spinlock.spinlock_mutual_exclusion]). *)

From S2P Require Import Prelude Bits DList Spinlock.

(** ** Data *)

Definition kNumPriorities : Z := 32.
Definition kIdlePriority : Z := kNumPriorities - 1.

Inductive TaskState := Runnable | Running | Sleeping | Zombie | Dead.

(** [SchedClass]: the two classes, [g_sched_class_o1] and [g_sched_class_idle]. *)
Inductive SchedClass := ClassO1 | ClassIdle.

#[export] Instance TaskState_eq_dec : EqDecision TaskState.
Proof. solve_decision. Defined.
#[export] Instance SchedClass_eq_dec : EqDecision SchedClass.
Proof. solve_decision. Defined.

(** [arch::Context]: return address, stack pointer and [s0]-[s11]. *)
Record Context := mkCtx { ra : Z; sp : Z; s_regs : list Z }.

Definition zero_context : Context := mkCtx 0 0 (replicate 12 0).

(** [TaskControlBlock]; its list nodes and its wait queue are at fixed offsets
    of its address in the store of nodes. *)
Record TaskControlBlock := mkTcb {
  state : TaskState;
  priority : Z;
  cpu_id : Z;
  flags : Z;
  time_slice : Z;
  pid : Z;
  tgid : Z;
  context : Context;
  trapframe : Z;
  kstack_pa : Z;
  kstack_va : Z;
  mm : option Z;
  parent : option Z;
  exit_code : Z;
  sched_class : option SchedClass;
  sched_entity : option Z;
  name : string
}.

#[export] Instance TaskControlBlock_inhabited : Inhabited TaskControlBlock :=
  populate (mkTcb Dead 0 0 0 0 0 0 zero_context 0 0 0 None None 0 None None "").

Definition run_link (t : Z) : Z := t + 16.
Definition task_of_run_link (n : Z) : Z := n - 16.

Record RunQueue := mkRq {
  bitmap_ : Z;
  o1_nr_running_ : Z;
  nr_running_ : Z;
  need_resched_ : bool;
  current_ : option Z;
  idle_ : option Z
}.

#[export] Instance RunQueue_inhabited : Inhabited RunQueue := populate (mkRq 0 0 0 false None None).
#[export] Instance Context_inhabited : Inhabited Context := populate zero_context.

(** [regs] are the callee-saved registers of each CPU. *)
Record sched := mkSched {
  tcbs : gmap Z TaskControlBlock;
  links : heap;
  rqs : gmap Z RunQueue;
  regs : gmap Z Context
}.

Definition tcb (s : sched) (t : Z) : TaskControlBlock := tcbs s !!! t.
Definition rq (s : sched) (c : Z) : RunQueue := rqs s !!! c.

Definition set_tcb (t : Z) (d : TaskControlBlock) (s : sched) : sched :=
  mkSched (<[t := d]> (tcbs s)) (links s) (rqs s) (regs s).
Definition with_links (f : heap → heap) (s : sched) : sched :=
  mkSched (tcbs s) (f (links s)) (rqs s) (regs s).
Definition set_rq (c : Z) (q : RunQueue) (s : sched) : sched :=
  mkSched (tcbs s) (links s) (<[c := q]> (rqs s)) (regs s).
Definition set_regs (c : Z) (r : Context) (s : sched) : sched :=
  mkSched (tcbs s) (links s) (rqs s) (<[c := r]> (regs s)).

Definition tcb_state (v : TaskState) (d : TaskControlBlock) : TaskControlBlock :=
  mkTcb v (priority d) (cpu_id d) (flags d) (time_slice d) (pid d) (tgid d) (context d) (trapframe d)
    (kstack_pa d) (kstack_va d) (mm d) (parent d) (exit_code d) (sched_class d) (sched_entity d) (name d).
Definition tcb_slice (v : Z) (d : TaskControlBlock) : TaskControlBlock :=
  mkTcb (state d) (priority d) (cpu_id d) (flags d) v (pid d) (tgid d) (context d) (trapframe d)
    (kstack_pa d) (kstack_va d) (mm d) (parent d) (exit_code d) (sched_class d) (sched_entity d) (name d).
Definition tcb_context (v : Context) (d : TaskControlBlock) : TaskControlBlock :=
  mkTcb (state d) (priority d) (cpu_id d) (flags d) (time_slice d) (pid d) (tgid d) v (trapframe d)
    (kstack_pa d) (kstack_va d) (mm d) (parent d) (exit_code d) (sched_class d) (sched_entity d) (name d).
Definition tcb_class (c : option SchedClass) (e : option Z) (d : TaskControlBlock) : TaskControlBlock :=
  mkTcb (state d) (priority d) (cpu_id d) (flags d) (time_slice d) (pid d) (tgid d) (context d) (trapframe d)
    (kstack_pa d) (kstack_va d) (mm d) (parent d) (exit_code d) c e (name d).

Definition set_state (t : Z) (v : TaskState) (s : sched) : sched := set_tcb t (tcb_state v (tcb s t)) s.
Definition set_slice (t v : Z) (s : sched) : sched := set_tcb t (tcb_slice v (tcb s t)) s.

(** ** Time slices *)

Definition priority_to_timeslice (p : Z) : Z :=
  let ts := 20 - p * 19 ÷ 31 in
  if ts <? 1 then 1 else ts.

Section sched.
Context (g_rq : Z). (* link address of the array [g_rq] *)

(** [&g_rq[cpu].o1_.queues_[prio]]: 584 bytes per [RunQueue], the array of heads at 64. *)
Definition queue_head (cpu prio : Z) : Z := g_rq + 584 * cpu + 64 + 16 * prio.

(** ** O1RunQueue *)

Fixpoint init_queues (n : nat) (cpu p : Z) (h : heap) : heap :=
  match n with
  | O => h
  | S n' => init_queues n' cpu (p + 1) (node_init (queue_head cpu p) h)
  end.

Definition o1_init (cpu : Z) (s : sched) : sched :=
  let q := rq s cpu in
  with_links (init_queues (Z.to_nat kNumPriorities) cpu 0)
    (set_rq cpu (mkRq 0 0 (nr_running_ q) (need_resched_ q) (current_ q) (idle_ q)) s).

Definition o1_enqueue (cpu t : Z) (s : sched) : sched :=
  let prio := priority (tcb s t) in
  let s := with_links (push_back (queue_head cpu prio) (run_link t)) s in
  let q := rq s cpu in
  let s := set_rq cpu (mkRq (Z.lor (bitmap_ q) (u32 (Z.shiftl 1 prio))) (u32 (o1_nr_running_ q + 1))
    (nr_running_ q) (need_resched_ q) (current_ q) (idle_ q)) s in
  set_state t Runnable s.

Definition o1_dequeue (cpu t : Z) (s : sched) : sched :=
  let prio := priority (tcb s t) in
  let s := with_links (remove (run_link t)) s in
  let q := rq s cpu in
  let bm := if is_empty (queue_head cpu prio) (links s)
            then Z.land (bitmap_ q) (u32 (Z.lnot (Z.shiftl 1 prio))) else bitmap_ q in
  let n := if 0 <? o1_nr_running_ q then o1_nr_running_ q - 1 else o1_nr_running_ q in
  set_rq cpu (mkRq bm n (nr_running_ q) (need_resched_ q) (current_ q) (idle_ q)) s.

Definition o1_pick_next (cpu : Z) (s : sched) : option Z :=
  let q := rq s cpu in
  if bitmap_ q =? 0 then None
  else Some (task_of_run_link (next_of (links s) (queue_head cpu (ctz32 (bitmap_ q))))).

(** ** RunQueue *)

Definition rq_init (cpu : Z) (s : sched) : sched :=
  set_rq cpu (mkRq (bitmap_ (rq s cpu)) (o1_nr_running_ (rq s cpu)) 0 false None None) s.

Definition rq_nr (n : Z) (q : RunQueue) : RunQueue :=
  mkRq (bitmap_ q) (o1_nr_running_ q) n (need_resched_ q) (current_ q) (idle_ q).
Definition set_need_resched (cpu : Z) (v : bool) (s : sched) : sched :=
  let q := rq s cpu in
  set_rq cpu (mkRq (bitmap_ q) (o1_nr_running_ q) (nr_running_ q) v (current_ q) (idle_ q)) s.
Definition set_current (cpu t : Z) (s : sched) : sched :=
  let q := rq s cpu in
  set_rq cpu (mkRq (bitmap_ q) (o1_nr_running_ q) (nr_running_ q) (need_resched_ q) (Some t) (idle_ q)) s.
Definition set_idle (cpu t : Z) (s : sched) : sched :=
  let q := rq s cpu in
  set_rq cpu (mkRq (bitmap_ q) (o1_nr_running_ q) (nr_running_ q) (need_resched_ q) (current_ q) (Some t)) s.
Definition inc_running (cpu : Z) (s : sched) : sched :=
  set_rq cpu (rq_nr (u32 (nr_running_ (rq s cpu) + 1)) (rq s cpu)) s.
Definition dec_running (cpu : Z) (s : sched) : sched :=
  let n := nr_running_ (rq s cpu) in
  set_rq cpu (rq_nr (if 0 <? n then n - 1 else n) (rq s cpu)) s.

(** ** Scheduling classes *)

Definition class_next (k : SchedClass) : option SchedClass :=
  match k with ClassO1 => Some ClassIdle | ClassIdle => None end.

Definition enqueue_task (k : SchedClass) (cpu t : Z) (s : sched) : sched :=
  match k with ClassO1 => inc_running cpu (o1_enqueue cpu t s) | ClassIdle => s end.

Definition dequeue_task (k : SchedClass) (cpu t : Z) (s : sched) : sched :=
  match k with ClassO1 => dec_running cpu (o1_dequeue cpu t s) | ClassIdle => s end.

Definition class_pick_next (k : SchedClass) (cpu : Z) (s : sched) : option Z :=
  match k with ClassO1 => o1_pick_next cpu s | ClassIdle => idle_ (rq s cpu) end.

Definition put_prev_task (k : SchedClass) (cpu t : Z) (s : sched) : sched :=
  match k with ClassO1 | ClassIdle => s end.

Definition o1_task_tick (cpu t : Z) (s : sched) : sched :=
  if decide (Some t = idle_ (rq s cpu)) then s
  else
    let ts := time_slice (tcb s t) - 1 in
    let s := set_slice t ts s in
    if ts <=? 0 then
      let s := set_slice t (priority_to_timeslice (priority (tcb s t))) s in
      set_need_resched cpu true s
    else s.

Definition o1_yield_task (cpu t : Z) (s : sched) : sched :=
  if decide (Some t = idle_ (rq s cpu)) then s
  else set_need_resched cpu true (set_slice t 0 s).

Definition task_tick (k : SchedClass) (cpu t : Z) (s : sched) : sched :=
  match k with ClassO1 => o1_task_tick cpu t s | ClassIdle => s end.

Definition yield_task (k : SchedClass) (cpu t : Z) (s : sched) : sched :=
  match k with ClassO1 => o1_yield_task cpu t s | ClassIdle => s end.

(** ** Scheduler core *)

(** Following a null pointer faults. *)
Definition deref {A} (p : option A) : outcome A :=
  match p with Some a => Ret a | None => Panic "null pointer" end.

(** [pick_next_task]: the walk down the chain of classes from [k], [n] classes at most. *)
Fixpoint pick_from (n : nat) (k : option SchedClass) (cpu : Z) (s : sched) : option Z :=
  match n, k with
  | S n', Some k =>
      match class_pick_next k cpu s with
      | Some t => Some t
      | None => pick_from n' (class_next k) cpu s
      end
  | _, _ => idle_ (rq s cpu)
  end.

Definition pick_next_task (cpu : Z) (s : sched) : option Z := pick_from 2 (Some ClassO1) cpu s.

(** [sched_enqueue] and [sched_dequeue] give a task without a class the default one. *)
Definition sched_enqueue (t : Z) (s : sched) : sched :=
  let cpu := cpu_id (tcb s t) in
  let k := default ClassO1 (sched_class (tcb s t)) in
  let e := default (run_link t) (sched_entity (tcb s t)) in
  enqueue_task k cpu t (set_tcb t (tcb_class (Some k) (Some e) (tcb s t)) s).

Definition sched_dequeue (t : Z) (s : sched) : sched :=
  let cpu := cpu_id (tcb s t) in
  let k := default ClassO1 (sched_class (tcb s t)) in
  dequeue_task k cpu t (set_tcb t (tcb_class (Some k) (sched_entity (tcb s t)) (tcb s t)) s).

(** [arch::context_switch(&prev->context, &next->context)]. *)
Definition context_switch (cpu prev next : Z) (s : sched) : sched :=
  let s := set_tcb prev (tcb_context (regs s !!! cpu) (tcb s prev)) s in
  set_regs cpu (context (tcb s next)) s.

(** [schedule]: the outgoing task goes to the tail of its queue if it still runs,
    the next one is picked, and the CPU switches to it. *)
Definition schedule_prev (cpu : Z) (s : sched) : outcome sched :=
  match current_ (rq s cpu) with
  | None => Ret s
  | Some prev =>
      k ← deref (sched_class (tcb s prev));
      if decide (state (tcb s prev) = Running)
      then Ret (enqueue_task k cpu prev (set_state prev Runnable s))
      else Ret (put_prev_task k cpu prev s)
  end.

Definition schedule (cpu : Z) (s : sched) : outcome sched :=
  let prev := current_ (rq s cpu) in
  s ← schedule_prev cpu s;
  next ← deref (pick_next_task cpu s);
  if decide (prev = Some next) then
    let s := set_state next Running s in
    k ← deref (sched_class (tcb s next));
    Ret (set_need_resched cpu false (dequeue_task k cpu next s))
  else
    s ← (if decide (Some next = idle_ (rq s cpu)) then Ret s
         else k ← deref (sched_class (tcb s next)); Ret (dequeue_task k cpu next s));
    let s := set_need_resched cpu false (set_current cpu next (set_state next Running s)) in
    p ← deref prev;
    Ret (context_switch cpu p next s).

Definition sched_tick (cpu : Z) (s : sched) : outcome sched :=
  match current_ (rq s cpu) with
  | None => Ret s
  | Some curr => k ← deref (sched_class (tcb s curr)); Ret (task_tick k cpu curr s)
  end.

Definition sched_check_preempt (cpu : Z) (s : sched) : outcome sched :=
  if need_resched_ (rq s cpu) then schedule cpu s else Ret s.

Definition sched_yield (cpu : Z) (s : sched) : outcome sched :=
  s ← match current_ (rq s cpu) with
      | Some curr =>
          if decide (Some curr = idle_ (rq s cpu)) then Ret s
          else k ← deref (sched_class (tcb s curr));
               Ret (set_need_resched cpu true (yield_task k cpu curr s))
      | None => Ret s
      end;
  schedule cpu s.

(** ** Wait queues *)

Definition wq_init (w : Z) (s : sched) : sched := with_links (node_init w) s.

(** The critical section of [WaitQueue::sleep]. *)
Definition sleep_link (w curr : Z) (s : sched) : sched :=
  with_links (push_back w (run_link curr)) (set_state curr Sleeping s).

(** [WaitQueue::sleep] on CPU [cpu] (the external lock is released in between). *)
Definition sleep (w cpu : Z) (s : sched) : outcome sched :=
  match current_ (rq s cpu) with
  | None => Ret s
  | Some curr => schedule cpu (sleep_link w curr s)
  end.

(** Unlink the oldest waiter and make it runnable. *)
Definition wake_head (w : Z) (s : sched) : sched :=
  let node := next_of (links s) w in
  let s := with_links (remove node) s in
  let task := task_of_run_link node in
  sched_enqueue task (set_state task Runnable s).

Definition wake_one (w : Z) (s : sched) : bool * sched :=
  if is_empty w (links s) then (false, s) else (true, wake_head w s).

(** The [while (!head_.is_empty())] loop of [WaitQueue::wake_all]. *)
Definition wake_all_step (w : Z) : Z * sched → Z * sched + Z * sched := λ '(count, s),
  if is_empty w (links s) then inr (count, s) else inl (count + 1, wake_head w s).

Definition wake_all (w : Z) (s : sched) : outcome (Z * sched) :=
  match loop 64 (wake_all_step w) (0, s) with inr r => Ret r | inl _ => OutOfFuel end.
End sched.
