(* ===== verification/SchedInv.v ===== *)
(** * SchedInv: where every task is

    The invariant of the scheduler: the store of nodes represents one list per
    run queue and per wait queue, and every task is on exactly the list its state
    names.  [hand] is a task an operation has unlinked and not placed yet. *)

From S2P Require Import Prelude Bits DList Spinlock Sched.

(** ** Bits of the priority bitmap *)

Definition prio_ok (p : Z) : Prop := 0 ≤ p < kNumPriorities.

Lemma bitmap_set_testbit b p i :
  prio_ok p → 0 ≤ i → Z.testbit (Z.lor b (u32 (Z.shiftl 1 p))) i = Z.testbit b i || bool_decide (i = p).
Proof.
  unfold prio_ok, kNumPriorities. intros Hp Hi. rewrite Z.lor_spec. f_equal.
  rewrite wrap_small.
  - rewrite Z.shiftl_1_l, Z.pow2_bits_eqb by lia. case_bool_decide; [subst; by rewrite Z.eqb_refl|]. apply Z.eqb_neq. lia.
  - rewrite Z.shiftl_1_l. split; [lia|]. apply Z.pow_lt_mono_r; lia.
Qed.

Lemma bitmap_clear_testbit b p i :
  prio_ok p → prio_ok i →
  Z.testbit (Z.land b (u32 (Z.lnot (Z.shiftl 1 p)))) i = Z.testbit b i && negb (bool_decide (i = p)).
Proof.
  unfold prio_ok, kNumPriorities. intros Hp Hi. rewrite Z.land_spec. f_equal.
  unfold wrap. rewrite Z.mod_pow2_bits_low, Z.lnot_spec, Z.shiftl_1_l, Z.pow2_bits_eqb by lia. f_equal.
  case_bool_decide; [subst; by rewrite Z.eqb_refl|]. apply Z.eqb_neq. lia.
Qed.

Lemma bitmap_set_bound b p : prio_ok p → is_u32 b → is_u32 (Z.lor b (u32 (Z.shiftl 1 p))).
Proof. intros. apply lor_bound; [done|done|]. by apply wrap_range. Qed.

(** The priority [ctz32] finds is the most urgent one with its bit set. *)
Lemma bitmap_first b :
  is_u32 b → b ≠ 0 → prio_ok (ctz32 b) ∧ Z.testbit b (ctz32 b) = true ∧
  ∀ i, 0 ≤ i < ctz32 b → Z.testbit b i = false.
Proof.
  intros Hb Hne. destruct (ctz32_factor b) as (v & H0 & E & Ho); [unfold is_u32 in Hb; lia|].
  assert (Ht : Z.testbit b (ctz32 b) = true).
  { rewrite E at 1. rewrite factor_testbit, decide_False, Z.sub_diag, Z.bit0_odd by (lia || done). done. }
  split_and!; [|done|].
  - unfold prio_ok, kNumPriorities. split; [done|]. destruct (Z.lt_ge_cases (ctz32 b) 32) as [?|Hge]; [done|].
    apply bits_bound in Hb as [_ Hb]; [|done]. by rewrite Hb in Ht.
  - intros i Hi. rewrite E. by rewrite factor_testbit, decide_True by (lia || done).
Qed.

Lemma bitmap_zero b : is_u32 b → (∀ i, prio_ok i → Z.testbit b i = false) → b = 0.
Proof.
  intros Hb H0. destruct (decide (b = 0)) as [?|Hne]; [done|].
  destruct (bitmap_first b) as (Hp & Ht & _); [done..|]. by rewrite H0 in Ht.
Qed.

(** ** Projections of updated states *)

Section updates.
Context (s : sched).

Lemma tcb_set_tcb t d t' : tcbs (set_tcb t d s) !! t' = if decide (t = t') then Some d else tcbs s !! t'.
Proof. cbn. rewrite lookup_insert. done. Qed.
Lemma rq_set_rq c q c' : rq (set_rq c q s) c' = if decide (c = c') then q else rq s c'.
Proof. unfold rq. cbn. rewrite !lookup_total_alt, lookup_insert. by case_decide. Qed.
Lemma tcb_lookup t d : tcbs s !! t = Some d → tcb s t = d.
Proof. intros E. unfold tcb. by rewrite lookup_total_alt, E. Qed.
End updates.

Lemma task_run_link t : task_of_run_link (run_link t) = t.
Proof. unfold task_of_run_link, run_link. lia. Qed.
Lemma run_link_task n : run_link (task_of_run_link n) = n.
Proof. unfold task_of_run_link, run_link. lia. Qed.

(** ** The invariant *)

Section inv.
Context (g_rq : Z).
Abbreviation queue_head := (queue_head g_rq).

Definition is_queue (w : Z) : Prop := ∃ c p, cpu_ok c ∧ prio_ok p ∧ w = queue_head c p.

Lemma queue_head_inj c p c' p' : prio_ok p → prio_ok p' → queue_head c p = queue_head c' p' → c = c' ∧ p = p'.
Proof. unfold prio_ok, kNumPriorities, Sched.queue_head. lia. Qed.

(** A task control block is usable by the scheduler. *)
Definition tcb_ok (d : TaskControlBlock) : Prop :=
  prio_ok (priority d) ∧ cpu_ok (cpu_id d) ∧ is_Some (sched_class d).

(** The list a task of the O(1) class is on, by its state. *)
Definition placed (σ : lists) (t : Z) (d : TaskControlBlock) : Prop :=
  match state d with
  | Runnable => ∃ l, σ !! queue_head (cpu_id d) (priority d) = Some l ∧ run_link t ∈ l
  | Sleeping => ∃ w l, ¬ is_queue w ∧ σ !! w = Some l ∧ run_link t ∈ l
  | Running | Zombie | Dead => unlinked (run_link t) σ
  end.

Record sched_ok (hand : option Z) (σ : lists) (s : sched) : Prop := {
  so_rep : represents (links s) σ;
  so_task t d : tcbs s !! t = Some d → tcb_ok d ∧ σ !! run_link t = None;
  so_member w l n : σ !! w = Some l → n ∈ l → ∃ d, tcbs s !! task_of_run_link n = Some d ∧
    sched_class d = Some ClassO1 ∧
    ((state d = Runnable ∧ w = queue_head (cpu_id d) (priority d)) ∨ (state d = Sleeping ∧ ¬ is_queue w));
  so_queue c p : cpu_ok c → prio_ok p → ∃ l, σ !! queue_head c p = Some l ∧
    (Z.testbit (bitmap_ (rq s c)) p = true ↔ l ≠ []);
  so_bitmap c : cpu_ok c → is_u32 (bitmap_ (rq s c));
  so_current c t : cpu_ok c → current_ (rq s c) = Some t →
    ∃ d, tcbs s !! t = Some d ∧ cpu_id d = c ∧ (sched_class d = Some ClassIdle → idle_ (rq s c) = Some t);
  so_idle c t : cpu_ok c → idle_ (rq s c) = Some t →
    ∃ d, tcbs s !! t = Some d ∧ cpu_id d = c ∧ sched_class d = Some ClassIdle ∧ state d ∈ [Runnable; Running];
  so_running t d : hand ≠ Some t → tcbs s !! t = Some d → state d = Running → current_ (rq s (cpu_id d)) = Some t;
  so_placed t d : hand ≠ Some t → tcbs s !! t = Some d → sched_class d = Some ClassO1 → placed σ t d;
  so_hand t : hand = Some t → ∃ d, tcbs s !! t = Some d ∧ sched_class d = Some ClassO1 ∧ unlinked (run_link t) σ
}.

(** Members of lists are where the invariant says, and nowhere else. *)
Lemma member_unique hand σ s w l w' l' n :
  sched_ok hand σ s → σ !! w = Some l → n ∈ l → σ !! w' = Some l' → n ∈ l' → w = w'.
Proof. intros Hok Hw Hn Hw' Hn'. by eapply (rep_disj _ _ (so_rep _ _ _ Hok)); [..|right|right]. Qed.

(** ** Taking a task in hand and putting it back *)

Section hand.
Context (σ : lists) (s : sched) (t : Z) (d : TaskControlBlock).

(** A running task of the O(1) class is on no list, so an operation may hold it. *)
Lemma take_running :
  sched_ok None σ s → tcbs s !! t = Some d → state d = Running → sched_class d = Some ClassO1 →
  sched_ok (Some t) σ s.
Proof.
  intros [] Ht Hst Hcl. pose proof (so_placed0 t d ltac:(done) Ht Hcl) as Hp. unfold placed in Hp. rewrite Hst in Hp.
  split; eauto; intros; simplify_eq; eauto.
Qed.

(** Its control block may change in any field the invariant does not mention. *)
Lemma hand_update d' :
  sched_ok (Some t) σ s → tcbs s !! t = Some d → cpu_id d' = cpu_id d → priority d' = priority d →
  sched_class d' = sched_class d → sched_ok (Some t) σ (set_tcb t d' s).
Proof.
  intros [] Ht Hc Hp Hk. destruct (so_hand0 t eq_refl) as (d0 & E & Hcl & Hun). simplify_eq.
  assert (Hin : ∀ w l n, σ !! w = Some l → n ∈ l → task_of_run_link n ≠ t).
  { intros w l n Hw Hn <-. rewrite run_link_task in Hun. apply (Hun w l Hw). by right. }
  split; auto.
  - intros t' d1. rewrite tcb_set_tcb. case_decide; [|eauto]. subst. intros [= <-]. destruct (so_task0 _ _ Ht).
    split; [|done]. unfold tcb_ok in *. by rewrite Hp, Hc, Hk.
  - intros w l n Hw Hn. rewrite tcb_set_tcb, decide_False by (intros E2; by apply (Hin w l n Hw Hn)). eauto.
  - intros c t' Hc' Hcur. rewrite tcb_set_tcb. destruct (so_current0 c t' Hc' Hcur) as (d1 & E1 & ? & ?).
    case_decide; [subst|eauto]. simplify_eq. eexists. by rewrite Hc, Hk.
  - intros c t' Hc' Hid. rewrite tcb_set_tcb. destruct (so_idle0 c t' Hc' Hid) as (d1 & E1 & ? & ? & ?).
    case_decide; [subst|eauto]. simplify_eq.
  - intros t' d1 Hne. rewrite tcb_set_tcb, decide_False by congruence. eauto.
  - intros t' d1 Hne. rewrite tcb_set_tcb, decide_False by congruence. eauto.
  - intros t' [= <-]. exists d'. rewrite tcb_set_tcb, decide_True by done. by rewrite Hk.
Qed.
End hand.

(** Updating run-queue fields other than the bitmap, the current and the idle task. *)
Lemma rq_fields hand σ s c q :
  sched_ok hand σ s → bitmap_ q = bitmap_ (rq s c) → current_ q = current_ (rq s c) → idle_ q = idle_ (rq s c) →
  sched_ok hand σ (set_rq c q s).
Proof.
  intros [] Hb Hc Hi.
  assert (E : ∀ c', bitmap_ (rq (set_rq c q s) c') = bitmap_ (rq s c') ∧
    current_ (rq (set_rq c q s) c') = current_ (rq s c') ∧ idle_ (rq (set_rq c q s) c') = idle_ (rq s c')).
  { intros c'. rewrite rq_set_rq. by case_decide; subst. }
  split; auto; intros *; repeat match goal with
    | |- context [rq (set_rq c q s) ?x] => destruct (E x) as (E1 & E2 & E3); rewrite ?E1, ?E2, ?E3; clear E1 E2 E3
    end; eauto.
Qed.

(** ** Linking and unlinking *)

(** Only the list [w] changes, and not for task [t]. *)
Lemma placed_update σ w l l' t d :
  σ !! w = Some l → (run_link t ∈ l ↔ run_link t ∈ l') → placed σ t d → placed (<[w := l']> σ) t d.
Proof.
  intros Hw Hiff. unfold placed.
  assert (Hmv : ∀ w' k, σ !! w' = Some k → run_link t ∈ k → ∃ k', <[w := l']> σ !! w' = Some k' ∧ run_link t ∈ k').
  { intros w' k Hw' Hin. destruct (decide (w = w')) as [<-|]; [|exists k; by rewrite lookup_insert_ne].
    rewrite lookup_insert_eq. simplify_eq. naive_solver. }
  assert (Hun : unlinked (run_link t) σ → unlinked (run_link t) (<[w := l']> σ)).
  { intros Hu w' k [[<- <-]|[_ Hw']]%lookup_insert_Some; [|by apply Hu]. specialize (Hu w l Hw).
    rewrite not_elem_of_cons in *. naive_solver. }
  destruct (state d); naive_solver.
Qed.

(** The bitmaps of [s] say which queues of [σ] are empty. *)
Definition bitmaps_ok (σ : lists) (s : sched) : Prop :=
  ∀ c, cpu_ok c → is_u32 (bitmap_ (rq s c)) ∧
    ∀ p, prio_ok p → ∃ l, σ !! queue_head c p = Some l ∧ (Z.testbit (bitmap_ (rq s c)) p = true ↔ l ≠ []).

Lemma sched_bitmaps hand σ s : sched_ok hand σ s → bitmaps_ok σ s.
Proof. intros [] c Hc. auto. Qed.

(** The bitmap and the queue of one CPU and priority change together. *)
Lemma bitmaps_update σ s s' c p l :
  bitmaps_ok σ s → cpu_ok c → prio_ok p → (∀ c', c' ≠ c → rq s' c' = rq s c') → is_u32 (bitmap_ (rq s' c)) →
  (∀ i, prio_ok i → Z.testbit (bitmap_ (rq s' c)) i =
    if decide (i = p) then bool_decide (l ≠ []) else Z.testbit (bitmap_ (rq s c)) i) →
  bitmaps_ok (<[queue_head c p := l]> σ) s'.
Proof.
  intros Hb Hc Hp Hother Hu Hbits c' Hc'. destruct (Hb c' Hc') as [Hu' Hq].
  destruct (decide (c' = c)) as [->|Hne].
  - split; [done|]. intros i Hi. rewrite Hbits by done. case_decide as Ei.
    + subst. exists l. rewrite lookup_insert_eq. split; [done|]. by rewrite bool_decide_eq_true.
    + destruct (Hq i Hi) as (k & Hk & ?). exists k. rewrite lookup_insert_ne; [done|].
      intros E%queue_head_inj; [naive_solver|done..].
  - rewrite Hother by done. split; [done|]. intros i Hi. destruct (Hq i Hi) as (k & Hk & ?). exists k.
    rewrite lookup_insert_ne; [done|]. intros E%queue_head_inj; [naive_solver|done..].
Qed.

Section link.
Context (σ : lists) (s s' : sched) (t w : Z) (d d' : TaskControlBlock).
Context (Ht : tcbs s !! t = Some d).
Context (Hcur : ∀ c, current_ (rq s' c) = current_ (rq s c)) (Hidle : ∀ c, idle_ (rq s' c) = idle_ (rq s c)).

(** The task in hand goes to the tail of the list its new state names. *)
Lemma link_ok l :
  sched_ok (Some t) σ s → σ !! w = Some l →
  links s' = push_back w (run_link t) (links s) → tcbs s' = <[t := d']> (tcbs s) →
  cpu_id d' = cpu_id d → priority d' = priority d → sched_class d' = sched_class d →
  (state d' = Runnable ∧ w = queue_head (cpu_id d) (priority d)) ∨ (state d' = Sleeping ∧ ¬ is_queue w) →
  bitmaps_ok (<[w := l ++ [run_link t]]> σ) s' → sched_ok None (<[w := l ++ [run_link t]]> σ) s'.
Proof using Ht Hcur Hidle.
  intros Hok Hw Hlinks Htcbs Hc Hp Hk Hst Hb.
  destruct Hok as [Hrep Htask Hmem _ _ Hcu Hid Hrun Hpl Hhand]. destruct (Hhand t eq_refl) as (d0 & E & Hcl & Hun).
  rewrite Ht in E. injection E as <-.
  assert (Htc : ∀ t', tcbs s' !! t' = if decide (t = t') then Some d' else tcbs s !! t')
    by (intros t'; by rewrite Htcbs, lookup_insert).
  assert (Hin : ∀ w k n, σ !! w = Some k → n ∈ k → task_of_run_link n ≠ t).
  { intros w' k n Hw' Hn <-. rewrite run_link_task in Hun. apply (Hun w' k Hw'). by right. }
  split.
  - rewrite Hlinks. by apply represents_push_back.
  - intros t' d1. rewrite Htc. intros E.
    assert (Hn : tcb_ok d1 ∧ σ !! run_link t' = None).
    { case_decide; [|by apply Htask]. simplify_eq. destruct (Htask _ _ Ht). unfold tcb_ok in *. by rewrite Hc, Hp, Hk. }
    split; [tauto|]. rewrite lookup_insert_ne; [tauto|]. intros Eh. destruct Hn as [_ Hn]. by rewrite <- Eh, Hw in Hn.
  - intros w' k n Hw' Hn. rewrite Htc.
    assert (Hold : ∀ k', σ !! w' = Some k' → n ∈ k' → task_of_run_link n ≠ t) by eauto.
    apply lookup_insert_Some in Hw' as [[<- <-]|[Hne Hw']].
    + apply elem_of_app in Hn as [Hn| ->%list_elem_of_singleton].
      * rewrite decide_False by (intros E; by apply (Hold l)). by apply (Hmem w l).
      * rewrite task_run_link, decide_True by done. exists d'. by rewrite Hk, Hc, Hp.
    + rewrite decide_False by (intros E; by apply (Hold k)). by apply (Hmem w' k).
  - intros c p Hc' Hp'. by apply Hb.
  - intros c Hc'. by apply Hb.
  - intros c t' Hc'. rewrite Hcur, Hidle, Htc. intros Ec. destruct (Hcu c t' Hc' Ec) as (d1 & E1 & ? & ?).
    case_decide; [subst; simplify_eq|eauto]. exists d'. by rewrite Hc, Hk.
  - intros c t' Hc'. rewrite Hidle, Htc. intros Ei. destruct (Hid c t' Hc' Ei) as (d1 & E1 & ? & ? & ?).
    case_decide; [subst; simplify_eq|eauto].
  - intros t' d1 _. rewrite Htc, Hcur. case_decide; [|apply Hrun; congruence]. intros [= <-] Hr. destruct Hst as [[]|[]]; congruence.
  - intros t' d1 _. rewrite Htc. case_decide as Et.
    + subst. intros [= <-] _. unfold placed. destruct Hst as [[-> ->]|[-> Hq]].
      * rewrite Hc, Hp. eexists. rewrite lookup_insert_eq. split; [done|]. apply elem_of_app. right. left.
      * exists w. eexists. rewrite lookup_insert_eq. split_and!; [done..|]. apply elem_of_app. right. left.
    + intros E1 Hk1. apply (placed_update σ w l); [done| |apply Hpl; congruence].
      rewrite elem_of_app, list_elem_of_singleton. unfold run_link. split; [by left|]. intros [?|?]; [done|lia].
  - done.
Qed.

(** A task of a list is unlinked and in hand. *)
Lemma unlink_ok l1 l2 :
  sched_ok None σ s → σ !! w = Some (l1 ++ run_link t :: l2) →
  links s' = remove (run_link t) (links s) → tcbs s' = tcbs s →
  bitmaps_ok (<[w := l1 ++ l2]> σ) s' → sched_ok (Some t) (<[w := l1 ++ l2]> σ) s'.
Proof using Ht Hcur Hidle.
  intros Hok Hw Hlinks Htcbs Hb.
  assert (Hcl : sched_class d = Some ClassO1).
  { destruct (so_member _ _ _ Hok w _ (run_link t) Hw) as (d0 & E & ? & _); [in_list|].
    rewrite task_run_link, Ht in E. by simplify_eq. }
  destruct Hok as [Hrep Htask Hmem _ _ Hcu Hid Hrun Hpl _].
  assert (Hnd : run_link t ∉ l1 ++ l2).
  { pose proof (rep_list _ _ Hrep w _ Hw) as [[_ Hn]%NoDup_cons _]. apply NoDup_app in Hn as (_ & H1 & [H2 _]%NoDup_cons).
    rewrite elem_of_app. intros [Hi|Hi]; [|done]. apply (H1 _ Hi). left. }
  split; rewrite ?Htcbs; auto.
  - rewrite Hlinks. by apply represents_remove.
  - intros t' d1 E. destruct (Htask t' d1 E). split; [done|]. rewrite lookup_insert_ne; congruence.
  - intros w' k n [[<- <-]|[Hne Hw']]%lookup_insert_Some Hn; [|by apply (Hmem w' k)].
    apply (Hmem w _ n Hw). in_list.
  - intros c p Hc' Hp'. by apply Hb.
  - intros c Hc'. by apply Hb.
  - intros c t' Hc'. rewrite Hcur, Hidle. auto.
  - intros c t' Hc'. rewrite Hidle. auto.
  - intros t' d1 _ E. rewrite Hcur. by apply Hrun.
  - intros t' d1 Hne E Hk. apply (placed_update σ w (l1 ++ run_link t :: l2)); [done| |by apply Hpl].
    assert (run_link t' ≠ run_link t) by (unfold run_link; intros ?; apply Hne; f_equal; lia). in_list.
  - intros t' [= <-]. exists d. split_and!; [done..|]. intros w' k [[<- <-]|[Hne Hw']]%lookup_insert_Some.
    + rewrite not_elem_of_cons. split; [|done]. intros E. destruct (Htask t d Ht) as [_ E']. by rewrite E, Hw in E'.
    + intros Hi. apply Hne. eapply (rep_disj _ _ Hrep w _ w' k); [done..| |exact Hi]. in_list.
Qed.
End link.

Lemma o1_enqueue_ok σ s t d l :
  let h := queue_head (cpu_id d) (priority d) in
  sched_ok (Some t) σ s → tcbs s !! t = Some d → σ !! h = Some l →
  sched_ok None (<[h := l ++ [run_link t]]> σ) (o1_enqueue g_rq (cpu_id d) t s).
Proof.
  intros h Hok Ht Hl. destruct (so_task _ _ _ Hok t d Ht) as [(Hp & Hc & _) _]. unfold o1_enqueue.
  rewrite (tcb_lookup _ _ _ Ht). set (s' := set_state _ _ _).
  assert (Hrq : ∀ c, rq s' c = if decide (cpu_id d = c)
    then mkRq (Z.lor (bitmap_ (rq s c)) (u32 (Z.shiftl 1 (priority d)))) (u32 (o1_nr_running_ (rq s c) + 1))
      (nr_running_ (rq s c)) (need_resched_ (rq s c)) (current_ (rq s c)) (idle_ (rq s c)) else rq s c).
  { intros c. unfold s', set_state. change (rq (set_tcb ?x ?y ?z) c) with (rq z c). rewrite rq_set_rq.
    case_decide; by subst. }
  apply (link_ok σ s s' t h d (tcb_state Runnable d)); try done.
  - intros c. rewrite Hrq. by case_decide.
  - intros c. rewrite Hrq. by case_decide.
  - unfold s', set_state, set_tcb. cbn. do 2 f_equal. by apply tcb_lookup.
  - by left.
  - apply (bitmaps_update σ s); [by eapply sched_bitmaps|done|done|..].
    + intros c' Hne. by rewrite Hrq, decide_False.
    + rewrite Hrq, decide_True by done. apply bitmap_set_bound; [done|]. by apply Hok.
    + intros i Hi. rewrite Hrq, decide_True by done. cbn. rewrite bitmap_set_testbit by (done || apply Hi).
      case_decide; [subst|by rewrite bool_decide_false, orb_false_r].
      rewrite bool_decide_true, orb_true_r by done. symmetry. apply bool_decide_eq_true. by destruct l.
Qed.

Lemma o1_dequeue_ok σ s t d l1 l2 :
  let h := queue_head (cpu_id d) (priority d) in
  sched_ok None σ s → tcbs s !! t = Some d → σ !! h = Some (l1 ++ run_link t :: l2) →
  sched_ok (Some t) (<[h := l1 ++ l2]> σ) (o1_dequeue g_rq (cpu_id d) t s).
Proof.
  intros h Hok Ht Hl. destruct (so_task _ _ _ Hok t d Ht) as [(Hp & Hc & _) _]. unfold o1_dequeue.
  rewrite (tcb_lookup _ _ _ Ht). set (s1 := with_links _ s). set (s' := set_rq _ _ _).
  assert (He : is_empty h (links s1) = bool_decide (l1 ++ l2 = [])).
  { apply eq_true_iff_eq. rewrite bool_decide_eq_true. apply is_empty_spec.
    assert (Hr : represents (links s1) (<[h := l1 ++ l2]> σ)) by (apply represents_remove; [apply Hok|done]).
    apply Hr. by rewrite lookup_insert_eq. }
  assert (Hrq : ∀ c, c ≠ cpu_id d → rq s' c = rq s c).
  { intros c Hne. unfold s'. by rewrite rq_set_rq, decide_False. }
  assert (Hrq' : current_ (rq s' (cpu_id d)) = current_ (rq s (cpu_id d)) ∧ idle_ (rq s' (cpu_id d)) = idle_ (rq s (cpu_id d)) ∧
     bitmap_ (rq s' (cpu_id d)) = if bool_decide (l1 ++ l2 = [])
       then Z.land (bitmap_ (rq s (cpu_id d))) (u32 (Z.lnot (Z.shiftl 1 (priority d)))) else bitmap_ (rq s (cpu_id d))).
  { unfold s'. rewrite rq_set_rq, decide_True by done. cbn. rewrite <- He. done. }
  destruct Hrq' as (Hc1 & Hc2 & Hbm).
  apply (unlink_ok σ s s' t h d); try done.
  - intros c. destruct (decide (c = cpu_id d)) as [->|]; [done|]. by rewrite Hrq.
  - intros c. destruct (decide (c = cpu_id d)) as [->|]; [done|]. by rewrite Hrq.
  - pose proof (sched_bitmaps _ _ _ Hok) as Hbs. destruct (Hbs _ Hc) as [Hu Hq].
    apply (bitmaps_update σ s); [done..| |].
    + rewrite Hbm. case_bool_decide; [|done]. by apply land_bound.
    + intros i Hi. rewrite Hbm. destruct (Hq (priority d) Hp) as (l & Hl' & Hbit). fold h in Hl'. simplify_eq.
      case_bool_decide as En; case_decide as Ei; subst.
      * rewrite bitmap_clear_testbit, (bool_decide_true (priority d = priority d)), andb_false_r by done.
        symmetry. apply bool_decide_eq_false. naive_solver.
      * by rewrite bitmap_clear_testbit, bool_decide_false, andb_true_r.
      * rewrite bool_decide_true by done. apply Hbit. by destruct l1.
      * done.
Qed.
End inv.
