(* ===== verification/SchedOps.v ===== *)
(** * SchedOps: what the scheduler's operations do

    Each operation of the scheduler core and of the wait queues keeps the
    invariant of [SchedInv] and is described as an operation on the lists. *)

From S2P Require Import Prelude Bits DList Spinlock Sched SchedInv.
From stdpp Require Import relations.
Open Scope Z_scope.

(** Two states with the same tasks up to their states, registers and idle tasks. *)
Record same_tasks (s s' : sched) : Prop := {
  st_tcbs : tcb_state Dead <$> tcbs s' = tcb_state Dead <$> tcbs s;
  st_regs : regs s' = regs s;
  st_idle c : idle_ (rq s' c) = idle_ (rq s c)
}.

#[export] Instance same_tasks_po : PreOrder same_tasks.
Proof.
  split; [by split|]. intros s1 s2 s3 [] []. split; [by rewrite st_tcbs1|by rewrite st_regs1|].
  intros c. by rewrite st_idle1.
Qed.

Lemma same_tasks_some s s' t d :
  same_tasks s s' → tcbs s !! t = Some d → ∃ v, tcbs s' !! t = Some (tcb_state v d).
Proof.
  intros [E _ _] Ht. pose proof (f_equal (lookup t) E) as E'. rewrite !lookup_fmap, Ht in E'.
  destruct (tcbs s' !! t) as [d'|]; [|done]. exists (state d').
  destruct d, d'. cbn in *. by simplify_eq.
Qed.

Lemma same_tasks_set_state s t d v : tcbs s !! t = Some d → same_tasks s (set_state t v s).
Proof.
  intros Ht. split; [|done|done]. unfold set_state, set_tcb. cbn. rewrite fmap_insert. apply map_eq. intros t'.
  rewrite lookup_insert. case_decide; [|done]. subst. by rewrite lookup_fmap, Ht, (tcb_lookup _ _ _ Ht).
Qed.

(** Changes of links and of run queues that keep the idle task. *)
Lemma same_tasks_links s f : same_tasks s (with_links f s).
Proof. done. Qed.
Lemma same_tasks_rq s c q : idle_ q = idle_ (rq s c) → same_tasks s (set_rq c q s).
Proof. intros Hi. split; [done|done|]. intros c'. rewrite rq_set_rq. by case_decide; subst. Qed.

Section ops.
Context (g_rq : Z).
Abbreviation queue_head := (queue_head g_rq).
Abbreviation sched_ok := (sched_ok g_rq).
Abbreviation is_queue := (is_queue g_rq).

(** ** Enqueueing and dequeueing through the class *)

Lemma enqueue_task_ok σ s t d l :
  let h := queue_head (cpu_id d) (priority d) in
  sched_ok (Some t) σ s → tcbs s !! t = Some d → σ !! h = Some l →
  sched_ok None (<[h := l ++ [run_link t]]> σ) (enqueue_task g_rq ClassO1 (cpu_id d) t s).
Proof. intros h Hok Ht Hl. apply rq_fields; [|done..]. by apply o1_enqueue_ok. Qed.

Lemma enqueue_task_same s t d c : tcbs s !! t = Some d → same_tasks s (enqueue_task g_rq ClassO1 c t s).
Proof.
  intros Ht. cbn. unfold inc_running. etrans; [|by apply same_tasks_rq]. unfold o1_enqueue.
  etrans; [apply (same_tasks_links s)|]. etrans; [apply same_tasks_rq|].
  2: by eapply same_tasks_set_state. done.
Qed.

Lemma dequeue_task_ok σ s t d l1 l2 :
  let h := queue_head (cpu_id d) (priority d) in
  sched_ok None σ s → tcbs s !! t = Some d → σ !! h = Some (l1 ++ run_link t :: l2) →
  sched_ok (Some t) (<[h := l1 ++ l2]> σ) (dequeue_task g_rq ClassO1 (cpu_id d) t s).
Proof. intros h Hok Ht Hl. apply rq_fields; [|done..]. by apply o1_dequeue_ok. Qed.

Lemma dequeue_task_same s t c : same_tasks s (dequeue_task g_rq ClassO1 c t s).
Proof.
  cbn. unfold dec_running. etrans; [|by apply same_tasks_rq]. unfold o1_dequeue.
  etrans; [apply (same_tasks_links s)|]. by apply same_tasks_rq.
Qed.

Lemma dequeue_task_tcbs s t c : tcbs (dequeue_task g_rq ClassO1 c t s) = tcbs s.
Proof. done. Qed.

Lemma queue_current k c t s c' :
  current_ (rq (enqueue_task g_rq k c t s) c') = current_ (rq s c') ∧
  current_ (rq (dequeue_task g_rq k c t s) c') = current_ (rq s c').
Proof.
  destruct k; [|done]. cbn. unfold inc_running, dec_running, o1_enqueue, o1_dequeue.
  split; rewrite rq_set_rq; [|]; case_decide; subst; cbn; unfold set_state;
    try change (rq (set_tcb ?x ?y ?z) ?c) with (rq z c); rewrite rq_set_rq; by case_decide; subst.
Qed.

Lemma queue_other k c t s c' :
  c' ≠ c → rq (enqueue_task g_rq k c t s) c' = rq s c' ∧ rq (dequeue_task g_rq k c t s) c' = rq s c'.
Proof.
  intros Hne. destruct k; [|done]. cbn. unfold inc_running, dec_running, o1_enqueue, o1_dequeue.
  split; rewrite rq_set_rq, decide_False by done; unfold set_state;
    try change (rq (set_tcb ?x ?y ?z) ?c) with (rq z c); by rewrite rq_set_rq, decide_False by done.
Qed.

(** ** The outgoing task *)

(** A running O(1) task is requeued at the tail of its queue. *)
Definition requeue (σ : lists) (s : sched) (c : Z) : lists :=
  match current_ (rq s c) with
  | Some p =>
      let d := tcb s p in
      if decide (state d = Running ∧ sched_class d = Some ClassO1)
      then let h := queue_head (cpu_id d) (priority d) in <[h := default [] (σ !! h) ++ [run_link p]]> σ
      else σ
  | None => σ
  end.

(** No task runs on [c]. *)
Definition none_running (c : Z) (s : sched) : Prop :=
  ∀ t d, tcbs s !! t = Some d → cpu_id d = c → state d ≠ Running.

(** A running idle task is set aside. *)
Lemma idle_runnable σ s c t d :
  sched_ok None σ s → cpu_ok c → idle_ (rq s c) = Some t → tcbs s !! t = Some d →
  sched_ok None σ (set_state t Runnable s).
Proof.
  intros Hok Hc Hi Ht. destruct (so_idle _ _ _ _ Hok c t Hc Hi) as (d0 & E & Hcpu & Hcl & _). simplify_eq.
  destruct Hok as [Hrep Htask Hmem Hq Hb Hcu Hid Hrun Hpl Hh].
  assert (Htc : ∀ t', tcbs (set_state t Runnable s) !! t' = if decide (t = t') then Some (tcb_state Runnable d) else tcbs s !! t').
  { intros t'. unfold set_state. rewrite tcb_set_tcb. by rewrite (tcb_lookup _ _ _ Ht). }
  split; auto.
  - intros t' d1. rewrite Htc. case_decide; [|auto]. subst. intros [= <-]. destruct (Htask _ _ Ht). done.
  - intros w l n Hw Hn. destruct (Hmem w l n Hw Hn) as (d1 & E & Hcl1 & ?). rewrite Htc. case_decide; [|eauto].
    subst. by simplify_eq.
  - intros c' t' Hc' Ec. destruct (Hcu c' t' Hc' Ec) as (d1 & E & ? & ?). rewrite Htc. case_decide; [|eauto].
    subst. simplify_eq. by eexists.
  - intros c' t' Hc' Ei. destruct (Hid c' t' Hc' Ei) as (d1 & E & ? & ? & ?). rewrite Htc. case_decide; [|eauto].
    subst. simplify_eq. eexists. split_and!; [done..|]. cbn. left.
  - intros t' d1 _. rewrite Htc. case_decide; [by intros [= <-]|]. by apply Hrun.
  - intros t' d1 _. rewrite Htc. case_decide; [|auto]. intros [= <-]. cbn. by rewrite Hcl.
  - done.
Qed.

Lemma schedule_prev_ok σ s c :
  sched_ok None σ s → cpu_ok c →
  ∃ s1, schedule_prev g_rq c s = Ret s1 ∧ sched_ok None (requeue σ s c) s1 ∧ none_running c s1 ∧
    same_tasks s s1 ∧ current_ (rq s1 c) = current_ (rq s c) ∧ (∀ c', c' ≠ c → rq s1 c' = rq s c').
Proof.
  intros Hok Hc. unfold schedule_prev, requeue.
  destruct (current_ (rq s c)) as [p|] eqn:Ecur.
  2: { exists s. split_and!; [done..| |done|done|done]. intros t' d' E Hcpu Hr.
       pose proof (so_running _ _ _ _ Hok t' d' ltac:(done) E Hr) as Ec. by rewrite Hcpu, Ecur in Ec. }
  destruct (so_current _ _ _ _ Hok c p Hc Ecur) as (d & Hp & Hcpu & Hid).
  destruct (so_task _ _ _ _ Hok p d Hp) as [(Hprio & _ & [k Hk]) _].
  rewrite (tcb_lookup _ _ _ Hp), Hk. cbn.
  destruct (decide (state d = Running)) as [Hst|Hst].
  - destruct k.
    + rewrite decide_True by done. subst c. set (s0 := set_state p Runnable s).
      assert (Hp0 : tcbs s0 !! p = Some (tcb_state Runnable d)).
      { unfold s0, set_state. by rewrite tcb_set_tcb, decide_True, (tcb_lookup _ _ _ Hp). }
      assert (Hok0 : sched_ok (Some p) σ s0).
      { apply (hand_update g_rq σ s p d); rewrite ?(tcb_lookup _ _ _ Hp); [by eapply take_running|done..]. }
      destruct (so_queue _ _ _ _ Hok (cpu_id d) (priority d)) as (l & Hl & _); [done..|].
      assert (Hok1 := enqueue_task_ok σ s0 p (tcb_state Runnable d) l Hok0 Hp0 Hl).
      eexists. split; [done|]. cbn [cpu_id priority tcb_state] in Hok1. rewrite Hl. cbn [default].
      split; [exact Hok1|].
      assert (Hsame : same_tasks s (enqueue_task g_rq ClassO1 (cpu_id d) p s0)).
      { etrans; [by eapply (same_tasks_set_state s p)|]. by eapply enqueue_task_same. }
      assert (Hcur : current_ (rq (enqueue_task g_rq ClassO1 (cpu_id d) p s0) (cpu_id d)) = Some p).
      { destruct (queue_current ClassO1 (cpu_id d) p s0 (cpu_id d)) as [-> _]. done. }
      split_and!; [|done|done|by intros c' ?; destruct (queue_other ClassO1 (cpu_id d) p s0 c') as [-> _]]. intros t' d' E Hc' Hr.
      pose proof (so_running _ _ _ _ Hok1 t' d' ltac:(done) E Hr) as Ec. rewrite Hc', Hcur in Ec. injection Ec as <-.
      assert (Hun := so_placed _ _ _ _ Hok1 p d' ltac:(done) E).
      destruct (same_tasks_some _ _ p d Hsame Hp) as (v & E'). simplify_eq. cbn in *. specialize (Hun Hk).
      unfold placed in Hun. cbn in Hun. rewrite Hr in Hun. eapply Hun; [by rewrite lookup_insert_eq|]. in_list.
    + rewrite decide_False by naive_solver. exists (set_state p Runnable s). split; [done|].
      assert (Hi : idle_ (rq s c) = Some p) by auto.
      assert (Hok1 : sched_ok None σ (set_state p Runnable s)) by by eapply idle_runnable.
      split_and!; [done| |by eapply same_tasks_set_state|done|done].
      intros t' d' E Hc' Hr. pose proof (so_running _ _ _ _ Hok1 t' d' ltac:(done) E Hr) as Ec.
      change (current_ (rq s (cpu_id d')) = Some t') in Ec. rewrite Hc', Ecur in Ec. injection Ec as <-.
      unfold set_state in E. rewrite tcb_set_tcb, decide_True in E by done. by injection E as <-.
  - rewrite decide_False by naive_solver. destruct k; (exists s; split_and!; [done..| |done|done|done]);
      intros t' d' E Hc' Hr; pose proof (so_running _ _ _ _ Hok t' d' ltac:(done) E Hr) as Ec;
      rewrite Hc', Ecur in Ec; by simplify_eq.
Qed.

(** ** Picking *)

(** The task to run next: the oldest of the most urgent non-empty queue [p], with
    the rest [l] of it, or the idle task when all queues are empty. *)
Inductive picks (σ : lists) (c i : Z) : Z → lists → Prop :=
| picks_queue p n l :
    prio_ok p → σ !! queue_head c p = Some (n :: l) →
    (∀ q, 0 ≤ q < p → σ !! queue_head c q = Some []) →
    picks σ c i (task_of_run_link n) (<[queue_head c p := l]> σ)
| picks_idle :
    (∀ q, prio_ok q → σ !! queue_head c q = Some []) → picks σ c i i σ.

Lemma pick_next_ok hand σ s c i :
  sched_ok hand σ s → cpu_ok c → idle_ (rq s c) = Some i →
  ∃ t σ', pick_next_task g_rq c s = Some t ∧ picks σ c i t σ'.
Proof.
  intros Hok Hc Hi. unfold pick_next_task. cbn. unfold o1_pick_next.
  assert (Hu := so_bitmap _ _ _ _ Hok c Hc).
  destruct (Z.eqb_spec (bitmap_ (rq s c)) 0) as [E|Hne].
  - exists i, σ. rewrite Hi. split; [done|]. apply picks_idle. intros q Hq.
    destruct (so_queue _ _ _ _ Hok c q Hc Hq) as (l & -> & Hb). rewrite E, Z.bits_0 in Hb.
    destruct l; [done|]. by discriminate (proj2 Hb ltac:(done)).
  - destruct (bitmap_first _ Hu Hne) as (Hp & Ht & Hlow).
    destruct (so_queue _ _ _ _ Hok c _ Hc Hp) as (l & Hl & Hb). destruct l as [|n l]; [by apply Hb in Ht|].
    assert (Hd := rep_list _ _ (so_rep _ _ _ _ Hok) _ _ Hl). rewrite (dlist_first _ _ _ Hd). cbn.
    eexists _, _. split; [done|]. apply (picks_queue σ c i _ n l Hp Hl). intros q Hq.
    destruct (so_queue _ _ _ _ Hok c q Hc) as (l' & -> & Hb'); [unfold prio_ok in *; lia|]. rewrite Hlow in Hb' by done.
    destruct l'; [done|]. by discriminate (proj2 Hb' ltac:(done)).
Qed.

(** What the picked task is. *)
Lemma picked_task hand σ s c i t σ' :
  sched_ok hand σ s → cpu_ok c → idle_ (rq s c) = Some i → picks σ c i t σ' →
  ∃ d, tcbs s !! t = Some d ∧ cpu_id d = c ∧
    ((t = i ∧ σ' = σ ∧ sched_class d = Some ClassIdle ∧ (state d = Runnable ∨ state d = Running)) ∨
     (t ≠ i ∧ sched_class d = Some ClassO1 ∧ state d = Runnable ∧
      ∃ l, σ !! queue_head c (priority d) = Some (run_link t :: l) ∧ σ' = <[queue_head c (priority d) := l]> σ)).
Proof.
  intros Hok Hc Hi Hp. destruct (so_idle _ _ _ _ Hok c i Hc Hi) as (di & Ei & ? & Hcl & Hst).
  destruct Hp as [p n l Hp Hl Hlow|Hnone].
  - destruct (so_member _ _ _ _ Hok _ _ n Hl) as (d & E & Hk & Hs); [left|]. exists d.
    destruct Hs as [[Hs Eh]|[_ Hq]]; [|by destruct Hq; exists c, p].
    destruct (so_task _ _ _ _ Hok _ _ E) as [(Hprio & _ & _) _].
    apply queue_head_inj in Eh as [<- <-]; [|done..]. split_and!; [done..|]. right.
    split_and!; [|done..|]; [intros <-; by simplify_eq|]. exists l. by rewrite run_link_task.
  - exists di. split_and!; [done..|]. left. split_and!; [done..|].
    apply elem_of_cons in Hst as [?|Hst%list_elem_of_singleton]; auto.
Qed.

(** ** The incoming task *)

(** A task that is on no list and whose CPU runs nothing starts to run. *)
Lemma settle_ok hand σ s s' c t d d' :
  sched_ok hand σ s → (hand = Some t ∨ hand = None ∧ idle_ (rq s c) = Some t) → cpu_ok c → none_running c s →
  tcbs s !! t = Some d → cpu_id d = c → d' = tcb_state Running d →
  tcbs s' = <[t := d']> (tcbs s) → links s' = links s →
  current_ (rq s' c) = Some t → bitmap_ (rq s' c) = bitmap_ (rq s c) → idle_ (rq s' c) = idle_ (rq s c) →
  (∀ c', c' ≠ c → rq s' c' = rq s c') → sched_ok None σ s'.
Proof.
  intros Hok Hhand Hc Hnone Ht Hcpu Hd' Htcbs Hlinks Hcur Hbm Hidle Hother.
  assert (Hidl : ∀ c', idle_ (rq s' c') = idle_ (rq s c')).
  { intros c'. destruct (decide (c' = c)) as [->|]; [done|]. by rewrite Hother. }
  assert (Hbmp : ∀ c', bitmap_ (rq s' c') = bitmap_ (rq s c')).
  { intros c'. destruct (decide (c' = c)) as [->|]; [done|]. by rewrite Hother. }
  assert (Htc : ∀ t', tcbs s' !! t' = if decide (t = t') then Some d' else tcbs s !! t')
    by (intros t'; by rewrite Htcbs, lookup_insert).
  assert (Hun : unlinked (run_link t) σ).
  { destruct Hhand as [->|[-> Hi]].
    - by destruct (so_hand _ _ _ _ Hok t eq_refl) as (? & _ & _ & ?).
    - intros w l Hw. destruct (so_idle _ _ _ _ Hok c t Hc Hi) as (d0 & E & _ & Hk & _).
      rewrite not_elem_of_cons. split.
      + intros <-. destruct (so_task _ _ _ _ Hok t d Ht) as [_ En]. by rewrite Hw in En.
      + intros Hn. destruct (so_member _ _ _ _ Hok w l _ Hw Hn) as (d1 & E1 & Hk1 & _).
        rewrite task_run_link in E1. by simplify_eq. }
  assert (Hclass : sched_class d = Some ClassIdle → idle_ (rq s c) = Some t).
  { intros Hk. destruct Hhand as [->|[_ ?]]; [|done].
    destruct (so_hand _ _ _ _ Hok t eq_refl) as (d0 & E & Hk0 & _). by simplify_eq. }
  destruct Hok as [Hrep Htask Hmem Hq Hb Hcu Hid Hrun Hpl Hh].
  assert (Hne : ∀ t', t' ≠ t → hand ≠ Some t') by (intros t' ?; destruct Hhand as [->|[-> _]]; congruence).
  split; rewrite ?Hlinks; auto.
  - intros t' d1. rewrite Htc. case_decide; [|auto]. subst. intros [= <-]. by destruct (Htask _ _ Ht).
  - intros w l n Hw Hn. rewrite Htc, decide_False; [by apply (Hmem w l)|]. intros E.
    apply (Hun w l Hw). right. rewrite E. by rewrite run_link_task.
  - intros c' p Hc' Hp. rewrite Hbmp. auto.
  - intros c' Hc'. rewrite Hbmp. auto.
  - intros c' t' Hc' Ec. rewrite Hidl, Htc. destruct (decide (c' = c)) as [->|Hcc].
    + rewrite Hcur in Ec. injection Ec as <-. rewrite decide_True by done. exists d'. by subst.
    + rewrite Hother in Ec by done. destruct (Hcu c' t' Hc' Ec) as (d1 & E1 & ? & ?). case_decide; [|eauto].
      by simplify_eq.
  - intros c' t' Hc'. rewrite Hidl, Htc. intros Ei. destruct (Hid c' t' Hc' Ei) as (d1 & E1 & ? & ? & ?).
    case_decide; [|eauto]. subst. simplify_eq. eexists. split_and!; [done..|]. right. left.
  - intros t' d1 _. rewrite Htc. case_decide as Et; [intros [= <-] _; by subst|].
    intros E1 Hr. assert (cpu_id d1 ≠ c) by (intros E; by apply (Hnone t' d1)).
    rewrite Hother by done. by apply Hrun; [apply Hne|..].
  - intros t' d1 _. rewrite Htc. case_decide as Et; [intros [= <-] _; by subst|]. intros. apply Hpl; auto.
  - done.
Qed.

(** ** schedule *)

(** The fields of a task that no scheduling decision changes. *)
Definition static (d : TaskControlBlock) : TaskControlBlock := tcb_context zero_context (tcb_state Dead d).

Record scheduled (σ : lists) (s : sched) (c p i n : Z) (σ' : lists) (s' : sched) : Prop := {
  sd_ok : sched_ok None σ' s';
  sd_picks : picks (requeue σ s c) c i n σ';
  sd_current : current_ (rq s' c) = Some n;
  sd_running : state (tcb s' n) = Running;
  sd_resched : need_resched_ (rq s' c) = false;
  sd_idle : idle_ (rq s' c) = Some i;
  sd_other c' : c' ≠ c → rq s' c' = rq s c';
  sd_static : static <$> tcbs s' = static <$> tcbs s;
  sd_regs : regs s' = if decide (n = p) then regs s else <[c := context (tcb s n)]> (regs s);
  sd_context t : t ∈ dom (tcbs s) → context (tcb s' t) = if decide (t = p ∧ n ≠ p) then regs s !!! c else context (tcb s t)
}.

Lemma same_tasks_static s s' : same_tasks s s' → static <$> tcbs s' = static <$> tcbs s.
Proof.
  intros [E _ _]. unfold static. rewrite (map_fmap_compose (tcb_state Dead) (tcb_context zero_context)), E.
  by rewrite <- (map_fmap_compose (tcb_state Dead) (tcb_context zero_context)).
Qed.

Lemma same_tasks_context s s' t : same_tasks s s' → t ∈ dom (tcbs s) → context (tcb s' t) = context (tcb s t).
Proof.
  intros Hs [d Ht]%elem_of_dom. destruct (same_tasks_some s s' t d Hs Ht) as (v & Ht').
  by rewrite (tcb_lookup _ _ _ Ht), (tcb_lookup _ _ _ Ht').
Qed.

Lemma same_tasks_dom s s' : same_tasks s s' → dom (tcbs s') = dom (tcbs s).
Proof. intros [E _ _]. rewrite <- (dom_fmap_L (tcb_state Dead)), E. by rewrite dom_fmap_L. Qed.

Lemma static_set_tcb s t d d' :
  tcbs s !! t = Some d → static d' = static d → static <$> tcbs (set_tcb t d' s) = static <$> tcbs s.
Proof.
  intros Ht Hd. cbn. rewrite fmap_insert, Hd. apply map_eq. intros t'. rewrite lookup_insert.
  case_decide; [|done]. subst. by rewrite lookup_fmap, Ht.
Qed.

(** The picked task leaves its queue; an idle task is on none. *)
Lemma take_picked σ s c i t σ' d :
  sched_ok None σ s → cpu_ok c → none_running c s → idle_ (rq s c) = Some i → picks σ c i t σ' → tcbs s !! t = Some d →
  ∃ hand k, sched_class d = Some k ∧ sched_ok hand σ' (dequeue_task g_rq k c t s) ∧
    (hand = Some t ∨ hand = None ∧ idle_ (rq (dequeue_task g_rq k c t s) c) = Some t) ∧ cpu_id d = c ∧
    (t = i → k = ClassIdle).
Proof.
  intros Hok Hc Hnone Hi Hp Ht. destruct (picked_task _ _ _ _ _ _ _ Hok Hc Hi Hp) as (d0 & E & Hcpu & Hcase).
  rewrite Ht in E. injection E as <-. destruct Hcase as [(-> & -> & Hk & _)|(Hne & Hk & _ & l & Hl & ->)].
  - exists None, ClassIdle. split_and!; [done|done|by right|done|done].
  - exists (Some t), ClassO1. split_and!; [done| |by left|done|done]. subst c. by apply (dequeue_task_ok σ s t d [] l).
Qed.

Lemma dequeue_set_state k c t v s :
  dequeue_task g_rq k c t (set_state t v s) = set_state t v (dequeue_task g_rq k c t s).
Proof.
  destruct k; [|done]. cbn. unfold dec_running, o1_dequeue.
  assert (E : priority (tcb (set_state t v s) t) = priority (tcb s t)).
  { unfold set_state. by rewrite (tcb_lookup _ t (tcb_state v (tcb s t))) by by rewrite tcb_set_tcb, decide_True. }
  rewrite E. unfold set_state. done.
Qed.

Lemma dequeue_same k c t s : same_tasks s (dequeue_task g_rq k c t s).
Proof. destruct k; [apply dequeue_task_same|done]. Qed.

Lemma dequeue_tcbs k c t s : tcbs (dequeue_task g_rq k c t s) = tcbs s.
Proof. by destruct k. Qed.

(** Everything before the switch: the picked task [n] is out of its queue and marked running. *)
Lemma schedule_settled σ s c p i :
  sched_ok None σ s → cpu_ok c → current_ (rq s c) = Some p → idle_ (rq s c) = Some i →
  ∃ s1 n σ' d k, schedule_prev g_rq c s = Ret s1 ∧ pick_next_task g_rq c s1 = Some n ∧
    picks (requeue σ s c) c i n σ' ∧ tcbs s1 !! n = Some d ∧ sched_class d = Some k ∧ (n = i → k = ClassIdle) ∧
    same_tasks s s1 ∧ idle_ (rq s1 c) = Some i ∧ (∀ c', c' ≠ c → rq s1 c' = rq s c') ∧ current_ (rq s1 c) = Some p ∧
    (∀ q, current_ q = Some n → bitmap_ q = bitmap_ (rq (dequeue_task g_rq k c n s1) c) → idle_ q = Some i →
      sched_ok None σ' (set_rq c q (set_state n Running (dequeue_task g_rq k c n s1)))).
Proof.
  intros Hok Hc Hp Hi. destruct (schedule_prev_ok σ s c Hok Hc) as (s1 & E1 & Hok1 & Hnone & Hsame & Hcur & Hother).
  assert (Hi1 : idle_ (rq s1 c) = Some i) by (by rewrite (st_idle _ _ Hsame)).
  destruct (pick_next_ok _ _ _ _ _ Hok1 Hc Hi1) as (n & σ' & E2 & Hpk).
  destruct (picked_task _ _ _ _ _ _ _ Hok1 Hc Hi1 Hpk) as (d & Hd & Hcpu & _).
  destruct (take_picked _ _ _ _ _ _ d Hok1 Hc Hnone Hi1 Hpk Hd) as (hand & k & Hk & Hok2 & Hhand & _ & Hki).
  exists s1, n, σ', d, k. rewrite Hp in Hcur. split_and!; try done.
  intros q Hq1 Hq2 Hq3. set (s2 := dequeue_task g_rq k c n s1) in *.
  assert (Hd2 : tcbs s2 !! n = Some d) by (unfold s2; by rewrite dequeue_tcbs).
  eapply (settle_ok hand σ' s2 _ c n d (tcb_state Running d)); try done; rewrite ?rq_set_rq, ?decide_True by done; try done.
  - intros t' d'. unfold s2. rewrite dequeue_tcbs. apply Hnone.
  - cbn. by rewrite (tcb_lookup _ _ _ Hd2).
  - rewrite Hq3. unfold s2. by rewrite (st_idle _ _ (dequeue_same k c n s1)).
  - intros c' Hne. by rewrite rq_set_rq, decide_False.
Qed.

Lemma set_rq_set_rq c q q' s : set_rq c q' (set_rq c q s) = set_rq c q' s.
Proof. unfold set_rq. cbn. by rewrite insert_insert_eq. Qed.

(** Fields of a control block the invariant does not mention. *)
Lemma tcb_fields hand σ s t d d' :
  sched_ok hand σ s → tcbs s !! t = Some d → state d' = state d → cpu_id d' = cpu_id d →
  priority d' = priority d → sched_class d' = sched_class d → sched_ok hand σ (set_tcb t d' s).
Proof.
  intros [Hrep Htask Hmem Hq Hbm Hcu Hid Hrun Hpl Hh] Ht Hs Hc Hp Hk.
  assert (Hto : ∀ t' (P : TaskControlBlock → Prop), (P d → P d') → (∃ d1, tcbs s !! t' = Some d1 ∧ P d1) →
    ∃ d1, tcbs (set_tcb t d' s) !! t' = Some d1 ∧ P d1).
  { intros t' P HP (d1 & E & ?). rewrite tcb_set_tcb. case_decide; [subst; simplify_eq|]; eauto. }
  assert (Hfrom : ∀ t' d1, tcbs (set_tcb t d' s) !! t' = Some d1 → ∃ d2, tcbs s !! t' = Some d2 ∧ state d1 = state d2 ∧
    cpu_id d1 = cpu_id d2 ∧ priority d1 = priority d2 ∧ sched_class d1 = sched_class d2).
  { intros t' d1. rewrite tcb_set_tcb. case_decide; [subst; intros [= <-]|]; eauto 10. }
  split; auto.
  - intros t' d1 (d2 & E & _ & E1 & E2 & E3)%Hfrom. unfold tcb_ok. rewrite E1, E2, E3. eauto.
  - intros w l n Hw Hn. apply Hto; [by rewrite Hs, Hc, Hp, Hk|eauto].
  - intros c t' Hc' Ec. apply Hto; [by rewrite Hc, Hk|eauto].
  - intros c t' Hc' Ei. apply Hto; [by rewrite Hs, Hc, Hk|eauto].
  - intros t' d1 Hne (d2 & E & -> & -> & _)%Hfrom. eauto.
  - intros t' d1 Hne (d2 & E & E1 & E2 & E3 & ->)%Hfrom Hcl. unfold placed. rewrite E1, E2, E3. by apply (Hpl t' d2 Hne E); congruence.
  - intros t' Ht'. apply Hto; [by rewrite Hk|eauto].
Qed.

Lemma regs_fields hand σ s c r : sched_ok hand σ s → sched_ok hand σ (set_regs c r s).
Proof. intros []. by split. Qed.

(** The switch itself saves the registers in [p] and loads those of [n]. *)
Lemma switched σ σ' s s3 c p i n :
  sched_ok None σ s → current_ (rq s c) = Some p → cpu_ok c →
  same_tasks s s3 → n ≠ p → n ∈ dom (tcbs s3) →
  state (tcb s3 n) = Running → idle_ (rq s3 c) = Some i → (∀ c', c' ≠ c → rq s3 c' = rq s c') →
  picks (requeue σ s c) c i n σ' →
  sched_ok None σ' (set_need_resched c false (set_current c n s3)) →
  scheduled σ s c p i n σ' (context_switch c p n (set_need_resched c false (set_current c n s3))).
Proof.
  intros Hok Hp Hc Hsame Hne Hn Hrun Hidle Hother Hpk Hok'.
  set (s4 := set_need_resched _ _ _) in *.
  assert (Hs4 : same_tasks s s4).
  { etrans; [exact Hsame|]. unfold s4, set_need_resched, set_current. rewrite set_rq_set_rq. by apply same_tasks_rq; rewrite rq_set_rq, decide_True. }
  assert (Hrq4 : rq s4 c = mkRq (bitmap_ (rq s3 c)) (o1_nr_running_ (rq s3 c)) (nr_running_ (rq s3 c)) false (Some n) (Some i)).
  { unfold s4, set_need_resched, set_current. rewrite !rq_set_rq, !decide_True by done. by rewrite Hidle. }
  assert (Ho4 : ∀ c', c' ≠ c → rq s4 c' = rq s c').
  { intros c' Hc'. unfold s4, set_need_resched, set_current. rewrite !rq_set_rq, !decide_False by done. auto. }
  assert (Hrun4 : state (tcb s4 n) = Running) by done.
  destruct (so_current _ _ _ _ Hok c p Hc Hp) as (d0 & Hd0 & _ & _).
  destruct (same_tasks_some _ _ p d0 Hs4 Hd0) as (v & Hp4). assert (Hp4' := tcb_lookup _ _ _ Hp4).
  assert (Hreg : regs s4 = regs s) by apply Hs4. clearbody s4.
  assert (Hctx : ∀ t, tcb (context_switch c p n s4) t = if decide (t = p) then tcb_context (regs s !!! c) (tcb s4 p) else tcb s4 t).
  { intros t. unfold context_switch, tcb, set_regs, set_tcb. cbn. rewrite Hreg, !lookup_total_alt, lookup_insert.
    repeat case_decide; subst; done. }
  assert (Hrqs : ∀ c', rq (context_switch c p n s4) c' = rq s4 c') by done.
  assert (Hndom : n ∈ dom (tcbs s)) by (by rewrite <- (same_tasks_dom _ _ Hsame)).
  split; rewrite ?Hrqs, ?Hrq4; try done.
  - apply regs_fields, (tcb_fields None σ' s4 p _ _ Hok' Hp4); by rewrite Hp4'.
  - by rewrite Hctx, decide_False.
  - rewrite <- (same_tasks_static _ _ Hs4). change (tcbs (context_switch c p n s4)) with (tcbs (set_tcb p (tcb_context (regs s4 !!! c) (tcb s4 p)) s4)).
    apply (static_set_tcb s4 p _ _ Hp4). by rewrite Hp4'.
  - rewrite decide_False by done. unfold context_switch. cbn. rewrite Hreg. f_equal.
    unfold tcb, set_tcb. cbn. rewrite lookup_total_insert_ne by done. by apply (same_tasks_context s s4).
  - intros t Ht. rewrite Hctx. destruct (decide (t = p)) as [->|]; [by rewrite decide_True by done|].
    rewrite decide_False by naive_solver. by apply same_tasks_context.
Qed.

(** [schedule] always finds a task to run and runs the one the policy names. *)
Lemma schedule_ok σ s c p i :
  sched_ok None σ s → cpu_ok c → current_ (rq s c) = Some p → idle_ (rq s c) = Some i →
  ∃ n σ' s', schedule g_rq c s = Ret s' ∧ scheduled σ s c p i n σ' s'.
Proof.
  intros Hok Hc Hp Hi.
  destruct (schedule_settled σ s c p i Hok Hc Hp Hi) as (s1 & n & σ' & d & k & E1 & E2 & Hpk & Hd & Hk & Hki & Hsame & Hi1 & Hother & Hcur & Hset).
  exists n, σ'. unfold schedule. rewrite E1. cbn [mbind outcome_bind]. rewrite E2. cbn [deref mbind outcome_bind].
  set (s2 := dequeue_task g_rq k c n s1) in *.
  assert (Hs2 : same_tasks s s2) by (etrans; [exact Hsame|apply dequeue_same]).
  assert (Hd2 : tcbs s2 !! n = Some d) by (unfold s2; by rewrite dequeue_tcbs).
  assert (Hi2 : idle_ (rq s2 c) = Some i) by (by rewrite (st_idle _ _ Hs2)).
  assert (Ho2 : ∀ c', c' ≠ c → rq s2 c' = rq s c').
  { intros c' Hne. unfold s2. destruct (queue_other k c n s1 c' Hne) as [_ ->]. auto. }
  assert (Hc2 : current_ (rq s2 c) = Some p).
  { unfold s2. destruct (queue_current k c n s1 c) as [_ ->]. done. }
  set (s3 := set_state n Running s2).
  assert (Hs3 : same_tasks s s3) by (etrans; [exact Hs2|by eapply same_tasks_set_state]).
  assert (Hn3 : tcbs s3 !! n = Some (tcb_state Running d)).
  { unfold s3, set_state. by rewrite tcb_set_tcb, decide_True, (tcb_lookup _ _ _ Hd2). }
  rewrite Hp. destruct (decide (Some p = Some n)) as [[= ->]|Hne].
  - assert (Htn : tcb (set_state n Running s1) n = tcb_state Running d).
    { apply tcb_lookup. unfold set_state. by rewrite tcb_set_tcb, decide_True, (tcb_lookup _ _ _ Hd). }
    rewrite Htn. cbn [tcb_state sched_class]. rewrite Hk. cbn [deref mbind outcome_bind].
    rewrite dequeue_set_state. fold s2 s3. eexists. split; [done|]. unfold set_need_resched.
    split; rewrite ?rq_set_rq, ?decide_True by done; cbn; try done.
    + by apply Hset.
    + change (tcb (set_rq c ?q s3) n) with (tcb s3 n). by rewrite (tcb_lookup _ _ _ Hn3).
    + intros c' ?. rewrite rq_set_rq, decide_False by done. by apply Ho2.
    + apply (same_tasks_static s s3 Hs3).
    + apply Hs3.
    + intros t Ht. rewrite decide_False by naive_solver. by apply (same_tasks_context s s3).
  - assert (Hd' : (if decide (Some n = idle_ (rq s1 c)) then Ret s1
         else k ← deref (sched_class (tcb s1 n)); Ret (dequeue_task g_rq k c n s1)) = Ret s2).
    { rewrite Hi1, (tcb_lookup _ _ _ Hd), Hk. case_decide as En; [|done]. injection En as ->. unfold s2. by rewrite Hki. }
    rewrite Hd'. cbn [deref mbind outcome_bind]. fold s3. eexists. split; [done|].
    apply switched; try done;
      [by intros ->|by apply (elem_of_dom_2 _ _ _ Hn3)|by rewrite (tcb_lookup _ _ _ Hn3)|..].
    unfold set_need_resched, set_current. rewrite set_rq_set_rq, rq_set_rq, decide_True by done. by apply Hset.
Qed.
End ops.
