(* ===== verification/SchedSteps.v ===== *)
(** * SchedSteps: ticks, sleeping, waking, and the scheduler as a transition system

    The remaining operations keep the invariant, and so does every interleaving
    of the critical sections on all CPUs. *)

From S2P Require Import Prelude Bits DList Spinlock Sched SchedInv SchedOps.
From stdpp Require Import relations.
Open Scope Z_scope.

Section steps.
Context (g_rq : Z).
Abbreviation queue_head := (queue_head g_rq).
Abbreviation sched_ok := (sched_ok g_rq).
Abbreviation is_queue := (is_queue g_rq).

(** ** Ticks and yields *)

Lemma set_slice_ok hand σ s t d v :
  sched_ok hand σ s → tcbs s !! t = Some d → sched_ok hand σ (set_slice t v s).
Proof. intros Hok Ht. unfold set_slice. rewrite (tcb_lookup _ _ _ Ht). by apply (tcb_fields g_rq hand σ s t d). Qed.

Lemma set_need_resched_ok hand σ s c v : sched_ok hand σ s → sched_ok hand σ (set_need_resched c v s).
Proof. intros Hok. by apply rq_fields. Qed.

Lemma set_slice_lookup s t d v : tcbs s !! t = Some d → tcbs (set_slice t v s) !! t = Some (tcb_slice v d).
Proof. intros Ht. unfold set_slice. by rewrite tcb_set_tcb, decide_True, (tcb_lookup _ _ _ Ht). Qed.

Lemma task_tick_ok σ s c k t d :
  sched_ok None σ s → tcbs s !! t = Some d → sched_ok None σ (task_tick k c t s).
Proof.
  intros Hok Ht. destruct k; [|done]. cbn. unfold o1_task_tick. case_decide; [done|].
  case_match; [|by eapply set_slice_ok]. apply set_need_resched_ok.
  eapply set_slice_ok; [by eapply set_slice_ok|by apply set_slice_lookup].
Qed.

Lemma sched_tick_ok σ s c :
  sched_ok None σ s → cpu_ok c → ∃ s', sched_tick c s = Ret s' ∧ sched_ok None σ s'.
Proof.
  intros Hok Hc. unfold sched_tick. destruct (current_ (rq s c)) as [t|] eqn:E; [|eauto].
  destruct (so_current _ _ _ _ Hok c t Hc E) as (d & Ht & _). destruct (so_task _ _ _ _ Hok t d Ht) as [(_ & _ & [k Hk]) _].
  rewrite (tcb_lookup _ _ _ Ht), Hk. cbn. eexists. split; [done|]. by eapply task_tick_ok.
Qed.

(** ** Sleeping *)

(** The running task of a CPU goes to the tail of a wait queue. *)
Lemma sleep_link_ok σ s t d w l :
  sched_ok None σ s → tcbs s !! t = Some d → state d = Running → sched_class d = Some ClassO1 →
  σ !! w = Some l → ¬ is_queue w → sched_ok None (<[w := l ++ [run_link t]]> σ) (sleep_link w t s).
Proof.
  intros Hok Ht Hst Hk Hw Hq. assert (Hh := take_running g_rq _ _ _ _ Hok Ht Hst Hk).
  eapply (link_ok g_rq σ s _ t w d (tcb_state Sleeping d)); try done.
  - cbn. by rewrite (tcb_lookup _ _ _ Ht).
  - by right.
  - intros c Hc. destruct (sched_bitmaps _ _ _ _ Hok c Hc) as [Hu Hp]. split; [done|]. intros p Hp'.
    destruct (Hp p Hp') as (k & Hk' & ?). exists k. rewrite lookup_insert_ne; [done|].
    intros ->. destruct Hq. by exists c, p.
Qed.

(** ** Waking *)

(** The queue a task belongs to, which no operation changes. *)
Definition home (s : sched) (t : Z) : Z * Z := (cpu_id (tcb s t), priority (tcb s t)).

Lemma tcb_set_total t d s t' : tcb (set_tcb t d s) t' = if decide (t = t') then d else tcb s t'.
Proof. unfold tcb. cbn. rewrite !lookup_total_alt, lookup_insert. by case_decide. Qed.

Lemma home_set_tcb t d s t' :
  cpu_id d = cpu_id (tcb s t) → priority d = priority (tcb s t) → home (set_tcb t d s) t' = home s t'.
Proof. intros Hc Hp. unfold home. rewrite tcb_set_total. case_decide; [subst; by rewrite Hc, Hp|done]. Qed.

Lemma home_enqueue t s t' : home (sched_enqueue g_rq t s) t' = home s t'.
Proof.
  assert (He : ∀ k c s', home (enqueue_task g_rq k c t s') t' = home s' t').
  { intros [] c s'; [|done].
    change (home (set_tcb t (tcb_state Runnable (tcb s' t)) s') t' = home s' t'). by apply home_set_tcb. }
  unfold sched_enqueue. rewrite He. by apply home_set_tcb.
Qed.

Lemma sched_enqueue_current t s c : current_ (rq (sched_enqueue g_rq t s) c) = current_ (rq s c).
Proof.
  unfold sched_enqueue. set (s' := set_tcb _ _ _).
  by destruct (queue_current g_rq (default ClassO1 (sched_class (tcb s t))) (cpu_id (tcb s t)) t s' c) as [-> _].
Qed.

(** The queue of the task of node [n], with the node appended. *)
Definition enqueue_node (s : sched) (σ : lists) (n : Z) : lists :=
  let h := queue_head (home s (task_of_run_link n)).1 (home s (task_of_run_link n)).2 in
  <[h := default [] (σ !! h) ++ [n]]> σ.

Lemma sched_enqueue_ok σ s t d :
  sched_ok (Some t) σ s → tcbs s !! t = Some d →
  sched_ok None (enqueue_node s σ (run_link t)) (sched_enqueue g_rq t s) ∧ cpu_id d = cpu_id (tcb s t).
Proof.
  intros Hok Ht. destruct (so_hand _ _ _ _ Hok t eq_refl) as (d0 & E & Hk & _). rewrite Ht in E. injection E as <-.
  destruct (so_task _ _ _ _ Hok t d Ht) as [(Hp & Hc & _) _].
  unfold enqueue_node, sched_enqueue, home. rewrite task_run_link, (tcb_lookup _ _ _ Ht), Hk. cbn [default id fst snd].
  set (d' := tcb_class _ _ _). split; [|done].
  destruct (so_queue _ _ _ _ Hok (cpu_id d) (priority d) Hc Hp) as (l & Hl & _). rewrite Hl. cbn [default].
  apply (enqueue_task_ok g_rq σ (set_tcb t d' s) t d' l); [|by rewrite tcb_set_tcb, decide_True|done].
  by apply (hand_update g_rq σ s t d).
Qed.

Section wake.
Context (σ : lists) (s : sched) (w n : Z) (l : list Z).
Context (Hok : sched_ok None σ s) (Hw : σ !! w = Some (n :: l)) (Hq : ¬ is_queue w).

Lemma wait_bitmaps l' s' : (∀ c, rq s' c = rq s c) → bitmaps_ok g_rq (<[w := l']> σ) s'.
Proof using Hok Hw Hq.
  intros Hrq c Hc. rewrite Hrq. destruct (sched_bitmaps _ _ _ _ Hok c Hc) as [Hu Hp]. split; [done|]. intros p Hp'.
  destruct (Hp p Hp') as (k & Hk' & ?). exists k. rewrite lookup_insert_ne; [done|].
  intros ->. destruct Hq. by exists c, p.
Qed.

(** The oldest waiter leaves the wait queue and joins its run queue. *)
Lemma wake_head_ok :
  is_empty w (links s) = false ∧
  sched_ok None (enqueue_node s (<[w := l]> σ) n) (wake_head g_rq w s) ∧
  (∀ t, home (wake_head g_rq w s) t = home s t) ∧ (∀ c, current_ (rq (wake_head g_rq w s) c) = current_ (rq s c)).
Proof using Hok Hw Hq.
  assert (Hd := rep_list _ _ (so_rep _ _ _ _ Hok) _ _ Hw).
  assert (He : is_empty w (links s) = false).
  { destruct (is_empty w (links s)) eqn:E; [|done]. by apply (is_empty_spec _ _ _ Hd) in E. }
  split; [done|]. unfold wake_head. rewrite (dlist_first _ _ _ Hd). cbn [first_of list.head default].
  change (first_of w (n :: l)) with n.
  destruct (so_member _ _ _ _ Hok w _ n Hw) as (d & Ht & Hk & Hst); [left|].
  set (t := task_of_run_link n) in *. assert (Hn : run_link t = n) by apply run_link_task.
  set (s1 := with_links _ s).
  assert (H1 : sched_ok (Some t) (<[w := l]> σ) s1).
  { apply (unlink_ok g_rq σ s s1 t w d) with (l1 := []); try done; [by rewrite Hn|by rewrite Hn|by apply wait_bitmaps]. }
  set (s2 := set_state t Runnable s1).
  assert (Ht2 : tcbs s2 !! t = Some (tcb_state Runnable d)).
  { unfold s2, set_state. by rewrite tcb_set_tcb, decide_True, (tcb_lookup s1 t d Ht). }
  assert (H2 : sched_ok (Some t) (<[w := l]> σ) s2).
  { eapply (hand_update g_rq _ s1 t d); rewrite ?(tcb_lookup s1 t d Ht); done. }
  destruct (sched_enqueue_ok _ s2 t _ H2 Ht2) as [H3 _]. split.
  - unfold enqueue_node, home in *. fold t. rewrite Hn in H3. fold t in H3. rewrite (tcb_lookup s t d Ht).
    by rewrite (tcb_lookup s2 t _ Ht2) in H3.
  - split; [|intros c; by rewrite sched_enqueue_current].
    intros t'. rewrite home_enqueue. unfold s2, set_state. by rewrite home_set_tcb.
Qed.
End wake.

Lemma wake_one_ok σ s w l :
  sched_ok None σ s → σ !! w = Some l → ¬ is_queue w →
  match l with
  | [] => wake_one g_rq w s = (false, s)
  | n :: l' => wake_one g_rq w s = (true, wake_head g_rq w s) ∧
      sched_ok None (enqueue_node s (<[w := l']> σ) n) (wake_head g_rq w s)
  end.
Proof.
  intros Hok Hw Hq. unfold wake_one. destruct l as [|n l].
  - by rewrite (splice_nil _ _ (rep_list _ _ (so_rep _ _ _ _ Hok) _ _ Hw)).
  - by destruct (wake_head_ok σ s w n l Hok Hw Hq) as (-> & ? & _).
Qed.

(** Only run queues change when tasks are enqueued. *)
Lemma enqueue_nodes_wait s σ w ns k :
  (∀ n, n ∈ ns → is_queue (queue_head (home s (task_of_run_link n)).1 (home s (task_of_run_link n)).2)) →
  ¬ is_queue w → <[w := k]> (foldl (enqueue_node s) σ ns) = foldl (enqueue_node s) (<[w := k]> σ) ns.
Proof.
  intros Hns Hq. revert σ Hns. induction ns as [|n ns IH]; intros σ Hns; [done|]. cbn.
  rewrite IH by (intros; apply Hns; by right). f_equal. unfold enqueue_node.
  assert (Hne : queue_head (home s (task_of_run_link n)).1 (home s (task_of_run_link n)).2 ≠ w)
    by (intros <-; apply Hq, Hns; left).
  rewrite insert_insert_ne, lookup_insert_ne by done. done.
Qed.

Lemma enqueue_node_home s s' : (∀ t, home s' t = home s t) → ∀ σ n, enqueue_node s' σ n = enqueue_node s σ n.
Proof. intros Hh σ n. unfold enqueue_node. by rewrite Hh. Qed.

Lemma member_home σ s w l n :
  sched_ok None σ s → σ !! w = Some l → n ∈ l →
  is_queue (queue_head (home s (task_of_run_link n)).1 (home s (task_of_run_link n)).2).
Proof.
  intros Hok Hw Hn. destruct (so_member _ _ _ _ Hok w l n Hw Hn) as (d & Ht & _).
  destruct (so_task _ _ _ _ Hok _ _ Ht) as [(? & ? & _) _]. unfold home. rewrite (tcb_lookup _ _ _ Ht). cbn.
  by exists (cpu_id d), (priority d).
Qed.

Lemma dom_set_tcb t d s : t ∈ dom (tcbs s) → dom (tcbs (set_tcb t d s)) = dom (tcbs s).
Proof. intros Ht. cbn. rewrite dom_insert_L. set_solver. Qed.

Lemma sched_enqueue_dom t s : t ∈ dom (tcbs s) → dom (tcbs (sched_enqueue g_rq t s)) = dom (tcbs s).
Proof.
  intros Ht. unfold sched_enqueue. set (s' := set_tcb _ _ _).
  assert (E : dom (tcbs s') = dom (tcbs s)) by by apply dom_set_tcb.
  destruct (default ClassO1 _); [|done]. rewrite <- E.
  change (dom (tcbs (set_tcb t (tcb_state Runnable (tcb s' t)) s')) = dom (tcbs s')). apply dom_set_tcb. by rewrite E.
Qed.

Lemma sched_enqueue_idle t s c : idle_ (rq (sched_enqueue g_rq t s) c) = idle_ (rq s c).
Proof.
  unfold sched_enqueue. set (s' := set_tcb _ _ _). change (rq s c) with (rq s' c).
  assert (Ht : is_Some (tcbs s' !! t)) by (unfold s'; rewrite tcb_set_tcb, decide_True by done; eauto).
  destruct Ht as [d Ht]. destruct (default ClassO1 _); [|done]. by apply (enqueue_task_same g_rq s' t d).
Qed.

(** The tasks a wake-up touches all exist. *)
Lemma wake_head_keep σ s w n l :
  sched_ok None σ s → σ !! w = Some (n :: l) →
  dom (tcbs (wake_head g_rq w s)) = dom (tcbs s) ∧ (∀ c, idle_ (rq (wake_head g_rq w s) c) = idle_ (rq s c)).
Proof.
  intros Hok Hw. unfold wake_head. rewrite (dlist_first _ _ _ (rep_list _ _ (so_rep _ _ _ _ Hok) _ _ Hw)).
  destruct (so_member _ _ _ _ Hok w _ n Hw) as (d & Ht & _); [left|]. apply elem_of_dom_2 in Ht.
  change (first_of w (n :: l)) with n. set (t := task_of_run_link n) in *. set (s1 := with_links _ s).
  assert (E : dom (tcbs (set_state t Runnable s1)) = dom (tcbs s)) by (by apply (dom_set_tcb t _ s1)). split.
  - rewrite sched_enqueue_dom; [done|by rewrite E].
  - intros c. by rewrite sched_enqueue_idle.
Qed.
(** [wake_all] terminates after waking every waiter, oldest first. *)
Lemma wake_all_ok σ s w l :
  sched_ok None σ s → σ !! w = Some l → ¬ is_queue w → Z.of_nat (length l) < 2 ^ 64 →
  ∃ s', wake_all g_rq w s = Ret (Z.of_nat (length l), s') ∧
    sched_ok None (foldl (enqueue_node s) (<[w := []]> σ) l) s' ∧
    (∀ c, current_ (rq s' c) = current_ (rq s c)) ∧ (∀ c, idle_ (rq s' c) = idle_ (rq s c)) ∧
    (∀ t, home s' t = home s t) ∧ dom (tcbs s') = dom (tcbs s).
Proof.
  intros Hok Hw Hq Hlen. unfold wake_all.
  assert (Hhome : ∀ n, n ∈ l → is_queue (queue_head (home s (task_of_run_link n)).1 (home s (task_of_run_link n)).2))
    by eauto using member_home.
  set (P := λ (rest : list Z) (cs : Z * sched), ∃ woken, l = woken ++ rest ∧ cs.1 = Z.of_nat (length woken) ∧
    sched_ok None (foldl (enqueue_node s) (<[w := rest]> σ) woken) cs.2 ∧
    (∀ c, current_ (rq cs.2 c) = current_ (rq s c)) ∧ (∀ c, idle_ (rq cs.2 c) = idle_ (rq s c)) ∧
    (∀ t, home cs.2 t = home s t) ∧ dom (tcbs cs.2) = dom (tcbs s)).
  assert (Hlook : ∀ woken rest, l = woken ++ rest → foldl (enqueue_node s) (<[w := rest]> σ) woken !! w = Some rest).
  { intros woken rest El. rewrite <- enqueue_nodes_wait; [by rewrite lookup_insert_eq| |done].
    intros n Hn. apply Hhome. rewrite El. in_list. }
  destruct (loop_list (wake_all_step g_rq w) P (λ r, P [] r)) with (k := 64%nat) (l := l) (s := (0, s))
    as ([count s'] & -> & (woken & El & Ec & H1 & H2)).
  - intros [count s1] (woken & El & Ec & Hok1 & Hr). eexists. split; [|by exists woken].
    cbn in *. by rewrite (splice_nil _ _ (rep_list _ _ (so_rep _ _ _ _ Hok1) _ _ (Hlook _ _ El))).
  - intros n rest [count s1] (woken & El & Ec & Hok1 & Hc1 & Hi1 & Hh1 & Hd1). cbn in *.
    destruct (wake_head_keep _ s1 w n rest Hok1 (Hlook _ _ El)) as [Hd2 Hi2].
    destruct (wake_head_ok _ s1 w n rest Hok1 (Hlook _ _ El) Hq) as (-> & Hok2 & Hh2 & Hc2).
    exists (woken ++ [n]). rewrite <- app_assoc. split_and!; [done|rewrite length_app; cbn; lia|..].
    + rewrite foldl_snoc, <- (enqueue_node_home s s1 Hh1).
      rewrite enqueue_nodes_wait, insert_insert_eq in Hok2 by (done || (intros m Hm; apply Hhome; rewrite El; in_list)). done.
    + intros c. by rewrite Hc2.
    + intros c. by rewrite Hi2.
    + intros t. by rewrite Hh2.
    + cbn. by rewrite Hd2.
  - exists []. rewrite insert_id by done. done.
  - done.
  - cbn in *. rewrite app_nil_r in El. subst woken count. eauto.
Qed.
End steps.
