(* ===== verification/Task.v ===== *)
(** * Task: creation, fork, exit and wait

    Models [na/kernel/task.cc], the initialisation half of [sched_core.cc] and
    the process system calls of [sys_process.cc].  The nodes [all_link] and
    [children]/[sibling] are fields no other list uses, so each of the two
    families of lists has a store of its own beside the [run_link] store of
    [Sched].  Memory for control blocks and kernel stacks, address spaces and
    copies to user memory come from other components through [TaskEnv]. *)

From S2P Require Import Prelude Bits DList Spinlock Sched Pid.
From stdpp Require Import pretty.
Open Scope Z_scope.

(** ** What the task layer calls *)

Class TaskEnv (M : Type) := {
  new_tcb : M → option Z * M;              (* [new TaskControlBlock] *)
  delete_tcb : Z → M → M;                  (* [delete task] *)
  stack_alloc : M → option Z * M;          (* [pmm_alloc_pages(1)], as a physical address *)
  stack_free : Z → M → M;                  (* [pmm_free_pages(pa_to_page(pa), 1)] *)
  mm_destroy : Z → M → M;                  (* [VmSpace::destroy] *)
  mm_clone : Z → M → option Z * M;         (* [vmm_clone] *)
  store_word : Z → Z → M → M;              (* a 64-bit kernel store *)
  load_word : Z → M → Z;
  put_user : Z → Z → M → Z * M             (* [copy_to_user] of an [int] *)
}.

(** ** Data *)

Definition kKernelStackSize : Z := 8192.
Definition kStackCanary : Z := 0xDEADBEEFCAFEBABE.
Definition TF_KTHREAD : Z := 1.
Definition TF_IDLE : Z := 2.
Definition kExitCodeSignalFlag : Z := 0x100.
Definition ENOMEM : Z := 12.
Definition EINVAL : Z := 22.
Definition ECHILD : Z := 10.
Definition EFAULT : Z := 14.

(** [arch::TrapFrame]: the argument registers and the rest of the 37 words. *)
Record TrapFrame := mkTf { tf_a : list Z; tf_rest : list Z }.
Definition tf_size : Z := 296.

#[export] Instance TrapFrame_inhabited : Inhabited TrapFrame := populate (mkTf (replicate 8 0) (replicate 29 0)).

(** Offsets of the other list nodes and of the wait queue of a control block. *)
Definition all_link (t : Z) : Z := t + 32.
Definition children (t : Z) : Z := t + 200.
Definition sibling (t : Z) : Z := t + 216.
Definition task_of_sibling (n : Z) : Z := n - 216.
Definition wait_chld (t : Z) : Z := t + 232.

Record kernel (M : Type) := mkKernel {
  sch : sched;
  all_links : heap;
  kin : heap;
  mem : M;
  pids : PidAllocator;
  frames : gmap Z TrapFrame;
  task_list_lock : bool;   (* [g_task_list_lock] is held by this CPU *)
  g_nr_tasks : Z;
  g_kernel_task : option Z;
  g_init_task : option Z
}.
Arguments mkKernel {M}.
Arguments sch {M}. Arguments all_links {M}. Arguments kin {M}. Arguments mem {M}. Arguments pids {M}.
Arguments frames {M}. Arguments task_list_lock {M}. Arguments g_nr_tasks {M}.
Arguments g_kernel_task {M}. Arguments g_init_task {M}.

Section task.
Context {M : Type} `{TaskEnv M} (g_rq g_all_tasks g_direct_map_base : Z).
Abbreviation kernel := (kernel M).

Definition with_sch (f : sched → sched) (k : kernel) : kernel :=
  mkKernel (f (sch k)) (all_links k) (kin k) (mem k) (pids k) (frames k) (task_list_lock k) (g_nr_tasks k)
    (g_kernel_task k) (g_init_task k).
Definition with_all (f : heap → heap) (k : kernel) : kernel :=
  mkKernel (sch k) (f (all_links k)) (kin k) (mem k) (pids k) (frames k) (task_list_lock k) (g_nr_tasks k)
    (g_kernel_task k) (g_init_task k).
Definition with_kin (f : heap → heap) (k : kernel) : kernel :=
  mkKernel (sch k) (all_links k) (f (kin k)) (mem k) (pids k) (frames k) (task_list_lock k) (g_nr_tasks k)
    (g_kernel_task k) (g_init_task k).
Definition with_mem (f : M → M) (k : kernel) : kernel :=
  mkKernel (sch k) (all_links k) (kin k) (f (mem k)) (pids k) (frames k) (task_list_lock k) (g_nr_tasks k)
    (g_kernel_task k) (g_init_task k).
Definition set_pids (p : PidAllocator) (k : kernel) : kernel :=
  mkKernel (sch k) (all_links k) (kin k) (mem k) p (frames k) (task_list_lock k) (g_nr_tasks k)
    (g_kernel_task k) (g_init_task k).
Definition set_frame (a : Z) (tf : TrapFrame) (k : kernel) : kernel :=
  mkKernel (sch k) (all_links k) (kin k) (mem k) (pids k) (<[a := tf]> (frames k)) (task_list_lock k) (g_nr_tasks k)
    (g_kernel_task k) (g_init_task k).
Definition set_lock (b : bool) (k : kernel) : kernel :=
  mkKernel (sch k) (all_links k) (kin k) (mem k) (pids k) (frames k) b (g_nr_tasks k)
    (g_kernel_task k) (g_init_task k).
Definition set_nr_tasks (n : Z) (k : kernel) : kernel :=
  mkKernel (sch k) (all_links k) (kin k) (mem k) (pids k) (frames k) (task_list_lock k) n
    (g_kernel_task k) (g_init_task k).

Definition task (k : kernel) (t : Z) : TaskControlBlock := tcb (sch k) t.
Definition set_task (t : Z) (d : TaskControlBlock) : kernel → kernel := with_sch (set_tcb t d).

(** [g_task_list_lock.acquire()] and [release()], with the checks that
    [Spinlock.spinlock_checks_exact] shows to be exact. *)
Definition task_lock (k : kernel) : outcome kernel :=
  if task_list_lock k then Panic "spinlock: double lock" else Ret (set_lock true k).
Definition task_unlock (k : kernel) : outcome kernel :=
  if task_list_lock k then Ret (set_lock false k) else Panic "spinlock: invalid release".

(** ** Control blocks *)

Definition tcb_ids (p g : Z) (d : TaskControlBlock) : TaskControlBlock :=
  mkTcb (state d) (priority d) (cpu_id d) (flags d) (time_slice d) p g (context d) (trapframe d)
    (kstack_pa d) (kstack_va d) (mm d) (parent d) (exit_code d) (sched_class d) (sched_entity d) (name d).
Definition tcb_mm (v : option Z) (d : TaskControlBlock) : TaskControlBlock :=
  mkTcb (state d) (priority d) (cpu_id d) (flags d) (time_slice d) (pid d) (tgid d) (context d) (trapframe d)
    (kstack_pa d) (kstack_va d) v (parent d) (exit_code d) (sched_class d) (sched_entity d) (name d).
Definition tcb_parent (v : option Z) (d : TaskControlBlock) : TaskControlBlock :=
  mkTcb (state d) (priority d) (cpu_id d) (flags d) (time_slice d) (pid d) (tgid d) (context d) (trapframe d)
    (kstack_pa d) (kstack_va d) (mm d) v (exit_code d) (sched_class d) (sched_entity d) (name d).
Definition tcb_exit (v : Z) (d : TaskControlBlock) : TaskControlBlock :=
  mkTcb (state d) (priority d) (cpu_id d) (flags d) (time_slice d) (pid d) (tgid d) (context d) (trapframe d)
    (kstack_pa d) (kstack_va d) (mm d) (parent d) v (sched_class d) (sched_entity d) (name d).
Definition tcb_frame (v : Z) (d : TaskControlBlock) : TaskControlBlock :=
  mkTcb (state d) (priority d) (cpu_id d) (flags d) (time_slice d) (pid d) (tgid d) (context d) v
    (kstack_pa d) (kstack_va d) (mm d) (parent d) (exit_code d) (sched_class d) (sched_entity d) (name d).

(** The fields [alloc_task] and [create_tcb] write, in a block at a fresh address. *)
Definition fresh_tcb (nm : string) (prio fl cpu pa t : Z) : TaskControlBlock :=
  mkTcb Runnable prio cpu fl (priority_to_timeslice prio) 0 0 zero_context 0 pa (pa_to_va g_direct_map_base pa) None None 0
    (Some ClassO1) (Some (run_link t)) nm.

(** [run_link.init()], [all_link.init()], [children.init()], [sibling.init()], [wait_chld.init()]. *)
Definition init_nodes (t : Z) (k : kernel) : kernel :=
  let k := with_sch (with_links (λ h, node_init (wait_chld t) (node_init (run_link t) h))) k in
  let k := with_all (node_init (all_link t)) k in
  with_kin (λ h, node_init (sibling t) (node_init (children t) h)) k.

(** [delete task]: the block goes back to the allocator. *)
Definition forget_task (t : Z) (s : sched) : sched := mkSched (delete t (tcbs s)) (links s) (rqs s) (regs s).
Definition delete_task (t : Z) (k : kernel) : kernel := with_sch (forget_task t) (with_mem (delete_tcb t) k).

(** [alloc_task] on CPU [cpu]. *)
Definition alloc_task (nm : string) (prio fl cpu : Z) (k : kernel) : option Z * kernel :=
  let '(r, m) := new_tcb (mem k) in
  match r with
  | None => (None, with_mem (λ _, m) k)
  | Some t =>
      let '(r, m) := stack_alloc m in
      match r with
      | None => (None, with_mem (λ _, delete_tcb t m) k)
      | Some pa =>
          let k := with_mem (λ _, store_word (pa_to_va g_direct_map_base pa) kStackCanary m) k in
          (Some t, init_nodes t (set_task t (fresh_tcb nm prio fl (wrap 8 cpu) pa t) k))
      end
  end.

(** [create_tcb] has the same body; its caller names the CPU. *)
Definition create_tcb (nm : string) (prio fl cpu : Z) (k : kernel) : option Z * kernel := alloc_task nm prio fl cpu k.

Definition task_list_add (t : Z) (k : kernel) : kernel :=
  let k := with_all (push_back g_all_tasks (all_link t)) k in
  set_nr_tasks (g_nr_tasks k + 1) k.

Definition task_list_remove (t : Z) (k : kernel) : kernel :=
  let k := with_all (DList.remove (all_link t)) k in
  if 0 <? g_nr_tasks k then set_nr_tasks (g_nr_tasks k - 1) k else k.

Definition adopt (p t : Z) (k : kernel) : kernel := with_kin (push_back (children p) (sibling t)) k.

(** ** kthread_create *)

(** [trampoline] is the address of [kthread_entry_trampoline]. *)
Definition kthread_create (trampoline : Z) (nm : string) (entry arg prio cpu : Z) (k : kernel) : option Z * kernel :=
  let '(r, k) := alloc_task nm prio TF_KTHREAD cpu k in
  match r with
  | None => (None, k)
  | Some t =>
      let '(p, a) := pid_alloc (pids k) in
      let k := set_pids a k in
      if p <? 0 then (None, delete_task t (with_mem (stack_free (kstack_pa (task k t))) k))
      else
        let d := tcb_ids p p (task k t) in
        let ctx := mkCtx trampoline (u64 (kstack_va d + kKernelStackSize)) ([entry; arg] ++ replicate 10 0) in
        let k := set_task t (tcb_parent (g_kernel_task k) (tcb_context ctx d)) k in
        let k := match g_kernel_task k with Some g => adopt g t k | None => k end in
        let k := task_list_add t k in
        (Some t, with_sch (sched_enqueue g_rq t) k)
  end.

(** ** task_exit *)

(** The loop over the children of [curr]: each is given to [foster]. *)
Definition reparent_step (curr foster : Z) : Z * kernel → Z * kernel + kernel := λ '(node, k),
  if node =? children curr then inr (with_kin (node_init (children curr)) k)
  else
    let next_sib := next_of (kin k) node in
    let child := task_of_sibling node in
    let k := set_task child (tcb_parent (Some foster) (task k child)) k in
    let unlink h := let h := set_next (prev_of h node) (next_of h node) h in
                    set_prev (next_of h node) (prev_of h node) h in
    let k := with_kin (λ h, push_back (children foster) node (unlink h)) k in
    inl (next_sib, k).

Definition reparent (curr foster : Z) (k : kernel) : outcome kernel :=
  match loop 64 (reparent_step curr foster) (next_of (kin k) (children curr), k) with
  | inr k => Ret k
  | inl _ => OutOfFuel
  end.

(** [task_exit] up to its final [schedule]. *)
Definition exit_prepare (cpu code : Z) (k : kernel) : outcome kernel :=
  match current_ (rq (sch k) cpu) with
  | None => Panic "task_exit: no current task"
  | Some curr =>
      let k := set_task curr (tcb_exit code (task k curr)) k in
      let k := match mm (task k curr) with
               | Some a => set_task curr (tcb_mm None (task k curr)) (with_mem (mm_destroy a) k)
               | None => k
               end in
      let foster := match g_init_task k with Some t => Some t | None => g_kernel_task k end in
      k ← match foster with
          | Some f => if is_empty (children curr) (kin k) then Ret k else reparent curr f k
          | None => Ret k
          end;
      let k := with_sch (set_state curr Zombie) k in
      match parent (task k curr) with
      | Some p => r ← wake_all g_rq (wait_chld p) (sch k); Ret (with_sch (λ _, r.2) k)
      | None => Ret k
      end
  end.

Definition task_exit (cpu code : Z) (k : kernel) : outcome kernel :=
  k ← exit_prepare cpu code k;
  s ← schedule g_rq cpu (sch k);
  Ret (with_sch (λ _, s) k).

Definition task_kill_current (cpu sig : Z) (k : kernel) : outcome kernel :=
  task_exit cpu (Z.lor (Z.land sig 0x7F) kExitCodeSignalFlag) k.

(** ** task_destroy and task_wait *)

Definition task_destroy (t : Z) (k : kernel) : kernel :=
  let k := task_list_remove t k in
  let k := with_kin (DList.remove (sibling t)) k in
  let k := set_pids (pid_free (pid (task k t)) (pids k)) k in
  let pa := kstack_pa (task k t) in
  let k := if pa =? 0 then k else with_mem (stack_free pa) k in
  delete_task t k.

(** The search for a zombie child, from [node]. *)
Definition zombie_step (curr : Z) (k : kernel) : Z → Z + option Z := λ node,
  if node =? children curr then inr None
  else
    let child := task_of_sibling node in
    if decide (state (task k child) = Zombie) then inr (Some child) else inl (next_of (kin k) node).

Definition find_zombie (curr : Z) (k : kernel) : outcome (option Z) :=
  match loop 64 (zombie_step curr k) (next_of (kin k) (children curr)) with
  | inr r => Ret r
  | inl _ => OutOfFuel
  end.

(** The result of one turn of [task_wait]'s loop: the value it returns with the
    exit code it stores, or [Blocked] when the caller has gone to sleep and will
    take another turn once it is woken. *)
Inductive waited := Returned (r : Z) (code : option Z) | Blocked.

Definition task_wait (cpu : Z) (k : kernel) : outcome (waited * kernel) :=
  match current_ (rq (sch k) cpu) with
  | None => Ret (Returned (- EINVAL) None, k)
  | Some curr =>
      k ← task_lock k;
      if is_empty (children curr) (kin k) then k ← task_unlock k; Ret (Returned (- ECHILD) None, k)
      else
        z ← find_zombie curr k;
        k ← task_unlock k;
        match z with
        | Some t => Ret (Returned (pid (task k t)) (Some (exit_code (task k t))), task_destroy t k)
        | None =>
            (* [curr->wait_chld.sleep(&g_task_list_lock)] *)
            let k := with_sch (sleep_link (wait_chld curr) curr) k in
            k ← task_unlock k;
            s ← schedule g_rq cpu (sch k);
            Ret (Blocked, with_sch (λ _, s) k)
        end
  end.

(** ** task_fork *)

(** [entry] is the address of [ret_from_fork]. *)
Definition task_fork (entry cpu tf : Z) (k : kernel) : Z * kernel :=
  match current_ (rq (sch k) cpu) with
  | None => (- EINVAL, k)
  | Some curr =>
      let '(r, k) := alloc_task "forked" (priority (task k curr)) 0 cpu k in
      match r with
      | None => (- ENOMEM, k)
      | Some child =>
          let drop k := delete_task child (with_mem (stack_free (kstack_pa (task k child))) k) in
          let '(p, a) := pid_alloc (pids k) in
          let k := set_pids a k in
          if p <? 0 then (- ENOMEM, drop k)
          else
            let k := set_task child (tcb_ids p p (task k child)) k in
            let '(ok, k) :=
              match mm (task k curr) with
              | None => (true, k)
              | Some a =>
                  let '(r, m) := mm_clone a (mem k) in
                  let k := set_task child (tcb_mm r (task k child)) (with_mem (λ _, m) k) in
                  (bool_decide (is_Some r), k)
              end in
            if negb ok then (- ENOMEM, drop (set_pids (pid_free (pid (task k child)) (pids k)) k))
            else
              let tf_addr := u64 (kstack_va (task k child) + kKernelStackSize - tf_size) in
              let f := frames k !!! tf in
              let k := set_frame tf_addr (mkTf (<[0%nat := 0]> (tf_a f)) (tf_rest f)) k in
              let ctx := mkCtx entry tf_addr ([tf_addr] ++ replicate 11 0) in
              let k := set_task child (tcb_parent (Some curr) (tcb_context ctx (tcb_frame tf_addr (task k child)))) k in
              let k := task_list_add child (adopt curr child k) in
              let k := with_sch (sched_enqueue g_rq child) k in
              (pid (task k child), k)
      end
  end.

(** ** Initialisation *)

Fixpoint init_rqs (n : nat) (cpu : Z) (s : sched) : sched :=
  match n with
  | O => s
  | S n' => init_rqs n' (cpu + 1) (o1_init g_rq cpu (rq_init cpu s))
  end.

(** The idle task of a CPU and the task that is already running on it. *)
Definition init_cpu (trampoline idle_func cpu : Z) (boot_name no_idle no_boot : string) (k : kernel) : outcome kernel :=
  let '(r, k) := create_tcb ("idle/" +:+ pretty cpu) kIdlePriority (Z.lor TF_KTHREAD TF_IDLE) cpu k in
  match r with
  | None => Panic no_idle
  | Some idle =>
      let d := tcb_class (Some ClassIdle) None (tcb_ids 0 0 (task k idle)) in
      let ctx := mkCtx trampoline (u64 (kstack_va d + kKernelStackSize)) ([idle_func; 0] ++ replicate 10 0) in
      let k := with_sch (set_idle cpu idle) (set_task idle (tcb_context ctx d) k) in
      let '(r, k) := create_tcb boot_name 0 TF_KTHREAD cpu k in
      match r with
      | None => Panic no_boot
      | Some b =>
          let d := tcb_state Running (tcb_ids (-1) (-1) (task k b)) in
          Ret (with_sch (set_current cpu b) (set_task b d k))
      end
  end.

Definition sched_init (trampoline idle_func : Z) (k : kernel) : outcome kernel :=
  let k := with_sch (init_rqs (Z.to_nat kMaxCpus) 0) k in
  init_cpu trampoline idle_func 0 "kernel_main" "sched_init: failed to create idle/0"
    "sched_init: failed to create bsp_task" k.

Definition sched_init_ap (trampoline idle_func cpu : Z) (k : kernel) : outcome kernel :=
  if kMaxCpus <=? cpu then Panic "sched: cpu_id out of range"
  else init_cpu trampoline idle_func cpu "ap_boot" "sched_init_ap: failed to create idle"
    "sched_init_ap: failed to create ap_task" k.

Definition task_init (k : kernel) : kernel :=
  set_pids pid_init (set_lock false (with_all (node_init g_all_tasks) k)).

(** [task_check_stack_canary]. *)
Definition task_check_stack_canary (t : option Z) (k : kernel) : outcome unit :=
  match t with
  | None => Ret tt
  | Some t =>
      if kstack_va (task k t) =? 0 then Ret tt
      else if load_word (kstack_va (task k t)) (mem k) =? kStackCanary then Ret tt
      else Panic "kernel stack overflow detected"
  end.

(** ** Process system calls *)

Definition current (cpu : Z) (k : kernel) : outcome Z := deref (current_ (rq (sch k) cpu)).

Definition sys_exit (cpu code : Z) (k : kernel) : outcome kernel := task_exit cpu (Z.land code 0xFF) k.

Definition sys_getpid (cpu : Z) (k : kernel) : outcome Z := t ← current cpu k; Ret (tgid (task k t)).
Definition sys_gettid (cpu : Z) (k : kernel) : outcome Z := t ← current cpu k; Ret (pid (task k t)).
Definition sys_getppid (cpu : Z) (k : kernel) : outcome Z :=
  t ← current cpu k;
  Ret (match parent (task k t) with Some p => tgid (task k p) | None => 0 end).

Definition sys_clone (entry cpu : Z) (k : kernel) : outcome (Z * kernel) :=
  t ← current cpu k;
  if trapframe (task k t) =? 0 then Ret (- EINVAL, k) else Ret (task_fork entry cpu (trapframe (task k t)) k).

(** The encoding of an exit code for [wait4], and its readers of [wait.h]. *)
Definition W_EXITCODE (code : Z) : Z := Z.shiftl (Z.land code 0xFF) 8.
Definition WEXITSTATUS (s : Z) : Z := Z.land (Z.shiftr s 8) 0xFF.
Definition WIFEXITED (s : Z) : bool := Z.land s 0x7F =? 0.
Definition WIFSIGNALED (s : Z) : bool := negb (Z.land s 0x7F =? 0) && negb (Z.land s 0x7F =? 0x7F).
Definition WTERMSIG (s : Z) : Z := Z.land s 0x7F.

Definition wait_status (code : Z) : Z :=
  if negb (Z.land code kExitCodeSignalFlag =? 0) then Z.land code 0x7F else W_EXITCODE code.

Definition sys_wait4 (cpu wstatus_ptr : Z) (k : kernel) : outcome (option Z * kernel) :=
  r ← task_wait cpu k;
  let '(w, k) := r in
  match w with
  | Blocked => Ret (None, k)
  | Returned p code =>
      if p <? 0 then Ret (Some p, k)
      else if wstatus_ptr =? 0 then Ret (Some p, k)
      else
        let '(e, m) := put_user wstatus_ptr (wait_status (default 0 code)) (mem k) in
        if e <? 0 then Ret (Some (- EFAULT), with_mem (λ _, m) k) else Ret (Some p, with_mem (λ _, m) k)
  end.
End task.
