(* ===== verification/SchedSystem.v ===== *)
(** * SchedSystem: the scheduler under every interleaving

    The critical sections of all CPUs as events of one transition system, its
    invariant, and the properties of the scheduler. *)

From S2P Require Import Prelude Bits DList Spinlock Sched SchedInv SchedOps SchedSteps.
From stdpp Require Import relations.
Open Scope Z_scope.

Section system.
Context (g_rq : Z).
Abbreviation queue_head := (queue_head g_rq).
Abbreviation sched_ok := (sched_ok g_rq).
Abbreviation is_queue := (is_queue g_rq).

(** ** Events *)

Inductive event :=
| Spawn (t : Z) (d : TaskControlBlock)   (* a new control block is enqueued *)
| Tick (c : Z)                           (* timer interrupt *)
| Preempt (c : Z)                        (* return to user mode *)
| Yield (c : Z)
| Schedule (c : Z)
| SleepLink (c w : Z)                    (* first half of [WaitQueue::sleep] *)
| WakeOne (w : Z)
| WakeAll (w : Z)
| Exit (c : Z)                           (* [task_exit] marks its caller *)
| Execute (c : Z) (r : Context).         (* the running task computes *)

Definition perform (e : event) (s : sched) : outcome sched :=
  match e with
  | Spawn t d => Ret (sched_enqueue g_rq t (set_tcb t d s))
  | Tick c => sched_tick c s
  | Preempt c => sched_check_preempt g_rq c s
  | Yield c => sched_yield g_rq c s
  | Schedule c => schedule g_rq c s
  | SleepLink c w => t ← deref (current_ (rq s c)); Ret (sleep_link w t s)
  | WakeOne w => Ret (wake_one g_rq w s).2
  | WakeAll w => r ← wake_all g_rq w s; Ret r.2
  | Exit c => t ← deref (current_ (rq s c)); Ret (set_state t Zombie s)
  | Execute c r => Ret (set_regs c r s)
  end.

(** When an event may happen: [O] are the CPUs that are up and [W] the wait
    queues; the idle task neither sleeps nor exits. *)
Definition running_o1 (c : Z) (s : sched) : Prop :=
  ∃ t d, current_ (rq s c) = Some t ∧ tcbs s !! t = Some d ∧ state d = Running ∧ sched_class d = Some ClassO1.

Definition allowed (O W : gset Z) (e : event) (s : sched) : Prop :=
  match e with
  | Spawn t d => tcbs s !! t = None ∧ tcb_ok d ∧ sched_class d = Some ClassO1 ∧ ¬ is_queue (run_link t) ∧
      (run_link t ∉ W) ∧ Z.of_nat (size (tcbs s)) < 2 ^ 32
  | Tick c | Preempt c | Yield c | Schedule c | Execute c _ => c ∈ O
  | SleepLink c w => c ∈ O ∧ w ∈ W ∧ running_o1 c s
  | WakeOne w | WakeAll w => w ∈ W
  | Exit c => c ∈ O ∧ running_o1 c s
  end.

(** The lists are the run queues and the wait queues. *)
Definition lists_of (W : gset Z) (σ : lists) : Prop :=
  (∀ w, w ∈ W → ¬ is_queue w ∧ is_Some (σ !! w)) ∧ (∀ w l, σ !! w = Some l → is_queue w ∨ w ∈ W).

Record system_ok (O W : gset Z) (σ : lists) (s : sched) : Prop := {
  sy_ok : sched_ok None σ s;
  sy_lists : lists_of W σ;
  sy_online c : c ∈ O → cpu_ok c ∧ is_Some (current_ (rq s c)) ∧ is_Some (idle_ (rq s c));
  sy_size : Z.of_nat (size (tcbs s)) ≤ 2 ^ 32
}.

Lemma lists_of_insert W σ w l : lists_of W σ → is_Some (σ !! w) → lists_of W (<[w := l]> σ).
Proof.
  intros [H1 H2] [l0 Hw]. split.
  - intros w' Hw'. destruct (H1 w' Hw') as [? [l' Hl']]. split; [done|]. rewrite lookup_insert. case_decide; eauto.
  - intros w' l' [[<- <-]|[_ ?]]%lookup_insert_Some; eauto.
Qed.

Lemma lists_of_enqueue W s σ n :
  lists_of W σ → is_Some (σ !! queue_head (home s (task_of_run_link n)).1 (home s (task_of_run_link n)).2) →
  lists_of W (enqueue_node g_rq s σ n).
Proof. intros. by apply lists_of_insert. Qed.

(** ** Waking keeps the domain of the lists *)

Lemma queue_exists σ s c p : sched_ok None σ s → cpu_ok c → prio_ok p → is_Some (σ !! queue_head c p).
Proof. intros Hok Hc Hp. destruct (so_queue _ _ _ _ Hok c p Hc Hp) as (l & -> & _). eauto. Qed.

Lemma member_queue σ s w l n :
  sched_ok None σ s → σ !! w = Some l → n ∈ l →
  is_Some (σ !! queue_head (home s (task_of_run_link n)).1 (home s (task_of_run_link n)).2).
Proof.
  intros Hok Hw Hn. destruct (so_member _ _ _ _ Hok w l n Hw Hn) as (d & Ht & _).
  destruct (so_task _ _ _ _ Hok _ _ Ht) as [(? & ? & _) _]. unfold home. rewrite (tcb_lookup _ _ _ Ht).
  by eapply queue_exists.
Qed.

Lemma lists_of_enqueues W s σ ns :
  lists_of W σ → (∀ n, n ∈ ns → is_Some (σ !! queue_head (home s (task_of_run_link n)).1 (home s (task_of_run_link n)).2)) →
  lists_of W (foldl (enqueue_node g_rq s) σ ns).
Proof.
  revert σ. induction ns as [|n ns IH]; intros σ Hl Hns; [done|]. cbn. apply IH.
  - apply lists_of_enqueue; [done|]. apply Hns. left.
  - intros m Hm. unfold enqueue_node. rewrite lookup_insert. case_decide; [eauto|]. apply Hns. by right.
Qed.

(** A list holds each task at most once. *)
Lemma list_short σ s w l : sched_ok None σ s → σ !! w = Some l → Z.of_nat (length l) ≤ Z.of_nat (size (tcbs s)).
Proof.
  intros Hok Hw. pose proof (rep_list _ _ (so_rep _ _ _ _ Hok) _ _ Hw) as [[_ Hnd]%NoDup_cons _].
  rewrite <- (length_fmap task_of_run_link).
  assert (Hnd' : NoDup (task_of_run_link <$> l)).
  { apply NoDup_fmap_2; [|done]. intros x y. unfold task_of_run_link. lia. }
  apply Nat2Z.inj_le. rewrite <- size_dom, <- (size_list_to_set (C := gset Z)) by done.
  apply subseteq_size. intros t Ht. apply elem_of_list_to_set, list_elem_of_fmap in Ht as (n & -> & Hn).
  destruct (so_member _ _ _ _ Hok w l n Hw Hn) as (d & E & _). by apply elem_of_dom.
Qed.

(** ** Every event keeps the invariant *)

Section events.
Context (O W : gset Z) (σ : lists) (s : sched) (Hsys : system_ok O W σ s).

Lemma wait_head w : w ∈ W → ∃ l, σ !! w = Some l ∧ ¬ is_queue w.
Proof using Hsys. intros Hw. destruct (proj1 (sy_lists _ _ _ _ Hsys) w Hw) as [? [l ?]]. eauto. Qed.

(** A step that keeps the tasks, the current tasks up to another one, and the idle tasks. *)
Lemma system_keep σ' s' :
  sched_ok None σ' s' → lists_of W σ' → dom (tcbs s') = dom (tcbs s) →
  (∀ c, is_Some (current_ (rq s c)) → is_Some (current_ (rq s' c))) →
  (∀ c, idle_ (rq s' c) = idle_ (rq s c)) → system_ok O W σ' s'.
Proof using Hsys.
  intros Hok Hl Hd Hc Hi. destruct Hsys. split; [done..| |].
  - intros c Hc'. rewrite Hi. destruct (sy_online0 c Hc') as (? & ? & ?). eauto.
  - by rewrite <- size_dom, Hd, size_dom.
Qed.

Lemma scheduled_event c p i n σ' s' :
  c ∈ O → current_ (rq s c) = Some p → scheduled g_rq σ s c p i n σ' s' → idle_ (rq s c) = Some i → system_ok O W σ' s'.
Proof using Hsys.
  intros Hc Hp Hs Hi. destruct (sy_online _ _ _ _ Hsys c Hc) as (Hcpu & _). pose proof (sy_ok _ _ _ _ Hsys) as Hok.
  apply system_keep; [apply Hs|..].
  - assert (Hr : lists_of W (requeue g_rq σ s c)).
    { unfold requeue. rewrite Hp. case_decide; [|apply Hsys].
      destruct (so_current _ _ _ _ Hok c p Hcpu Hp) as (d & Hd & _). destruct (so_task _ _ _ _ Hok p d Hd) as [(? & ? & _) _].
      apply lists_of_insert; [apply Hsys|]. rewrite (tcb_lookup _ _ _ Hd). by eapply queue_exists. }
    destruct (sd_picks _ _ _ _ _ _ _ _ _ Hs) as [pr m l Hpr Hl _|_]; [|done]. apply lists_of_insert; [done|by rewrite Hl].
  - rewrite <- (dom_fmap_L static), (sd_static _ _ _ _ _ _ _ _ _ Hs). by rewrite dom_fmap_L.
  - intros c' H. destruct (decide (c' = c)) as [->|]; [by rewrite (sd_current _ _ _ _ _ _ _ _ _ Hs)|].
    by rewrite (sd_other _ _ _ _ _ _ _ _ _ Hs).
  - intros c'. destruct (decide (c' = c)) as [->|]; [by rewrite (sd_idle _ _ _ _ _ _ _ _ _ Hs)|].
    by rewrite (sd_other _ _ _ _ _ _ _ _ _ Hs).
Qed.

Lemma schedule_event c :
  c ∈ O → ∃ σ' s', schedule g_rq c s = Ret s' ∧ system_ok O W σ' s'.
Proof using Hsys.
  intros Hc. destruct (sy_online _ _ _ _ Hsys c Hc) as (Hcpu & [p Hp] & [i Hi]).
  destruct (schedule_ok g_rq σ s c p i (sy_ok _ _ _ _ Hsys) Hcpu Hp Hi) as (n & σ' & s' & E & Hs). exists σ', s'.
  split; [done|]. by eapply scheduled_event.
Qed.

(** The fields of control blocks that ticks and yields write. *)
Lemma slice_dom t d v : tcbs s !! t = Some d → dom (tcbs (set_slice t v s)) = dom (tcbs s).
Proof using. intros Ht. cbn. rewrite dom_insert_L. apply elem_of_dom_2 in Ht. set_solver -Hsys. Qed.

Lemma set_need_resched_fields c v s' c' :
  current_ (rq (set_need_resched c v s') c') = current_ (rq s' c') ∧ idle_ (rq (set_need_resched c v s') c') = idle_ (rq s' c').
Proof using. unfold set_need_resched. rewrite rq_set_rq. by case_decide; subst. Qed.

Lemma slice_event t d v :
  tcbs s !! t = Some d → system_ok O W σ (set_slice t v s).
Proof using Hsys.
  intros Ht. apply system_keep; [|apply Hsys|by eapply slice_dom|done|done].
  eapply set_slice_ok; [apply Hsys|done].
Qed.

Lemma resched_event c v : system_ok O W σ (set_need_resched c v s).
Proof using Hsys.
  apply system_keep; [apply set_need_resched_ok, Hsys|apply Hsys|done|..].
  - intros c'. by destruct (set_need_resched_fields c v s c') as [-> _].
  - intros c'. by destruct (set_need_resched_fields c v s c') as [_ ->].
Qed.
End events.

Lemma tick_event O W σ s c : system_ok O W σ s → c ∈ O → ∃ s', sched_tick c s = Ret s' ∧ system_ok O W σ s'.
Proof.
  intros Hsys Hc. destruct (sy_online _ _ _ _ Hsys c Hc) as (Hcpu & [t Ht] & _).
  destruct (so_current _ _ _ _ (sy_ok _ _ _ _ Hsys) c t Hcpu Ht) as (d & Hd & _).
  destruct (so_task _ _ _ _ (sy_ok _ _ _ _ Hsys) t d Hd) as [(_ & _ & [k Hk]) _].
  unfold sched_tick. rewrite Ht, (tcb_lookup _ _ _ Hd), Hk. cbn. eexists. split; [done|].
  destruct k; [|done]. cbn. unfold o1_task_tick. case_decide; [done|]. case_match; [|by eapply slice_event].
  apply resched_event. eapply slice_event; [by eapply slice_event|by apply set_slice_lookup].
Qed.

Lemma yield_event O W σ s c :
  system_ok O W σ s → c ∈ O → ∃ σ' s', sched_yield g_rq c s = Ret s' ∧ system_ok O W σ' s'.
Proof.
  intros Hsys Hc. destruct (sy_online _ _ _ _ Hsys c Hc) as (Hcpu & [t Ht] & _).
  destruct (so_current _ _ _ _ (sy_ok _ _ _ _ Hsys) c t Hcpu Ht) as (d & Hd & _).
  destruct (so_task _ _ _ _ (sy_ok _ _ _ _ Hsys) t d Hd) as [(_ & _ & [k Hk]) _].
  unfold sched_yield. rewrite Ht. case_decide; [by eapply schedule_event|].
  rewrite (tcb_lookup _ _ _ Hd), Hk. cbn. eapply schedule_event; [|done]. apply resched_event.
  destruct k; [|done]. cbn. unfold o1_yield_task. case_decide; [done|]. apply resched_event. by eapply slice_event.
Qed.

(** A new control block is in hand until it is enqueued. *)
Lemma spawn_hand σ s t d :
  sched_ok None σ s → tcbs s !! t = None → tcb_ok d → sched_class d = Some ClassO1 → σ !! run_link t = None →
  sched_ok (Some t) σ (set_tcb t d s).
Proof.
  intros [Hrep Htask Hmem Hq Hbm Hcu Hid Hrun Hpl _] Ht Hd Hk Hhead.
  assert (Hold : ∀ t' d', tcbs s !! t' = Some d' → tcbs (set_tcb t d s) !! t' = Some d').
  { intros t' d' E. rewrite tcb_set_tcb, decide_False; [done|]. intros ->. by rewrite Ht in E. }
  split; auto.
  - intros t' d'. rewrite tcb_set_tcb. case_decide; [subst; by intros [= <-]|eauto].
  - intros w l n Hw Hn. destruct (Hmem w l n Hw Hn) as (d' & E & ?). eauto.
  - intros c t' Hc Ec. destruct (Hcu c t' Hc Ec) as (d' & E & ?). eauto.
  - intros c t' Hc Ei. destruct (Hid c t' Hc Ei) as (d' & E & ?). eauto.
  - intros t' d' Hne. rewrite tcb_set_tcb, decide_False by congruence. by apply Hrun.
  - intros t' d' Hne. rewrite tcb_set_tcb, decide_False by congruence. by apply Hpl.
  - intros t' [= <-]. exists d. rewrite tcb_set_tcb, decide_True by done. split_and!; [done..|].
    intros w l Hw. rewrite not_elem_of_cons. split; [intros E; by rewrite E, Hw in Hhead|]. intros Hn.
    destruct (Hmem w l _ Hw Hn) as (d' & E & _). rewrite task_run_link in E. by rewrite Ht in E.
Qed.

(** A task that will not run again is put down. *)
Lemma drop_hand σ s t d :
  sched_ok (Some t) σ s → tcbs s !! t = Some d → state d = Zombie → sched_ok None σ s.
Proof.
  intros [Hrep Htask Hmem Hq Hbm Hcu Hid Hrun Hpl Hh] Ht Hs. destruct (Hh t eq_refl) as (d' & E & Hk & Hun). rewrite Ht in E. injection E as <-.
  split; auto.
  - intros t' d' _ E Hr. destruct (decide (t' = t)) as [->|]; [|apply (Hrun t' d'); congruence]. congruence.
  - intros t' d' _ E Hr. destruct (decide (t' = t)) as [->|]; [|apply (Hpl t' d'); congruence].
    simplify_eq. unfold placed. by rewrite Hs.
  - done.
Qed.

Lemma spawn_event O W σ s t d :
  system_ok O W σ s → allowed O W (Spawn t d) s →
  system_ok O W (enqueue_node g_rq (set_tcb t d s) σ (run_link t)) (sched_enqueue g_rq t (set_tcb t d s)).
Proof.
  intros Hsys (Ht & Hd & Hk & Hq & HW & Hsize). pose proof (sy_ok _ _ _ _ Hsys) as Hok.
  assert (Hhead : σ !! run_link t = None).
  { destruct (σ !! run_link t) as [l|] eqn:E; [|done]. by destruct (proj2 (sy_lists _ _ _ _ Hsys) _ _ E). }
  pose proof (spawn_hand σ s t d Hok Ht Hd Hk Hhead) as Hh.
  assert (Ht' : tcbs (set_tcb t d s) !! t = Some d) by (by rewrite tcb_set_tcb, decide_True).
  destruct (sched_enqueue_ok g_rq σ _ t d Hh Ht') as [Hok' _]. split; [exact Hok'|..].
  - apply lists_of_enqueue; [apply Hsys|]. destruct Hd as (? & ? & _). unfold home.
    rewrite task_run_link, (tcb_lookup _ _ _ Ht'). cbn. by eapply queue_exists.
  - intros c Hc. rewrite sched_enqueue_current, sched_enqueue_idle. by apply (sy_online _ _ _ _ Hsys).
  - rewrite <- size_dom, sched_enqueue_dom by (by apply elem_of_dom_2 in Ht'). cbn. rewrite size_dom, map_size_insert, Ht. cbn. lia.
Qed.

Lemma running_hand σ s c :
  sched_ok None σ s → running_o1 c s → ∃ t d, current_ (rq s c) = Some t ∧ tcbs s !! t = Some d ∧
    state d = Running ∧ sched_class d = Some ClassO1 ∧ sched_ok (Some t) σ s.
Proof. intros Hok (t & d & Hc & Ht & Hs & Hk). exists t, d. split_and!; [done..|]. by eapply take_running. Qed.

Lemma sleep_event O W σ s c w t d l :
  system_ok O W σ s → w ∈ W → σ !! w = Some l → current_ (rq s c) = Some t → tcbs s !! t = Some d →
  state d = Running → sched_class d = Some ClassO1 →
  system_ok O W (<[w := l ++ [run_link t]]> σ) (sleep_link w t s).
Proof.
  intros Hsys Hw Hl Hcur Ht Hs Hk. destruct (wait_head _ _ _ _ Hsys w Hw) as (_ & _ & Hq).
  pose proof (sleep_link_ok g_rq σ s t d w l (sy_ok _ _ _ _ Hsys) Ht Hs Hk Hl Hq) as Hok'.
  apply (system_keep O W σ s Hsys _ _ Hok'); [|by apply dom_set_tcb, elem_of_dom|done|done].
  apply lists_of_insert; [apply Hsys|eauto].
Qed.

Lemma exit_event O W σ s c :
  system_ok O W σ s → allowed O W (Exit c) s →
  ∃ s', perform (Exit c) s = Ret s' ∧ system_ok O W σ s'.
Proof.
  intros Hsys (Hc & Hr). destruct (running_hand σ s c (sy_ok _ _ _ _ Hsys) Hr) as (t & d & Hcur & Ht & Hs & Hk & Hh).
  cbn. rewrite Hcur. cbn. eexists. split; [done|].
  apply (system_keep O W σ s Hsys); [|apply Hsys|by apply dom_set_tcb, elem_of_dom|done|done].
  apply (drop_hand σ _ t (tcb_state Zombie d)); [|by unfold set_state; rewrite tcb_set_tcb, decide_True, (tcb_lookup _ _ _ Ht)|done].
  by eapply hand_update; rewrite ?(tcb_lookup _ _ _ Ht).
Qed.


Lemma wake_one_event O W σ s w :
  system_ok O W σ s → w ∈ W → ∃ σ', system_ok O W σ' (wake_one g_rq w s).2.
Proof.
  intros Hsys Hw. pose proof (sy_ok _ _ _ _ Hsys) as Hok. destruct (wait_head _ _ _ _ Hsys w Hw) as (l & Hl & Hq).
  pose proof (wake_one_ok g_rq σ s w l Hok Hl Hq) as H1. destruct l as [|n l]; [rewrite H1; eauto|].
  destruct H1 as [-> Hok']. cbn. destruct (wake_head_keep g_rq σ s w n l Hok Hl) as [Hd Hi].
  destruct (wake_head_ok g_rq σ s w n l Hok Hl Hq) as (_ & _ & _ & Hc).
  eexists. apply (system_keep O W σ s Hsys _ _ Hok'); [|done|by intros c; rewrite Hc|done].
  apply lists_of_enqueue; [apply lists_of_insert; [apply Hsys|eauto]|].
  rewrite lookup_insert. case_decide; [eauto|]. eapply member_queue; [done..|left].
Qed.

Lemma wake_all_event O W σ s w :
  system_ok O W σ s → w ∈ W → ∃ n σ' s', wake_all g_rq w s = Ret (n, s') ∧ system_ok O W σ' s'.
Proof.
  intros Hsys Hw. pose proof (sy_ok _ _ _ _ Hsys) as Hok. destruct (wait_head _ _ _ _ Hsys w Hw) as (l & Hl & Hq).
  destruct (wake_all_ok g_rq σ s w l Hok Hl Hq) as (s' & E & Hok' & Hc & Hi & _ & Hd).
  { pose proof (list_short σ s w l Hok Hl). pose proof (sy_size _ _ _ _ Hsys). lia. }
  exists (Z.of_nat (length l)), (foldl (enqueue_node g_rq s) (<[w := []]> σ) l), s'. split; [done|].
  apply (system_keep O W σ s Hsys _ _ Hok'); [|done|by intros c; rewrite Hc|done].
  apply lists_of_enqueues; [apply lists_of_insert; [apply Hsys|eauto]|].
  intros n Hn. rewrite lookup_insert. case_decide; [eauto|]. by eapply member_queue.
Qed.

Lemma event_ok O W σ s e :
  system_ok O W σ s → allowed O W e s → ∃ σ' s', perform e s = Ret s' ∧ system_ok O W σ' s'.
Proof.
  intros Hsys Ha. destruct e as [t d|c|c|c|c|c w|w|w|c|c r]; cbn [perform].
  - pose proof (spawn_event O W σ s t d Hsys Ha). eauto.
  - destruct (tick_event O W σ s c Hsys Ha) as (s' & ? & ?). eauto.
  - unfold sched_check_preempt. destruct (need_resched_ (rq s c)); [by eapply schedule_event|eauto].
  - by eapply yield_event.
  - by eapply schedule_event.
  - destruct Ha as (_ & Hw & t & d & Hcur & Ht & Hs & Hk). destruct (wait_head _ _ _ _ Hsys w Hw) as (l & Hl & _).
    rewrite Hcur. eexists _, _. split; [done|]. by eapply sleep_event.
  - destruct (wake_one_event O W σ s w Hsys Ha) as (σ' & ?). eauto.
  - destruct (wake_all_event O W σ s w Hsys Ha) as (n & σ' & s' & -> & ?). cbn. eauto.
  - destruct (exit_event O W σ s c Hsys Ha) as (s' & ? & ?). eauto.
  - eexists _, _. split; [done|]. apply (system_keep O W σ s Hsys); [apply regs_fields, Hsys|apply Hsys|done..].
Qed.

Definition sched_step (O W : gset Z) (s s' : sched) : Prop := ∃ e, allowed O W e s ∧ perform e s = Ret s'.

Lemma steps_ok O W σ0 s0 s :
  system_ok O W σ0 s0 → rtc (sched_step O W) s0 s → ∃ σ, system_ok O W σ s.
Proof.
  intros H0 Hr. revert σ0 H0. induction Hr as [|s0 s1 s2 (e & Ha & E) _ IH]; intros σ0 H0; [eauto|].
  destruct (event_ok O W σ0 s0 e H0 Ha) as (σ' & s' & E' & H1). rewrite E in E'. injection E' as <-. eauto.
Qed.

(** ** Contexts *)

Definition saved (s : sched) (t : Z) : Context := context (tcb s t).

Lemma saved_set_tcb t d s t' : context d = context (tcb s t) → saved (set_tcb t d s) t' = saved s t'.
Proof. intros Hc. unfold saved. rewrite tcb_set_total. by case_decide; subst. Qed.

Lemma saved_enqueue t s t' : saved (sched_enqueue g_rq t s) t' = saved s t'.
Proof.
  assert (He : ∀ k c s', saved (enqueue_task g_rq k c t s') t' = saved s' t').
  { intros [] c s'; [|done].
    change (saved (set_tcb t (tcb_state Runnable (tcb s' t)) s') t' = saved s' t'). by apply saved_set_tcb. }
  unfold sched_enqueue. rewrite He. by apply saved_set_tcb.
Qed.

Lemma saved_wake_head w s t : saved (wake_head g_rq w s) t = saved s t.
Proof. unfold wake_head. rewrite saved_enqueue. unfold set_state. by rewrite saved_set_tcb. Qed.

Lemma saved_wake_all w s n s' t : wake_all g_rq w s = Ret (n, s') → saved s' t = saved s t.
Proof.
  unfold wake_all. generalize 0. generalize 64%nat. intros k z.
  assert (Hl : match loop k (wake_all_step g_rq w) (z, s) with
               | inl r | inr r => saved r.2 t = saved s t end).
  { revert z s. induction k as [|k IH]; intros z s; cbn; [by destruct (is_empty w (links s)); cbn; [|apply saved_wake_head]|].
    pose proof (IH z s) as H1. destruct (loop k _ (z, s)) as [[z1 s1]|[z1 s1]]; [|done]. cbn in H1.
    pose proof (IH z1 s1) as H2. by destruct (loop k _ (z1, s1)) as [[]|[]]; cbn in *; rewrite H2. }
  destruct (loop k _ _) as [|[n' s1]]; [done|]. by intros [= -> ->].
Qed.

Lemma saved_schedule O W σ s c s' t :
  system_ok O W σ s → c ∈ O → schedule g_rq c s = Ret s' → t ∈ dom (tcbs s) → current_ (rq s c) ≠ Some t →
  saved s' t = saved s t.
Proof.
  intros Hsys Hc E Ht Hne. destruct (sy_online _ _ _ _ Hsys c Hc) as (Hcpu & [p Hp] & [i Hi]).
  destruct (schedule_ok g_rq σ s c p i (sy_ok _ _ _ _ Hsys) Hcpu Hp Hi) as (n & σ' & s1 & E' & Hs).
  rewrite E in E'. injection E' as <-. unfold saved. rewrite (sd_context _ _ _ _ _ _ _ _ _ Hs) by done.
  rewrite decide_False; [done|]. intros [-> _]. done.
Qed.

(** The prologue of [sched_yield] before it calls [schedule]. *)
Lemma yield_prologue O W σ s c s' :
  system_ok O W σ s → c ∈ O → sched_yield g_rq c s = Ret s' →
  ∃ s1, system_ok O W σ s1 ∧ schedule g_rq c s1 = Ret s' ∧ (∀ t, saved s1 t = saved s t) ∧
    dom (tcbs s1) = dom (tcbs s) ∧ current_ (rq s1 c) = current_ (rq s c).
Proof.
  intros Hsys Hc. destruct (sy_online _ _ _ _ Hsys c Hc) as (Hcpu & [t Ht] & _).
  destruct (so_current _ _ _ _ (sy_ok _ _ _ _ Hsys) c t Hcpu Ht) as (d & Hd & _).
  destruct (so_task _ _ _ _ (sy_ok _ _ _ _ Hsys) t d Hd) as [(_ & _ & [k Hk]) _].
  unfold sched_yield. rewrite Ht. case_decide as Ei; [by exists s|].
  rewrite (tcb_lookup _ _ _ Hd), Hk. cbn [deref mbind outcome_bind]. intros E. eexists. split; [|split; [exact E|]].
  - apply resched_event. destruct k; [|done]. cbn. unfold o1_yield_task. case_decide; [done|]. apply resched_event.
    by eapply slice_event.
  - rewrite (proj1 (set_need_resched_fields c true _ c)). destruct k; [|by split_and!]. cbn. unfold o1_yield_task.
    rewrite decide_False by done. split_and!.
    + intros t'. change (saved (set_slice t 0 s) t' = saved s t'). by apply saved_set_tcb.
    + by eapply slice_dom.
    + by rewrite (proj1 (set_need_resched_fields c true _ c)).
Qed.

#[local] Strategy 1000 [wake_all].

(** No CPU runs [t]. *)
Definition waits (O : gset Z) (t : Z) (s : sched) : Prop :=
  t ∈ dom (tcbs s) ∧ ∀ c, c ∈ O → current_ (rq s c) ≠ Some t.

(** An event leaves the saved registers of every task alone that no CPU runs. *)
Lemma event_saved O W σ s e s' t :
  system_ok O W σ s → allowed O W e s → perform e s = Ret s' → waits O t s → saved s' t = saved s t.
Proof.
  intros Hsys Ha E [Ht Hcur]. destruct e as [t' d|c|c|c|c|c w|w|w|c|c r]; cbn [perform allowed] in E, Ha.
  - injection E as <-. rewrite saved_enqueue. unfold saved. rewrite tcb_set_total, decide_False; [done|].
    intros ->. destruct Ha as [Hn _]. by apply not_elem_of_dom in Hn.
  - unfold sched_tick in E. destruct (current_ (rq s c)) as [p|]; [|by injection E as <-].
    destruct (sched_class (tcb s p)) as [[]|]; cbn in E; [|by injection E as <-|done]. injection E as <-.
    unfold o1_task_tick. case_decide; [done|]. case_match; [|by apply saved_set_tcb].
    etrans; [|by apply (saved_set_tcb p (tcb_slice (time_slice (tcb s p) - 1) (tcb s p)))].
    unfold set_need_resched. by apply saved_set_tcb.
  - unfold sched_check_preempt in E. destruct (need_resched_ (rq s c)); [|by injection E as <-].
    eapply saved_schedule; eauto.
  - destruct (yield_prologue O W σ s c s' Hsys Ha E) as (s1 & H1 & E1 & Hs & Hd & Hc). rewrite <- Hs.
    eapply saved_schedule; eauto; [by rewrite Hd|rewrite Hc; auto].
  - eapply saved_schedule; eauto.
  - destruct (current_ (rq s c)); [|done]. injection E as <-. by apply saved_set_tcb.
  - injection E as <-. unfold wake_one. case_match; [done|apply saved_wake_head].
  - destruct (wake_all g_rq w s) as [[n s1]| |] eqn:Ew; [|done..]. injection E as <-. by eapply saved_wake_all.
  - destruct (current_ (rq s c)); [|done]. injection E as <-. by apply saved_set_tcb.
  - by injection E as <-.
Qed.

(** ** Turns *)

Fixpoint schedules (n : nat) (c : Z) (s : sched) : outcome sched :=
  match n with O => Ret s | S n' => s ← schedule g_rq c s; schedules n' c s end.

(** The task on [c] is no more urgent than [p], and no more urgent one waits. *)
Definition none_above (σ : lists) (s : sched) (c p : Z) : Prop :=
  (∀ t d, current_ (rq s c) = Some t → tcbs s !! t = Some d → state d = Running → sched_class d = Some ClassO1 → p ≤ priority d) ∧
  (∀ q, 0 ≤ q < p → σ !! queue_head c q = Some []).

(** One call moves the queue of priority [p] on by one. *)
Lemma schedule_turn O W σ s c p n l :
  system_ok O W σ s → c ∈ O → prio_ok p → σ !! queue_head c p = Some (n :: l) → none_above σ s c p →
  ∃ σ' s' l', schedule g_rq c s = Ret s' ∧ system_ok O W σ' s' ∧ current_ (rq s' c) = Some (task_of_run_link n) ∧
    σ' !! queue_head c p = Some (l ++ l') ∧ none_above σ' s' c p.
Proof.
  intros Hsys Hc Hp Hl [Hcurp Hlow]. destruct (sy_online _ _ _ _ Hsys c Hc) as (Hcpu & [t Ht] & [i Hi]).
  pose proof (sy_ok _ _ _ _ Hsys) as Hok.
  destruct (schedule_ok g_rq σ s c t i Hok Hcpu Ht Hi) as (m & σ' & s' & E & Hs).
  destruct (so_current _ _ _ _ Hok c t Hcpu Ht) as (d & Hd & Hdc & _).
  assert (Hrl : ∃ l', requeue g_rq σ s c !! queue_head c p = Some (n :: l ++ l')).
  { unfold requeue. rewrite Ht. case_decide; [|exists []; by rewrite app_nil_r]. rewrite lookup_insert.
    case_decide as Eh; [|exists []; by rewrite app_nil_r]. rewrite Eh, Hl. by exists [run_link t]. }
  assert (Hrlow : ∀ q, 0 ≤ q < p → requeue g_rq σ s c !! queue_head c q = Some []).
  { intros q Hq. unfold requeue. rewrite Ht, (tcb_lookup _ _ _ Hd). case_decide as Er; [|by apply Hlow].
    rewrite lookup_insert_ne; [by apply Hlow|]. destruct Er as [Hr Hk]. pose proof (Hcurp t d Ht Hd Hr Hk) as Hle.
    destruct (so_task _ _ _ _ Hok t d Hd) as [(Hpd & _ & _) _].
    intros Eh%queue_head_inj; [lia|done|unfold prio_ok in *; lia]. }
  destruct Hrl as (l' & Hrl). exists σ', s', l'.
  destruct (sd_picks _ _ _ _ _ _ _ _ _ Hs) as [pr n' k Hpr Hk Hkl|Hnone]; [|by rewrite Hnone in Hrl].
  assert (pr = p) as ->.
  { destruct (Z.lt_trichotomy pr p) as [Hlt|[->|Hgt]]; [|done|].
    - rewrite Hrlow in Hk by (unfold prio_ok in *; lia). done.
    - rewrite Hkl in Hrl by (unfold prio_ok in *; lia). done. }
  rewrite Hrl in Hk. injection Hk as <- <-.
  split_and!; [done|by eapply scheduled_event|apply Hs|by rewrite lookup_insert_eq|]. split.
  - intros t' d'. rewrite (sd_current _ _ _ _ _ _ _ _ _ Hs). intros [= <-] Hd' _ _.
    destruct (so_member _ _ _ _ Hok _ _ n Hl) as (dn & Hdn & _ & Hst); [left|].
    destruct (so_task _ _ _ _ Hok _ _ Hdn) as [(Hpn & _ & _) _].
    destruct Hst as [[_ Eh]|[_ Hnq]]; [|by destruct Hnq; exists c, p].
    apply queue_head_inj in Eh as [_ ->]; [|done..].
    pose proof (f_equal (lookup (task_of_run_link n)) (sd_static _ _ _ _ _ _ _ _ _ Hs)) as Ef.
    rewrite !lookup_fmap, Hdn, Hd' in Ef. cbn in Ef. apply Z.eq_le_incl.
    change (priority dn) with (priority (static dn)). change (priority d') with (priority (static d')). congruence.
  - intros q Hq. rewrite lookup_insert_ne; [by apply Hrlow|]. intros Eh%queue_head_inj; unfold prio_ok in *; lia.
Qed.

(** Each waiting task gets its turn in the order of the queue. *)
Lemma round_robin O W σ s c p l k n :
  system_ok O W σ s → c ∈ O → prio_ok p → σ !! queue_head c p = Some l → none_above σ s c p → l !! k = Some n →
  ∃ s', schedules (S k) c s = Ret s' ∧ current_ (rq s' c) = Some (task_of_run_link n).
Proof.
  intros Hsys Hc Hp Hl Hab Hk. revert σ s l Hsys Hl Hab Hk. induction k as [|k IH]; intros σ s l Hsys Hl Hab Hk.
  - destruct l as [|m l]; [done|]. injection Hk as ->.
    destruct (schedule_turn O W σ s c p n l Hsys Hc Hp Hl Hab) as (σ' & s' & l' & E & _ & Hcur & _).
    exists s'. cbn. rewrite E. done.
  - destruct l as [|m l]; [done|]. cbn in Hk.
    destruct (schedule_turn O W σ s c p m l Hsys Hc Hp Hl Hab) as (σ' & s' & l' & E & Hsys' & _ & Hl' & Hab').
    destruct (IH σ' s' (l ++ l') Hsys' Hl' Hab') as (s'' & E' & ?); [by apply lookup_app_l_Some|].
    exists s''. cbn [schedules]. rewrite E. done.
Qed.

(** ** Ticks *)

Fixpoint ticks (n : nat) (c : Z) (s : sched) : outcome sched :=
  match n with O => Ret s | S n' => s ← sched_tick c s; ticks n' c s end.

Lemma ticks_snoc n c s : ticks (S n) c s = (s ← ticks n c s; sched_tick c s).
Proof.
  revert s. induction n as [|n IH]; intros s; [cbn; by destruct (sched_tick c s)|].
  cbn [ticks] in *. destruct (sched_tick c s) as [s'| |]; cbn; [apply IH|done..].
Qed.

(** One tick of a task of the O(1) class. *)
Lemma tick_step O W σ s c t d :
  system_ok O W σ s → c ∈ O → current_ (rq s c) = Some t → tcbs s !! t = Some d → sched_class d = Some ClassO1 →
  ∃ s', sched_tick c s = Ret s' ∧ system_ok O W σ s' ∧ current_ (rq s' c) = Some t ∧
    if decide (time_slice d ≤ 1)
    then tcbs s' !! t = Some (tcb_slice (priority_to_timeslice (priority d)) d) ∧ need_resched_ (rq s' c) = true
    else tcbs s' !! t = Some (tcb_slice (time_slice d - 1) d) ∧ need_resched_ (rq s' c) = need_resched_ (rq s c).
Proof.
  intros Hsys Hc Ht Hd Hk. destruct (tick_event O W σ s c Hsys Hc) as (s' & E & Hs'). exists s'.
  assert (Hne : Some t ≠ idle_ (rq s c)).
  { intros Ei. destruct (so_idle _ _ _ _ (sy_ok _ _ _ _ Hsys) c t) as (d' & ? & _ & ? & _);
      [by eapply sy_online|done|congruence]. }
  set (s1 := set_slice t (time_slice d - 1) s).
  assert (Es : s' = if time_slice d - 1 <=? 0
    then set_need_resched c true (set_slice t (priority_to_timeslice (priority (tcb s1 t))) s1) else s1).
  { unfold sched_tick in E. rewrite Ht, (tcb_lookup _ _ _ Hd), Hk in E. cbn in E. injection E as <-.
    unfold o1_task_tick. rewrite decide_False by done. by rewrite (tcb_lookup _ _ _ Hd). }
  split_and!; [done..| |]; rewrite Es.
  - case_match; [|done]. by rewrite (proj1 (set_need_resched_fields c true _ c)).
  - pose proof (set_slice_lookup s t d (time_slice d - 1) Hd) as Hd1.
    destruct (Z.leb_spec (time_slice d - 1) 0); [rewrite decide_True by lia|rewrite decide_False by lia; done].
    fold s1 in Hd1. rewrite (tcb_lookup _ _ _ Hd1). split.
    + apply (set_slice_lookup _ t _ _ Hd1).
    + unfold set_need_resched. by rewrite rq_set_rq, decide_True.
Qed.

Lemma ticks_expire O W σ s c t d (k : nat) :
  system_ok O W σ s → c ∈ O → current_ (rq s c) = Some t → tcbs s !! t = Some d → sched_class d = Some ClassO1 →
  Z.of_nat k < Z.max 1 (time_slice d) →
  ∃ s', ticks k c s = Ret s' ∧ system_ok O W σ s' ∧ current_ (rq s' c) = Some t ∧
    tcbs s' !! t = Some (tcb_slice (time_slice d - Z.of_nat k) d) ∧ need_resched_ (rq s' c) = need_resched_ (rq s c).
Proof.
  intros Hsys Hc Ht Hd Hk. induction k as [|k IH]; intros Hlt.
  - exists s. rewrite Z.sub_0_r. split_and!; try done. by destruct d.
  - destruct IH as (s1 & E1 & H1 & Hc1 & Hd1 & Hr1); [lia|].
    destruct (tick_step O W σ s1 c t _ H1 Hc Hc1 Hd1 Hk) as (s2 & E2 & H2 & Hc2 & Hcase).
    rewrite decide_False in Hcase by (cbn; lia). destruct Hcase as [Hd2 Hr2].
    exists s2. rewrite ticks_snoc, E1. cbn [mbind outcome_bind]. split_and!; [done..| |by rewrite Hr2].
    rewrite Hd2. cbn. by replace (time_slice d - Z.of_nat k - 1) with (time_slice d - Z.of_nat (S k)) by lia.
Qed.
End system.

Lemma timeslice_range p : prio_ok p → 1 ≤ priority_to_timeslice p ≤ 20.
Proof.
  unfold prio_ok, kNumPriorities, priority_to_timeslice. intros Hp.
  rewrite Z.quot_div_nonneg by lia. pose proof (Z.div_pos (p * 19) 31). case_match; lia.
Qed.

Lemma timeslice_antitone p q : prio_ok p → prio_ok q → p ≤ q → priority_to_timeslice q ≤ priority_to_timeslice p.
Proof.
  unfold prio_ok, kNumPriorities, priority_to_timeslice. intros Hp Hq Hle. rewrite !Z.quot_div_nonneg by lia.
  pose proof (Z.div_le_mono (p * 19) (q * 19) 31). repeat case_match; lia.
Qed.
