(* ===== verification/SchedInit.v ===== *)
(** * SchedInit: the state [sched_init] builds

    [sched_init] makes every queue empty, creates the idle task and the task of
    the boot CPU, and thereby establishes the invariant of the scheduler. *)

From S2P Require Import Prelude Bits DList Spinlock Sched SchedInv SchedOps SchedSteps SchedSystem Pid Task.
From stdpp Require Import relations.
Open Scope Z_scope.

(** ** Empty lists *)

Lemma node_init_keeps n w h : dlist h w [] → dlist (node_init n h) w [].
Proof.
  intros Hw. destruct (node_init_ok n h) as [Hn Hu]. destruct (decide (w = n)) as [->|Hne]; [done|].
  eapply dlist_untouched; [exact Hu| |done]. intros x ->%list_elem_of_singleton. by rewrite list_elem_of_singleton.
Qed.

Lemma represents_empty h (X : gset Z) : (∀ w, w ∈ X → dlist h w []) → represents h (gset_to_gmap [] X).
Proof.
  intros Hw. split.
  - intros w l [? <-]%lookup_gset_to_gmap_Some. auto.
  - intros h1 l1 h2 l2 x [_ <-]%lookup_gset_to_gmap_Some [_ <-]%lookup_gset_to_gmap_Some
      ->%list_elem_of_singleton ->%list_elem_of_singleton. done.
Qed.

Section init.
Context (g_rq : Z).
Abbreviation queue_head := (queue_head g_rq).

Lemma init_queues_ok n c p h :
  (∀ q, p ≤ q < p + Z.of_nat n → dlist (init_queues g_rq n c p h) (queue_head c q) []) ∧
  (∀ w, dlist h w [] → dlist (init_queues g_rq n c p h) w []).
Proof.
  revert p h. induction n as [|n IH]; intros p h; cbn [init_queues]; [split; [intros; lia|done]|].
  destruct (IH (p + 1) (node_init (queue_head c p) h)) as [H1 H2]. split.
  - intros q Hq. destruct (decide (q = p)) as [->|]; [|apply H1; lia]. apply H2, node_init_ok.
  - intros w Hw. by apply H2, node_init_keeps.
Qed.

Definition blank_rq : RunQueue := mkRq 0 0 0 false None None.

Lemma init_rqs_ok n c s :
  let s' := init_rqs g_rq n c s in
  (∀ c', c ≤ c' < c + Z.of_nat n → rq s' c' = blank_rq ∧ ∀ p, prio_ok p → dlist (links s') (queue_head c' p) []) ∧
  (∀ c', ¬ c ≤ c' < c + Z.of_nat n → rq s' c' = rq s c') ∧
  (∀ w, dlist (links s) w [] → dlist (links s') w []) ∧ tcbs s' = tcbs s ∧ regs s' = regs s.
Proof.
  revert c s. induction n as [|n IH]; intros c s; cbn [init_rqs]; [split_and!; try done; intros; lia|].
  set (s1 := o1_init g_rq c (rq_init c s)). destruct (IH (c + 1) s1) as (H1 & H2 & H3 & H4 & H5).
  assert (Hrq : ∀ c', rq s1 c' = if decide (c = c') then blank_rq else rq s c').
  { intros c'. unfold s1, o1_init, rq_init. change (rq (with_links ?f ?x) c') with (rq x c').
    rewrite rq_set_rq. case_decide; [by rewrite rq_set_rq, decide_True|]. by rewrite rq_set_rq, decide_False. }
  assert (Hl : links s1 = init_queues g_rq 32 c 0 (links s)) by done.
  destruct (init_queues_ok 32 c 0 (links s)) as [Hq Hw]. rewrite <- Hl in Hq, Hw.
  split_and!; [..|done|done].
  - intros c' Hc'. destruct (decide (c' = c)) as [->|]; [|apply H1; lia].
    rewrite H2 by lia. rewrite Hrq, decide_True by done. split; [done|]. intros p Hp. apply H3, Hq.
    unfold prio_ok, kNumPriorities in Hp. lia.
  - intros c' Hc'. rewrite H2 by lia. rewrite Hrq, decide_False by lia. done.
  - intros w Hd. by apply H3, Hw.
Qed.

(** ** The first tasks *)

Definition heads : gset Z :=
  list_to_set (c ← seqZ 0 kMaxCpus; (λ p, queue_head c p) <$> seqZ 0 kNumPriorities).

Lemma elem_of_heads w : w ∈ heads ↔ is_queue g_rq w.
Proof.
  unfold heads, is_queue. rewrite elem_of_list_to_set, list_elem_of_bind. split.
  - intros (c & (p & -> & Hp%elem_of_seqZ)%list_elem_of_fmap & Hc%elem_of_seqZ). exists c, p.
    unfold cpu_ok, prio_ok. split_and!; lia || done.
  - intros (c & p & Hc & Hp & ->). exists c. split; [|apply elem_of_seqZ; unfold cpu_ok in Hc; lia].
    apply list_elem_of_fmap. exists p. split; [done|]. apply elem_of_seqZ. unfold prio_ok in Hp. lia.
Qed.

(** One CPU with its idle task [i] and its boot task [b], all queues empty. *)
Lemma first_tasks_ok (W : gset Z) s i b di db :
  (∀ w, w ∈ heads ∪ W → dlist (links s) w []) → (∀ w, w ∈ W → ¬ is_queue g_rq w) →
  tcbs s = <[b := db]> (<[i := di]> ∅) → i ≠ b →
  (∀ t, t = i ∨ t = b → run_link t ∉ heads ∪ W) →
  tcb_ok di → cpu_id di = 0 → sched_class di = Some ClassIdle → state di = Runnable →
  tcb_ok db → cpu_id db = 0 → sched_class db = Some ClassO1 → state db = Running →
  rq s 0 = mkRq 0 0 0 false (Some b) (Some i) → (∀ c, cpu_ok c → c ≠ 0 → rq s c = blank_rq) →
  system_ok g_rq {[0]} W (gset_to_gmap [] (heads ∪ W)) s.
Proof.
  intros Hd HW Ht Hib Hrl Hi1 Hi2 Hi3 Hi4 Hb1 Hb2 Hb3 Hb4 Hr0 Hrc.
  set (σ := gset_to_gmap [] (heads ∪ W)).
  assert (Hσ : ∀ w l, σ !! w = Some l → w ∈ heads ∪ W ∧ l = []) by (intros w l [? <-]%lookup_gset_to_gmap_Some; done).
  assert (Hσ' : ∀ w, w ∈ heads ∪ W → σ !! w = Some []) by (intros w ?; by apply lookup_gset_to_gmap_Some).
  assert (Hnone : ∀ t, t = i ∨ t = b → σ !! run_link t = None).
  { intros t Hti. destruct (σ !! run_link t) eqn:E; [|done]. apply Hσ in E as [E _]. by destruct (Hrl t Hti). }
  assert (Hcase : ∀ t d, tcbs s !! t = Some d → (t = i ∧ d = di) ∨ (t = b ∧ d = db)).
  { intros t d. rewrite Ht, !lookup_insert. repeat case_decide; subst; rewrite ?lookup_empty; naive_solver. }
  assert (Hlb : tcbs s !! b = Some db) by by rewrite Ht, lookup_insert_eq.
  assert (Hli : tcbs s !! i = Some di) by by rewrite Ht, lookup_insert_ne, lookup_insert_eq.
  assert (Hblank : ∀ c, cpu_ok c → c = 0 ∨ current_ (rq s c) = None ∧ idle_ (rq s c) = None ∧ Sched.bitmap_ (rq s c) = 0).
  { intros c Hc. destruct (decide (c = 0)); [by left|]. right. by rewrite Hrc. }
  split; [split|split| |].
  - by apply represents_empty.
  - intros t d [[-> ->]|[-> ->]]%Hcase; (split; [done|apply Hnone; auto]).
  - intros w l n [_ ->]%Hσ Hn. by apply elem_of_nil in Hn.
  - intros c p Hc Hp. exists []. split; [apply Hσ', elem_of_union_l, elem_of_heads; by exists c, p|].
    destruct (Hblank c Hc) as [->|(_ & _ & ->)]; [rewrite Hr0|]; cbn; by rewrite Z.bits_0.
  - intros c Hc. destruct (Hblank c Hc) as [->|(_ & _ & ->)]; [by rewrite Hr0|done].
  - intros c t Hc. destruct (Hblank c Hc) as [->|(-> & _)]; [|done]. rewrite Hr0. cbn. intros [= <-]. exists db.
    split_and!; [done..|]. by rewrite Hb3.
  - intros c t Hc. destruct (Hblank c Hc) as [->|(_ & -> & _)]; [|done]. rewrite Hr0. cbn. intros [= <-]. exists di.
    split_and!; [done..|]. rewrite Hi4. left.
  - intros t d _ [[-> ->]|[-> ->]]%Hcase; [by rewrite Hi4|]. intros _. by rewrite Hb2, Hr0.
  - intros t d _ [[-> ->]|[-> ->]]%Hcase; [by rewrite Hi3|]. intros _. unfold placed. rewrite Hb4.
    intros w l [Hw ->]%Hσ. rewrite list_elem_of_singleton. intros <-. apply (Hrl b); auto.
  - done.
  - intros w Hw. split; [auto|]. rewrite Hσ'; [eauto|set_solver +Hw].
  - intros w l [[Hw|Hw]%elem_of_union _]%Hσ; [left; by apply elem_of_heads|by right].
  - intros c ->%elem_of_singleton. rewrite Hr0. split; [done|eauto].
  - rewrite Ht, !map_size_insert, lookup_insert_ne, !lookup_empty by done. rewrite map_size_empty. done.
Qed.

Section boot.
Context {M : Type} `{TaskEnv M} (g_direct_map_base : Z).
Abbreviation alloc_task := (alloc_task g_direct_map_base).

Lemma alloc_task_some nm prio fl cpu (k : kernel M) t m1 pa m2 :
  new_tcb (mem k) = (Some t, m1) → stack_alloc m1 = (Some pa, m2) →
  alloc_task nm prio fl cpu k =
    (Some t, init_nodes t (set_task t (fresh_tcb g_direct_map_base nm prio fl (wrap 8 cpu) pa t)
      (with_mem (λ _, store_word (pa_to_va g_direct_map_base pa) kStackCanary m2) k))).
Proof. intros E1 E2. unfold Task.alloc_task. by rewrite E1, E2. Qed.

Lemma task_init_nodes t d (k : kernel M) : task (init_nodes t (set_task t d k)) t = d.
Proof. apply tcb_lookup. change (<[t := d]> (tcbs (sch k)) !! t = Some d). apply lookup_insert_eq. Qed.

(** The state after [init_cpu], when memory gives it two blocks and two stacks. *)
Lemma init_cpu_some trampoline idle_func cpu bn e1 e2 (k : kernel M) i m1 pa1 m2 b m3 pa2 m4 :
  new_tcb (mem k) = (Some i, m1) → stack_alloc m1 = (Some pa1, m2) →
  new_tcb (store_word (pa_to_va g_direct_map_base pa1) kStackCanary m2) = (Some b, m3) → stack_alloc m3 = (Some pa2, m4) →
  i ≠ b →
  ∃ k' di db, init_cpu g_direct_map_base trampoline idle_func cpu bn e1 e2 k = Ret k' ∧
    tcbs (sch k') = <[b := db]> (<[i := di]> (tcbs (sch k))) ∧
    (cpu_id di = wrap 8 cpu ∧ priority di = kIdlePriority ∧ sched_class di = Some ClassIdle ∧ state di = Runnable) ∧
    (cpu_id db = wrap 8 cpu ∧ priority db = 0 ∧ sched_class db = Some ClassO1 ∧ state db = Running) ∧
    (∀ c, rq (sch k') c = if decide (cpu = c)
      then let q := rq (sch k) c in
           mkRq (Sched.bitmap_ q) (o1_nr_running_ q) (nr_running_ q) (need_resched_ q) (Some b) (Some i)
      else rq (sch k) c) ∧
    (∀ w, dlist (links (sch k)) w [] ∨ w = wait_chld i ∨ w = wait_chld b → dlist (links (sch k')) w []).
Proof.
  intros E1 E2 E3 E4 Hib. unfold init_cpu, create_tcb. rewrite (alloc_task_some _ _ _ _ k i m1 pa1 m2 E1 E2), task_init_nodes.
  set (di := tcb_context _ _). match goal with |- context [Task.alloc_task _ _ _ _ _ ?x] => set (k1 := x) end.
  rewrite (alloc_task_some _ _ _ _ k1 b m3 pa2 m4 E3 E4), task_init_nodes.
  set (db := tcb_state _ _). match goal with |- context [Ret ?x] => set (k' := x) end.
  exists k', di, db. split; [done|]. split_and!; try done.
  - change (tcbs (sch k')) with (<[b := db]> (<[b := fresh_tcb g_direct_map_base bn 0 TF_KTHREAD (wrap 8 cpu) pa2 b]>
      (<[i := di]> (<[i := fresh_tcb g_direct_map_base ("idle/" +:+ pretty.pretty cpu) kIdlePriority (Z.lor TF_KTHREAD TF_IDLE) (wrap 8 cpu) pa1 i]> (tcbs (sch k)))))).
    by rewrite !insert_insert_eq.
  - intros c. change (rq (sch k') c) with (rq (set_current cpu b (set_idle cpu i (sch k))) c).
    unfold set_current, set_idle. rewrite !rq_set_rq. repeat case_decide; by subst.
  - intros w Hw. change (links (sch k')) with (node_init (wait_chld b) (node_init (run_link b)
      (node_init (wait_chld i) (node_init (run_link i) (links (sch k)))))).
    destruct Hw as [?|[->| ->]]; [by repeat apply node_init_keeps| |apply node_init_ok].
    do 2 apply node_init_keeps. apply node_init_ok.
Qed.

(** [sched_init] on a store without tasks. *)
Lemma sched_init_ok trampoline idle_func (k : kernel M) i m1 pa1 m2 b m3 pa2 m4 :
  let W : gset Z := {[wait_chld i; wait_chld b]} in
  tcbs (sch k) = ∅ → new_tcb (mem k) = (Some i, m1) → stack_alloc m1 = (Some pa1, m2) →
  new_tcb (store_word (pa_to_va g_direct_map_base pa1) kStackCanary m2) = (Some b, m3) → stack_alloc m3 = (Some pa2, m4) →
  i ≠ b → (∀ t, t = i ∨ t = b → (run_link t ∉ heads ∪ W) ∧ ¬ is_queue g_rq (wait_chld t)) →
  ∃ k', sched_init g_rq g_direct_map_base trampoline idle_func k = Ret k' ∧
    system_ok g_rq {[0]} W (gset_to_gmap [] (heads ∪ W)) (sch k').
Proof.
  intros W Ht E1 E2 E3 E4 Hib Hsep. unfold sched_init.
  destruct (init_rqs_ok (Z.to_nat kMaxCpus) 0 (sch k)) as (Hr & _ & _ & Ht0 & _).
  set (k0 := with_sch _ k). change (init_rqs g_rq (Z.to_nat kMaxCpus) 0 (sch k)) with (sch k0) in Hr, Ht0.
  edestruct (init_cpu_some trampoline idle_func 0) with (k := k0) as (k' & di & db & E & Ht' & Hi & Hb & Hrq & Hl); [exact E1|exact E2|exact E3|exact E4|exact Hib|].
  exists k'. split; [exact E|]. destruct Hi as (Hi1 & Hi2 & Hi3 & Hi4), Hb as (Hb1 & Hb2 & Hb3 & Hb4).
  apply (first_tasks_ok W (sch k') i b di db); try done.
  - intros w [(c & p & Hc & Hp & ->)%elem_of_heads|Hw]%elem_of_union; apply Hl; [left; by apply Hr|].
    right. unfold W in Hw. set_solver +Hw.
  - intros w Hw. unfold W in Hw. apply elem_of_union in Hw as [->%elem_of_singleton| ->%elem_of_singleton]; apply Hsep; auto.
  - by rewrite Ht', Ht0, Ht.
  - intros t Hti. by apply Hsep.
  - split_and!; [by rewrite Hi2|by rewrite Hi1|by rewrite Hi3].
  - split_and!; [by rewrite Hb2|by rewrite Hb1|by rewrite Hb3].
  - rewrite Hrq, decide_True by done. by rewrite (proj1 (Hr 0 ltac:(done))).
  - intros c Hc Hne. rewrite Hrq, decide_False by done. by apply Hr.
Qed.
End boot.
End init.
