(* ===== verification/Scheduler.v ===== *)
(** * Scheduler: the properties of the scheduler

    The theorems about run queues, scheduling decisions, time slices, wait queues
    and context switches, and a small booted machine on which they are applied. *)

From S2P Require Import Prelude Bits DList Spinlock Sched SchedInv SchedOps SchedSteps SchedSystem Pid Task SchedInit.
From stdpp Require Import relations.
Open Scope Z_scope.

(** ** Properties *)

Section properties.
Context (g_rq : Z).

(** C15: In every state reachable by any interleaving of ticks, preemptions,
    yields, sleeps, wake-ups, exits and task creations on all CPUs, the links
    form disjoint lists and every task is on exactly the list its state names:
    a runnable one on the queue of its CPU and priority, a sleeping one on one
    wait queue, a running or exited one on none; a running task is the current
    one of its CPU; and no event that may happen faults or fails to return. *)
Theorem tasks_in_place O W σ0 s0 s (H0 : system_ok g_rq O W σ0 s0) (Hr : rtc (sched_step g_rq O W) s0 s) :
  ∃ σ, represents (links s) σ ∧
    (∀ t d, tcbs s !! t = Some d → sched_class d = Some ClassO1 →
      placed g_rq σ t d ∧
      (∀ w l, σ !! w = Some l → run_link t ∈ l →
        (state d = Runnable ∧ w = queue_head g_rq (cpu_id d) (priority d)) ∨ (state d = Sleeping ∧ w ∈ W)) ∧
      (state d = Running → current_ (rq s (cpu_id d)) = Some t)) ∧
    (∀ e, allowed g_rq O W e s → ∃ s', perform g_rq e s = Ret s').
Proof.
  destruct (steps_ok g_rq O W σ0 s0 s H0 Hr) as (σ & Hsys). pose proof (sy_ok _ _ _ _ _ Hsys) as Hok.
  exists σ. split_and!; [apply Hok| |].
  - intros t d Ht Hk. split_and!; [by apply (so_placed _ _ _ _ Hok)| |by apply (so_running _ _ _ _ Hok)].
    intros w l Hw Hin. destruct (so_member _ _ _ _ Hok w l _ Hw Hin) as (d' & E & _ & Hs). rewrite task_run_link in E.
    rewrite Ht in E. injection E as <-. destruct Hs as [?|[? Hq]]; [by left|]. right. split; [done|].
    by destruct (proj2 (sy_lists _ _ _ _ _ Hsys) w l Hw).
  - intros e Ha. destruct (event_ok g_rq O W σ s e Hsys Ha) as (σ' & s' & E & _). eauto.
Qed.

(** C16: [schedule] always returns with a task to run: it puts the outgoing task
    at the tail of its queue if it is still running, takes the oldest task of the
    most urgent non-empty queue, or the idle task when all queues are empty,
    makes it current and running, clears the reschedule request, saves the
    registers of the outgoing task and loads those of the incoming one, and
    changes no other CPU's run queue and no other field of any task. *)
Theorem schedule_runs_most_urgent σ s c p i (Hok : sched_ok g_rq None σ s) (Hc : cpu_ok c)
    (Hp : current_ (rq s c) = Some p) (Hi : idle_ (rq s c) = Some i) :
  ∃ n σ' s', schedule g_rq c s = Ret s' ∧ picks g_rq (requeue g_rq σ s c) c i n σ' ∧
    sched_ok g_rq None σ' s' ∧ current_ (rq s' c) = Some n ∧ state (tcb s' n) = Running ∧
    need_resched_ (rq s' c) = false ∧ (∀ c', c' ≠ c → rq s' c' = rq s c') ∧
    static <$> tcbs s' = static <$> tcbs s ∧
    (n ≠ p → regs s' = <[c := saved s n]> (regs s) ∧ saved s' p = regs s !!! c) ∧
    (n = p → regs s' = regs s ∧ saved s' p = saved s p).
Proof.
  destruct (schedule_ok g_rq σ s c p i Hok Hc Hp Hi) as (n & σ' & s' & E & Hs). exists n, σ', s'.
  destruct (so_current _ _ _ _ Hok c p Hc Hp) as (d & Hd & _). apply elem_of_dom_2 in Hd.
  pose proof (sd_context _ _ _ _ _ _ _ _ _ Hs p Hd) as Hctx. pose proof (sd_regs _ _ _ _ _ _ _ _ _ Hs) as Hregs.
  split_and!; try apply Hs; [done|..]; intros Hn; unfold saved; rewrite Hctx, Hregs.
  - rewrite decide_False, decide_True by done. done.
  - by rewrite decide_True, decide_False by naive_solver.
Qed.

(** C17: Round robin: when no more urgent task is runnable or running on a CPU,
    the task at position [k] of the queue runs after [k + 1] scheduling decisions. *)
Theorem round_robin_turns O W σ s c p l k n (Hsys : system_ok g_rq O W σ s) (Hc : c ∈ O) (Hp : prio_ok p)
    (Hl : σ !! queue_head g_rq c p = Some l) (Habove : none_above g_rq σ s c p) (Hk : l !! k = Some n) :
  ∃ s', schedules g_rq (S k) c s = Ret s' ∧ current_ (rq s' c) = Some (task_of_run_link n).
Proof. by eapply round_robin. Qed.

(** C24: A task of the O(1) class is asked to leave the CPU exactly when its time
    slice is used up: earlier ticks only count, the last one requests a
    reschedule and starts a new slice, which is between 1 and 20 ticks and not
    longer for a less urgent task. *)
Theorem time_slice_expires O W σ s c t d (Hsys : system_ok g_rq O W σ s) (Hc : c ∈ O)
    (Ht : current_ (rq s c) = Some t) (Hd : tcbs s !! t = Some d) (Hk : sched_class d = Some ClassO1) :
  (∀ k : nat, Z.of_nat k < Z.max 1 (time_slice d) →
    ∃ s', ticks k c s = Ret s' ∧ time_slice (tcb s' t) = time_slice d - Z.of_nat k ∧
      need_resched_ (rq s' c) = need_resched_ (rq s c)) ∧
  (∃ s', ticks (Z.to_nat (Z.max 1 (time_slice d))) c s = Ret s' ∧
    need_resched_ (rq s' c) = true ∧ time_slice (tcb s' t) = priority_to_timeslice (priority d)) ∧
  1 ≤ priority_to_timeslice (priority d) ≤ 20 ∧
  (∀ q, prio_ok q → priority d ≤ q → priority_to_timeslice q ≤ priority_to_timeslice (priority d)).
Proof.
  destruct (so_task _ _ _ _ (sy_ok _ _ _ _ _ Hsys) t d Hd) as [(Hprio & _) _].
  split_and!; [..|by apply timeslice_range|by apply timeslice_range|intros; by apply timeslice_antitone].
  - intros k Hlt. destruct (ticks_expire g_rq O W σ s c t d k) as (s' & E & _ & _ & Hd' & Hr); [done..|].
    exists s'. by rewrite (tcb_lookup _ _ _ Hd').
  - set (n := Z.to_nat (Z.max 1 (time_slice d) - 1)).
    destruct (ticks_expire g_rq O W σ s c t d n) as (s1 & E1 & H1 & Hc1 & Hd1 & _); [done..|lia|].
    destruct (tick_step g_rq O W σ s1 c t _ H1 Hc Hc1 Hd1 Hk) as (s2 & E2 & _ & _ & Hcase).
    rewrite decide_True in Hcase by (cbn; lia). destruct Hcase as [Hd2 Hr2]. exists s2.
    replace (Z.to_nat (Z.max 1 (time_slice d))) with (S n) by lia. rewrite ticks_snoc, E1. cbn [mbind outcome_bind].
    by rewrite (tcb_lookup _ _ _ Hd2).
Qed.

(** C22: [WaitQueue::wake_all] terminates, returns the number of waiters, empties
    the wait queue and moves every waiter, oldest first, to the tail of the queue
    of its CPU and priority; [wake_one] does this for the oldest and reports
    [false] exactly when there is none. *)
Theorem wake_ups_complete O W σ s w l (Hsys : system_ok g_rq O W σ s) (Hw : w ∈ W) (Hl : σ !! w = Some l) :
  (∃ s', wake_all g_rq w s = Ret (Z.of_nat (length l), s') ∧
    sched_ok g_rq None (foldl (enqueue_node g_rq s) (<[w := []]> σ) l) s' ∧
    (∀ c, current_ (rq s' c) = current_ (rq s c))) ∧
  match l with
  | [] => wake_one g_rq w s = (false, s)
  | n :: l' => ∃ s', wake_one g_rq w s = (true, s') ∧ sched_ok g_rq None (enqueue_node g_rq s (<[w := l']> σ) n) s'
  end.
Proof.
  pose proof (sy_ok _ _ _ _ _ Hsys) as Hok. destruct (proj1 (sy_lists _ _ _ _ _ Hsys) w Hw) as [Hq _]. split.
  - destruct (wake_all_ok g_rq σ s w l Hok Hl Hq) as (s' & E & H1 & H2 & _); [|eauto].
    pose proof (list_short g_rq σ s w l Hok Hl). pose proof (sy_size _ _ _ _ _ Hsys). lia.
  - pose proof (wake_one_ok g_rq σ s w l Hok Hl Hq) as H1. destruct l; [done|]. destruct H1. eauto.
Qed.

(** C25: While no CPU runs a task, no event of any CPU changes the registers saved
    for it; so the switch that resumes it restores exactly what the switch that
    suspended it saved. *)
Theorem suspended_registers_kept O W σ s s' t (Hsys : system_ok g_rq O W σ s)
    (Hr : rtc (λ x y, sched_step g_rq O W x y ∧ waits O t x) s s') :
  saved s' t = saved s t.
Proof.
  revert σ Hsys. induction Hr as [|s s1 s2 [(e & Ha & E) Hwt] _ IH]; intros σ Hsys; [done|].
  destruct (event_ok g_rq O W σ s e Hsys Ha) as (σ1 & s1' & E1 & Hsys1). rewrite E in E1. injection E1 as <-.
  rewrite (IH σ1 Hsys1). by eapply event_saved.
Qed.

(** C27: [sched_init], given memory for two control blocks and two stacks, returns
    with every queue empty, an idle task and a running boot task on CPU 0, in a
    state that satisfies the invariant all other properties start from. *)
Theorem sched_init_establishes {M : Type} `{TaskEnv M} dmap trampoline idle_func (k : kernel M) i m1 pa1 m2 b m3 pa2 m4
    (Ht : tcbs (sch k) = ∅) (E1 : new_tcb (mem k) = (Some i, m1)) (E2 : stack_alloc m1 = (Some pa1, m2))
    (E3 : new_tcb (store_word (pa_to_va dmap pa1) kStackCanary m2) = (Some b, m3))
    (E4 : stack_alloc m3 = (Some pa2, m4)) (Hib : i ≠ b)
    (Hsep : ∀ t, t = i ∨ t = b →
      (run_link t ∉ heads g_rq ∪ {[wait_chld i; wait_chld b]}) ∧ ¬ is_queue g_rq (wait_chld t)) :
  ∃ k', sched_init g_rq dmap trampoline idle_func k = Ret k' ∧
    system_ok g_rq {[0]} {[wait_chld i; wait_chld b]}
      (gset_to_gmap [] (heads g_rq ∪ {[wait_chld i; wait_chld b]})) (sch k').
Proof. by eapply sched_init_ok. Qed.
End properties.

(** ** A booted machine *)

(** An arena that hands out consecutive addresses. *)
Record arena := mkArena { next_free : Z; words : gmap Z Z }.

#[export] Instance arena_env : TaskEnv arena := {|
  new_tcb m := (Some (next_free m), mkArena (next_free m + 512) (words m));
  delete_tcb _ m := m;
  stack_alloc m := (Some (next_free m), mkArena (next_free m + 8192) (words m));
  stack_free _ m := m;
  mm_destroy _ m := m;
  mm_clone _ m := (None, m);
  store_word a v m := mkArena (next_free m) (<[a := v]> (words m));
  load_word a m := default 0 (words m !! a);
  put_user _ _ m := (0, m)
|}.

Definition rq_base : Z := 0x80200000.
Definition blank : kernel arena :=
  mkKernel (mkSched ∅ ∅ ∅ ∅) ∅ ∅ (mkArena 0x80400000 ∅) pid_init ∅ false 0 None None.

Definition idle0 : Z := 0x80400000.
Definition boot0 : Z := 0x80402200.
Definition booted : sched :=
  match sched_init rq_base 0 0x1000 0x2000 blank with Ret k => sch k | _ => sch blank end.
Definition waits0 : gset Z := {[wait_chld idle0; wait_chld boot0]}.
Definition lists0 : lists := gset_to_gmap [] (heads rq_base ∪ waits0).

Lemma above_queues w : 0x80400000 ≤ w → ¬ is_queue rq_base w.
Proof.
  intros Hw (c & p & Hc & Hp & ->). unfold cpu_ok, kMaxCpus, prio_ok, kNumPriorities, queue_head, rq_base in *. lia.
Qed.

Lemma booted_sep t : t = idle0 ∨ t = boot0 →
  (run_link t ∉ heads rq_base ∪ waits0) ∧ ¬ is_queue rq_base (wait_chld t).
Proof.
  unfold waits0, wait_chld, run_link, idle0, boot0. rewrite elem_of_union, elem_of_heads, elem_of_union, !elem_of_singleton.
  intros [->| ->]; (split; [intros [H|[H|H]]; [by apply above_queues in H|lia|lia]|by apply above_queues]).
Qed.

Lemma sched_init_establishes_witness :
  ∃ k', sched_init rq_base 0 0x1000 0x2000 blank = Ret k' ∧ system_ok rq_base {[0]} waits0 lists0 (sch k').
Proof.
  eapply (sched_init_establishes rq_base 0 0x1000 0x2000 blank idle0 _ _ _ boot0);
    [done|reflexivity|reflexivity|reflexivity|reflexivity|done|apply booted_sep].
Defined.

Lemma booted_ok : system_ok rq_base {[0]} waits0 lists0 booted.
Proof.
  assert (Hi : ∃ k', sched_init rq_base 0 0x1000 0x2000 blank = Ret k' ∧ system_ok rq_base {[0]} waits0 lists0 (sch k')).
  { eapply (sched_init_ok rq_base 0 0x1000 0x2000 blank idle0 _ _ _ boot0);
      [done|reflexivity|reflexivity|reflexivity|reflexivity|done|apply booted_sep]. }
  unfold booted. destruct Hi as (k' & -> & Hk). done.
Qed.

(** Two tasks of priority 0, created on CPU 0. *)
Definition task_a : Z := 0x80500000.
Definition task_b : Z := 0x80500200.
Definition block (t : Z) : TaskControlBlock := fresh_tcb 0 "task" 0 TF_KTHREAD 0 0x80600000 t.
Definition spawn (t : Z) (s : sched) : sched := sched_enqueue rq_base t (set_tcb t (block t) s).
Definition crowded : sched := spawn task_b (spawn task_a booted).

Definition spawned (t : Z) (σ : lists) (s : sched) : lists :=
  enqueue_node rq_base (set_tcb t (block t) s) σ (run_link t).

Lemma spawn_allowed t s :
  0x80500000 ≤ t → tcbs s !! t = None → Z.of_nat (size (tcbs s)) < 2 ^ 32 →
  allowed rq_base {[0]} waits0 (Spawn t (block t)) s.
Proof.
  intros Ht Hn Hs. split_and!; try done; [apply above_queues; unfold run_link; lia|].
  unfold waits0, wait_chld, run_link, idle0, boot0. rewrite elem_of_union, !elem_of_singleton. lia.
Qed.

Lemma spawn_step t s :
  0x80500000 ≤ t → tcbs s !! t = None → Z.of_nat (size (tcbs s)) < 2 ^ 32 →
  sched_step rq_base {[0]} waits0 s (spawn t s).
Proof. intros Ht Hn Hs. exists (Spawn t (block t)). split; [by apply spawn_allowed|done]. Qed.

Lemma spawned_queue t σ s l :
  σ !! queue_head rq_base 0 0 = Some l → spawned t σ s !! queue_head rq_base 0 0 = Some (l ++ [run_link t]).
Proof.
  intros Hl. unfold spawned, enqueue_node, home. rewrite task_run_link, tcb_set_total, decide_True by done.
  change ((cpu_id (block t), priority (block t)).1) with 0. change ((cpu_id (block t), priority (block t)).2) with 0.
  by rewrite Hl, lookup_insert_eq.
Qed.

Lemma booted_tasks : tcbs booted !! task_a = None ∧ tcbs (spawn task_a booted) !! task_b = None ∧
  Z.of_nat (size (tcbs booted)) < 2 ^ 32 ∧ Z.of_nat (size (tcbs (spawn task_a booted))) < 2 ^ 32.
Proof. split_and!; by vm_compute. Qed.

Definition lists2 : lists := spawned task_b (spawned task_a lists0 booted) (spawn task_a booted).

Lemma crowded_ok : system_ok rq_base {[0]} waits0 lists2 crowded.
Proof.
  destruct booted_tasks as (Ha & Hb & Hsa & Hsb).
  apply spawn_event; [apply spawn_event; [apply booted_ok|by apply spawn_allowed]|by apply spawn_allowed].
Qed.

Lemma lists2_queue : lists2 !! queue_head rq_base 0 0 = Some [run_link task_a; run_link task_b].
Proof.
  apply (spawned_queue task_b _ _ [run_link task_a]), (spawned_queue task_a _ _ []).
  apply lookup_gset_to_gmap_Some. split; [|done]. apply elem_of_union_l, elem_of_heads. by exists 0, 0.
Qed.

Lemma crowded_reach : rtc (sched_step rq_base {[0]} waits0) booted crowded.
Proof.
  destruct booted_tasks as (Ha & Hb & Hsa & Hsb). unfold crowded.
  pose proof (spawn_step task_a booted ltac:(done) Ha Hsa) as H1.
  pose proof (spawn_step task_b _ ltac:(done) Hb Hsb) as H2.
  revert H1 H2. generalize (spawn task_a booted). intros s. generalize (spawn task_b s). intros s' H1 H2.
  eapply rtc_l; [exact H1|]. by apply rtc_once.
Qed.

Lemma crowded_block :
  tcbs crowded !! task_b = Some (tcb crowded task_b) ∧ sched_class (tcb crowded task_b) = Some ClassO1.
Proof. split; by vm_compute. Qed.

Lemma tasks_in_place_witness :
  ∃ σ, represents (links crowded) σ ∧ placed rq_base σ task_b (tcb crowded task_b).
Proof.
  destruct (tasks_in_place rq_base {[0]} waits0 lists0 booted crowded booted_ok crowded_reach) as (σ & Hrep & Hpl & _).
  exists σ. split; [exact Hrep|]. destruct crowded_block as [H1 H2]. exact (proj1 (Hpl task_b _ H1 H2)).
Defined.

Lemma schedule_runs_most_urgent_witness :
  ∃ n s', schedule rq_base 0 crowded = Ret s' ∧ current_ (rq s' 0) = Some n ∧ state (tcb s' n) = Running.
Proof.
  destruct (schedule_runs_most_urgent rq_base lists2 crowded 0 boot0 idle0) as (n & σ' & s' & E & _ & _ & H1 & H2 & _);
    [apply crowded_ok|done|by vm_compute|by vm_compute|eauto].
Defined.

(** After two decisions the second of the two created tasks runs. *)
Lemma round_robin_turns_witness :
  ∃ s', schedules rq_base 2 0 crowded = Ret s' ∧ current_ (rq s' 0) = Some (task_of_run_link (run_link task_b)).
Proof.
  apply (round_robin_turns rq_base {[0]} waits0 lists2 crowded 0 0 [run_link task_a; run_link task_b] 1);
    [apply crowded_ok|set_solver|done|apply lists2_queue| |done].
  split; [|intros; lia]. intros t d _ Ht _ _.
  by destruct (so_task _ _ _ _ (sy_ok _ _ _ _ _ crowded_ok) t d Ht) as [([? _] & _) _].
Defined.

Lemma time_slice_expires_witness : ∃ s', ticks 20 0 booted = Ret s' ∧ need_resched_ (rq s' 0) = true.
Proof.
  destruct (time_slice_expires rq_base {[0]} waits0 lists0 booted 0 boot0 (tcb booted boot0) booted_ok) as (_ & (s' & E & Hr & _) & _);
    [set_solver|by vm_compute|by vm_compute|by vm_compute|]. exists s'. split; [exact E|done].
Defined.

(** The boot task sleeps and is woken. *)
Definition asleep : sched := sleep_link (wait_chld idle0) boot0 crowded.

Lemma waits0_idle : wait_chld idle0 ∈ waits0.
Proof. apply elem_of_union_l, elem_of_singleton. done. Qed.

Lemma spawned_wait t σ s w : ¬ is_queue rq_base w → spawned t σ s !! w = σ !! w.
Proof.
  intros Hw. unfold spawned, enqueue_node, home. rewrite task_run_link, tcb_set_total, decide_True by done.
  change ((cpu_id (block t), priority (block t)).1) with 0. change ((cpu_id (block t), priority (block t)).2) with 0.
  rewrite lookup_insert_ne; [done|]. intros <-. apply Hw. by exists 0, 0.
Qed.

Lemma lists2_wait : lists2 !! wait_chld idle0 = Some [].
Proof.
  assert (Hq : ¬ is_queue rq_base (wait_chld idle0)) by by apply above_queues.
  unfold lists2. rewrite !spawned_wait by done. apply lookup_gset_to_gmap_Some.
  split; [|done]. apply elem_of_union_r, waits0_idle.
Qed.

Lemma crowded_boot :
  current_ (rq crowded 0) = Some boot0 ∧ tcbs crowded !! boot0 = Some (tcb crowded boot0) ∧
  state (tcb crowded boot0) = Running ∧ sched_class (tcb crowded boot0) = Some ClassO1.
Proof. split_and!; by vm_compute. Qed.

Lemma asleep_ok : system_ok rq_base {[0]} waits0 (<[wait_chld idle0 := [] ++ [run_link boot0]]> lists2) asleep.
Proof.
  destruct crowded_boot as (H1 & H2 & H3 & H4).
  exact (sleep_event rq_base {[0]} waits0 lists2 crowded 0 _ boot0 _ [] crowded_ok waits0_idle lists2_wait H1 H2 H3 H4).
Qed.

Lemma wake_ups_complete_witness : ∃ s', wake_all rq_base (wait_chld idle0) asleep = Ret (1, s').
Proof.
  destruct (wake_ups_complete rq_base {[0]} waits0 _ asleep (wait_chld idle0) [run_link boot0] asleep_ok waits0_idle
    (lookup_insert_eq _ _ _)) as ((s' & E & _) & _).
  exists s'. exact E.
Defined.

(** The second created task keeps its registers while the CPU switches to the first. *)
Lemma crowded_waits : waits {[0]} task_b crowded.
Proof.
  destruct crowded_boot as (H1 & _). destruct crowded_block as [H2 _]. split; [by apply elem_of_dom|].
  intros c ->%elem_of_singleton. by rewrite H1.
Qed.

Lemma suspended_registers_kept_witness :
  ∃ s', perform rq_base (Schedule 0) crowded = Ret s' ∧ saved s' task_b = saved crowded task_b.
Proof.
  destruct (event_ok rq_base {[0]} waits0 lists2 crowded (Schedule 0) crowded_ok) as (σ' & s' & E & _);
    [by apply elem_of_singleton|].
  exists s'. split; [exact E|].
  apply (suspended_registers_kept rq_base {[0]} waits0 lists2 crowded s' task_b crowded_ok).
  apply rtc_once. split; [|exact crowded_waits]. exists (Schedule 0). split; [by apply elem_of_singleton|exact E].
Defined.
