(* ===== verification/Process.v ===== *)
(** * Process: properties of waiting, exiting and forking

    What [task_wait] does on every branch, and how an exit code reaches the
    parent through [wait4]. *)

From S2P Require Import Prelude Bits DList Spinlock Sched SchedInv Pid Task Scheduler.

(** ** The search for a zombie *)

Section search.
Context {M : Type} (curr : Z) (k : kernel M).

(** [l] is what is left of the list of children at [node]. *)
Definition left_at (node : Z) (l : list Z) : Prop :=
  ∃ done, dlist (kin k) (children curr) (done ++ l) ∧ node = first_of (children curr) l.

Definition is_zombie (n : Z) : Prop := state (task k (task_of_sibling n)) = Zombie.

#[export] Instance is_zombie_dec n : Decision (is_zombie n).
Proof. unfold is_zombie. apply _. Defined.

Lemma left_step n l : left_at n (n :: l) → left_at (next_of (kin k) n) l ∧ n ≠ children curr.
Proof.
  intros (done & Hd & _). split.
  - exists (done ++ [n]). rewrite <- app_assoc. split; [done|].
    replace (done ++ n :: l) with ((done ++ [n]) ++ l) in Hd by (by rewrite <- app_assoc).
    apply dlist_cut in Hd as (_ & _ & Hn & _). unfold last_of in Hn. rewrite last_snoc in Hn. exact Hn.
  - destruct Hd as [[Hn _]%NoDup_cons _]. intros ->. apply Hn. in_list.
Qed.

(** The first zombie among the children, in the order of the list. *)
Lemma find_zombie_ok l :
  dlist (kin k) (children curr) l → Z.of_nat (length l) < 2 ^ 64 →
  find_zombie curr k = Ret (task_of_sibling <$> (snd <$> list_find is_zombie l)).
Proof.
  intros Hd Hlen. unfold find_zombie.
  destruct (loop_list (zombie_step curr k)
    (λ rest node, left_at node rest ∧ node = first_of (children curr) rest ∧ ∃ live, l = live ++ rest ∧ Forall (λ n, ¬ is_zombie n) live)
    (λ r, r = task_of_sibling <$> (snd <$> list_find is_zombie l)))
    with (k := 64%nat) (l := l) (s := next_of (kin k) (children curr)) as (r & -> & ->); [..|done].
  - intros node (_ & -> & live & El & Hlive). exists None. unfold zombie_step. cbn. rewrite Z.eqb_refl. split; [done|].
    rewrite app_nil_r in El. subst live. symmetry.
    by rewrite (proj2 (list_find_None is_zombie l) Hlive).
  - intros n rest node (Hl & -> & live & El & Hlive). unfold zombie_step. change (first_of _ (n :: rest)) with n in *.
    destruct (left_step n rest Hl) as [Hl' Hne]. destruct (Z.eqb_spec n (children curr)) as [|_]; [done|].
    case_decide as Hz.
    + symmetry. assert (list_find is_zombie l = Some (length live, n)) as ->; [|done].
      apply list_find_Some. rewrite El. split_and!; [by rewrite list_lookup_middle|done|].
      intros j y Hj Hlt. rewrite lookup_app_l in Hj by done. by apply (Forall_lookup_1 _ _ _ _ Hlive Hj).
    + split_and!; [done| |].
      * by destruct Hl' as (? & ? & ->).
      * exists (live ++ [n]). rewrite <- app_assoc. split; [done|]. apply Forall_app. split; [done|]. by apply Forall_singleton.
  - split_and!; [| |by exists []].
    + exists []. split; [done|]. by apply dlist_first.
    + by apply dlist_first.
  - done.
Qed.
End search.

(** ** Properties *)

Section wait.
Context {M : Type} `{TaskEnv M} (g_rq : Z).

(** C21: Waiting for a child, on every branch: without children the call fails
    with -ECHILD and changes nothing; with an exited child it returns the pid and
    the exit code of the first one and reclaims it; with only live children it
    releases the task-list lock a second time when it goes to sleep, and the
    kernel panics. *)
Theorem task_wait_outcomes cpu (k : kernel M) curr l
    (Hcur : current_ (rq (sch k) cpu) = Some curr) (Hlock : task_list_lock k = false)
    (Hl : dlist (kin k) (children curr) l) (Hlen : Z.of_nat (length l) < 2 ^ 64) :
  match l, list_find (is_zombie k) l with
  | [], _ => task_wait g_rq cpu k = Ret (Returned (- ECHILD) None, k)
  | _, Some (_, n) =>
      let t := task_of_sibling n in
      task_wait g_rq cpu k = Ret (Returned (pid (task k t)) (Some (exit_code (task k t))), task_destroy t k)
  | _, None => task_wait g_rq cpu k = Panic "spinlock: invalid release"
  end.
Proof.
  assert (Hk : set_lock false (set_lock true k) = k) by (destruct k; cbn in *; by subst).
  assert (Hz : find_zombie curr (set_lock true k) = Ret (task_of_sibling <$> (snd <$> list_find (is_zombie k) l)))
    by by apply (find_zombie_ok curr (set_lock true k) l).
  unfold task_wait, task_lock, task_unlock. rewrite Hcur, Hlock. cbn [mbind outcome_bind task_list_lock set_lock].
  change (kin (set_lock true k)) with (kin k).
  destruct l as [|n l].
  - rewrite (splice_nil _ _ Hl). change (Ret (Returned (- ECHILD) None, set_lock false (set_lock true k)) = Ret (Returned (- ECHILD) None, k)).
    by rewrite Hk.
  - assert (is_empty (children curr) (kin k) = false) as ->.
    { destruct (is_empty (children curr) (kin k)) eqn:E; [|done]. by apply (is_empty_spec _ _ _ Hl) in E. }
    rewrite Hz. cbn [mbind outcome_bind]. destruct (list_find (is_zombie k) (n :: l)) as [[j m]|]; [|done].
    change (task_of_sibling <$> (snd <$> Some (j, m))) with (Some (task_of_sibling m)). cbn iota.
    by rewrite Hk.
Qed.
End wait.

(** The status word of [wait4] is decoded by the macros of [wait.h] to what the
    child reported: a child that called [exit(code)] is seen as exited with the low
    byte of [code], a child killed by signal [sig] (1 to 126) as killed by [sig]. *)
Theorem wait_status_decodes :
  (∀ code, let s := wait_status (Z.land code 0xFF) in
    WIFEXITED s = true ∧ WEXITSTATUS s = Z.land code 0xFF ∧ WIFSIGNALED s = false) ∧
  (∀ sig, let s := wait_status (Z.lor (Z.land sig 0x7F) kExitCodeSignalFlag) in
    0 < Z.land sig 0x7F < 0x7F → WIFSIGNALED s = true ∧ WTERMSIG s = Z.land sig 0x7F ∧ WIFEXITED s = false).
Proof.
  assert (Hfin : ∀ (n : nat) (P : Z → bool), forallb P (seqZ 0 (Z.of_nat n)) = true → ∀ z, 0 ≤ z < Z.of_nat n → P z = true).
  { intros n P Hall z Hz. rewrite forallb_forall in Hall. apply Hall, list_elem_of_In, elem_of_seqZ. lia. }
  assert (Hr : ∀ x n, 0 ≤ n → 0 ≤ Z.land x (Z.ones n) < 2 ^ n).
  { intros x n Hn. rewrite Z.land_ones by done. apply Z.mod_pos_bound. lia. }
  split.
  - intros code s. pose proof (Hr code 8 ltac:(done)) as Hc. change (Z.ones 8) with 0xFF in Hc.
    pose proof (Hfin 256%nat (λ z, let s := wait_status z in WIFEXITED s && (WEXITSTATUS s =? z) && negb (WIFSIGNALED s))
      ltac:(by vm_compute) _ Hc) as Hb. cbv beta zeta in Hb. unfold s.
    apply andb_true_iff in Hb as [[? ?%Z.eqb_eq]%andb_true_iff ?%negb_true_iff]. done.
  - intros sig s Hsig.
    pose proof (Hfin 127%nat (λ z, let s := wait_status (Z.lor z kExitCodeSignalFlag) in
        (z =? 0) || (WIFSIGNALED s && (WTERMSIG s =? z) && negb (WIFEXITED s)))
      ltac:(by vm_compute) (Z.land sig 0x7F) ltac:(lia)) as Hb. cbv beta zeta in Hb. fold s in Hb.
    apply orb_true_iff in Hb as [?%Z.eqb_eq|Hb]; [lia|].
    apply andb_true_iff in Hb as [[? ?%Z.eqb_eq]%andb_true_iff ?%negb_true_iff]. done.
Qed.

(** ** Witnesses *)

(** The boot task with one live child. *)
Definition parent_of_live : kernel arena :=
  mkKernel booted ∅ (push_back (children boot0) (sibling task_a) (node_init (sibling task_a) (node_init (children boot0) ∅)))
    (mkArena 0x80700000 ∅) pid_init ∅ false 1 None None.

Lemma parent_of_live_children : dlist (kin parent_of_live) (children boot0) [sibling task_a].
Proof.
  apply (push_back_ok (node_init (sibling task_a) (node_init (children boot0) ∅)) (children boot0) (sibling task_a) []).
  - apply SchedInit.node_init_keeps, node_init_ok.
  - rewrite list_elem_of_singleton. done.
Qed.

Lemma task_wait_outcomes_witness :
  task_wait rq_base 0 parent_of_live = Panic "spinlock: invalid release".
Proof.
  apply (task_wait_outcomes rq_base 0 parent_of_live boot0 [sibling task_a]);
    [by vm_compute|done|apply parent_of_live_children|done].
Defined.

Lemma wait_status_decodes_witness : WIFSIGNALED (wait_status (Z.lor (Z.land 9 0x7F) kExitCodeSignalFlag)) = true.
Proof. apply (proj2 wait_status_decodes). done. Defined.
