(* ===== verification/Slab.v ===== *)
(** * Slab: the kernel heap

    Models [na/mm/slab.cc] and [slab.h] (with the union member [slab] of
    [struct Page]): caches of objects of one size, each with an active page per
    CPU and free objects chained through their first word, and [kmalloc] and
    [kfree] on top of nine size classes and the buddy system.  A [Page*] is a
    frame number, a [KmemCache*] the index of a cache, an object its virtual
    address with 0 for null; memory is a store of 64-bit words.  The list
    [partial_] and its lock are initialised and never used. *)

From S2P Require Import Prelude Bits Pmm.

(** ** Data *)

Definition kNumSizeClasses : Z := 9.
Definition kSizeClasses : list Z := [8; 16; 32; 64; 128; 256; 512; 1024; 2048].

(** The union member [slab] of [struct Page]. *)
Record SlabMeta := mkMeta { cache : option Z; obj_count : Z; freelist : Z }.
#[export] Instance SlabMeta_inhabited : Inhabited SlabMeta := populate (mkMeta None 0 0).

(** [cpu_slab_] has an entry where [active] is not null. *)
Record KmemCache := mkCache {
  cpu_slab_ : gmap Z Z;
  name_ : string;
  obj_size_ : Z;
  obj_align_ : Z;
  objs_per_slab_ : Z;
}.
#[export] Instance KmemCache_inhabited : Inhabited KmemCache := populate (mkCache ∅ "uninit" 0 0 0).

Record slab := mkSlab {
  sl_pmm : pmm;
  sl_meta : gmap Z SlabMeta;
  sl_mem : gmap Z Z;
  g_size_caches : gmap Z KmemCache;
  sl_base : Z; (* [arch::g_direct_map_base] *)
}.

Definition meta_at (s : slab) (p : Z) : SlabMeta := sl_meta s !!! p.
Definition cache_at (s : slab) (k : Z) : KmemCache := g_size_caches s !!! k.
Definition word_at (m : gmap Z Z) (a : Z) : Z := default 0 (m !! a).

Definition with_pmm (m : pmm) (s : slab) : slab := mkSlab m (sl_meta s) (sl_mem s) (g_size_caches s) (sl_base s).
Definition set_meta (p : Z) (d : SlabMeta) (s : slab) : slab :=
  mkSlab (sl_pmm s) (<[p := d]> (sl_meta s)) (sl_mem s) (g_size_caches s) (sl_base s).
Definition with_mem (f : gmap Z Z → gmap Z Z) (s : slab) : slab :=
  mkSlab (sl_pmm s) (sl_meta s) (f (sl_mem s)) (g_size_caches s) (sl_base s).
Definition set_cache (k : Z) (c : KmemCache) (s : slab) : slab :=
  mkSlab (sl_pmm s) (sl_meta s) (sl_mem s) (<[k := c]> (g_size_caches s)) (sl_base s).

Definition set_active (k cpu : Z) (a : option Z) (s : slab) : slab :=
  let c := cache_at s k in
  set_cache k (mkCache (partial_alter (λ _, a) cpu (cpu_slab_ c)) (name_ c) (obj_size_ c) (obj_align_ c) (objs_per_slab_ c)) s.

(** ** Caches *)

Definition page_to_data_va (page : Z) (s : slab) : outcome Z :=
  pa ← page_index_to_pa (sl_pmm s) page; Ret (pa_to_va (sl_base s) pa).

Definition align_up (x align : Z) : Z := Z.land (u32 (x + align - 1)) (u32 (Z.lnot (align - 1))).

Definition cache_init (name : string) (obj_size obj_align : Z) : KmemCache :=
  let obj_align := if obj_align <? 8 then 8 else obj_align in
  let obj_size := align_up (if obj_size <? 8 then 8 else obj_size) obj_align in
  mkCache ∅ name obj_size obj_align (u32 (kPageSize / obj_size)).

(** [for (i = objs_per_slab_ - 1; i >= 0; i--)]: chain the objects of a page. *)
Fixpoint format (n : nat) (base size head : Z) (m : gmap Z Z) : Z * gmap Z Z :=
  match n with
  | O => (head, m)
  | S n' => let obj := base + u32 (Z.of_nat n' * size) in format n' base size obj (<[obj := head]> m)
  end.

Definition new_slab (k cpu : Z) (s : slab) : outcome (option Z * slab) :=
  '(r, m) ← pmm_alloc_page cpu (sl_pmm s);
  let s := with_pmm m s in
  match r with
  | None => Ret (None, s)
  | Some page =>
      let s := with_pmm (set_state page Slab (sl_pmm s)) s in
      base ← page_to_data_va page s;
      let '(head, mem) := format (Z.to_nat (objs_per_slab_ (cache_at s k))) base (obj_size_ (cache_at s k)) 0 (sl_mem s) in
      Ret (Some page, set_meta page (mkMeta (Some k) 0 head) (with_mem (λ _, mem) s))
  end.

(** Take the first free object of a page. *)
Definition pop_object (page : Z) (s : slab) : outcome (Z * slab) :=
  let d := meta_at s page in
  let obj := freelist d in
  if obj =? 0 then Panic "null pointer"
  else Ret (obj, set_meta page (mkMeta (cache d) (u32 (obj_count d + 1)) (word_at (sl_mem s) obj)) s).

Definition alloc_slow (k cpu : Z) (s : slab) : outcome (Z * slab) :=
  '(r, s) ← new_slab k cpu s;
  match r with
  | None => Ret (0, s)
  | Some page => pop_object page (set_active k cpu (Some page) s)
  end.

Definition alloc (k cpu : Z) (s : slab) : outcome (Z * slab) :=
  match cpu_slab_ (cache_at s k) !! cpu with
  | Some page =>
      if freelist (meta_at s page) =? 0 then alloc_slow k cpu (set_active k cpu None s) else pop_object page s
  | None => alloc_slow k cpu s
  end.

(** The page an object lies in: [pa_to_page(va_to_pa(obj) & ~(kPageSize - 1))]. *)
Definition page_of (obj : Z) (s : slab) : outcome Z :=
  pa_to_page_index (sl_pmm s) (Z.land (va_to_pa (sl_base s) obj) (u64 (Z.lnot (kPageSize - 1)))).

(** Give an empty page back. *)
Definition retire_page (k cpu page : Z) (s : slab) : outcome slab :=
  let s := if bool_decide (cpu_slab_ (cache_at s k) !! cpu = Some page) then set_active k cpu None s else s in
  let s := set_meta page (mkMeta None (obj_count (meta_at s page)) 0) s in
  m ← pmm_free_page cpu (Some page) (sl_pmm s);
  Ret (with_pmm m s).

Definition free (k cpu obj : Z) (s : slab) : outcome slab :=
  if obj =? 0 then Ret s
  else
    page ← page_of obj s;
    let d := meta_at s page in
    if bool_decide (state (page_at (sl_pmm s) page) ≠ Slab) || bool_decide (cache d ≠ Some k)
    then Panic "slab free: object does not belong to this cache"
    else
      let s := with_mem <[obj := freelist d]> s in
      let n := u32 (obj_count d - 1) in
      let s := set_meta page (mkMeta (cache d) n obj) s in
      if n =? 0 then retire_page k cpu page s else Ret s.

(** ** The public interface *)

Fixpoint find_from (classes : list Z) (i size : Z) : option Z :=
  match classes with
  | [] => None
  | c :: classes' => if size <=? c then Some i else find_from classes' (i + 1) size
  end.
Definition find_cache (size : Z) : option Z := find_from kSizeClasses 0 size.

(** [while ((1ULL << order) < needed) order++;] *)
Definition order_step (needed o : Z) : Z + Z := if u64 (Z.shiftl 1 o) <? needed then inl (o + 1) else inr o.

Definition kmalloc_large (size : Z) (s : slab) : outcome (Z * slab) :=
  let needed := u64 (size + kPageSize - 1) / kPageSize in
  match loop 8 (order_step needed) 0 with
  | inl _ => OutOfFuel
  | inr order =>
      match pmm_alloc_pages (Z.to_nat order) (sl_pmm s) with
      | (None, m) => Ret (0, with_pmm m s)
      | (Some page, m) => va ← page_to_data_va page (with_pmm m s); Ret (va, with_pmm m s)
      end
  end.

Definition kmalloc (cpu size : Z) (s : slab) : outcome (Z * slab) :=
  if size =? 0 then Ret (0, s)
  else if default 0 (last kSizeClasses) <? size then kmalloc_large size s
  else match find_cache size with
       | None => Ret (0, s)
       | Some k => alloc k cpu s
       end.

Definition kfree (cpu ptr : Z) (s : slab) : outcome slab :=
  if ptr =? 0 then Ret s
  else
    page ← page_of ptr s;
    match state (page_at (sl_pmm s) page) with
    | Slab =>
        match cache (meta_at s page) with
        | None => Panic "kfree: slab page has null cache"
        | Some k => free k cpu ptr s
        end
    | Allocated =>
        m ← pmm_free_pages (Some page) (order (page_at (sl_pmm s) page)) (sl_pmm s); Ret (with_pmm m s)
    | _ => Panic "kfree: invalid page state"
    end.

(** [operator new] and [operator delete]. *)
Definition operator_new (cpu size : Z) : slab → outcome (Z * slab) := kmalloc cpu (u32 size).
Definition operator_delete (cpu ptr : Z) : slab → outcome slab := kfree cpu ptr.

Definition cache_names : list string :=
  ["kmalloc-8"; "kmalloc-16"; "kmalloc-32"; "kmalloc-64"; "kmalloc-128"; "kmalloc-256"; "kmalloc-512";
   "kmalloc-1024"; "kmalloc-2048"]%string.

Fixpoint init_caches (i : Z) (names : list string) (sizes : list Z) (s : slab) : slab :=
  match names, sizes with
  | name :: names', size :: sizes' => init_caches (i + 1) names' sizes' (set_cache i (cache_init name size 8) s)
  | _, _ => s
  end.
Definition slab_init : slab → slab := init_caches 0 cache_names kSizeClasses.
