(* ===== verification/SlabInv.v ===== *)
(** * SlabInv: the invariant of the kernel heap

    The pages and objects behind the state of [slab.cc], and what each of its
    steps does to them. *)

From S2P Require Import Prelude Bits Pmm PmmInit Slab.

(** ** Slots of a page *)

(** The object size of a size class. *)
Definition class (k : Z) : Z := default 0 (kSizeClasses !! Z.to_nat k).

Lemma class_facts k : 0 ≤ k < kNumSizeClasses → 8 ≤ class k ≤ 2048 ∧ (8 | class k) ∧ kPageSize / class k * class k = kPageSize.
Proof.
  unfold kNumSizeClasses. intros Hk.
  assert (k = 0 ∨ k = 1 ∨ k = 2 ∨ k = 3 ∨ k = 4 ∨ k = 5 ∨ k = 6 ∨ k = 7 ∨ k = 8) as H by lia.
  repeat destruct H as [->|H]; [..|subst k];
    (split; [by vm_compute|split; [apply Z.mod_divide; by vm_compute|by vm_compute]]).
Qed.

Definition slots_upto (n : nat) (base z : Z) : list Z := (λ i, base + Z.of_nat i * z) <$> seq 0 n.
Definition slots (base z : Z) : list Z := slots_upto (Z.to_nat (kPageSize / z)) base z.

Lemma elem_of_slots n base z a : a ∈ slots_upto n base z ↔ ∃ i, 0 ≤ i < Z.of_nat n ∧ a = base + i * z.
Proof.
  unfold slots_upto. rewrite list_elem_of_fmap. setoid_rewrite elem_of_seq. split.
  - intros (i & -> & Hi). exists (Z.of_nat i). lia.
  - intros (i & Hi & ->). exists (Z.to_nat i). rewrite Z2Nat.id by lia. split; [done|lia].
Qed.

Lemma NoDup_slots n base z : 0 < z → NoDup (slots_upto n base z).
Proof.
  intros Hz. unfold slots_upto. apply NoDup_fmap_2; [|apply NoDup_seq].
  intros i j E. apply Nat2Z.inj. apply (Z.mul_reg_r _ _ z); lia.
Qed.

Section class_slots.
Context (k base : Z) (Hk : 0 ≤ k < kNumSizeClasses).

Lemma slot_in_page a : a ∈ slots base (class k) → base ≤ a ∧ a + class k ≤ base + kPageSize.
Proof using Hk.
  destruct (class_facts k Hk) as (Hz & _ & E). intros (i & Hi & ->)%elem_of_slots.
  assert (0 ≤ kPageSize / class k) by (apply Z.div_pos; unfold kPageSize; lia). nia.
Qed.

Lemma slot_aligned a : (8 | base) → a ∈ slots base (class k) → (8 | a).
Proof using Hk.
  destruct (class_facts k Hk) as (_ & Hz & _). intros Hb (i & Hi & ->)%elem_of_slots.
  apply Z.divide_add_r; [done|by apply Z.divide_mul_r].
Qed.

Lemma slots_apart a b :
  a ∈ slots base (class k) → b ∈ slots base (class k) → a ≠ b → a + class k ≤ b ∨ b + class k ≤ a.
Proof using Hk.
  destruct (class_facts k Hk) as (Hz & _ & _). intros (i & Hi & ->)%elem_of_slots (j & Hj & ->)%elem_of_slots Hne.
  assert (i ≠ j) by (intros ->; done). destruct (decide (i < j)); [left|right]; nia.
Qed.
End class_slots.

(** ** The chain of free objects *)

Fixpoint chain (m : gmap Z Z) (head : Z) (l : list Z) : Prop :=
  match l with
  | [] => head = 0
  | a :: l' => head = a ∧ a ≠ 0 ∧ chain m (word_at m a) l'
  end.

Lemma chain_frame m m' head l : (∀ a, a ∈ l → m' !! a = m !! a) → chain m head l → chain m' head l.
Proof.
  revert head. induction l as [|a l IH]; intros head Hm; [done|]. cbn. intros (-> & ? & Hc). split_and!; [done|done|].
  unfold word_at. rewrite Hm by left. apply IH; [|done]. intros b Hb. apply Hm. by right.
Qed.

Lemma chain_push m head l a : chain m head l → a ∉ l → a ≠ 0 → chain (<[a := head]> m) a (a :: l).
Proof.
  intros Hc Ha H0. cbn. split_and!; [done|done|]. unfold word_at. rewrite lookup_insert_eq. cbn.
  apply (chain_frame m); [|done]. intros b Hb. rewrite lookup_insert_ne; [done|]. by intros ->.
Qed.

(** Formatting a page chains its slots in order. *)
Lemma format_ok n base z head m l :
  0 < base → 0 < z → Z.of_nat n * z < 2 ^ 32 → chain m head l → (∀ a, a ∈ slots_upto n base z → a ∉ l) →
  chain (format n base z head m).2 (format n base z head m).1 (slots_upto n base z ++ l) ∧
  ∀ a, a ∉ slots_upto n base z → (format n base z head m).2 !! a = m !! a.
Proof.
  intros Hb Hz. revert head m l. induction n as [|n IH]; intros head m l Hn Hc Hl; cbn [format]; [done|].
  rewrite wrap_small by nia. set (obj := base + Z.of_nat n * z) in *.
  assert (Es : slots_upto (S n) base z = slots_upto n base z ++ [obj]) by (unfold slots_upto; by rewrite seq_S, fmap_app).
  rewrite Es in *. assert (Hnd := NoDup_slots (S n) base z Hz). rewrite Es, NoDup_app in Hnd. destruct Hnd as (_ & Hnd & _).
  destruct (IH obj (<[obj := head]> m) (obj :: l)) as [H1 H2].
  - nia.
  - apply chain_push; [done| |unfold obj; nia]. apply Hl. rewrite elem_of_app, list_elem_of_singleton. auto.
  - intros a Ha. rewrite elem_of_cons. intros [->|Hin].
    + apply (Hnd obj Ha). by left.
    + apply (Hl a); [|done]. rewrite elem_of_app. auto.
  - rewrite <- app_assoc. split; [done|]. intros a Ha. rewrite elem_of_app, list_elem_of_singleton in Ha.
    rewrite H2 by tauto. rewrite lookup_insert_ne; [done|]. intros <-. tauto.
Qed.

(** ** Addresses *)

(** RAM and its direct map are page aligned and fit the address space. *)
Record layout_ok (base : Z) (m : pmm) : Prop := {
  ly_base : 0 < g_mem_base m;
  ly_aligned : page_aligned (g_mem_base m);
  ly_map : 0 < base;
  ly_map_aligned : page_aligned base;
  ly_limit : base + g_mem_base m + kPageSize * g_num_pages m ≤ 2 ^ 64;
}.

Definition page_va (s : slab) (p : Z) : Z := sl_base s + g_mem_base (sl_pmm s) + kPageSize * p.

Section addresses.
Context (s : slab) (Hly : layout_ok (sl_base s) (sl_pmm s)) (p : Z) (Hp : 0 ≤ p < g_num_pages (sl_pmm s)).

Lemma page_va_pos : 0 < page_va s p.
Proof using Hly Hp. destruct Hly. unfold page_va, kPageSize. lia. Qed.

Lemma page_va_aligned : (8 | page_va s p).
Proof using Hly Hp.
  destruct Hly. unfold page_va, page_aligned, kPageSize in *. 
  assert (∀ a, a mod 4096 = 0 → (8 | a)) as H.
  { intros a Ha%Z.mod_divide; [|done]. etrans; [|exact Ha]. by exists 512. }
  apply Z.divide_add_r; [apply Z.divide_add_r; by apply H|]. apply Z.divide_mul_l. by exists 512.
Qed.

Lemma page_to_data_va_ok : page_to_data_va p s = Ret (page_va s p).
Proof using Hly Hp.
  destruct Hly. unfold page_to_data_va, page_index_to_pa, pa_to_va, page_va, kPageSize in *.
  rewrite (proj2 (Z.leb_gt _ _)) by lia. cbn [mbind outcome_bind]. rewrite (wrap_small 64 (p * 4096)), (wrap_small 64 (g_mem_base _ + _)), wrap_small by lia. f_equal. lia.
Qed.

Lemma page_of_ok a : page_va s p ≤ a < page_va s p + kPageSize → page_of a s = Ret p.
Proof using Hly Hp.
  destruct Hly as [H1 H2 H3 H4 H5]. unfold page_va, page_of, va_to_pa, pa_to_page_index, page_aligned, kPageSize in *. intros Ha.
  change (u64 (Z.lnot (4096 - 1))) with (2 ^ 64 - 2 ^ 12). rewrite wrap_small by lia. rewrite land_page_mask by (unfold is_u64; lia).
  set (m := sl_pmm s) in *. remember (a - sl_base s) as pa eqn:Ea. unfold kPageSize.
  assert (Epa : pa - pa mod 4096 = g_mem_base m + 4096 * p).
  { pose proof (Z.div_mod pa 4096). pose proof (Z.mod_pos_bound pa 4096). pose proof (Z.div_mod (g_mem_base m) 4096). lia. }
  rewrite Epa, (wrap_small 64 (g_num_pages m * 4096)), (wrap_small 64 (g_mem_base m + g_num_pages m * 4096)) by lia.
  rewrite (proj2 (Z.ltb_ge _ _)), (proj2 (Z.leb_gt _ _)) by lia. cbn [orb]. rewrite wrap_small by lia.
  f_equal. symmetry. apply (Z.div_unique _ _ _ 0); lia.
Qed.
End addresses.

(** ** The invariant *)

(** What a slab page holds: the free objects in the order of their chain, and
    the objects in use. *)
Record spage := mkSp { sp_cache : Z; sp_free : list Z; sp_live : list Z }.

Record page_inv (s : slab) (p : Z) (sp : spage) : Prop := {
  pg_desc : page_at (sl_pmm s) p = mkPage 1 Slab 0;
  pg_cache : cache (meta_at s p) = Some (sp_cache sp);
  pg_count : obj_count (meta_at s p) = Z.of_nat (length (sp_live sp));
  pg_chain : chain (sl_mem s) (freelist (meta_at s p)) (sp_free sp);
  pg_class : 0 ≤ sp_cache sp < kNumSizeClasses;
  pg_slots : sp_free sp ++ sp_live sp ≡ₚ slots (page_va s p) (class (sp_cache sp));
}.

(** Frame [x] belongs to the heap. *)
Definition in_use (G : gmap Z spage) (L : gmap Z nat) (x : Z) : Prop :=
  is_Some (G !! x) ∨ ∃ p o, L !! p = Some o ∧ in_block p o x.

Section heap.
Context (cpu : Z) (F : Z → Prop).

(** [G] has the slab pages and [L] the large blocks in use; only [cpu] uses the
    heap, whose frames come from [F]. *)
Record heap_inv (B : gmap Z nat) (G : gmap Z spage) (L : gmap Z nat) (s : slab) : Prop := {
  hi_wf : pmm_wf B (sl_pmm s);
  hi_batch : 0 < g_pcp_batch_size (sl_pmm s);
  hi_layout : layout_ok (sl_base s) (sl_pmm s);
  hi_caches k : 0 ≤ k < kNumSizeClasses →
    obj_size_ (cache_at s k) = class k ∧ objs_per_slab_ (cache_at s k) = kPageSize / class k;
  hi_slab p sp : G !! p = Some sp → B !! p = Some 0%nat ∧ page_inv s p sp;
  hi_large p o : L !! p = Some o → B !! p = Some o ∧ page_at (sl_pmm s) p = mkPage 1 Allocated o;
  hi_active k c p : cpu_slab_ (cache_at s k) !! c = Some p → c = cpu ∧ ∃ sp, G !! p = Some sp ∧ sp_cache sp = k;
  hi_frames x : F x ↔ pool (sl_pmm s) x ∨ in_use G L x;
}.

(** Every slab page has an object in use: empty pages go back. *)
Definition all_used (G : gmap Z spage) : Prop := ∀ p sp, G !! p = Some sp → sp_live sp ≠ [].

(** An object of [z] bytes at [a], in the block at [p]. *)
Definition object_in (G : gmap Z spage) (L : gmap Z nat) (s : slab) (p a z : Z) : Prop :=
  (∃ sp, G !! p = Some sp ∧ a ∈ sp_live sp ∧ z = class (sp_cache sp)) ∨
  (∃ o, L !! p = Some o ∧ a = page_va s p ∧ z = kPageSize * pow2 o).
Definition object (G : gmap Z spage) (L : gmap Z nat) (s : slab) (a z : Z) : Prop := ∃ p, object_in G L s p a z.

Section consequences.
Context (B : gmap Z nat) (G : gmap Z spage) (L : gmap Z nat) (s : slab) (Hi : heap_inv B G L s).

Lemma block_bounds p o : B !! p = Some o → 0 ≤ p ∧ p + pow2 o ≤ g_num_pages (sl_pmm s) ∧ 0 < pow2 o.
Proof using Hi.
  intros Hp. pose proof (inv_blocks _ _ _ (wf_buddy _ _ (hi_wf _ _ _ _ Hi))) as HB.
  pose proof (blk_nonneg _ _ HB _ _ Hp). pose proof (blk_end _ _ HB _ _ Hp). pose proof (pow2_pos o). lia.
Qed.

Lemma blocks_apart p o q o' : B !! p = Some o → B !! q = Some o' → p ≠ q → p + pow2 o ≤ q ∨ q + pow2 o' ≤ p.
Proof using Hi.
  intros Hp Hq Hne. pose proof (inv_blocks _ _ _ (wf_buddy _ _ (hi_wf _ _ _ _ Hi))) as HB.
  pose proof (pow2_pos o). pose proof (pow2_pos o').
  destruct (decide (p + pow2 o ≤ q)); [by left|]. destruct (decide (q + pow2 o' ≤ p)); [by right|]. exfalso. apply Hne.
  apply (blk_disj _ _ HB p o q o' (Z.max p q)); unfold in_block; (done || lia).
Qed.

Lemma slab_frame p sp : G !! p = Some sp → 0 ≤ p < g_num_pages (sl_pmm s).
Proof using Hi. intros [Hb _]%(hi_slab _ _ _ _ Hi). apply block_bounds in Hb. change (pow2 0) with 1 in Hb. lia. Qed.

Lemma live_slot p sp a : G !! p = Some sp → a ∈ sp_live sp → a ∈ slots (page_va s p) (class (sp_cache sp)).
Proof using Hi.
  intros Hp Ha. destruct (hi_slab _ _ _ _ Hi p sp Hp) as [_ Hpg]. rewrite <- (pg_slots _ _ _ Hpg), elem_of_app. auto.
Qed.

Lemma slab_owned p sp : G !! p = Some sp → owned B (sl_pmm s) p 0.
Proof using Hi.
  intros Hp. destruct (hi_slab _ _ _ _ Hi p sp Hp) as [Hb Hpg]. split; [done|]. rewrite (pg_desc _ _ _ Hpg). by right.
Qed.

Lemma large_owned p o : L !! p = Some o → owned B (sl_pmm s) p o.
Proof using Hi. intros Hp. destruct (hi_large _ _ _ _ Hi p o Hp) as [Hb Hd]. split; [done|]. rewrite Hd. by left. Qed.

(** An object lies in one block of the buddy system that is in use. *)
Lemma object_block p a z :
  object_in G L s p a z →
  ∃ o, owned B (sl_pmm s) p o ∧ page_va s p ≤ a ∧ a + z ≤ page_va s p + kPageSize * pow2 o ∧ 8 ≤ z ∧ (8 | a) ∧ (8 | z).
Proof using Hi.
  intros [(sp & Hp & Ha & ->)|(o & Hp & -> & ->)].
  - destruct (hi_slab _ _ _ _ Hi p sp Hp) as [Hb Hpg]. pose proof (pg_class _ _ _ Hpg) as Hk.
    pose proof (live_slot p sp a Hp Ha) as Hs. pose proof (slot_in_page _ _ Hk a Hs). destruct (class_facts _ Hk) as (Hz & Hz8 & _).
    exists 0%nat. change (pow2 0) with 1. split_and!; [by eapply slab_owned|lia|lia|lia| |done].
    eapply slot_aligned; [exact Hk| |exact Hs]. apply page_va_aligned; [apply Hi|by eapply slab_frame].
  - pose proof (large_owned p o Hp) as Ho. destruct (block_bounds p o) as (? & ? & ?); [apply Ho|]. exists o.
    split_and!; [done|lia|lia|unfold kPageSize; lia| |].
    + apply page_va_aligned; [apply Hi|lia].
    + apply Z.divide_mul_l. by exists 512.
Qed.
(** A page is in one of the two maps only. *)
Lemma slab_not_large p sp o : G !! p = Some sp → L !! p = Some o → False.
Proof using Hi.
  intros Hg Hl. destruct (hi_slab _ _ _ _ Hi p sp Hg) as [_ Hpg]. destruct (hi_large _ _ _ _ Hi p o Hl) as [_ Hd].
  by rewrite (pg_desc _ _ _ Hpg) in Hd.
Qed.

(** Different objects do not overlap. *)
Lemma objects_apart a z b y : object G L s a z → object G L s b y → a ≠ b → a + z ≤ b ∨ b + y ≤ a.
Proof using Hi.
  intros [p Ha] [q Hb] Hne. destruct (object_block p a z Ha) as (o & [Hp _] & Hpa & Hpz & _).
  destruct (object_block q b y Hb) as (o' & [Hq _] & Hqb & Hqy & _).
  destruct (decide (p = q)) as [<-|Hpq].
  - destruct Ha as [(sp & Hsp & Ha & ->)|(o1 & Hl & -> & ->)], Hb as [(sp' & Hsp' & Hb & ->)|(o2 & Hl' & -> & ->)].
    + simplify_eq. destruct (hi_slab _ _ _ _ Hi p sp Hsp) as [_ Hpg].
      eapply slots_apart; [apply Hpg|by eapply live_slot..|done].
    + by destruct (slab_not_large p sp o2).
    + by destruct (slab_not_large p sp' o1).
    + done.
  - unfold page_va in *. destruct (blocks_apart p o q o' Hp Hq Hpq); [left|right]; unfold kPageSize in *; nia.
Qed.

(** No part of an object can be handed out again. *)
Lemma owned_not_pool p o x : owned B (sl_pmm s) p o → in_block p o x → ¬ pool (sl_pmm s) x.
Proof using Hi.
  intros Ho Hx. pose proof (hi_wf _ _ _ _ Hi) as Hwf. pose proof (inv_blocks _ _ _ (wf_buddy _ _ Hwf)) as HB.
  intros [(o' & q & (Hq & Hs & _)%(inv_free _ _ _ (wf_buddy _ _ Hwf)) & Hin)|[c [Hq Hs]%(pcp_cached _ _ (wf_pcp _ _ Hwf))]].
  - assert (p = q) as <- by (by apply (blk_disj _ _ HB p o q o' x); [apply Ho|..]). destruct Ho as [_ Ho]. rewrite Hs in Ho. by destruct Ho.
  - assert (p = x) as <- by (apply (blk_disj _ _ HB p o x 0%nat x); [apply Ho|done..|by apply in_block_0]).
    destruct Ho as [_ Ho]. rewrite Hs in Ho. by destruct Ho.
Qed.

Lemma object_not_pool a z x :
  object G L s a z → a < page_va s x + kPageSize → page_va s x < a + z → ¬ pool (sl_pmm s) x.
Proof using Hi.
  intros [p Ha] H1 H2. destruct (object_block p a z Ha) as (o & Ho & Hpa & Hpz & _). apply (owned_not_pool p o); [done|].
  unfold in_block, page_va, kPageSize in *. lia.
Qed.
End consequences.
End heap.
