(* ===== verification/SlabSteps.v ===== *)
(** * SlabSteps: what each step of the kernel heap does

    Lemmas on the routines of [slab.cc], for the invariant of [SlabInv]. *)

From S2P Require Import Prelude Bits Pmm PmmInit Slab SlabInv.

Lemma meta_at_set p d s q : meta_at (set_meta p d s) q = if decide (p = q) then d else meta_at s q.
Proof. unfold meta_at. cbn. rewrite !lookup_total_alt, lookup_insert. by case_decide. Qed.

Lemma cache_at_set k c s j : cache_at (set_cache k c s) j = if decide (k = j) then c else cache_at s j.
Proof. unfold cache_at. cbn. rewrite !lookup_total_alt, lookup_insert. by case_decide. Qed.

(** A page is untouched when its descriptor, its metadata and its free objects are. *)
Lemma page_inv_frame s s' p sp :
  page_inv s p sp → page_at (sl_pmm s') p = page_at (sl_pmm s) p → meta_at s' p = meta_at s p →
  (∀ a, a ∈ sp_free sp → sl_mem s' !! a = sl_mem s !! a) → page_va s' p = page_va s p → page_inv s' p sp.
Proof.
  intros [H1 H2 H3 H4 H5 H6] Ed Em Ha Ev. split; rewrite ?Ed, ?Em, ?Ev; try done.
  by apply (chain_frame (sl_mem s)).
Qed.

Lemma page_va_params s s' p : sl_base s' = sl_base s → params (sl_pmm s') = params (sl_pmm s) → page_va s' p = page_va s p.
Proof. unfold params, page_va. intros -> E. by replace (g_mem_base (sl_pmm s')) with (g_mem_base (sl_pmm s)) by congruence. Qed.

Lemma layout_params base m m' : params m' = params m → layout_ok base m → layout_ok base m'.
Proof.
  unfold params. intros E []. split; [..|replace (g_num_pages m') with (g_num_pages m) by congruence];
    try replace (g_mem_base m') with (g_mem_base m) by congruence; done.
Qed.

(** Slots of different pages differ. *)
Lemma slots_differ s p q k j a b :
  0 ≤ k < kNumSizeClasses → 0 ≤ j < kNumSizeClasses →
  a ∈ slots (page_va s p) (class k) → b ∈ slots (page_va s q) (class j) → p ≠ q → a ≠ b.
Proof.
  intros Hk Hj Ha%slot_in_page Hb%slot_in_page Hne; [|done..]. destruct (class_facts k Hk) as (? & _).
  destruct (class_facts j Hj) as (? & _). unfold page_va, kPageSize in *. lia.
Qed.

(** The frames a slab page is made of leave the pool. *)
Lemma in_use_insert G L p sp x : G !! p = None → in_use (<[p := sp]> G) L x ↔ in_use G L x ∨ x = p.
Proof.
  intros Hp. unfold in_use. rewrite lookup_insert. case_decide as E; [subst x|naive_solver].
  split; [auto|]. intros _. left. by eexists.
Qed.

Section steps.
Context (cpu : Z) (F : Z → Prop).
Abbreviation heap_inv := (heap_inv cpu F).

(** A change of one slab page. *)
Lemma heap_set_slab B G L s s' p sp sp' :
  heap_inv B G L s → G !! p = Some sp → page_inv s' p sp' → sp_cache sp' = sp_cache sp →
  sl_pmm s' = sl_pmm s → sl_base s' = sl_base s → g_size_caches s' = g_size_caches s →
  (∀ q, q ≠ p → meta_at s' q = meta_at s q) →
  (∀ q sq a, q ≠ p → G !! q = Some sq → a ∈ sp_free sq → sl_mem s' !! a = sl_mem s !! a) →
  heap_inv B (<[p := sp']> G) L s'.
Proof.
  intros Hi Hp Hpg Ek Em Eb Ec Hmeta Hmem. split; rewrite ?Em, ?Eb; try apply Hi.
  - intros k Hk. unfold cache_at. rewrite Ec. by apply Hi.
  - intros q sq [[<- <-]|[Hne Hq]]%lookup_insert_Some; [split; [by eapply hi_slab|done]|].
    destruct (hi_slab _ _ _ _ _ _ Hi q sq Hq) as [? Hpq]. split; [done|].
    apply (page_inv_frame s); [done|by rewrite Em|by apply Hmeta|by eauto|by apply page_va_params; rewrite ?Em].
  - intros k c q. unfold cache_at. rewrite Ec. intros (-> & sq & Hq & Hk)%(hi_active _ _ _ _ _ _ Hi). split; [done|].
    destruct (decide (p = q)) as [<-|]; [exists sp'; rewrite lookup_insert_eq; simplify_eq; split; [done|congruence]|].
    exists sq. by rewrite lookup_insert_ne.
  - intros x. rewrite (hi_frames _ _ _ _ _ _ Hi). unfold in_use. rewrite lookup_insert. case_decide as E; [subst x|done].
    rewrite Hp. split; intros [?|[?|?]]; eauto.
Qed.

(** A change of the page pool that leaves the pages of the heap alone. *)
Lemma heap_set_pmm B G L s B' m :
  heap_inv B G L s → pmm_wf B' m → params m = params (sl_pmm s) →
  (∀ q o, owned B (sl_pmm s) q o → is_Some (G !! q) ∨ is_Some (L !! q) → B' !! q = Some o ∧ page_at m q = page_at (sl_pmm s) q) →
  (∀ x, F x ↔ pool m x ∨ in_use G L x) → heap_inv B' G L (with_pmm m s).
Proof.
  intros Hi Hwf Hpar Hf HF. split; try done; cbn [with_pmm sl_pmm sl_base].
  - replace (g_pcp_batch_size m) with (g_pcp_batch_size (sl_pmm s)) by (unfold params in Hpar; congruence). apply Hi.
  - eapply layout_params; [done|apply Hi].
  - apply Hi.
  - intros p sp Hp. destruct (Hf p 0%nat) as [? Ed]; [by eapply slab_owned|by eauto|]. split; [done|].
    apply (page_inv_frame s); [by eapply hi_slab|done|done|done|by apply page_va_params].
  - intros p o Hp. destruct (Hf p o) as [? Ed]; [by eapply large_owned|by eauto|]. split; [done|].
    rewrite Ed. by eapply hi_large.
  - apply Hi.
Qed.

Lemma set_active_ok B G L s k a :
  heap_inv B G L s → (∀ p, a = Some p → ∃ sp, G !! p = Some sp ∧ sp_cache sp = k) → heap_inv B G L (set_active k cpu a s).
Proof.
  intros Hi Ha. unfold set_active. split; try apply Hi.
  - intros j Hj. rewrite cache_at_set. case_decide; [subst j; cbn|]; by apply Hi.
  - intros p sp Hp. split; [by eapply hi_slab|]. apply (page_inv_frame s); [by eapply hi_slab|done..].
  - intros j c p. rewrite cache_at_set. case_decide; [subst j; cbn [cpu_slab_]|apply Hi].
    rewrite lookup_partial_alter. case_decide; [subst c; auto|apply Hi].
Qed.

Lemma page_objects B G L s p sp :
  heap_inv B G L s → G !! p = Some sp → Z.of_nat (length (sp_free sp) + length (sp_live sp)) ≤ 512.
Proof.
  intros Hi Hp. destruct (hi_slab _ _ _ _ _ _ Hi p sp Hp) as [_ Hpg]. rewrite <- length_app, (pg_slots _ _ _ Hpg).
  unfold slots, slots_upto. rewrite length_fmap, length_seq. destruct (class_facts _ (pg_class _ _ _ Hpg)) as (Hz & _ & _).
  assert (kPageSize / class (sp_cache sp) ≤ kPageSize / 8) by (apply Z.div_le_compat_l; unfold kPageSize; lia).
  change (kPageSize / 8) with 512 in *. lia.
Qed.

(** Taking an object of a page. *)
Lemma pop_object_ok B G L s p sp a fl :
  heap_inv B G L s → G !! p = Some sp → sp_free sp = a :: fl →
  ∃ s', pop_object p s = Ret (a, s') ∧ a ≠ 0 ∧ sl_mem s' = sl_mem s ∧ sl_pmm s' = sl_pmm s ∧ sl_base s' = sl_base s ∧
    heap_inv B (<[p := mkSp (sp_cache sp) fl (a :: sp_live sp)]> G) L s'.
Proof.
  intros Hi Hp Hfl. destruct (hi_slab _ _ _ _ _ _ Hi p sp Hp) as [_ Hpg]. pose proof (page_objects _ _ _ _ _ _ Hi Hp) as Hn.
  pose proof (pg_chain _ _ _ Hpg) as Hc. rewrite Hfl in Hc. destruct Hc as (Ea & H0 & Hc).
  unfold pop_object. rewrite Ea, (proj2 (Z.eqb_neq a 0)) by done. eexists. split; [done|]. split_and!; [done..|].
  apply (heap_set_slab B G L s _ p sp); try done; [|intros q Hq; by rewrite meta_at_set, decide_False].
  destruct Hpg as [H1 H2 H3 H4 H5 H6]. split; rewrite ?meta_at_set, ?decide_True by done; cbn [cache obj_count freelist sp_cache sp_live sp_free]; try done.
  - rewrite H3, Hfl in *. cbn [length] in *. rewrite wrap_small by lia. lia.
  - rewrite Hfl in H6. etrans; [|exact H6]. symmetry. by apply Permutation_middle.
Qed.

(** A page fresh from the pool, formatted, joins the heap. *)
Lemma heap_add_slab B G L s B' m p k head mem :
  heap_inv B G L s → 0 ≤ k < kNumSizeClasses → page_post B (sl_pmm s) p B' m →
  G !! p = None → chain mem head (slots (page_va s p) (class k)) →
  (∀ x, x ∉ slots (page_va s p) (class k) → mem !! x = sl_mem s !! x) →
  heap_inv B' (<[p := mkSp k (slots (page_va s p) (class k)) []]> G) L
    (set_meta p (mkMeta (Some k) 0 head) (with_mem (λ _, mem) (with_pmm (set_page p (mkPage 1 Slab 0) m) s))).
Proof.
  intros Hi Hk [P1 P2 P3 P4 P5 P6 P7] HpG Hc Hm.
  destruct (set_desc_ok B' m p 0 (mkPage 1 Slab 0) P1 P2 (or_intror eq_refl)) as (Q1 & Q2 & Q3 & Q4).
  split; cbn [set_meta with_mem with_pmm sl_pmm sl_base sl_mem].
  - done.
  - change (g_pcp_batch_size _) with (g_pcp_batch_size m).
    replace (g_pcp_batch_size m) with (g_pcp_batch_size (sl_pmm s)) by (unfold params in P7; congruence). apply Hi.
  - eapply layout_params; [exact P7|apply Hi].
  - apply Hi.
  - intros q sq [[<- <-]|[Hne Hq]]%lookup_insert_Some.
    + split; [apply Q2|]. split; cbn [set_meta with_mem with_pmm sl_pmm sl_mem sp_cache sp_live sp_free]; rewrite ?meta_at_set, ?decide_True by done; try done.
      * by rewrite page_at_set_page, decide_True.
      * rewrite app_nil_r.
        by replace (page_va (set_meta _ _ _) p) with (page_va s p) by (symmetry; by apply page_va_params).
    + destruct (P4 q 0%nat (slab_owned _ _ _ _ _ _ Hi q sq Hq)) as (? & Ed & _). split; [done|].
      destruct (hi_slab _ _ _ _ _ _ Hi q sq Hq) as [_ Hpg].
      apply (page_inv_frame s); [done| | | |by apply page_va_params]; cbn [set_meta with_mem with_pmm sl_pmm sl_mem].
      * by rewrite Q4.
      * by rewrite meta_at_set, decide_False.
      * intros a Ha. apply Hm. intros Ha'.
        assert (a ∈ slots (page_va s q) (class (sp_cache sq))) as Haq by (rewrite <- (pg_slots _ _ _ Hpg), elem_of_app; auto).
        by apply (slots_differ s p q k (sp_cache sq) a a Hk (pg_class _ _ _ Hpg) Ha' Haq Hne).
  - intros q o Hq. destruct (P4 q o (large_owned _ _ _ _ _ _ Hi q o Hq)) as (? & Ed & Hne). split; [done|].
    rewrite Q4 by done. rewrite Ed. by eapply hi_large.
  - intros j c q (-> & sq & Hq & Hj)%(hi_active _ _ _ _ _ _ Hi). split; [done|]. exists sq.
    rewrite lookup_insert_ne by congruence. done.
  - intros x. rewrite (hi_frames _ _ _ _ _ _ Hi), in_use_insert, Q3, P5 by done. destruct (decide (x = p)); naive_solver.
Qed.

Lemma page_post_fresh B G L s B' m p :
  heap_inv B G L s → page_post B (sl_pmm s) p B' m → G !! p = None ∧ L !! p = None ∧ 0 ≤ p < g_num_pages (sl_pmm s).
Proof.
  intros Hi [P1 P2 _ P4 _ _ P7]. split_and!.
  - destruct (G !! p) as [sp|] eqn:E; [|done]. by destruct (P4 p 0%nat (slab_owned _ _ _ _ _ _ Hi p sp E)) as (_ & _ & ?).
  - destruct (L !! p) as [o|] eqn:E; [|done]. by destruct (P4 p o (large_owned _ _ _ _ _ _ Hi p o E)) as (_ & _ & ?).
  - by apply (blk_nonneg _ _ (inv_blocks _ _ _ (wf_buddy _ _ P1)) p 0%nat), P2.
  - rewrite <- (params_num _ _ P7). pose proof (blk_end _ _ (inv_blocks _ _ _ (wf_buddy _ _ P1)) p 0%nat (proj1 P2)) as H.
    change (pow2 0) with 1 in H. lia.
Qed.

Lemma new_slab_ok B G L s k :
  heap_inv B G L s → 0 ≤ k < kNumSizeClasses →
  ∃ r s' B', new_slab k cpu s = Ret (r, s') ∧ sl_base s' = sl_base s ∧ params (sl_pmm s') = params (sl_pmm s) ∧
  match r with
  | None => heap_inv B' G L s' ∧ sl_mem s' = sl_mem s ∧ (∀ x, ¬ free_page (sl_pmm s) x) ∧ free_list (pcp_at (sl_pmm s) cpu) = []
  | Some p =>
      heap_inv B' (<[p := mkSp k (slots (page_va s p) (class k)) []]> G) L s' ∧ G !! p = None ∧ L !! p = None ∧
      0 ≤ p < g_num_pages (sl_pmm s) ∧ ∀ x, x ∉ slots (page_va s p) (class k) → sl_mem s' !! x = sl_mem s !! x
  end.
Proof.
  intros Hi Hk. unfold new_slab.
  pose proof (pmm_alloc_page_ok B (sl_pmm s) cpu (hi_wf _ _ _ _ _ _ Hi) (hi_batch _ _ _ _ _ _ Hi)) as H.
  destruct (pmm_alloc_page cpu (sl_pmm s)) as [[[p|] m]| |]; [| |done..]; cbn [mbind outcome_bind].
  - destruct H as (B' & HP). destruct (page_post_fresh _ _ _ _ _ _ _ Hi HP) as (HpG & HpL & Hp).
    change (sl_pmm (with_pmm m s)) with m. pose proof (pp_params _ _ _ _ _ HP) as Hpar.
    assert (set_state p Slab m = set_page p (mkPage 1 Slab 0) m) as -> by (unfold set_state; by rewrite (pp_desc _ _ _ _ _ HP)).
    set (s1 := with_pmm (set_page p (mkPage 1 Slab 0) m) _). destruct (hi_caches _ _ _ _ _ _ Hi k Hk) as [Ez En].
    assert (page_to_data_va p s1 = Ret (page_va s p)) as ->.
    { rewrite page_to_data_va_ok; [f_equal; by apply page_va_params|eapply layout_params; [exact Hpar|apply Hi]|].
      cbn. by rewrite (params_num _ _ Hpar). }
    cbn [mbind outcome_bind]. change (cache_at s1 k) with (cache_at s k). rewrite Ez, En.
    destruct (class_facts k Hk) as (Hz & _ & Ez2). pose proof (page_va_pos s (hi_layout _ _ _ _ _ _ Hi) p Hp) as Hpos.
    destruct (format_ok (Z.to_nat (kPageSize / class k)) (page_va s p) (class k) 0 (sl_mem s) []) as [Hc Hm];
      [done|lia| |done|by intros ? _ ?%elem_of_nil|].
    { rewrite Z2Nat.id by (apply Z.div_pos; unfold kPageSize; lia). by rewrite Ez2. }
    change (sl_mem s1) with (sl_mem s). destruct (format _ _ _ 0 (sl_mem s)) as [head mem]. cbn [fst snd] in Hc, Hm. rewrite app_nil_r in Hc.
    eexists (Some p), _, B'. split; [done|]. split_and!; [done|done| |done|done|lia|lia|exact Hm].
    by apply (heap_add_slab B G L s B' m p k head mem).
  - destruct H as (Hnf & Hl & B' & Hwf' & [T1 T2 T3]). eexists None, _, B'. split; [done|]. split_and!; [done|done| |done|done|done].
    apply (heap_set_pmm B); [done|done|done|by eauto|]. intros x. rewrite T2. apply Hi.
Qed.

(** ** Allocation *)

(** An object meets a slab page only if it is one of the page's own. *)
Lemma object_home B G L s p sp q a z x :
  heap_inv B G L s → G !! p = Some sp → object_in G L s q a z → a ≤ x < a + z →
  page_va s p ≤ x < page_va s p + kPageSize → q = p ∧ a ∈ sp_live sp ∧ z = class (sp_cache sp).
Proof.
  intros Hi Hp Ho Hx Hpx. assert (q = p) as ->.
  { destruct (object_block _ _ _ _ _ _ Hi q a z Ho) as (o & Hq & Hqa & Hqz & _).
    destruct (decide (q = p)) as [|Hne]; [done|]. pose proof (slab_owned _ _ _ _ _ _ Hi p sp Hp) as [Hpb _].
    destruct (blocks_apart _ _ _ _ _ _ Hi q o p 0%nat (proj1 Hq) Hpb Hne); change (pow2 0) with 1 in *;
      unfold page_va, kPageSize in *; nia. }
  split; [done|]. destruct Ho as [(sq & Hq & Ha & ->)|(o & Hq & -> & ->)]; [by simplify_eq|].
  by destruct (slab_not_large _ _ _ _ _ _ Hi p sp o).
Qed.

(** The words of objects in use are left alone. *)
Definition kept (G : gmap Z spage) (L : gmap Z nat) (s s' : slab) : Prop :=
  ∀ a z x, object G L s a z → a ≤ x < a + z → sl_mem s' !! x = sl_mem s !! x.

(** The objects afterwards are those before and [z] bytes at [a]. *)
Record grown (G : gmap Z spage) (L : gmap Z nat) (s : slab) (a z : Z) (G' : gmap Z spage) (L' : gmap Z nat) (s' : slab) : Prop := {
  gr_objects b y : object G' L' s' b y ↔ object G L s b y ∨ (b = a ∧ y = z);
  gr_fresh y : ¬ object G L s a y;
  gr_kept : kept G L s s';
}.

Lemma object_in_va G L s s' p a z : (∀ q, page_va s' q = page_va s q) → object_in G L s' p a z ↔ object_in G L s p a z.
Proof using. intros E. unfold object_in. by setoid_rewrite E. Qed.

Lemma object_va G L s s' a z : (∀ p, page_va s' p = page_va s p) → object G L s' a z ↔ object G L s a z.
Proof using. intros E. unfold object. by setoid_rewrite (object_in_va G L s s'). Qed.

(** A page described by its objects in use. *)
Lemma object_same G L s p sp sp' b y :
  G !! p = Some sp → sp_cache sp' = sp_cache sp → (∀ a, a ∈ sp_live sp' ↔ a ∈ sp_live sp) →
  object (<[p := sp']> G) L s b y ↔ object G L s b y.
Proof using.
  intros Hp Ek El. unfold object, object_in. setoid_rewrite lookup_insert. split; intros [q [(sq & Hq & Hb & ->)|Hl]]; exists q.
  - left. case_decide; [|by eauto]. simplify_eq. exists sp. rewrite <- El, <- Ek. done.
  - by right.
  - left. case_decide; [|by eauto]. simplify_eq. exists sp'. rewrite El, Ek. done.
  - by right.
Qed.

(** A page with no object in use. *)
Lemma object_in_new G L s p k fl q b y :
  G !! p = None → object_in (<[p := mkSp k fl []]> G) L s q b y ↔ object_in G L s q b y.
Proof using.
  intros Hp. unfold object_in. split.
  - intros [(sq & [[<- <-]|[Hne Hq]]%lookup_insert_Some & Hb & ->)|Hl]; [by apply elem_of_nil in Hb| |by right]. left. eauto.
  - intros [(sq & Hq & Hb)|Hl]; [left|by right]. exists sq. rewrite lookup_insert_ne by congruence. done.
Qed.

(** Putting one more object of a page in use. *)
Lemma object_take G L s p k fl live a b y :
  object (<[p := mkSp k fl (a :: live)]> G) L s b y ↔
  object (<[p := mkSp k fl live]> G) L s b y ∨ (b = a ∧ y = class k).
Proof.
  unfold object, object_in. split.
  - intros [q [(sp & [[<- <-]|[Hne Hq]]%lookup_insert_Some & Hb & ->)|Hl]].
    + cbn in Hb. apply elem_of_cons in Hb as [->|Hb]; [by right|]. left. exists p. left. eexists. by rewrite lookup_insert_eq.
    + left. exists q. left. exists sp. by rewrite lookup_insert_ne.
    + left. exists q. by right.
  - intros [[q [(sp & [[<- <-]|[Hne Hq]]%lookup_insert_Some & Hb & ->)|Hl]]|[-> ->]].
    + exists p. left. eexists. rewrite lookup_insert_eq. split; [done|]. split; [by right|done].
    + exists q. left. exists sp. by rewrite lookup_insert_ne.
    + exists q. by right.
    + exists p. left. eexists. rewrite lookup_insert_eq. split; [done|]. split; [by left|done].
Qed.

(** A free object of a page is no object in use. *)
Lemma free_not_object B G L s p sp a y : heap_inv B G L s → G !! p = Some sp → a ∈ sp_free sp → ¬ object G L s a y.
Proof.
  intros Hi Hp Ha [q Hq]. destruct (hi_slab _ _ _ _ _ _ Hi p sp Hp) as [_ Hpg]. pose proof (pg_class _ _ _ Hpg) as Hk.
  assert (Hs : a ∈ slots (page_va s p) (class (sp_cache sp))) by (rewrite <- (pg_slots _ _ _ Hpg), elem_of_app; auto).
  pose proof (slot_in_page _ _ Hk a Hs) as Hr. destruct (class_facts _ Hk) as (Hz & _).
  destruct (object_block _ _ _ _ _ _ Hi q a y Hq) as (o & _ & _ & _ & H8 & _).
  destruct (object_home B G L s p sp q a y a Hi Hp Hq) as (_ & Hl & _); [lia|lia|].
  assert (Hnd : NoDup (sp_free sp ++ sp_live sp)) by (rewrite (pg_slots _ _ _ Hpg); apply NoDup_slots; lia).
  apply NoDup_app in Hnd as (_ & Hnd & _). by apply (Hnd a).
Qed.

(** No page is left for this CPU. *)
Definition exhausted (s : slab) : Prop := (∀ x, ¬ free_page (sl_pmm s) x) ∧ free_list (pcp_at (sl_pmm s) cpu) = [].

Definition alloc_result (G : gmap Z spage) (L : gmap Z nat) (s : slab) (k a : Z) (s' : slab) : Prop :=
  sl_base s' = sl_base s ∧ params (sl_pmm s') = params (sl_pmm s) ∧
  ((a = 0 ∧ exhausted s ∧ sl_mem s' = sl_mem s ∧ ∃ B', heap_inv B' G L s') ∨
   (a ≠ 0 ∧ ∃ B' G', heap_inv B' G' L s' ∧ all_used G' ∧ grown G L s a (class k) G' L s')).

Lemma alloc_slow_ok B G L s k :
  heap_inv B G L s → all_used G → 0 ≤ k < kNumSizeClasses →
  ∃ a s', alloc_slow k cpu s = Ret (a, s') ∧ alloc_result G L s k a s'.
Proof.
  intros Hi Hu Hk. unfold alloc_slow. destruct (new_slab_ok B G L s k Hi Hk) as (r & s1 & B1 & -> & Eb & Ep & Hr).
  cbn [mbind outcome_bind]. destruct r as [p|].
  2: { destruct Hr as (Hi1 & Em & Hnf & Hl). exists 0, s1. split; [done|]. split_and!; [done|done|]. left.
       split_and!; [done|done|done|eauto]. }
  destruct Hr as (Hi1 & HpG & HpL & Hp & Hm). set (sp := mkSp k _ []) in Hi1.
  assert (Hsp : <[p := sp]> G !! p = Some sp) by (by rewrite lookup_insert_eq).
  pose proof (set_active_ok B1 _ L s1 k (Some p) Hi1) as Hi2. 
  assert (∃ a fl, sp_free sp = a :: fl) as (a & fl & Efl).
  { cbn [sp sp_free]. unfold slots, slots_upto. destruct (class_facts k Hk) as (Hz & _ & Ez).
    destruct (Z.to_nat (kPageSize / class k)) as [|n] eqn:En; [|cbn; eauto]. exfalso.
    assert (1 ≤ kPageSize / class k) by (apply Z.div_le_lower_bound; unfold kPageSize; lia). lia. }
  destruct (pop_object_ok B1 (<[p := sp]> G) L (set_active k cpu (Some p) s1) p sp a fl) as (s2 & -> & H0 & Em2 & Ep2 & Eb2 & Hi3).
  { apply Hi2. intros q [= <-]. by exists sp. }
  { done. } { done. }
  exists a, s2. split; [done|]. rewrite insert_insert_eq in Hi3. cbn [sp sp_cache sp_live] in Hi3.
  cbn in Em2, Ep2, Eb2. split_and!; [congruence|congruence|]. right. split; [done|]. eexists B1, _. split; [exact Hi3|]. split.
  { intros q sq [[<- <-]|[_ Hq]]%lookup_insert_Some; [done|by eapply Hu]. }
  assert (Ev : ∀ q, page_va s2 q = page_va s q) by (intros q; apply page_va_params; congruence).
  assert (Ev1 : ∀ q, page_va s1 q = page_va s q) by (intros q; by apply page_va_params).
  assert (Hold : ∀ q b y, object_in G L s q b y → object_in (<[p := sp]> G) L s1 q b y).
  { intros q b y Ho. apply (object_in_va _ _ s); [done|]. by apply object_in_new. }
  split.
  - intros b y. rewrite (object_va _ _ s) by done. rewrite object_take. unfold object at 1. by setoid_rewrite object_in_new.
  - intros y [q Hq]. apply (free_not_object B1 _ L s1 p sp a y Hi1 Hsp); [rewrite Efl; by left|]. exists q. by apply Hold.
  - intros b y x [q Hq] Hx. rewrite Em2. apply Hm. intros Hin. pose proof (slot_in_page _ _ Hk x Hin) as Hr.
    destruct (class_facts k Hk) as (Hz & _).
    destruct (object_home B1 _ L s1 p sp q b y x Hi1 Hsp (Hold q b y Hq) Hx) as (_ & Hb & _); [rewrite Ev1; lia|].
    by apply elem_of_nil in Hb.
Qed.

Lemma alloc_ok B G L s k :
  heap_inv B G L s → all_used G → 0 ≤ k < kNumSizeClasses →
  ∃ a s', alloc k cpu s = Ret (a, s') ∧ alloc_result G L s k a s'.
Proof.
  intros Hi Hu Hk. unfold alloc. destruct (cpu_slab_ (cache_at s k) !! cpu) as [p|] eqn:Ea; [|by eapply alloc_slow_ok].
  destruct (hi_active _ _ _ _ _ _ Hi k cpu p Ea) as (_ & sp & Hp & Ek).
  destruct (hi_slab _ _ _ _ _ _ Hi p sp Hp) as [_ Hpg]. pose proof (pg_chain _ _ _ Hpg) as Hc.
  destruct (sp_free sp) as [|a fl] eqn:Efl; cbn [chain] in Hc.
  - rewrite Hc. cbn [Z.eqb]. destruct (alloc_slow_ok B G L (set_active k cpu None s) k) as (a & s' & E & R);
      [by apply set_active_ok|done|done|]. exists a, s'. split; [done|]. 
    destruct R as (Eb & Ep & R). split_and!; [done|done|]. destruct R as [R|(H0 & B' & G' & Hi' & Hu' & [R1 R2 R3])]; [by left|].
    right. split; [done|]. exists B', G'. split_and!; [done|done|]. by split.
  - destruct Hc as (-> & H0 & Hc). rewrite (proj2 (Z.eqb_neq a 0)) by done.
    destruct (pop_object_ok B G L s p sp a fl Hi Hp Efl) as (s' & -> & _ & Em & Ep & Eb & Hi'). exists a, s'. split; [done|].
    split_and!; [done|congruence|]. right. split; [done|]. eexists B, _. split; [exact Hi'|]. split.
    { intros q sq [[<- <-]|[_ Hq]]%lookup_insert_Some; [done|by eapply Hu]. }
    assert (Ev : ∀ q, page_va s' q = page_va s q) by (intros q; apply page_va_params; congruence). split.
    + intros b y. rewrite (object_va _ _ s) by done. rewrite object_take, Ek. apply or_iff_compat_r.
      by apply (object_same G L s p sp).
    + intros y. apply (free_not_object B G L s p sp); [done|done|]. rewrite Efl. by left.
    + intros b y x _ _. by rewrite Em.
Qed.
End steps.
