(* ===== verification/SlabFree.v ===== *)
(** * SlabFree: releasing objects, and blocks larger than a size class

    The other half of the lemmas on [slab.cc]: [free], [kmalloc] and [kfree]. *)

From S2P Require Import Prelude Bits Pmm PmmInit Slab SlabInv SlabSteps.

Section free.
Context (cpu : Z) (F : Z → Prop).
Abbreviation heap_inv := (heap_inv cpu F).

Lemma in_use_delete G L p x : is_Some (G !! p) → in_use G L x ↔ in_use (delete p G) L x ∨ x = p.
Proof using.
  clear. intros Hp. unfold in_use. rewrite lookup_delete. case_decide as E; [subst x|].
  - split; [by auto|]. by left.
  - split; [by left|]. intros [? | ->]; done.
Qed.

(** An empty page leaves the heap. *)
Lemma heap_del_slab B G L s p sp B' m d :
  heap_inv B G L s → G !! p = Some sp → (∀ k c, cpu_slab_ (cache_at s k) !! c ≠ Some p) →
  pmm_wf B' m → params m = params (sl_pmm s) →
  (∀ q o, owned B (sl_pmm s) q o → q ≠ p → B' !! q = Some o ∧ page_at m q = page_at (sl_pmm s) q) →
  (∀ x, pool m x ↔ pool (sl_pmm s) x ∨ x = p) → heap_inv B' (delete p G) L (with_pmm m (set_meta p d s)).
Proof.
  intros Hi Hp Hact Hwf Hpar Hf Hpool. split; cbn [with_pmm set_meta sl_pmm sl_base].
  - done.
  - replace (g_pcp_batch_size m) with (g_pcp_batch_size (sl_pmm s)) by (unfold params in Hpar; congruence). apply Hi.
  - eapply layout_params; [done|apply Hi].
  - apply Hi.
  - intros q sq [Hne Hq]%lookup_delete_Some. destruct (Hf q 0%nat) as [? Ed]; [by eapply slab_owned|done|]. split; [done|].
    apply (page_inv_frame s); [by eapply hi_slab|done|change (meta_at (set_meta p d s) q = meta_at s q); by rewrite meta_at_set, decide_False|done|by apply page_va_params].
  - intros q o Hq. assert (q ≠ p) as Hne by (intros ->; by eapply slab_not_large).
    destruct (Hf q o) as [? Ed]; [by eapply large_owned|done|]. split; [done|]. rewrite Ed. by eapply hi_large.
  - intros k c q Hq. destruct (hi_active _ _ _ _ _ _ Hi k c q Hq) as (-> & sq & Hsq & Ek). split; [done|]. exists sq.
    split; [|done]. apply lookup_delete_Some. split; [|done]. intros <-. by eapply Hact.
  - intros x. rewrite (hi_frames _ _ _ _ _ _ Hi), Hpool, (in_use_delete G L p x) by eauto. tauto.
Qed.

Lemma retire_page_ok B G L s p sp :
  heap_inv B G L s → G !! p = Some sp →
  ∃ s' B', retire_page (sp_cache sp) cpu p s = Ret s' ∧ heap_inv B' (delete p G) L s' ∧ sl_mem s' = sl_mem s ∧
    sl_base s' = sl_base s ∧ params (sl_pmm s') = params (sl_pmm s) ∧ ∀ x, pool (sl_pmm s') x ↔ pool (sl_pmm s) x ∨ x = p.
Proof.
  intros Hi Hp. unfold retire_page. set (k := sp_cache sp).
  set (s1 := if bool_decide _ then _ else s). 
  assert (Hs1 : heap_inv B G L s1 ∧ sl_pmm s1 = sl_pmm s ∧ sl_mem s1 = sl_mem s ∧ sl_base s1 = sl_base s).
  { unfold s1. case_bool_decide; [|done]. split; [by apply set_active_ok|done]. }
  destruct Hs1 as (Hi1 & Em & Emem & Eb).
  assert (Hact : ∀ j c, cpu_slab_ (cache_at s1 j) !! c ≠ Some p).
  { intros j c Ha. destruct (hi_active _ _ _ _ _ _ Hi1 j c p Ha) as (-> & sq & Hq & <-). simplify_eq. fold k in Ha.
    unfold s1 in Ha. case_bool_decide as E; [|done]. unfold set_active in Ha. rewrite cache_at_set, decide_True in Ha by done.
    cbn in Ha. by rewrite lookup_partial_alter, decide_True in Ha. }
  change (sl_pmm (set_meta _ _ s1)) with (sl_pmm s1).
  destruct (pmm_free_page_ok B (sl_pmm s1) cpu p) as (m & B' & -> & Hwf & Hf & Hpool & Hpar); [apply Hi1|by eapply slab_owned|].
  cbn [mbind outcome_bind]. eexists _, B'. split; [done|]. split; [by eapply heap_del_slab|].
  cbn. rewrite Em in Hpool, Hpar. done.
Qed.

(** The objects afterwards are those before without the one at [a]. *)
Record shrunk (G : gmap Z spage) (L : gmap Z nat) (s : slab) (a : Z) (G' : gmap Z spage) (L' : gmap Z nat) (s' : slab) : Prop := {
  sh_objects b y : object G' L' s' b y ↔ object G L s b y ∧ b ≠ a;
  sh_kept b y x : object G L s b y → b ≠ a → b ≤ x < b + y → sl_mem s' !! x = sl_mem s !! x;
}.

Definition release_result (G : gmap Z spage) (L : gmap Z nat) (s : slab) (a : Z) (s' : slab) : Prop :=
  sl_base s' = sl_base s ∧ params (sl_pmm s') = params (sl_pmm s) ∧
  ∃ B' G' L', heap_inv B' G' L' s' ∧ all_used G' ∧ shrunk G L s a G' L' s'.

(** An object returns to the chain of its page. *)
Lemma push_object_ok B G L s p sp a live :
  heap_inv B G L s → G !! p = Some sp → sp_live sp ≡ₚ a :: live →
  let d := meta_at s p in
  let s1 := set_meta p (mkMeta (cache d) (u32 (obj_count d - 1)) a) (with_mem <[a := freelist d]> s) in
  u32 (obj_count d - 1) = Z.of_nat (length live) ∧
  heap_inv B (<[p := mkSp (sp_cache sp) (a :: sp_free sp) live]> G) L s1.
Proof.
  intros Hi Hp Hl d s1. destruct (hi_slab _ _ _ _ _ _ Hi p sp Hp) as [_ Hpg]. pose proof (page_objects _ _ _ _ _ _ _ _ Hi Hp) as Hn.
  pose proof (pg_class _ _ _ Hpg) as Hk. destruct (class_facts _ Hk) as (Hz & _).
  assert (Ha : a ∈ slots (page_va s p) (class (sp_cache sp))) by (eapply live_slot; [done..|]; rewrite Hl; by left).
  assert (Hnd : NoDup (sp_free sp ++ a :: live)) by (rewrite <- Hl, (pg_slots _ _ _ Hpg); apply NoDup_slots; lia).
  apply NoDup_app in Hnd as (_ & Hnd & _).
  pose proof (Permutation_length Hl) as El. cbn [length] in El.
  assert (Ec : u32 (obj_count d - 1) = Z.of_nat (length live)) by (unfold d; rewrite (pg_count _ _ _ Hpg), wrap_small by lia; lia).
  split; [done|]. apply (heap_set_slab cpu F B G L s s1 p sp); try done.
  - destruct Hpg as [H1 H2 H3 H4 H5 H6]. unfold s1. split; rewrite ?meta_at_set, ?decide_True by done; cbn [cache obj_count freelist sp_cache sp_live sp_free]; try done.
    + cbn. apply chain_push; [done| |].
      * intros Hin. apply (Hnd a Hin). by left.
      * pose proof (slot_in_page _ _ Hk a Ha). pose proof (page_va_pos s (hi_layout _ _ _ _ _ _ Hi) p (slab_frame _ _ _ _ _ _ Hi p sp Hp)). lia.
    + rewrite Hl in H6. etrans; [|exact H6]. cbn. apply Permutation_middle.
  - intros q Hq. unfold s1. by rewrite meta_at_set, decide_False.
  - intros q sq b Hne Hq Hb. cbn. rewrite lookup_insert_ne; [done|]. destruct (hi_slab _ _ _ _ _ _ Hi q sq Hq) as [_ Hpq].
    apply (slots_differ s p q (sp_cache sp) (sp_cache sq)); [done|apply Hpq|done| |done].
    rewrite <- (pg_slots _ _ _ Hpq), elem_of_app. auto.
Qed.

Lemma free_ok B G L s p sp a :
  heap_inv B G L s → all_used G → G !! p = Some sp → a ∈ sp_live sp →
  ∃ s', free (sp_cache sp) cpu a s = Ret s' ∧ release_result G L s a s'.
Proof.
  intros Hi Hu Hp Ha. destruct (hi_slab _ _ _ _ _ _ Hi p sp Hp) as [_ Hpg].
  pose proof (pg_class _ _ _ Hpg) as Hk. destruct (class_facts _ Hk) as (Hz & _).
  pose proof (slot_in_page _ _ Hk a (live_slot _ _ _ _ _ _ Hi p sp a Hp Ha)) as Hr.
  pose proof (slab_frame _ _ _ _ _ _ Hi p sp Hp) as Hpn. pose proof (page_va_pos s (hi_layout _ _ _ _ _ _ Hi) p Hpn) as Hpos.
  unfold free. rewrite (proj2 (Z.eqb_neq a 0)) by lia. rewrite (page_of_ok s (hi_layout _ _ _ _ _ _ Hi) p Hpn a) by lia.
  cbn [mbind outcome_bind]. rewrite (pg_desc _ _ _ Hpg), (pg_cache _ _ _ Hpg). cbn [state].
  rewrite !bool_decide_false by (intros H; by apply H). cbn [orb].
  apply elem_of_Permutation in Ha as [live Hl]. destruct (push_object_ok B G L s p sp a live Hi Hp Hl) as [En Hi1].
  rewrite (pg_cache _ _ _ Hpg) in Hi1. rewrite En in *. set (s1 := set_meta p _ _) in *. set (sp1 := mkSp _ (a :: _) live) in Hi1.
  assert (Hobj : ∀ b y, object G L s b y ↔ object (<[p := sp1]> G) L s b y ∨ (b = a ∧ y = class (sp_cache sp))).
  { intros b y. unfold sp1. rewrite <- object_take. symmetry. apply (object_same G L s p sp); [done|done|].
    intros c. cbn [sp_live]. by rewrite Hl. }
  assert (Ha : object G L s a (class (sp_cache sp))) by (apply Hobj; auto).
  assert (Hs1 : shrunk G L s a (<[p := sp1]> G) L s1).
  { split.
    - intros b y. rewrite (object_va _ _ s s1) by done. rewrite Hobj. split; [|tauto]. intros Hb. split; [by left|]. intros ->.
      apply (free_not_object cpu F B (<[p := sp1]> G) L s1 p sp1 a y); [done|by rewrite lookup_insert_eq|by left|].
      by apply (object_va _ _ s).
    - intros b y x Hb Hne Hx. cbn. rewrite lookup_insert_ne; [done|]. intros <-.
      destruct (objects_apart _ _ _ _ _ _ Hi b y a _ Hb Ha Hne); lia. }
  destruct (Z.eqb_spec (Z.of_nat (length live)) 0) as [E0|Hn0].
  - assert (live = []) as -> by (destruct live; [done|cbn in E0; lia]).
    destruct (retire_page_ok B _ L s1 p sp1 Hi1) as (s2 & B2 & E2 & Hi2 & Em & Eb & Epar & _); [by rewrite lookup_insert_eq|].
    change (sp_cache sp1) with (sp_cache sp) in E2. rewrite E2. exists s2. split; [done|]. split; [done|]. split; [exact Epar|].
    eexists B2, _, L. split; [exact Hi2|]. rewrite delete_insert_eq. split.
    { intros q sq [_ Hq]%lookup_delete_Some. by eapply Hu. }
    destruct Hs1 as [S1 S2]. split; [|intros b y x; rewrite Em; apply S2].
    intros b y. rewrite <- S1. rewrite (object_va _ _ s1 s2) by (intros q; by apply page_va_params).
    rewrite <- insert_delete_eq. unfold sp1, object. setoid_rewrite object_in_new; [done|apply lookup_delete_eq].
  - exists s1. split; [done|]. split; [done|]. split; [done|]. eexists B, _, L. split; [exact Hi1|]. split; [|done].
    intros q sq [[<- <-]|[_ Hq]]%lookup_insert_Some; [|by eapply Hu]. cbn. intros ->. done.
Qed.

(** ** Large blocks *)

(** The smallest order whose block holds the pages needed. *)
Lemma order_loop_ok needed :
  0 ≤ needed ≤ 2 ^ 20 →
  ∃ o, loop 8 (order_step needed) 0 = inr (Z.of_nat o) ∧ needed ≤ pow2 o ∧ (o = 0%nat ∨ pow2 (o - 1) < needed).
Proof using.
  clear. intros Hn.
  destruct (loop_total (order_step needed) (λ o, 0 ≤ o ≤ 20 ∧ (o = 0 ∨ 2 ^ (o - 1) < needed)) (λ o, 20 - o)
    (λ r, ∃ o, r = Z.of_nat o ∧ needed ≤ pow2 o ∧ (o = 0%nat ∨ pow2 (o - 1) < needed))) with (k := 8%nat) (s := 0)
    as (r & E & o & -> & Ho); [|lia|lia|by eauto].
  intros o [Ho Hlt]. unfold order_step. rewrite Z.shiftl_mul_pow2, Z.mul_1_l by lia.
  assert (2 ^ o ≤ 2 ^ 20) by (apply Z.pow_le_mono_r; lia). assert (0 < 2 ^ o) by (apply Z.pow_pos_nonneg; lia).
  rewrite wrap_small by (change (2 ^ 64) with (2 ^ 20 * 2 ^ 44); lia).
  destruct (Z.ltb_spec (2 ^ o) needed) as [Hl|Hge].
  - assert (o ≠ 20) by (intros ->; lia). split; [|lia]. split; [lia|]. right. by replace (o + 1 - 1) with o by lia.
  - exists (Z.to_nat o). rewrite Z2Nat.id by lia. split; [done|]. unfold pow2. rewrite Z2Nat.id by lia. split; [done|].
    destruct Hlt as [-> |Hlt]; [by left|]. destruct (decide (o = 0)) as [-> |]; [by left|]. right.
    by replace (Z.of_nat (Z.to_nat o - 1)) with (o - 1) by lia.
Qed.

Lemma in_use_large G L p o x : L !! p = None → in_use G (<[p := o]> L) x ↔ in_use G L x ∨ in_block p o x.
Proof using.
  clear. intros Hp. unfold in_use. split.
  - intros [?|(q & oq & [[<- <-]|[_ Hq]]%lookup_insert_Some & Hx)]; eauto 10.
  - intros [[?|(q & oq & Hq & Hx)]|Hx]; [by left| |]; right.
    + exists q, oq. rewrite lookup_insert_ne by congruence. done.
    + exists p, o. by rewrite lookup_insert_eq.
Qed.

(** A block from the buddy system joins the heap. *)
Lemma heap_add_large B G L s p o m :
  heap_inv B G L s → pmm_alloc_pages o (sl_pmm s) = (Some p, m) →
  params m = params (sl_pmm s) ∧ L !! p = None ∧ G !! p = None ∧
  ∃ B', heap_inv B' G (<[p := o]> L) (with_pmm m s).
Proof.
  intros Hi E. destruct (pmm_alloc_pages_Some B (sl_pmm s) o p m (hi_wf _ _ _ _ _ _ Hi) E) as (B' & Hwf & HP & Hpool).
  pose proof (params_env _ _ (ap_env _ _ _ _ _ _ HP)) as Hpar.
  assert (Hf : ∀ q oq, owned B (sl_pmm s) q oq → B' !! q = Some oq ∧ page_at m q = page_at (sl_pmm s) q ∧ q ≠ p).
  { intros q oq Hq. apply (ap_frame _ _ _ _ _ _ HP); [apply Hq|by eapply owned_not_free]. }
  assert (HpL : L !! p = None).
  { destruct (L !! p) as [o'|] eqn:El; [|done]. by destruct (Hf p o' (large_owned _ _ _ _ _ _ Hi p o' El)) as (_ & _ & ?). }
  assert (HpG : G !! p = None).
  { destruct (G !! p) as [sp|] eqn:El; [|done]. by destruct (Hf p 0%nat (slab_owned _ _ _ _ _ _ Hi p sp El)) as (_ & _ & ?). }
  split_and!; [done|done|done|]. exists B'. split; cbn [with_pmm sl_pmm sl_base].
  - done.
  - replace (g_pcp_batch_size m) with (g_pcp_batch_size (sl_pmm s)) by (unfold params in Hpar; congruence). apply Hi.
  - eapply layout_params; [done|apply Hi].
  - apply Hi.
  - intros q sq Hq. destruct (Hf q 0%nat (slab_owned _ _ _ _ _ _ Hi q sq Hq)) as (? & Ed & _). split; [done|].
    apply (page_inv_frame s); [by eapply hi_slab|done|done|done|by apply page_va_params].
  - intros q oq [[<- <-]|[Hne Hq]]%lookup_insert_Some; [split; [exact (ap_block _ _ _ _ _ _ HP)|exact (ap_desc _ _ _ _ _ _ HP)]|].
    destruct (Hf q oq (large_owned _ _ _ _ _ _ Hi q oq Hq)) as (? & Ed & _). split; [done|]. rewrite Ed. by eapply hi_large.
  - apply Hi.
  - intros x. rewrite (hi_frames _ _ _ _ _ _ Hi), in_use_large, Hpool by done.
    assert (in_block p o x → pool (sl_pmm s) x) as Ht.
    { intros Hx. left. rewrite <- (avail_free_page B) by apply (hi_wf _ _ _ _ _ _ Hi). exact (ap_taken _ _ _ _ _ _ HP x Hx). }
    destruct (decide (in_block p o x)); tauto.
Qed.

Lemma large_grown B G L s p o m :
  heap_inv B G L s → pmm_alloc_pages o (sl_pmm s) = (Some p, m) →
  grown G L s (page_va s p) (kPageSize * pow2 o) G (<[p := o]> L) (with_pmm m s).
Proof.
  intros Hi E. destruct (heap_add_large B G L s p o m Hi E) as (Hpar & HpL & HpG & B' & Hi').
  assert (Ev : ∀ q, page_va (with_pmm m s) q = page_va s q) by (intros q; by apply page_va_params).
  destruct (hi_large _ _ _ _ _ _ Hi' p o) as [Hb _]; [by rewrite lookup_insert_eq|]. split; [| |done].
  - intros b y. rewrite (object_va _ _ s) by done. unfold object, object_in. setoid_rewrite lookup_insert. split.
    + intros [q [Hq|(oq & Hq & -> & ->)]]; [by eauto|]. case_decide; simplify_eq; eauto 10.
    + intros [[q [Hq|(oq & Hq & -> & ->)]]|[-> ->]].
      * exists q. by left.
      * exists q. right. exists oq. rewrite decide_False by congruence. done.
      * exists p. right. exists o. by rewrite decide_True.
  - intros y [q Hq]. destruct (object_block _ _ _ _ _ _ Hi q _ y Hq) as (oq & Hown & Hlo & Hhi & H8 & _).
    destruct Hq as [(sq & Hq & _)|(oq' & Hq & Eq & _)]; [|unfold page_va, kPageSize in Eq; assert (p = q) by lia; congruence].
    assert (oq = 0%nat) as -> by (destruct (hi_slab _ _ _ _ _ _ Hi q sq Hq) as [Hqb _]; destruct Hown as [Hown _]; congruence).
    assert (p ≠ q) as Hne by congruence. destruct (hi_slab _ _ _ _ _ _ Hi' q sq Hq) as [Hqb _].
    destruct (blocks_apart _ _ _ _ _ _ Hi' p o q 0%nat Hb Hqb Hne); change (pow2 0) with 1 in *;
      pose proof (pow2_pos o); unfold page_va, kPageSize in *; lia.
Qed.

Lemma kmalloc_large_ok B G L s size :
  heap_inv B G L s → 2048 < size < 2 ^ 32 →
  ∃ a s', kmalloc_large size s = Ret (a, s') ∧ sl_base s' = sl_base s ∧ params (sl_pmm s') = params (sl_pmm s) ∧
  ((a = 0 ∧ s' = s ∧ ∀ o, (o < kMaxOrder)%nat → size ≤ kPageSize * pow2 o → area (sl_pmm s) o = []) ∨
   (a ≠ 0 ∧ ∃ B' L' z, heap_inv B' G L' s' ∧ grown G L s a z G L' s' ∧ size ≤ z < 2 * size)).
Proof.
  intros Hi Hs. unfold kmalloc_large. rewrite wrap_small by (unfold kPageSize; lia).
  set (needed := (size + kPageSize - 1) / kPageSize).
  assert (Hn : kPageSize * (needed - 1) < size ≤ kPageSize * needed).
  { unfold needed, kPageSize. pose proof (Z.div_mod (size + 4096 - 1) 4096). pose proof (Z.mod_pos_bound (size + 4096 - 1) 4096). lia. }
  destruct (order_loop_ok needed) as (o & -> & Hge & Hmin); [unfold kPageSize in *; lia|]. rewrite Nat2Z.id.
  destruct (pmm_alloc_pages o (sl_pmm s)) as [[p|] m] eqn:E.
  - destruct (heap_add_large B G L s p o m Hi E) as (Hpar & HpL & HpG & B' & Hi').
    assert (Hp : 0 ≤ p < g_num_pages m).
    { destruct (hi_large _ _ _ _ _ _ Hi' p o) as [Hb _]; [by rewrite lookup_insert_eq|].
      pose proof (block_bounds _ _ _ _ _ _ Hi' p o Hb). cbn in *. lia. }
    pose proof (page_va_pos (with_pmm m s) (hi_layout _ _ _ _ _ _ Hi') p Hp) as Hpos.
    rewrite (page_to_data_va_ok (with_pmm m s) (hi_layout _ _ _ _ _ _ Hi') p Hp). cbn [mbind outcome_bind].
    eexists _, _. split; [done|]. split; [done|]. split; [done|]. right. split; [lia|]. exists B', (<[p := o]> L), (kPageSize * pow2 o).
    assert (Ev : page_va (with_pmm m s) p = page_va s p) by (by apply page_va_params).
    rewrite Ev. split_and!; [done|by eapply large_grown|nia|].
    destruct Hmin as [-> |Hmin]; [change (pow2 0) with 1; unfold kPageSize; lia|].
    destruct o as [|o]; [change (pow2 0) with 1; unfold kPageSize; lia|]. replace (S o - 1)%nat with o in Hmin by lia.
    rewrite pow2_S. unfold kPageSize in *. nia.
  - unfold pmm_alloc_pages in E. eexists 0, _. split; [done|]. assert (m = s.(sl_pmm) ∧ ∀ o', (o ≤ o' < kMaxOrder)%nat → area (sl_pmm s) o' = []) as [-> Har].
    { destruct (Nat.leb_spec kMaxOrder o); [injection E as <-; split; [done|]; lia|].
      apply buddy_alloc_from_None in E as [-> Har]. split; [done|]. intros o' Ho'. apply Har. lia. }
    split; [done|]. split; [done|]. left. split_and!; [done|by destruct s|]. intros o' Ho' Hsz. apply Har. split; [|done].
    destruct (decide (o ≤ o')%nat); [done|]. exfalso. destruct Hmin as [-> |Hmin]; [lia|].
    assert (pow2 o' ≤ pow2 (o - 1)) by (unfold pow2; apply Z.pow_le_mono_r; lia). unfold kPageSize in *. nia.
Qed.

(** ** The public interface *)

Lemma find_from_ok l i size :
  match find_from l i size with
  | Some k => ∃ n c, k = i + Z.of_nat n ∧ l !! n = Some c ∧ size ≤ c ∧ ∀ j d, (j < n)%nat → l !! j = Some d → d < size
  | None => Forall (λ c, c < size) l
  end.
Proof using.
  clear. revert i. induction l as [|c l IH]; intros i; cbn [find_from]; [constructor|].
  destruct (Z.leb_spec size c); [exists 0%nat, c; split_and!; [lia|done|done|lia]|].
  specialize (IH (i + 1)). destruct (find_from l (i + 1) size) as [k|]; [|by constructor].
  destruct IH as (n & d & -> & Hn & Hd & Hmin). exists (S n), d. split_and!; [lia|done|done|].
  intros [|j] e Hj; cbn; [by intros [= <-]|]. intros He. apply (Hmin j e); [lia|done].
Qed.

(** The size class chosen is the smallest that fits. *)
Lemma find_cache_ok size :
  0 < size ≤ 2048 → ∃ k, find_cache size = Some k ∧ 0 ≤ k < kNumSizeClasses ∧ size ≤ class k ∧ (class k = 8 ∨ class k < 2 * size).
Proof using.
  clear. intros Hs. pose proof (find_from_ok kSizeClasses 0 size) as H. unfold find_cache.
  destruct (find_from kSizeClasses 0 size) as [k|].
  - destruct H as (n & c & -> & Hn & Hc & Hmin). exists (0 + Z.of_nat n). split; [done|]. unfold class, kNumSizeClasses.
    rewrite Z.add_0_l, Nat2Z.id, Hn. pose proof (lookup_lt_Some _ _ _ Hn) as Hl. cbn [length kSizeClasses] in Hl. cbn [default].
    split_and!; [lia|lia|done|]. destruct n as [|n]; [injection Hn as <-; by left|]. right.
    destruct (lookup_lt_is_Some_2 kSizeClasses n) as [d Hd]; [cbn; lia|]. pose proof (Hmin n d ltac:(lia) Hd).
    assert (c = 2 * d); [|simpl; lia]. do 8 (destruct n as [|n]; [vm_compute in Hn, Hd; injection Hn as <-; by injection Hd as <-|]). lia.
  - exfalso. rewrite Forall_forall in H. pose proof (H 2048 ltac:(apply (bool_decide_unpack _); by vm_compute)). lia.
Qed.

(** Why an allocation fails. *)
Definition refused (s : slab) (size : Z) : Prop :=
  size = 0 ∨ (size ≤ 2048 ∧ exhausted cpu s) ∨
  (2048 < size ∧ ∀ o, (o < kMaxOrder)%nat → size ≤ kPageSize * pow2 o → area (sl_pmm s) o = []).

Lemma kmalloc_ok B G L s size :
  heap_inv B G L s → all_used G → 0 ≤ size < 2 ^ 32 →
  ∃ a s', kmalloc cpu size s = Ret (a, s') ∧ sl_base s' = sl_base s ∧ params (sl_pmm s') = params (sl_pmm s) ∧
  ((a = 0 ∧ refused s size ∧ sl_mem s' = sl_mem s ∧ ∃ B', heap_inv B' G L s') ∨
   (a ≠ 0 ∧ ∃ B' G' L' z, heap_inv B' G' L' s' ∧ all_used G' ∧ grown G L s a z G' L' s' ∧
      size ≤ z ∧ (z = 8 ∨ z < 2 * size))).
Proof.
  intros Hi Hu Hs. unfold kmalloc. destruct (Z.eqb_spec size 0) as [->|Hne].
  { exists 0, s. split_and!; [done..|]. left. split_and!; [done|by left|done|by eauto]. }
  change (default 0 (last kSizeClasses)) with 2048. destruct (Z.ltb_spec 2048 size).
  - destruct (kmalloc_large_ok B G L s size Hi) as (a & s' & -> & Eb & Ep & R); [lia|]. exists a, s'. split_and!; [done..|].
    destruct R as [(-> & -> & Har)|(Ha & B' & L' & z & Hi' & Hg & Hz)]; [left|right].
    + split_and!; [done| |done|by eauto]. right. right. done.
    + split; [done|]. exists B', G, L', z. split_and!; [done|done|done|lia|right; lia].
  - destruct (find_cache_ok size) as (k & -> & Hk & Hfit & Hmin); [lia|].
    destruct (alloc_ok cpu F B G L s k Hi Hu Hk) as (a & s' & -> & Eb & Ep & R). exists a, s'. split_and!; [done..|].
    destruct R as [(-> & Hex & Em & B' & Hi')|(Ha & B' & G' & Hi' & Hu' & Hg)]; [left|right].
    + split_and!; [done| |done|by eauto]. right. left. done.
    + split; [done|]. exists B', G', L, (class k). done.
Qed.

(** A large block leaves the heap. *)
Lemma heap_del_large B G L s p o B' m :
  heap_inv B G L s → L !! p = Some o → pmm_wf B' m → params m = params (sl_pmm s) →
  (∀ q oq, owned B (sl_pmm s) q oq → q ≠ p → B' !! q = Some oq ∧ page_at m q = page_at (sl_pmm s) q) →
  (∀ x, pool m x ↔ pool (sl_pmm s) x ∨ in_block p o x) → heap_inv B' G (delete p L) (with_pmm m s).
Proof.
  intros Hi Hp Hwf Hpar Hf Hpool.
  split; cbn [with_pmm sl_pmm sl_base].
  + done.
  + replace (g_pcp_batch_size m) with (g_pcp_batch_size (sl_pmm s)) by (unfold params in Hpar; congruence). apply Hi.
  + eapply layout_params; [done|apply Hi].
  + apply Hi.
  + intros q sq Hq. destruct (Hf q 0%nat) as [? Ed]; [by eapply slab_owned|intros ->; by eapply slab_not_large|]. split; [done|].
    apply (page_inv_frame s); [by eapply hi_slab|done|done|done|by apply page_va_params].
  + intros q oq [Hne Hq]%lookup_delete_Some. destruct (Hf q oq) as [? Ed]; [by eapply large_owned|done|]. split; [done|].
    rewrite Ed. by eapply hi_large.
  + apply Hi.
  + intros x. rewrite (hi_frames _ _ _ _ _ _ Hi), Hpool. rewrite <- (insert_delete_id L p o Hp) at 1.
    rewrite in_use_large by apply lookup_delete_eq. tauto.
Qed.

(** Giving a large block back. *)
Lemma free_large_ok B G L s p o :
  heap_inv B G L s → all_used G → L !! p = Some o →
  ∃ m, pmm_free_pages (Some p) o (sl_pmm s) = Ret m ∧ release_result G L s (page_va s p) (with_pmm m s).
Proof.
  intros Hi Hu Hp. pose proof (large_owned _ _ _ _ _ _ Hi p o Hp) as Ho.
  destruct (pmm_free_pages_ok B (sl_pmm s) p o (hi_wf _ _ _ _ _ _ Hi) Ho) as (m & B' & -> & Hwf & Hf & Hpool & Hpar).
  exists m. split; [done|]. split; [done|]. split; [done|].
  exists B', G, (delete p L). split_and!; [by eapply heap_del_large|done|].
  split; [|done]. intros b y. rewrite (object_va _ _ s) by (intros q; by apply page_va_params).
  assert (Hpo : object_in G L s p (page_va s p) (kPageSize * pow2 o)) by (right; eauto).
  split.
  + intros [q [Hq|(oq & [Hne Hq]%lookup_delete_Some & -> & ->)]].
    * split; [exists q; by left|]. intros ->. destruct Hq as (sq & Hq & Hb & ->).
      destruct (hi_slab _ _ _ _ _ _ Hi q sq Hq) as [_ Hpg]. pose proof (slot_in_page _ _ (pg_class _ _ _ Hpg) _ (live_slot _ _ _ _ _ _ Hi q sq _ Hq Hb)).
      destruct (class_facts _ (pg_class _ _ _ Hpg)) as (? & _). pose proof (pow2_pos o).
      destruct (object_home cpu F B G L s q sq p _ _ (page_va s p) Hi Hq Hpo) as (-> & _ & _); [unfold kPageSize; lia|unfold kPageSize in *; lia|].
      by eapply slab_not_large.
    * split; [exists q; right; by eauto|]. unfold page_va, kPageSize. lia.
  + intros [[q [Hq|(oq & Hq & -> & ->)]] Hne]; exists q; [by left|]. right. exists oq. split; [|done].
    apply lookup_delete_Some. split; [|done]. by intros ->.
Qed.

Lemma kfree_ok B G L s a z :
  heap_inv B G L s → all_used G → object G L s a z →
  ∃ s', kfree cpu a s = Ret s' ∧ release_result G L s a s'.
Proof.
  intros Hi Hu [p Ho]. destruct (object_block _ _ _ _ _ _ Hi p a z Ho) as (o & [Hb _] & Hlo & Hhi & H8 & _).
  destruct (block_bounds _ _ _ _ _ _ Hi p o Hb) as (? & ? & ?). assert (Hpn : 0 ≤ p < g_num_pages (sl_pmm s)) by lia.
  pose proof (page_va_pos s (hi_layout _ _ _ _ _ _ Hi) p Hpn) as Hpos.
  unfold kfree. rewrite (proj2 (Z.eqb_neq a 0)) by lia. destruct Ho as [(sp & Hp & Ha & ->)|(o' & Hp & -> & ->)].
  - destruct (hi_slab _ _ _ _ _ _ Hi p sp Hp) as [Hb0 Hpg]. assert (o = 0%nat) as -> by congruence. change (pow2 0) with 1 in Hhi.
    rewrite (page_of_ok s (hi_layout _ _ _ _ _ _ Hi) p Hpn a) by lia. cbn [mbind outcome_bind].
    rewrite (pg_desc _ _ _ Hpg), (pg_cache _ _ _ Hpg). cbn [state]. by apply (free_ok B G L s p sp a).
  - rewrite (page_of_ok s (hi_layout _ _ _ _ _ _ Hi) p Hpn) by (unfold kPageSize; lia). cbn [mbind outcome_bind].
    destruct (hi_large _ _ _ _ _ _ Hi p o' Hp) as [_ ->]. cbn [state order].
    destruct (free_large_ok B G L s p o' Hi Hu Hp) as (m & -> & R). by exists (with_pmm m s).
Qed.

(** A client that writes into its objects does not disturb the heap. *)
Lemma poke_ok B G L s a z x v :
  heap_inv B G L s → object G L s a z → a ≤ x < a + z → (8 | x - a) → heap_inv B G L (with_mem <[x := v]> s).
Proof.
  intros Hi Ho Hx H8. split; try apply Hi. intros p sp Hp. destruct (hi_slab _ _ _ _ _ _ Hi p sp Hp) as [? Hpg]. split; [done|].
  apply (page_inv_frame s); [done|done|done| |done]. intros b Hb. cbn. apply lookup_insert_ne. intros <-.
  assert (Hs : x ∈ slots (page_va s p) (class (sp_cache sp))) by (rewrite <- (pg_slots _ _ _ Hpg), elem_of_app; auto).
  destruct Ho as [q Ho]. pose proof (slot_in_page _ _ (pg_class _ _ _ Hpg) x Hs) as Hr. destruct (class_facts _ (pg_class _ _ _ Hpg)) as (Hz & _).
  destruct (object_home cpu F B G L s p sp q a z x Hi Hp Ho Hx) as (-> & Ha & ->); [lia|].
  destruct (decide (x = a)) as [->|Hne].
  - by apply (free_not_object cpu F B G L s p sp a (class (sp_cache sp)) Hi Hp Hb); exists p.
  - destruct (slots_apart _ _ (pg_class _ _ _ Hpg) x a Hs) as [?|?]; [by eapply live_slot|done|lia|lia].
Qed.
End free.
