(* ===== verification/SlabHeap.v ===== *)
(** * SlabHeap: the kernel heap in use

    Clients allocate, write to their objects and free them in any order.  The
    properties hold for one CPU; the last one shows why not for more. *)

From S2P Require Import Prelude Bits Memblock Pmm PmmInit Slab SlabInv SlabSteps SlabFree.

(** ** Clients *)

(** The objects in the clients' hands, with the sizes they asked for. *)
Record kheap := mkKheap { kh_slab : slab; kh_held : gmap Z Z }.

Inductive heap_op :=
| Kmalloc (size : Z)
| Kfree (a : Z)
| Poke (a x v : Z). (* write [v] to the word at [x] of the object at [a] *)

Definition heap_allowed (op : heap_op) (h : kheap) : bool :=
  match op with
  | Kmalloc size => (0 <=? size) && (size <? 2 ^ 32)
  | Kfree a => (a =? 0) || bool_decide (is_Some (kh_held h !! a))
  | Poke a x _ =>
      match kh_held h !! a with Some n => (a <=? x) && (x <? a + n) && ((x - a) mod 8 =? 0) | None => false end
  end.

Definition heap_exec (cpu : Z) (op : heap_op) (h : kheap) : outcome kheap :=
  match op with
  | Kmalloc size =>
      '(a, s) ← kmalloc cpu size (kh_slab h);
      Ret (mkKheap s (if a =? 0 then kh_held h else <[a := size]> (kh_held h)))
  | Kfree a => s ← kfree cpu a (kh_slab h); Ret (mkKheap s (delete a (kh_held h)))
  | Poke _ x v => Ret (mkKheap (with_mem <[x := v]> (kh_slab h)) (kh_held h))
  end.

Inductive heap_reachable (cpu : Z) (h0 : kheap) : kheap → Prop :=
| heap_refl : heap_reachable cpu h0 h0
| heap_step op h h' :
    heap_reachable cpu h0 h → heap_allowed op h = true → heap_exec cpu op h = Ret h' → heap_reachable cpu h0 h'.

(** The state [slab_init] starts from, after [pmm_init]. *)
Record heap_boot (mb : memblock) (N base : Z) (m : pmm) (s : slab) : Prop := {
  hb_layout : boot_layout mb N;
  hb_pmm : ∃ total, pmm_init N mb = Ret (total, m, memblock_retire mb);
  hb_map : layout_ok base m;
  hb_slab : ∃ meta mem, s = slab_init (mkSlab m meta mem ∅ base);
}.

Section heap.
Context (cpu : Z) (F : Z → Prop).

Definition heap_good (h : kheap) : Prop :=
  ∃ B G L, heap_inv cpu F B G L (kh_slab h) ∧ all_used G ∧
    (∀ a, is_Some (kh_held h !! a) ↔ ∃ z, object G L (kh_slab h) a z) ∧
    (∀ a n z, kh_held h !! a = Some n → object G L (kh_slab h) a z → 0 < n ≤ z).

Lemma held_object h G L a n :
  (∀ a, is_Some (kh_held h !! a) ↔ ∃ z, object G L (kh_slab h) a z) →
  (∀ a n z, kh_held h !! a = Some n → object G L (kh_slab h) a z → 0 < n ≤ z) →
  kh_held h !! a = Some n → ∃ z, object G L (kh_slab h) a z ∧ 0 < n ≤ z.
Proof. intros H1 H2 Ha. destruct (proj1 (H1 a)) as [z Hz]; eauto. Qed.

(** What an operation leaves alone: the words of the objects held before and after. *)
Definition contents_kept (h h' : kheap) : Prop :=
  ∀ a n x, kh_held h !! a = Some n → kh_held h' !! a = Some n → a ≤ x < a + n →
    sl_mem (kh_slab h') !! x = sl_mem (kh_slab h) !! x.

Lemma kmalloc_good h size :
  heap_good h → 0 ≤ size < 2 ^ 32 →
  ∃ a s', kmalloc cpu size (kh_slab h) = Ret (a, s') ∧
    let h' := mkKheap s' (if a =? 0 then kh_held h else <[a := size]> (kh_held h)) in
    heap_good h' ∧ contents_kept h h' ∧ (a = 0 → refused cpu (kh_slab h) size) ∧ (a ≠ 0 → 0 < size ∧ kh_held h !! a = None).
Proof.
  intros (B & G & L & Hi & Hu & H1 & H2) Hs.
  destruct (kmalloc_ok cpu F B G L _ size Hi Hu Hs) as (a & s' & E & Eb & Ep & R). exists a, s'. split; [done|].
  assert (Ev : ∀ q, page_va s' q = page_va (kh_slab h) q) by (intros q; by apply page_va_params).
  destruct R as [(-> & Hr & Em & B' & Hi')|(Ha & B' & G' & L' & z & Hi' & Hu' & [R1 R2 R3] & Hz & _)].
  - cbn [Z.eqb]. split_and!; [|intros a n x _ _ _; cbn; by rewrite Em|done|done]. exists B', G, L. cbn [kh_slab kh_held].
    split_and!; [done|done| |]; intros a; setoid_rewrite (object_va G L (kh_slab h) s'); eauto.
  - rewrite (proj2 (Z.eqb_neq a 0)) by done.
    assert (Hn : kh_held h !! a = None).
    { destruct (kh_held h !! a) as [n|] eqn:En; [|done]. destruct (proj1 (H1 a)) as [y Hy]; [by eauto|]. by destruct (R2 y). }
    assert (Hs0 : size ≠ 0).
    { intros ->. unfold kmalloc in E. cbn in E. by injection E as <- _. }
    split_and!; [| |done|split; [lia|done]].
    + exists B', G', L'. cbn [kh_slab kh_held]. split_and!; [done|done| |].
      * intros b. setoid_rewrite R1. rewrite lookup_insert. case_decide as Eab; [subst b|].
        -- split; [|by eauto]. intros _. exists z. by right.
        -- rewrite H1. split; [intros [y Hy]; exists y; by left|]. intros [y [Hy|[-> _]]]; [by exists y|done].
      * intros b n y [[<- <-]|[Hne Hb]]%lookup_insert_Some [Hy|[Hba ->]]%R1; [by destruct (R2 y)|lia|by eapply H2|congruence].
    + intros b n x Hb _ Hx. cbn. destruct (held_object h G L b n H1 H2 Hb) as (y & Hy & Hny). apply (R3 b y x Hy). lia.
Qed.

Lemma kfree_good h a :
  heap_good h → is_Some (kh_held h !! a) →
  ∃ s', kfree cpu a (kh_slab h) = Ret s' ∧
    let h' := mkKheap s' (delete a (kh_held h)) in heap_good h' ∧ contents_kept h h'.
Proof.
  intros (B & G & L & Hi & Hu & H1 & H2) Ha. destruct (proj1 (H1 a) Ha) as [z Hz].
  destruct (kfree_ok cpu F B G L _ a z Hi Hu Hz) as (s' & E & Eb & Ep & B' & G' & L' & Hi' & Hu' & [S1 S2]).
  exists s'. split; [done|]. split.
  - exists B', G', L'. cbn [kh_slab kh_held]. split_and!; [done|done| |].
    + intros b. setoid_rewrite S1. rewrite lookup_delete. case_decide as Eab; [subst b; split; [by intros []|]; by intros (y & _ & ?)|].
      rewrite H1. split; [intros [y Hy]; exists y; split; [done|congruence]|]. intros (y & Hy & _). by exists y.
    + intros b n y [_ Hb]%lookup_delete_Some [Hy _]%S1. by eapply H2.
  - intros b n x Hb Hb' Hx. cbn in *. apply lookup_delete_Some in Hb' as [Hne _]. destruct (held_object h G L b n H1 H2 Hb) as (y & Hy & Hny).
    apply (S2 b y x Hy); [congruence|lia].
Qed.

Lemma poke_good h a x v :
  heap_good h → heap_allowed (Poke a x v) h = true → heap_good (mkKheap (with_mem <[x := v]> (kh_slab h)) (kh_held h)).
Proof.
  intros (B & G & L & Hi & Hu & H1 & H2). cbn. destruct (kh_held h !! a) as [n|] eqn:Ha; [|done].
  intros [[Hlo%Z.leb_le Hhi%Z.ltb_lt]%andb_true_iff Hm%Z.eqb_eq]%andb_true_iff.
  destruct (held_object h G L a n H1 H2 Ha) as (z & Hz & Hn). exists B, G, L. cbn [kh_slab kh_held].
  split_and!; [|done|done|done]. apply (poke_ok cpu F B G L (kh_slab h) a z x v Hi Hz); [lia|by apply Z.mod_divide].
Qed.

Lemma heap_exec_good op h :
  heap_good h → heap_allowed op h = true → ∃ h', heap_exec cpu op h = Ret h' ∧ heap_good h'.
Proof.
  intros Hg. destruct op as [size|a|a x v]; cbn [heap_allowed].
  - intros [H1%Z.leb_le H2%Z.ltb_lt]%andb_true_iff. destruct (kmalloc_good h size Hg) as (a & s' & E & Hg' & _); [lia|].
    cbn. rewrite E. by eexists.
  - intros [->%Z.eqb_eq|Ha%bool_decide_eq_true]%orb_true_iff; cbn [heap_exec].
    + eexists. split; [done|]. rewrite delete_id; [by destruct h|]. destruct (kh_held h !! 0) as [n|] eqn:E0; [|done]. exfalso.
      destruct Hg as (B & G & L & Hi & _ & H1 & H2). destruct (held_object h G L 0 n H1 H2 E0) as (z & [p Hz] & _).
      destruct (object_block _ _ _ _ _ _ Hi p 0 z Hz) as (o & Ho & Hlo & _).
      destruct (block_bounds _ _ _ _ _ _ Hi p o) as (? & ? & ?); [apply Ho|].
      pose proof (page_va_pos (kh_slab h) (hi_layout _ _ _ _ _ _ Hi) p ltac:(lia)). lia.
    + destruct (kfree_good h a Hg Ha) as (s' & -> & Hg' & _). by eexists.
  - intros Ha. eexists. split; [done|]. by apply (poke_good h a x v).
Qed.
End heap.

(** ** The heap after boot *)

Lemma slab_init_caches s k :
  0 ≤ k < kNumSizeClasses →
  obj_size_ (cache_at (slab_init s) k) = class k ∧ objs_per_slab_ (cache_at (slab_init s) k) = kPageSize / class k.
Proof.
  unfold kNumSizeClasses. intros Hk. unfold slab_init, cache_names, kSizeClasses. cbn [init_caches].
  assert (k = 0 ∨ k = 1 ∨ k = 2 ∨ k = 3 ∨ k = 4 ∨ k = 5 ∨ k = 6 ∨ k = 7 ∨ k = 8) as H by lia.
  repeat destruct H as [->|H]; [..|subst k]; rewrite !cache_at_set; by vm_compute.
Qed.

Lemma init_caches_keep i names sizes s :
  sl_pmm (init_caches i names sizes s) = sl_pmm s ∧ sl_base (init_caches i names sizes s) = sl_base s ∧
  ((∀ k, cpu_slab_ (cache_at s k) = ∅) → ∀ k, cpu_slab_ (cache_at (init_caches i names sizes s) k) = ∅).
Proof.
  revert i sizes s. induction names as [|name names IH]; intros i sizes s; [done|]. destruct sizes as [|size sizes]; [done|].
  cbn [init_caches]. destruct (IH (i + 1) sizes (set_cache i (cache_init name size 8) s)) as (-> & -> & H). split_and!; [done|done|].
  intros Hs. apply H. intros k. rewrite cache_at_set. by case_decide.
Qed.

Section boot.
Context (mb : memblock) (N base : Z) (m : pmm) (s : slab) (Hb : heap_boot mb N base m s) (cpu : Z).

Lemma heap_boot_good : heap_good cpu (pool m) (mkKheap s ∅).
Proof using Hb.
  destruct Hb as [Hbl [total E] Hly (meta & mem & ->)]. destruct (boot_client_inv mb N total m _ Hbl E) as [B Hc].
  cbn [cl_pmm cl_held] in Hc. unfold slab_init. destruct (init_caches_keep 0 cache_names kSizeClasses (mkSlab m meta mem ∅ base)) as (Em & Eb & Ha).
  exists B, ∅, ∅. cbn [kh_slab kh_held]. split_and!.
  - split; rewrite ?Em, ?Eb; cbn [sl_pmm sl_base].
    + apply Hc.
    + apply Hc.
    + done.
    + intros k Hk. by apply slab_init_caches.
    + intros p sp []%lookup_empty_Some.
    + intros p o []%lookup_empty_Some.
    + intros k c p. rewrite Ha by done. by intros ?%lookup_empty_Some.
    + intros x. unfold in_use. rewrite lookup_empty. split; [by left|]. intros [?|[[? ?]|(? & ? & []%lookup_empty_Some & _)]]; done.
  - intros p sp []%lookup_empty_Some.
  - intros a. rewrite lookup_empty. split; [by intros []|]. intros (z & p & [(? & []%lookup_empty_Some & _)|(? & []%lookup_empty_Some & _)]).
  - intros a n z []%lookup_empty_Some.
Qed.

Lemma heap_reachable_good h : heap_reachable cpu (mkKheap s ∅) h → heap_good cpu (pool m) h.
Proof using Hb.
  induction 1 as [|op h h' _ IH Ha E]; [apply heap_boot_good|].
  destruct (heap_exec_good cpu (pool m) op h IH Ha) as (h2 & E2 & Hg). rewrite E in E2. by injection E2 as <-.
Qed.

(** ** Properties *)

(** C13: In every state the kernel heap reaches from boot on one CPU, by any sequence of [kmalloc], [kfree] of objects in
    use and writes of clients to their own objects: the objects in use do not overlap, are aligned to 8 bytes, and no
    page they touch can be handed out again; and when every object has been freed, every page is back in the page
    allocator. *)
Theorem heap_objects_disjoint h (Hr : heap_reachable cpu (mkKheap s ∅) h) :
  (∀ a n b n', kh_held h !! a = Some n → kh_held h !! b = Some n' → a ≠ b → a + n ≤ b ∨ b + n' ≤ a) ∧
  (∀ a n, kh_held h !! a = Some n → 0 < a ∧ (8 | a) ∧
    ∀ x, a < page_va (kh_slab h) x + kPageSize → page_va (kh_slab h) x < a + n → ¬ pool (sl_pmm (kh_slab h)) x) ∧
  (kh_held h = ∅ → ∀ x, pool (sl_pmm (kh_slab h)) x ↔ pool m x).
Proof using Hb.
  destruct (heap_reachable_good h Hr) as (B & G & L & Hi & Hu & H1 & H2). split_and!.
  - intros a n b n' Ha Hb' Hne. destruct (held_object h G L a n H1 H2 Ha) as (z & Hz & Hn).
    destruct (held_object h G L b n' H1 H2 Hb') as (y & Hy & Hn'). destruct (objects_apart _ _ _ _ _ _ Hi a z b y Hz Hy Hne); lia.
  - intros a n Ha. destruct (held_object h G L a n H1 H2 Ha) as (z & Hz & Hn). destruct Hz as [p Hz].
    destruct (object_block _ _ _ _ _ _ Hi p a z Hz) as (o & Ho & Hlo & _ & _ & H8 & _).
    destruct (block_bounds _ _ _ _ _ _ Hi p o (proj1 Ho)) as (? & ? & ?).
    pose proof (page_va_pos (kh_slab h) (hi_layout _ _ _ _ _ _ Hi) p ltac:(lia)). split_and!; [lia|done|].
    intros x Hx1 Hx2. apply (object_not_pool _ _ _ _ _ _ Hi a z x); [by exists p|lia|lia].
  - intros E x. rewrite (hi_frames _ _ _ _ _ _ Hi x). split; [by left|]. intros [?|Hin]; [done|]. exfalso.
    assert (∃ a z, object G L (kh_slab h) a z) as (a & z & Ha).
    { destruct Hin as [[sp Hsp]|(p & o & Hp & _)].
      - destruct (sp_live sp) as [|a live] eqn:El; [by destruct (Hu x sp Hsp)|]. exists a, (class (sp_cache sp)), x. left.
        exists sp. rewrite El. split; [done|]. split; [by left|done].
      - exists (page_va (kh_slab h) p), (kPageSize * pow2 o), p. right. by exists o. }
    destruct (proj2 (H1 a)) as [n Hn]; [by exists z|]. by rewrite E in Hn.
Qed.

(** C14: On one CPU no allowed heap operation panics, and it leaves the contents of all other objects in use alone,
    although the chains of free objects run through the same pages. *)
Theorem heap_operations_safe h op (Hr : heap_reachable cpu (mkKheap s ∅) h) (Ha : heap_allowed op h = true) :
  ∃ h', heap_exec cpu op h = Ret h' ∧
    ∀ a n x, kh_held h !! a = Some n → kh_held h' !! a = Some n → a ≤ x < a + n →
      match op with Poke _ x' _ => x ≠ x' | _ => True end →
      sl_mem (kh_slab h') !! x = sl_mem (kh_slab h) !! x.
Proof using Hb.
  pose proof (heap_reachable_good h Hr) as Hg. destruct op as [size|a|a x v]; cbn [heap_allowed] in Ha.
  - apply andb_true_iff in Ha as [H1%Z.leb_le H2%Z.ltb_lt].
    destruct (kmalloc_good cpu (pool m) h size Hg) as (a & s' & E & _ & Hk & _); [lia|]. cbn. rewrite E. eexists. split; [done|].
    intros b n x Hb1 Hb2 Hx _. by apply (Hk b n x).
  - apply orb_true_iff in Ha as [->%Z.eqb_eq|Ha%bool_decide_eq_true].
    + eexists. split; [done|]. done.
    + destruct (kfree_good cpu (pool m) h a Hg Ha) as (s' & E & _ & Hk). cbn. rewrite E. eexists. split; [done|].
      intros b n x Hb1 Hb2 Hx _. by apply (Hk b n x).
  - eexists. split; [done|]. intros b n y _ _ _ Hne. cbn. by rewrite lookup_insert_ne.
Qed.

(** C18: [kmalloc] returns null only for size 0, when no page is left for a size class, or when no block of the page
    allocator is large enough; otherwise it returns the address of an object nobody holds. *)
Theorem kmalloc_outcome h size (Hr : heap_reachable cpu (mkKheap s ∅) h) (Hs : 0 ≤ size < 2 ^ 32) :
  ∃ a s', kmalloc cpu size (kh_slab h) = Ret (a, s') ∧
    (a = 0 → size = 0 ∨
      (size ≤ 2048 ∧ (∀ x, ¬ free_page (sl_pmm (kh_slab h)) x) ∧ free_list (pcp_at (sl_pmm (kh_slab h)) cpu) = []) ∨
      (2048 < size ∧ ∀ o, (o < kMaxOrder)%nat → size ≤ kPageSize * pow2 o → area (sl_pmm (kh_slab h)) o = [])) ∧
    (a ≠ 0 → 0 < size ∧ kh_held h !! a = None).
Proof using Hb.
  destruct (kmalloc_good cpu (pool m) h size (heap_reachable_good h Hr) Hs) as (a & s' & E & _ & _ & Hn & Hf). by exists a, s'.
Qed.
End boot.

(** ** More than one CPU *)

(** Operations, each on a CPU. *)
Fixpoint run_heap (ops : list (Z * heap_op)) (h : kheap) : outcome kheap :=
  match ops with
  | [] => Ret h
  | (cpu, op) :: ops' =>
      if heap_allowed op h then h' ← heap_exec cpu op h; run_heap ops' h' else Panic "operation not allowed"
  end.

(** A machine of 40 pages, with the direct map at its default base. *)
Definition small_heap : slab := slab_init (mkSlab small_boot ∅ ∅ ∅ kDirectMapBaseDefault).

Lemma small_heap_boot : heap_boot small_mb 40 kDirectMapBaseDefault small_boot small_heap.
Proof.
  split; [apply small_layout|exists 31; apply small_boot_eq| |by exists ∅, ∅]. split; by vm_compute.
Qed.




(** ** Witnesses *)

Lemma run_heap_reachable cpu h0 ops h h' :
  heap_reachable cpu h0 h → run_heap ((cpu,.) <$> ops) h = Ret h' → heap_reachable cpu h0 h'.
Proof.
  revert h. induction ops as [|op ops IH]; intros h Hr; cbn; [by intros [= <-]|].
  destruct (heap_allowed op h) eqn:Ea; [|done]. destruct (heap_exec cpu op h) as [h1| |] eqn:Ee; [|done..]. cbn.
  apply IH. by eapply heap_step.
Qed.

Definition small_use : kheap := Eval vm_compute in
  match run_heap ((0,.) <$> [Kmalloc 2048; Kmalloc 600; Kmalloc 5000]) (mkKheap small_heap ∅) with
  | Ret h => h | _ => mkKheap small_heap ∅ end.

Lemma small_use_reachable : heap_reachable 0 (mkKheap small_heap ∅) small_use.
Proof. apply (run_heap_reachable 0 _ [Kmalloc 2048; Kmalloc 600; Kmalloc 5000] (mkKheap small_heap ∅)); [constructor|vm_compute; reflexivity]. Qed.

Lemma heap_objects_disjoint_witness :
  size (kh_held small_use) = 3%nat ∧
  (∀ a n b n', kh_held small_use !! a = Some n → kh_held small_use !! b = Some n' → a ≠ b → a + n ≤ b ∨ b + n' ≤ a).
Proof.
  split; [vm_compute; reflexivity|].
  exact (proj1 (heap_objects_disjoint small_mb 40 kDirectMapBaseDefault small_boot small_heap small_heap_boot 0 small_use small_use_reachable)).
Defined.

Lemma heap_operations_safe_witness : ∃ h', heap_exec 0 (Kmalloc 64) small_use = Ret h'.
Proof.
  destruct (heap_operations_safe small_mb 40 kDirectMapBaseDefault small_boot small_heap small_heap_boot 0 small_use
    (Kmalloc 64) small_use_reachable eq_refl) as (h' & E & _). by exists h'.
Defined.

Lemma kmalloc_outcome_witness : ∃ a s', kmalloc 0 3000 (kh_slab small_use) = Ret (a, s') ∧ (a ≠ 0 → 0 < 3000 ∧ kh_held small_use !! a = None).
Proof.
  destruct (kmalloc_outcome small_mb 40 kDirectMapBaseDefault small_boot small_heap small_heap_boot 0 small_use 3000
    small_use_reachable ltac:(lia)) as (a & s' & E & _ & H). by exists a, s'.
Defined.
