(* ===== verification/Lz4.v ===== *)
(** * Lz4: the decompressor of the kernel image

    Models [na/lib/decompress_lz4.cc].  Pointers into the source and the
    destination are offsets; an access outside a buffer is a fault of the model,
    so the properties show that the code never makes one. *)

From S2P Require Import Prelude Bits.

(** ** The decompressor *)

Definition oob : string := "access out of bounds".

(** [*ip] for the offset [i] of the source. *)
Definition load (src : list Z) (i : Z) : outcome Z :=
  if i <? 0 then Panic oob else match src !! Z.to_nat i with Some b => Ret b | None => Panic oob end.

(** The destination has [cap] bytes; [fetch] reads one that was written. *)
Definition store (cap i v : Z) (d : gmap Z Z) : outcome (gmap Z Z) :=
  if (i <? 0) || (cap <=? i) then Panic oob else Ret (<[i := v]> d).
Definition fetch (d : gmap Z Z) (i : Z) : outcome Z :=
  match d !! i with Some b => Ret b | None => Panic oob end.

(** The [do ... while (s == 255)] loop that extends a length. *)
Definition len_step (src : list Z) (iend : Z) : Z * Z → Z * Z + outcome (option (Z * Z)) := λ '(ip, len),
  if iend <=? ip then inr (Ret None)
  else match load src ip with
       | Ret s =>
           let len := u32 (len + s) in
           if s =? 255 then inl (ip + 1, len) else inr (Ret (Some (ip + 1, len)))
       | _ => inr (Panic oob)
       end.

Definition read_len (src : list Z) (iend nibble ip : Z) : outcome (option (Z * Z)) :=
  if nibble =? 15 then
    match loop 64 (len_step src iend) (ip, nibble) with inr r => r | inl _ => OutOfFuel end
  else Ret (Some (ip, nibble)).

(** [for (i = 0; i < lit_len; ++i) *op++ = *ip++;] *)
Fixpoint copy_literals (src : list Z) (cap : Z) (n : nat) (ip op : Z) (d : gmap Z Z) : outcome (gmap Z Z) :=
  match n with
  | O => Ret d
  | S n' => b ← load src ip; d ← store cap op b d; copy_literals src cap n' (ip + 1) (op + 1) d
  end.

(** [for (i = 0; i < match_len; ++i) op[i] = match[i];] with [match = op - off]. *)
Fixpoint copy_match (cap : Z) (n : nat) (op off : Z) (d : gmap Z Z) : outcome (gmap Z Z) :=
  match n with
  | O => Ret d
  | S n' => b ← fetch d (op - off); d ← store cap op b d; copy_match cap n' (op + 1) off d
  end.

(** The part of an iteration after the literals: [None] is [return -1]. *)
Definition lz4_match (src : list Z) (iend cap token ip op : Z) (d : gmap Z Z)
  : outcome (option (Z * Z * gmap Z Z)) :=
  if iend <? ip + 2 then Ret None
  else
    b0 ← load src ip; b1 ← load src (ip + 1);
    let off := Z.lor b0 (Z.shiftl b1 8) in
    let ip := ip + 2 in
    if (off =? 0) || (u32 op <? off) then Ret None
    else
      r ← read_len src iend (Z.land token 0x0F) ip;
      match r with
      | None => Ret None
      | Some (ip, match_len) =>
          let match_len := u32 (match_len + 4) in
          if cap <? op + match_len then Ret None
          else d ← copy_match cap (Z.to_nat match_len) op off d; Ret (Some (ip, op + match_len, d))
      end.

(** One iteration; the loop leaves with the value returned and the destination. *)
Definition lz4_iter (src : list Z) (iend cap ip op : Z) (d : gmap Z Z)
  : outcome (Z * Z * gmap Z Z + Z * gmap Z Z) :=
  if iend <=? ip then Ret (inr (signed 32 op, d))
  else
    token ← load src ip;
    r ← read_len src iend (Z.shiftr token 4) (ip + 1);
    match r with
    | None => Ret (inr (-1, d))
    | Some (ip, lit_len) =>
        if iend <? ip + lit_len then Ret (inr (-1, d))
        else if cap <? op + lit_len then Ret (inr (-1, d))
        else
          d ← copy_literals src cap (Z.to_nat lit_len) ip op d;
          let ip := ip + lit_len in
          let op := op + lit_len in
          if iend <=? ip then Ret (inr (signed 32 op, d))
          else
            m ← lz4_match src iend cap token ip op d;
            match m with
            | None => Ret (inr (-1, d))
            | Some c => Ret (inl c)
            end
    end.

Definition lz4_step (src : list Z) (iend cap : Z) : Z * Z * gmap Z Z → Z * Z * gmap Z Z + outcome (Z * gmap Z Z) :=
  λ '(ip, op, d),
  match lz4_iter src iend cap ip op d with
  | Ret (inl c) => inl c
  | Ret (inr r) => inr (Ret r)
  | Panic msg => inr (Panic msg)
  | OutOfFuel => inr OutOfFuel
  end.

Definition lz4_decompress (src : list Z) (dst_cap : Z) : outcome (Z * gmap Z Z) :=
  match loop 64 (lz4_step src (Z.of_nat (length src)) dst_cap) (0, 0, ∅) with
  | inr r => r
  | inl _ => OutOfFuel
  end.

(** ** Reading and writing within bounds *)

Definition is_byte (b : Z) : Prop := 0 ≤ b < 256.

(** The destination holds [out] and nothing else. *)
Definition holds (d : gmap Z Z) (out : list Z) : Prop :=
  ∀ i, d !! i = if i <? 0 then None else out !! Z.to_nat i.

Lemma holds_store d out cap v :
  holds d out → Z.of_nat (length out) < cap →
  ∃ d', store cap (Z.of_nat (length out)) v d = Ret d' ∧ holds d' (out ++ [v]).
Proof.
  intros Hd Hc. unfold store. destruct (Z.ltb_spec (Z.of_nat (length out)) 0); [lia|].
  destruct (Z.leb_spec cap (Z.of_nat (length out))); [lia|]. cbn. eexists. split; [done|]. intros i.
  rewrite lookup_insert. case_decide as E; [subst i; destruct (Z.ltb_spec (Z.of_nat (length out)) 0); [lia|];
    by rewrite Nat2Z.id, list_lookup_middle|]. rewrite Hd. case_match eqn:Ei; [done|]. apply Z.ltb_ge in Ei.
  destruct (decide (Z.to_nat i < length out)%nat); [by rewrite lookup_app_l|].
  rewrite lookup_ge_None_2 by lia. symmetry. apply lookup_ge_None_2. rewrite length_app. cbn. lia.
Qed.

Section bounds.
Context (src : list Z) (Hsrc : Forall is_byte src) (Hlen : Z.of_nat (length src) < 2 ^ 32).
Let iend : Z := Z.of_nat (length src).

Lemma load_in i : 0 ≤ i < iend → ∃ b, load src i = Ret b ∧ is_byte b ∧ src !! Z.to_nat i = Some b.
Proof using Hsrc.
  intros Hi. unfold load. destruct (Z.ltb_spec i 0); [lia|].
  destruct (lookup_lt_is_Some_2 src (Z.to_nat i)) as [b Hb]; [lia|]. rewrite Hb. exists b. split_and!; [done| |done].
  by apply (Forall_lookup_1 _ _ _ _ Hsrc Hb).
Qed.

(** A length is read within the source, and does not wrap. *)
Lemma read_len_ok nibble ip :
  0 ≤ nibble ≤ 15 → 0 ≤ ip ≤ iend →
  ∃ r, read_len src iend nibble ip = Ret r ∧
    match r with Some (ip', len) => ip ≤ ip' ≤ iend ∧ is_u32 len | None => True end.
Proof using Hsrc Hlen.
  intros Hn Hip. unfold read_len. case_match; [|eexists; split; [done|]; unfold is_u32; lia].
  destruct (loop_total (len_step src iend) (λ '(i, len), ip ≤ i ≤ iend ∧ is_u32 len) (λ '(i, _), iend - i)
    (λ r, ∃ o, r = Ret o ∧ match o with Some (ip', len) => ip ≤ ip' ≤ iend ∧ is_u32 len | None => True end))
    with (k := 64%nat) (s := (ip, nibble)) as (r & -> & o & -> & Ho); [..|by eauto].
  - intros [i len] [Hi Hl]. cbn. destruct (Z.leb_spec iend i); [by exists None|].
    destruct (load_in i) as (b & -> & Hb & _); [lia|]. destruct (b =? 255).
    + split; [cbn; split; [lia|apply wrap_is_u32]|cbn; lia].
    + eexists. split; [done|]. cbn. split; [lia|apply wrap_is_u32].
  - unfold is_u32. lia.
  - unfold iend in *. lia.
Qed.

Lemma copy_literals_ok n ip out d cap :
  holds d out → 0 ≤ ip → ip + Z.of_nat n ≤ iend → Z.of_nat (length out + n) ≤ cap →
  ∃ d', copy_literals src cap n ip (Z.of_nat (length out)) d = Ret d' ∧
    holds d' (out ++ take n (drop (Z.to_nat ip) src)).
Proof using Hsrc.
  revert ip out d. induction n as [|n IH]; intros ip out d Hd Hip Hn Hc; cbn [copy_literals].
  - exists d. split; [done|]. by rewrite take_0, app_nil_r.
  - destruct (load_in ip) as (b & -> & _ & Hb); [lia|]. cbn [mbind outcome_bind].
    destruct (holds_store d out cap b Hd) as (d1 & -> & Hd1); [lia|]. cbn [mbind outcome_bind].
    destruct (IH (ip + 1) (out ++ [b]) d1 Hd1) as (d2 & E2 & Hd2); [lia|lia|rewrite length_app; cbn; lia|].
    replace (Z.of_nat (length out) + 1) with (Z.of_nat (length (out ++ [b]))) by (rewrite length_app; cbn; lia).
    rewrite E2. exists d2. split; [done|]. rewrite (drop_S src b (Z.to_nat ip) Hb). cbn [take].
    replace (Z.to_nat (ip + 1)) with (S (Z.to_nat ip)) in Hd2 by lia. by rewrite <- app_assoc in Hd2.
Qed.

End bounds.

(** The bytes a match appends: each repeats the one [off] positions before it. *)
Fixpoint matched (n : nat) (off : nat) (out : list Z) : list Z :=
  match n with O => out | S n' => matched n' off (out ++ [default 0 (out !! (length out - off)%nat)]) end.

Lemma length_matched n off out : length (matched n off out) = (length out + n)%nat.
Proof. revert out. induction n as [|n IH]; intros out; cbn; [lia|]. rewrite IH, length_app. cbn. lia. Qed.

Lemma copy_match_ok n out d cap off :
  holds d out → 0 < off ≤ Z.of_nat (length out) → Z.of_nat (length out + n) ≤ cap →
  ∃ d', copy_match cap n (Z.of_nat (length out)) off d = Ret d' ∧ holds d' (matched n (Z.to_nat off) out).
Proof.
  revert out d. induction n as [|n IH]; intros out d Hd Hoff Hc; cbn [copy_match matched]; [by exists d|].
  destruct (lookup_lt_is_Some_2 out (length out - Z.to_nat off)) as [b Hb]; [lia|].
  assert (fetch d (Z.of_nat (length out) - off) = Ret b) as ->.
  { unfold fetch. rewrite Hd. destruct (Z.ltb_spec (Z.of_nat (length out) - off) 0); [lia|].
    replace (Z.to_nat (Z.of_nat (length out) - off)) with (length out - Z.to_nat off)%nat by lia. by rewrite Hb. }
  cbn [mbind outcome_bind]. destruct (holds_store d out cap b Hd) as (d1 & -> & Hd1); [lia|]. cbn [mbind outcome_bind].
  destruct (IH (out ++ [b]) d1 Hd1) as (d2 & E2 & Hd2); [rewrite length_app; lia|rewrite length_app; cbn; lia|].
  replace (Z.of_nat (length out) + 1) with (Z.of_nat (length (out ++ [b]))) by (rewrite length_app; cbn; lia).
  rewrite E2, Hb. by exists d2.
Qed.

(** ** Safety *)

Section safety.
Context (src : list Z) (cap : Z).
Context (Hsrc : Forall is_byte src) (Hlen : Z.of_nat (length src) < 2 ^ 32) (Hcap : 0 ≤ cap < 2 ^ 32).
Let iend : Z := Z.of_nat (length src).

(** What has been written so far. *)
Definition written (op : Z) (d : gmap Z Z) : Prop := ∃ out, holds d out ∧ op = Z.of_nat (length out) ∧ op ≤ cap.

Lemma byte_nibbles t : is_byte t → 0 ≤ Z.shiftr t 4 ≤ 15 ∧ 0 ≤ Z.land t 0x0F ≤ 15.
Proof using.
  clear. unfold is_byte. intros Ht. rewrite Z.shiftr_div_pow2 by done. 
  assert (Z.land t 0x0F = t mod 2 ^ 4) as -> by (by apply (Z.land_ones t 4)).
  pose proof (Z.mod_pos_bound t (2 ^ 4)). split; [|lia]. split; [apply Z.div_pos; lia|].
  assert (t / 2 ^ 4 < 16) by (apply Z.div_lt_upper_bound; lia). lia.
Qed.

Lemma lz4_match_safe token ip op d :
  is_byte token → 0 ≤ ip ≤ iend → written op d →
  ∃ r, lz4_match src iend cap token ip op d = Ret r ∧
    match r with Some (ip', op', d') => ip < ip' ≤ iend ∧ written op' d' | None => True end.
Proof using Hsrc Hlen Hcap.
  unfold iend. intros Ht Hip (out & Hd & -> & Hop). unfold lz4_match.
  destruct (Z.ltb_spec (Z.of_nat (length src)) (ip + 2)); [by exists None|].
  destruct (load_in src Hsrc ip) as (b0 & -> & Hb0 & _); [lia|].
  destruct (load_in src Hsrc (ip + 1)) as (b1 & -> & Hb1 & _); [lia|].
  cbn [mbind outcome_bind]. set (off := Z.lor b0 (Z.shiftl b1 8)).
  assert (Hoff : 0 ≤ off) by (apply Z.lor_nonneg; rewrite Z.shiftl_nonneg; unfold is_byte in *; lia).
  destruct (Z.eqb_spec off 0); [by exists None|]. rewrite wrap_small by lia.
  destruct (Z.ltb_spec (Z.of_nat (length out)) off); [by exists None|]. cbn [orb].
  destruct (read_len_ok src Hsrc Hlen (Z.land token 0x0F) (ip + 2)) as (r & -> & Hr); [by apply byte_nibbles|lia|].
  cbn [mbind outcome_bind]. destruct r as [[ip' len]|]; [|by exists None].
  destruct (Z.ltb_spec cap (Z.of_nat (length out) + u32 (len + 4))) as [|Hle]; [by exists None|].
  pose proof (wrap_is_u32 (len + 4)) as Hw. unfold is_u32 in Hw.
  destruct (copy_match_ok (Z.to_nat (u32 (len + 4))) out d cap off Hd) as (d' & -> & Hd'); [lia|lia|].
  cbn [mbind outcome_bind]. eexists. split; [done|]. split; [lia|]. exists (matched (Z.to_nat (u32 (len + 4))) (Z.to_nat off) out).
  split; [done|]. rewrite length_matched. lia.
Qed.

(** How an iteration ends: [-1], or the number of bytes written. *)
Definition ended (r : Z * gmap Z Z) : Prop := ∃ op, written op r.2 ∧ (r.1 = -1 ∨ r.1 = signed 32 op).

Lemma lz4_iter_safe ip op d :
  0 ≤ ip ≤ iend → written op d →
  ∃ r, lz4_iter src iend cap ip op d = Ret r ∧
    match r with inl (ip', op', d') => ip < ip' ≤ iend ∧ written op' d' | inr e => ended e end.
Proof using Hsrc Hlen Hcap.
  unfold iend. intros Hip Hw. assert (Hstop : ∀ v, v = -1 ∨ v = signed 32 op → ended (v, d)) by (intros v Hv; by exists op).
  unfold lz4_iter. destruct (Z.leb_spec (Z.of_nat (length src)) ip); [eexists; split; [done|apply Hstop; auto]|].
  destruct (load_in src Hsrc ip) as (t & -> & Ht & _); [lia|]. cbn [mbind outcome_bind].
  destruct (read_len_ok src Hsrc Hlen (Z.shiftr t 4) (ip + 1)) as (r & -> & Hr); [by apply byte_nibbles|lia|].
  cbn [mbind outcome_bind]. destruct r as [[ip' len]|]; [|eexists; split; [done|apply Hstop; auto]]. destruct Hr as [Hip' [Hl0 Hl1]].
  destruct (Z.ltb_spec (Z.of_nat (length src)) (ip' + len)); [eexists; split; [done|apply Hstop; auto]|].
  destruct (Z.ltb_spec cap (op + len)); [eexists; split; [done|apply Hstop; auto]|]. destruct Hw as (out & Hd & -> & Hop).
  destruct (copy_literals_ok src Hsrc (Z.to_nat len) ip' out d cap Hd) as (d' & -> & Hd'); [lia|lia|lia|].
  cbn [mbind outcome_bind]. set (out' := out ++ _) in Hd'.
  assert (Hw' : written (Z.of_nat (length out) + len) d').
  { exists out'. split; [done|]. unfold out'. rewrite length_app, length_take, length_drop. lia. }
  destruct (Z.leb_spec (Z.of_nat (length src)) (ip' + len)); [eexists; split; [done|unfold ended; eauto]|].
  destruct (lz4_match_safe t (ip' + len) (Z.of_nat (length out) + len) d' Ht) as (m & E & Hm); [unfold iend; lia|done|].
  unfold iend in E. rewrite E.
  cbn [mbind outcome_bind]. destruct m as [[[i2 o2] d2]|]; (eexists; split; [done|]); [|unfold ended; eauto].
  split; [unfold iend in *; lia|tauto].
Qed.

Lemma lz4_safe : ∃ r, lz4_decompress src cap = Ret r ∧ ended r.
Proof using Hsrc Hlen Hcap.
  unfold lz4_decompress. fold iend.
  destruct (loop_total (lz4_step src iend cap) (λ '(ip, op, d), 0 ≤ ip ≤ iend ∧ written op d) (λ '(ip, _, _), iend - ip)
    (λ r, ∃ e, r = Ret e ∧ ended e)) with (k := 64%nat) (s := (0, 0, ∅ : gmap Z Z)) as (r & -> & e & -> & He); [..|eauto].
  - intros [[ip op] d] [Hip Hw]. unfold lz4_step.
    destruct (lz4_iter_safe ip op d Hip Hw) as (r & -> & Hr). destruct r as [[[i2 o2] d2]|e]; [|eauto].
    destruct Hr as [? ?]. split; [split; [lia|done]|lia].
  - split; [unfold iend; lia|]. exists []. split; [|cbn; lia]. intros i. rewrite lookup_empty. by case_match.
  - unfold iend. lia.
Qed.
End safety.

(** ** The block format *)

(** A sequence: literals, then a match of [mlen] bytes at distance [dist]. *)
Record sequence := mkSeq { lits : list Z; dist : Z; mlen : Z }.

Definition nibble (n : Z) : Z := Z.min n 15.
Definition len_bytes (n : Z) : list Z :=
  if n <? 15 then [] else replicate (Z.to_nat ((n - 15) / 255)) 255 ++ [(n - 15) mod 255].

Definition len (l : list Z) : Z := Z.of_nat (length l).

Definition encode_sequence (q : sequence) : list Z :=
  [nibble (len (lits q)) * 16 + nibble (mlen q - 4)] ++ len_bytes (len (lits q)) ++ lits q ++
  [dist q mod 256; dist q / 256] ++ len_bytes (mlen q - 4).
Definition encode_last (l : list Z) : list Z := [nibble (len l) * 16] ++ len_bytes (len l) ++ l.
Definition encode_block (qs : list sequence) (l : list Z) : list Z := concat (encode_sequence <$> qs) ++ encode_last l.

(** What a block stands for, after the output [out]. *)
Definition expand_sequence (out : list Z) (q : sequence) : list Z :=
  matched (Z.to_nat (mlen q)) (Z.to_nat (dist q)) (out ++ lits q).
Definition expand (qs : list sequence) (l out : list Z) : list Z := foldl expand_sequence out qs ++ l.

(** Distances reach back into what is there and fit in two bytes. *)
Definition seq_ok (q : sequence) (out : list Z) : Prop :=
  Forall is_byte (lits q) ∧ 4 ≤ mlen q ∧ 1 ≤ dist q ≤ Z.min 65535 (len out + len (lits q)).

Fixpoint block_ok (qs : list sequence) (out : list Z) : Prop :=
  match qs with
  | [] => True
  | q :: qs' => seq_ok q out ∧ block_ok qs' (expand_sequence out q)
  end.

Section format.
Context (src : list Z).
Abbreviation iend := (Z.of_nat (length src)).

(** Bytes of the source at a position. *)
Definition at_ip (ip : Z) (bytes : list Z) : Prop := ∃ pre post, src = pre ++ bytes ++ post ∧ ip = len pre.

Lemma at_ip_app ip b1 b2 : at_ip ip (b1 ++ b2) → at_ip ip b1 ∧ at_ip (ip + len b1) b2.
Proof.
  intros (pre & post & E & ->). split.
  - exists pre, (b2 ++ post). by rewrite E, <- app_assoc.
  - exists (pre ++ b1), post. rewrite E, <- !app_assoc. split; [done|]. unfold len. rewrite length_app. lia.
Qed.

Lemma at_ip_load ip b bs : at_ip ip (b :: bs) → load src ip = Ret b ∧ 0 ≤ ip < iend ∧ at_ip (ip + 1) bs.
Proof.
  intros (pre & post & E & ->). cbn in E. unfold load, len. destruct (Z.ltb_spec (Z.of_nat (length pre)) 0); [lia|].
  rewrite Nat2Z.id, E, list_lookup_middle by done. split_and!; [done|lia|rewrite !length_app; cbn; lia|].
  exists (pre ++ [b]), post. rewrite <- app_assoc. split; [done|]. unfold len. rewrite length_app. cbn. lia.
Qed.

Lemma at_ip_end ip bs : at_ip ip bs → 0 ≤ ip ∧ ip + len bs ≤ iend.
Proof. intros (pre & post & E & ->). unfold len. rewrite E, !length_app. lia. Qed.

Lemma at_ip_take ip bs : at_ip ip bs → take (length bs) (drop (Z.to_nat ip) src) = bs.
Proof. intros (pre & post & E & ->). unfold len. by rewrite Nat2Z.id, E, drop_app_length, take_app_length. Qed.

(** A length is read back. *)
Lemma read_len_format n ip :
  0 ≤ n < 2 ^ 32 → at_ip ip (len_bytes n) → read_len src iend (nibble n) ip = Ret (Some (ip + len (len_bytes n), n)).
Proof.
  intros Hn Hat. unfold read_len, nibble, len_bytes in *. destruct (Z.ltb_spec n 15).
  { rewrite Z.min_l by lia. destruct (Z.eqb_spec n 15); [lia|]. unfold len. cbn. by rewrite Z.add_0_r. }
  rewrite Z.min_r by lia. cbn [Z.eqb Pos.eqb].
  set (m := Z.to_nat ((n - 15) / 255)) in *. set (r := (n - 15) mod 255) in *.
  assert (Hr : 0 ≤ r < 255) by (by apply Z.mod_pos_bound).
  assert (Hnm : n = 15 + 255 * Z.of_nat m + r).
  { unfold m, r. pose proof (Z.div_mod (n - 15) 255). pose proof (Z.div_pos (n - 15) 255). lia. }
  destruct (loop_list (len_step src iend)
    (λ (l : list Z) c, l = replicate (length l) 255 ∧ at_ip c.1 (l ++ [r]) ∧ c.1 + len l = ip + Z.of_nat m ∧
       0 ≤ c.2 ∧ c.2 + 255 * len l + r = n)
    (λ o, o = Ret (Some (ip + Z.of_nat m + 1, n)))) with (k := 64%nat) (l := replicate m 255) (s := (ip, 15))
    as (o & -> & ->).
  - intros [i c] (_ & Ha & Hi & _ & Hc). cbn in *. apply at_ip_load in Ha as (-> & Hb & _).
    eexists. split; [|done]. destruct (Z.leb_spec iend i); [lia|]. destruct (Z.eqb_spec r 255); [lia|].
    unfold len in *. cbn in *. replace (c + r) with n by lia. rewrite wrap_small by lia.
    by replace (i + 1) with (ip + Z.of_nat m + 1) by lia.
  - intros x l [i c] (El & Ha & Hi & Hc0 & Hc). unfold len in *. cbn [length replicate app fst snd] in *.
    injection El as -> El. apply at_ip_load in Ha as (E & Hb & Ha). cbn [len_step].
    destruct (Z.leb_spec iend i); [lia|]. rewrite E. cbn [Z.eqb Pos.eqb]. rewrite wrap_small by lia.
    cbn [fst snd]. split_and!; [done|done|lia|lia|lia].
  - rewrite length_replicate. unfold len. rewrite length_replicate. cbn. split_and!; [done|done|lia|lia|lia].
  - rewrite length_replicate. lia.
  - unfold len. rewrite length_app, length_replicate. cbn. do 3 f_equal. lia.
Qed.

Context (Hsrc : Forall is_byte src) (cap : Z) (Hcap : cap < 2 ^ 32).

Lemma holds_nil : holds ∅ [].
Proof. intros i. rewrite lookup_empty. by case_match. Qed.

(** The nibbles of a token. *)
Lemma token_nibbles a b : 0 ≤ a → 0 ≤ b →
  Z.shiftr (nibble a * 16 + nibble b) 4 = nibble a ∧ Z.land (nibble a * 16 + nibble b) 0x0F = nibble b.
Proof.
  intros Ha Hb. unfold nibble. rewrite Z.shiftr_div_pow2 by done.
  assert (∀ t, Z.land t 0x0F = t mod 2 ^ 4) as -> by (intros t; by apply (Z.land_ones t 4)). change (2 ^ 4) with 16. split.
  - rewrite Z.add_comm, Z.div_add, Z.div_small by lia. lia.
  - rewrite Z.add_comm, Z.mod_add, Z.mod_small by lia. done.
Qed.

Lemma dist_bytes n : 0 ≤ n → Z.lor (n mod 256) (Z.shiftl (n / 256) 8) = n.
Proof.
  intros Hn. rewrite Z.lor_comm, Z.shiftl_mul_pow2 by done. rewrite lor_low_high; [|done|by apply Z.mod_pos_bound].
  change (2 ^ 8) with 256. pose proof (Z.div_mod n 256). lia.
Qed.

(** The bytes of a sequence the match routine reads are decoded. *)
Lemma lz4_match_format q token ip out d :
  Z.land token 0x0F = nibble (mlen q - 4) → at_ip ip ([dist q mod 256; dist q / 256] ++ len_bytes (mlen q - 4)) →
  holds d out → 4 ≤ mlen q → 1 ≤ dist q ≤ len out → len out + mlen q ≤ cap →
  ∃ d', lz4_match src iend cap token ip (len out) d
      = Ret (Some (ip + 2 + len (len_bytes (mlen q - 4)), len out + mlen q, d')) ∧
    holds d' (matched (Z.to_nat (mlen q)) (Z.to_nat (dist q)) out).
Proof using Hcap.
  intros Et Hat Hd Hm Hdist Hfit. pose proof (at_ip_end _ _ Hat) as He. unfold lz4_match.
  apply at_ip_app in Hat as [Hat Hlen]. change (len [_; _]) with 2 in Hlen.
  apply at_ip_load in Hat as (-> & Hi & Hat). apply at_ip_load in Hat as (-> & Hi1 & _).
  destruct (Z.ltb_spec iend (ip + 2)); [lia|]. cbn [mbind outcome_bind]. rewrite dist_bytes by lia.
  destruct (Z.eqb_spec (dist q) 0); [lia|]. rewrite (wrap_small 32 (len out)) by (unfold len in *; lia).
  destruct (Z.ltb_spec (len out) (dist q)); [lia|]. cbn [orb]. rewrite Et. rewrite read_len_format by (done || (unfold len in *; lia)).
  cbn [mbind outcome_bind]. rewrite (wrap_small 32) by (unfold len in *; lia). replace (mlen q - 4 + 4) with (mlen q) by lia.
  destruct (Z.ltb_spec cap (len out + mlen q)); [lia|].
  destruct (copy_match_ok (Z.to_nat (mlen q)) out d cap (dist q) Hd) as (d' & E & Hd'); [unfold len in *; lia..|].
  change (Z.of_nat (length out)) with (len out) in E. rewrite E. cbn [mbind outcome_bind]. by exists d'.
Qed.

(** The token, length and literals at the start of a sequence. *)
Lemma literals_format l b ip out d :
  0 ≤ b → at_ip ip ([nibble (len l) * 16 + nibble b] ++ len_bytes (len l) ++ l) → holds d out → len out + len l ≤ cap →
  ∃ d', holds d' (out ++ l) ∧ 0 ≤ ip < iend ∧
    lz4_iter src iend cap ip (len out) d =
      (let ip := ip + 1 + len (len_bytes (len l)) + len l in
       if iend <=? ip then Ret (inr (signed 32 (len (out ++ l)), d'))
       else m ← lz4_match src iend cap (nibble (len l) * 16 + nibble b) ip (len (out ++ l)) d';
            match m with None => Ret (inr (-1, d')) | Some c => Ret (inl c) end).
Proof using Hsrc Hcap.
  intros Hb Hat Hd Hfit. apply at_ip_app in Hat as [Ht Hat]. change (len [_]) with 1 in Hat.
  apply at_ip_app in Hat as [Hl Hat]. pose proof (at_ip_end _ _ Hat) as He.
  apply at_ip_load in Ht as (Et & Hi & _). unfold lz4_iter. destruct (Z.leb_spec iend ip); [lia|].
  rewrite Et. cbn [mbind outcome_bind]. rewrite (proj1 (token_nibbles (len l) b ltac:(unfold len; lia) Hb)).
  rewrite read_len_format by (done || (unfold len in *; lia)). cbn [mbind outcome_bind].
  destruct (Z.ltb_spec iend (ip + 1 + len (len_bytes (len l)) + len l)); [lia|].
  destruct (Z.ltb_spec cap (len out + len l)); [lia|].
  destruct (copy_literals_ok src Hsrc (Z.to_nat (len l)) (ip + 1 + len (len_bytes (len l))) out d cap Hd)
    as (d' & E & Hd'); [lia|unfold len in *; lia|unfold len in *; lia|].
  change (Z.of_nat (length out)) with (len out) in E. rewrite E. cbn [mbind outcome_bind]. exists d'. unfold len in Hd' at 1. rewrite Nat2Z.id, at_ip_take in Hd' by done.
  replace (len (out ++ l)) with (len out + len l) by (unfold len; rewrite length_app; lia). done.
Qed.

Lemma len_expand out q : 4 ≤ mlen q → len (expand_sequence out q) = len out + len (lits q) + mlen q.
Proof. intros. unfold len, expand_sequence. rewrite length_matched, length_app. lia. Qed.

Lemma iter_sequence q ip out d :
  at_ip ip (encode_sequence q) → holds d out → seq_ok q out → len (expand_sequence out q) ≤ cap →
  ∃ d', lz4_iter src iend cap ip (len out) d
      = Ret (inl (ip + len (encode_sequence q), len (expand_sequence out q), d')) ∧ holds d' (expand_sequence out q).
Proof using Hsrc Hcap.
  intros Hat Hd (_ & Hm & Hdist) Hfit. rewrite len_expand in * by done. unfold encode_sequence in *.
  rewrite !app_assoc, <- (app_assoc _ [_; _]) in Hat. apply at_ip_app in Hat as [Hat1 Hat2]. rewrite <- app_assoc in Hat1.
  destruct (literals_format (lits q) (mlen q - 4) ip out d) as (d1 & Hd1 & Hi & ->); [lia|done..|lia|].
  assert (E : ∀ x : Z, len (([x] ++ len_bytes (len (lits q))) ++ lits q) = 1 + len (len_bytes (len (lits q))) + len (lits q)).
  { intros x. unfold len. rewrite !length_app. cbn [length]. lia. }
  rewrite E in Hat2. rewrite !Z.add_assoc in Hat2. pose proof (at_ip_end _ _ Hat2) as He2.
  assert (len ([dist q mod 256; dist q / 256] ++ len_bytes (mlen q - 4)) = 2 + len (len_bytes (mlen q - 4))) as E2.
  { unfold len. rewrite length_app. cbn [length]. lia. } rewrite E2 in He2.
  cbv zeta. destruct (Z.leb_spec iend (ip + 1 + len (len_bytes (len (lits q))) + len (lits q))); [unfold len in *; lia|].
  assert (El : len (out ++ lits q) = len out + len (lits q)) by (unfold len; rewrite length_app; lia).
  destruct (lz4_match_format q _ _ (out ++ lits q) d1 (proj2 (token_nibbles (len (lits q)) (mlen q - 4) ltac:(unfold len; lia) ltac:(lia))) Hat2 Hd1)
    as (d2 & -> & Hd2); [lia..|]. cbn [mbind outcome_bind]. exists d2. split; [|done]. do 4 f_equal; [|lia].
  unfold len. rewrite !length_app. cbn [length]. lia.
Qed.

Lemma iter_last l ip out d :
  at_ip ip (encode_last l) → ip + len (encode_last l) = iend → holds d out → len out + len l ≤ cap →
  ∃ d', lz4_iter src iend cap ip (len out) d = Ret (inr (signed 32 (len (out ++ l)), d')) ∧ holds d' (out ++ l).
Proof using Hsrc Hcap.
  intros Hat Hend Hd Hfit. destruct (literals_format l 0 ip out d) as (d1 & Hd1 & Hi & ->);
    [done|unfold encode_last in Hat; by rewrite Z.add_0_r|done|done|].
  exists d1. split; [|done]. cbv zeta. unfold encode_last, len in Hend. rewrite !length_app in Hend. cbn [length] in Hend.
  destruct (Z.leb_spec iend (ip + 1 + len (len_bytes (len l)) + len l)); [done|unfold len in *; lia].
Qed.
End format.

(** An encoded block consists of bytes. *)
Lemma len_bytes_ok n : 0 ≤ n → Forall is_byte (len_bytes n).
Proof.
  intros Hn. unfold len_bytes. destruct (n <? 15); [constructor|]. apply Forall_app. split.
  - apply Forall_replicate. by unfold is_byte.
  - apply Forall_singleton. unfold is_byte. pose proof (Z.mod_pos_bound (n - 15) 255). lia.
Qed.

Lemma token_ok a b : 0 ≤ a → 0 ≤ b → is_byte (nibble a * 16 + nibble b).
Proof. intros. unfold is_byte, nibble. lia. Qed.

Lemma encode_last_ok l : Forall is_byte l → Forall is_byte (encode_last l).
Proof.
  intros Hl. unfold encode_last. rewrite !Forall_app, Forall_singleton. split_and!; [|apply len_bytes_ok; unfold len; lia|done].
  rewrite <- (Z.add_0_r (_ * _)). apply (token_ok (len l) 0); unfold len; lia.
Qed.

Lemma encode_sequence_ok q out : seq_ok q out → Forall is_byte (encode_sequence q).
Proof.
  intros (Hl & Hm & Hd). unfold encode_sequence. rewrite !Forall_app, Forall_singleton.
  split_and!; [apply token_ok; unfold len; lia|apply len_bytes_ok; unfold len; lia|done| |apply len_bytes_ok; lia].
  pose proof (Z.mod_pos_bound (dist q) 256). repeat constructor; [lia|lia|apply Z.div_pos; lia|].
  apply Z.div_lt_upper_bound; lia.
Qed.

Lemma encode_block_ok qs l out : block_ok qs out → Forall is_byte l → Forall is_byte (encode_block qs l).
Proof.
  intros Hq Hl. unfold encode_block. apply Forall_app. split; [|by apply encode_last_ok].
  revert out Hq. induction qs as [|q qs IH]; intros out Hq; [constructor|]. destruct Hq as [Hq Hqs].
  apply Forall_app. split; [by eapply encode_sequence_ok|by eapply IH].
Qed.

Lemma len_expand_mono qs l out : block_ok qs out → len out + len l ≤ len (expand qs l out).
Proof.
  unfold expand. revert out. induction qs as [|q qs IH]; intros out Hq; cbn [foldl].
  - unfold len. rewrite length_app. lia.
  - destruct Hq as [Hq Hqs]. specialize (IH _ Hqs). destruct Hq as (_ & ? & ?). rewrite len_expand in IH by done.
    unfold len in *. lia.
Qed.

Lemma length_encode qs l : Z.of_nat (length qs) ≤ len (encode_block qs l).
Proof.
  unfold encode_block, len. rewrite length_app. induction qs as [|q qs IH]; cbn [fmap list_fmap concat length]; [lia|].
  rewrite length_app. unfold encode_sequence at 1. cbn [app length]. lia.
Qed.

(** Decompression of an encoded block. *)
Lemma lz4_decodes qs l cap :
  block_ok qs [] → Forall is_byte l → len (encode_block qs l) < 2 ^ 32 → len (expand qs l []) ≤ cap → cap < 2 ^ 32 →
  ∃ d, lz4_decompress (encode_block qs l) cap = Ret (signed 32 (len (expand qs l [])), d) ∧ holds d (expand qs l []).
Proof.
  intros Hq Hl Hlen Hfit Hcap. pose proof (encode_block_ok qs l [] Hq Hl) as Hsrc. unfold lz4_decompress.
  set (src := encode_block qs l) in *. change (Z.of_nat (length src)) with (len src). set (out := expand qs l []) in *.
  destruct (loop_list (lz4_step src (len src) cap)
    (λ qs' c, ∃ o, holds c.2 o ∧ c.1.2 = len o ∧ block_ok qs' o ∧ expand qs' l o = out ∧
       at_ip src c.1.1 (encode_block qs' l) ∧ c.1.1 + len (encode_block qs' l) = len src)
    (λ r, ∃ d, r = Ret (signed 32 (len out), d) ∧ holds d out))
    with (k := 64%nat) (l := qs) (s := (0, 0, ∅ : gmap Z Z)) as (r & -> & d & -> & Hd); [..|by eauto].
  - intros [[ip op] d] (o & Hd & Eop & _ & Eo & Hat & Hend). cbn [fst snd] in *. subst op. unfold encode_block in Hat, Hend. cbn [fmap list_fmap concat app] in Hat, Hend.
    unfold expand in Eo. cbn [foldl] in Eo.
    destruct (iter_last src Hsrc cap Hcap l ip o d) as (d' & E & Hd'); [done|done|done| |].
    { rewrite <- Eo in Hfit. unfold len in *. rewrite length_app in Hfit. lia. }
    cbn [lz4_step]. change (Z.of_nat (length src)) with (len src) in E. rewrite E. rewrite Eo in *. eauto.
  - intros q qs' [[ip op] d] (o & Hd & Eop & [Hqo Hqs] & Eo & Hat & Hend). cbn [fst snd] in *. subst op.
    assert (encode_block (q :: qs') l = encode_sequence q ++ encode_block qs' l) as Eb
      by (unfold encode_block; cbn [fmap list_fmap concat]; by rewrite <- app_assoc).
    rewrite Eb in Hat, Hend. apply at_ip_app in Hat as [Hat1 Hat2].
    destruct (iter_sequence src Hsrc cap Hcap q ip o d Hat1 Hd Hqo) as (d' & E & Hd').
    { pose proof (len_expand_mono qs' l _ Hqs) as Hm. unfold expand in Hm, Eo. cbn [foldl] in Eo. rewrite Eo in Hm. unfold len in *. lia. }
    cbn [lz4_step]. change (Z.of_nat (length src)) with (len src) in E. rewrite E. exists (expand_sequence o q). cbn [fst snd].
    split_and!; [done|done|done|done|done|]. unfold len in *. rewrite length_app in Hend. lia.
  - exists []. cbn [fst snd]. split_and!; [apply holds_nil|done|done|done| |done]. exists [], []. by rewrite app_nil_r.
  - pose proof (length_encode qs l) as Hn. fold src in Hn. lia.
Qed.

(** ** Properties *)

(** C30: For every input and every capacity the decompressor terminates, reads only bytes of the source and bytes it
    has written, writes only within the destination, from its start on, and returns -1 or the number of bytes
    written. *)
Theorem lz4_stays_in_bounds src cap :
  Forall is_byte src → len src < 2 ^ 32 → 0 ≤ cap < 2 ^ 32 →
  ∃ v d out, lz4_decompress src cap = Ret (v, d) ∧ holds d out ∧ len out ≤ cap ∧ (v = -1 ∨ v = signed 32 (len out)).
Proof.
  intros Hs Hl Hc. destruct (lz4_safe src cap Hs Hl Hc) as ([v d] & E & op & (out & Hd & -> & Ho) & Hv).
  by exists v, d, out.
Qed.

Lemma lz4_stays_in_bounds_witness :
  ∃ v d out, lz4_decompress [0xF0; 255; 255; 7] 64 = Ret (v, d) ∧ holds d out ∧ len out ≤ 64 ∧ (v = -1 ∨ v = signed 32 (len out)).
Proof. apply lz4_stays_in_bounds; [by repeat constructor|done|done]. Defined.

(** C29: Decompression inverts the block format: a block of sequences of literals and matches, with lengths of any size
    and overlapping matches, decompresses to exactly the text it describes, whose length is returned. *)
Theorem lz4_inverts_encoding qs l cap :
  block_ok qs [] → Forall is_byte l → len (encode_block qs l) < 2 ^ 32 → len (expand qs l []) ≤ cap → cap < 2 ^ 31 →
  ∃ d, lz4_decompress (encode_block qs l) cap = Ret (len (expand qs l []), d) ∧ holds d (expand qs l []).
Proof.
  intros Hq Hl Hlen Hfit Hcap. destruct (lz4_decodes qs l cap Hq Hl Hlen Hfit) as (d & E & Hd); [lia|].
  exists d. split; [|done]. rewrite E. unfold signed. rewrite Z.mod_small by (unfold len in *; lia).
  destruct (Z.ltb_spec (len (expand qs l [])) (2 ^ (32 - 1))); [done|lia].
Qed.

(** Three literals, an overlapping match, a match with a long length, and two literals at the end. *)
Definition sample : list sequence := [mkSeq [97; 98; 99] 3 9; mkSeq [] 1 300].

Lemma lz4_inverts_encoding_witness :
  ∃ d, lz4_decompress (encode_block sample [33; 10]) 400 = Ret (len (expand sample [33; 10] []), d) ∧
    holds d (expand sample [33; 10] []).
Proof.
  apply lz4_inverts_encoding; [|by repeat constructor|by vm_compute|by vm_compute|done].
  repeat split; try (by vm_compute); by repeat constructor.
Defined.
